(* ===== verification/_CoqProject ===== *)
-Q . S2P
Prelude.v
Math.v
Date.v
RateLimit.v
RingBuffer.v
Buffer.v
Histogram.v
HdrIterator.v
HdrMoments.v
Stats.v
MpmcQueue.v
Heap.v
Timer.v
Epoll.v
Text.v
Tokeniser.v
Options.v
OptionsHelp.v
VarSub.v
Config.v
StringBuf.v
Socket.v
SocketInterest.v
Datagram.v
Frame.v
Time.v
MagicRing.v
HttpStream.v
HttpRequest.v
Endpoint.v
Hook.v
Reactor.v
HttpConn.v
DateText.v
Resolver.v
Json.v
JsonDoc.v
JsonOps.v
JsonText.v
Signal.v
Capture.v
Pool.v
Connector.v
Logging.v
Values.v
HttpClnt.v
Handle.v
JsonAccess.v
