(* ===== verification/Prelude.v ===== *)
(** * Verification library of the Reactive C++ Toolbox: prelude and overview

    The Toolbox is a library for event-driven servers.  This development translates the
    logic of its own code ([src/toolbox]) into executable definitions and proves what
    makes it correct.  This file holds the overview below and what the other files
    share: machine integers, automation, lemmas about lists and arithmetic.

    ** The program and its model

    A _reactor_ ([io/MultiReactor.hpp], [io/Reactor.hpp]) runs a loop: it waits with a
    _poller_ ([io/Epoll.hpp]) for events of descriptors, fires the _timers_ that are due
    ([io/Timer.hpp]) and calls its _hooks_ ([io/Hook.hpp]).  A descriptor is held by a
    handle with a subscription and a slot, the callback; _asynchronous sockets_
    ([io/Socket.hpp], [io/DgramSocket.hpp]) are such callbacks, and _HTTP connections_
    ([http/Conn.hpp]) too, with timers, stream buffers ([io/Buffer.hpp]), a parser and
    requests.  Names are resolved by threads of their own ([net/Resolver.hpp]).  Threads
    and processes communicate by queues in shared memory ([ipc/]).  The rest are
    utilities: dates and times ([sys/]), histograms ([hdr/]), text, options,
    configuration, JSON ([util/]).

    The files follow these parts; where the code calls, the model calls.  A file and
    what it models (directories under [src/toolbox]):

    - Math: [next_pow2] and the like ([util/Math.hpp], [util/Bits.hpp]); Stats: the
      accumulator of [util/Math.hpp].
    - Date, Time, DateText: calendar ([sys/Date.hpp]), times ([sys/Time.hpp]), and both
      as text; rate limits as text ([net/RateLimit.cpp]).
    - RateLimit: the window of a rate limit ([net/RateLimit.hpp]).
    - RingBuffer: [util/RingBuffer.hpp]; Buffer: [io/Buffer.hpp].
    - Histogram, HdrIterator, HdrMoments: [hdr/]; doubles are those of [SpecFloat].
    - MpmcQueue: [ipc/MpmcQueue.hpp]; MagicRing: [ipc/MagicRingBuffer.hpp].
    - Heap, Timer: [io/Timer.hpp], over the class [StdHeap] of what it needs from the heap
      functions of C++.
    - Epoll: subscriptions, poller and dispatch ([io/Reactor.hpp], [io/Epoll.hpp]).
    - Hook: [io/Hook.hpp]; Reactor: a cycle of the loop, composed of the definitions of
      Epoll and Timer, and starting and stopping ([io/MultiReactor.hpp], [io/Runner.hpp]).
    - Socket, SocketInterest, Datagram: asynchronous sockets, on top of Epoll; the
      class [WriteImpl] is how stream and datagram sockets differ.
    - Text, Tokeniser, Options, OptionsHelp, VarSub, Config, StringBuf: text, command line and
      configuration ([util/String.hpp], [util/Utility.hpp], [util/Tokeniser.hpp],
      [util/Options.hpp], [util/VarSub.hpp], [util/Config.hpp], [util/StringBuf.hpp]).
    - Frame: frames and byte order ([net/Frame.hpp], [net/Endian.hpp]), with a receiver
      over Buffer; Endpoint: URLs, endpoints and filters of them ([net/ParsedUrl.hpp],
      [net/Endpoint.hpp], [net/EndpointFilter.hpp]); Capture: captured packets and their
      device ([net/Pcap.ipp]), over Signal and the filters.
    - Resolver: [net/Resolver.hpp] with its threads.
    - HttpStream, HttpRequest, HttpConn: [http/]; the output is that of Buffer, the
      subscription that of Epoll, the poller the one that Reactor finds.
    - Json, JsonDoc, JsonOps, JsonAccess, JsonText: [util/Json.hpp].
    - Signal: [util/Slot.hpp]; Pool: [util/Pool.hpp], [util/RefCount.hpp].
    - Connector, HttpClnt: connecting ([net/StreamConnector.hpp]), accepting
      ([net/StreamAcceptor.hpp]) and the client that connects again ([http/Clnt.hpp]),
      over Epoll; the class [Kernel] hands out descriptors.  Handle: what owns a
      descriptor ([io/Handle.hpp]).
    - Logging: bounded streams and the log ([util/Stream.hpp], [sys/Log.hpp]); Values: bit
      masks, versions, interned strings ([util/Enum.hpp], [util/Version.hpp],
      [util/InternedStrings.hpp]).

    State is a record with the members of the class, under their names; an operation is
    a function from the state to the new one and the result, under the name of the
    method; the guards are those of the code.  Errors that the code throws or returns
    are values of an option, a sum or an inductive type of outcomes; behaviour that the
    language leaves undefined is an outcome of its own (or no value), so that theorems
    show its absence.  Callbacks of the program are arbitrary functions that return the
    operations they call.  Threads are transition systems with one access to shared
    memory per step, in any order (memory is sequentially consistent).  Results of
    system calls are inputs.

    ** What is proved

    - Refinement: the queues, buffers and rings behave as lists ([mpmc_refines_fifo],
      [ring_refines_bounded_list], [spsc_fifo], [buffer_is_stream], [datagrams_fifo],
      [output_is_fifo]), a rate window as the history of its calls, the receiver of
      frames as the messages sent, for any cutting of the stream, JSON documents as
      values under functional updates ([document_computes_value]) that are compared and
      read as values ([equal_elements_same_value], [document_reads_value]).
    - Safety: no use of freed timers, requests or objects ([timers_memory_safe],
      [deleted_once], [object_deleted_once], [pool_objects_disjoint]), with callbacks
      that cancel, close and delete; reads follow the protocol of the socket, and
      callbacks of connections that of the connector ([connector_protocol]).
    - Invariants and interaction: the poller's table and the kernel's
      ([subscriptions_consistent]), registered interest ([stream_no_lost_wakeups],
      [datagram_no_lost_wakeups]), conservation of tasks and
      of descriptors ([tasks_conserved], [sockets_accounted], [handles_close_once]), at
      most one connection of a client ([one_connection_at_a_time]).
    - Functional: timers fire when due, in order; percentiles have their rank, mean and
      deviation are those of the samples ([moments_of_samples]); response heads announce
      their content's length; requests are reassembled from any pieces; a device gives
      every captured packet of IPv4 to its observers ([device_delivers]).
    - Types: masks are well-formed and stand for sets ([mask_is_set]).
    - Round trips: dates, times and their text, byte order, copies of JSON texts, fields of
      captured frames ([captured_frame_read]).
    - Bounds: a pool's objects lie in its slabs ([pool_objects_disjoint]); a packet's data are
      in what was captured unless it was cut off ([data_in_bounds]).
    - Termination and progress: [stop_completes], [mpmc_push_alone]; every function of
      the model is total, and where it has fuel, a lemma gives the amount that is enough,
      unless the code itself may not end (VarSub, the constructor of Histogram).

    Where the code does not do what it means to, a theorem or an example says what
    it does: a stopped loop sleeps until its timeout ([stop_does_not_wake]), HTTP connections
    find no poller ([no_poller_for_connection]) and never send what the socket does not
    take at once ([blocked_output_stalls]), a queue with a capacity that is not a power of
    two runs dry ([mpmc_constructor_capacity]), a document's growing vector moves its
    elements ([full_vector_dangles]), handles reset while batching stay registered (Epoll),
    sockets that are reopened receive no events and sockets constructed with a reactor
    those of another descriptor (SocketInterest), captures with a limit are read out of
    bounds (Capture), the maximum of negative values is positive ([max_of_negatives]), a
    message whose operand logs loses its beginning ([nested_message_replaces]),
    substituted variables may loop (VarSub), and others.

    ** Bounds and fuel

    Integers have the width of the code: unsigned ones wrap, and signed results that do
    not fit have no value, or are shown not to arise from the bounds that a theorem states.
    Loops that are not structural have fuel: that of VarSub and the count of
    buckets of Histogram may not end, which are findings; for the others the fuel is the number of characters, elements or events that
    are left, plus one, of which every turn consumes one (Tokeniser, Options, Text,
    Frame, Json); dispatch of timers takes one of the timers that were due per turn, and
    a dispatch of hooks one of those that were linked, or added by a callback.

    ** What is not modelled

    - The wrappers of system calls: sockets and addresses ([net/Sock.hpp], [net/IpAddr.hpp]),
      files, pipes, kernel timers, wakers, mapped and shared memory, futexes, daemons,
      signals, threads.  Their results are inputs of the model.
    - Vendored code ([contrib/]) and the adaptors of it; where the program relies on it
      (the HTTP parser, the heap of the standard library), it is an input or a class.
    - Templates over language features (traits, tuples, coroutines), the benchmark
      harness, a client of libcurl ([curlite/]).
    - Code that compiles in no use: connecting and accepting by [io/StreamSocket.hpp] (the
      base class is passed as the derived one), the poller of [io/Qpoll.hpp] (it tests a
      ring buffer for truth, which has no such conversion), the sockets of [aeron/] (they
      call a [notify] that their base class does not have).  The one reactor in use,
      [os::Reactor], has one poller, and a cycle is modelled for one.
    - Within modelled parts: weak memory orders; the rounding of statistics (Stats shows
      them for exact arithmetic); the printed tables of [hdr/]; the
      client's side of a HTTP connection, which the source has not finished.

    ** Plan

    The parts that carry logic of their own are modelled.  What would come next is one
    program over all of them: callbacks of timers, descriptors and hooks that act on each
    other's parts within a cycle of the reactor, and the interest of a socket through its
    whole life. *)
From stdpp Require Export base tactics numbers list list_numbers option gmap relations.
From Stdlib Require Export ZArith Lia.

#[global] Open Scope Z_scope.

(** ** Machine integers

    An integer of the source is a [Z] in the range of its type.  Unsigned
    arithmetic is reduced modulo [2 ^ w]; a signed result is brought back into
    two's complement range. *)

Definition wrapu (w z : Z) : Z := z mod 2 ^ w.
Definition wraps (w z : Z) : Z := (z + 2 ^ (w - 1)) mod 2 ^ w - 2 ^ (w - 1).

Abbreviation u32 := (wrapu 32).
Abbreviation u64 := (wrapu 64).
Abbreviation i32 := (wraps 32).
Abbreviation i64 := (wraps 64).

Definition int32_min : Z := - 2 ^ 31.
Definition int32_max : Z := 2 ^ 31 - 1.
Definition int64_min : Z := - 2 ^ 63.
Definition int64_max : Z := 2 ^ 63 - 1.

(** ** Automation *)

Create HintDb toolbox.

(** Turn the boolean comparisons of the code into propositions. *)
Ltac zbool :=
  repeat match goal with
    | H : (_ <=? _) = true |- _ => apply Z.leb_le in H
    | H : (_ <=? _) = false |- _ => apply Z.leb_gt in H
    | H : (_ <? _) = true |- _ => apply Z.ltb_lt in H
    | H : (_ <? _) = false |- _ => apply Z.ltb_ge in H
    | H : (_ =? _) = true |- _ => apply Z.eqb_eq in H
    | H : (_ =? _) = false |- _ => apply Z.eqb_neq in H
    | H : (_ >? _) = _ |- _ => rewrite Z.gtb_ltb in H
    | H : (_ >=? _) = _ |- _ => rewrite Z.geb_leb in H
    | H : andb _ _ = true |- _ => apply andb_true_iff in H; destruct H
    | H : orb _ _ = false |- _ => apply orb_false_iff in H; destruct H
    | H : negb _ = true |- _ => apply negb_true_iff in H
    | H : negb _ = false |- _ => apply negb_false_iff in H
    end.

(** Case analysis on one boolean comparison of the goal. *)
Ltac zcase :=
  match goal with
  | |- context [?a <=? ?b] => destruct (Z.leb_spec a b)
  | |- context [?a <? ?b] => destruct (Z.ltb_spec a b)
  | |- context [?a =? ?b] => destruct (Z.eqb_spec a b)
  | |- context [?a >? ?b] => rewrite (Z.gtb_ltb a b); destruct (Z.ltb_spec b a)
  | |- context [?a >=? ?b] => rewrite (Z.geb_leb a b); destruct (Z.leb_spec b a)
  end.

(** Split every conjunction of the context. *)
Ltac splits_hyps := repeat match goal with H : _ /\ _ |- _ => destruct H end.

(** ** Lemmas on machine integers *)

Lemma wrapu_range (w z : Z) : 0 <= w -> 0 <= wrapu w z < 2 ^ w.
Proof. intros. unfold wrapu. apply Z.mod_pos_bound. lia. Qed.

Lemma wrapu_small (w z : Z) : 0 <= z < 2 ^ w -> wrapu w z = z.
Proof. apply Z.mod_small. Qed.

Lemma wrapu_idemp (w z : Z) : 0 <= w -> wrapu w (wrapu w z) = wrapu w z.
Proof. intros. unfold wrapu. apply Z.mod_mod. lia. Qed.

Lemma wrapu_add_l (w a b : Z) : 0 <= w -> wrapu w (wrapu w a + b) = wrapu w (a + b).
Proof. intros. unfold wrapu. apply Zplus_mod_idemp_l. Qed.

Lemma wrapu_sub_l (w a b : Z) : 0 <= w -> wrapu w (wrapu w a - b) = wrapu w (a - b).
Proof. intros. unfold wrapu. apply Zminus_mod_idemp_l. Qed.

Lemma wrapu_sub_wrapu (w a b : Z) :
  0 <= w -> wrapu w (wrapu w a - wrapu w b) = wrapu w (a - b).
Proof. intros. unfold wrapu. symmetry. apply Zminus_mod. Qed.

Lemma wraps_small (w z : Z) :
  0 < w -> - 2 ^ (w - 1) <= z < 2 ^ (w - 1) -> wraps w z = z.
Proof.
  intros Hw Hz. unfold wraps. rewrite Z.mod_small; [lia|].
  replace (2 ^ w) with (2 * 2 ^ (w - 1)); [lia|].
  rewrite <- Z.pow_succ_r by lia. f_equal. lia.
Qed.

Lemma wraps_range (w z : Z) :
  0 < w -> - 2 ^ (w - 1) <= wraps w z < 2 ^ (w - 1).
Proof.
  intros Hw. unfold wraps.
  pose proof (Z.mod_pos_bound (z + 2 ^ (w - 1)) (2 ^ w) ltac:(lia)).
  replace (2 ^ w) with (2 * 2 ^ (w - 1)) in *; [lia|].
  rewrite <- Z.pow_succ_r by lia. f_equal. lia.
Qed.

#[export] Hint Resolve wrapu_range wraps_range : toolbox.

(** ** Lemmas on bits and powers of two *)

Lemma land_pred_pow2 (z k : Z) : 0 <= k -> Z.land z (2 ^ k - 1) = z mod 2 ^ k.
Proof. intros Hk. rewrite <- Z.land_ones by done. f_equal. rewrite Z.ones_equiv. lia. Qed.

Lemma pow2_pos (k : Z) : 0 <= k -> 0 < 2 ^ k.
Proof. intros. lia. Qed.

Lemma pow2_split (a b : Z) : 0 <= a <= b -> 2 ^ b = 2 ^ a * 2 ^ (b - a).
Proof. intros. rewrite <- Z.pow_add_r by lia. f_equal. lia. Qed.

Lemma mod_mod_pow2 (z a b : Z) :
  0 <= a <= b -> (z mod 2 ^ b) mod 2 ^ a = z mod 2 ^ a.
Proof.
  intros Hab. apply Z.mod_mod_divide.
  exists (2 ^ (b - a)). rewrite (pow2_split a b) by lia. lia.
Qed.

(** Numbers without common bits. *)
Lemma lor_add_pow2 (k a b : Z) : 0 <= k -> 0 <= b < 2 ^ k -> Z.lor (a * 2 ^ k) b = a * 2 ^ k + b.
Proof.
  intros Hk Hb. pose proof (Z.add_lor_land (a * 2 ^ k) b).
  assert (Z.land (a * 2 ^ k) b = 0) as Hz; [|lia].
  replace b with (Z.land (Z.ones k) b) by (rewrite Z.land_comm, Z.land_ones, Z.mod_small by lia; done).
  rewrite Z.land_assoc, Z.land_ones, Z.mod_mul by lia. apply Z.land_0_l.
Qed.

#[export] Hint Resolve pow2_pos : toolbox.
