(* ===== verification/Math.v ===== *)
(** * Power-of-two arithmetic

    Models [toolbox/util/Math.hpp] (the integer functions) and the [clz] of
    [toolbox/util/Bits.hpp].  The capacity of every ring of the library goes
    through [next_pow2]; the rings are in the files RingBuffer and MpmcQueue. *)
From S2P Require Import Prelude.

(** [clz] of a [w]-bit value: the builtin is undefined at zero, where no caller
    of the library applies it. *)
Definition clz (w i : Z) : Z := w - 1 - Z.log2 i.

Definition is_pow2 (n : Z) : bool := (0 <? n) && (Z.land n (n - 1) =? 0).

(** The expression [1 << k] has type [int]: a result up to [2 ^ 31] is
    converted back to [int], a shift by the width of [int] or more has no
    defined result. *)
Definition int_shl_one (k : Z) : option Z :=
  if (0 <=? k) && (k <? 32) then Some (i32 (2 ^ k)) else None.

(** [next_pow2(unsigned)]: the [int] result converts to 32 bits. *)
Definition next_pow2_uint (n : Z) : option Z :=
  if n <=? 1 then Some 1
  else option_map u32 (int_shl_one (32 - clz 32 (n - 1))).

(** [next_pow2(unsigned long)]: the [int] result converts to 64 bits. *)
Definition next_pow2 (n : Z) : option Z :=
  if n <=? 1 then Some 1
  else option_map u64 (int_shl_one (64 - clz 64 (n - 1))).

Definition ceil_pow2 (bits size : Z) : Z :=
  Z.shiftl (Z.shiftr (u64 (size + (2 ^ bits - 1))) bits) bits.

(** ** Lemmas *)

Lemma clz_bits (w i : Z) : w - clz w i = Z.log2 i + 1.
Proof. unfold clz. lia. Qed.

Lemma log2_pred_bounds (n : Z) :
  1 < n -> 2 ^ Z.log2 (n - 1) < n <= 2 ^ (Z.log2 (n - 1) + 1).
Proof.
  intros Hn. pose proof (Z.log2_spec (n - 1) ltac:(lia)) as [H1 H2].
  rewrite <- Z.add_1_r in H2. lia.
Qed.

Lemma log2_pred_lt (n k : Z) : 0 <= k -> 1 < n <= 2 ^ k -> Z.log2 (n - 1) + 1 <= k.
Proof.
  intros Hk Hn. enough (Z.log2 (n - 1) < k) by lia.
  destruct (decide (k = 0)) as [-> | Hk0]; [lia|].
  apply Z.log2_lt_pow2; lia.
Qed.

Lemma int_shl_one_small (k : Z) : 0 <= k <= 30 -> int_shl_one k = Some (2 ^ k).
Proof.
  intros Hk. unfold int_shl_one.
  rewrite (proj2 (Z.leb_le 0 k)), (proj2 (Z.ltb_lt k 32)) by lia. cbn [andb].
  assert (2 ^ k <= 2 ^ 30) by (apply Z.pow_le_mono_r; lia).
  rewrite wraps_small; [done | lia |]. cbn. lia.
Qed.

(** The capacity computed by a ring's constructor, for every size a program
    can ask for: the next power of two exists, and is minimal. *)
Lemma next_pow2_minimal (n : Z) :
  0 <= n <= 2 ^ 30 ->
  exists k, 0 <= k <= 30 /\ next_pow2 n = Some (2 ^ k) /\ n <= 2 ^ k
    /\ (forall j, 0 <= j -> n <= 2 ^ j -> k <= j).
Proof.
  intros Hn. unfold next_pow2. zcase.
  - exists 0. rewrite Z.pow_0_r. repeat split; try lia.
  - pose proof (log2_pred_bounds n ltac:(lia)) as Hb.
    pose proof (Z.log2_nonneg (n - 1)).
    pose proof (log2_pred_lt n 30 ltac:(lia) ltac:(lia)).
    exists (Z.log2 (n - 1) + 1).
    rewrite clz_bits, int_shl_one_small by lia. cbn [option_map].
    assert (2 ^ (Z.log2 (n - 1) + 1) <= 2 ^ 30) by (apply Z.pow_le_mono_r; lia).
    rewrite wrapu_small by (split; [lia | cbn; lia]).
    repeat split; try lia. intros j Hj Hnj. apply log2_pred_lt; lia.
Qed.

Lemma is_pow2_pow2 (k : Z) : 0 <= k -> is_pow2 (2 ^ k) = true.
Proof.
  intros Hk. unfold is_pow2. rewrite land_pred_pow2, Z.mod_same by lia.
  rewrite (proj2 (Z.ltb_lt _ _)) by lia. reflexivity.
Qed.

Lemma is_pow2_inv (n : Z) : is_pow2 n = true -> n = 2 ^ Z.log2 n.
Proof.
  unfold is_pow2. intros H. zbool.
  pose proof (Z.log2_spec n ltac:(lia)) as [Hlo Hhi].
  destruct (decide (n = 2 ^ Z.log2 n)) as [He | Hne]; [exact He | exfalso].
  assert (Z.log2 (n - 1) = Z.log2 n) as Hlog.
  { apply Z.log2_unique; [apply Z.log2_nonneg | lia]. }
  assert (Z.testbit (Z.land n (n - 1)) (Z.log2 n) = true) as Hbit.
  { rewrite Z.land_spec. rewrite Z.bit_log2 by lia.
    rewrite <- Hlog at 1. rewrite Z.bit_log2; [done | pose proof (Z.log2_nonneg n); lia]. }
  rewrite H0, Z.bits_0 in Hbit. done.
Qed.

(** ** Properties *)

(** The constructor capacity [next_pow2]: on every request up to [2 ^ 30] the
    function is defined and returns the least power of two that is at least
    the request, which [is_pow2] accepts; from there on the shift of the [int]
    constant one is lost: up to [2 ^ 31] the result is the sign-extended
    [- 2 ^ 31], not a power of two, and beyond it there is none. *)
Theorem next_pow2_ranges (n : Z) (Hn : 0 <= n < 2 ^ 64) :
  (n <= 2 ^ 30 -> exists k, 0 <= k <= 30 /\ next_pow2 n = Some (2 ^ k)
     /\ n <= 2 ^ k /\ is_pow2 (2 ^ k) = true
     /\ (forall j, 0 <= j -> n <= 2 ^ j -> k <= j))
  /\ (2 ^ 30 < n <= 2 ^ 31 -> exists p, next_pow2 n = Some p /\ is_pow2 p = false)
  /\ (2 ^ 31 < n -> next_pow2 n = None).
Proof.
  repeat split.
  - intros Hs. destruct (next_pow2_minimal n ltac:(lia)) as (k & ? & ? & ? & ?).
    exists k. eauto 10 using is_pow2_pow2 with lia.
  - intros Hs. assert (Z.log2 (n - 1) = 30) as Hl.
    { apply Z.log2_unique; [lia|]. change (Z.succ 30) with 31. lia. }
    unfold next_pow2. rewrite clz_bits, Hl. zcase; [lia|].
    eexists. split; [reflexivity | vm_compute; reflexivity].
  - intros Hs. assert (31 <= Z.log2 (n - 1)).
    { apply Z.log2_le_pow2; lia. }
    unfold next_pow2, int_shl_one. rewrite clz_bits. zcase; [lia|].
    rewrite (proj2 (Z.ltb_ge _ 32)) by lia. by rewrite andb_false_r.
Qed.

(** The 32-bit overload has no such gap: its [int] result converts back to the
    unsigned value, so it is right on every request up to [2 ^ 31]. *)
Theorem next_pow2_uint_minimal (n : Z) (Hn : 0 <= n <= 2 ^ 31) :
  exists k, 0 <= k <= 31 /\ next_pow2_uint n = Some (2 ^ k) /\ n <= 2 ^ k
    /\ (forall j, 0 <= j -> n <= 2 ^ j -> k <= j).
Proof.
  unfold next_pow2_uint. zcase.
  - exists 0. rewrite Z.pow_0_r. repeat split; try lia.
  - pose proof (log2_pred_bounds n ltac:(lia)) as Hb.
    pose proof (Z.log2_nonneg (n - 1)).
    pose proof (log2_pred_lt n 31 ltac:(lia) ltac:(lia)).
    exists (Z.log2 (n - 1) + 1). rewrite clz_bits.
    destruct (decide (Z.log2 (n - 1) + 1 = 31)) as [He | Hk].
    + rewrite He. repeat split; try lia. intros j Hj Hnj.
      pose proof (log2_pred_lt n j Hj ltac:(lia)). lia.
    + rewrite int_shl_one_small by lia. cbn [option_map].
      assert (2 ^ (Z.log2 (n - 1) + 1) <= 2 ^ 30) by (apply Z.pow_le_mono_r; lia).
      rewrite wrapu_small by (split; [lia | cbn; lia]).
      repeat split; try lia. intros j Hj Hnj. apply log2_pred_lt; lia.
Qed.

(** [is_pow2] decides exactly the powers of two. *)
Theorem is_pow2_correct (n : Z) : is_pow2 n = true <-> exists k, 0 <= k /\ n = 2 ^ k.
Proof.
  split.
  - intros H. exists (Z.log2 n). auto using Z.log2_nonneg, is_pow2_inv.
  - intros (k & Hk & ->). by apply is_pow2_pow2.
Qed.

(** [ceil_pow2<BitsN>] rounds up to the next multiple of [2 ^ BitsN] whenever
    the 64-bit sum does not wrap. *)
Theorem ceil_pow2_rounds_up (bits size : Z)
  (Hb : 0 <= bits <= 30) (Hs : 0 <= size) (Hov : size + 2 ^ bits <= 2 ^ 64) :
  (2 ^ bits | ceil_pow2 bits size) /\ size <= ceil_pow2 bits size < size + 2 ^ bits.
Proof.
  unfold ceil_pow2. rewrite Z.shiftl_mul_pow2, Z.shiftr_div_pow2 by lia.
  pose proof (pow2_pos bits ltac:(lia)).
  rewrite wrapu_small by lia. split; [apply Z.divide_factor_r|].
  pose proof (Z.div_mod (size + (2 ^ bits - 1)) (2 ^ bits) ltac:(lia)).
  pose proof (Z.mod_pos_bound (size + (2 ^ bits - 1)) (2 ^ bits) ltac:(lia)). lia.
Qed.

Lemma next_pow2_ranges_witness :
  exists k, 0 <= k <= 30 /\ next_pow2 100 = Some (2 ^ k) /\ 100 <= 2 ^ k
    /\ is_pow2 (2 ^ k) = true /\ (forall j, 0 <= j -> 100 <= 2 ^ j -> k <= j).
Proof. apply (proj1 (next_pow2_ranges 100 ltac:(lia))). lia. Defined.
