(* ===== verification/Date.v ===== *)
(** * Calendar dates and Julian days

    Models [toolbox/sys/Date.hpp]: the conversions between year, month and day,
    ISO8601 dates in the form [yyyymmdd] and Julian day numbers, the modified
    and truncated Julian days, and the conversion of a day to Unix time.  The
    [int] arithmetic of the source is checked: an expression with a result that
    does not fit in 32 bits, or a division by zero, has no value. *)
From S2P Require Import Prelude.

(** ** Checked [int] arithmetic *)
Module CInt.

(** A C++ [int] expression: its value, unless its evaluation overflows. *)
Abbreviation cint := (option Z).

Definition chk (z : Z) : cint :=
  if (int32_min <=? z) && (z <=? int32_max) then Some z else None.

Definition lit (z : Z) : cint := Some z.

Definition lift2 (op : Z -> Z -> Z) (x y : cint) : cint :=
  match x, y with Some a, Some b => chk (op a b) | _, _ => None end.

Definition div2 (op : Z -> Z -> Z) (x y : cint) : cint :=
  match x, y with
  | Some a, Some b => if b =? 0 then None else chk (op a b)
  | _, _ => None
  end.

(** Division of [int] truncates towards zero. *)
Definition add := lift2 Z.add.
Definition sub := lift2 Z.sub.
Definition mul := lift2 Z.mul.
Definition div := div2 Z.quot.
Definition rem := div2 Z.rem.

End CInt.
Import CInt.

Declare Scope cint_scope.
Delimit Scope cint_scope with cint.
Notation "# z" := (lit z) (at level 1, format "# z") : cint_scope.
Infix "+" := add : cint_scope.
Infix "-" := sub : cint_scope.
Infix "*" := mul : cint_scope.
Infix "/" := div : cint_scope.
Notation "x % y" := (rem x y) (at level 40, left associativity) : cint_scope.

(** ** The conversions *)

(** The values of [IsoDate] and [JDay], both 32-bit wrappers. *)
Definition ymd_to_iso (year mon mday : Z) : cint :=
  (#year * #10000 + #mon * #100 + #mday)%cint.

Definition ymd_to_jd (year mon mday : Z) : cint :=
  (let i := #year in
   let j := #mon in
   let k := #mday in
   k - #32075 + #1461 * (i + #4800 + (j - #14) / #12) / #4
     + #367 * (j - #2 - (j - #14) / #12 * #12) / #12
     - #3 * ((i + #4900 + (j - #14) / #12) / #100) / #4)%cint.

Definition iso_to_jd (iso : Z) : cint :=
  let n := #iso%cint in
  year ← (n / #10000)%cint;
  mon ← (n / #100 % #100)%cint;
  mday ← (n % #100)%cint;
  ymd_to_jd year mon mday.

(** The year, month and day computed by [jd_to_iso] before they are packed. *)
Definition jd_to_ymd (jd : Z) : option (Z * Z * Z) :=
  l ← (#jd + #68569)%cint;
  n ← (#4 * #l / #146097)%cint;
  l ← (#l - (#146097 * #n + #3) / #4)%cint;
  i ← (#4000 * (#l + #1) / #1461001)%cint;
  l ← (#l - #1461 * #i / #4 + #31)%cint;
  j ← (#80 * #l / #2447)%cint;
  k ← (#l - #2447 * #j / #80)%cint;
  l ← (#j / #11)%cint;
  j ← (#j + #2 - #12 * #l)%cint;
  i ← (#100 * (#n - #49) + #i + #l)%cint;
  Some (i, j, k).

Definition jd_to_iso (jd : Z) : cint :=
  '(i, j, k) ← jd_to_ymd jd;
  (#i * #10000 + #j * #100 + #k)%cint.

Definition jd_to_mjd (jd : Z) : cint := (#jd - #2400000)%cint.
Definition mjd_to_jd (mjd : Z) : cint := (#mjd + #2400000)%cint.
Definition jd_to_tjd (jd : Z) : cint := (#jd - #2440000)%cint.
Definition tjd_to_jd (tjd : Z) : cint := (#tjd + #2440000)%cint.

(** Nanoseconds since the Unix epoch of noon on the day: the day count since
    January 1st 1970 is an [int], the milliseconds are 64 bits wide. *)
Definition ms_in_day : Z := 24 * 60 * 60 * 1000.
Definition jd_to_time (jd : Z) : option Z :=
  days ← (#jd - #2440588)%cint;
  Some (i64 (i64 (days * ms_in_day + Z.shiftr ms_in_day 1) * 1000000)).

Definition maybe_jd_to_iso (jd : Z) : cint :=
  if jd =? 0 then Some 0 else jd_to_iso jd.
Definition maybe_iso_to_jd (iso : Z) : cint :=
  if iso =? 0 then Some 0 else iso_to_jd iso.

Definition is_week_day (jd : Z) : bool := Z.rem jd 7 <? 5.
Definition is_weekend_day (jd : Z) : bool := negb (is_week_day jd).

Example ymd_to_jd_test : ymd_to_jd 2014 3 14 = Some 2456731.
Proof. reflexivity. Qed.
Example jd_to_iso_test : jd_to_iso 2456731 = Some 20140314.
Proof. reflexivity. Qed.
Example jd_to_time_test : jd_to_time 2456731 = Some (1394798400000 * 1000000).
Proof. reflexivity. Qed.

(** ** The calendar as a specification

    The Gregorian calendar by its leap years and month lengths, independent of
    the formulas above. *)
Definition leap (y : Z) : bool :=
  (y mod 4 =? 0) && (negb (y mod 100 =? 0) || (y mod 400 =? 0)).

Definition days_in_month (y m : Z) : Z :=
  if m =? 2 then (if leap y then 29 else 28)
  else if (m =? 4) || (m =? 6) || (m =? 9) || (m =? 11) then 30 else 31.

Definition valid_date (y m d : Z) : bool :=
  (1 <=? m) && (m <=? 12) && (1 <=? d) && (d <=? days_in_month y m).

Definition next_day (date : Z * Z * Z) : Z * Z * Z :=
  let '(y, m, d) := date in
  if d <? days_in_month y m then (y, m, d + 1)
  else if m <? 12 then (y, m + 1, 1)
  else (y + 1, 1, 1).

(** Calendar order. *)
Definition date_lt (a b : Z * Z * Z) : Prop :=
  let '(y, m, d) := a in
  let '(y', m', d') := b in
  y < y' \/ (y = y' /\ (m < m' \/ (m = m' /\ d < d'))).

(** A day of the week by counting from a known Saturday, 0 being Monday. *)
Inductive weekday : Z * Z * Z -> Z -> Prop :=
| weekday_anchor : weekday (2000, 1, 1) 5
| weekday_next date k : weekday date k -> weekday (next_day date) ((k + 1) mod 7).

(** ** Evaluation without overflow *)

#[local] Ltac Zify.zify_post_hook ::= Z.div_mod_to_equations.

Definition jdz (y m d : Z) : Z :=
  let q := if m <=? 2 then -1 else 0 in
  d - 32075 + 1461 * (y + 4800 + q) / 4 + 367 * (m - 2 - q * 12) / 12
    - 3 * ((y + 4900 + q) / 100) / 4.

Definition ymdz (jd : Z) : Z * Z * Z :=
  let l := jd + 68569 in
  let n := 4 * l / 146097 in
  let l := l - (146097 * n + 3) / 4 in
  let i := 4000 * (l + 1) / 1461001 in
  let l := l - 1461 * i / 4 + 31 in
  let j := 80 * l / 2447 in
  let k := l - 2447 * j / 80 in
  let l := j / 11 in
  (100 * (n - 49) + i + l, j + 2 - 12 * l, k).

Lemma chk_some (z : Z) : int32_min <= z <= int32_max -> chk z = Some z.
Proof. intros H. unfold chk. by rewrite !(proj2 (Z.leb_le _ _)) by lia. Qed.

Lemma add_eval x y a b :
  x = Some a -> y = Some b -> int32_min <= a + b <= int32_max -> add x y = Some (a + b).
Proof. intros -> ->. apply chk_some. Qed.

Lemma sub_eval x y a b :
  x = Some a -> y = Some b -> int32_min <= a - b <= int32_max -> sub x y = Some (a - b).
Proof. intros -> ->. apply chk_some. Qed.

Lemma mul_eval x y a b :
  x = Some a -> y = Some b -> int32_min <= a * b <= int32_max -> mul x y = Some (a * b).
Proof. intros -> ->. apply chk_some. Qed.

Lemma div_eval x y a b :
  x = Some a -> y = Some b -> 0 <= a <= int32_max -> 0 < b -> div x y = Some (a / b).
Proof.
  intros -> -> Ha Hb. unfold div, div2. zcase; [lia|].
  rewrite Z.quot_div_nonneg by lia. apply chk_some.
  pose proof (Z.div_pos a b ltac:(lia) ltac:(lia)).
  pose proof (Z.div_le_upper_bound a b a ltac:(lia) ltac:(nia)).
  unfold int32_min. lia.
Qed.

Lemma rem_eval x y a b :
  x = Some a -> y = Some b -> 0 <= a -> 0 < b <= int32_max -> rem x y = Some (a mod b).
Proof.
  intros -> -> Ha Hb. unfold rem, div2. zcase; [lia|].
  rewrite Z.rem_mod_nonneg by lia. apply chk_some.
  pose proof (Z.mod_pos_bound a b ltac:(lia)). unfold int32_min. lia.
Qed.

(** The one division of a negative value: [(mon - 14) / 12]. *)
Lemma quarter_shift_eval m :
  1 <= m <= 12 -> ((#m - #14) / #12)%cint = Some (if m <=? 2 then -1 else 0).
Proof.
  intros Hm.
  assert (m = 1 \/ m = 2 \/ m = 3 \/ m = 4 \/ m = 5 \/ m = 6 \/ m = 7 \/ m = 8
          \/ m = 9 \/ m = 10 \/ m = 11 \/ m = 12) by lia.
  destruct_or!; subst; reflexivity.
Qed.

(** Evaluate a checked expression bottom-up; what remains are range goals. *)
Ltac cint_eval :=
  repeat first
    [ reflexivity
    | apply quarter_shift_eval; lia
    | eapply add_eval | eapply sub_eval | eapply mul_eval | eapply div_eval | eapply rem_eval ].

Lemma ymd_to_jd_eval y m d :
  -4799 <= y <= 214747 -> 1 <= m <= 12 -> 1 <= d <= 31 ->
  ymd_to_jd y m d = Some (jdz y m d).
Proof.
  intros Hy Hm Hd. unfold ymd_to_jd, jdz.
  assert (-1 <= (if m <=? 2 then -1 else 0) <= 0) as Hq by (zcase; lia).
  assert (1 <= m - 2 - (if m <=? 2 then -1 else 0) * 12 <= 12) as Hmm by (zcase; lia).
  cbv zeta. cint_eval; unfold int32_min, int32_max; lia.
Qed.

Lemma ymd_to_iso_eval y m d :
  0 <= y <= 214747 -> 1 <= m <= 12 -> 1 <= d <= 31 ->
  ymd_to_iso y m d = Some (y * 10000 + m * 100 + d).
Proof.
  intros Hy Hm Hd. unfold ymd_to_iso. cint_eval; unfold int32_min, int32_max; lia.
Qed.

Lemma iso_to_jd_eval y m d :
  0 <= y <= 214747 -> 1 <= m <= 12 -> 1 <= d <= 31 ->
  iso_to_jd (y * 10000 + m * 100 + d) = Some (jdz y m d).
Proof.
  intros Hy Hm Hd. unfold iso_to_jd. cbv zeta.
  set (n := y * 10000 + m * 100 + d).
  assert ((#n / #10000)%cint = Some y) as ->.
  { replace y with (n / 10000) at 1 by (unfold n; lia).
    cint_eval; unfold n, int32_max; lia. }
  assert ((#n / #100 % #100)%cint = Some m) as ->.
  { replace m with (n / 100 mod 100) at 1 by (unfold n; lia).
    cint_eval; unfold n, int32_max; lia. }
  assert ((#n % #100)%cint = Some d) as ->.
  { replace d with (n mod 100) at 1 by (unfold n; lia).
    cint_eval; unfold n, int32_max; lia. }
  cbn [mbind option_bind]. apply ymd_to_jd_eval; lia.
Qed.

(** One bound step of [jd_to_ymd]: its checked right-hand side has a value. *)
Lemma bind_eval {A} (x : cint) (v : Z) (f : Z -> option A) (r : option A) :
  x = Some v -> f v = r -> (x ≫= f) = r.
Proof. intros -> <-. done. Qed.

Lemma jd_to_ymd_eval jd : 0 <= jd <= 536802342 -> jd_to_ymd jd = Some (ymdz jd).
Proof.
  intros Hjd. unfold jd_to_ymd, ymdz.
  repeat (eapply bind_eval; [cint_eval; unfold int32_min, int32_max; lia|]).
  reflexivity.
Qed.

(** ** The day formulas against the calendar

    The proof follows the formula: a date is split into a century, a year of the
    century, and a day of a year that starts in March. *)

Definition jd_of (date : Z * Z * Z) : Z := let '(y, m, d) := date in jdz y m d.
Definition valid (date : Z * Z * Z) : bool := let '(y, m, d) := date in valid_date y m d.

Lemma days_in_month_bounds y m : 28 <= days_in_month y m <= 31.
Proof. unfold days_in_month. repeat case_match; lia. Qed.

Lemma valid_date_bounds y m d : valid_date y m d = true -> 1 <= m <= 12 /\ 1 <= d <= 31.
Proof.
  unfold valid_date. intros H. zbool. pose proof (days_in_month_bounds y m). lia.
Qed.

Lemma leap_spec y :
  if leap y then y mod 4 = 0 /\ (y mod 100 <> 0 \/ y mod 400 = 0)
  else y mod 4 <> 0 \/ (y mod 100 = 0 /\ y mod 400 <> 0).
Proof. unfold leap. repeat zcase; cbn; auto. Qed.

(** Day of the March-based year. *)
Lemma century_stage yy f :
  0 <= f <= 365 ->
  (f = 365 -> (yy + 1) mod 4 = 0 /\ ((yy + 1) mod 100 <> 0 \/ (yy + 1) mod 400 = 0)) ->
  let l := f + 36525 + 1461 * yy / 4 - 3 * ((yy + 100) / 100) / 4 in
  4 * l / 146097 = yy / 100 + 1
  /\ l - (146097 * (yy / 100 + 1) + 3) / 4 = 1461 * (yy mod 100) / 4 + f.
Proof.
  intros Hf Hleap. cbv zeta.
  set (c := yy / 100). set (i := yy mod 100).
  assert (yy = 100 * c + i /\ 0 <= i < 100) as [Hy Hi] by (unfold c, i; lia).
  replace ((yy + 100) / 100) with (c + 1) by (unfold c; lia). clearbody c i. subst yy.
  replace (1461 * (100 * c + i) / 4) with (36525 * c + 1461 * i / 4) by lia.
  assert (1461 * i / 4 + f <= 36523 \/ (1461 * i / 4 + f <= 36524 /\ (c + 1) mod 4 = 0)) as He.
  { destruct (decide (i = 99)) as [-> | H99]; [|lia].
    destruct (decide (f = 365)) as [Hf' | Hf']; [|lia].
    specialize (Hleap Hf'). right. lia. }
  clear Hleap. split; lia.
Qed.

Lemma year_stage i f :
  0 <= i < 100 -> 0 <= f <= 365 -> (f = 365 -> i mod 4 = 3) ->
  4000 * (1461 * i / 4 + f + 1) / 1461001 = i.
Proof. intros Hi Hf Hleap. lia. Qed.

Lemma month_stage mm d :
  1 <= mm <= 12 -> 1 <= d <= 31 -> (mm = 2 \/ mm = 4 \/ mm = 7 \/ mm = 9 -> d <= 30) ->
  (mm = 12 -> d <= 29) ->
  80 * (367 * mm / 12 + d) / 2447 = mm /\ 367 * mm / 12 + d - 2447 * mm / 80 = d.
Proof.
  intros Hm Hd H30 H29.
  assert (mm = 1 \/ mm = 2 \/ mm = 3 \/ mm = 4 \/ mm = 5 \/ mm = 6 \/ mm = 7 \/ mm = 8
          \/ mm = 9 \/ mm = 10 \/ mm = 11 \/ mm = 12) as Hc by lia.
  destruct_or! Hc; subst; lia.
Qed.

(** The March-based month and year of a date. *)
Definition march_month (m : Z) : Z := if m <=? 2 then m + 10 else m - 2.
Definition march_year (y m : Z) : Z := y + 4800 + (if m <=? 2 then -1 else 0).

Lemma jdz_march y m d :
  jdz y m d + 68569
  = (367 * march_month m / 12 + d - 31) + 36525 + 1461 * march_year y m / 4
    - 3 * ((march_year y m + 100) / 100) / 4.
Proof.
  unfold jdz, march_month, march_year. zcase.
  - replace (m - 2 - -1 * 12) with (m + 10) by lia.
    replace (y + 4900 + -1) with (y + 4800 + -1 + 100) by lia. lia.
  - replace (m - 2 - 0 * 12) with (m - 2) by lia.
    replace (y + 4900 + 0) with (y + 4800 + 0 + 100) by lia. lia.
Qed.

(** The bounds a valid date puts on its March-based month, day and year. *)
Lemma march_bounds y m d :
  valid_date y m d = true ->
  let mm := march_month m in let yy := march_year y m in
  let f := 367 * mm / 12 + d - 31 in
  1 <= mm <= 12 /\ 1 <= d <= 31
  /\ (mm = 2 \/ mm = 4 \/ mm = 7 \/ mm = 9 -> d <= 30) /\ (mm = 12 -> d <= 29)
  /\ 0 <= f <= 365
  /\ (f = 365 -> (yy + 1) mod 4 = 0 /\ ((yy + 1) mod 100 <> 0 \/ (yy + 1) mod 400 = 0)).
Proof.
  unfold valid_date, days_in_month, march_month, march_year. cbv zeta. intros Hv.
  pose proof (leap_spec y) as Hl. zbool.
  assert (m = 1 \/ m = 2 \/ m = 3 \/ m = 4 \/ m = 5 \/ m = 6 \/ m = 7 \/ m = 8
          \/ m = 9 \/ m = 10 \/ m = 11 \/ m = 12) as Hc by lia.
  destruct_or! Hc; subst m; cbn in *; destruct (leap y); repeat split; intros; lia.
Qed.

Lemma ymdz_jdz date : valid date = true -> ymdz (jd_of date) = date.
Proof.
  destruct date as [[y m] d]. cbn [valid jd_of]. intros Hv.
  destruct (march_bounds y m d Hv) as (Hm & Hd & H30 & H29 & Hf & Hleap).
  pose proof (valid_date_bounds _ _ _ Hv) as [Hm' _].
  unfold ymdz. rewrite jdz_march. cbv zeta.
  destruct (century_stage (march_year y m) _ Hf Hleap) as [Hn Hl].
  rewrite Hn, Hl, year_stage by lia.
  destruct (month_stage (march_month m) d Hm Hd H30 H29) as [Hj Hk].
  set (i := march_year y m mod 100) in *.
  replace (1461 * i / 4 + (367 * march_month m / 12 + d - 31) - 1461 * i / 4 + 31)
    with (367 * march_month m / 12 + d) by lia.
  rewrite Hj, Hk. clear Hj Hk Hn Hl Hleap. unfold i, march_month, march_year. zcase; (apply f_equal2; [apply f_equal2; lia | done]).
Qed.

(** Consecutive dates have consecutive day numbers. *)
Lemma jdz_next_day date : valid date = true -> jd_of (next_day date) = jd_of date + 1.
Proof.
  destruct date as [[y m] d]. cbn [valid]. intros Hv.
  pose proof (valid_date_bounds _ _ _ Hv) as [Hm Hd].
  unfold valid_date in Hv. pose proof (leap_spec y) as Hl. unfold next_day. zbool.
  destruct (Z.ltb_spec d (days_in_month y m)) as [Hlt | Hge].
  - cbn [jd_of]. unfold jdz. lia.
  - assert (d = days_in_month y m) as -> by lia. clear Hd.
    assert (m = 1 \/ m = 2 \/ m = 3 \/ m = 4 \/ m = 5 \/ m = 6 \/ m = 7 \/ m = 8
            \/ m = 9 \/ m = 10 \/ m = 11 \/ m = 12) as Hc by lia.
    destruct_or! Hc; subst m; cbn -[Z.mul Z.add Z.sub Z.div Z.modulo leap jdz];
      unfold jdz; cbn -[Z.mul Z.add Z.sub Z.div Z.modulo leap];
      destruct (leap y); repeat zcase; lia.
Qed.

Lemma date_facts date :
  valid date = true -> ymdz (jd_of date) = date /\ jd_of (next_day date) = jd_of date + 1.
Proof. auto using ymdz_jdz, jdz_next_day. Qed.

(** ** Every day number is the day of a date *)

Lemma jdz_cycle y m d q : jdz (y + 400 * q) m d = jdz y m d + 146097 * q.
Proof. unfold jdz. zcase; lia. Qed.

Lemma leap_cycle y q : leap (y + 400 * q) = leap y.
Proof.
  unfold leap.
  replace ((y + 400 * q) mod 4) with (y mod 4) by lia.
  replace ((y + 400 * q) mod 100) with (y mod 100) by lia.
  by replace ((y + 400 * q) mod 400) with (y mod 400) by lia.
Qed.

Lemma days_in_month_cycle y m q : days_in_month (y + 400 * q) m = days_in_month y m.
Proof. unfold days_in_month. by rewrite leap_cycle. Qed.

Lemma valid_date_cycle y m d q : valid_date (y + 400 * q) m d = valid_date y m d.
Proof. unfold valid_date. by rewrite days_in_month_cycle. Qed.

Definition shift_years (q : Z) (date : Z * Z * Z) : Z * Z * Z :=
  let '(y, m, d) := date in (y + 400 * q, m, d).

(** The successor of a valid date is valid. *)
Lemma next_day_valid date : valid date = true -> valid (next_day date) = true.
Proof.
  destruct date as [[y m] d]. unfold valid, next_day, valid_date. intros H. zbool.
  pose proof (days_in_month_bounds y m). pose proof (days_in_month_bounds y (m + 1)).
  pose proof (days_in_month_bounds (y + 1) 1).
  repeat zcase; first [reflexivity | lia].
Qed.

Fixpoint days_after (n : nat) (date : Z * Z * Z) : Z * Z * Z :=
  match n with O => date | S n' => next_day (days_after n' date) end.

Lemma days_after_facts n date :
  valid date = true ->
  valid (days_after n date) = true /\ jd_of (days_after n date) = jd_of date + Z.of_nat n.
Proof.
  intros Hv. induction n as [|n [IHv IH]]; [split; [done | cbn; lia]|].
  cbn [days_after]. split; [by apply next_day_valid|].
  destruct (date_facts _ IHv) as [_ ->]. lia.
Qed.

Definition base_jd : Z := 1721060.

Definition date_of (jd : Z) : Z * Z * Z :=
  let q := (jd - base_jd) / 146097 in
  shift_years q (days_after (Z.to_nat ((jd - base_jd) mod 146097)) (0, 1, 1)).

Lemma date_of_facts jd : valid (date_of jd) = true /\ jd_of (date_of jd) = jd.
Proof.
  unfold date_of. set (q := (jd - base_jd) / 146097).
  destruct (days_after_facts (Z.to_nat ((jd - base_jd) mod 146097)) (0, 1, 1) eq_refl) as [Hv Hj].
  destruct (days_after _ _) as [[y m] d]. cbn [shift_years valid jd_of] in *.
  rewrite valid_date_cycle, jdz_cycle, Hj. split; [done|].
  change (jdz 0 1 1) with base_jd. unfold q. lia.
Qed.

(** Every day number: its date is valid and converts back. *)
Lemma jd_facts jd : valid (ymdz jd) = true /\ jd_of (ymdz jd) = jd.
Proof.
  destruct (date_of_facts jd) as [Hv Hj]. destruct (date_facts _ Hv) as [Hy _].
  rewrite Hj in Hy. by rewrite Hy.
Qed.

(** ** Order and ranges *)

Lemma year_start_mono y y' : y < y' -> jdz y 12 31 < jdz y' 1 1.
Proof. intros H. unfold jdz. cbn -[Z.mul Z.add Z.sub Z.div]. lia. Qed.

Lemma month_day_mono y m m' d :
  1 <= m -> m < m' <= 12 -> 1 <= d <= days_in_month y m -> jdz y m d < jdz y m' 1.
Proof.
  intros Hm Hm' Hd. pose proof (leap_spec y) as Hl.
  assert (m = 1 \/ m = 2 \/ m = 3 \/ m = 4 \/ m = 5 \/ m = 6 \/ m = 7 \/ m = 8
          \/ m = 9 \/ m = 10 \/ m = 11) as Hc by lia.
  unfold days_in_month in Hd.
  destruct_or! Hc; subst m; cbn -[Z.mul Z.add Z.sub Z.div Z.modulo leap] in Hd;
    unfold jdz; cbn -[Z.mul Z.add Z.sub Z.div Z.modulo leap];
    destruct (leap y); zcase; lia.
Qed.

Lemma jdz_year_bounds y m d :
  valid_date y m d = true -> jdz y 1 1 <= jdz y m d <= jdz y 12 31.
Proof.
  intros Hv. pose proof (valid_date_bounds _ _ _ Hv) as [Hm Hd].
  unfold valid_date in Hv. zbool. split.
  - destruct (decide (m = 1)) as [-> | Hne]; [unfold jdz; lia|].
    pose proof (month_day_mono y 1 m 1 ltac:(lia) ltac:(lia) ltac:(cbn; lia)) as Hlt.
    unfold jdz in *. lia.
  - destruct (decide (m = 12)) as [-> | Hne]; [unfold jdz; lia|].
    pose proof (month_day_mono y m 12 d ltac:(lia) ltac:(lia) ltac:(lia)) as Hlt.
    unfold jdz in *. lia.
Qed.

Lemma jdz_strictly_monotone a b :
  valid a = true -> valid b = true -> date_lt a b -> jd_of a < jd_of b.
Proof.
  destruct a as [[y m] d], b as [[y' m'] d']. cbn [valid jd_of date_lt]. intros Ha Hb Hlt.
  pose proof (jdz_year_bounds _ _ _ Ha). pose proof (jdz_year_bounds _ _ _ Hb).
  pose proof (valid_date_bounds _ _ _ Hb).
  destruct Hlt as [Hy | [-> [Hm | [-> Hd]]]].
  - pose proof (year_start_mono y y' Hy). lia.
  - unfold valid_date in Ha. zbool.
    pose proof (month_day_mono y' m m' d ltac:(lia) ltac:(lia) ltac:(lia)).
    unfold jdz in *. lia.
  - unfold jdz. lia.
Qed.

Lemma date_lt_total a b : date_lt a b \/ a = b \/ date_lt b a.
Proof.
  destruct a as [[y m] d], b as [[y' m'] d']. unfold date_lt.
  destruct (Z.lt_trichotomy y y') as [? | [-> | ?]]; [by auto | | by auto].
  destruct (Z.lt_trichotomy m m') as [? | [-> | ?]]; [by auto | | by auto 10].
  destruct (Z.lt_trichotomy d d') as [? | [-> | ?]]; auto 10.
Qed.

Lemma jdz_order a b :
  valid a = true -> valid b = true -> jd_of a < jd_of b -> date_lt a b.
Proof.
  intros Ha Hb Hlt. destruct (date_lt_total a b) as [? | [-> | Hba]]; [done | lia |].
  pose proof (jdz_strictly_monotone _ _ Hb Ha Hba). lia.
Qed.

(** The day numbers of the dates an [IsoDate] can hold. *)
Definition last_year : Z := 214747.
Definition last_jd : Z := 80156155.

Lemma jdz_range y m d :
  valid_date y m d = true -> 0 <= y <= last_year -> base_jd <= jdz y m d <= last_jd.
Proof.
  intros Hv Hy. pose proof (jdz_year_bounds _ _ _ Hv).
  unfold jdz, base_jd, last_jd, last_year in *. cbn -[Z.mul Z.add Z.sub Z.div] in *. lia.
Qed.

Lemma year_range y m d :
  valid_date y m d = true -> base_jd <= jdz y m d <= last_jd -> 0 <= y <= last_year.
Proof.
  intros Hv Hj. pose proof (jdz_year_bounds _ _ _ Hv).
  unfold jdz, base_jd, last_jd, last_year in *. cbn -[Z.mul Z.add Z.sub Z.div] in *. lia.
Qed.

Lemma jd_to_iso_eval jd y m d :
  base_jd <= jd <= last_jd -> ymdz jd = (y, m, d) ->
  jd_to_iso jd = Some (y * 10000 + m * 100 + d) /\ valid_date y m d = true
  /\ 0 <= y <= last_year /\ jdz y m d = jd.
Proof.
  intros Hjd Hy. unfold base_jd, last_jd in Hjd.
  destruct (jd_facts jd) as [Hv Hj]. rewrite Hy in Hv, Hj. cbn [valid jd_of] in Hv, Hj.
  pose proof (year_range y m d Hv ltac:(unfold base_jd, last_jd; lia)) as Hyr.
  pose proof (valid_date_bounds _ _ _ Hv).
  split; [|done]. unfold jd_to_iso. rewrite jd_to_ymd_eval, Hy by lia.
  cbn [mbind option_bind]. change (ymd_to_iso y m d = Some (y * 10000 + m * 100 + d)).
  unfold last_year in *. apply ymd_to_iso_eval; lia.
Qed.

(** ** Properties *)

(** C16: Round trip from dates: every date of the Gregorian calendar with a year
    from 0 to 214747 packs into an [IsoDate], converts to a Julian day and back
    to the same [IsoDate], and no [int] expression on the way overflows. *)
Theorem iso_jd_roundtrip (y m d : Z)
  (Hv : valid_date y m d = true) (Hy : 0 <= y <= last_year) :
  exists iso jd, ymd_to_iso y m d = Some iso /\ iso_to_jd iso = Some jd
    /\ ymd_to_jd y m d = Some jd /\ jd_to_iso jd = Some iso.
Proof.
  pose proof (valid_date_bounds _ _ _ Hv) as [Hm Hd].
  pose proof (jdz_range _ _ _ Hv Hy) as Hr. unfold last_year in Hy.
  exists (y * 10000 + m * 100 + d), (jdz y m d).
  rewrite ymd_to_iso_eval, iso_to_jd_eval, ymd_to_jd_eval by lia.
  destruct (date_facts (y, m, d) Hv) as [Hback _].
  destruct (jd_to_iso_eval _ y m d Hr Hback) as [-> _]. done.
Qed.

Lemma iso_jd_roundtrip_witness :
  valid_date 2000 2 29 = true /\
  exists iso jd, ymd_to_iso 2000 2 29 = Some iso /\ iso_to_jd iso = Some jd
    /\ ymd_to_jd 2000 2 29 = Some jd /\ jd_to_iso jd = Some iso.
Proof. split; [reflexivity | apply (iso_jd_roundtrip 2000 2 29); [reflexivity | unfold last_year; lia]]. Defined.

(** Round trip from days: every Julian day from January 1st of the year 0 to
    December 31st of the year 214747 is the day of a date of the calendar, which
    converts back to the same day. *)
Theorem jd_iso_roundtrip (jd : Z) (Hjd : base_jd <= jd <= last_jd) :
  exists y m d iso, jd_to_iso jd = Some iso /\ ymd_to_iso y m d = Some iso
    /\ valid_date y m d = true /\ iso_to_jd iso = Some jd.
Proof.
  destruct (ymdz jd) as [[y m] d] eqn:Hy.
  destruct (jd_to_iso_eval _ _ _ _ Hjd Hy) as (Hi & Hv & Hyr & Hj).
  pose proof (valid_date_bounds _ _ _ Hv). unfold last_year in Hyr.
  exists y, m, d, (y * 10000 + m * 100 + d).
  rewrite ymd_to_iso_eval, iso_to_jd_eval, Hj by lia. done.
Qed.

Lemma jd_iso_roundtrip_witness :
  exists y m d iso, jd_to_iso 2451605 = Some iso /\ ymd_to_iso y m d = Some iso
    /\ valid_date y m d = true /\ iso_to_jd iso = Some 2451605.
Proof. apply (jd_iso_roundtrip 2451605). unfold base_jd, last_jd. lia. Defined.

(** [ymd_to_jd] counts days: consecutive dates of the calendar, across month
    ends, leap days and century years, have consecutive Julian days. *)
Theorem ymd_to_jd_next_day (y m d : Z)
  (Hv : valid_date y m d = true) (Hy : -4799 <= y < last_year) :
  exists jd, ymd_to_jd y m d = Some jd /\
    let '(y', m', d') := next_day (y, m, d) in ymd_to_jd y' m' d' = Some (jd + 1).
Proof.
  destruct (next_day (y, m, d)) as [[y' m'] d'] eqn:Hn.
  pose proof (valid_date_bounds _ _ _ Hv) as [Hm Hd].
  pose proof (next_day_valid (y, m, d) Hv) as Hv'. rewrite Hn in Hv'.
  pose proof (valid_date_bounds _ _ _ Hv') as [Hm' Hd'].
  destruct (date_facts (y, m, d) Hv) as [_ Hj]. rewrite Hn in Hj.
  assert (y <= y' <= y + 1).
  { unfold next_day in Hn. repeat case_match; simplify_eq; lia. }
  unfold last_year in Hy. exists (jdz y m d). rewrite !ymd_to_jd_eval by lia.
  cbn [jd_of] in Hj. by rewrite Hj.
Qed.

Lemma ymd_to_jd_next_day_witness :
  exists jd, ymd_to_jd 1900 2 28 = Some jd /\
    let '(y', m', d') := next_day (1900, 2, 28) in ymd_to_jd y' m' d' = Some (jd + 1).
Proof. apply (ymd_to_jd_next_day 1900 2 28); [reflexivity | unfold last_year; lia]. Defined.

(** Order: Julian days compare exactly as the dates do in the calendar. *)
Theorem ymd_to_jd_monotone (y m d y' m' d' jd jd' : Z)
  (Hv : valid_date y m d = true) (Hv' : valid_date y' m' d' = true)
  (Hy : -4799 <= y <= last_year) (Hy' : -4799 <= y' <= last_year)
  (Hj : ymd_to_jd y m d = Some jd) (Hj' : ymd_to_jd y' m' d' = Some jd') :
  jd < jd' <-> date_lt (y, m, d) (y', m', d').
Proof.
  pose proof (valid_date_bounds _ _ _ Hv). pose proof (valid_date_bounds _ _ _ Hv').
  unfold last_year in *. rewrite ymd_to_jd_eval in Hj, Hj' by lia. simplify_eq.
  split; [apply (jdz_order (y, m, d) (y', m', d') Hv Hv')
         | apply (jdz_strictly_monotone (y, m, d) (y', m', d') Hv Hv')].
Qed.

Lemma ymd_to_jd_monotone_witness :
  2451604 < 2451605 <-> date_lt (2000, 2, 29) (2000, 3, 1).
Proof.
  apply (ymd_to_jd_monotone 2000 2 29 2000 3 1 2451604 2451605);
    first [reflexivity | unfold last_year; lia].
Defined.

Lemma weekday_facts date k :
  weekday date k ->
  valid date = true /\ jd_of date mod 7 = k /\ jd_of (2000, 1, 1) <= jd_of date.
Proof.
  induction 1 as [|date k _ (Hv & Hk & Hge)]; [by vm_compute|].
  destruct (date_facts _ Hv) as [_ Hn]. rewrite Hn.
  split; [by apply next_day_valid|]. lia.
Qed.

(** [is_week_day] agrees with counting the days of the week from Saturday,
    January 1st 2000: it holds exactly from Monday to Friday. *)
Theorem is_week_day_correct (y m d k jd : Z)
  (Hw : weekday (y, m, d) k) (Hy : y <= last_year) (Hj : ymd_to_jd y m d = Some jd) :
  is_week_day jd = (k <? 5) /\ is_weekend_day jd = bool_decide (k = 5 \/ k = 6).
Proof.
  destruct (weekday_facts _ _ Hw) as (Hv & Hk & Hge). cbn [valid jd_of] in *.
  pose proof (valid_date_bounds _ _ _ Hv).
  assert (2000 <= y) as Hy0.
  { destruct (Z.le_gt_cases 2000 y) as [? | Hlt]; [done|].
    pose proof (year_start_mono y 2000 Hlt). pose proof (jdz_year_bounds _ _ _ Hv). lia. }
  unfold last_year in Hy. rewrite ymd_to_jd_eval in Hj by lia. simplify_eq.
  change (jdz 2000 1 1) with 2451545 in Hge.
  unfold is_weekend_day, is_week_day. rewrite Z.rem_mod_nonneg by lia.
  split; [done|]. case_bool_decide; zcase; cbn; (done || lia).
Qed.

Lemma is_week_day_correct_witness :
  weekday (2000, 1, 3) 0 /\
  is_week_day 2451547 = (0 <? 5) /\ is_weekend_day 2451547 = bool_decide (0 = 5 \/ 0 = 6).
Proof.
  assert (weekday (2000, 1, 3) 0) as Hw.
  { exact (weekday_next _ _ (weekday_next _ _ weekday_anchor)). }
  split; [exact Hw|].
  apply (is_week_day_correct 2000 1 3 0 2451547 Hw); [unfold last_year; lia | reflexivity].
Defined.

(** The modified and truncated day counts invert each other's offsets, but
    their day zero is the day before the one the comments name: the code
    numbers November 17th 1858 as modified day 1 and May 24th 1968 as truncated
    day 1. *)
Theorem mjd_tjd_offsets :
  (forall jd, 0 <= jd <= last_jd ->
     (jd_to_mjd jd ≫= mjd_to_jd) = Some jd /\ (jd_to_tjd jd ≫= tjd_to_jd) = Some jd)
  /\ (ymd_to_jd 1858 11 17 ≫= jd_to_mjd) = Some 1
  /\ (ymd_to_jd 1858 11 16 ≫= jd_to_mjd) = Some 0
  /\ (ymd_to_jd 1968 5 24 ≫= jd_to_tjd) = Some 1
  /\ (ymd_to_jd 1968 5 23 ≫= jd_to_tjd) = Some 0.
Proof.
  split; [|done]. intros jd Hjd. unfold last_jd in Hjd.
  unfold jd_to_mjd, mjd_to_jd, jd_to_tjd, tjd_to_jd, lit, add, sub, lift2.
  rewrite !chk_some by (unfold int32_min, int32_max; lia). cbn [mbind option_bind].
  rewrite !chk_some by (unfold int32_min, int32_max; lia). split; f_equal; lia.
Qed.
