(* ===== verification/RateLimit.v ===== *)
(** * Rate window

    Models [toolbox/net/RateLimit.hpp] and [toolbox/net/RateLimit.cpp]: the rate
    limit value and the sliding window of one-second buckets.  The theorems
    relate the window's running count to the history of calls to [add]. *)
From S2P Require Import Prelude.

(** [RateLimit]: a number of events in an interval of seconds. *)
Record RateLimit := mkRateLimit { limit : Z; interval : Z }.

(** [RateWindow].  The clock's seconds are [time_t]; the counters are 64-bit
    unsigned. *)
Record RateWindow := mkRateWindow {
  count_ : Z;
  last_time_ : Z;
  buckets_ : list Z
}.

(** [RateWindow(Seconds interval)]: value-initialised buckets. *)
Definition rate_window (interval : Z) : RateWindow :=
  mkRateWindow 0 0 (replicate (Z.to_nat interval) 0).

Definition count (w : RateWindow) : Z := count_ w.

(** [buckets_[t % buckets_.size()]]: [t] converts to [size_t]. *)
Definition slot (n : nat) (t : Z) : nat := Z.to_nat (u64 t mod Z.of_nat n).
Definition at_ (w : RateWindow) (t : Z) : Z :=
  nth (slot (length (buckets_ w)) t) (buckets_ w) 0.
Definition set_at (w : RateWindow) (t v : Z) : list Z :=
  <[slot (length (buckets_ w)) t := v]> (buckets_ w).

(** [MonoClock::to_time_t]: nanoseconds to seconds, towards zero. *)
Definition to_time_t (ns : Z) : Z := Z.quot ns 1000000000.

(** The loop [while (t != ++last_time_)]: its fuel is the distance to [t]. *)
Fixpoint skip (fuel : nat) (t : Z) (w : RateWindow) : option RateWindow :=
  let last := last_time_ w + 1 in
  if t =? last then Some (mkRateWindow (count_ w) last (buckets_ w))
  else match fuel with
       | O => None
       | S fuel' =>
           let skipped := at_ w last in
           skip fuel' t
             (mkRateWindow (u64 (count_ w - skipped)) last (set_at w last 0))
       end.

(** [RateWindow::add]; [None] is a loop that does not end, or the failure of
    the assertion that the clock is monotonic. *)
Definition add (time cnt : Z) (w : RateWindow) : option RateWindow :=
  let t := to_time_t time in
  if t =? last_time_ w then
    Some (mkRateWindow (u64 (count_ w + cnt)) (last_time_ w)
            (set_at w t (u64 (at_ w t + cnt))))
  else if negb (last_time_ w <? t) then None
  else if t - last_time_ w <? Z.of_nat (length (buckets_ w)) then
    w' ← skip (Z.to_nat (t - last_time_ w)) t w;
    Some (mkRateWindow (u64 (u64 (count_ w' + cnt) - at_ w' t)) t (set_at w' t cnt))
  else
    Some (mkRateWindow cnt t
            (<[slot (length (buckets_ w)) t := cnt]> (replicate (length (buckets_ w)) 0))).

(** A sequence of calls to [add]. *)
Definition add_all (calls : list (Z * Z)) (w : RateWindow) : option RateWindow :=
  foldl (fun ow '(time, cnt) => w ← ow; add time cnt w) (Some w) calls.

Example rate_window_test :
  count <$> add_all [(1000000000, 1); (2000000000, 2); (3500000000, 3); (4000000000, 4)]
              (rate_window 3) = Some 9.
Proof. reflexivity. Qed.

(** ** Specification: the history of calls *)

(** What was added in one second, and in the [n] seconds up to [last]. *)
Definition second_sum (h : list (Z * Z)) (s : Z) : Z :=
  foldr (fun '(t, c) acc => if t =? s then c + acc else acc) 0 h.
Definition window_sum (h : list (Z * Z)) (n last : Z) : Z :=
  foldr (fun '(t, c) acc => if (last - n <? t) && (t <=? last) then c + acc else acc) 0 h.

(** The calls with their times in seconds. *)
Definition in_seconds (calls : list (Z * Z)) : list (Z * Z) :=
  (fun '(time, c) => (to_time_t time, c)) <$> calls.

(** Calls with a monotonic clock, and counts in range of [size_t]. *)
Fixpoint monotonic_from (last : Z) (calls : list (Z * Z)) : Prop :=
  match calls with
  | [] => True
  | (time, c) :: calls' =>
      last <= to_time_t time < 2 ^ 63 /\ 0 <= c < 2 ^ 64
      /\ monotonic_from (to_time_t time) calls'
  end.

(** ** The window invariant

    Each bucket holds the sum of the one second of the window that its index
    stands for, and the running count is the sum of the window.  Both are
    unsigned and taken modulo [2 ^ 64]. *)
Record window_inv (n : nat) (h : list (Z * Z)) (w : RateWindow) : Prop := {
  inv_len : length (buckets_ w) = n;
  inv_pos : (0 < n)%nat;
  inv_last : 0 <= last_time_ w;
  inv_past : Forall (fun '(t, _) => t <= last_time_ w) h;
  inv_bucket : forall s, last_time_ w - Z.of_nat n < s <= last_time_ w ->
    buckets_ w !! Z.to_nat (s mod Z.of_nat n) = Some (u64 (second_sum h s));
  inv_count : count_ w = u64 (window_sum h (Z.of_nat n) (last_time_ w))
}.

Lemma second_sum_cons t c h s :
  second_sum ((t, c) :: h) s = (if t =? s then c else 0) + second_sum h s.
Proof. unfold second_sum. cbn. by zcase. Qed.

Lemma window_sum_cons t c h n l :
  window_sum ((t, c) :: h) n l
  = (if (l - n <? t) && (t <=? l) then c else 0) + window_sum h n l.
Proof. unfold window_sum. cbn. by case_match. Qed.

Lemma second_sum_app h h' s : second_sum (h ++ h') s = second_sum h s + second_sum h' s.
Proof.
  induction h as [|[t c] h IH]; cbn [app]; [done|]. rewrite !second_sum_cons, IH. lia.
Qed.

Lemma window_sum_app h h' n l : window_sum (h ++ h') n l = window_sum h n l + window_sum h' n l.
Proof.
  induction h as [|[t c] h IH]; cbn [app]; [done|]. rewrite !window_sum_cons, IH. lia.
Qed.

Lemma second_sum_future h s : Forall (fun '(t, _) => t < s) h -> second_sum h s = 0.
Proof. induction 1 as [|[t c] h Ht _ IH]; [done|]. rewrite second_sum_cons. zcase; lia. Qed.

Lemma window_sum_old h n l : Forall (fun '(t, _) => t <= l - n) h -> window_sum h n l = 0.
Proof. induction 1 as [|[t c] h Ht _ IH]; [done|]. rewrite window_sum_cons. repeat (zcase; cbn [andb]); lia. Qed.

(** Moving the window by one second gains that second and loses the oldest. *)
Lemma window_sum_step h n l :
  1 <= n ->
  window_sum h n (l + 1) = window_sum h n l + second_sum h (l + 1) - second_sum h (l + 1 - n).
Proof.
  intros Hn. induction h as [|[t c] h IH]; [cbn; lia|].
  rewrite !window_sum_cons, !second_sum_cons. repeat (zcase; cbn [andb]); lia.
Qed.

Lemma slot_mod n t : (0 < n)%nat -> 0 <= t < 2 ^ 63 -> slot n t = Z.to_nat (t mod Z.of_nat n).
Proof. intros Hn Ht. unfold slot. rewrite wrapu_small by lia. done. Qed.

Lemma slot_lt n t : (0 < n)%nat -> (slot n t < n)%nat.
Proof.
  intros Hn. unfold slot. pose proof (Z.mod_pos_bound (u64 t) (Z.of_nat n) ltac:(lia)). lia.
Qed.

Lemma mod_window_inj n s s' l :
  0 < n -> l - n < s <= l -> l - n < s' <= l -> s mod n = s' mod n -> s = s'.
Proof.
  intros Hn Hs Hs' He.
  pose proof (Z.div_mod s n ltac:(lia)). pose proof (Z.div_mod s' n ltac:(lia)).
  enough (s / n = s' / n) by nia. nia.
Qed.

Lemma to_nat_mod_inj n s s' :
  (0 < n)%nat -> Z.to_nat (s mod Z.of_nat n) = Z.to_nat (s' mod Z.of_nat n) ->
  s mod Z.of_nat n = s' mod Z.of_nat n.
Proof.
  intros Hn He. pose proof (Z.mod_pos_bound s (Z.of_nat n) ltac:(lia)).
  pose proof (Z.mod_pos_bound s' (Z.of_nat n) ltac:(lia)). lia.
Qed.

Lemma at_lookup w t x :
  (0 < length (buckets_ w))%nat -> 0 <= t < 2 ^ 63 ->
  buckets_ w !! Z.to_nat (t mod Z.of_nat (length (buckets_ w))) = Some x -> at_ w t = x.
Proof.
  intros Hn Ht Hx. unfold at_. rewrite slot_mod by done. by apply nth_lookup_Some.
Qed.

(** ** The steps of [add] preserve the invariant *)

(** Adding to the current second. *)
Lemma inv_add_now n h w c :
  window_inv n h w -> last_time_ w < 2 ^ 63 ->
  window_inv n (h ++ [(last_time_ w, c)])
    (mkRateWindow (u64 (count_ w + c)) (last_time_ w)
       (set_at w (last_time_ w) (u64 (at_ w (last_time_ w) + c)))).
Proof.
  intros [Hlen Hpos Hlast Hpast Hb Hc] Hmax. split; cbn; try done.
  - unfold set_at. by rewrite length_insert.
  - apply Forall_app. split; [done|]. repeat constructor. lia.
  - intros s Hs. unfold set_at. rewrite Hlen, slot_mod by lia.
    rewrite second_sum_app. cbn.
    destruct (decide (s = last_time_ w)) as [-> | Hne].
    + rewrite list_lookup_insert_eq.
      2: { rewrite Hlen. pose proof (slot_lt n (last_time_ w) Hpos). by rewrite slot_mod in *. }
      rewrite (at_lookup w _ (u64 (second_sum h (last_time_ w)))).
      * rewrite Z.eqb_refl, wrapu_add_l by lia. do 2 f_equal. lia.
      * lia.
      * lia.
      * rewrite Hlen. apply Hb. lia.
    + rewrite list_lookup_insert_ne.
      * rewrite Hb by lia. rewrite (proj2 (Z.eqb_neq _ _)) by done. do 2 f_equal. lia.
      * intros He. apply Hne. apply to_nat_mod_inj in He; [|done].
        apply (mod_window_inj (Z.of_nat n) _ _ (last_time_ w)); lia.
  - rewrite Hc, window_sum_app, wrapu_add_l by lia. cbn.
    rewrite (proj2 (Z.ltb_lt _ _)), Z.leb_refl by lia. cbn [andb]. f_equal. lia.
Qed.

(** Passing over one second with no events. *)
Lemma inv_skip n h w :
  window_inv n h w -> last_time_ w + 1 < 2 ^ 63 ->
  window_inv n h
    (mkRateWindow (u64 (count_ w - at_ w (last_time_ w + 1))) (last_time_ w + 1)
       (set_at w (last_time_ w + 1) 0)).
Proof.
  intros [Hlen Hpos Hlast Hpast Hb Hc] Hmax.
  set (l := last_time_ w) in *.
  assert (second_sum h (l + 1) = 0) as Hnew.
  { apply second_sum_future. eapply Forall_impl; [exact Hpast|]. intros [t c]. lia. }
  assert ((l + 1) mod Z.of_nat n = (l + 1 - Z.of_nat n) mod Z.of_nat n) as Hmod.
  { replace (l + 1) with (l + 1 - Z.of_nat n + 1 * Z.of_nat n) at 1 by lia. apply Z_mod_plus_full. }
  assert (at_ w (l + 1) = u64 (second_sum h (l + 1 - Z.of_nat n))) as Hat.
  { apply at_lookup; [lia..|]. rewrite Hlen, Hmod. apply Hb. lia. }
  split; cbn; try done.
  - unfold set_at. by rewrite length_insert.
  - lia.
  - eapply Forall_impl; [exact Hpast|]. intros [t c]. lia.
  - intros s Hs. unfold set_at. rewrite Hlen, slot_mod by lia.
    destruct (decide (s = l + 1)) as [-> | Hne].
    + rewrite list_lookup_insert_eq; [by rewrite Hnew|].
      rewrite Hlen. pose proof (slot_lt n (l + 1) Hpos). by rewrite slot_mod in * by lia.
    + rewrite list_lookup_insert_ne; [apply Hb; lia|].
      intros He. apply Hne. apply to_nat_mod_inj in He; [|done].
      apply (mod_window_inj (Z.of_nat n) _ _ (l + 1)); lia.
  - rewrite Hc, Hat, wrapu_sub_wrapu, window_sum_step, Hnew by lia. f_equal. lia.
Qed.

(** The loop over the skipped seconds ends, and leaves the window at the second
    before [t]. *)
Lemma skip_inv n h t fuel w :
  window_inv n h w -> last_time_ w < t < 2 ^ 63 ->
  t - last_time_ w <= Z.of_nat fuel ->
  exists c b, skip fuel t w = Some (mkRateWindow c t b)
    /\ window_inv n h (mkRateWindow c (t - 1) b).
Proof.
  revert w. induction fuel as [|fuel IH]; intros w Hinv Ht Hf; [lia|].
  cbn [skip]. destruct (Z.eqb_spec t (last_time_ w + 1)) as [He | Hne].
  - exists (count_ w), (buckets_ w). split; [by rewrite He|].
    destruct w as [c l b]. cbn in *. by replace (t - 1) with l by lia.
  - edestruct IH as (c & b & Hs & Hi).
    + apply inv_skip; [exact Hinv | lia].
    + cbn. lia.
    + cbn. lia.
    + exists c, b. split; [exact Hs | exact Hi].
Qed.

Lemma set_at_twice w t u v :
  set_at (mkRateWindow (count_ w) (last_time_ w) (set_at w t u)) t v = set_at w t v.
Proof.
  unfold set_at. cbn [buckets_]. rewrite length_insert. apply list_insert_insert_eq.
Qed.

Lemma at_set_at w t v :
  (0 < length (buckets_ w))%nat ->
  at_ (mkRateWindow (count_ w) (last_time_ w) (set_at w t v)) t = v.
Proof.
  intros Hpos. unfold at_, set_at. cbn [buckets_]. rewrite length_insert.
  apply nth_lookup_Some, list_lookup_insert_eq. by apply slot_lt.
Qed.

(** The bucket of a window that is moved far enough is fresh. *)
Lemma inv_restart n h w t c :
  window_inv n h w -> last_time_ w + Z.of_nat n <= t < 2 ^ 63 -> 0 <= c < 2 ^ 64 ->
  window_inv n (h ++ [(t, c)])
    (mkRateWindow c t (<[slot n t := c]> (replicate n 0))).
Proof.
  intros [Hlen Hpos Hlast Hpast Hb Hc] Ht Hcr. split; cbn; try done.
  - by rewrite length_insert, length_replicate.
  - lia.
  - apply Forall_app. split; [|repeat constructor; lia].
    eapply Forall_impl; [exact Hpast|]. intros [t' c']. lia.
  - intros s Hs. rewrite second_sum_app, slot_mod by lia.
    assert (second_sum h s = 0) as ->.
    { apply second_sum_future. eapply Forall_impl; [exact Hpast|]. intros [t' c']. lia. }
    cbn. pose proof (Z.mod_pos_bound s (Z.of_nat n) ltac:(lia)).
    destruct (decide (s = t)) as [-> | Hne].
    + rewrite list_lookup_insert_eq by (rewrite length_replicate; lia).
      rewrite Z.eqb_refl, wrapu_small by lia. f_equal. lia.
    + rewrite list_lookup_insert_ne.
      * rewrite (proj2 (Z.eqb_neq _ _)) by done. apply lookup_replicate. split; [done | lia].
      * intros He. apply Hne. apply to_nat_mod_inj in He; [|done].
        apply (mod_window_inj (Z.of_nat n) _ _ t); lia.
  - rewrite window_sum_app.
    rewrite window_sum_old.
    2: { eapply Forall_impl; [exact Hpast|]. intros [t' c']. lia. }
    cbn. rewrite (proj2 (Z.ltb_lt _ _)), Z.leb_refl by lia. cbn [andb].
    rewrite wrapu_small; lia.
Qed.

Lemma add_inv n h w time c :
  window_inv n h w -> last_time_ w <= to_time_t time < 2 ^ 63 -> 0 <= c < 2 ^ 64 ->
  exists w', add time c w = Some w' /\ last_time_ w' = to_time_t time
    /\ window_inv n (h ++ [(to_time_t time, c)]) w'.
Proof.
  intros Hinv Ht Hc. unfold add. set (t := to_time_t time) in *. cbv zeta.
  destruct (Z.eqb_spec t (last_time_ w)) as [He | Hne].
  { eexists. split; [reflexivity|]. cbn [last_time_]. split; [done|].
    rewrite He. apply inv_add_now; [exact Hinv | lia]. }
  rewrite (proj2 (Z.ltb_lt _ _)) by lia. cbn [negb].
  destruct (Z.ltb_spec (t - last_time_ w) (Z.of_nat (length (buckets_ w)))) as [Hlt | Hge].
  - destruct (skip_inv n h t (Z.to_nat (t - last_time_ w)) w Hinv) as (cc & b & -> & Hi); [lia..|].
    cbn [mbind option_bind]. eexists. split; [reflexivity|]. split; [done|].
    pose proof (inv_skip n h _ Hi) as Hs. cbn [last_time_ count_] in Hs.
    replace (t - 1 + 1) with t in Hs by lia.
    specialize (Hs ltac:(lia)).
    pose proof (inv_add_now n h _ c Hs) as Ha. cbn [last_time_ count_] in Ha.
    specialize (Ha ltac:(lia)). cbn [count_].
    assert (0 < length b)%nat as Hb.
    { pose proof (inv_len _ _ _ Hi). pose proof (inv_pos _ _ _ Hi). cbn in *. lia. }
    unfold at_, set_at in Ha |- *. cbn [buckets_] in Ha |- *.
    rewrite !length_insert in Ha. rewrite list_insert_insert_eq in Ha.
    assert (nth (slot (length b) t) (<[slot (length b) t:=0]> b) 0 = 0) as Hz.
    { apply nth_lookup_Some, list_lookup_insert_eq. by apply slot_lt. }
    rewrite Hz, Z.add_0_l in Ha. rewrite (wrapu_small _ c) in Ha by lia.
    rewrite wrapu_add_l in Ha by lia.
    replace (u64 (u64 (cc + c) - nth (slot (length b) t) b 0))
      with (u64 (cc - nth (slot (length b) t) b 0 + c)); [exact Ha|].
    rewrite wrapu_sub_l by lia. f_equal. lia.
  - eexists. split; [reflexivity|]. split; [done|].
    rewrite (inv_len _ _ _ Hinv) in *. eapply inv_restart; [exact Hinv | lia | lia].
Qed.

Lemma rate_window_inv n :
  0 < n -> window_inv (Z.to_nat n) [] (rate_window n).
Proof.
  intros Hn. split; cbn; try done; try lia.
  - apply length_replicate.
  - intros s Hs. pose proof (Z.mod_pos_bound s (Z.of_nat (Z.to_nat n)) ltac:(lia)).
    rewrite lookup_replicate. split; [reflexivity | lia].
Qed.

Lemma add_all_inv n calls h w :
  window_inv n h w -> monotonic_from (last_time_ w) calls ->
  exists w', add_all calls w = Some w' /\ window_inv n (h ++ in_seconds calls) w'
    /\ last_time_ w' = default (last_time_ w) (fst <$> last (in_seconds calls)).
Proof.
  revert h w. induction calls as [|[time c] calls IH]; intros h w Hinv Hm.
  - exists w. rewrite app_nil_r. done.
  - destruct Hm as (Ht & Hc & Hm).
    destruct (add_inv n h w time c Hinv Ht Hc) as (w1 & Ha & Hl & Hi).
    rewrite <- Hl in Hm. destruct (IH _ _ Hi Hm) as (w' & Hall & Hi' & Hl').
    exists w'. unfold add_all in *. cbn [foldl mbind option_bind]. rewrite Ha.
    split; [exact Hall|]. rewrite <- app_assoc in Hi'. split; [exact Hi'|].
    change (in_seconds ((time, c) :: calls)) with ((to_time_t time, c) :: in_seconds calls).
    rewrite Hl', Hl, last_cons. by destruct (last (in_seconds calls)).
Qed.

(** ** Properties *)

(** C21: The rate window over a whole history: with a monotonic clock every call to
    [add] returns, and at each point [count()] is the number of events of the
    last [interval] seconds, the second of the last call included, modulo the
    width of the counter. *)
Theorem rate_window_counts_history (n : Z) (calls : list (Z * Z))
  (Hn : 0 < n) (Hm : monotonic_from 0 calls) :
  exists w, add_all calls (rate_window n) = Some w
    /\ count w = u64 (window_sum (in_seconds calls) n
                        (default 0 (fst <$> last (in_seconds calls)))).
Proof.
  destruct (add_all_inv _ calls [] (rate_window n) (rate_window_inv n Hn) Hm)
    as (w & Hall & Hi & Hl).
  exists w. split; [exact Hall|]. unfold count.
  rewrite (inv_count _ _ _ Hi), Hl. by rewrite Z2Nat.id by lia.
Qed.

Lemma rate_window_counts_history_witness :
  exists w, add_all [(1000000000, 1); (2000000000, 2); (9500000000, 3)] (rate_window 3) = Some w
    /\ count w = u64 (window_sum (in_seconds [(1000000000, 1); (2000000000, 2); (9500000000, 3)]) 3
                        (default 0 (fst <$> last (in_seconds
                           [(1000000000, 1); (2000000000, 2); (9500000000, 3)])))).
Proof.
  apply (rate_window_counts_history 3 [(1000000000, 1); (2000000000, 2); (9500000000, 3)]); [lia|].
  cbn. repeat split; vm_compute; congruence.
Defined.
