(* ===== verification/RingBuffer.v ===== *)
(** * Ring buffer

    Models [toolbox/util/RingBuffer.hpp]: the single-threaded ring with two
    free-running 64-bit positions, with and without silent overwrite.  The
    theorems show that every sequence of operations behaves as on a bounded
    list, also when the positions wrap around. *)
From S2P Require Import Prelude Math.

Section ring.
Context {A : Type}.

(** The members of [RingBuffer]; [buf_] is the array of [capacity_] values. *)
Record ring := mkRing {
  capacity_ : Z;
  mask_ : Z;
  rpos_ : Z;
  wpos_ : Z;
  buf_ : list A
}.

(** [RingBuffer(capacity)]: [dflt] stands for the values the array is created
    with; a capacity for which [next_pow2] has no result gives no ring. *)
Definition make (dflt : A) (capacity : Z) : option ring :=
  c ← next_pow2 capacity;
  Some (mkRing c (u64 (c - 1)) 0 0 (replicate (Z.to_nat c) dflt)).

Definition size (r : ring) : Z := u64 (wpos_ r - rpos_ r).
Definition empty (r : ring) : bool := rpos_ r =? wpos_ r.
Definition full (r : ring) : bool := size r =? capacity_ r.
Definition available (r : ring) : Z := u64 (capacity_ r - size r).
Definition capacity (r : ring) : Z := u64 (wpos_ r - rpos_ r).
Definition max_size (r : ring) : Z := capacity r.

Definition index (r : ring) (pos : Z) : nat := Z.to_nat (Z.land pos (mask_ r)).
Definition front (r : ring) : option A := buf_ r !! index r (rpos_ r).
Definition back (r : ring) : option A := buf_ r !! index r (u64 (wpos_ r - 1)).

Definition clear (r : ring) : ring := mkRing (capacity_ r) (mask_ r) 0 0 (buf_ r).

(** [pop()]: the caller checks for an empty ring. *)
Definition pop (r : ring) : ring :=
  mkRing (capacity_ r) (mask_ r) (u64 (rpos_ r + 1)) (wpos_ r) (buf_ r).

(** [pop(val)] assigns [val] and advances, and then ends without a return
    statement: the returned [bool] is [None]. *)
Definition pop_val (r : ring) : option bool * option A * ring :=
  if empty r then (Some false, None, r)
  else (None, front r, pop r).

(** [push] and [write]: [fn] updates the value at the write position. *)
Definition write (overwrite : bool) (fn : A -> A) (r : ring) : bool * ring :=
  if negb overwrite && full r then (false, r)
  else
    let buf := alter fn (index r (wpos_ r)) (buf_ r) in
    let rpos := if overwrite && full r then u64 (rpos_ r + 1) else rpos_ r in
    (true, mkRing (capacity_ r) (mask_ r) rpos (u64 (wpos_ r + 1)) buf).

Definition push (overwrite : bool) (val : A) (r : ring) : bool * ring :=
  if negb overwrite && full r then (false, r)
  else
    let buf := <[index r (wpos_ r) := val]> (buf_ r) in
    let rpos := if overwrite && full r then u64 (rpos_ r + 1) else rpos_ r in
    (true, mkRing (capacity_ r) (mask_ r) rpos (u64 (wpos_ r + 1)) buf).

(** [read]: the value is handed to the callback and removed. *)
Definition read (r : ring) : bool * option A * ring :=
  if empty r then (false, None, r) else (true, front r, pop r).

(** ** Specification: a bounded list, oldest value first *)

Definition contents (r : ring) : list A :=
  omap (fun k => buf_ r !! index r (u64 (rpos_ r + k))) (seqZ 0 (size r)).

Record wf (r : ring) : Prop := {
  wf_capacity : exists k, 0 <= k <= 63 /\ capacity_ r = 2 ^ k;
  wf_mask : mask_ r = capacity_ r - 1;
  wf_buf : Z.of_nat (length (buf_ r)) = capacity_ r;
  wf_rpos : 0 <= rpos_ r < 2 ^ 64;
  wf_wpos : 0 <= wpos_ r < 2 ^ 64;
  wf_size : size r <= capacity_ r
}.

(** The commands of a client, and what they answer. *)
Inductive command :=
| Push (val : A)
| Read
| Clear
| Full
| Empty.

Inductive answer :=
| Bool (b : bool)
| Value (v : option A)
| Unit.

Definition exec (overwrite : bool) (c : command) (r : ring) : answer * ring :=
  match c with
  | Push v => let '(b, r') := push overwrite v r in (Bool b, r')
  | Read => let '(_, v, r') := read r in (Value v, r')
  | Clear => (Unit, clear r)
  | Full => (Bool (full r), r)
  | Empty => (Bool (empty r), r)
  end.

(** The same commands on a list of at most [cap] values. *)
Definition spec_exec (overwrite : bool) (cap : nat) (c : command) (l : list A)
    : answer * list A :=
  match c with
  | Push v =>
      if decide (length l < cap)%nat then (Bool true, l ++ [v])
      else if overwrite then (Bool true, tail l ++ [v])
      else (Bool false, l)
  | Read => (Value (head l), tail l)
  | Clear => (Unit, [])
  | Full => (Bool (bool_decide (length l = cap)), l)
  | Empty => (Bool (bool_decide (l = [])), l)
  end.

Fixpoint run {S : Type} (step : command -> S -> answer * S) (cs : list command) (s : S)
    : list answer * S :=
  match cs with
  | [] => ([], s)
  | c :: cs' =>
      let '(a, s1) := step c s in
      let '(as', s2) := run step cs' s1 in
      (a :: as', s2)
  end.

(** ** Lemmas *)

Lemma index_mod r pos : wf r -> index r pos = Z.to_nat (pos mod capacity_ r).
Proof.
  intros [(k & Hk & Hc) Hm _ _ _ _]. unfold index. rewrite Hm, Hc, land_pred_pow2 by lia. done.
Qed.

Lemma index_u64 r pos : wf r -> index r (u64 pos) = index r pos.
Proof.
  intros Hwf. rewrite !index_mod by done.
  destruct (wf_capacity r Hwf) as (k & Hk & ->). unfold wrapu.
  rewrite mod_mod_pow2 by lia. done.
Qed.

Lemma capacity_pos r : wf r -> 1 <= capacity_ r.
Proof. intros Hwf. destruct (wf_capacity r Hwf) as (k & Hk & ->). lia. Qed.

Lemma capacity_max r : wf r -> capacity_ r <= 2 ^ 63.
Proof.
  intros Hwf. destruct (wf_capacity r Hwf) as (k & Hk & ->).
  apply Z.pow_le_mono_r; lia.
Qed.

Lemma index_lt r pos : wf r -> (index r pos < length (buf_ r))%nat.
Proof.
  intros Hwf. rewrite index_mod by done. pose proof (capacity_pos r Hwf).
  pose proof (Z.mod_pos_bound pos (capacity_ r) ltac:(lia)). pose proof (wf_buf r Hwf). lia.
Qed.

Lemma size_nonneg r : 0 <= size r.
Proof. unfold size. pose proof (wrapu_range 64 (wpos_ r - rpos_ r)). lia. Qed.

Lemma size_positions r : wf r -> (wpos_ r = u64 (rpos_ r + size r)).
Proof.
  intros Hwf. unfold size. rewrite Z.add_comm, wrapu_add_l by lia.
  replace (wpos_ r - rpos_ r + rpos_ r) with (wpos_ r) by lia.
  rewrite wrapu_small; [done | apply Hwf].
Qed.

(** The value at offset [k] from the read position. *)
Lemma contents_lookup r (k : nat) :
  wf r ->
  contents r !! k =
    if decide (Z.of_nat k < size r) then buf_ r !! index r (rpos_ r + Z.of_nat k) else None.
Proof.
  intros Hwf. unfold contents.
  assert (forall l : list Z,
    omap (fun k => buf_ r !! index r (u64 (rpos_ r + k))) l !! k
    = l !! k ≫= (fun k => buf_ r !! index r (u64 (rpos_ r + k)))) as ->.
  { intros l. revert k. induction l as [|z l IH]; intros k; [done|]. cbn.
    destruct (lookup_lt_is_Some_2 (buf_ r) (index r (u64 (rpos_ r + z)))) as [v Hv];
      [by apply index_lt|].
    rewrite Hv. destruct k; cbn; [by rewrite Hv | apply IH]. }
  case_decide.
  - rewrite lookup_seqZ_lt by lia. cbn. by rewrite index_u64.
  - rewrite lookup_seqZ_ge by lia. done.
Qed.

Lemma contents_length r : wf r -> Z.of_nat (length (contents r)) = size r.
Proof.
  intros Hwf. pose proof (size_nonneg r). apply Z.le_antisymm.
  - destruct (decide (Z.of_nat (length (contents r)) <= size r)) as [|Hgt]; [done | exfalso].
    assert (is_Some (contents r !! Z.to_nat (size r))) as [v Hv] by (apply lookup_lt_is_Some; lia).
    rewrite contents_lookup in Hv by done. case_decide; [lia | done].
  - destruct (decide (size r <= Z.of_nat (length (contents r)))) as [|Hlt]; [done | exfalso].
    assert (contents r !! length (contents r) = None) as Hn by (apply lookup_ge_None; lia).
    rewrite contents_lookup in Hn by done. rewrite decide_True in Hn by lia.
    apply lookup_ge_None in Hn. pose proof (index_lt r (rpos_ r + Z.of_nat (length (contents r))) Hwf). lia.
Qed.

(** Two offsets less than a capacity apart are different slots. *)
Lemma index_inj r p q :
  wf r -> 0 <= q - p < capacity_ r -> index r p = index r q -> p = q.
Proof.
  intros Hwf Hpq He. rewrite !index_mod in He by done. pose proof (capacity_pos r Hwf).
  pose proof (Z.mod_pos_bound p (capacity_ r) ltac:(lia)).
  pose proof (Z.mod_pos_bound q (capacity_ r) ltac:(lia)).
  assert (p mod capacity_ r = q mod capacity_ r) as Hm by lia.
  pose proof (Z.div_mod p (capacity_ r) ltac:(lia)). pose proof (Z.div_mod q (capacity_ r) ltac:(lia)).
  enough (p / capacity_ r = q / capacity_ r) by nia. nia.
Qed.

Lemma index_add_capacity r p : wf r -> index r (p + capacity_ r) = index r p.
Proof.
  intros Hwf. rewrite !index_mod by done. pose proof (capacity_pos r Hwf).
  replace (p + capacity_ r) with (p + 1 * capacity_ r) by lia. by rewrite Z_mod_plus_full.
Qed.

Lemma empty_spec r : wf r -> empty r = bool_decide (contents r = []).
Proof.
  intros Hwf. pose proof (contents_length r Hwf) as Hl. pose proof (size_positions r Hwf) as Hp.
  unfold empty. destruct (Z.eqb_spec (rpos_ r) (wpos_ r)) as [He | Hne].
  - rewrite bool_decide_true; [done|]. apply nil_length_inv.
    assert (size r = 0) by (unfold size; rewrite He, Z.sub_diag; done). lia.
  - rewrite bool_decide_false; [done|]. intros Hc. rewrite Hc in Hl. cbn in Hl. apply Hne.
    rewrite <- Hl, Z.add_0_r in Hp. rewrite Hp. symmetry. apply wrapu_small, Hwf.
Qed.

Lemma full_spec r :
  wf r -> full r = bool_decide (length (contents r) = Z.to_nat (capacity_ r)).
Proof.
  intros Hwf. pose proof (contents_length r Hwf) as Hl. pose proof (capacity_pos r Hwf).
  unfold full. case_bool_decide; zcase; lia || done.
Qed.

(** *** The operations on the contents *)

Lemma u64_diff_succ r :
  wf r -> size r < capacity_ r -> u64 (u64 (wpos_ r + 1) - rpos_ r) = size r + 1.
Proof.
  intros Hwf Hs. pose proof (size_nonneg r). pose proof (capacity_max r Hwf).
  rewrite wrapu_sub_l by lia.
  replace (wpos_ r + 1 - rpos_ r) with (wpos_ r - rpos_ r + 1) by lia.
  rewrite <- wrapu_add_l by lia. fold (size r). apply wrapu_small. lia.
Qed.

Lemma u64_diff_pred r :
  wf r -> 0 < size r -> u64 (wpos_ r - u64 (rpos_ r + 1)) = size r - 1.
Proof.
  intros Hwf Hs. pose proof (capacity_max r Hwf). pose proof (wf_size r Hwf).
  unfold wrapu. rewrite Zminus_mod_idemp_r.
  replace (wpos_ r - (rpos_ r + 1)) with (wpos_ r - rpos_ r - 1) by lia.
  change (u64 (wpos_ r - rpos_ r - 1) = size r - 1).
  rewrite <- wrapu_sub_l by lia. fold (size r). apply wrapu_small. lia.
Qed.

Lemma size_pop r : wf r -> 0 < size r -> size (pop r) = size r - 1.
Proof. intros Hwf Hs. unfold size at 1. cbn [rpos_ wpos_ pop]. by apply u64_diff_pred. Qed.

Lemma clear_wf r : wf r -> wf (clear r).
Proof.
  intros Hwf. destruct (Hwf) as [Hc Hm Hb _ _ _]. split; cbn; try done.
  pose proof (capacity_pos r Hwf). unfold clear; cbn. change (0 <= capacity_ r). lia.
Qed.

Lemma clear_contents r : contents (clear r) = [].
Proof. done. Qed.

Lemma pop_wf r : wf r -> 0 < size r -> wf (pop r).
Proof.
  intros Hwf Hs. destruct (Hwf) as [Hc Hm Hb Hr Hw Hsz]. split; cbn; try done.
  - apply wrapu_range. lia.
  - unfold size. cbn [rpos_ wpos_ pop]. rewrite u64_diff_pred by done. lia.
Qed.

Lemma pop_contents r : wf r -> 0 < size r -> contents (pop r) = tail (contents r).
Proof.
  intros Hwf Hs. apply list_eq. intros k. rewrite lookup_tail.
  rewrite !contents_lookup by auto using pop_wf.
  rewrite size_pop by done.
  replace (index (pop r) (rpos_ (pop r) + Z.of_nat k)) with (index r (rpos_ r + Z.of_nat (S k))).
  - repeat case_decide; try done; lia.
  - change (index (pop r)) with (index r). cbn [rpos_ pop].
    rewrite <- (index_u64 r (u64 (rpos_ r + 1) + _)), wrapu_add_l, index_u64 by (done || lia).
    f_equal. lia.
Qed.

(** A write into a ring that is not full. *)
Definition put (v : A) (r : ring) : ring :=
  mkRing (capacity_ r) (mask_ r) (rpos_ r) (u64 (wpos_ r + 1)) (<[index r (wpos_ r) := v]> (buf_ r)).

Lemma size_put r v : wf r -> size r < capacity_ r -> size (put v r) = size r + 1.
Proof. intros Hwf Hs. unfold size at 1. cbn [rpos_ wpos_ put]. by apply u64_diff_succ. Qed.

Lemma put_wf r v : wf r -> size r < capacity_ r -> wf (put v r).
Proof.
  intros Hwf Hs. destruct (Hwf) as [Hc Hm Hb Hr Hw Hsz]. split; cbn; try done.
  - by rewrite length_insert.
  - apply wrapu_range. lia.
  - unfold size. cbn [rpos_ wpos_ put]. rewrite u64_diff_succ by done. lia.
Qed.

Lemma put_contents r v :
  wf r -> size r < capacity_ r -> contents (put v r) = contents r ++ [v].
Proof.
  intros Hwf Hs. pose proof (size_nonneg r). pose proof (contents_length r Hwf) as Hl.
  apply list_eq. intros k.
  rewrite contents_lookup by auto using put_wf.
  rewrite size_put by done.
  change (index (put v r)) with (index r). cbn [buf_ rpos_ put].
  assert (index r (wpos_ r) = index r (rpos_ r + size r)) as ->.
  { rewrite (size_positions r Hwf) at 1. by apply index_u64. }
  destruct (decide (Z.of_nat k < size r)) as [Hk | Hk].
  - rewrite decide_True by lia. rewrite lookup_app_l by lia.
    rewrite contents_lookup, decide_True by done.
    apply list_lookup_insert_ne. intros He.
    symmetry in He. apply (index_inj r (rpos_ r + Z.of_nat k) (rpos_ r + size r)) in He; first [done | lia].
  - rewrite lookup_app_r by lia. case_decide.
    + assert (Z.of_nat k = size r) as -> by lia.
      rewrite list_lookup_insert_eq by (by apply index_lt).
      by replace (k - length (contents r))%nat with 0%nat by lia.
    + symmetry. apply lookup_ge_None. cbn. lia.
Qed.

Lemma pop_put_commute r v :
  wf r -> size r = capacity_ r ->
  mkRing (capacity_ r) (mask_ r) (u64 (rpos_ r + 1)) (u64 (wpos_ r + 1))
    (<[index r (wpos_ r) := v]> (buf_ r)) = put v (pop r).
Proof. done. Qed.

(** [push] in terms of the bounded list. *)
Lemma push_refines ow v r :
  wf r ->
  let '(b, r') := push ow v r in
  wf r' /\ capacity_ r' = capacity_ r
  /\ (Bool b, contents r') = spec_exec ow (Z.to_nat (capacity_ r)) (Push v) (contents r).
Proof.
  intros Hwf. pose proof (contents_length r Hwf) as Hl. pose proof (wf_size r Hwf).
  pose proof (capacity_pos r Hwf). unfold push, spec_exec.
  destruct (full r) eqn:Hf; unfold full in Hf; zbool.
  - rewrite decide_False by lia. destruct ow; cbn [negb andb]; [|done].
    rewrite pop_put_commute by done. pose proof (pop_wf r Hwf ltac:(lia)) as Hp.
    pose proof (size_pop r Hwf ltac:(lia)) as Hsz.
    assert (size (pop r) < capacity_ (pop r)) by (rewrite Hsz; cbn; lia).
    rewrite put_contents, pop_contents by (done || lia). eauto using put_wf.
  - rewrite decide_True by lia. rewrite !andb_false_r.
    change (mkRing _ _ _ _ _) with (put v r).
    rewrite put_contents by lia || done. split; [apply put_wf; done || lia|]. done.
Qed.

Lemma head_lookup_0 (l : list A) : head l = l !! 0%nat.
Proof. by destruct l. Qed.

Lemma read_refines r :
  wf r ->
  let '(b, v, r') := read r in
  wf r' /\ capacity_ r' = capacity_ r /\ b = negb (empty r)
  /\ v = head (contents r) /\ contents r' = tail (contents r).
Proof.
  intros Hwf. pose proof (contents_length r Hwf) as Hl. unfold read.
  destruct (empty r) eqn:He; rewrite empty_spec in He by done.
  - apply bool_decide_eq_true in He. rewrite He. done.
  - apply bool_decide_eq_false in He.
    assert (0 < size r) as Hs.
    { destruct (contents r); [done | cbn in Hl; lia]. }
    rewrite pop_contents by done. split; [by apply pop_wf|]. repeat split.
    rewrite head_lookup_0, contents_lookup, decide_True by (done || (cbn; lia)).
    unfold front. f_equal. f_equal. lia.
Qed.

Lemma exec_refines ow c r :
  wf r ->
  let '(a, r') := exec ow c r in
  wf r' /\ capacity_ r' = capacity_ r
  /\ (a, contents r') = spec_exec ow (Z.to_nat (capacity_ r)) c (contents r).
Proof.
  intros Hwf. destruct c as [v | | | |]; cbn [exec].
  - pose proof (push_refines ow v r Hwf) as H. by destruct (push ow v r).
  - pose proof (read_refines r Hwf) as H. destruct (read r) as [[b v] r'].
    destruct H as (? & ? & _ & -> & Ht). cbn [spec_exec]. by rewrite Ht.
  - split; [by apply clear_wf|]. done.
  - rewrite full_spec by done. done.
  - rewrite empty_spec by done. done.
Qed.

Lemma run_refines ow cs r :
  wf r ->
  let '(as1, r') := run (exec ow) cs r in
  wf r' /\ capacity_ r' = capacity_ r
  /\ (as1, contents r') = run (spec_exec ow (Z.to_nat (capacity_ r))) cs (contents r).
Proof.
  revert r. induction cs as [|c cs IH]; intros r Hwf; cbn [run]; [done|].
  pose proof (exec_refines ow c r Hwf) as Hc. destruct (exec ow c r) as [a r1].
  destruct Hc as (Hwf1 & Hcap & Hc). rewrite <- Hc.
  specialize (IH r1 Hwf1). destruct (run (exec ow) cs r1) as [as1 r2].
  destruct IH as (Hwf2 & Hcap2 & IH). rewrite <- Hcap, <- IH. rewrite Hcap2, Hcap. done.
Qed.

Lemma make_wf dflt n r :
  0 <= n <= 2 ^ 30 -> make dflt n = Some r ->
  wf r /\ contents r = [] /\ n <= capacity_ r.
Proof.
  intros Hn Hr. destruct (next_pow2_minimal n Hn) as (k & Hk & Hp & Hge & _).
  unfold make in Hr. rewrite Hp in Hr. cbn [mbind option_bind] in Hr. simplify_eq.
  assert (2 ^ k <= 2 ^ 30) by (apply Z.pow_le_mono_r; lia).
  assert (0 < 2 ^ k) by lia.
  split; [split; cbn; try done|done].
  - exists k. lia.
  - apply wrapu_small. lia.
  - rewrite length_replicate. lia.
  - change (0 <= 2 ^ k). lia.
Qed.

Lemma make_some dflt n : 0 <= n <= 2 ^ 30 -> is_Some (make dflt n).
Proof.
  intros Hn. destruct (next_pow2_minimal n Hn) as (k & _ & Hp & _).
  unfold make. rewrite Hp. eauto.
Qed.

(** [write] with a function that ignores the old value is [push]. *)
Lemma write_push ow fn v r :
  wf r -> fn <$> buf_ r !! index r (wpos_ r) = Some v -> write ow fn r = push ow v r.
Proof.
  intros Hwf Hv. unfold write, push. replace (alter fn (index r (wpos_ r)) (buf_ r))
    with (<[index r (wpos_ r) := v]> (buf_ r)); [done|].
  apply list_eq. intros i. destruct (decide (i = index r (wpos_ r))) as [-> | Hne].
  - rewrite list_lookup_insert_eq by (by apply index_lt).
    by rewrite list_lookup_alter_eq.
  - rewrite list_lookup_insert_ne, list_lookup_alter_ne by done. done.
Qed.
End ring.
Arguments ring : clear implicits.
Arguments command : clear implicits.
Arguments answer : clear implicits.

(** ** Properties *)

(** C33: Refinement: a ring constructed for [n] values, in either overwrite mode,
    answers every sequence of pushes, reads, clears and queries exactly as a
    list bounded by the ring's capacity, which is a power of two of at least
    [n]; a full ring drops its oldest value when it overwrites and refuses the
    new one when it does not. *)
Theorem ring_refines_bounded_list {A : Type} (dflt : A) (n : Z) (overwrite : bool)
  (cs : list (command A)) (Hn : 0 <= n <= 2 ^ 30) :
  exists r, make dflt n = Some r /\ n <= capacity_ r /\ is_pow2 (capacity_ r) = true
    /\ let '(answers, r') := run (exec overwrite) cs r in
       (answers, contents r') = run (spec_exec overwrite (Z.to_nat (capacity_ r))) cs []
       /\ size r' = Z.of_nat (length (contents r')).
Proof.
  destruct (make_some dflt n Hn) as [r Hr]. exists r. split; [done|].
  destruct (make_wf dflt n r Hn Hr) as (Hwf & Hc & Hge). split; [done|].
  split; [destruct (wf_capacity r Hwf) as (k & Hk & ->); apply is_pow2_pow2; lia|].
  pose proof (run_refines overwrite cs r Hwf) as H. rewrite Hc in H.
  destruct (run (exec overwrite) cs r) as [as1 r']. destruct H as (Hwf' & _ & H).
  split; [exact H|]. symmetry. by apply contents_length.
Qed.

Lemma ring_refines_bounded_list_witness :
  exists r, make 0%nat 2 = Some r /\ 2 <= capacity_ r /\ is_pow2 (capacity_ r) = true
    /\ let '(answers, r') := run (exec true) [Push 1%nat; Push 2%nat; Push 3%nat; Read] r in
       (answers, contents r')
       = run (spec_exec true (Z.to_nat (capacity_ r))) [Push 1%nat; Push 2%nat; Push 3%nat; Read] []
       /\ size r' = Z.of_nat (length (contents r')).
Proof.
  apply (ring_refines_bounded_list 0%nat 2 true [Push 1%nat; Push 2%nat; Push 3%nat; Read]). lia.
Defined.

(** Overwriting keeps the newest values: whatever is pushed, the ring holds the
    last [capacity] values of its contents followed by the new ones. *)
Theorem overwrite_keeps_newest {A : Type} (r : ring A) (vs : list A) (Hwf : wf r) :
  let r' := foldl (fun r v => snd (push true v r)) r vs in
  contents r' = drop (length (contents r) + length vs - Z.to_nat (capacity_ r))
                  (contents r ++ vs).
Proof.
  cbv zeta. revert r Hwf. induction vs as [|v vs IH]; intros r Hwf; cbn [foldl].
  - pose proof (contents_length r Hwf). pose proof (wf_size r Hwf).
    rewrite app_nil_r. replace (_ - _)%nat with 0%nat by (cbn [length]; lia). done.
  - pose proof (push_refines true v r Hwf) as H. pose proof (contents_length r Hwf).
    pose proof (wf_size r Hwf). pose proof (capacity_pos r Hwf).
    destruct (push true v r) as [b r']. cbn [snd]. destruct H as (Hwf' & Hcap & H).
    rewrite IH, Hcap by done. unfold spec_exec in H.
    destruct (decide _) as [Hlt | Hge]; injection H as _ H; rewrite H.
    + rewrite length_app, <- app_assoc. cbn. f_equal. lia.
    + destruct (contents r) as [|x l] eqn:E; [cbn in *; lia|].
      cbn [tail]. rewrite length_app. cbn [length app] in *. rewrite <- app_assoc. cbn [app].
      replace (S (length l) + S (length vs) - Z.to_nat (capacity_ r))%nat
        with (S (length l + 1 + length vs - Z.to_nat (capacity_ r))) by lia. done.
Qed.

Lemma overwrite_keeps_newest_witness :
  let r := mkRing 2 1 (2 ^ 64 - 1) 1 [10; 20]%nat in
  contents (foldl (fun r v => snd (push true v r)) r [30%nat])
  = drop (length (contents r) + 1 - Z.to_nat (capacity_ r)) (contents r ++ [30%nat]).
Proof.
  apply (overwrite_keeps_newest (mkRing 2 1 (2 ^ 64 - 1) 1 [10; 20]%nat) [30%nat]).
  split; cbn; try done; try lia. exists 1. lia.
Defined.

(** Two members do not do what their comments say.  [pop(val)] of a non-empty
    ring removes and assigns the value but returns nothing, and [capacity()]
    is the number of values held. *)
Theorem pop_val_and_capacity {A : Type} (r : ring A) (Hwf : wf r) :
  capacity r = Z.of_nat (length (contents r)) /\ max_size r = capacity r
  /\ (contents r = [] -> pop_val r = (Some false, None, r))
  /\ (contents r <> [] -> exists v, pop_val r = (None, Some v, pop r)
       /\ contents r = v :: contents (pop r)).
Proof.
  split; [symmetry; by apply contents_length|]. split; [done|].
  unfold pop_val. rewrite empty_spec by done. split; intros Hc.
  - by rewrite bool_decide_true.
  - rewrite bool_decide_false by done.
    pose proof (read_refines r Hwf) as H. unfold read in H.
    rewrite empty_spec, bool_decide_false in H by done.
    destruct H as (_ & _ & _ & Hf & ->). destruct (contents r) as [|v l]; [done|].
    cbn in Hf |- *. rewrite Hf. eauto.
Qed.

Lemma pop_val_and_capacity_witness :
  let r := mkRing 2 1 0 1 [10; 20]%nat in
  capacity r = Z.of_nat (length (contents r)) /\ max_size r = capacity r
  /\ (contents r = [] -> pop_val r = (Some false, None, r))
  /\ (contents r <> [] -> exists v, pop_val r = (None, Some v, pop r)
       /\ contents r = v :: contents (pop r)).
Proof.
  apply (pop_val_and_capacity (mkRing 2 1 0 1 [10; 20]%nat)).
  split; cbn; try done; try lia. exists 1. lia.
Defined.
