(* ===== verification/Buffer.v ===== *)
(** * Stream buffer

    Models [toolbox/io/Buffer.hpp] and [toolbox/io/Buffer.cpp]: the growable
    byte buffer between a socket and a parser, with a read position, a write
    position and a vector of bytes.  The theorems show that it is a byte
    stream: what was committed comes out in order, and memory is reclaimed. *)
From S2P Require Import Prelude.

(** [Buffer]; a byte is its numeric value.  The reserved capacity of the vector
    is not observable and not modelled. *)
Record Buffer := mkBuffer {
  rpos_ : Z;
  wpos_ : Z;
  buf_ : list Z
}.

(** A buffer handed to the caller: an offset into the vector and a length. *)
Record Region := mkRegion { data : Z; region_size : Z }.

Definition new_buffer : Buffer := mkBuffer 0 0 [].

Definition vector_size (b : Buffer) : Z := Z.of_nat (length (buf_ b)).
Definition size (b : Buffer) : Z := u64 (wpos_ b - rpos_ b).
Definition empty (b : Buffer) : bool := size b =? 0.
Definition available (b : Buffer) : Z := u64 (vector_size b - wpos_ b).

(** [buffer()] and [buffer(limit)]. *)
Definition buffer (b : Buffer) : Region := mkRegion (rpos_ b) (size b).
Definition buffer_limit (limit : Z) (b : Buffer) : Region :=
  mkRegion (rpos_ b) (Z.min limit (size b)).

(** The bytes of a region. *)
Definition bytes_of (b : Buffer) (r : Region) : list Z :=
  take (Z.to_nat (region_size r)) (drop (Z.to_nat (data r)) (buf_ b)).

(** [str()] and [str(limit)]. *)
Definition str (b : Buffer) : list Z := bytes_of b (buffer b).
Definition str_limit (limit : Z) (b : Buffer) : list Z := bytes_of b (buffer_limit limit b).

Definition clear (b : Buffer) : Buffer := mkBuffer 0 0 [].

Definition commit (count : Z) (b : Buffer) : Buffer :=
  mkBuffer (rpos_ b) (u64 (wpos_ b + count)) (buf_ b).

Definition shrink_threshold : Z := 1024.

(** [memmove(buf_.data(), rptr(), n)]. *)
Definition move_front (rpos : Z) (n : Z) (buf : list Z) : list Z :=
  take (Z.to_nat n) (drop (Z.to_nat rpos) buf) ++ drop (Z.to_nat n) buf.

Definition consume (count : Z) (b : Buffer) : Buffer :=
  if count =? 0 then b
  else
    let rpos := u64 (rpos_ b + count) in
    if (shrink_threshold <=? rpos) && (Z.shiftr (vector_size b) 1 <=? rpos) then
      let n := u64 (wpos_ b - rpos) in
      let buf := if 0 <? n then move_front rpos n (buf_ b) else buf_ b in
      mkBuffer 0 n buf
    else mkBuffer rpos (wpos_ b) (buf_ b).

(** [prepare]: the vector is resized with zero bytes. *)
Definition prepare (sz : Z) (b : Buffer) : Region * Buffer :=
  let avail := available b in
  if avail <? sz then
    let diff := u64 (sz - avail) in
    (mkRegion (wpos_ b) sz,
     mkBuffer (rpos_ b) (wpos_ b) (buf_ b ++ replicate (Z.to_nat diff) 0))
  else (mkRegion (wpos_ b) avail, b).

(** [advance]: skip the front of a region handed out before. *)
Definition advance (r : Region) (n : Z) : Region :=
  let offset := Z.min n (region_size r) in
  mkRegion (data r + offset) (region_size r - offset).

(** What a socket does with a prepared region: it stores bytes at its start. *)
Definition store (r : Region) (bytes : list Z) (b : Buffer) : Buffer :=
  let off := Z.to_nat (data r) in
  mkBuffer (rpos_ b) (wpos_ b)
    (take off (buf_ b) ++ bytes ++ drop (off + length bytes) (buf_ b)).

(** ** A client of the buffer and the stream it sees *)
Inductive command :=
| Receive (sz : Z) (bytes : list Z)
| Consume (n : Z)
| Clear.

(** [Receive]: prepare [sz] bytes, store the bytes that arrived, commit them. *)
Definition exec (c : command) (b : Buffer) : Buffer :=
  match c with
  | Receive sz bytes =>
      let '(r, b1) := prepare sz b in commit (Z.of_nat (length bytes)) (store r bytes b1)
  | Consume n => consume n b
  | Clear => clear b
  end.

Definition stream_exec (c : command) (l : list Z) : list Z :=
  match c with
  | Receive _ bytes => l ++ bytes
  | Consume n => drop (Z.to_nat n) l
  | Clear => []
  end.

(** The caller's part of the contract: no more bytes are stored than were
    prepared, no more are consumed than are in the buffer, and the address
    space is not exhausted. *)
Fixpoint contract (cs : list command) (l : list Z) (used : Z) : Prop :=
  match cs with
  | [] => True
  | c :: cs' =>
      match c with
      | Receive sz bytes => Z.of_nat (length bytes) <= sz /\ used + sz < 2 ^ 63
      | Consume n => 0 <= n <= Z.of_nat (length l)
      | Clear => True
      end
      /\ contract cs' (stream_exec c l)
           (used + match c with Receive sz _ => sz | _ => 0 end)
  end.

Record wf (b : Buffer) : Prop := {
  wf_rpos : 0 <= rpos_ b <= wpos_ b;
  wf_wpos : wpos_ b <= vector_size b < 2 ^ 63
}.

(** ** Lemmas *)

Lemma size_wf b : wf b -> size b = wpos_ b - rpos_ b.
Proof. intros [Hr Hw]. apply wrapu_small. lia. Qed.

Lemma available_wf b : wf b -> available b = vector_size b - wpos_ b.
Proof. intros [Hr Hw]. apply wrapu_small. lia. Qed.

Lemma str_length b : wf b -> Z.of_nat (length (str b)) = size b.
Proof.
  intros Hwf. unfold str, bytes_of, buffer. cbn. rewrite size_wf by done.
  destruct Hwf as [Hr Hw]. unfold vector_size in Hw.
  rewrite length_take, length_drop. lia.
Qed.

(** The slice of a list between two positions. *)
Definition slice {A} (lo hi : Z) (l : list A) : list A :=
  take (Z.to_nat (hi - lo)) (drop (Z.to_nat lo) l).

Lemma str_slice b : wf b -> str b = slice (rpos_ b) (wpos_ b) (buf_ b).
Proof. intros Hwf. unfold str, bytes_of, buffer, slice. cbn. by rewrite size_wf. Qed.

Lemma slice_app_l {A} lo hi (l1 l2 : list A) :
  0 <= lo <= hi -> hi <= Z.of_nat (length l1) -> slice lo hi (l1 ++ l2) = slice lo hi l1.
Proof.
  intros Hlo Hhi. unfold slice. rewrite drop_app_le by lia.
  apply take_app_le. rewrite length_drop. lia.
Qed.

Lemma slice_drop {A} lo hi n (l : list A) :
  0 <= lo -> 0 <= n -> lo + n <= hi -> slice (lo + n) hi l = drop (Z.to_nat n) (slice lo hi l).
Proof.
  intros Hlo Hn Hhi. unfold slice.
  rewrite skipn_firstn_comm, drop_drop.
  replace (Z.to_nat (lo + n)) with (Z.to_nat lo + Z.to_nat n)%nat by lia.
  f_equal. lia.
Qed.

Lemma slice_store {A} lo hi (l bytes rest : list A) :
  0 <= lo <= hi -> hi <= Z.of_nat (length l) ->
  slice lo (hi + Z.of_nat (length bytes)) (take (Z.to_nat hi) l ++ bytes ++ rest)
  = slice lo hi l ++ bytes.
Proof.
  intros Hlo Hhi. unfold slice.
  assert (length (take (Z.to_nat hi) l) = Z.to_nat hi) as Ht by (rewrite length_take; lia).
  rewrite drop_app_le by lia. rewrite app_assoc.
  rewrite take_app_le by (rewrite length_app, length_drop, Ht; lia).
  rewrite take_ge by (rewrite length_app, length_drop, Ht; lia).
  f_equal. rewrite skipn_firstn_comm. f_equal. lia.
Qed.

Lemma slice_move_front {A} rpos n (l : list A) :
  0 <= rpos -> 0 <= n -> rpos + n <= Z.of_nat (length l) ->
  slice 0 n (take (Z.to_nat n) (drop (Z.to_nat rpos) l) ++ drop (Z.to_nat n) l)
  = slice rpos (rpos + n) l.
Proof.
  intros Hr Hn Hl. unfold slice. rewrite drop_0.
  replace (rpos + n - rpos) with n by lia. rewrite Z.sub_0_r.
  rewrite take_app_le by (rewrite length_take, length_drop; lia).
  rewrite take_take. f_equal. lia.
Qed.

Lemma move_front_length rpos n l :
  0 <= rpos -> 0 <= n -> rpos + n <= Z.of_nat (length l) ->
  length (move_front rpos n l) = length l.
Proof.
  intros. unfold move_front. rewrite length_app, length_take, !length_drop. lia.
Qed.

(** *** Operations *)

Lemma prepare_facts sz b :
  wf b -> 0 <= sz -> vector_size b + sz < 2 ^ 63 ->
  let '(r, b1) := prepare sz b in
  wf b1 /\ str b1 = str b /\ rpos_ b1 = rpos_ b /\ wpos_ b1 = wpos_ b
  /\ data r = wpos_ b /\ sz <= region_size r /\ data r + region_size r = vector_size b1
  /\ vector_size b1 = Z.max (vector_size b) (wpos_ b + sz).
Proof.
  intros Hwf Hsz Hmax. pose proof (available_wf b Hwf) as Ha. destruct (Hwf) as [Hr Hw].
  unfold prepare. rewrite Ha.
  destruct (Z.ltb_spec (vector_size b - wpos_ b) sz) as [Hlt | Hge].
  - rewrite wrapu_small by lia.
    set (z := replicate _ 0).
    assert (vector_size (mkBuffer (rpos_ b) (wpos_ b) (buf_ b ++ z)) = wpos_ b + sz) as Hv.
    { unfold vector_size in *. cbn. unfold z. rewrite length_app, length_replicate. lia. }
    assert (wf (mkBuffer (rpos_ b) (wpos_ b) (buf_ b ++ z))) as Hwf1.
    { split; [cbn; lia|]. rewrite Hv. cbn. lia. }
    split; [done|]. rewrite !str_slice by done. cbn [rpos_ wpos_ buf_ data region_size].
    unfold vector_size in Hw. rewrite slice_app_l by lia. repeat split; lia.
  - cbn [data region_size]. split; [done|]. repeat split; lia.
Qed.

Lemma store_commit_facts r bytes b :
  wf b -> data r = wpos_ b -> wpos_ b + Z.of_nat (length bytes) <= vector_size b ->
  let b' := commit (Z.of_nat (length bytes)) (store r bytes b) in
  wf b' /\ str b' = str b ++ bytes /\ vector_size b' = vector_size b.
Proof.
  intros Hwf Hd Hlen. destruct (Hwf) as [Hr Hw]. cbv zeta.
  assert (vector_size (commit (Z.of_nat (length bytes)) (store r bytes b)) = vector_size b) as Hv.
  { unfold vector_size in *. cbn. rewrite Hd, !length_app, length_take, length_drop. lia. }
  assert (wpos_ (commit (Z.of_nat (length bytes)) (store r bytes b))
          = wpos_ b + Z.of_nat (length bytes)) as Hwp.
  { cbn. apply wrapu_small. lia. }
  assert (wf (commit (Z.of_nat (length bytes)) (store r bytes b))) as Hwf'.
  { split; [rewrite Hwp; cbn; lia | rewrite Hv, Hwp; lia]. }
  split; [done|]. split; [|done].
  rewrite !str_slice, Hwp by done. cbn [rpos_ buf_ commit store]. rewrite Hd.
  unfold vector_size in Hw. apply slice_store; lia.
Qed.

Lemma consume_facts n b :
  wf b -> 0 <= n <= size b ->
  wf (consume n b) /\ str (consume n b) = drop (Z.to_nat n) (str b)
  /\ vector_size (consume n b) = vector_size b
  /\ (0 < n -> rpos_ (consume n b) < shrink_threshold
               \/ rpos_ (consume n b) < Z.shiftr (vector_size b) 1).
Proof.
  intros Hwf Hn. rewrite size_wf in Hn by done. destruct (Hwf) as [Hr Hw].
  unfold consume. destruct (Z.eqb_spec n 0) as [-> | Hn0]; [split; [done|]; repeat split; lia|].
  rewrite (wrapu_small _ (rpos_ b + n)) by lia.
  rewrite (wrapu_small _ (wpos_ b - (rpos_ b + n))) by lia.
  rewrite (str_slice b), <- slice_drop by (done || lia).
  destruct (_ && _) eqn:Hshrink.
  - set (buf := if 0 <? wpos_ b - (rpos_ b + n)
                then move_front (rpos_ b + n) (wpos_ b - (rpos_ b + n)) (buf_ b) else buf_ b).
    assert (length buf = length (buf_ b)) as Hbuf.
    { unfold buf. zcase; [|done]. unfold vector_size in Hw. apply move_front_length; lia. }
    assert (wf (mkBuffer 0 (wpos_ b - (rpos_ b + n)) buf)) as Hwf'.
    { split; cbn; [lia|]. unfold vector_size in *. cbn. rewrite Hbuf. lia. }
    split; [done|]. rewrite str_slice by done. cbn [rpos_ wpos_ buf_].
    split; [|split; [unfold vector_size; cbn; by rewrite Hbuf | unfold shrink_threshold; lia]].
    unfold buf. zcase.
    + unfold move_front, vector_size in *. rewrite slice_move_front by lia. f_equal. lia.
    + unfold slice. replace (Z.to_nat (wpos_ b - (rpos_ b + n) - 0)) with 0%nat by lia.
      by replace (Z.to_nat (wpos_ b - (rpos_ b + n))) with 0%nat by lia.
  - assert (wf (mkBuffer (rpos_ b + n) (wpos_ b) (buf_ b))) as Hwf'.
    { split; cbn; [lia | exact Hw]. }
    split; [done|]. rewrite str_slice by done. repeat split; try done.
    cbn. intros _. apply andb_false_iff in Hshrink as [? | ?]; zbool; lia.
Qed.

Lemma exec_facts c b used :
  wf b -> vector_size b <= used ->
  contract [c] (str b) used ->
  wf (exec c b) /\ str (exec c b) = stream_exec c (str b)
  /\ vector_size (exec c b) <= used + match c with Receive sz _ => sz | _ => 0 end.
Proof.
  intros Hwf Hu [Hc _]. destruct c as [sz bytes | n |]; cbn [exec stream_exec].
  - pose proof (prepare_facts sz b Hwf ltac:(lia) ltac:(lia)) as Hp.
    destruct (prepare sz b) as [r b1].
    destruct Hp as (Hwf1 & Hs1 & _ & Hw1 & Hd & _ & _ & Hv).
    destruct (store_commit_facts r bytes b1 Hwf1) as (Hwf2 & Hs2 & Hv2); [congruence | lia|].
    destruct (Hwf) as [Hr Hw].
    split; [done|]. split; [by rewrite Hs2, Hs1 | lia].
  - rewrite str_length in Hc by done.
    destruct (consume_facts n b Hwf Hc) as (Hwf1 & Hs & Hv & _).
    split; [done|]. split; [done | lia].
  - split; [|split; [done | change (0 <= used + 0); unfold vector_size in Hu; lia]].
    split; [cbn; lia|]. change (0 <= 0 < 2 ^ 63). lia.
Qed.

(** ** Properties *)

(** C23: The buffer is a byte stream: for every sequence of prepare, store, commit,
    consume and clear within the contract, the bytes available for reading are
    exactly those received and not yet consumed, in order, whatever the buffer
    moved or resized on the way, and no 64-bit position wraps. *)
Theorem buffer_is_stream (cs : list command) (b : Buffer) (used : Z)
  (Hwf : wf b) (Hu : vector_size b <= used) (Hc : contract cs (str b) used) :
  let b' := foldl (fun b c => exec c b) b cs in
  wf b' /\ str b' = foldl (fun l c => stream_exec c l) (str b) cs
  /\ size b' = Z.of_nat (length (str b')) /\ (empty b' = true <-> str b' = []).
Proof.
  cbv zeta. revert b used Hwf Hu Hc.
  induction cs as [|c cs IH]; intros b used Hwf Hu Hc; cbn [foldl].
  - pose proof (str_length b Hwf) as Hl. split; [done|]. split; [done|]. split; [done|].
    unfold empty. rewrite Z.eqb_eq. destruct (str b); cbn in Hl; split; intros H; done || lia.
  - destruct Hc as [Hc1 Hc].
    destruct (exec_facts c b used Hwf Hu ltac:(split; [exact Hc1 | done])) as (Hwf1 & Hs & Hv).
    rewrite <- Hs in Hc |- *. by apply (IH _ _ Hwf1 Hv).
Qed.

Lemma buffer_is_stream_witness :
  let cs := [Receive 4 [1; 2; 3]; Consume 2; Receive 2 [4; 5]] in
  let b' := foldl (fun b c => exec c b) new_buffer cs in
  wf b' /\ str b' = foldl (fun l c => stream_exec c l) (str new_buffer) cs
  /\ size b' = Z.of_nat (length (str b')) /\ (empty b' = true <-> str b' = []).
Proof.
  apply (buffer_is_stream [Receive 4 [1; 2; 3]; Consume 2; Receive 2 [4; 5]] new_buffer 0).
  - split; vm_compute; intuition congruence.
  - vm_compute. congruence.
  - vm_compute. intuition congruence.
Defined.

(** Space: a region prepared for [sz] bytes starts at the write position, has
    at least [sz] bytes, reaches to the end of the vector, and the vector only
    grows when the space behind the write position is too small; after every
    [consume] of at least one byte the unread front is shorter than 1024 bytes
    or than half the vector. *)
Theorem buffer_space (b : Buffer) (sz n : Z)
  (Hwf : wf b) (Hsz : 0 <= sz) (Hmax : vector_size b + sz < 2 ^ 63) (Hn : 0 < n <= size b) :
  (let '(r, b') := prepare sz b in
   data r = wpos_ b /\ sz <= region_size r /\ data r + region_size r = vector_size b'
   /\ vector_size b' = Z.max (vector_size b) (wpos_ b + sz) /\ str b' = str b)
  /\ (rpos_ (consume n b) < shrink_threshold
      \/ rpos_ (consume n b) < Z.shiftr (vector_size b) 1)
  /\ vector_size (consume n b) = vector_size b.
Proof.
  pose proof (prepare_facts sz b Hwf Hsz Hmax) as Hp. destruct (prepare sz b) as [r b1].
  destruct (consume_facts n b Hwf ltac:(lia)) as (_ & _ & Hv & Hc).
  destruct Hp as (? & ? & ? & ? & ? & ? & ? & ?). auto 10 with lia.
Qed.

Lemma buffer_space_witness :
  let b := mkBuffer 1 3 [7; 8; 9; 0] in
  (let '(r, b') := prepare 5 b in
   data r = wpos_ b /\ 5 <= region_size r /\ data r + region_size r = vector_size b'
   /\ vector_size b' = Z.max (vector_size b) (wpos_ b + 5) /\ str b' = str b)
  /\ (rpos_ (consume 2 b) < shrink_threshold
      \/ rpos_ (consume 2 b) < Z.shiftr (vector_size b) 1)
  /\ vector_size (consume 2 b) = vector_size b.
Proof.
  apply (buffer_space (mkBuffer 1 3 [7; 8; 9; 0]) 5 2).
  - split; unfold vector_size; cbn; lia.
  - lia.
  - unfold vector_size. cbn. lia.
  - vm_compute. split; congruence.
Defined.

(** [str(limit)] is a prefix of the stream, and [advance] within a region
    handed out by [buffer()] drops that many bytes. *)
Theorem buffer_views (b : Buffer) (n : Z) (Hwf : wf b) (Hn : 0 <= n) :
  str_limit n b = take (Z.to_nat n) (str b)
  /\ bytes_of b (advance (buffer b) n) = drop (Z.to_nat n) (str b).
Proof.
  pose proof (str_length b Hwf) as Hl. rewrite size_wf in Hl by done.
  destruct (Hwf) as [Hr Hw].
  unfold str_limit, buffer_limit, str, bytes_of, advance, buffer in *.
  cbn [data region_size] in *. rewrite !size_wf in * by done. split.
  - rewrite take_take. f_equal. lia.
  - rewrite skipn_firstn_comm, drop_drop.
    destruct (Z.min_spec n (wpos_ b - rpos_ b)) as [[? ->] | [? ->]].
    + f_equal; [lia|]. f_equal. lia.
    + replace (wpos_ b - rpos_ b - (wpos_ b - rpos_ b)) with 0 by lia.
      replace (Z.to_nat (wpos_ b - rpos_ b) - Z.to_nat n)%nat with 0%nat by lia. done.
Qed.

Lemma buffer_views_witness :
  let b := mkBuffer 1 3 [7; 8; 9; 0] in
  str_limit 1 b = take (Z.to_nat 1) (str b)
  /\ bytes_of b (advance (buffer b) 1) = drop (Z.to_nat 1) (str b).
Proof.
  apply (buffer_views (mkBuffer 1 3 [7; 8; 9; 0]) 1); [|lia].
  split; unfold vector_size; cbn; lia.
Defined.
