(* ===== verification/Histogram.v ===== *)
(** * High dynamic range histogram

    Models [toolbox/hdr/Histogram.hpp] and [toolbox/hdr/Histogram.cpp]: the
    bucket configuration, the mapping between values and counters, and
    recording.  The mapping from a value to a counter is exact integer
    arithmetic; the two logarithms of the configuration are the operations of
    the class [Libm], because the source computes them in floating point. *)
From S2P Require Import Prelude Math.

(** The two calls of the floating-point logarithm:
    [floor(log(value) / log(2))] converted to [int32_t], and
    [ceil(log(pow(10, figures) * 2.0) / log(2))]. *)
Class Libm := {
  floor_log2 : Z -> Z;
  ceil_log2_twice_pow10 : Z -> Z
}.

(** What the configuration relies on: the rounded quotient is in range for
    every positive 64-bit value and exact for values whose logarithms are far
    enough apart, and exact for the five legal numbers of figures. *)
Class LibmLaws (L : Libm) : Prop := {
  floor_log2_range : forall v, 1 <= v < 2 ^ 63 -> 0 <= floor_log2 v <= 63;
  floor_log2_exact : forall v, 1 <= v < 2 ^ 47 -> floor_log2 v = Z.log2 v;
  ceil_log2_exact : forall n, 1 <= n <= 5 ->
    ceil_log2_twice_pow10 n = Z.log2_up (2 * 10 ^ n)
}.

(** ** The configuration *)

Record HdrBucketConfig := mkConfig {
  lowest_trackable_value : Z;
  highest_trackable_value : Z;
  significant_figures : Z;
  unit_magnitude : Z;
  sub_bucket_half_count_magnitude : Z;
  sub_bucket_count : Z;
  sub_bucket_half_count : Z;
  sub_bucket_mask : Z;
  bucket_count : Z;
  counts_len : Z
}.

Inductive hdr_error :=
| MinValueMustBeGreaterThanZero
| SignificantFiguresOutOfRange
| HighestTrackableValueTooSmall
| InvalidMagnitude.

Definition count_leading_zeros_64 (value : Z) : Z := clz 64 (u64 value).

Definition get_sub_bucket_index (value bucket_index unit_magnitude : Z) : Z :=
  i32 (Z.shiftr value (bucket_index + unit_magnitude)).

(** The loop of [buckets_needed_to_cover_value]; [None] when the fuel is not
    enough.  The value doubles in each round, so 64 rounds are. *)
Fixpoint buckets_needed_loop (fuel : nat) (value smallest needed : Z) : option Z :=
  if smallest <=? value then
    if int64_max / 2 <? smallest then Some (needed + 1)
    else match fuel with
         | O => None
         | S fuel' => buckets_needed_loop fuel' value (i64 (Z.shiftl smallest 1)) (needed + 1)
         end
  else Some needed.

Definition buckets_needed_to_cover_value (fuel : nat) (value sub_bucket_count unit_magnitude : Z)
    : option Z :=
  buckets_needed_loop fuel value (i64 (Z.shiftl sub_bucket_count unit_magnitude)) 1.

Definition value_from_index (bucket_index sub_bucket_index unit_magnitude : Z) : Z :=
  i64 (Z.shiftl sub_bucket_index (bucket_index + unit_magnitude)).

Section config.
Context `{Libm}.

Definition get_sub_bucket_half_count_magnitude (significant_figures : Z) : Z :=
  let sub_bucket_count_magnitude := ceil_log2_twice_pow10 significant_figures in
  if 1 <? sub_bucket_count_magnitude then sub_bucket_count_magnitude - 1 else 0.

(** The constructor of [HdrBucketConfig]: the members are computed first, then
    the arguments are checked.  [None] is a constructor that does not return. *)
Definition make_config (fuel : nat) (lowest highest figures : Z)
    : option (hdr_error + HdrBucketConfig) :=
  let unit_magnitude := floor_log2 lowest in
  let half_magnitude := get_sub_bucket_half_count_magnitude figures in
  let sub_bucket_count := i32 (2 ^ (half_magnitude + 1)) in
  let sub_bucket_half_count := Z.quot sub_bucket_count 2 in
  let sub_bucket_mask := i64 (Z.shiftl (sub_bucket_count - 1) unit_magnitude) in
  bucket_count ← buckets_needed_to_cover_value fuel highest sub_bucket_count unit_magnitude;
  let counts_len := i32 ((bucket_count + 1) * Z.quot sub_bucket_count 2) in
  Some (
    if lowest <? 1 then inl MinValueMustBeGreaterThanZero
    else if (figures <? 1) || (5 <? figures) then inl SignificantFiguresOutOfRange
    else if highest <? i64 (lowest * 2) then inl HighestTrackableValueTooSmall
    else if 61 <? unit_magnitude + half_magnitude then inl InvalidMagnitude
    else inr (mkConfig lowest highest figures unit_magnitude half_magnitude
                sub_bucket_count sub_bucket_half_count sub_bucket_mask
                bucket_count counts_len)).

End config.

(** ** The histogram *)

(** [HdrHistogram]: the members copied from the configuration are kept as one
    field; [counts_] has [counts_len] elements. *)
Record HdrHistogram := mkHistogram {
  config_ : HdrBucketConfig;
  normalizing_index_offset_ : Z;
  min_value_ : Z;
  max_value_ : Z;
  total_count_ : Z;
  counts_ : list Z
}.

Definition make_histogram (config : HdrBucketConfig) : HdrHistogram :=
  mkHistogram config 0 int64_max 0 0 (replicate (Z.to_nat (counts_len config)) 0).

Definition counts_size (h : HdrHistogram) : Z := Z.of_nat (length (counts_ h)).

Section operations.
Variable h : HdrHistogram.

#[local] Abbreviation unit_magnitude_ := (unit_magnitude (config_ h)).
#[local] Abbreviation half_magnitude_ := (sub_bucket_half_count_magnitude (config_ h)).
#[local] Abbreviation sub_bucket_count_ := (sub_bucket_count (config_ h)).
#[local] Abbreviation sub_bucket_half_count_ := (sub_bucket_half_count (config_ h)).
#[local] Abbreviation sub_bucket_mask_ := (sub_bucket_mask (config_ h)).

Definition get_bucket_index (value : Z) : Z :=
  let pow2ceiling := 64 - count_leading_zeros_64 (Z.lor value sub_bucket_mask_) in
  pow2ceiling - unit_magnitude_ - (half_magnitude_ + 1).

Definition counts_index (bucket_index sub_bucket_index : Z) : Z :=
  let bucket_base_index := i32 (Z.shiftl (bucket_index + 1) half_magnitude_) in
  let offset_in_bucket := sub_bucket_index - sub_bucket_half_count_ in
  bucket_base_index + offset_in_bucket.

Definition counts_index_for (value : Z) : Z :=
  let bucket_index := get_bucket_index value in
  let sub_bucket_index := get_sub_bucket_index value bucket_index unit_magnitude_ in
  counts_index bucket_index sub_bucket_index.

Definition lowest_equivalent_value (value : Z) : Z :=
  let bucket_index := get_bucket_index value in
  let sub_bucket_index := get_sub_bucket_index value bucket_index unit_magnitude_ in
  value_from_index bucket_index sub_bucket_index unit_magnitude_.

Definition size_of_equivalent_value_range (value : Z) : Z :=
  let bucket_index := get_bucket_index value in
  let sub_bucket_index := get_sub_bucket_index value bucket_index unit_magnitude_ in
  let adjusted_bucket :=
    if sub_bucket_count_ <=? sub_bucket_index then bucket_index + 1 else bucket_index in
  i64 (Z.shiftl 1 (unit_magnitude_ + adjusted_bucket)).

Definition next_non_equivalent_value (value : Z) : Z :=
  i64 (lowest_equivalent_value value + size_of_equivalent_value_range value).

Definition highest_equivalent_value (value : Z) : Z :=
  i64 (next_non_equivalent_value value - 1).

Definition median_equivalent_value (value : Z) : Z :=
  i64 (lowest_equivalent_value value + Z.shiftr (size_of_equivalent_value_range value) 1).

Definition values_are_equivalent (a b : Z) : bool :=
  lowest_equivalent_value a =? lowest_equivalent_value b.

Definition value_at_index (index : Z) : Z :=
  let bucket_index := Z.shiftr index half_magnitude_ - 1 in
  let sub_bucket_index := Z.land index (sub_bucket_half_count_ - 1) + sub_bucket_half_count_ in
  if bucket_index <? 0
  then value_from_index 0 (sub_bucket_index - sub_bucket_half_count_) unit_magnitude_
  else value_from_index bucket_index sub_bucket_index unit_magnitude_.

Definition normalize_index (index : Z) : Z :=
  if normalizing_index_offset_ h =? 0 then index
  else
    let normalized_index := index - normalizing_index_offset_ h in
    let adjustment :=
      if normalized_index <? 0 then counts_size h
      else if counts_size h <=? normalized_index then - counts_size h else 0 in
    normalized_index + adjustment.

(** A subscript outside of the vector has no defined value in the source; the
    theorems show that none is used. *)
Definition counts_get_normalised (index : Z) : Z :=
  nth (Z.to_nat (normalize_index index)) (counts_ h) 0.

Definition count_at_index (index : Z) : Z := counts_get_normalised index.
Definition count_at_value (value : Z) : Z := counts_get_normalised (counts_index_for value).

Definition non_zero_min : Z :=
  if min_value_ h =? int64_max then min_value_ h else lowest_equivalent_value (min_value_ h).

Definition min : Z := if 0 <? count_at_index 0 then 0 else non_zero_min.
Definition max : Z :=
  if max_value_ h =? 0 then 0 else highest_equivalent_value (max_value_ h).

Definition counts_inc_normalised (index value : Z) : HdrHistogram :=
  let normalised_index := Z.to_nat (normalize_index index) in
  mkHistogram (config_ h) (normalizing_index_offset_ h) (min_value_ h) (max_value_ h)
    (i64 (total_count_ h + value))
    (alter (fun c => i64 (c + value)) normalised_index (counts_ h)).

Definition update_min_max (value : Z) : HdrHistogram :=
  mkHistogram (config_ h) (normalizing_index_offset_ h)
    (if negb (value =? 0) then Z.min (min_value_ h) value else min_value_ h)
    (Z.max (max_value_ h) value) (total_count_ h) (counts_ h).

Definition reset : HdrHistogram :=
  mkHistogram (config_ h) (normalizing_index_offset_ h) int64_max 0 0
    (replicate (length (counts_ h)) 0).

End operations.

Definition record_values (h : HdrHistogram) (value count : Z) : bool * HdrHistogram :=
  if value <? 0 then (false, h)
  else
    let counts_index := counts_index_for h value in
    if (counts_index <? 0) || (counts_size h <=? counts_index) then (false, h)
    else (true, update_min_max (counts_inc_normalised h counts_index count) value).

Definition record_value (h : HdrHistogram) (value : Z) : bool * HdrHistogram :=
  record_values h value 1.

(** An exact instance of the logarithms. *)
#[export] Instance exact_libm : Libm := {
  floor_log2 := Z.log2;
  ceil_log2_twice_pow10 := fun n => Z.log2_up (2 * 10 ^ n)
}.

#[export] Instance exact_libm_laws : LibmLaws exact_libm.
Proof.
  split; cbn.
  - intros v Hv. split; [apply Z.log2_nonneg|]. apply Z.lt_succ_r.
    apply Z.log2_lt_pow2; [lia|]. change (v < 2 ^ 64). lia.
  - done.
  - done.
Qed.

Example make_config_test :
  match make_config 64 1 3600000000 3 with
  | Some (inr c) => (bucket_count c, sub_bucket_count c, counts_len c) = (22, 2048, 23552)
  | _ => False
  end.
Proof. vm_compute. reflexivity. Qed.

(** ** The configuration computed by the constructor *)

(** What every accepted configuration satisfies.  [e], the bits below the upper
    half of the first bucket, is [unit_magnitude] plus
    [sub_bucket_half_count_magnitude]. *)
Record config_wf (c : HdrBucketConfig) : Prop := {
  cw_unit : 0 <= unit_magnitude c;
  cw_half : 0 <= sub_bucket_half_count_magnitude c <= 17;
  cw_bits : unit_magnitude c + sub_bucket_half_count_magnitude c <= 61;
  cw_sub : sub_bucket_count c = 2 ^ (sub_bucket_half_count_magnitude c + 1);
  cw_subhalf : sub_bucket_half_count c = 2 ^ sub_bucket_half_count_magnitude c;
  cw_mask : sub_bucket_mask c = (sub_bucket_count c - 1) * 2 ^ unit_magnitude c;
  cw_buckets : 1 <= bucket_count c
    /\ unit_magnitude c + sub_bucket_half_count_magnitude c + bucket_count c <= 63;
  cw_cover : 0 <= highest_trackable_value c
    < 2 ^ (unit_magnitude c + sub_bucket_half_count_magnitude c + bucket_count c);
  cw_len : counts_len c = (bucket_count c + 1) * sub_bucket_half_count c
}.

Lemma int64_half : int64_max / 2 = 2 ^ 62 - 1.
Proof. reflexivity. Qed.

Lemma buckets_needed_loop_spec fuel value e needed :
  0 <= e -> 1 <= needed -> e + needed <= 62 -> 0 <= value < 2 ^ 63 ->
  62 - e - needed <= Z.of_nat fuel ->
  exists n, buckets_needed_loop fuel value (2 ^ (e + needed)) needed = Some n
    /\ needed <= n /\ e + n <= 63 /\ value < 2 ^ (e + n)
    /\ (n = needed \/ 2 ^ (e + n - 1) <= value).
Proof.
  revert needed. induction fuel as [|fuel IH]; intros needed He Hn Hen Hv Hf; cbn [buckets_needed_loop].
  - assert (e + needed = 62) as E by lia. rewrite E, int64_half.
    destruct (Z.leb_spec (2 ^ 62) value); [|exists needed; rewrite E; repeat split; lia].
    rewrite (proj2 (Z.ltb_lt _ _)) by lia. exists (needed + 1).
    replace (e + (needed + 1)) with 63 by lia. replace (63 - 1) with 62 by lia.
    repeat split; lia.
  - destruct (Z.leb_spec (2 ^ (e + needed)) value) as [Hle | Hgt].
    2: { exists needed. repeat split; lia. }
    rewrite int64_half. destruct (Z.ltb_spec (2 ^ 62 - 1) (2 ^ (e + needed))) as [Hbig | Hsmall].
    + assert (62 <= e + needed) by (apply (Z.pow_le_mono_r_iff 2); lia).
      exists (needed + 1). replace (e + (needed + 1)) with 63 by lia.
      replace (63 - 1) with (e + needed) by lia. repeat split; lia.
    + assert (e + needed < 62) by (apply (Z.pow_lt_mono_r_iff 2); lia).
      rewrite Z.shiftl_mul_pow2, Z.pow_1_r by lia.
      replace (2 ^ (e + needed) * 2) with (2 ^ (e + (needed + 1))).
      2: { rewrite Z.add_assoc, Z.pow_add_r by lia. lia. }
      rewrite wraps_small.
      * destruct (IH (needed + 1)) as (n & Hl & ? & ? & ? & Hmin); try lia.
        exists n. rewrite Hl. repeat split; try lia.
        destruct Hmin as [-> | ?]; [|lia]. right.
        replace (e + (needed + 1) - 1) with (e + needed) by lia. lia.
      * lia.
      * cbn -[Z.pow]. pose proof (Z.pow_le_mono_r 2 (e + (needed + 1)) 62). lia.
Qed.

(** The loop when the first bucket does not fit in 63 bits: the shifted value
    wraps to a negative number and then to zero, and never passes [value]. *)
Lemma buckets_needed_zero fuel value needed :
  0 <= value -> buckets_needed_loop fuel value 0 needed = None.
Proof.
  intros Hv. revert needed. induction fuel as [|fuel IH]; intros needed; cbn [buckets_needed_loop];
    rewrite (proj2 (Z.leb_le 0 value)), int64_half by lia; [done|]. apply IH.
Qed.

Lemma i64_shift_big z k : 63 <= k -> 0 <= z -> (2 | z) -> i64 (Z.shiftl z k) = 0.
Proof.
  intros Hk Hz [q ->]. rewrite Z.shiftl_mul_pow2 by lia. unfold wraps.
  replace (q * 2 * 2 ^ k + 2 ^ (64 - 1)) with (2 ^ (64 - 1) + q * 2 ^ (k - 63) * 2 ^ 64).
  - rewrite Z_mod_plus_full. reflexivity.
  - replace k with (k - 63 + 63) at 2 by lia. rewrite Z.pow_add_r by lia.
    change (64 - 1) with 63. change (2 ^ 64) with (2 * 2 ^ 63). ring.
Qed.

Lemma buckets_needed_diverges fuel value e :
  62 <= e -> 0 <= value < 2 ^ 63 ->
  buckets_needed_loop fuel value (i64 (2 ^ (e + 1))) 1 = None.
Proof.
  intros He Hv.
  destruct (decide (e = 62)) as [-> | Hne].
  - change (i64 (2 ^ (62 + 1))) with (- 2 ^ 63).
    destruct fuel as [|fuel]; cbn [buckets_needed_loop];
      rewrite (proj2 (Z.leb_le (- 2 ^ 63) value)), int64_half by lia; [done|].
    change (if 2 ^ 62 - 1 <? - 2 ^ 63 then Some 2
            else buckets_needed_loop fuel value (i64 (Z.shiftl (- 2 ^ 63) 1)) 2)
      with (buckets_needed_loop fuel value 0 2). apply buckets_needed_zero; lia.
  - assert (i64 (2 ^ (e + 1)) = 0) as ->.
    { replace (2 ^ (e + 1)) with (Z.shiftl 2 e).
      - apply i64_shift_big; [lia | lia | by exists 1].
      - rewrite Z.shiftl_mul_pow2, Z.pow_add_r by lia. lia. }
    apply buckets_needed_zero; lia.
Qed.

Section config_facts.
Context {L : Libm} {HL : LibmLaws L}.

Definition half_magnitude_of (figures : Z) : Z := get_sub_bucket_half_count_magnitude figures.

Lemma half_magnitude_values figures :
  1 <= figures <= 5 ->
  4 <= half_magnitude_of figures <= 17 /\ 10 ^ figures <= 2 ^ half_magnitude_of figures.
Proof.
  intros Hf. unfold half_magnitude_of, get_sub_bucket_half_count_magnitude.
  rewrite ceil_log2_exact by done.
  assert (figures = 1 \/ figures = 2 \/ figures = 3 \/ figures = 4 \/ figures = 5) as Hc by lia.
  destruct_or! Hc; subst; vm_compute; intuition congruence.
Qed.

Lemma sub_bucket_count_of s : 0 <= s <= 17 -> i32 (2 ^ (s + 1)) = 2 * 2 ^ s.
Proof.
  intros Hs. rewrite Z.pow_add_r, Z.pow_1_r by lia.
  assert (2 ^ s <= 2 ^ 17) by (apply Z.pow_le_mono_r; lia).
  rewrite wraps_small; [lia | lia |]. cbn -[Z.pow Z.mul]. pose proof (pow2_pos s ltac:(lia)). lia.
Qed.

(** The first bucket's limit, computed without overflow. *)
Lemma first_bucket_limit u s :
  0 <= u -> 0 <= s -> u + s <= 61 -> i64 (Z.shiftl (2 * 2 ^ s) u) = 2 ^ (u + s + 1).
Proof.
  intros Hu Hs He. rewrite Z.shiftl_mul_pow2 by lia.
  replace (2 * 2 ^ s * 2 ^ u) with (2 ^ (u + s + 1)).
  - apply wraps_small; [lia|]. cbn -[Z.pow]. pose proof (Z.pow_le_mono_r 2 (u + s + 1) 62). lia.
  - rewrite !Z.pow_add_r by lia. lia.
Qed.

(** The constructor when the buckets fit: the members, then the checks. *)
Lemma make_config_checks lowest highest figures :
  1 <= lowest < 2 ^ 62 -> 1 <= figures <= 5 ->
  let u := floor_log2 lowest in let s := half_magnitude_of figures in
  u + s <= 61 -> 0 <= highest < 2 ^ 63 ->
  exists n, 1 <= n /\ u + s + n <= 63 /\ highest < 2 ^ (u + s + n)
    /\ (n = 1 \/ 2 ^ (u + s + n - 1) <= highest)
    /\ make_config 64 lowest highest figures
       = Some (if highest <? lowest * 2 then inl HighestTrackableValueTooSmall
               else inr (mkConfig lowest highest figures u s (2 * 2 ^ s) (2 ^ s)
                           ((2 * 2 ^ s - 1) * 2 ^ u) n ((n + 1) * 2 ^ s))).
Proof.
  intros Hl Hf u s He Hh.
  pose proof (floor_log2_range lowest ltac:(lia)) as Hu. fold u in Hu.
  destruct (half_magnitude_values figures Hf) as [Hs _]. fold s in Hs.
  unfold make_config. cbv zeta. fold (half_magnitude_of figures). fold u s.
  rewrite (sub_bucket_count_of s) by lia.
  unfold buckets_needed_to_cover_value. rewrite first_bucket_limit by lia.
  destruct (buckets_needed_loop_spec 64 highest (u + s) 1) as (n & -> & Hn1 & Hn & Hc & Hmin);
    [lia..|].
  exists n. split_and!; try done. cbn [mbind option_bind]. f_equal.
  rewrite (proj2 (Z.ltb_ge lowest 1)) by lia.
  rewrite (proj2 (Z.ltb_ge figures 1)), (proj2 (Z.ltb_ge 5 figures)) by lia. cbn [orb].
  rewrite (wraps_small 64 (lowest * 2)) by (cbn -[Z.mul]; lia).
  rewrite (proj2 (Z.ltb_ge 61 (u + s))) by lia.
  replace (Z.quot (2 * 2 ^ s) 2) with (2 ^ s) by (rewrite Z.mul_comm, Z.quot_mul; lia).
  assert (1 <= 2 ^ s <= 2 ^ 17).
  { split; [pose proof (pow2_pos s ltac:(lia)); lia | apply Z.pow_le_mono_r; lia]. }
  rewrite (wraps_small 32 ((n + 1) * 2 ^ s)) by (cbn -[Z.pow Z.mul]; nia).
  rewrite Z.shiftl_mul_pow2 by lia. rewrite (wraps_small 64 (_ * 2 ^ u)); [done | lia |].
  cbn -[Z.pow Z.mul].
  assert (2 ^ (u + s + 1) <= 2 ^ 62) as Hle by (apply Z.pow_le_mono_r; lia).
  rewrite !Z.pow_add_r, Z.pow_1_r in Hle by lia. pose proof (pow2_pos u ltac:(lia)). nia.
Qed.

Lemma make_config_diverges fuel lowest highest figures :
  1 <= lowest < 2 ^ 63 -> 1 <= figures <= 5 ->
  let u := floor_log2 lowest in let s := half_magnitude_of figures in
  61 < u + s -> 0 <= highest < 2 ^ 63 ->
  make_config fuel lowest highest figures = None.
Proof.
  intros Hl Hf u s He Hh.
  pose proof (floor_log2_range lowest ltac:(lia)) as Hu. fold u in Hu.
  destruct (half_magnitude_values figures Hf) as [Hs _]. fold s in Hs.
  unfold make_config. cbv zeta. fold (half_magnitude_of figures). fold u s.
  rewrite (sub_bucket_count_of s) by lia.
  unfold buckets_needed_to_cover_value. rewrite (Z.shiftl_mul_pow2 (2 * 2 ^ s) u) by lia.
  replace (2 * 2 ^ s * 2 ^ u) with (2 ^ (u + s + 1)).
  - by rewrite buckets_needed_diverges by lia.
  - rewrite !Z.pow_add_r by lia. lia.
Qed.

Lemma checked_config_wf lowest highest figures u s n :
  0 <= u -> 0 <= s <= 17 -> u + s <= 61 -> 1 <= n -> u + s + n <= 63 ->
  0 <= highest < 2 ^ (u + s + n) ->
  config_wf (mkConfig lowest highest figures u s (2 * 2 ^ s) (2 ^ s)
               ((2 * 2 ^ s - 1) * 2 ^ u) n ((n + 1) * 2 ^ s)).
Proof.
  intros. split; cbn; try done; try lia. rewrite Z.pow_add_r by lia. lia.
Qed.
End config_facts.

(** ** Values and counters

    The mapping in closed form: [shift_of v] is the bucket of [v], the counter
    index is [shift_of v * 2 ^ s + v / 2 ^ (u + shift_of v)]. *)
Section mapping.
Variable h : HdrHistogram.
Hypothesis Hwf : config_wf (config_ h).

#[local] Abbreviation u := (unit_magnitude (config_ h)).
#[local] Abbreviation s := (sub_bucket_half_count_magnitude (config_ h)).

Definition shift_of (v : Z) : Z := Z.max 0 (Z.log2 v - (u + s)).
Definition width_of (v : Z) : Z := 2 ^ (u + shift_of v).
Definition index_of (v : Z) : Z := shift_of v * 2 ^ s + v / width_of v.

Lemma u_nonneg : 0 <= u. Proof. apply Hwf. Qed.
Lemma s_range : 0 <= s <= 17. Proof. apply Hwf. Qed.
Lemma us_range : u + s <= 61. Proof. apply Hwf. Qed.

Lemma shift_of_nonneg v : 0 <= shift_of v.
Proof. unfold shift_of. lia. Qed.

Lemma shift_of_bits v : 0 <= v < 2 ^ 63 -> u + s + shift_of v <= 62.
Proof.
  intros Hv. unfold shift_of. pose proof us_range. pose proof s_range. pose proof u_nonneg.
  assert (Z.log2 v <= 62); [|lia].
  destruct (decide (v = 0)) as [-> | ?]; [done|].
  apply Z.lt_succ_r, Z.log2_lt_pow2; [lia|]. change (Z.succ 62) with 63. lia.
Qed.

Lemma width_pos v : 0 < width_of v.
Proof.
  unfold width_of. apply pow2_pos. pose proof u_nonneg. pose proof (shift_of_nonneg v). lia.
Qed.

(** A value is below twice the upper half of its bucket, and in the upper half
    except in the first bucket. *)
Lemma value_in_bucket v :
  0 <= v -> v < 2 * 2 ^ s * width_of v /\ (0 < shift_of v -> 2 ^ s * width_of v <= v).
Proof.
  intros Hv. pose proof u_nonneg. pose proof s_range. unfold width_of.
  replace (2 * 2 ^ s * 2 ^ (u + shift_of v)) with (2 ^ (u + s + shift_of v + 1)).
  2: { pose proof (shift_of_nonneg v). rewrite !Z.pow_add_r by lia. lia. }
  replace (2 ^ s * 2 ^ (u + shift_of v)) with (2 ^ (u + s + shift_of v)).
  2: { pose proof (shift_of_nonneg v). rewrite !Z.pow_add_r by lia. lia. }
  unfold shift_of. destruct (decide (v = 0)) as [-> | Hne].
  { cbn [Z.log2]. split; [apply pow2_pos; lia | lia]. }
  pose proof (Z.log2_spec v ltac:(lia)) as [Hlo Hhi]. rewrite <- Z.add_1_r in Hhi. split.
  - eapply Z.lt_le_trans; [exact Hhi|]. apply Z.pow_le_mono_r; lia.
  - intros Hs. replace (u + s + Z.max 0 (Z.log2 v - (u + s))) with (Z.log2 v) by lia. done.
Qed.

Lemma sub_bucket_bounds v :
  0 <= v -> 0 <= v / width_of v < 2 * 2 ^ s /\ (0 < shift_of v -> 2 ^ s <= v / width_of v).
Proof.
  intros Hv. pose proof (width_pos v) as Hw. destruct (value_in_bucket v Hv) as [Hlt Hge].
  split; [split|].
  - apply Z.div_pos; lia.
  - apply Z.div_lt_upper_bound; lia.
  - intros Hs. apply Z.div_le_lower_bound; [lia|]. specialize (Hge Hs). lia.
Qed.

Lemma log2_mask v :
  0 <= v -> Z.log2 (Z.lor v (sub_bucket_mask (config_ h))) = Z.max (Z.log2 v) (u + s).
Proof.
  intros Hv. pose proof u_nonneg. pose proof s_range.
  rewrite (cw_mask _ Hwf), (cw_sub _ Hwf).
  assert (0 < 2 ^ s) by lia. assert (0 < 2 ^ u) by lia.
  assert (0 <= (2 ^ (s + 1) - 1) * 2 ^ u).
  { apply Z.mul_nonneg_nonneg; [rewrite Z.pow_add_r by lia; lia | lia]. }
  rewrite Z.log2_lor by lia. f_equal.
  replace (2 ^ (s + 1) - 1) with (Z.ones (s + 1)) by (rewrite Z.ones_equiv; lia).
  rewrite Z.log2_mul_pow2; [| rewrite Z.ones_equiv, Z.pow_add_r; lia | lia].
  rewrite Z.ones_equiv, Z.log2_pred_pow2 by lia. lia.
Qed.

Lemma get_bucket_index_eq v : 0 <= v < 2 ^ 63 -> get_bucket_index h v = shift_of v.
Proof.
  intros Hv. unfold get_bucket_index, count_leading_zeros_64, clz.
  assert (0 <= Z.lor v (sub_bucket_mask (config_ h)) < 2 ^ 64) as Hr.
  { pose proof (shift_of_bits v Hv). pose proof s_range. pose proof u_nonneg.
    pose proof (log2_mask v ltac:(lia)) as Hlog.
    assert (0 <= Z.lor v (sub_bucket_mask (config_ h))).
    { apply Z.lor_nonneg. split; [lia|]. rewrite (cw_mask _ Hwf), (cw_sub _ Hwf).
      pose proof (pow2_pos (s + 1) ltac:(lia)). pose proof (pow2_pos u ltac:(lia)). nia. }
    split; [done|]. destruct (decide (Z.lor v (sub_bucket_mask (config_ h)) = 0)); [lia|].
    apply Z.log2_lt_pow2; [lia|]. unfold shift_of in *. lia. }
  rewrite wrapu_small, log2_mask by lia. unfold shift_of. lia.
Qed.

Lemma get_sub_bucket_index_eq v :
  0 <= v < 2 ^ 63 -> get_sub_bucket_index v (shift_of v) u = v / width_of v.
Proof.
  intros Hv. unfold get_sub_bucket_index. pose proof (shift_of_nonneg v). pose proof u_nonneg.
  rewrite Z.shiftr_div_pow2 by lia. rewrite (Z.add_comm (shift_of v)). fold (width_of v).
  destruct (sub_bucket_bounds v ltac:(lia)) as [Hb _]. pose proof s_range.
  assert (2 ^ s <= 2 ^ 17) by (apply Z.pow_le_mono_r; lia).
  apply wraps_small; [lia|]. cbn -[Z.pow Z.mul]. lia.
Qed.

Lemma lowest_equivalent_value_eq v :
  0 <= v < 2 ^ 63 -> lowest_equivalent_value h v = v / width_of v * width_of v.
Proof.
  intros Hv. unfold lowest_equivalent_value, value_from_index.
  rewrite get_bucket_index_eq, get_sub_bucket_index_eq by done.
  pose proof (shift_of_nonneg v). pose proof u_nonneg. pose proof (width_pos v).
  rewrite Z.shiftl_mul_pow2, (Z.add_comm (shift_of v)) by lia. fold (width_of v).
  apply wraps_small; [lia|]. cbn -[Z.pow Z.mul].
  pose proof (Z.mul_div_le v (width_of v) ltac:(lia)). pose proof (Z.div_pos v (width_of v)). lia.
Qed.

Lemma size_eq v : 0 <= v < 2 ^ 63 -> size_of_equivalent_value_range h v = width_of v.
Proof.
  intros Hv. unfold size_of_equivalent_value_range.
  rewrite get_bucket_index_eq, get_sub_bucket_index_eq, (cw_sub _ Hwf) by done.
  destruct (sub_bucket_bounds v ltac:(lia)) as [Hb _].
  pose proof s_range. pose proof u_nonneg. pose proof (shift_of_nonneg v).
  rewrite (proj2 (Z.leb_gt _ _)) by (rewrite Z.pow_add_r by lia; lia).
  rewrite Z.shiftl_mul_pow2, Z.mul_1_l by lia. fold (width_of v).
  apply wraps_small; [lia|]. cbn -[Z.pow]. pose proof (width_pos v).
  pose proof (shift_of_bits v Hv). unfold width_of in *.
  pose proof (Z.pow_le_mono_r 2 (u + shift_of v) 62). lia.
Qed.

(** The two additions may pass [2 ^ 63] for the last class, but the subtraction
    of one brings the result back. *)
Lemma i64_pred_wrap z : - 2 ^ 63 <= z - 1 < 2 ^ 63 -> i64 (i64 z - 1) = z - 1.
Proof.
  intros Hz. transitivity (i64 (z - 1)); [|apply wraps_small; cbn -[Z.pow]; lia].
  unfold wraps. f_equal.
  replace ((z + 2 ^ (64 - 1)) mod 2 ^ 64 - 2 ^ (64 - 1) - 1 + 2 ^ (64 - 1))
    with ((z + 2 ^ (64 - 1)) mod 2 ^ 64 - 1) by lia.
  rewrite Zminus_mod_idemp_l. f_equal. lia.
Qed.

Lemma class_end v :
  0 <= v < 2 ^ 63 -> v / width_of v * width_of v + width_of v <= 2 ^ 63.
Proof.
  intros Hv. pose proof (shift_of_bits v Hv). pose proof s_range. pose proof u_nonneg.
  pose proof (shift_of_nonneg v). pose proof (width_pos v).
  unfold width_of in *. set (k := u + shift_of v) in *.
  assert (0 <= k <= 62) by (unfold k; lia). clearbody k.
  assert (2 ^ 63 = 2 ^ (63 - k) * 2 ^ k) as E by (rewrite <- Z.pow_add_r by lia; f_equal; lia).
  assert (v / 2 ^ k < 2 ^ (63 - k)).
  { apply Z.div_lt_upper_bound; lia. }
  rewrite E. nia.
Qed.

Lemma highest_equivalent_value_eq v :
  0 <= v < 2 ^ 63 ->
  highest_equivalent_value h v = v / width_of v * width_of v + width_of v - 1.
Proof.
  intros Hv. unfold highest_equivalent_value, next_non_equivalent_value.
  rewrite lowest_equivalent_value_eq, size_eq by done. pose proof (class_end v Hv).
  pose proof (width_pos v). pose proof (Z.div_pos v (width_of v)). apply i64_pred_wrap. nia.
Qed.

Lemma counts_index_for_eq v : 0 <= v < 2 ^ 63 -> counts_index_for h v = index_of v.
Proof.
  intros Hv. unfold counts_index_for, counts_index.
  rewrite get_bucket_index_eq, get_sub_bucket_index_eq, (cw_subhalf _ Hwf) by done.
  pose proof (shift_of_bits v Hv). pose proof s_range. pose proof u_nonneg.
  pose proof (shift_of_nonneg v).
  rewrite Z.shiftl_mul_pow2, wraps_small; [unfold index_of; lia | lia | | lia].
  cbn -[Z.pow Z.mul]. assert (1 <= 2 ^ s <= 2 ^ 17).
  { split; [pose proof (pow2_pos s ltac:(lia)); lia | apply Z.pow_le_mono_r; lia]. }
  assert (shift_of v + 1 <= 63) by lia. nia.
Qed.

(** *** Classes of equivalent values *)

(** The bucket of a value is the only one whose range contains it. *)
Lemma shift_unique w k :
  0 <= k -> 0 <= w -> w < 2 * 2 ^ s * 2 ^ (u + k) -> (0 < k -> 2 ^ s * 2 ^ (u + k) <= w) ->
  shift_of w = k.
Proof.
  intros Hk Hw Hlt Hge. pose proof s_range. pose proof u_nonneg.
  replace (2 * 2 ^ s * 2 ^ (u + k)) with (2 ^ (u + s + k + 1)) in Hlt.
  2: { rewrite !Z.pow_add_r by lia. lia. }
  replace (2 ^ s * 2 ^ (u + k)) with (2 ^ (u + s + k)) in Hge.
  2: { rewrite !Z.pow_add_r by lia. lia. }
  unfold shift_of. destruct (decide (w = 0)) as [-> | Hne].
  { cbn [Z.log2]. destruct (decide (k = 0)); [lia|].
    pose proof (pow2_pos (u + s + k) ltac:(lia)). lia. }
  assert (Z.log2 w < u + s + k + 1) by (apply Z.log2_lt_pow2; lia).
  destruct (decide (k = 0)); [lia|].
  assert (u + s + k <= Z.log2 w) by (apply Z.log2_le_pow2; lia). lia.
Qed.

Lemma class_shift v w :
  0 <= v -> v / width_of v * width_of v <= w < v / width_of v * width_of v + width_of v ->
  shift_of w = shift_of v /\ w / width_of v = v / width_of v.
Proof.
  intros Hv Hw. pose proof (width_pos v). destruct (sub_bucket_bounds v Hv) as [Hb Hs].
  assert (w / width_of v = v / width_of v) as Hq.
  { symmetry. apply (Z.div_unique w (width_of v) _ (w - v / width_of v * width_of v)); lia. }
  split; [|done]. apply shift_unique.
  - apply shift_of_nonneg.
  - nia.
  - fold (width_of v). nia.
  - fold (width_of v). intros Hpos. specialize (Hs Hpos). nia.
Qed.

Lemma index_of_shift v : 0 <= v -> shift_of v = Z.max 0 (index_of v / 2 ^ s - 1).
Proof.
  intros Hv. destruct (sub_bucket_bounds v Hv) as [Hb Hs]. pose proof s_range.
  pose proof (shift_of_nonneg v). pose proof (pow2_pos s ltac:(lia)). unfold index_of.
  rewrite Z.add_comm, Z_div_plus_full by lia.
  destruct (decide (shift_of v = 0)) as [E | Hne].
  - assert (v / width_of v / 2 ^ s < 2) by (apply Z.div_lt_upper_bound; lia). lia.
  - specialize (Hs ltac:(lia)).
    assert (v / width_of v / 2 ^ s = 1); [|lia].
    symmetry. apply (Z.div_unique _ _ _ (v / width_of v - 2 ^ s)); lia.
Qed.

(** Two values share a counter exactly when they are in the same class. *)
Lemma index_of_class v w :
  0 <= v -> 0 <= w ->
  (index_of v = index_of w
   <-> v / width_of v * width_of v <= w < v / width_of v * width_of v + width_of v).
Proof.
  intros Hv Hw. pose proof (width_pos v) as Hwp. split.
  - intros He. assert (shift_of v = shift_of w) as Hs by (rewrite !index_of_shift, He by done; done).
    unfold index_of, width_of in *. rewrite Hs in *.
    assert (v / 2 ^ (u + shift_of w) = w / 2 ^ (u + shift_of w)) as -> by lia.
    pose proof (Z.div_mod w (2 ^ (u + shift_of w)) ltac:(lia)).
    pose proof (Z.mod_pos_bound w (2 ^ (u + shift_of w)) ltac:(lia)). lia.
  - intros Hc. destruct (class_shift v w Hv Hc) as [Hs Hq].
    unfold index_of, width_of in *. by rewrite Hs, Hq.
Qed.

Lemma index_of_bounds v :
  0 <= v -> 0 <= index_of v < (shift_of v + 2) * 2 ^ s
  /\ (0 < shift_of v -> (shift_of v + 1) * 2 ^ s <= index_of v).
Proof.
  intros Hv. destruct (sub_bucket_bounds v Hv) as [Hb Hs]. pose proof s_range.
  pose proof (shift_of_nonneg v). pose proof (pow2_pos s ltac:(lia)). unfold index_of.
  split; [nia|]. intros Hpos. specialize (Hs Hpos). lia.
Qed.

Lemma index_of_mono v w : 0 <= v <= w -> index_of v <= index_of w.
Proof.
  intros Hvw. assert (shift_of v <= shift_of w) as Hs.
  { unfold shift_of. pose proof (Z.log2_le_mono v w). lia. }
  pose proof s_range. pose proof (shift_of_nonneg v).
  destruct (decide (shift_of v = shift_of w)) as [E | Hne].
  - unfold index_of, width_of. rewrite E. pose proof u_nonneg.
    pose proof (Z.div_le_mono v w (2 ^ (u + shift_of w)) ltac:(lia) ltac:(lia)). lia.
  - destruct (index_of_bounds v ltac:(lia)) as [Hv _].
    destruct (index_of_bounds w ltac:(lia)) as [_ Hw]. specialize (Hw ltac:(lia)).
    pose proof (pow2_pos s ltac:(lia)). nia.
Qed.

Lemma values_are_equivalent_index v w :
  0 <= v < 2 ^ 63 -> 0 <= w < 2 ^ 63 ->
  values_are_equivalent h v w = true <-> index_of v = index_of w.
Proof.
  intros Hv Hw. unfold values_are_equivalent.
  rewrite Z.eqb_eq, !lowest_equivalent_value_eq by done.
  pose proof (width_pos v). pose proof (width_pos w).
  pose proof (Z.mul_succ_div_gt w (width_of w) ltac:(lia)).
  pose proof (Z.mul_div_le w (width_of w) ltac:(lia)).
  split.
  - intros E. transitivity (index_of (v / width_of v * width_of v)).
    + apply index_of_class; [lia | |lia]. pose proof (Z.div_pos v (width_of v)). nia.
    + rewrite E. symmetry. apply index_of_class; [lia | |lia].
      pose proof (Z.div_pos w (width_of w)). nia.
  - intros E. apply index_of_class in E; [|lia..].
    destruct (class_shift v w ltac:(lia) E) as [Hs Hq].
    assert (width_of w = width_of v) as -> by (unfold width_of; by rewrite Hs). by rewrite Hq.
Qed.

(** Values that share a counter have the same highest equivalent value. *)
Lemma highest_equivalent_class v w :
  0 <= v < 2 ^ 63 -> 0 <= w < 2 ^ 63 -> index_of v = index_of w ->
  highest_equivalent_value h v = highest_equivalent_value h w.
Proof.
  intros Hv Hw E. apply index_of_class in E; [|lia..].
  destruct (class_shift v w ltac:(lia) E) as [Hs Hq].
  rewrite !highest_equivalent_value_eq by done.
  assert (width_of w = width_of v) as -> by (unfold width_of; by rewrite Hs). by rewrite Hq.
Qed.

(** The values with a counter are those below [2 ^ (u + s + bucket_count)]. *)
Definition limit : Z := 2 ^ (u + s + bucket_count (config_ h)).

Lemma counts_len_eq : counts_len (config_ h) = (bucket_count (config_ h) + 1) * 2 ^ s.
Proof. by rewrite (cw_len _ Hwf), (cw_subhalf _ Hwf). Qed.

Lemma limit_range : highest_trackable_value (config_ h) < limit <= 2 ^ 63.
Proof.
  unfold limit. split; [apply Hwf|]. destruct (cw_buckets _ Hwf). apply Z.pow_le_mono_r; lia.
Qed.

Lemma index_of_in_range v :
  0 <= v -> (index_of v < counts_len (config_ h) <-> v < limit).
Proof.
  intros Hv. rewrite counts_len_eq. pose proof s_range. pose proof u_nonneg.
  destruct (cw_buckets _ Hwf) as [Hb _]. unfold limit.
  destruct (index_of_bounds v Hv) as [Hi Hi'].
  pose proof (pow2_pos s ltac:(lia)). pose proof (shift_of_nonneg v).
  destruct (decide (v = 0)) as [-> | Hne].
  { pose proof (pow2_pos (u + s + bucket_count (config_ h)) ltac:(lia)).
    assert (shift_of 0 = 0) by (unfold shift_of; cbn [Z.log2]; lia). nia. }
  split; intros Hlt.
  - apply Z.log2_lt_pow2; [lia|].
    assert (shift_of v < bucket_count (config_ h)); [|unfold shift_of in *; lia].
    destruct (decide (shift_of v = 0)); [lia|]. specialize (Hi' ltac:(lia)). nia.
  - apply Z.log2_lt_pow2 in Hlt; [|lia].
    assert (shift_of v + 1 <= bucket_count (config_ h)) by (unfold shift_of in *; lia). nia.
Qed.

Lemma value_at_index_eq i :
  0 <= i < counts_len (config_ h) ->
  let k := Z.max 0 (i / 2 ^ s - 1) in
  value_at_index h i = (i - k * 2 ^ s) * 2 ^ (u + k).
Proof.
  intros Hi. cbv zeta. pose proof s_range. pose proof u_nonneg.
  pose proof (pow2_pos s ltac:(lia)) as Hs0. rewrite counts_len_eq in Hi.
  destruct (cw_buckets _ Hwf) as [Hb Hbits].
  unfold value_at_index, value_from_index. rewrite (cw_subhalf _ Hwf).
  rewrite Z.shiftr_div_pow2, land_pred_pow2 by lia.
  assert (0 <= i / 2 ^ s <= bucket_count (config_ h)) as Hd.
  { split; [apply Z.div_pos; lia|]. apply Z.lt_succ_r, Z.div_lt_upper_bound; lia. }
  pose proof (Z.div_mod i (2 ^ s) ltac:(lia)) as Hdm.
  pose proof (Z.mod_pos_bound i (2 ^ s) ltac:(lia)) as Hm.
  assert (forall q k, 0 <= q < 2 * 2 ^ s -> 0 <= k < bucket_count (config_ h) ->
            i64 (Z.shiftl q (k + u)) = q * 2 ^ (u + k)) as Hsh.
  { intros q k Hq Hk. rewrite Z.shiftl_mul_pow2, (Z.add_comm k) by lia.
    apply wraps_small; [lia|]. cbn -[Z.pow Z.mul].
    assert (2 * 2 ^ s * 2 ^ (u + k) <= 2 ^ 63).
    { replace (2 * 2 ^ s * 2 ^ (u + k)) with (2 ^ (u + s + k + 1)).
      - apply Z.pow_le_mono_r; lia.
      - rewrite !Z.pow_add_r by lia. lia. }
    pose proof (pow2_pos (u + k) ltac:(lia)). nia. }
  destruct (Z.ltb_spec (i / 2 ^ s - 1) 0) as [Hn | Hn].
  - rewrite Hsh by lia. replace (Z.max 0 _) with 0 by lia.
    assert (i / 2 ^ s = 0) as E by lia. rewrite E in Hdm. f_equal. lia.
  - rewrite Hsh by lia. replace (Z.max 0 (i / 2 ^ s - 1)) with (i / 2 ^ s - 1) by lia. f_equal. lia.
Qed.

(** The first value of a counter's class, and its counter. *)
Lemma value_at_index_class i :
  0 <= i < counts_len (config_ h) ->
  0 <= value_at_index h i < limit /\ index_of (value_at_index h i) = i
  /\ value_at_index h i / width_of (value_at_index h i) * width_of (value_at_index h i)
     = value_at_index h i.
Proof.
  intros Hi. pose proof s_range. pose proof u_nonneg.
  pose proof (pow2_pos s ltac:(lia)) as Hs0.
  rewrite value_at_index_eq by done. set (k := Z.max 0 (i / 2 ^ s - 1)).
  set (q := i - k * 2 ^ s). pose proof (pow2_pos (u + k) ltac:(lia)) as Hw0.
  pose proof (Z.div_mod i (2 ^ s) ltac:(lia)) as Hdm.
  pose proof (Z.mod_pos_bound i (2 ^ s) ltac:(lia)) as Hm.
  pose proof (Z.div_pos i (2 ^ s) ltac:(lia) Hs0).
  assert (0 <= q < 2 * 2 ^ s /\ (0 < k -> 2 ^ s <= q)) as [Hq Hqk].
  { unfold q, k. destruct (Z.max_spec 0 (i / 2 ^ s - 1)) as [[? ->] | [? ->]]; split; nia. }
  assert (shift_of (q * 2 ^ (u + k)) = k) as Hs.
  { apply shift_unique; [lia | nia | nia |]. intros Hk. specialize (Hqk Hk). nia. }
  assert (index_of (q * 2 ^ (u + k)) = i) as Hidx.
  { unfold index_of, width_of. rewrite Hs, Z.div_mul by lia. unfold q. lia. }
  split; [|split; [done|]].
  - split; [nia|]. apply index_of_in_range; [nia | lia].
  - unfold width_of. rewrite Hs, Z.div_mul by lia. done.
Qed.
End mapping.

(** ** Recording *)

(** What has been recorded: pairs of a value and a count. *)
Definition samples_at (h : HdrHistogram) (l : list (Z * Z)) (i : Z) : Z :=
  foldr (fun '(v, c) acc => (if index_of h v =? i then c else 0) + acc) 0 l.
Definition samples_total (l : list (Z * Z)) : Z := foldr (fun '(_, c) acc => c + acc) 0 l.
Definition samples_min (l : list (Z * Z)) : Z :=
  foldl (fun m '(v, _) => if negb (v =? 0) then Z.min m v else m) int64_max l.
Definition samples_max (l : list (Z * Z)) : Z := foldl (fun m '(v, _) => Z.max m v) 0 l.

(** The histogram holds exactly the samples [l]. *)
Record holds (h : HdrHistogram) (l : list (Z * Z)) : Prop := {
  holds_config : config_wf (config_ h);
  holds_offset : normalizing_index_offset_ h = 0;
  holds_len : counts_size h = counts_len (config_ h);
  holds_values : Forall (fun '(v, c) => 0 <= v < limit h /\ 0 <= c) l;
  holds_counts : forall i, 0 <= i < counts_len (config_ h) ->
    counts_ h !! Z.to_nat i = Some (samples_at h l i);
  holds_total : total_count_ h = samples_total l;
  holds_small : samples_total l < 2 ^ 63;
  holds_min : min_value_ h = samples_min l;
  holds_max : max_value_ h = samples_max l
}.

Lemma samples_at_app h l l' i : samples_at h (l ++ l') i = samples_at h l i + samples_at h l' i.
Proof. induction l as [|[v c] l IH]; cbn; [done|]. unfold samples_at in *. lia. Qed.

Lemma samples_total_app l l' : samples_total (l ++ l') = samples_total l + samples_total l'.
Proof. induction l as [|[v c] l IH]; cbn; [done|]. unfold samples_total in *. lia. Qed.

Lemma samples_at_bounds h l i :
  Forall (fun '(v, c) => 0 <= v < limit h /\ 0 <= c) l ->
  0 <= samples_at h l i <= samples_total l.
Proof.
  induction 1 as [|[v c] l [_ Hc] _ IH]; cbn; [lia|]. unfold samples_at, samples_total in *.
  case_match; lia.
Qed.

Lemma make_histogram_holds c :
  config_wf c -> holds (make_histogram c) [].
Proof.
  intros Hwf. assert (0 <= counts_len c) as Hlen.
  { rewrite (cw_len _ Hwf), (cw_subhalf _ Hwf). destruct (cw_buckets _ Hwf).
    destruct (cw_half _ Hwf). pose proof (pow2_pos (sub_bucket_half_count_magnitude c)). nia. }
  split; cbn; try done.
  - unfold counts_size. cbn. rewrite length_replicate. lia.
  - intros i Hi. apply lookup_replicate. split; [done | lia].
Qed.

Lemma normalize_index_0 h i : normalizing_index_offset_ h = 0 -> normalize_index h i = i.
Proof. intros E. unfold normalize_index. by rewrite E. Qed.

Lemma count_at_index_holds h l i :
  holds h l -> 0 <= i < counts_len (config_ h) -> count_at_index h i = samples_at h l i.
Proof.
  intros Hh Hi. unfold count_at_index, counts_get_normalised.
  rewrite normalize_index_0 by apply Hh. by apply nth_lookup_Some, Hh.
Qed.

(** Which values are recorded. *)
Lemma record_values_guard h l v c :
  holds h l -> v < 2 ^ 63 ->
  fst (record_values h v c) = bool_decide (0 <= v < limit h)
  /\ (~ (0 <= v < limit h) -> snd (record_values h v c) = h).
Proof.
  intros Hh Hv. pose proof (holds_config _ _ Hh) as Hwf. unfold record_values.
  destruct (Z.ltb_spec v 0) as [Hneg | Hpos].
  { rewrite bool_decide_false by lia. done. }
  rewrite counts_index_for_eq by (done || lia).
  pose proof (index_of_in_range h Hwf v Hpos) as Hr.
  destruct (index_of_bounds h Hwf v Hpos) as [Hi _].
  rewrite (proj2 (Z.ltb_ge (index_of h v) 0)), (holds_len _ _ Hh) by lia. cbn [orb].
  destruct (Z.leb_spec (counts_len (config_ h)) (index_of h v)) as [Hle | Hgt].
  - rewrite bool_decide_false by (rewrite <- Hr by lia; lia). done.
  - rewrite bool_decide_true by (split; [done | by apply Hr]). split; [done|]. intros Hn.
    destruct Hn. split; [done | by apply Hr].
Qed.

Lemma record_values_holds h l v c :
  holds h l -> 0 <= v < limit h -> 0 <= c -> samples_total l + c < 2 ^ 63 ->
  holds (snd (record_values h v c)) (l ++ [(v, c)]).
Proof.
  intros Hh Hv Hc Hsmall. pose proof (holds_config _ _ Hh) as Hwf.
  pose proof (limit_range h Hwf) as Hlim.
  unfold record_values. rewrite (proj2 (Z.ltb_ge v 0)) by lia.
  rewrite counts_index_for_eq by (done || lia).
  pose proof (proj2 (index_of_in_range h Hwf v ltac:(lia)) ltac:(lia)) as Hr.
  destruct (index_of_bounds h Hwf v ltac:(lia)) as [Hi _].
  rewrite (proj2 (Z.ltb_ge (index_of h v) 0)), (holds_len _ _ Hh) by lia. cbn [orb].
  rewrite (proj2 (Z.leb_gt _ _)) by lia. cbn [snd].
  destruct Hh as [_ Hoff Hlen Hvals Hcounts Htot Hsm Hmin Hmax].
  pose proof (samples_at_bounds h l (index_of h v) Hvals) as Hb.
  split; unfold update_min_max, counts_inc_normalised;
    cbn [config_ normalizing_index_offset_ min_value_ max_value_ total_count_ counts_]; try done.
  - unfold counts_size in *. cbn. by rewrite length_alter.
  - apply Forall_app. split; [exact Hvals|]. constructor; [|constructor]. exact (conj Hv Hc).
  - intros i Hir. rewrite samples_at_app. rewrite normalize_index_0 by done.
    change (samples_at (mkHistogram _ _ _ _ _ _)) with (samples_at h). cbn [samples_at foldr].
    change (index_of (mkHistogram _ _ _ _ _ _) v) with (index_of h v).
    destruct (Z.eqb_spec (index_of h v) i) as [<- | Hne].
    + rewrite list_lookup_alter_eq, Hcounts by lia. cbn. f_equal.
      rewrite wraps_small; [lia | lia |]. cbn -[Z.pow]. lia.
    + rewrite list_lookup_alter_ne by lia. rewrite Hcounts by done. f_equal. lia.
  - rewrite samples_total_app, Htot. cbn. rewrite wraps_small; [lia | lia |].
    cbn -[Z.pow]. pose proof (samples_at_bounds h l 0 Hvals). lia.
  - rewrite samples_total_app. cbn. lia.
  - unfold samples_min. rewrite foldl_app, Hmin. done.
  - unfold samples_max. rewrite foldl_app, Hmax. done.
Qed.

(** Recording a whole list. *)
Definition record_all (l : list (Z * Z)) (h : HdrHistogram) : list bool * HdrHistogram :=
  foldl (fun '(bs, h) '(v, c) => let '(b, h') := record_values h v c in (bs ++ [b], h')) ([], h) l.

Definition in_limit (lim : Z) (sample : Z * Z) : Prop :=
  let '(v, c) := sample in 0 <= v < lim /\ 0 <= c.

Lemma record_all_holds h l0 l bs :
  holds h l0 -> Forall (in_limit (limit h)) l -> samples_total (l0 ++ l) < 2 ^ 63 ->
  exists h', foldl (fun '(bs, h) '(v, c) => let '(b, h') := record_values h v c in (bs ++ [b], h'))
               (bs, h) l = (bs ++ replicate (length l) true, h')
    /\ holds h' (l0 ++ l) /\ config_ h' = config_ h.
Proof.
  revert h l0 bs. induction l as [|[v c] l IH]; intros h l0 bs Hh Hl Hsm; cbn [foldl].
  - exists h. by rewrite !app_nil_r.
  - apply Forall_cons in Hl as [[Hv Hc] Hl].
    pose proof (holds_config _ _ Hh) as Hwf. pose proof (limit_range h Hwf).
    assert (0 <= samples_total l).
    { pose proof (samples_at_bounds h l 0 Hl). lia. }
    rewrite samples_total_app in Hsm. cbn in Hsm. fold (samples_total l) in Hsm.
    pose proof (record_values_holds h l0 v c Hh Hv Hc ltac:(lia)) as Hh1.
    destruct (record_values_guard h l0 v c Hh ltac:(lia)) as [Hb _].
    rewrite bool_decide_true in Hb by done.
    assert (config_ (snd (record_values h v c)) = config_ h) as Hcfg.
    { unfold record_values. by repeat case_match. }
    destruct (record_values h v c) as [b h1]. cbn [fst snd] in *. subst b.
    assert (limit h1 = limit h) as Hlim by (unfold limit; by rewrite Hcfg).
    destruct (IH h1 (l0 ++ [(v, c)]) (bs ++ [true]) Hh1) as (h' & Hf & Hh' & Hc').
    { by rewrite Hlim. }
    { rewrite <- app_assoc, samples_total_app. cbn. fold (samples_total l). lia. }
    exists h'. rewrite Hf, <- !app_assoc. rewrite <- app_assoc in Hh'.
    rewrite Hc', Hcfg. done.
Qed.

(** The least and the greatest of a list of samples. *)
Definition sample_values (l : list (Z * Z)) : list Z := fst <$> l.

Lemma samples_min_spec l :
  Forall (fun '(v, _) => 0 <= v < int64_max) l ->
  (samples_min l = int64_max /\ Forall (fun '(v, _) => v = 0) l)
  \/ (0 < samples_min l < int64_max /\ samples_min l ∈ sample_values l
      /\ Forall (fun '(v, _) => v = 0 \/ samples_min l <= v) l).
Proof.
  unfold samples_min. induction l as [|[v c] l IH] using rev_ind; intros Hl; [by left|].
  apply Forall_app in Hl as [Hl Hv]. apply Forall_cons in Hv as [Hv _].
  unfold sample_values in *. rewrite foldl_app, fmap_app. cbn [foldl].
  specialize (IH Hl). set (m := foldl _ int64_max l) in *. clearbody m.
  destruct (Z.eqb_spec v 0) as [-> | Hne]; cbn [negb].
  - destruct IH as [[-> H0] | (Hm & Hin & Hall)].
    + left. split; [done|]. apply Forall_app. split; [done|]. by repeat constructor.
    + right. split; [done|]. split; [apply elem_of_app; by left|].
      apply Forall_app. split; [done|]. constructor; [by left | constructor].
  - right. destruct IH as [[-> H0] | (Hm & Hin & Hall)].
    + replace (Z.min int64_max v) with v by lia. split; [lia|]. split; [apply elem_of_app; right; apply list_elem_of_here|].
      apply Forall_app. split; [|repeat constructor; lia].
      eapply Forall_impl; [exact H0|]. intros [v' c']. lia.
    + split; [lia|]. split.
      * rewrite elem_of_app. destruct (Z.min_spec m v) as [[_ ->] | [_ ->]];
          [by left | right; apply list_elem_of_here].
      * apply Forall_app. split; [|repeat constructor; lia].
        eapply Forall_impl; [exact Hall|]. intros [v' c']. lia.
Qed.

Lemma samples_max_spec l :
  Forall (fun '(v, _) => 0 <= v) l ->
  0 <= samples_max l /\ (samples_max l = 0 \/ samples_max l ∈ sample_values l)
  /\ Forall (fun '(v, _) => v <= samples_max l) l.
Proof.
  unfold samples_max. induction l as [|[v c] l IH] using rev_ind; intros Hl.
  { cbn. split_and!; [lia | by left | constructor]. }
  apply Forall_app in Hl as [Hl Hv]. apply Forall_cons in Hv as [Hv _].
  unfold sample_values in *. rewrite foldl_app, fmap_app. cbn [foldl].
  destruct (IH Hl) as (Hm & Hin & Hall). set (m := foldl _ 0 l) in *. clearbody m.
  split; [lia|]. split.
  - rewrite elem_of_app. destruct (Z.max_spec m v) as [[_ ->] | [_ ->]].
    + do 2 right. apply list_elem_of_here.
    + destruct Hin as [? | ?]; [by left | by right; left].
  - apply Forall_app. split; [|repeat constructor; lia].
    eapply Forall_impl; [exact Hall|]. intros [v' c']. lia.
Qed.

Lemma index_of_0 h : config_wf (config_ h) -> index_of h 0 = 0.
Proof.
  intros Hwf. pose proof (u_nonneg h Hwf). pose proof (s_range h Hwf).
  unfold index_of, shift_of, width_of. cbn [Z.log2]. rewrite Z.div_0_l.
  - replace (Z.max 0 _) with 0 by lia. lia.
  - pose proof (width_pos h Hwf 0). unfold width_of in *. lia.
Qed.

(** The counter of a class holds at least what each of its samples added. *)
Lemma samples_at_ge h l v c :
  Forall (fun '(v, c) => 0 <= v < limit h /\ 0 <= c) l -> (v, c) ∈ l ->
  c <= samples_at h l (index_of h v).
Proof.
  induction l as [|[v' c'] l IH]; intros Hl Hin; [by apply not_elem_of_nil in Hin|].
  apply Forall_cons in Hl as [Hv Hl]. cbn. fold (samples_at h l (index_of h v)).
  pose proof (samples_at_bounds h l (index_of h v) Hl).
  apply elem_of_cons in Hin as [E | Hin].
  - injection E as <- <-. rewrite Z.eqb_refl. lia.
  - specialize (IH Hl Hin). case_match; lia.
Qed.

Lemma samples_at_zero h l i :
  (forall v c, (v, c) ∈ l -> index_of h v <> i) -> samples_at h l i = 0.
Proof.
  induction l as [|[v c] l IH]; intros Hn; [done|]. cbn. fold (samples_at h l i).
  rewrite IH by (intros; eapply Hn; apply list_elem_of_further; eauto).
  rewrite (proj2 (Z.eqb_neq _ _)); [done|]. apply (Hn v c). apply list_elem_of_here.
Qed.

Lemma samples_at_filter h l v :
  config_wf (config_ h) -> 0 <= v < 2 ^ 63 ->
  Forall (fun '(w, c) => 0 <= w < limit h /\ 0 <= c) l ->
  samples_at h l (index_of h v)
  = samples_total (filter (fun '(w, _) => values_are_equivalent h v w = true) l).
Proof.
  intros Hwf Hv Hl. pose proof (limit_range h Hwf) as Hlim.
  induction Hl as [|[w c] l [Hw Hc] _ IH]; [done|]. cbn [samples_at foldr].
  fold (samples_at h l (index_of h v)). rewrite IH, filter_cons.
  assert (values_are_equivalent h v w = true <-> index_of h w = index_of h v) as Heq.
  { rewrite values_are_equivalent_index by (done || lia). done. }
  destruct (Z.eqb_spec (index_of h w) (index_of h v)) as [E | E]; case_decide; try tauto;
    cbn; fold (samples_total (filter (fun '(w, _) => values_are_equivalent h v w = true) l)); lia.
Qed.

(** ** Properties *)

Section configured.
Context {L : Libm} {HL : LibmLaws L}.

(** An accepted configuration is well formed and precise enough. *)
Lemma make_config_accepted lowest highest figures c :
  make_config 64 lowest highest figures = Some (inr c) -> lowest < 2 ^ 62 -> highest < 2 ^ 63 ->
  config_wf c /\ 10 ^ significant_figures c <= sub_bucket_half_count c
  /\ lowest_trackable_value c = lowest /\ highest_trackable_value c = highest
  /\ significant_figures c = figures /\ unit_magnitude c = floor_log2 lowest.
Proof.
  intros Hc Hl Hh.
  assert (1 <= lowest /\ 1 <= figures <= 5 /\ lowest * 2 <= highest) as (Hl1 & Hf & Hlh).
  { unfold make_config in Hc. destruct (buckets_needed_to_cover_value _ _ _ _); [|done].
    cbn [mbind option_bind] in Hc.
    destruct (Z.ltb_spec lowest 1); [done|]. rewrite (wraps_small 64 (lowest * 2)) in Hc.
    - destruct (Z.ltb_spec figures 1); [done|]. destruct (Z.ltb_spec 5 figures); [done|].
      destruct (Z.ltb_spec highest (lowest * 2)); [done | lia].
    - lia.
    - cbn -[Z.mul]. lia. }
  destruct (half_magnitude_values figures Hf) as [Hs Hprec].
  pose proof (floor_log2_range lowest ltac:(lia)) as Hu.
  destruct (decide (61 < floor_log2 lowest + half_magnitude_of figures)) as [Hbig | Hsmall].
  { rewrite make_config_diverges in Hc by (done || lia). done. }
  destruct (make_config_checks lowest highest figures) as (n & Hn & Hn' & Hcov & _ & E); try lia.
  rewrite E, (proj2 (Z.ltb_ge _ _)) in Hc by lia. injection Hc as <-.
  split; [apply checked_config_wf; lia | done].
Qed.

End configured.

(** with parameters whose buckets fit in 63 bits, constructing a
    configuration terminates; it is refused exactly when the highest trackable
    value is less than twice the lowest, and otherwise it is well formed, covers
    the highest value, and its half buckets have [10 ^ figures] counters. *)
Theorem make_config_correct {L : Libm} {HL : LibmLaws L} lowest highest figures :
  1 <= lowest < 2 ^ 62 -> 1 <= figures <= 5 -> 0 <= highest < 2 ^ 63 ->
  floor_log2 lowest + get_sub_bucket_half_count_magnitude figures <= 61 ->
  if highest <? lowest * 2
  then make_config 64 lowest highest figures = Some (inl HighestTrackableValueTooSmall)
  else exists c, make_config 64 lowest highest figures = Some (inr c) /\ config_wf c
    /\ lowest_trackable_value c = lowest /\ highest_trackable_value c = highest
    /\ significant_figures c = figures /\ unit_magnitude c = floor_log2 lowest
    /\ 10 ^ figures <= sub_bucket_half_count c.
Proof.
  intros Hl Hf Hh He.
  destruct (make_config_checks lowest highest figures) as (n & _ & _ & _ & _ & E); try done.
  destruct (Z.ltb_spec highest (lowest * 2)); [done|].
  destruct (make_config_accepted lowest highest figures _ E) as (Hwf & Hp & ? & ? & Hfig & ?); try lia.
  rewrite Hfig in Hp. eauto 10.
Qed.

Lemma make_config_correct_witness :
  exists c, make_config 64 1 1000 3 = Some (inr c) /\ config_wf c
    /\ lowest_trackable_value c = 1 /\ highest_trackable_value c = 1000
    /\ significant_figures c = 3 /\ unit_magnitude c = floor_log2 1
    /\ 10 ^ 3 <= sub_bucket_half_count c.
Proof.
  refine (@make_config_correct exact_libm exact_libm_laws 1 1000 3 _ _ _ _);
    vm_compute; intuition congruence.
Defined.

(** when the first bucket would need more than 62 bits, constructing a
    configuration does not return: the counting loop of
    [buckets_needed_to_cover_value] runs before the magnitude is checked, and
    its bound wraps to zero. *)
Theorem make_config_never_returns {L : Libm} {HL : LibmLaws L} fuel lowest highest figures :
  1 <= lowest < 2 ^ 63 -> 1 <= figures <= 5 -> 0 <= highest < 2 ^ 63 ->
  61 < floor_log2 lowest + get_sub_bucket_half_count_magnitude figures ->
  make_config fuel lowest highest figures = None.
Proof. intros. by apply make_config_diverges. Qed.

Lemma make_config_never_returns_witness :
  make_config 1000 (2 ^ 46) (2 ^ 62) 5 = None.
Proof.
  refine (@make_config_never_returns exact_libm exact_libm_laws 1000 (2 ^ 46) (2 ^ 62) 5 _ _ _ _);
    vm_compute; intuition congruence.
Defined.

(** two values are equivalent exactly when they share a counter, exactly when
    one lies between the lowest and the highest equivalent value of the other;
    every value is in its own class, the reported size is the number of values
    of the class and the median is its middle. *)
Theorem equivalent_values_classes h v w :
  config_wf (config_ h) -> 0 <= v < 2 ^ 63 -> 0 <= w < 2 ^ 63 ->
  let lo := lowest_equivalent_value h v in let hi := highest_equivalent_value h v in
  values_are_equivalent h v w = (counts_index_for h v =? counts_index_for h w)
  /\ values_are_equivalent h v w = bool_decide (lo <= w <= hi)
  /\ 0 <= lo <= v /\ v <= hi < 2 ^ 63
  /\ size_of_equivalent_value_range h v = hi - lo + 1
  /\ median_equivalent_value h v = lo + size_of_equivalent_value_range h v / 2.
Proof.
  intros Hwf Hv Hw lo hi. subst lo hi.
  pose proof (values_are_equivalent_index h Hwf v w Hv Hw) as Heq.
  pose proof (index_of_class h Hwf v w ltac:(lia) ltac:(lia)) as Hcl.
  pose proof (class_end h Hwf v Hv). pose proof (width_pos h Hwf v).
  pose proof (Z.mul_div_le v (width_of h v) ltac:(lia)).
  pose proof (Z.mul_succ_div_gt v (width_of h v) ltac:(lia)).
  pose proof (Z.div_pos v (width_of h v) ltac:(lia) ltac:(lia)).
  unfold median_equivalent_value.
  rewrite highest_equivalent_value_eq, lowest_equivalent_value_eq, size_eq,
    !counts_index_for_eq by done.
  rewrite Z.shiftr_div_pow2, Z.pow_1_r by lia.
  split_and!; try nia.
  - apply eq_bool_prop_intro. rewrite !Is_true_true, Z.eqb_eq. done.
  - apply eq_bool_prop_intro. rewrite !Is_true_true, bool_decide_eq_true, Heq, Hcl.
    clear. split; intros [? ?]; split; lia.
  - assert (0 <= width_of h v / 2 < width_of h v).
    { split; [apply Z.div_pos; lia | apply Z.div_lt_upper_bound; lia]. }
    assert (0 <= v / width_of h v * width_of h v) by (apply Z.mul_nonneg_nonneg; lia).
    apply wraps_small; [lia|]. cbn -[Z.pow Z.mul Z.div]. lia.
Qed.

Definition example_config : HdrBucketConfig :=
  mkConfig 1 1000 3 0 10 2048 1024 2047 1 2048.

Lemma example_config_wf : config_wf example_config.
Proof. split; cbn; lia. Qed.

Lemma equivalent_values_classes_witness :
  let h := make_histogram example_config in
  let lo := lowest_equivalent_value h 2049 in let hi := highest_equivalent_value h 2049 in
  values_are_equivalent h 2049 2048 = (counts_index_for h 2049 =? counts_index_for h 2048)
  /\ values_are_equivalent h 2049 2048 = bool_decide (lo <= 2048 <= hi)
  /\ 0 <= lo <= 2049 /\ 2049 <= hi < 2 ^ 63
  /\ size_of_equivalent_value_range h 2049 = hi - lo + 1
  /\ median_equivalent_value h 2049 = lo + size_of_equivalent_value_range h 2049 / 2.
Proof. apply equivalent_values_classes; [apply example_config_wf | lia | lia]. Defined.

(** the counters and the classes correspond one to one: the value of a
    counter is the lowest of its class and is counted there, and a value that
    has a counter is counted with the lowest value of its class. *)
Theorem counters_roundtrip h i v :
  config_wf (config_ h) -> 0 <= i < counts_len (config_ h) ->
  0 <= v <= highest_trackable_value (config_ h) ->
  counts_index_for h (value_at_index h i) = i
  /\ lowest_equivalent_value h (value_at_index h i) = value_at_index h i
  /\ 0 <= counts_index_for h v < counts_len (config_ h)
  /\ value_at_index h (counts_index_for h v) = lowest_equivalent_value h v.
Proof.
  intros Hwf Hi Hv. pose proof (limit_range h Hwf) as Hlim.
  destruct (value_at_index_class h Hwf i Hi) as (Hr & Hidx & Hlow).
  assert (0 <= index_of h v < counts_len (config_ h)) as Hiv.
  { split; [apply index_of_bounds; (done || lia) | apply index_of_in_range; (done || lia)]. }
  destruct (value_at_index_class h Hwf (index_of h v) Hiv) as (Hr' & Hidx' & Hlow').
  rewrite (counts_index_for_eq h Hwf v) by lia.
  rewrite counts_index_for_eq, (lowest_equivalent_value_eq h Hwf (value_at_index h i)) by (done || lia).
  split_and!; try (done || lia).
  rewrite <- Hlow'. rewrite <- !lowest_equivalent_value_eq by (done || lia).
  apply Z.eqb_eq, values_are_equivalent_index; (done || lia).
Qed.

Lemma counters_roundtrip_witness :
  let h := make_histogram example_config in
  counts_index_for h (value_at_index h 2000) = 2000
  /\ lowest_equivalent_value h (value_at_index h 2000) = value_at_index h 2000
  /\ 0 <= counts_index_for h 999 < counts_len (config_ h)
  /\ value_at_index h (counts_index_for h 999) = lowest_equivalent_value h 999.
Proof. apply counters_roundtrip; [apply example_config_wf | cbn; lia | cbn; lia]. Defined.

(** the precision promised by the constructor: in a histogram with an
    accepted configuration the values that share a counter with [v] span one
    unit, or differ from [v] by less than [v / 10 ^ significant_figures]. *)
Theorem precision {L : Libm} {HL : LibmLaws L} lowest highest figures c v :
  make_config 64 lowest highest figures = Some (inr c) -> lowest < 2 ^ 62 -> highest < 2 ^ 63 ->
  0 <= v < 2 ^ 63 ->
  let h := make_histogram c in
  size_of_equivalent_value_range h v = 2 ^ floor_log2 lowest
  \/ (size_of_equivalent_value_range h v * 10 ^ figures <= v
      /\ (highest_equivalent_value h v - lowest_equivalent_value h v) * 10 ^ figures < v).
Proof.
  intros Hc Hl Hh Hv h.
  destruct (make_config_accepted _ _ _ _ Hc Hl Hh) as (Hwf & Hprec & _ & _ & <- & <-).
  change c with (config_ h) in Hwf, Hprec |- *.
  pose proof (cw_subhalf _ Hwf) as Hsub.
  rewrite highest_equivalent_value_eq, lowest_equivalent_value_eq, size_eq by done.
  destruct (value_in_bucket h Hwf v ltac:(lia)) as [_ Hge].
  pose proof (shift_of_nonneg h v). pose proof (width_pos h Hwf v).
  pose proof (Z.pow_nonneg 10 (significant_figures (config_ h)) ltac:(lia)).
  destruct (decide (shift_of h v = 0)) as [E | Hne].
  - left. unfold width_of. by rewrite E, Z.add_0_r.
  - right. specialize (Hge ltac:(lia)). rewrite <- Hsub in Hge.
    assert (width_of h v * 10 ^ significant_figures (config_ h) <= v) by nia.
    split; [done|].
    replace (_ - _) with (width_of h v - 1) by lia.
    pose proof (cw_half _ Hwf). pose proof (pow2_pos (sub_bucket_half_count_magnitude (config_ h))).
    rewrite Hsub in Hge. generalize dependent (10 ^ significant_figures (config_ h)). nia.
Qed.

Lemma precision_witness :
  let h := make_histogram example_config in
  size_of_equivalent_value_range h 5000 = 2 ^ floor_log2 1
  \/ (size_of_equivalent_value_range h 5000 * 10 ^ 3 <= 5000
      /\ (highest_equivalent_value h 5000 - lowest_equivalent_value h 5000) * 10 ^ 3 < 5000).
Proof.
  apply (@precision exact_libm exact_libm_laws 1 1000 3 example_config 5000);
    [vm_compute; reflexivity | lia | lia | lia].
Defined.

(** The counts after recording. *)
Lemma holds_count_at_value h l v :
  holds h l -> 0 <= v < limit h ->
  count_at_value h v
  = samples_total (filter (fun '(w, _) => values_are_equivalent h v w = true) l).
Proof.
  intros Hh Hv. pose proof (holds_config _ _ Hh) as Hwf. pose proof (limit_range h Hwf).
  assert (0 <= index_of h v < counts_len (config_ h)) as Hi.
  { split; [apply index_of_bounds; (done || lia) | apply index_of_in_range; (done || lia)]. }
  rewrite <- samples_at_filter; [|done | lia | apply Hh].
  rewrite <- (count_at_index_holds h l _ Hh Hi).
  unfold count_at_value. by rewrite counts_index_for_eq by (done || lia).
Qed.

(** C34: a new histogram into which samples up to the highest trackable value are
    recorded accepts all of them; its total count is their sum, and the count at
    any value is the sum of the samples equivalent to it; [reset] gives back the
    new histogram. *)
Theorem record_all_counts c l v :
  config_wf c -> Forall (in_limit (highest_trackable_value c + 1)) l -> samples_total l < 2 ^ 63 ->
  0 <= v <= highest_trackable_value c ->
  let '(accepted, h) := record_all l (make_histogram c) in
  Forall (fun b => b = true) accepted
  /\ total_count_ h = samples_total l
  /\ count_at_value h v
     = samples_total (filter (fun '(w, _) => values_are_equivalent h v w = true) l)
  /\ reset h = make_histogram c.
Proof.
  intros Hwf Hl Hsm Hv. pose proof (limit_range (make_histogram c) Hwf) as Hlim.
  cbn [config_ make_histogram] in Hlim.
  destruct (record_all_holds (make_histogram c) [] l [] (make_histogram_holds c Hwf))
    as (h & E & Hh & Hcfg); [|done|].
  { eapply Forall_impl; [exact Hl|]. intros [w k]. unfold in_limit. lia. }
  unfold record_all. rewrite E. cbn [app]. cbn [app] in Hh.
  assert (limit h = limit (make_histogram c)) as Hlh by (unfold limit; by rewrite Hcfg).
  split_and!.
  - by apply Forall_replicate.
  - apply Hh.
  - apply holds_count_at_value; [done | lia].
  - unfold reset, make_histogram. rewrite (holds_offset _ _ Hh), Hcfg. f_equal. f_equal.
    pose proof (holds_len _ _ Hh) as Hln. rewrite Hcfg in Hln.
    unfold counts_size in Hln. cbn in Hln. rewrite <- Hln. by rewrite Nat2Z.id.
Qed.

Lemma record_all_counts_witness :
  let '(accepted, h) := record_all [(7, 2); (900, 1); (7, 5)] (make_histogram example_config) in
  Forall (fun b => b = true) accepted
  /\ total_count_ h = samples_total [(7, 2); (900, 1); (7, 5)]
  /\ count_at_value h 7
     = samples_total (filter (fun '(w, _) => values_are_equivalent h 7 w = true)
                        [(7, 2); (900, 1); (7, 5)])
  /\ reset h = make_histogram example_config.
Proof.
  apply (record_all_counts example_config [(7, 2); (900, 1); (7, 5)] 7).
  - apply example_config_wf.
  - repeat (apply Forall_cons; split; [cbn; lia|]). apply Forall_nil. exact I.
  - reflexivity.
  - cbn. lia.
Defined.

(** [record_values] accepts exactly the values with a counter: those from
    zero below [2 ^ (unit_magnitude + half_magnitude + bucket_count)], which is
    greater than the highest trackable value; a refused value changes nothing. *)
Theorem record_values_accepts h l v c :
  holds h l -> - 2 ^ 63 <= v < 2 ^ 63 ->
  let lim := 2 ^ (unit_magnitude (config_ h) + sub_bucket_half_count_magnitude (config_ h)
                  + bucket_count (config_ h)) in
  fst (record_values h v c) = bool_decide (0 <= v < lim)
  /\ highest_trackable_value (config_ h) < lim
  /\ (~ (0 <= v < lim) -> snd (record_values h v c) = h).
Proof.
  intros Hh Hv lim. destruct (record_values_guard h l v c Hh ltac:(lia)) as [Hb Hn].
  split_and!; [exact Hb | apply (limit_range h), Hh | exact Hn].
Qed.

Lemma record_values_accepts_witness :
  let h := make_histogram example_config in
  let lim := 2 ^ (0 + 10 + 1) in
  fst (record_values h 2047 1) = bool_decide (0 <= 2047 < lim)
  /\ 1000 < lim
  /\ (~ (0 <= 2047 < lim) -> snd (record_values h 2047 1) = h).
Proof.
  apply (record_values_accepts (make_histogram example_config) [] 2047 1);
    [apply make_histogram_holds, example_config_wf | lia].
Defined.

Lemma sample_values_elem l v :
  v ∈ sample_values l -> exists c, (v, c) ∈ l.
Proof.
  unfold sample_values. intros Hv. apply list_elem_of_fmap in Hv as ([v' c] & -> & Hin). eauto.
Qed.

Lemma histogram_min h l lo :
  holds h l -> Forall (fun '(v, c) => v < int64_max /\ 0 < c) l ->
  lo ∈ sample_values l -> Forall (fun '(v, _) => lo <= v) l ->
  min h = lowest_equivalent_value h lo.
Proof.
  intros Hh Hpos Hlo Hleast. pose proof (holds_config _ _ Hh) as Hwf.
  pose proof (holds_values _ _ Hh) as Hvals. pose proof (limit_range h Hwf) as Hlim.
  apply sample_values_elem in Hlo as [c0 Hin].
  rewrite Forall_forall in Hpos, Hleast. pose proof Hvals as Hv. rewrite Forall_forall in Hv.
  destruct (Hv _ Hin) as [Hlor _]. destruct (Hpos _ Hin) as [Hlo_max Hc0].
  pose proof (index_of_0 h Hwf) as Hi0.
  assert (0 <= 0 < counts_len (config_ h)) as Hlen.
  { rewrite <- Hi0. split; [lia|]. apply index_of_in_range; (done || lia). }
  unfold min. rewrite (count_at_index_holds h l 0 Hh Hlen).
  destruct (Z.ltb_spec 0 (samples_at h l 0)) as [Hsome | Hnone].
  - assert (index_of h lo = index_of h 0) as E.
    { rewrite Hi0. destruct (decide (index_of h lo = 0)) as [|Hne]; [done|].
      rewrite samples_at_zero in Hsome; [lia|]. intros v c Hvc Hz.
      pose proof (Hleast _ Hvc). cbn in *. pose proof (index_of_mono h Hwf lo v).
      pose proof (index_of_bounds h Hwf lo). lia. }
    apply (values_are_equivalent_index h Hwf) in E; [|lia..].
    apply Z.eqb_eq in E. rewrite E, lowest_equivalent_value_eq by (done || lia).
    rewrite Z.div_0_l; [done|]. pose proof (width_pos h Hwf 0). lia.
  - assert (lo <> 0) as Hne.
    { intros ->. pose proof (samples_at_ge h l 0 c0 Hvals Hin) as Hge. rewrite Hi0 in Hge. lia. }
    unfold non_zero_min. rewrite (holds_min _ _ Hh).
    destruct (samples_min_spec l) as [[_ Hz] | (Hm & Hmin & Hall)].
    + rewrite Forall_forall. intros [v c] Hvc. pose proof (Hv _ Hvc). pose proof (Hpos _ Hvc).
      cbn in *. lia.
    + rewrite Forall_forall in Hz. by pose proof (Hz _ Hin).
    + rewrite Forall_forall in Hall. apply sample_values_elem in Hmin as [c Hmin].
      pose proof (Hleast _ Hmin). pose proof (Hall _ Hin). cbn in *.
      rewrite (proj2 (Z.eqb_neq _ _)) by lia. f_equal. lia.
Qed.

Lemma histogram_max h l hi :
  holds h l -> hi ∈ sample_values l -> Forall (fun '(v, _) => v <= hi) l ->
  max h = if hi =? 0 then 0 else highest_equivalent_value h hi.
Proof.
  intros Hh Hhi Hgreatest. pose proof (holds_values _ _ Hh) as Hvals.
  unfold max. rewrite (holds_max _ _ Hh).
  assert (samples_max l = hi) as ->; [|done].
  destruct (samples_max_spec l) as (H0 & Hin & Hall).
  { eapply Forall_impl; [exact Hvals|]. intros [v c]. lia. }
  rewrite Forall_forall in Hgreatest, Hall, Hvals.
  apply sample_values_elem in Hhi as [c0 Hhi]. pose proof (Hall _ Hhi). pose proof (Hvals _ Hhi).
  cbn in *. destruct Hin as [E | Hin]; [lia|].
  apply sample_values_elem in Hin as [c Hin]. pose proof (Hgreatest _ Hin). cbn in *. lia.
Qed.

(** [min] and [max] of a histogram with recorded samples are the lowest value
    equivalent to the least and the highest value equivalent to the greatest of
    them (zero for zero); of an empty one [2 ^ 63 - 1] and zero. *)
Theorem min_max_recorded h l :
  holds h l -> Forall (fun '(v, c) => v < int64_max /\ 0 < c) l ->
  (l = [] -> min h = int64_max /\ max h = 0)
  /\ (forall lo, lo ∈ sample_values l -> Forall (fun '(v, _) => lo <= v) l ->
        min h = lowest_equivalent_value h lo)
  /\ (forall hi, hi ∈ sample_values l -> Forall (fun '(v, _) => v <= hi) l ->
        max h = if hi =? 0 then 0 else highest_equivalent_value h hi).
Proof.
  intros Hh Hpos. split_and!.
  - intros ->. pose proof (holds_config _ _ Hh) as Hwf. pose proof (limit_range h Hwf).
    pose proof (index_of_0 h Hwf) as Hi0. unfold min, max, non_zero_min.
    rewrite (count_at_index_holds h [] 0 Hh); [|rewrite <- Hi0; split;
      [lia | apply index_of_in_range; (done || (pose proof (holds_config _ _ Hh) as [];lia))]].
    rewrite (holds_min _ _ Hh), (holds_max _ _ Hh). done.
  - intros lo. by apply (histogram_min h l).
  - intros hi. by apply (histogram_max h l).
Qed.

Definition example_recorded : HdrHistogram :=
  snd (record_values (snd (record_values (make_histogram example_config) 900 1)) 7 2).

Lemma example_recorded_holds : holds example_recorded [(900, 1); (7, 2)].
Proof.
  assert (limit (make_histogram example_config) = 2048) as Hlim by (vm_compute; reflexivity).
  pose proof (make_histogram_holds _ example_config_wf) as H0.
  pose proof (record_values_holds _ [] 900 1 H0 ltac:(rewrite Hlim; lia) ltac:(lia) eq_refl) as H1.
  assert (limit (snd (record_values (make_histogram example_config) 900 1)) = 2048) as Hlim1
    by (vm_compute; reflexivity).
  exact (record_values_holds _ [(900, 1)] 7 2 H1 ltac:(rewrite Hlim1; lia) ltac:(lia) eq_refl).
Qed.

Lemma min_max_recorded_witness :
  min example_recorded = lowest_equivalent_value example_recorded 7
  /\ max example_recorded = highest_equivalent_value example_recorded 900.
Proof.
  destruct (min_max_recorded example_recorded [(900, 1); (7, 2)]) as (_ & Hmin & Hmax).
  - apply example_recorded_holds.
  - repeat (apply Forall_cons; split; [split; reflexivity|]). apply Forall_nil. exact I.
  - split.
    + apply Hmin; [right; left|].
      repeat (apply Forall_cons; split; [lia|]). apply Forall_nil. exact I.
    + apply (Hmax 900); [left|].
      repeat (apply Forall_cons; split; [lia|]). apply Forall_nil. exact I.
Defined.
