(* ===== verification/HdrIterator.v ===== *)
(** * Iterators and percentiles of the histogram

    Models [toolbox/hdr/Iterator.hpp], [toolbox/hdr/Iterator.cpp] and the
    queries of [toolbox/hdr/Utility.cpp].  Doubles are binary64 numbers, computed
    exactly with the [SpecFloat] module of the Standard Library; the two calls of
    [log] and [pow] are operations of the class [DoubleLibm]. *)
From Stdlib Require Import SpecFloat.
From S2P Require Import Prelude Histogram.

(** ** Doubles *)

Definition double : Set := spec_float.
Definition double_of_Z (z : Z) : double := binary_normalize 53 1024 z 0 false.
Definition dadd : double -> double -> double := SFadd 53 1024.
Definition dsub : double -> double -> double := SFsub 53 1024.
Definition dmul : double -> double -> double := SFmul 53 1024.
Definition ddiv : double -> double -> double := SFdiv 53 1024.
Definition dleb : double -> double -> bool := SFleb.
Definition dltb : double -> double -> bool := SFltb.
Definition half : double := ddiv (double_of_Z 1) (double_of_Z 2).

(** Conversion to a signed integer of [w] bits truncates; it is undefined when
    the truncated value does not fit. *)
Definition double_trunc (d : double) : option Z :=
  match d with
  | S754_zero _ => Some 0
  | S754_finite s m e =>
      let z := if 0 <=? e then Zpos m * 2 ^ e else Zpos m / 2 ^ (- e) in
      Some (if s then - z else z)
  | _ => None
  end.

Definition double_to_int (w : Z) (d : double) : option Z :=
  z ← double_trunc d;
  if (- 2 ^ (w - 1) <=? z) && (z <? 2 ^ (w - 1)) then Some z else None.

Class DoubleLibm := { dlog : double -> double; dpow : double -> double -> double }.

(** ** The base iterator *)

(** Two members are not initialised by the constructor; they are [None] until
    the first step. *)
Record HdrIterator := mkIterator {
  counts_index_ : Z;
  iter_total_count : Z;
  count_ : Z;
  cumulative_count_ : Z;
  value_ : Z;
  highest_equivalent_value_ : Z;
  lowest_equivalent_value_ : option Z;
  median_equivalent_value_ : option Z;
  value_iterated_from_ : Z;
  value_iterated_to_ : Z
}.

Definition make_iterator (h : HdrHistogram) : HdrIterator :=
  mkIterator (-1) (total_count_ h) 0 0 0 0 None None 0 0.

Section base.
Variable h : HdrHistogram.

Definition has_buckets (it : HdrIterator) : bool := counts_index_ it <? counts_size h.
Definition has_next (it : HdrIterator) : bool := cumulative_count_ it <? iter_total_count it.
Definition peek_next_value_from_index (it : HdrIterator) : Z :=
  value_at_index h (counts_index_ it + 1).

Definition next_value_greater_than_reporting_level_upper_bound
    (it : HdrIterator) (reporting_level_upper_bound : Z) : bool :=
  if counts_size h <=? counts_index_ it then false
  else reporting_level_upper_bound <? peek_next_value_from_index it.

Definition move_next (it : HdrIterator) : bool * HdrIterator :=
  let index := counts_index_ it + 1 in
  let it1 := mkIterator index (iter_total_count it) (count_ it) (cumulative_count_ it) (value_ it)
    (highest_equivalent_value_ it) (lowest_equivalent_value_ it) (median_equivalent_value_ it)
    (value_iterated_from_ it) (value_iterated_to_ it) in
  if negb (has_buckets it1) then (false, it1)
  else
    let count := counts_get_normalised h index in
    let value := value_at_index h index in
    (true, mkIterator index (iter_total_count it) count (i64 (cumulative_count_ it + count)) value
       (highest_equivalent_value h value) (Some (lowest_equivalent_value h value))
       (Some (median_equivalent_value h value))
       (value_iterated_from_ it) (value_iterated_to_ it)).

Definition update_iterated_values (it : HdrIterator) (new_value_iterated_to : Z) : HdrIterator :=
  mkIterator (counts_index_ it) (iter_total_count it) (count_ it) (cumulative_count_ it)
    (value_ it) (highest_equivalent_value_ it) (lowest_equivalent_value_ it)
    (median_equivalent_value_ it) (value_iterated_to_ it) new_value_iterated_to.

(** [HdrIterator::do_next]. *)
Definition do_next (it : HdrIterator) : bool * HdrIterator :=
  let '(result, it) := move_next it in
  (result, if result then update_iterated_values it (value_ it) else it).

Definition basic_next (it : HdrIterator) : bool * HdrIterator :=
  if negb (has_next it) || (counts_size h <=? counts_index_ it) then (false, it)
  else (true, snd (move_next it)).

(** ** The derived iterators *)

(** [HdrRecordedIterator]: the base and [count_added_in_this_iteration_step_]. *)
Fixpoint recorded_next (fuel : nat) (it : HdrIterator) (added : Z)
    : option (bool * HdrIterator * Z) :=
  match fuel with
  | O => None
  | S fuel' =>
      let '(more, it) := basic_next it in
      if more then
        if negb (count_ it =? 0)
        then Some (true, update_iterated_values it (value_ it), count_ it)
        else recorded_next fuel' it added
      else Some (false, it, added)
  end.

(** [HdrLinearIterator] and [HdrLogIterator] differ in how the reporting level
    advances; [None] is an undefined conversion, or not enough fuel. *)
Record LevelIterator := mkLevel {
  level_base : HdrIterator;
  count_added_in_this_iteration_step_ : Z;
  next_value_reporting_level_ : Z;
  next_value_reporting_level_lowest_equivalent_ : Z
}.

Definition make_level_iterator (first : Z) : LevelIterator :=
  mkLevel (make_iterator h) 0 first (lowest_equivalent_value h first).

Fixpoint level_loop (fuel : nat) (advance : Z -> option Z) (it : HdrIterator)
    (added level lowest : Z) : option (bool * LevelIterator) :=
  match fuel with
  | O => None
  | S fuel' =>
      if lowest <=? value_ it then
        let it := update_iterated_values it level in
        next ← advance level;
        Some (true, mkLevel it added next (lowest_equivalent_value h next))
      else
        let '(more, it) := move_next it in
        if negb more then Some (true, mkLevel it added level lowest)
        else level_loop fuel' advance it (i64 (added + count_ it)) level lowest
  end.

Definition level_next (fuel : nat) (advance : Z -> option Z) (l : LevelIterator)
    : option (bool * LevelIterator) :=
  let it := level_base l in
  let level := next_value_reporting_level_ l in
  let lowest := next_value_reporting_level_lowest_equivalent_ l in
  if has_next it || next_value_greater_than_reporting_level_upper_bound it lowest
  then level_loop fuel advance it 0 level lowest
  else Some (false, mkLevel it 0 level lowest).

Definition linear_next (fuel : nat) (value_units_per_bucket : Z) (l : LevelIterator)
    : option (bool * LevelIterator) :=
  level_next fuel (fun level => Some (i64 (level + value_units_per_bucket))) l.

Definition log_next (fuel : nat) (log_base : double) (l : LevelIterator)
    : option (bool * LevelIterator) :=
  level_next fuel (fun level => double_to_int 64 (dmul (double_of_Z level) log_base)) l.

(** [HdrPercentileIterator]. *)
Record PercentileIterator := mkPercentile {
  percentile_base : HdrIterator;
  seen_last_value_ : bool;
  percentile_to_iterate_to_ : double;
  percentile_ : double
}.

Definition make_percentile_iterator : PercentileIterator :=
  mkPercentile (make_iterator h) false (S754_zero false) (S754_zero false).

Context `{DoubleLibm}.

(** The next percentile to report. *)
Definition advance_percentile (ticks_per_half_distance : Z) (p : double) : option double :=
  let hundred := double_of_Z 100 in
  temp ← double_to_int 64
    (dadd (ddiv (dlog (ddiv hundred (dsub hundred p))) (dlog (double_of_Z 2))) (double_of_Z 1));
  half_distance ← double_to_int 64 (dpow (double_of_Z 2) (double_of_Z temp));
  let percentile_reporting_ticks := i64 (ticks_per_half_distance * half_distance) in
  Some (dadd p (ddiv hundred (double_of_Z percentile_reporting_ticks))).

Fixpoint percentile_step (fuel : nat) (ticks : Z) (it : HdrIterator) (seen : bool)
    (to last : double) : option (bool * PercentileIterator) :=
  match fuel with
  | O => None
  | S fuel' =>
      let current := ddiv (dmul (double_of_Z (cumulative_count_ it)) (double_of_Z 100))
                       (double_of_Z (total_count_ h)) in
      if negb (count_ it =? 0) && dleb to current then
        to' ← advance_percentile ticks to;
        Some (true, mkPercentile
          (update_iterated_values it (highest_equivalent_value h (value_ it))) seen to' to)
      else
        let '(more, it) := basic_next it in
        if more then percentile_step fuel' ticks it seen to last
        else Some (true, mkPercentile it seen to last)
  end.

Definition percentile_next (fuel : nat) (ticks : Z) (p : PercentileIterator)
    : option (bool * PercentileIterator) :=
  let it := percentile_base p in
  if negb (has_next it) then
    if seen_last_value_ p then Some (false, p)
    else Some (true, mkPercentile it true (percentile_to_iterate_to_ p) (double_of_Z 100))
  else
    let '(ok, it) := if counts_index_ it =? -1 then basic_next it else (true, it) in
    if ok then
      percentile_step fuel ticks it (seen_last_value_ p) (percentile_to_iterate_to_ p) (percentile_ p)
    else Some (false, mkPercentile it (seen_last_value_ p) (percentile_to_iterate_to_ p)
                        (percentile_ p)).

End base.

(** ** Queries *)

Section queries.
Variable h : HdrHistogram.

(** The intermediate is an [int]; [None] when the conversion is undefined. *)
Definition get_count_at_percentile (percentile : double) : option Z :=
  let percentile := if dltb (double_of_Z 100) percentile then double_of_Z 100 else percentile in
  count_at_percentile ← double_to_int 32
    (dadd (ddiv (dmul percentile (double_of_Z (total_count_ h))) (double_of_Z 100)) half);
  Some (Z.max count_at_percentile 1).

Fixpoint percentile_loop (fuel : nat) (it : HdrIterator) (total count_at_percentile : Z)
    : option Z :=
  match fuel with
  | O => None
  | S fuel' =>
      let '(more, it) := do_next h it in
      if more then
        let total := i64 (total + count_ it) in
        if count_at_percentile <=? total then Some (highest_equivalent_value h (value_ it))
        else percentile_loop fuel' it total count_at_percentile
      else Some 0
  end.

Definition value_at_percentile (fuel : nat) (percentile : double) : option Z :=
  count_at_percentile ← get_count_at_percentile percentile;
  percentile_loop fuel (make_iterator h) 0 count_at_percentile.

(** The sum that [mean] divides by the total count. *)
Fixpoint mean_loop (fuel : nat) (it : HdrIterator) (total : Z) : option Z :=
  match fuel with
  | O => None
  | S fuel' =>
      let '(more, it) := do_next h it in
      if more then
        mean_loop fuel' it
          (if negb (count_ it =? 0)
           then i64 (total + i64 (count_ it * median_equivalent_value h (value_ it))) else total)
      else Some total
  end.

Definition mean (fuel : nat) : option double :=
  total ← mean_loop fuel (make_iterator h) 0;
  Some (ddiv (double_of_Z total) (double_of_Z (total_count_ h))).

End queries.

Example value_at_percentile_test :
  value_at_percentile example_recorded 3000 (double_of_Z 50) = Some 7
  /\ value_at_percentile example_recorded 3000 (double_of_Z 100) = Some 900.
Proof. vm_compute. done. Qed.

(** ** Positions of an iterator *)

(** The samples whose counter is below [n]. *)
Definition below (h : HdrHistogram) (l : list (Z * Z)) (n : Z) : Z :=
  samples_total (filter (fun '(v, _) => index_of h v < n) l).

Section position.
Variable h : HdrHistogram.
Variable l : list (Z * Z).
Hypothesis Hh : holds h l.

#[local] Abbreviation len := (counts_len (config_ h)).

Lemma filter_total_nonneg (P : Z * Z -> Prop) `{forall x, Decision (P x)} (l' : list (Z * Z)) :
  Forall (fun '(v, c) => 0 <= v < limit h /\ 0 <= c) l' ->
  0 <= samples_total (filter P l') <= samples_total l'.
Proof.
  induction 1 as [|[v c] l' [_ Hc] _ IH]; [cbn; lia|].
  rewrite filter_cons. unfold samples_total in *. case_decide; cbn; lia.
Qed.

Lemma filter_total_mono (P Q : Z * Z -> Prop) `{forall x, Decision (P x)}
    `{forall x, Decision (Q x)} (l' : list (Z * Z)) :
  Forall (fun '(v, c) => 0 <= v < limit h /\ 0 <= c) l' ->
  (forall x, x ∈ l' -> P x -> Q x) ->
  samples_total (filter P l') <= samples_total (filter Q l').
Proof.
  induction 1 as [|[v c] l' [_ Hc] _ IH]; intros HPQ; [cbn; lia|].
  assert (forall x, x ∈ l' -> P x -> Q x) as HPQ' by (intros x Hx; apply HPQ; by right).
  specialize (IH HPQ'). pose proof (HPQ (v, c) ltac:(left)).
  rewrite !filter_cons. unfold samples_total in *. repeat case_decide; cbn; try tauto; lia.
Qed.

Lemma below_bounds n : 0 <= below h l n <= samples_total l.
Proof. apply filter_total_nonneg, Hh. Qed.

Lemma below_succ n : below h l (n + 1) = below h l n + samples_at h l n.
Proof.
  unfold below. clear Hh. induction l as [|[v c] l' IH]; [done|]. rewrite !filter_cons.
  cbn [samples_at foldr]. fold (samples_at h l' n). unfold samples_total in *.
  destruct (Z.eqb_spec (index_of h v) n); repeat case_decide; cbn; lia.
Qed.

Lemma below_mono n m : n <= m -> below h l n <= below h l m.
Proof.
  intros. apply filter_total_mono; [apply Hh|]. intros [v c] _. lia.
Qed.

Lemma below_0 : below h l 0 = 0.
Proof.
  unfold below. pose proof (holds_values _ _ Hh) as Hv. pose proof (holds_config _ _ Hh) as Hwf.
  clear Hh. induction Hv as [|[v c] l' [Hv _] _ IH]; [done|]. rewrite filter_cons.
  rewrite decide_False; [done|]. pose proof (index_of_bounds h Hwf v). lia.
Qed.

Lemma below_len : below h l len = samples_total l.
Proof.
  unfold below. pose proof (holds_values _ _ Hh) as Hv. pose proof (holds_config _ _ Hh) as Hwf.
  clear Hh. induction Hv as [|[v c] l' [Hv _] _ IH]; [done|]. rewrite filter_cons.
  rewrite decide_True; [cbn; fold (samples_total l'); unfold samples_total in *; cbn in *; lia|].
  apply index_of_in_range; (done || lia).
Qed.

(** The iterator has visited the counters below [i]. *)
Record at_pos (it : HdrIterator) (i : Z) : Prop := {
  pos_index : counts_index_ it = i - 1;
  pos_cumulative : cumulative_count_ it = below h l i;
  pos_total : iter_total_count it = samples_total l
}.

Lemma make_iterator_pos : at_pos (make_iterator h) 0.
Proof. split; cbn; [done | by rewrite below_0 | apply Hh]. Qed.

Lemma update_pos it i v : at_pos it i -> at_pos (update_iterated_values it v) i.
Proof. intros [? ? ?]. by split. Qed.

Lemma counts_size_len : counts_size h = len.
Proof. apply Hh. Qed.

Lemma move_next_step it i :
  at_pos it i -> 0 <= i < len ->
  exists it', move_next h it = (true, it') /\ at_pos it' (i + 1)
    /\ count_ it' = samples_at h l i /\ value_ it' = value_at_index h i
    /\ value_iterated_from_ it' = value_iterated_from_ it
    /\ value_iterated_to_ it' = value_iterated_to_ it.
Proof.
  intros [Hi Hc Ht] Hr. unfold move_next, has_buckets. cbn [counts_index_].
  rewrite counts_size_len, Hi. replace (i - 1 + 1) with i by lia.
  rewrite (proj2 (Z.ltb_lt _ _)) by lia. cbn [negb].
  pose proof (count_at_index_holds h l i Hh Hr) as Hcount. unfold count_at_index in Hcount.
  eexists. split; [reflexivity|].
  split; [split|]; cbn; rewrite ?Hcount; try done.
  - lia.
  - rewrite Hc, below_succ. pose proof (below_bounds (i + 1)) as Hb. rewrite below_succ in Hb.
    pose proof (holds_small _ _ Hh). apply wraps_small; [lia|]. cbn -[Z.pow]. lia.
Qed.

Lemma move_next_end it : at_pos it len -> fst (move_next h it) = false.
Proof.
  intros [Hi _ _]. unfold move_next, has_buckets. cbn [counts_index_].
  rewrite counts_size_len, Hi, (proj2 (Z.ltb_ge _ _)) by lia. done.
Qed.

Lemma basic_next_step it i :
  at_pos it i -> 0 <= i < len -> below h l i < samples_total l ->
  exists it', basic_next h it = (true, it') /\ at_pos it' (i + 1)
    /\ count_ it' = samples_at h l i /\ value_ it' = value_at_index h i
    /\ value_iterated_to_ it' = value_iterated_to_ it.
Proof.
  intros Hp Hi Hlt. destruct (move_next_step it i Hp Hi) as (it' & E & Hp' & Hc & Hv & _ & Hto).
  exists it'. destruct Hp as [Hpi Hpc Hpt].
  unfold basic_next, has_next. rewrite Hpi, Hpc, Hpt, counts_size_len, E.
  rewrite (proj2 (Z.ltb_lt _ _)), (proj2 (Z.leb_gt _ _)) by lia. done.
Qed.

Lemma basic_next_end it i :
  at_pos it i -> below h l i = samples_total l -> basic_next h it = (false, it).
Proof.
  intros [Hpi Hpc Hpt] E. unfold basic_next, has_next. by rewrite Hpc, Hpt, E, Z.ltb_irrefl.
Qed.

Lemma do_next_step it i :
  at_pos it i -> 0 <= i < len ->
  exists it', do_next h it = (true, it') /\ at_pos it' (i + 1)
    /\ count_ it' = samples_at h l i /\ value_ it' = value_at_index h i.
Proof.
  intros Hp Hi. destruct (move_next_step it i Hp Hi) as (it' & E & Hp' & Hc & Hv & _ & _).
  unfold do_next. rewrite E. eexists. split; [reflexivity|]. by split; [apply update_pos|].
Qed.

(** ** Percentiles *)

Lemma percentile_loop_finds fuel it i n k :
  at_pos it i -> 0 <= i <= n -> n < len -> below h l n < k <= below h l (n + 1) ->
  n - i < Z.of_nat fuel ->
  percentile_loop h fuel it (below h l i) k
  = Some (highest_equivalent_value h (value_at_index h n)).
Proof.
  revert it i. induction fuel as [|fuel IH]; intros it i Hp Hi Hn Hk Hf; [lia|].
  destruct (do_next_step it i Hp ltac:(lia)) as (it' & E & Hp' & Hc & Hv).
  cbn [percentile_loop]. rewrite E, Hc, Hv, <- below_succ.
  pose proof (below_bounds (i + 1)). pose proof (holds_small _ _ Hh).
  rewrite wraps_small; [|lia | cbn -[Z.pow]; lia].
  destruct (decide (i = n)) as [-> | Hne].
  - by rewrite (proj2 (Z.leb_le _ _)) by lia.
  - pose proof (below_mono (i + 1) n ltac:(lia)).
    rewrite (proj2 (Z.leb_gt _ _)) by lia. apply IH; (done || lia).
Qed.

Lemma percentile_loop_none fuel it i k :
  at_pos it i -> 0 <= i <= len -> samples_total l < k -> len - i < Z.of_nat fuel ->
  percentile_loop h fuel it (below h l i) k = Some 0.
Proof.
  revert it i. induction fuel as [|fuel IH]; intros it i Hp Hi Hk Hf; [lia|].
  cbn [percentile_loop]. destruct (decide (i = len)) as [-> | Hne].
  - unfold do_next. pose proof (move_next_end it Hp) as E. destruct (move_next h it). cbn in E.
    by subst.
  - destruct (do_next_step it i Hp ltac:(lia)) as (it' & E & Hp' & Hc & Hv).
    rewrite E, Hc, <- below_succ. pose proof (below_bounds (i + 1)).
    pose proof (holds_small _ _ Hh). rewrite wraps_small; [|lia | cbn -[Z.pow]; lia].
    rewrite (proj2 (Z.leb_gt _ _)) by lia. apply IH; (done || lia).
Qed.
End position.

(** ** The recorded iterator *)

(** Repeated calls of [next] on a recorded iterator: the values iterated to and
    the counts added, until it answers false. *)
Fixpoint recorded_drain (rounds fuel : nat) (h : HdrHistogram) (it : HdrIterator) (added : Z)
    : option (list (Z * Z)) :=
  match rounds with
  | O => None
  | S rounds' =>
      '(more, it, added) ← recorded_next h fuel it added;
      if (more : bool) then
        rest ← recorded_drain rounds' fuel h it added;
        Some ((value_iterated_to_ it, added) :: rest)
      else Some []
  end.

(** The counters from [i] on that are not zero, with their lowest values. *)
Definition recorded_counters (h : HdrHistogram) (i : Z) : list (Z * Z) :=
  (fun j => (value_at_index h j, count_at_index h j))
    <$> filter (fun j => count_at_index h j <> 0) (seqZ i (counts_len (config_ h) - i)).

Section recorded.
Variable h : HdrHistogram.
Variable l : list (Z * Z).
Hypothesis Hh : holds h l.

#[local] Abbreviation len := (counts_len (config_ h)).

Lemma recorded_counters_step i :
  0 <= i < len ->
  recorded_counters h i
  = (if samples_at h l i =? 0 then [] else [(value_at_index h i, samples_at h l i)])
      ++ recorded_counters h (i + 1).
Proof.
  intros Hi. unfold recorded_counters.
  rewrite (seqZ_cons i) by lia. replace (Z.pred (len - i)) with (len - (i + 1)) by lia.
  change (Z.succ i) with (i + 1).
  rewrite filter_cons, (count_at_index_holds h l i Hh Hi).
  destruct (Z.eqb_spec (samples_at h l i) 0); case_decide; try tauto; try done.
  cbn. by rewrite (count_at_index_holds h l i Hh Hi).
Qed.

Lemma samples_at_below_total i :
  below h l i = samples_total l -> samples_at h l i = 0.
Proof.
  intros E. pose proof (below_succ h l i) as Hs. pose proof (below_bounds h l Hh (i + 1)).
  pose proof (samples_at_bounds h l i (holds_values _ _ Hh)). lia.
Qed.

Lemma recorded_counters_end i :
  0 <= i <= len -> below h l i = samples_total l -> recorded_counters h i = [].
Proof.
  intros Hi. remember (Z.to_nat (len - i)) as n eqn:Hn. revert i Hi Hn.
  induction n as [|n IH]; intros i Hi Hn E.
  - unfold recorded_counters. replace (len - i) with 0 by lia. done.
  - rewrite recorded_counters_step, (samples_at_below_total i E) by lia. cbn.
    apply IH; [lia | lia |]. rewrite below_succ, (samples_at_below_total i E). lia.
Qed.

Lemma recorded_next_spec fuel it i added :
  at_pos h l it i -> 0 <= i <= len -> len - i < Z.of_nat fuel ->
  (recorded_counters h i = [] /\ exists it', recorded_next h fuel it added = Some (false, it', added))
  \/ exists n it', i <= n < len
     /\ recorded_next h fuel it added = Some (true, it', samples_at h l n)
     /\ at_pos h l it' (n + 1) /\ value_iterated_to_ it' = value_at_index h n
     /\ value_iterated_from_ it' = value_iterated_to_ it
     /\ recorded_counters h i = (value_at_index h n, samples_at h l n) :: recorded_counters h (n + 1).
Proof.
  revert it i. induction fuel as [|fuel IH]; intros it i Hp Hi Hf; [lia|]. cbn [recorded_next].
  destruct (decide (below h l i = samples_total l)) as [E | Hne].
  { left. rewrite (basic_next_end h l it i Hp E). split; [by apply recorded_counters_end | eauto]. }
  pose proof (below_bounds h l Hh i) as Hb.
  assert (i <> len) by (intros ->; by rewrite (below_len h l Hh) in Hne).
  destruct (basic_next_step h l Hh it i Hp ltac:(lia) ltac:(lia)) as (it' & E & Hp' & Hc & Hv & Hto).
  rewrite E, Hc, (recorded_counters_step i) by lia.
  destruct (Z.eqb_spec (samples_at h l i) 0) as [Hz | Hnz]; cbn [negb app].
  - destruct (IH it' (i + 1) Hp' ltac:(lia) ltac:(lia)) as [Hl | (n & it2 & Hn & Hr)]; [by left|].
    right. exists n, it2. rewrite Hto in Hr. split; [lia | exact Hr].
  - right. exists i, (update_iterated_values it' (value_ it')). split; [lia|].
    split; [done|]. split; [by apply update_pos|]. cbn. by rewrite Hv, Hto.
Qed.

Lemma recorded_drain_spec rounds fuel it i added :
  at_pos h l it i -> 0 <= i <= len -> len < Z.of_nat fuel -> len - i < Z.of_nat rounds ->
  recorded_drain rounds fuel h it added = Some (recorded_counters h i).
Proof.
  revert it i added. induction rounds as [|rounds IH]; intros it i added Hp Hi Hf Hr; [lia|].
  cbn [recorded_drain].
  destruct (recorded_next_spec fuel it i added Hp Hi ltac:(lia))
    as [[-> (it' & ->)] | (n & it' & Hn & -> & Hp' & Hto & _ & ->)]; [done|].
  cbn [mbind option_bind]. rewrite (IH it' (n + 1)) by (done || lia). cbn. by rewrite Hto.
Qed.
End recorded.

(** ** Linear and logarithmic iterators *)

Section levels.
Variable h : HdrHistogram.
Variable l : list (Z * Z).
Hypothesis Hh : holds h l.

#[local] Abbreviation len := (counts_len (config_ h)).

(** The iterator has moved past the last counter. *)
Definition finished (it : HdrIterator) : Prop :=
  counts_index_ it = len /\ cumulative_count_ it = samples_total l
  /\ iter_total_count it = samples_total l.

(** One step adds exactly the counters it moves over. *)
Lemma level_loop_spec fuel advance it i added level lowest :
  at_pos h l it i -> 0 <= i <= len -> 0 <= added -> added + (samples_total l - below h l i) < 2 ^ 63 ->
  len - i < Z.of_nat fuel -> (forall z, exists z', advance z = Some z') ->
  exists st n, level_loop h fuel advance it added level lowest = Some (true, st)
    /\ i <= n <= len
    /\ count_added_in_this_iteration_step_ st = added + (below h l n - below h l i)
    /\ cumulative_count_ (level_base st) = below h l n
    /\ (at_pos h l (level_base st) n \/ finished (level_base st)).
Proof.
  intros Hp Hi Ha Hs Hf Hadv. revert it i added Hp Hi Ha Hs Hf.
  induction fuel as [|fuel IH]; intros it i added Hp Hi Ha Hs Hf; [lia|]. cbn [level_loop].
  destruct (lowest <=? value_ it).
  { destruct (Hadv level) as [next ->]. cbn [mbind option_bind]. eexists _, i.
    split; [reflexivity|]. split; [lia|]. cbn. split; [lia|]. destruct Hp as [? ? ?]. by split; [|left; split]. }
  destruct (decide (i = len)) as [-> | Hne].
  - pose proof (move_next_end h l Hh it Hp) as E.
    assert (finished (snd (move_next h it)) /\ cumulative_count_ (snd (move_next h it))
                                              = cumulative_count_ it) as [Ef Ec].
    { destruct Hp as [Hpi Hpc Hpt]. rewrite (below_len h l Hh) in Hpc.
      unfold move_next in *. case_match; [|done]. repeat split; cbn; (done || lia). }
    destruct (move_next h it) as [more it']. cbn in E, Ec, Ef. subst more. cbn [negb].
    eexists _, len. split; [reflexivity|]. split; [lia|]. cbn. rewrite Ec. split; [lia|].
    split; [apply Hp | by right].
  - destruct (move_next_step h l Hh it i Hp ltac:(lia)) as (it' & E & Hp' & Hc & _ & _ & _).
    rewrite E, Hc. cbn [negb].
    pose proof (samples_at_bounds h l i (holds_values _ _ Hh)).
    pose proof (below_succ h l i). pose proof (below_bounds h l Hh (i + 1)).
    rewrite wraps_small; [|lia | cbn -[Z.pow]; lia].
    destruct (IH it' (i + 1) (added + samples_at h l i) Hp') as (st & n & -> & Hn & Hadd & Hr); try lia.
    exists st, n. split; [done|]. split; [lia|]. split; [lia | done].
Qed.

Definition level_inv (it : HdrIterator) : Prop :=
  (exists i, at_pos h l it i /\ 0 <= i <= len) \/ finished it.

Lemma level_inv_cumulative it :
  level_inv it -> 0 <= cumulative_count_ it <= samples_total l
    /\ iter_total_count it = samples_total l.
Proof.
  intros [(i & [_ -> ->] & _) | (_ & -> & ->)]; [split; [apply below_bounds|]; done|].
  split; [|done]. pose proof (below_bounds h l Hh 0). lia.
Qed.

Lemma finished_stops it lowest :
  finished it -> has_next it || next_value_greater_than_reporting_level_upper_bound h it lowest = false.
Proof.
  intros (Hi & Hc & Ht). unfold has_next, next_value_greater_than_reporting_level_upper_bound.
  by rewrite Hi, Hc, Ht, Z.ltb_irrefl, (counts_size_len h l Hh), (proj2 (Z.leb_le _ _)) by lia.
Qed.

Lemma level_next_spec fuel advance st :
  level_inv (level_base st) -> len < Z.of_nat fuel -> (forall z, exists z', advance z = Some z') ->
  exists more st', level_next h fuel advance st = Some (more, st')
    /\ level_inv (level_base st')
    /\ 0 <= count_added_in_this_iteration_step_ st'
    /\ count_added_in_this_iteration_step_ st'
       = cumulative_count_ (level_base st') - cumulative_count_ (level_base st)
    /\ (more = false -> cumulative_count_ (level_base st') = samples_total l).
Proof.
  intros Hinv Hf Hadv. destruct (level_inv_cumulative _ Hinv) as [Hc Ht]. unfold level_next.
  destruct (has_next (level_base st) || _) eqn:Hn.
  - destruct Hinv as [(i & Hp & Hi) | Hfin]; [|by rewrite finished_stops in Hn].
    pose proof (below_bounds h l Hh i). pose proof (holds_small _ _ Hh).
    destruct (level_loop_spec fuel advance _ i 0 (next_value_reporting_level_ st)
      (next_value_reporting_level_lowest_equivalent_ st) Hp) as (st' & n & E & Hni & Ha & Hcn & Hfin);
      try (done || lia).
    exists true, st'. split; [done|]. split.
    + destruct Hfin as [Hpn | ?]; [left; exists n; split; [done | lia] | by right].
    + pose proof (below_mono h l Hh i n ltac:(lia)).
      rewrite Ha, Hcn, (pos_cumulative _ _ _ _ Hp). split_and!; [lia | lia | done].
  - apply orb_false_iff in Hn as [Hn _]. unfold has_next in Hn. apply Z.ltb_ge in Hn.
    eexists false, _. split; [reflexivity|]. split; [done|]. cbn. lia.
Qed.
End levels.

(** A number of calls of [next] on a linear iterator: the answers and the counts
    added by each call. *)
Fixpoint linear_calls (calls fuel : nat) (h : HdrHistogram) (units : Z) (st : LevelIterator)
    : option (list (bool * Z) * LevelIterator) :=
  match calls with
  | O => Some ([], st)
  | S calls' =>
      '(more, st1) ← linear_next h fuel units st;
      '(steps, st2) ← linear_calls calls' fuel h units st1;
      Some ((more, count_added_in_this_iteration_step_ st1) :: steps, st2)
  end.

Definition added_total (steps : list (bool * Z)) : Z := foldr (fun '(_, a) acc => a + acc) 0 steps.

Lemma linear_calls_spec calls fuel h l units st :
  holds h l -> level_inv h l (level_base st) -> counts_len (config_ h) < Z.of_nat fuel ->
  exists steps st', linear_calls calls fuel h units st = Some (steps, st')
    /\ length steps = calls /\ 0 <= added_total steps
    /\ cumulative_count_ (level_base st) + added_total steps = cumulative_count_ (level_base st')
    /\ cumulative_count_ (level_base st') <= samples_total l
    /\ ((exists a, (false, a) ∈ steps) -> cumulative_count_ (level_base st') = samples_total l).
Proof.
  intros Hh. revert st. induction calls as [|calls IH]; intros st Hinv Hf; cbn [linear_calls].
  - exists [], st. split_and!; try done; [cbn; lia | by apply (level_inv_cumulative h l Hh) |].
    intros [a Ha]. by apply not_elem_of_nil in Ha.
  - destruct (level_next_spec h l Hh fuel
      (fun level => Some (i64 (level + units))) st Hinv Hf) as (more & st1 & E & Hinv1 & Ha0 & Ha & Hm); [eauto|].
    unfold linear_next. rewrite E. cbn [mbind option_bind].
    destruct (IH st1 Hinv1 Hf) as (steps & st2 & -> & Hlen & Hpos & Hsum & Hle & Hfalse).
    cbn [mbind option_bind]. eexists _, st2. split; [reflexivity|].
    cbn [length added_total foldr]. fold (added_total steps). split_and!; [lia.. | done |].
    intros [a Hin]. apply elem_of_cons in Hin as [Heq | Hin]; [|eauto].
    injection Heq as <- _. specialize (Hm eq_refl).
    lia.
Qed.

(** ** Properties *)

(** The part of the samples below, and up to, a value. *)
Definition samples_below (l : list (Z * Z)) (v : Z) : Z :=
  samples_total (filter (fun '(w, _) => w < v) l).
Definition samples_up_to (l : list (Z * Z)) (v : Z) : Z :=
  samples_total (filter (fun '(w, _) => w <= v) l).

(** C28: [value_at_percentile] selects by rank: if the percentile stands for the
    [k]-th sample, and [v] is the [k]-th smallest of the recorded samples, the
    loop returns, and gives the highest value equivalent to [v]; it gives zero
    when there are fewer than [k] samples. *)
Theorem value_at_percentile_rank h l p k v fuel :
  holds h l -> get_count_at_percentile h p = Some k ->
  counts_len (config_ h) < Z.of_nat fuel -> 0 <= v <= highest_trackable_value (config_ h) ->
  (samples_below l v < k <= samples_up_to l v ->
     value_at_percentile h fuel p = Some (Histogram.highest_equivalent_value h v))
  /\ (samples_total l < k -> value_at_percentile h fuel p = Some 0).
Proof.
  intros Hh Hk Hf Hv. pose proof (holds_config _ _ Hh) as Hwf.
  pose proof (limit_range h Hwf) as Hlim. pose proof (holds_values _ _ Hh) as Hvals.
  assert (0 <= index_of h v < counts_len (config_ h)) as Hi.
  { split; [apply index_of_bounds; (done || lia) | apply index_of_in_range; (done || lia)]. }
  unfold value_at_percentile. rewrite Hk. cbn [mbind option_bind].
  pose proof (make_iterator_pos h l Hh) as Hp0.
  split; intros Hr.
  - rewrite <- (below_0 h l Hh). rewrite (percentile_loop_finds h l Hh fuel _ 0 (index_of h v)); try lia.
    + f_equal. destruct (value_at_index_class h Hwf _ Hi) as (Hw & Hidx & Hlow).
      apply highest_equivalent_class; (done || lia).
    + done.
    + rewrite Forall_forall in Hvals. unfold samples_below, samples_up_to, below in *. split.
      * eapply Z.le_lt_trans; [|apply Hr]. apply (filter_total_mono h); [apply Hh|].
        intros [w c] Hin Hlt. apply Z.nle_gt. intros Hle.
        pose proof (index_of_mono h Hwf v w). lia.
      * eapply Z.le_trans; [apply Hr|]. apply (filter_total_mono h); [apply Hh|].
        intros [w c] Hin Hle. destruct (Hvals _ Hin). pose proof (index_of_mono h Hwf w v). lia.
  - pose proof (percentile_loop_none h l Hh fuel _ 0 k Hp0 ltac:(lia) Hr ltac:(lia)) as E.
    by rewrite (below_0 h l Hh) in E.
Qed.

Lemma value_at_percentile_rank_witness :
  value_at_percentile example_recorded 3000 (double_of_Z 50)
  = Some (Histogram.highest_equivalent_value example_recorded 7).
Proof.
  apply (value_at_percentile_rank example_recorded [(900, 1); (7, 2)] (double_of_Z 50) 2 7 3000).
  - apply example_recorded_holds.
  - reflexivity.
  - reflexivity.
  - split; [lia | discriminate].
  - split; [reflexivity | discriminate].
Defined.

(** a recorded iterator visits, in increasing order, exactly the counters
    that are not zero, each with the lowest value of its class and its count;
    the iteration ends after at most one call for each counter. *)
Theorem recorded_iterator_visits h l rounds fuel :
  holds h l -> counts_len (config_ h) < Z.of_nat fuel -> counts_len (config_ h) < Z.of_nat rounds ->
  recorded_drain rounds fuel h (make_iterator h) 0
  = Some ((fun j => (value_at_index h j, count_at_index h j))
            <$> filter (fun j => count_at_index h j <> 0) (seqZ 0 (counts_len (config_ h)))).
Proof.
  intros Hh Hf Hr. pose proof (holds_config _ _ Hh) as Hwf.
  assert (0 <= counts_len (config_ h)).
  { pose proof (index_of_0 h Hwf). pose proof (limit_range h Hwf). pose proof (cw_cover _ Hwf).
    assert (index_of h 0 < counts_len (config_ h)) by (apply index_of_in_range; (done || lia)). lia. }
  rewrite (recorded_drain_spec h l Hh rounds fuel _ 0);
    [| by apply make_iterator_pos | lia | lia | lia].
  unfold recorded_counters. by rewrite Z.sub_0_r.
Qed.

Lemma recorded_iterator_visits_witness :
  recorded_drain 2049 2049 example_recorded (make_iterator example_recorded) 0
  = Some ((fun j => (value_at_index example_recorded j, count_at_index example_recorded j))
            <$> filter (fun j => count_at_index example_recorded j <> 0)
                  (seqZ 0 (counts_len (config_ example_recorded)))).
Proof.
  apply (recorded_iterator_visits example_recorded [(900, 1); (7, 2)] 2049 2049);
    [apply example_recorded_holds | reflexivity | reflexivity].
Defined.

(** a linear iterator loses and repeats no sample: every call of [next]
    returns, the counts reported by any number of calls add up to the cumulative
    count, and once a call has answered false they add up to the total count. *)
Theorem linear_iterator_partitions h l units calls fuel :
  holds h l -> counts_len (config_ h) < Z.of_nat fuel ->
  exists steps st, linear_calls calls fuel h units (make_level_iterator h units) = Some (steps, st)
    /\ length steps = calls
    /\ added_total steps = cumulative_count_ (level_base st)
    /\ added_total steps <= total_count_ h
    /\ ((exists a, (false, a) ∈ steps) -> added_total steps = total_count_ h).
Proof.
  intros Hh Hf. destruct (linear_calls_spec calls fuel h l units (make_level_iterator h units) Hh)
    as (steps & st & E & Hlen & _ & Hsum & Hle & Hfalse); [|done|].
  { left. exists 0. split; [by apply make_iterator_pos|]. 
    pose proof (holds_config _ _ Hh) as Hwf. pose proof (cw_len _ Hwf) as ->.
    pose proof (cw_buckets _ Hwf). pose proof (cw_half _ Hwf). rewrite (cw_subhalf _ Hwf).
    pose proof (pow2_pos (sub_bucket_half_count_magnitude (config_ h))). nia. }
  exists steps, st. rewrite (holds_total _ _ Hh). cbn in Hsum. split_and!; try (done || lia).
  intros Hex. specialize (Hfalse Hex). lia.
Qed.

Lemma linear_iterator_partitions_witness :
  exists steps st, linear_calls 4 2049 example_recorded 500 (make_level_iterator example_recorded 500)
                   = Some (steps, st)
    /\ length steps = 4%nat
    /\ added_total steps = cumulative_count_ (level_base st)
    /\ added_total steps <= total_count_ example_recorded
    /\ ((exists a, (false, a) ∈ steps) -> added_total steps = total_count_ example_recorded).
Proof.
  apply (linear_iterator_partitions example_recorded [(900, 1); (7, 2)]);
    [apply example_recorded_holds | reflexivity].
Defined.

(** The intermediate [int] of [get_count_at_percentile] cannot hold the rank of
    a histogram with more than [2 ^ 32] samples. *)
Example percentile_count_overflows :
  let h := snd (record_values (make_histogram example_config) 7 (2 ^ 33)) in
  total_count_ h = 2 ^ 33 /\ get_count_at_percentile h (double_of_Z 50) = None.
Proof. vm_compute. done. Qed.
