(* ===== verification/HdrMoments.v ===== *)
(** * Mean and standard deviation of the histogram

    Models [stddev] of [toolbox/hdr/Utility.cpp] on top of [mean] of file HdrIterator, and
    shows what both compute: the mean of the samples, each taken to be the median of its
    class of equivalent values, and the deviation from it.  Doubles are those of file
    HdrIterator; [sqrt] is the correctly rounded square root. *)
From Stdlib Require Import SpecFloat.
From S2P Require Import Prelude Histogram HdrIterator.

Definition dsqrt : double -> double := SFsqrt 53 1024.

Section stddev.
Variable h : HdrHistogram.

Definition deviation (mean_val : double) (value : Z) : double :=
  dsub (double_of_Z (median_equivalent_value h value)) mean_val.

Definition add_deviation (mean_val geometric_dev_total : double) (value count : Z) : double :=
  let dev := deviation mean_val value in
  dadd geometric_dev_total (dmul (dmul dev dev) (double_of_Z count)).

Fixpoint stddev_loop (fuel : nat) (mean_val : double) (it : HdrIterator) (geometric_dev_total : double) : option double :=
  match fuel with
  | O => None
  | S fuel' =>
      let '(more, it) := do_next h it in
      if more then
        stddev_loop fuel' mean_val it
          (if negb (count_ it =? 0) then add_deviation mean_val geometric_dev_total (value_ it) (count_ it)
           else geometric_dev_total)
      else Some geometric_dev_total
  end.

Definition stddev (fuel : nat) : option double :=
  mean_val ← mean h fuel;
  geometric_dev_total ← stddev_loop fuel mean_val (make_iterator h) (double_of_Z 0);
  Some (dsqrt (ddiv geometric_dev_total (double_of_Z (total_count_ h)))).
End stddev.

(** ** The samples as medians of their classes *)

Definition samples_weight (h : HdrHistogram) (l : list (Z * Z)) : Z :=
  foldr (fun '(v, c) acc => c * median_equivalent_value h v + acc) 0 l.

(** The part of it that is counted below [n]. *)
Definition weight_below (h : HdrHistogram) (l : list (Z * Z)) (n : Z) : Z :=
  samples_weight h (filter (fun '(v, _) => index_of h v < n) l).

Section classes.
Variable h : HdrHistogram.
Hypothesis Hwf : config_wf (config_ h).

Lemma limit_small v : 0 <= v < limit h -> 0 <= v < 2 ^ 63.
Proof. pose proof (limit_range h Hwf). lia. Qed.

Lemma median_eq v : 0 <= v < 2 ^ 63 ->
  median_equivalent_value h v = v / width_of h v * width_of h v + width_of h v / 2
  /\ 0 <= median_equivalent_value h v.
Proof.
  intros Hv. pose proof (class_end h Hwf v Hv). pose proof (width_pos h Hwf v).
  assert (0 <= width_of h v / 2 < width_of h v) by (split; [apply Z.div_pos; lia | apply Z.div_lt_upper_bound; lia]).
  assert (0 <= v / width_of h v * width_of h v) by (apply Z.mul_nonneg_nonneg; [apply Z.div_pos; lia | lia]).
  assert (median_equivalent_value h v = v / width_of h v * width_of h v + width_of h v / 2) as ->; [|split; [done | lia]].
  unfold median_equivalent_value. rewrite lowest_equivalent_value_eq, size_eq by done.
  rewrite Z.shiftr_div_pow2, Z.pow_1_r by lia. apply wraps_small; [lia|]. cbn -[Z.pow Z.mul Z.div]. lia.
Qed.

(** Values that share a counter have the same median. *)
Lemma median_class v w : 0 <= v < 2 ^ 63 -> 0 <= w < 2 ^ 63 -> index_of h v = index_of h w ->
  median_equivalent_value h v = median_equivalent_value h w.
Proof.
  intros Hv Hw E. apply index_of_class in E; [|done | lia..].
  destruct (class_shift h Hwf v w ltac:(lia) E) as [Hs Hq].
  rewrite (proj1 (median_eq v Hv)), (proj1 (median_eq w Hw)).
  assert (width_of h w = width_of h v) as -> by (unfold width_of; by rewrite Hs). by rewrite Hq.
Qed.

End classes.

Section moments.
Variable h : HdrHistogram.
Variable l : list (Z * Z).
Hypothesis Hh : holds h l.

#[local] Abbreviation len := (counts_len (config_ h)).

Lemma weight_below_step n : 0 <= n < len ->
  weight_below h l (n + 1) = weight_below h l n + samples_at h l n * median_equivalent_value h (value_at_index h n).
Proof.
  intros Hn. pose proof (holds_config _ _ Hh) as Hwf. destruct (value_at_index_class h Hwf n Hn) as (Hvr & Hvi & _).
  pose proof (limit_small h Hwf _ Hvr) as Hv63. unfold weight_below. pose proof (holds_values _ _ Hh) as Hv. clear Hh.
  induction Hv as [|[v c] l' [Hvv _] _ IH]; [done|]. rewrite !filter_cons. cbn [samples_at foldr]. fold (samples_at h l' n).
  pose proof (limit_small h Hwf _ Hvv). destruct (Z.eqb_spec (index_of h v) n) as [E | E].
  - rewrite (median_class h Hwf (value_at_index h n) v) in * by (done || congruence). rewrite decide_True, decide_False by lia.
    cbn [samples_weight foldr]. fold (samples_weight h (filter (fun '(v, _) => index_of h v < n + 1) l')). lia.
  - repeat case_decide; try lia; cbn [samples_weight foldr];
      fold (samples_weight h (filter (fun '(v, _) => index_of h v < n + 1) l'));
      fold (samples_weight h (filter (fun '(v, _) => index_of h v < n) l')); lia.
Qed.

Lemma weight_bounds (P : Z * Z -> Prop) `{forall x, Decision (P x)} :
  0 <= samples_weight h (filter P l) <= samples_weight h l.
Proof.
  pose proof (holds_config _ _ Hh) as Hwf. pose proof (holds_values _ _ Hh) as Hv. clear Hh. induction Hv as [|[v c] l' [Hvv Hc] _ IH]; [done|].
  destruct (median_eq h Hwf v (limit_small h Hwf _ Hvv)) as [_ Hm]. assert (0 <= c * median_equivalent_value h v) by (by apply Z.mul_nonneg_nonneg).
  rewrite filter_cons. case_decide; cbn [samples_weight foldr]; fold (samples_weight h l'); fold (samples_weight h (filter P l')); lia.
Qed.

Lemma weight_below_ends : weight_below h l 0 = 0 /\ weight_below h l len = samples_weight h l.
Proof.
  pose proof (holds_config _ _ Hh) as Hwf. unfold weight_below. pose proof (holds_values _ _ Hh) as Hv. clear Hh.
  induction Hv as [|[v c] l' [Hvv _] _ [IH1 IH2]]; [done|]. rewrite !filter_cons. pose proof (index_of_bounds h Hwf v) as Hi.
  rewrite decide_False by lia. rewrite decide_True by (apply index_of_in_range; (done || lia)).
  split; [exact IH1|]. cbn [samples_weight foldr]. fold (samples_weight h l'). by rewrite <- IH2.
Qed.

Lemma mean_loop_sum fuel it i : at_pos h l it i -> 0 <= i <= len -> len - i < Z.of_nat fuel -> samples_weight h l < 2 ^ 63 ->
  mean_loop h fuel it (weight_below h l i) = Some (samples_weight h l).
Proof.
  pose proof (holds_config _ _ Hh) as Hwf. intros Hp Hi Hf Hw. revert it i Hp Hi Hf. induction fuel as [|fuel IH]; intros it i Hp Hi Hf; [lia|]. cbn [mean_loop].
  destruct (decide (i = len)) as [-> | Hne].
  - unfold do_next. pose proof (move_next_end h l Hh it Hp) as E. destruct (move_next h it). cbn in E. subst.
    by rewrite (proj2 weight_below_ends).
  - destruct (do_next_step h l Hh it i Hp ltac:(lia)) as (it' & E & Hp' & Hc & Hv). rewrite E, Hc, Hv.
    pose proof (weight_below_step i ltac:(lia)) as Hs. pose proof (weight_bounds (fun '(v, _) => index_of h v < i)) as Hb.
    pose proof (weight_bounds (fun '(v, _) => index_of h v < i + 1)) as Hb1.
    fold (weight_below h l i) in Hb. fold (weight_below h l (i + 1)) in Hb1.
    pose proof (samples_at_bounds h l i (holds_values _ _ Hh)) as Hsa.
    destruct (value_at_index_class h Hwf i ltac:(lia)) as (Hvr & _).
    destruct (median_eq h Hwf _ (limit_small h Hwf _ Hvr)) as [_ Hm].
    rewrite <- (IH it' (i + 1) Hp') by lia. f_equal. rewrite Hs in *. change (2 ^ 63) with (2 ^ (64 - 1)) in *.
    assert (0 <= samples_at h l i * median_equivalent_value h (value_at_index h i)) as Hq by (apply Z.mul_nonneg_nonneg; lia).
    destruct (Z.eqb_spec (samples_at h l i) 0) as [-> | _]; cbn [negb]; [lia|].
    set (q := samples_at h l i * _) in *. clearbody q. rewrite (wraps_small 64 q) by lia. apply wraps_small; lia.
Qed.

Lemma stddev_loop_sum fuel m it i acc : at_pos h l it i -> 0 <= i <= len -> len - i < Z.of_nat fuel ->
  stddev_loop h fuel m it acc = Some (foldl (fun acc '(v, c) => add_deviation h m acc v c) acc (recorded_counters h i)).
Proof.
  revert it i acc. induction fuel as [|fuel IH]; intros it i acc Hp Hi Hf; [lia|]. cbn [stddev_loop].
  destruct (decide (i = len)) as [-> | Hne].
  - unfold do_next. pose proof (move_next_end h l Hh it Hp) as E. destruct (move_next h it). cbn in E. subst.
    unfold recorded_counters. by replace (len - len) with 0 by lia.
  - destruct (do_next_step h l Hh it i Hp ltac:(lia)) as (it' & E & Hp' & Hc & Hv). rewrite E, Hc, Hv.
    rewrite (recorded_counters_step h l Hh i), foldl_app by lia. rewrite (IH it' (i + 1)) by (done || lia).
    by destruct (Z.eqb_spec (samples_at h l i) 0).
Qed.
End moments.

(** The mean and the deviation are those of the samples, each taken to be the median of
    its class: for a histogram that holds the samples, and whose sum fits 64 bits, [mean]
    divides the exact sum once; [stddev] adds the squares of the deviations from it in
    the order of the counters, divides, and takes the root; both return. *)
Theorem moments_of_samples h l fuel :
  holds h l -> counts_len (config_ h) < Z.of_nat fuel -> samples_weight h l < 2 ^ 63 ->
  let m := ddiv (double_of_Z (samples_weight h l)) (double_of_Z (samples_total l)) in
  mean h fuel = Some m
  /\ stddev h fuel = Some (dsqrt (ddiv
       (foldl (fun acc '(v, c) => add_deviation h m acc v c) (double_of_Z 0) (recorded_counters h 0))
       (double_of_Z (samples_total l)))).
Proof.
  intros Hh Hf Hw m. pose proof (holds_config _ _ Hh) as Hwf.
  assert (0 <= counts_len (config_ h)).
  { pose proof (index_of_0 h Hwf). pose proof (limit_range h Hwf). pose proof (cw_cover _ Hwf).
    assert (index_of h 0 < counts_len (config_ h)) by (apply index_of_in_range; (done || lia)). lia. }
  pose proof (make_iterator_pos h l Hh) as Hp0.
  assert (mean h fuel = Some m) as Hm.
  { unfold mean. pose proof (mean_loop_sum h l Hh fuel _ 0 Hp0 ltac:(lia) ltac:(lia) Hw) as E.
    rewrite (proj1 (weight_below_ends h l Hh)) in E. rewrite E. cbn [mbind option_bind]. by rewrite (holds_total _ _ Hh). }
  split; [exact Hm|]. unfold stddev. rewrite Hm. cbn [mbind option_bind].
  rewrite (stddev_loop_sum h l Hh fuel m _ 0) by (done || lia). cbn [mbind option_bind]. by rewrite (holds_total _ _ Hh).
Qed.

(** Three samples: 900, and 7 twice. *)
Lemma moments_of_samples_witness :
  let m := ddiv (double_of_Z 914) (double_of_Z 3) in
  mean example_recorded 3000 = Some m
  /\ stddev example_recorded 3000 = Some (dsqrt (ddiv
       (foldl (fun acc '(v, c) => add_deviation example_recorded m acc v c) (double_of_Z 0) (recorded_counters example_recorded 0))
       (double_of_Z 3))).
Proof.
  apply (moments_of_samples example_recorded [(900, 1); (7, 2)] 3000); [apply example_recorded_holds | reflexivity | reflexivity].
Defined.

(** Without samples both are not a number. *)
Example moments_of_nothing :
  let h := make_histogram example_config in mean h 3000 = Some S754_nan /\ stddev h 3000 = Some S754_nan.
Proof. vm_compute. done. Qed.
