(* ===== verification/Stats.v ===== *)
(** * Running statistics

    Models the accumulator [VarAccum] of [toolbox/util/Math.hpp] and the functions on
    it.  The code is written once, over the class [Arith] of the operations on
    [double] that it uses, and has two instances: the binary64 numbers that the program
    computes with (those of file HdrIterator), and exact rational numbers.  The
    recurrences are shown to compute the mean and the squared deviations in exact
    arithmetic (the rounding of doubles is not bounded); the extremes do not round. *)
From Stdlib Require Import SpecFloat QArith Qcanon.
From S2P Require Import Prelude HdrIterator.
#[local] Open Scope Z_scope.

(** ** Arithmetic *)

(** What the accumulator uses of [double]: the operations, the conversion of a
    [size_t], and [numeric_limits<double>::max()] and [min()]. *)
Class Arith (T : Type) := {
  sub : T -> T -> T;
  add : T -> T -> T;
  mul : T -> T -> T;
  div : T -> T -> T;
  of_size : Z -> T;
  ltb : T -> T -> bool;
  limits_max : T;
  limits_min : T
}.

(** [numeric_limits<double>::min()] is the least positive normalised number. *)
#[export] Instance double_arith : Arith double := {|
  sub := dsub; add := dadd; mul := dmul; div := ddiv; of_size := double_of_Z; ltb := dltb;
  limits_max := S754_finite false (2 ^ 53 - 1) 971;
  limits_min := S754_finite false (2 ^ 52) (-1074)
|}.

Definition exact_limits_max : Qc := Q2Qc (inject_Z ((2 ^ 53 - 1) * 2 ^ 971)).
Definition exact_limits_min : Qc := Q2Qc (1 # 2 ^ 1022).

#[export] Instance exact_arith : Arith Qc := {|
  sub := Qcminus; add := Qcplus; mul := Qcmult; div := Qcdiv;
  of_size n := Q2Qc (inject_Z n);
  ltb x y := negb (Qle_bool y x);
  limits_max := exact_limits_max; limits_min := exact_limits_min
|}.

(** ** The accumulator *)

Record VarAccum {T : Type} := mkAccum { size_ : Z; mean_ : T; sum2_ : T; min_ : T; max_ : T }.
Arguments VarAccum : clear implicits.
Arguments mkAccum {T}.

Section accumulator.
Context {T : Type} `{Arith T}.

(** The values of the members at the start, which [clear] restores. *)
Definition empty_accum : VarAccum T :=
  mkAccum 0 (of_size 0) (of_size 0) limits_max limits_min.

Definition std_min (a b : T) : T := if ltb b a then b else a.
Definition std_max (a b : T) : T := if ltb a b then b else a.

Definition append (v : VarAccum T) (val : T) : VarAccum T :=
  let size := u64 (size_ v + 1) in
  let delta := sub val (mean_ v) in
  let mean := add (mean_ v) (div delta (of_size size)) in
  let sum2 := add (sum2_ v) (mul delta (sub val mean)) in
  mkAccum size mean sum2 (std_min (min_ v) val) (std_max (max_ v) val).

(** [append] of several values: the first, and then the tail. *)
Fixpoint append_all (v : VarAccum T) (vals : list T) : VarAccum T :=
  match vals with
  | [] => v
  | first :: args => append_all (append v first) args
  end.

(** [var] and [varp]; [None] stands for the quiet NaN. *)
Definition var (v : VarAccum T) : option T :=
  if 1 <? size_ v then Some (div (sum2_ v) (of_size (size_ v - 1))) else None.
Definition varp (v : VarAccum T) : option T :=
  if negb (size_ v =? 0) then Some (div (sum2_ v) (of_size (size_ v))) else None.
End accumulator.

(** [stdev] and [stdevp], on doubles. *)
Definition dsqrt : double -> double := SFsqrt 53 1024.
Definition stdev (v : VarAccum double) : double :=
  match var v with Some x => dsqrt x | None => S754_nan end.
Definition stdevp (v : VarAccum double) : double :=
  match varp v with Some x => dsqrt x | None => S754_nan end.

(** ** The definitions of statistics *)

#[local] Open Scope Qc_scope.

Definition total (l : list Qc) : Qc := foldr Qcplus 0 l.
Definition count (l : list Qc) : Qc := Q2Qc (inject_Z (Z.of_nat (length l))).
Definition average (l : list Qc) : Qc := total l / count l.
(** The squared deviations from [m]. *)
Definition deviations (m : Qc) (l : list Qc) : Qc := total ((fun x => (x - m) * (x - m)) <$> l).

(** ** Lemmas *)

Lemma total_cons x l : total (x :: l) = x + total l.
Proof. done. Qed.

Lemma total_app l l' : total (l ++ l') = total l + total l'.
Proof.
  induction l as [|x l IH]; [by rewrite Qcplus_0_l|].
  rewrite <- app_comm_cons, !total_cons, IH. ring.
Qed.

Lemma of_size_succ n : of_size (n + 1)%Z = of_size n + 1 :> Qc.
Proof.
  cbn [of_size exact_arith]. apply Qc_is_canon. unfold Qcplus. cbn [this Q2Qc].
  rewrite !Qred_correct, inject_Z_plus. done.
Qed.

Lemma of_size_0 : of_size 0%Z = 0 :> Qc.
Proof. apply Qc_is_canon. reflexivity. Qed.

Lemma of_size_nonzero n : (0 < n)%Z -> of_size n <> 0 :> Qc.
Proof.
  intros Hn He. cbn [of_size exact_arith] in He. apply Q2Qc_eq_iff in He.
  unfold Qeq in He. cbn in He. lia.
Qed.

Lemma count_cons x l : count (x :: l) = count l + 1.
Proof. unfold count. cbn [length]. rewrite Nat2Z.inj_succ. apply of_size_succ. Qed.

Lemma count_snoc l x : count (l ++ [x]) = count l + 1.
Proof. unfold count. rewrite length_app, Nat2Z.inj_add. apply of_size_succ. Qed.

Lemma count_nonzero l : l <> [] -> count l <> 0.
Proof. destruct l; [done|]. intros _. apply of_size_nonzero. cbn [length]. lia. Qed.

Lemma deviations_sum m l :
  deviations m l = total ((fun x => x * x) <$> l) - (1 + 1) * m * total l + count l * m * m.
Proof.
  induction l as [|x l IH].
  - assert (count [] = 0) as -> by apply of_size_0. cbn. ring.
  - rewrite count_cons. unfold deviations in *. rewrite !fmap_cons, !total_cons, IH. ring.
Qed.

(** What holds of an accumulator that has been given [l]. *)
Definition accumulates (v : VarAccum Qc) (l : list Qc) : Prop :=
  size_ v = Z.of_nat (length l)
  /\ count l * mean_ v = total l
  /\ sum2_ v = total ((fun x => x * x) <$> l) - mean_ v * total l.

Lemma append_accumulates v l x :
  accumulates v l -> (Z.of_nat (length l) + 1 < 2 ^ 64)%Z -> accumulates (append v x) (l ++ [x]).
Proof.
  intros (Hs & Hm & H2) Hlen. unfold accumulates, append. cbn [size_ mean_ sum2_].
  rewrite Hs, wrapu_small by lia. rewrite length_app. cbn [length].
  assert (of_size (Z.of_nat (length l) + 1) = count l + 1 :> Qc) as -> by apply of_size_succ.
  assert (count l + 1 <> 0) as Hnz.
  { rewrite <- (count_snoc l x). apply count_nonzero. by destruct l. }
  rewrite count_snoc, fmap_app, !total_app, H2. cbn [fmap list_fmap total foldr sub add mul div exact_arith].
  rewrite <- Hm. split_and!; [lia | field; done | field; done].
Qed.

Lemma append_all_app {T} `{Arith T} (v : VarAccum T) l l' :
  append_all v (l ++ l') = append_all (append_all v l) l'.
Proof. revert v. induction l; [done|]. intros; cbn; auto. Qed.

Lemma append_all_accumulates l :
  (Z.of_nat (length l) < 2 ^ 64)%Z -> accumulates (append_all empty_accum l) l.
Proof.
  induction l as [|x l IH] using rev_ind; intros Hlen.
  - unfold accumulates. cbn [append_all empty_accum size_ mean_ sum2_ length total foldr fmap list_fmap].
    rewrite of_size_0. split_and!; [done | ring | ring].
  - rewrite length_app in Hlen. cbn [length] in Hlen. rewrite append_all_app.
    apply append_accumulates; [apply IH; lia | lia].
Qed.

(** *** Extremes *)

#[local] Opaque exact_limits_max exact_limits_min.
#[local] Hint Resolve list_elem_of_here list_elem_of_further : core.

Lemma exact_ltb x y : ltb x y = true <-> x < y.
Proof.
  cbn [ltb exact_arith]. rewrite negb_true_iff. split.
  - intros Hf. apply Qcnot_le_lt. intros Hle. apply Qle_bool_iff in Hle. congruence.
  - intros Hlt. destruct (Qle_bool y x) eqn:E; [|done].
    apply Qle_bool_iff in E. by apply Qclt_not_le in Hlt.
Qed.

Lemma std_min_spec (a b : Qc) : std_min a b <= a /\ std_min a b <= b /\ (std_min a b = a \/ std_min a b = b).
Proof.
  unfold std_min. destruct (ltb b a) eqn:E.
  - apply exact_ltb in E. split_and!; [by apply Qclt_le_weak | apply Qcle_refl | auto].
  - split_and!; [apply Qcle_refl | | auto]. apply Qcnot_lt_le. rewrite <- exact_ltb. congruence.
Qed.

Lemma std_max_spec (a b : Qc) : a <= std_max a b /\ b <= std_max a b /\ (std_max a b = a \/ std_max a b = b).
Proof.
  unfold std_max. destruct (ltb a b) eqn:E.
  - apply exact_ltb in E. split_and!; [by apply Qclt_le_weak | apply Qcle_refl | auto].
  - split_and!; [apply Qcle_refl | | auto]. apply Qcnot_lt_le. rewrite <- exact_ltb. congruence.
Qed.

Lemma append_all_min (v : VarAccum Qc) l :
  (forall x, x ∈ min_ v :: l -> min_ (append_all v l) <= x) /\ min_ (append_all v l) ∈ min_ v :: l.
Proof.
  revert v. induction l as [|y l IH]; intros v; cbn [append_all].
  - split; [|set_solver]. intros x Hx. apply list_elem_of_singleton in Hx as ->. apply Qcle_refl.
  - destruct (IH (append v y)) as [Hall Hin]. cbn [append min_] in Hall, Hin.
    destruct (std_min_spec (min_ v) y) as (Hv & Hy & Hor).
    assert (min_ (append_all (append v y) l) <= std_min (min_ v) y) as Hm by (apply Hall; set_solver).
    split.
    + intros x Hx. apply elem_of_cons in Hx as [->|Hx]; [eauto using Qcle_trans|].
      apply elem_of_cons in Hx as [->|Hx]; [eauto using Qcle_trans|]. apply Hall. set_solver.
    + destruct Hor as [Hor|Hor]; rewrite Hor in Hin; set_solver.
Qed.

Lemma append_all_max (v : VarAccum Qc) l :
  (forall x, x ∈ max_ v :: l -> x <= max_ (append_all v l)) /\ max_ (append_all v l) ∈ max_ v :: l.
Proof.
  revert v. induction l as [|y l IH]; intros v; cbn [append_all].
  - split; [|set_solver]. intros x Hx. apply list_elem_of_singleton in Hx as ->. apply Qcle_refl.
  - destruct (IH (append v y)) as [Hall Hin]. cbn [append max_] in Hall, Hin.
    destruct (std_max_spec (max_ v) y) as (Hv & Hy & Hor).
    assert (std_max (max_ v) y <= max_ (append_all (append v y) l)) as Hm by (apply Hall; set_solver).
    split.
    + intros x Hx. apply elem_of_cons in Hx as [->|Hx]; [eauto using Qcle_trans|].
      apply elem_of_cons in Hx as [->|Hx]; [eauto using Qcle_trans|]. apply Hall. set_solver.
    + destruct Hor as [Hor|Hor]; rewrite Hor in Hin; set_solver.
Qed.

(** ** Theorems *)

(** The recurrence over one value at a time is the definition that reads the values
    twice: in exact arithmetic the accumulator has the average of the values and the sum
    of their squared deviations from it, and [varp] and [var] are the variances of a
    population and of a sample. *)
Theorem accum_two_pass (l : list Qc) :
  l <> [] -> (Z.of_nat (length l) < 2 ^ 64)%Z ->
  let v := append_all empty_accum l in
  size_ v = Z.of_nat (length l)
  /\ mean_ v = average l
  /\ sum2_ v = deviations (average l) l
  /\ varp v = Some (deviations (average l) l / count l)
  /\ var v = (if decide (length l = 1%nat) then None
              else Some (deviations (average l) l / (count l - 1))).
Proof.
  intros Hl Hlen v. destruct (append_all_accumulates l Hlen) as (Hs & Hm & H2). fold v in Hs, Hm, H2.
  pose proof (count_nonzero l Hl) as Hnz.
  assert (mean_ v = average l) as Ha by (unfold average; rewrite <- Hm; field; done).
  assert (sum2_ v = deviations (average l) l) as Hd.
  { rewrite deviations_sum, H2, <- Ha, <- Hm. ring. }
  assert (Z.of_nat (length l) <> 0%Z) as Hz by (destruct l; [done | cbn [length]; lia]).
  split_and!; [done.. | |].
  - unfold varp. rewrite Hs, Hd. destruct (Z.eqb_spec (Z.of_nat (length l)) 0); [done|]. done.
  - unfold var. rewrite Hs, Hd. case_decide as Hone.
    + rewrite Hone. done.
    + destruct (Z.ltb_spec 1 (Z.of_nat (length l))); [|lia]. do 2 f_equal.
      assert (count l = of_size (Z.of_nat (length l) - 1) + 1) as ->; [|ring].
      rewrite <- of_size_succ. unfold count. cbn [of_size exact_arith]. do 2 f_equal. lia.
Qed.

Lemma accum_two_pass_witness :
  var (append_all empty_accum (Q2Qc <$> [2; 4; 9]%Q)) = Some (Q2Qc 13).
Proof.
  destruct (accum_two_pass (Q2Qc <$> [2; 4; 9]%Q)) as (_ & _ & _ & _ & ->); [done | done |].
  rewrite decide_False by done. f_equal. apply Qc_is_canon. vm_compute. reflexivity.
Defined.

(** The least value is the least one.  The greatest is, if one of the values is at
    least the smallest positive number; otherwise it is that number. *)
Theorem accum_extremes (l : list Qc) :
  l <> [] -> Forall (fun x => x <= limits_max) l ->
  let v := append_all empty_accum l in
  min_ v ∈ l /\ Forall (fun x => min_ v <= x) l
  /\ Forall (fun x => x <= max_ v) l
  /\ if decide (Exists (fun x => limits_min <= x) l) then max_ v ∈ l else max_ v = limits_min.
Proof.
  intros Hl Hmost v. destruct (append_all_min empty_accum l) as [Hmin Hinmin].
  destruct (append_all_max empty_accum l) as [Hmax Hinmax]. fold v in Hmin, Hinmin, Hmax, Hinmax.
  clearbody v. cbn [empty_accum min_ max_] in *. rewrite Forall_forall in Hmost.
  split_and!.
  - apply elem_of_cons in Hinmin as [He|?]; [|done].
    destruct l as [|x l]; [done|]. apply elem_of_cons. left.
    assert (min_ v <= x) by (apply Hmin; auto). rewrite He in *.
    apply Qcle_antisym; [done|]. apply Hmost. auto.
  - apply Forall_forall. intros x Hx. apply Hmin. auto.
  - apply Forall_forall. intros x Hx. apply Hmax. auto.
  - apply elem_of_cons in Hinmax as [He|Hin]; case_decide as Hex.
    + apply Exists_exists in Hex as (x & Hx & Hle).
      rewrite He. replace (limits_min : Qc) with x; [done|].
      apply Qcle_antisym; [|done]. rewrite <- He. apply Hmax. auto.
    + done.
    + done.
    + exfalso. apply Hex, Exists_exists. exists (max_ v). split; [done|]. apply Hmax. auto.
Qed.

Lemma accum_extremes_witness : min_ (append_all empty_accum (Q2Qc <$> [-3; 5; 2]%Q)) ∈ (Q2Qc <$> [-3; 5; 2]%Q).
Proof.
  apply accum_extremes; [done|]. repeat constructor; intros Hc; vm_compute in Hc; discriminate.
Defined.

(** On doubles: if all values are negative, the greatest is reported to be the least
    positive normalised number, which is none of them. *)
Theorem max_of_negatives (l : list double) :
  Forall (fun x => exists m e, x = S754_finite true m e) l ->
  max_ (append_all empty_accum l) = limits_min.
Proof.
  intros Hl. assert (max_ (empty_accum (T:=double)) = limits_min) as Hv by done.
  revert Hv. generalize (empty_accum (T:=double)). induction Hl as [|x l (m & e & ->) Hl IH]; intros v Hv; [done|].
  apply IH. cbn [append max_]. by rewrite Hv.
Qed.

Lemma max_of_negatives_witness :
  max_ (append_all empty_accum [double_of_Z (-3); double_of_Z (-5)]) = limits_min.
Proof. apply max_of_negatives. repeat constructor; by eexists _, _. Defined.

(** The values of the program's own test. *)
Definition sample : VarAccum double :=
  append_all empty_accum (double_of_Z <$> [1345; 1301; 1368; 1322; 1310; 1370; 1318; 1350; 1303; 1299]%Z).

Definition within (d lo hi : double) : bool := dleb lo d && dleb d hi.

Example sample_statistics :
  let tenth n := ddiv (double_of_Z n) (double_of_Z 10000000) in
  size_ sample = 10%Z /\ min_ sample = double_of_Z 1299 /\ max_ sample = double_of_Z 1370
  /\ within (mean_ sample) (tenth 13285999999%Z) (tenth 13286000001%Z) = true
  /\ within (default S754_nan (var sample)) (tenth 7542666666%Z) (tenth 7542666668%Z) = true
  /\ within (stdev sample) (tenth 274639157%Z) (tenth 274639158%Z) = true
  /\ within (stdevp sample) (tenth 260545581%Z) (tenth 260545582%Z) = true.
Proof. vm_compute. auto 10. Qed.
