(* ===== verification/MpmcQueue.v ===== *)
(** * Bounded multi-producer multi-consumer queue

    Models [toolbox/ipc/MpmcQueue.hpp] as a transition system: the shared memory
    (the two positions, and a sequence number and a value for each element) and a
    program counter for each thread.  One step of a thread is one access to shared
    memory, so the interleavings of the model are those of the atomic operations
    of the code under sequential consistency; a [compare_exchange] may fail
    spuriously, as the weak operation of the code may.  The mapping of the file
    into memory is not modelled. *)
From stdpp Require Import functions.
From S2P Require Import Prelude Math.

Section queue.
Context {V : Type}.

(** ** Shared memory and threads *)

(** Where a thread is inside [push] (W), [pop] (R), or [size] (S). *)
Inductive pc :=
| Idle
| WLoad (v : V)                  (* about to load wpos *)
| WSeq (v : V) (pos : Z)         (* about to load elem.seq *)
| WCas (v : V) (pos : Z)         (* about to compare_exchange wpos *)
| WFill (v : V) (pos : Z)        (* about to write elem.val *)
| WCommit (pos : Z)              (* about to store elem.seq *)
| RLoad
| RSeq (pos : Z)
| RCas (pos : Z)
| RTake (pos : Z)                (* about to read elem.val *)
| RCommit (pos : Z) (v : V)      (* about to store elem.seq, v was read *)
| SLoadR                         (* about to load rpos *)
| SLoadW (rpos : Z).             (* about to load wpos *)

Record state := mkState {
  capacity_ : Z;
  mask_ : Z;
  rpos : Z;
  wpos : Z;
  seqs : Z -> Z;
  vals : Z -> V;
  pcs : nat -> pc
}.

(** What a step shows: the points where a value enters the queue and is claimed,
    and the results of the calls. *)
Inductive label :=
| LNone
| LEnqueue (v : V)
| LClaim (t : nat)
| LPopped (t : nat) (v : V)
| LPopFailed (t : nat)
| LPushFailed (t : nat)
| LSize (t : nat) (n : Z).

Definition set_pc (s : state) (t : nat) (p : pc) : state :=
  mkState (capacity_ s) (mask_ s) (rpos s) (wpos s) (seqs s) (vals s) (<[t := p]> (pcs s)).
Definition set_rpos (s : state) (pos : Z) : state :=
  mkState (capacity_ s) (mask_ s) pos (wpos s) (seqs s) (vals s) (pcs s).
Definition set_wpos (s : state) (pos : Z) : state :=
  mkState (capacity_ s) (mask_ s) (rpos s) pos (seqs s) (vals s) (pcs s).
Definition set_seq (s : state) (i seq : Z) : state :=
  mkState (capacity_ s) (mask_ s) (rpos s) (wpos s) (<[i := seq]> (seqs s)) (vals s) (pcs s).
Definition set_val (s : state) (i : Z) (v : V) : state :=
  mkState (capacity_ s) (mask_ s) (rpos s) (wpos s) (seqs s) (<[i := v]> (vals s)) (pcs s).

(** [elems[pos & mask_]]: the signed position is converted to unsigned. *)
Definition elem_index (s : state) (pos : Z) : Z := Z.land (u64 pos) (mask_ s).

(** ** Steps *)

(** One step of [push]; [spurious] is the failure of a weak exchange. *)
Definition push_step (s : state) (t : nat) (spurious : bool) : option (label * state) :=
  match pcs s t with
  | WLoad v => Some (LNone, set_pc s t (WSeq v (wpos s)))
  | WSeq v pos =>
      let seq := seqs s (elem_index s pos) in
      let diff := i64 (seq - pos) in
      if diff =? 0 then Some (LNone, set_pc s t (WCas v pos))
      else if diff <? 0 then Some (LPushFailed t, set_pc s t Idle)
      else Some (LNone, set_pc s t (WLoad v))
  | WCas v pos =>
      if (wpos s =? pos) && negb spurious
      then Some (LEnqueue v, set_pc (set_wpos s (i64 (pos + 1))) t (WFill v pos))
      else Some (LNone, set_pc s t (WSeq v (wpos s)))
  | WFill v pos => Some (LNone, set_pc (set_val s (elem_index s pos) v) t (WCommit pos))
  | WCommit pos =>
      Some (LNone, set_pc (set_seq s (elem_index s pos) (i64 (pos + 1))) t Idle)
  | _ => None
  end.

Definition pop_step (s : state) (t : nat) (spurious : bool) : option (label * state) :=
  match pcs s t with
  | RLoad => Some (LNone, set_pc s t (RSeq (rpos s)))
  | RSeq pos =>
      let seq := seqs s (elem_index s pos) in
      let diff := i64 (seq - i64 (pos + 1)) in
      if diff =? 0 then Some (LNone, set_pc s t (RCas pos))
      else if diff <? 0 then Some (LPopFailed t, set_pc s t Idle)
      else Some (LNone, set_pc s t RLoad)
  | RCas pos =>
      if (rpos s =? pos) && negb spurious
      then Some (LClaim t, set_pc (set_rpos s (i64 (pos + 1))) t (RTake pos))
      else Some (LNone, set_pc s t (RSeq (rpos s)))
  | RTake pos => Some (LNone, set_pc s t (RCommit pos (vals s (elem_index s pos))))
  | RCommit pos v =>
      Some (LPopped t v,
            set_pc (set_seq s (elem_index s pos) (i64 (u64 pos + capacity_ s))) t Idle)
  | _ => None
  end.

(** [size] loads the read position before the write position. *)
Definition size_step (s : state) (t : nat) : option (label * state) :=
  match pcs s t with
  | SLoadR => Some (LNone, set_pc s t (SLoadW (rpos s)))
  | SLoadW r => Some (LSize t (u64 (wpos s - r)), set_pc s t Idle)
  | _ => None
  end.

Inductive action :=
| CallPush (t : nat) (v : V)
| CallPop (t : nat)
| CallSize (t : nat)
| Run (t : nat) (spurious : bool).

(** A thread that is idle starts a call; the others take a step of their call. *)
Definition step (a : action) (s : state) : option (label * state) :=
  match a with
  | CallPush t v => match pcs s t with Idle => Some (LNone, set_pc s t (WLoad v)) | _ => None end
  | CallPop t => match pcs s t with Idle => Some (LNone, set_pc s t RLoad) | _ => None end
  | CallSize t => match pcs s t with Idle => Some (LNone, set_pc s t SLoadR) | _ => None end
  | Run t spurious =>
      match push_step s t spurious with
      | Some r => Some r
      | None => match pop_step s t spurious with Some r => Some r | None => size_step s t end
      end
  end.

Fixpoint run (acts : list action) (s : state) : option (list label * state) :=
  match acts with
  | [] => Some ([], s)
  | a :: acts' =>
      '(l, s1) ← step a s;
      '(ls, s2) ← run acts' s1;
      Some (l :: ls, s2)
  end.

(** ** Construction *)

(** Zeroed memory, and the loop that stores [i] in the first [count] sequence
    numbers. *)
Definition zeroed (capacity : Z) (zero : V) : state :=
  mkState capacity (u64 (capacity - 1)) 0 0 (fun _ => 0) (fun _ => zero) (fun _ => Idle).

Definition init_seqs (count : Z) (s : state) : state :=
  foldl (fun s i => set_seq s i i) s (seqZ 0 count).

(** The constructor from a capacity. *)
Definition MpmcQueue (capacity : Z) (zero : V) : option state :=
  capacity' ← next_pow2 capacity;
  Some (init_seqs capacity (zeroed capacity' zero)).

(** [new_mpmc_queue] initialises a file, which the constructor from a file then
    maps. *)
Definition new_mpmc_queue (capacity : Z) (zero : V) : option state :=
  capacity ← next_pow2 capacity;
  Some (init_seqs capacity (zeroed capacity zero)).

End queue.
Arguments pc : clear implicits.
Arguments state : clear implicits.
Arguments label : clear implicits.
Arguments action : clear implicits.

Example push_pop_test :
  match new_mpmc_queue 2 0 with
  | Some s => fst <$> run ([CallPush 1 7; CallPop 2; Run 2 false; Run 2 false]
      ++ replicate 5 (Run 1 false) ++ [CallPop 2] ++ replicate 5 (Run 2 false)) s
  | None => None
  end = Some [LNone; LNone; LNone; LPopFailed 2; LNone; LNone; LEnqueue 7; LNone; LNone;
              LNone; LNone; LNone; LClaim 2; LNone; LPopped 2 7].
Proof. vm_compute. reflexivity. Qed.

(** ** The specification: a bounded queue and the values being delivered *)

Section spec.
Context {V : Type}.

Record fifo := mkFifo { queued : list V; pending : gmap nat V }.

(** A value enters while fewer than [capacity] are queued, the head is claimed by
    a thread, and a thread returns the value that it has claimed. *)
Inductive fifo_step (capacity : Z) : label V -> fifo -> fifo -> Prop :=
| fifo_enqueue v q pend :
    Z.of_nat (length q) < capacity ->
    fifo_step capacity (LEnqueue v) (mkFifo q pend) (mkFifo (q ++ [v]) pend)
| fifo_claim t v q pend :
    pend !! t = None ->
    fifo_step capacity (LClaim t) (mkFifo (v :: q) pend) (mkFifo q (<[t := v]> pend))
| fifo_popped t v q pend :
    pend !! t = Some v ->
    fifo_step capacity (LPopped t v) (mkFifo q pend) (mkFifo q (delete t pend))
| fifo_none f : fifo_step capacity LNone f f
| fifo_pop_failed t f : fifo_step capacity (LPopFailed t) f f
| fifo_push_failed t f : fifo_step capacity (LPushFailed t) f f
| fifo_size t n f : fifo_step capacity (LSize t n) f f.

Inductive fifo_run (capacity : Z) : list (label V) -> fifo -> fifo -> Prop :=
| fifo_run_nil f : fifo_run capacity [] f f
| fifo_run_cons l ls f f1 f2 :
    fifo_step capacity l f f1 -> fifo_run capacity ls f1 f2 -> fifo_run capacity (l :: ls) f f2.
End spec.
Arguments fifo : clear implicits.

(** The values that have entered the queue. *)
Definition enqueued {V} (ls : list (label V)) : list V :=
  omap (fun l => match l with LEnqueue v => Some v | _ => None end) ls.

(** ** The invariant *)

Section invariant.
Context {V : Type}.

(** The position of which a thread owns the element, for writing or reading. *)
Definition owns (p : pc V) : option (bool * Z) :=
  match p with
  | WFill _ pos | WCommit pos => Some (true, pos)
  | RTake pos | RCommit pos _ => Some (false, pos)
  | _ => None
  end.

Definition slot (s : state V) (pos : Z) : Z := pos mod capacity_ s.

(** The element of [j] is on the turn of position [p]: free for the write at [p]
    (not claimed, or claimed by a thread), or holding the value of [p] (not
    claimed, or claimed by a thread). *)
Definition free_at (s : state V) (j p : Z) : Prop :=
  seqs s j = p /\ rpos s <= p < rpos s + capacity_ s
  /\ (wpos s <= p \/ exists t, owns (pcs s t) = Some (true, p)).
Definition holds_at (s : state V) (hist : list V) (j p : Z) : Prop :=
  seqs s j = p + 1 /\ p < wpos s /\ hist !! Z.to_nat p = Some (vals s j)
  /\ (rpos s <= p \/ exists t, owns (pcs s t) = Some (false, p)).
Definition turn (s : state V) (hist : list V) (j p : Z) : Prop :=
  0 <= p /\ p mod capacity_ s = j /\ wpos s <= p + capacity_ s
  /\ (free_at s j p \/ holds_at s hist j p).

Definition thread_ok (s : state V) (hist : list V) (pend : gmap nat V) (t : nat) (p : pc V) : Prop :=
  match p with
  | WSeq _ pos => 0 <= pos <= wpos s
  | WCas _ pos => 0 <= pos <= wpos s /\ (wpos s = pos -> seqs s (slot s pos) = pos)
  | WFill v pos =>
      0 <= pos < wpos s /\ seqs s (slot s pos) = pos /\ hist !! Z.to_nat pos = Some v
  | WCommit pos =>
      0 <= pos < wpos s /\ seqs s (slot s pos) = pos
      /\ hist !! Z.to_nat pos = Some (vals s (slot s pos))
  | RSeq pos => 0 <= pos <= rpos s
  | RCas pos => 0 <= pos <= rpos s /\ (rpos s = pos -> seqs s (slot s pos) = pos + 1)
  | RTake pos =>
      0 <= pos < rpos s /\ seqs s (slot s pos) = pos + 1
      /\ pend !! t = Some (vals s (slot s pos)) /\ pend !! t = hist !! Z.to_nat pos
  | RCommit pos v => 0 <= pos < rpos s /\ seqs s (slot s pos) = pos + 1 /\ pend !! t = Some v
  | SLoadW r => 0 <= r <= rpos s
  | _ => True
  end.

Definition claims (p : pc V) : bool :=
  match p with RTake _ | RCommit _ _ => true | _ => false end.

Record inv (s : state V) (hist : list V) (pend : gmap nat V) : Prop := {
  inv_cap : 2 <= capacity_ s < 2 ^ 62;
  inv_mask : forall pos, 0 <= pos < 2 ^ 63 -> elem_index s pos = slot s pos;
  inv_wpos : wpos s = Z.of_nat (length hist);
  inv_rpos : 0 <= rpos s <= wpos s;
  inv_size : wpos s <= rpos s + capacity_ s;
  inv_turn : forall j, 0 <= j < capacity_ s -> exists p, turn s hist j p;
  inv_threads : forall t, thread_ok s hist pend t (pcs s t);
  inv_unique : forall t t' x, owns (pcs s t) = Some x -> owns (pcs s t') = Some x -> t = t';
  inv_pending : forall t, claims (pcs s t) = false -> pend !! t = None
}.

(** Positions of one element are at least the capacity apart. *)
Lemma mod_distinct p q c : 0 < c -> p mod c = q mod c -> p < q -> p + c <= q.
Proof.
  intros Hc E Hlt. pose proof (Z.div_mod p c). pose proof (Z.div_mod q c).
  assert (p / c < q / c) by nia. nia.
Qed.

Lemma mod_succ_distinct p q c : 2 <= c -> p mod c = q mod c -> p <> q + 1.
Proof.
  intros Hc E ->. rewrite Zplus_mod in E.
  pose proof (Z.mod_pos_bound q c ltac:(lia)).
  rewrite (Z.mod_small 1 c) in E by lia.
  destruct (decide (q mod c + 1 = c)) as [E1 | ?].
  - rewrite E1, Z_mod_same_full in E. lia.
  - rewrite (Z.mod_small (q mod c + 1)) in E by lia. lia.
Qed.

Lemma slot_range s pos : 0 < capacity_ s -> 0 <= slot s pos < capacity_ s.
Proof. intros. by apply Z.mod_pos_bound. Qed.

(** The element of a position whose sequence number is that position is free. *)
Lemma turn_free s hist p pos :
  2 <= capacity_ s -> turn s hist (slot s pos) p -> seqs s (slot s pos) = pos -> 
  p = pos /\ free_at s (slot s pos) pos.
Proof.
  intros Hc (Hp & Hm & _ & [Hf | Hh]) Hs.
  - destruct Hf as (E & Hr). assert (p = pos) as -> by congruence. by split.
  - destruct Hh as (E & _). exfalso. apply (mod_succ_distinct pos p (capacity_ s)); [done | | lia].
    by rewrite Hm.
Qed.

Lemma turn_holds s hist p pos :
  2 <= capacity_ s -> turn s hist (slot s pos) p -> seqs s (slot s pos) = pos + 1 ->
  p = pos /\ holds_at s hist (slot s pos) pos.
Proof.
  intros Hc (Hp & Hm & _ & [Hf | Hh]) Hs.
  - destruct Hf as (E & _). exfalso. apply (mod_succ_distinct p pos (capacity_ s)); [done | | lia].
    by rewrite Hm.
  - destruct Hh as (E & Hr). assert (p = pos) as -> by lia. by split.
Qed.

(** *** Steps that change only a program counter *)

Lemma insert_pc_eq (f : nat -> pc V) t p : (<[t := p]> f) t = p.
Proof. apply fn_lookup_insert. Qed.
Lemma insert_pc_ne (f : nat -> pc V) t t' p : t <> t' -> (<[t := p]> f) t' = f t'.
Proof. apply fn_lookup_insert_ne. Qed.

(** An owner other than [t] is still one. *)
Lemma owner_kept (f : nat -> pc V) t p x :
  owns (f t) <> Some x -> (exists t', owns (f t') = Some x) ->
  exists t', owns ((<[t := p]> f) t') = Some x.
Proof.
  intros Hn [t' Ht']. exists t'. rewrite insert_pc_ne; [done|]. by intros ->.
Qed.

Lemma unique_kept (f : nat -> pc V) t p :
  (forall t1 t2 x, owns (f t1) = Some x -> owns (f t2) = Some x -> t1 = t2) ->
  owns p = None \/ owns p = owns (f t) ->
  forall t1 t2 x, owns ((<[t := p]> f) t1) = Some x -> owns ((<[t := p]> f) t2) = Some x -> t1 = t2.
Proof.
  intros Hu Hp t1 t2 x. 
  destruct (decide (t = t1)) as [<- | ?], (decide (t = t2)) as [<- | ?];
    rewrite ?insert_pc_eq, ?insert_pc_ne by done; try done; try apply Hu;
    destruct Hp as [-> | ->]; try done; apply Hu.
Qed.

Lemma thread_ok_set_pc s hist pend t0 p0 t p :
  thread_ok (set_pc s t0 p0) hist pend t p = thread_ok s hist pend t p.
Proof. by destruct p. Qed.

Lemma inv_set_pc s hist pend t p :
  inv s hist pend -> owns (pcs s t) = None -> owns p = None ->
  thread_ok s hist pend t p -> inv (set_pc s t p) hist pend.
Proof.
  intros [Hc Hm Hw Hr Hs Ht Hth Hu Hp] Ho Ho' Hok. split; try done.
  - intros j Hj. destruct (Ht j Hj) as (q & Hq & Hqj & Hqw & Hturn). exists q.
    split; [done|]. split; [done|]. split; [done|].
    destruct Hturn as [(E & Hqr & Hcl) | (E & Hqw' & Hval & Hcl)]; [left | right].
    + split; [done|]. split; [done|]. cbn. destruct Hcl as [? | Hex]; [by left|]. right.
      apply owner_kept; [congruence | done].
    + split; [done|]. split; [done|]. split; [done|]. cbn. destruct Hcl as [? | Hex]; [by left|].
      right. apply owner_kept; [congruence | done].
  - intros t'. rewrite thread_ok_set_pc. cbn. destruct (decide (t = t')) as [<- | ?].
    + by rewrite insert_pc_eq.
    + by rewrite insert_pc_ne.
  - cbn. apply unique_kept; [done | by left].
  - intros t'. cbn. destruct (decide (t = t')) as [<- | ?].
    + rewrite insert_pc_eq. intros _. apply Hp. by destruct (pcs s t).
    + rewrite insert_pc_ne by done. apply Hp.
Qed.

(** *** The write of an element *)

Lemma inv_enqueue s hist pend t v :
  inv s hist pend -> pcs s t = WCas v (wpos s) -> wpos s < rpos s + capacity_ s
    /\ inv (set_pc (set_wpos s (wpos s + 1)) t (WFill v (wpos s))) (hist ++ [v]) pend.
Proof.
  intros [Hc Hm Hw Hr Hs Ht Hth Hu Hp] E.
  pose proof (Hth t) as Hcas. rewrite E in Hcas. destruct Hcas as [_ Hseq]. specialize (Hseq eq_refl).
  pose proof (slot_range s (wpos s) ltac:(lia)) as Hsl.
  destruct (Ht _ Hsl) as (p0 & Hturn0).
  destruct (turn_free s hist p0 (wpos s) ltac:(lia) Hturn0 Hseq) as [-> (_ & Hfr & _)].
  split; [lia|]. split; cbn [set_pc set_wpos capacity_ mask_ rpos wpos seqs vals pcs]; try done; try lia.
  - rewrite length_app. cbn. lia.
  - intros j Hj. destruct (decide (j = slot s (wpos s))) as [-> | Hne].
    + exists (wpos s). split; [lia|]. split; [done|]. split; [cbn; lia|]. left.
      split; [done|]. split; [cbn; lia|]. right. exists t. cbn. by rewrite insert_pc_eq.
    + destruct (Ht j Hj) as (q & Hq & Hqj & Hqw & Hturn). exists q.
      split; [done|]. split; [done|]. cbn.
      assert (wpos s <> q + capacity_ s).
      { intros Heq. apply Hne. unfold slot. rewrite Heq, <- Hqj.
        rewrite <- (Z.mul_1_l (capacity_ s)) at 2. by rewrite Z_mod_plus_full. }
      split; [lia|]. destruct Hturn as [(Eq & Hqr & Hcl) | (Eq & Hqw' & Hval & Hcl)]; [left | right].
      * split; [done|]. split; [done|]. cbn. destruct Hcl as [? | Hex].
        -- left. assert (q <> wpos s); [|lia]. intros ->. by apply Hne.
        -- right. apply owner_kept; [by rewrite E | done].
      * split; [done|]. split; [cbn; lia|]. cbn. split; [by apply lookup_app_l_Some|].
        destruct Hcl as [? | Hex]; [by left|]. right. apply owner_kept; [by rewrite E | done].
  - intros t'. destruct (decide (t = t')) as [<- | Hne].
    + rewrite insert_pc_eq. cbn. split; [lia|]. split; [done|].
      rewrite lookup_app_r by lia. by replace (Z.to_nat (wpos s) - length hist)%nat with 0%nat by lia.
    + rewrite insert_pc_ne by done. pose proof (Hth t') as Hok.
      destruct (pcs s t'); cbn in *; try done; try lia.
      * destruct Hok as (? & ? & ?). split_and!; [lia | lia | done | by apply lookup_app_l_Some].
      * destruct Hok as (? & ? & ?). split_and!; [lia | lia | done | by apply lookup_app_l_Some].
      * destruct Hok as (? & ? & Hv & Hh). split_and!; [lia | lia | done | done |].
        rewrite Hh, lookup_app_l by lia. done.
  - intros t1 t2 x. 
    destruct (decide (t = t1)) as [<- | H1], (decide (t = t2)) as [<- | H2];
      rewrite ?insert_pc_eq, ?insert_pc_ne by done; try done; try apply Hu; cbn.
    + intros [= <-] Ho. pose proof (Hth t2) as Hok. destruct (pcs s t2); cbn in *; try done;
        injection Ho as ->; lia.
    + intros Ho [= <-]. pose proof (Hth t1) as Hok. destruct (pcs s t1); cbn in *; try done;
        injection Ho as ->; lia.
  - intros t'. destruct (decide (t = t')) as [<- | ?].
    + rewrite insert_pc_eq. intros _. apply Hp. by rewrite E.
    + rewrite insert_pc_ne by done. apply Hp.
Qed.

Lemma inv_fill s hist pend t v pos :
  inv s hist pend -> pcs s t = WFill v pos ->
  inv (set_pc (set_val s (slot s pos) v) t (WCommit pos)) hist pend.
Proof.
  intros [Hc Hm Hw Hr Hs Ht Hth Hu Hp] E.
  pose proof (Hth t) as Hok. rewrite E in Hok. destruct Hok as (Hpos & Hseq & Hv).
  split; cbn [set_pc set_val capacity_ mask_ rpos wpos seqs vals pcs]; try done.
  - intros j Hj. destruct (Ht j Hj) as (q & Hq & Hqj & Hqw & Hturn). exists q.
    split; [done|]. split; [done|]. split; [done|].
    assert (forall x, (exists t', owns (pcs s t') = Some x) ->
              exists t', owns ((<[t := WCommit pos]> (pcs s)) t') = Some x) as Hkeep.
    { intros x [t' Ht']. destruct (decide (t = t')) as [<- | ?].
      - exists t. rewrite insert_pc_eq. by rewrite E in Ht'.
      - exists t'. by rewrite insert_pc_ne. }
    destruct Hturn as [(Eq & Hqr & Hcl) | (Eq & Hqw' & Hval & Hcl)]; [left | right].
    + split; [done|]. split; [done|]. cbn. destruct Hcl as [? | Hex]; [by left | right; eauto].
    + split; [done|]. split; [done|]. cbn. split.
      * rewrite fn_lookup_insert_ne; [done|]. intros <-.
        apply (mod_succ_distinct pos q (capacity_ s)); [lia | by rewrite Hqj | congruence].
      * destruct Hcl as [? | Hex]; [by left | right; eauto].
  - intros t'. destruct (decide (t = t')) as [<- | Hne].
    + rewrite insert_pc_eq. cbn. split; [done|]. split; [done|]. by rewrite fn_lookup_insert.
    + rewrite insert_pc_ne by done. pose proof (Hth t') as Hok.
      assert (forall pos', owns (pcs s t') = Some (true, pos') -> seqs s (slot s pos') = pos' ->
                slot s pos <> slot s pos') as Hw1.
      { intros pos' Ho Hs' Heq. apply Hne. apply (Hu t t' (true, pos)); [by rewrite E|].
        rewrite Ho. do 2 f_equal. congruence. }
      assert (forall pos', seqs s (slot s pos') = pos' + 1 -> slot s pos <> slot s pos') as Hr1.
      { intros pos' Hs' Heq. apply (mod_succ_distinct pos pos' (capacity_ s)); [lia | done |].
        congruence. }
      destruct (pcs s t'); cbn in *; try done.
      * destruct Hok as (? & ? & ?). split_and!; try (done || lia).
        by rewrite fn_lookup_insert_ne by (by apply Hw1).
      * destruct Hok as (? & ? & ? & ?). split_and!; try (done || lia).
        by rewrite fn_lookup_insert_ne by (by apply Hr1).
  - apply unique_kept; [done | right; by rewrite E].
  - intros t'. destruct (decide (t = t')) as [<- | ?].
    + rewrite insert_pc_eq. intros _. apply Hp. by rewrite E.
    + rewrite insert_pc_ne by done. apply Hp.
Qed.

(** The sequence number tells the position and the side of the element. *)
Lemma same_elem s (b b' : bool) pos pos' :
  2 <= capacity_ s ->
  seqs s (slot s pos) = (if b then pos else pos + 1) ->
  seqs s (slot s pos') = (if b' then pos' else pos' + 1) ->
  slot s pos = slot s pos' -> b = b' /\ pos = pos'.
Proof.
  intros Hc Hs Hs' Heq. rewrite <- Heq, Hs in Hs'.
  destruct b, b'; try (split; [done | lia]); exfalso.
  - by apply (mod_succ_distinct pos pos' (capacity_ s)).
  - by apply (mod_succ_distinct pos' pos (capacity_ s)).
Qed.

(** Storing the sequence number of an owned element disturbs no other thread. *)
Lemma threads_commit s hist pend t (b : bool) pos seq pend' :
  2 <= capacity_ s -> (forall t, thread_ok s hist pend t (pcs s t)) ->
  (forall t1 t2 x, owns (pcs s t1) = Some x -> owns (pcs s t2) = Some x -> t1 = t2) ->
  owns (pcs s t) = Some (b, pos) -> seqs s (slot s pos) = (if b then pos else pos + 1) ->
  pos < (if b then wpos s else rpos s) ->
  (forall t', t <> t' -> pend' !! t' = pend !! t') ->
  forall t', thread_ok (set_seq s (slot s pos) seq) hist pend' t' (<[t := Idle]> (pcs s) t').
Proof.
  intros Hc Hth Hu Ho Hseq Hlt Hpend t'.
  destruct (decide (t = t')) as [<- | Hne]; [by rewrite insert_pc_eq|].
  rewrite insert_pc_ne by done. pose proof (Hth t') as Hok. specialize (Hpend t' Hne).
  assert (forall b' pos', seqs s (slot s pos') = (if b' : bool then pos' else pos' + 1) ->
            owns (pcs s t') = Some (b', pos') \/ pos' = (if b' then wpos s else rpos s) ->
            slot s pos <> slot s pos') as Hdiff.
  { intros b' pos' Hs' Hcase Heq. destruct (same_elem s b b' pos pos' Hc Hseq Hs' Heq) as [<- <-].
    destruct Hcase as [Ho' | ->]; [|destruct b; lia]. apply Hne. by apply (Hu t t' (b, pos)). }
  destruct (pcs s t') eqn:Et; cbn in *; try done; rewrite ?Hpend;
    [destruct Hok as [? Hs]; split; [done|]; intros Hp; specialize (Hs Hp)
    | destruct Hok as (? & Hs & ?).. | destruct Hok as [? Hs]; split; [done|]; intros Hp; specialize (Hs Hp)
    | destruct Hok as (? & Hs & ? & ?) | destruct Hok as (? & Hs & ?)];
    split_and?; try (done || lia);
    change (slot (set_seq _ _ _) ?x) with (slot s x);
    (rewrite fn_lookup_insert_ne; [done|]).
  - apply (Hdiff true); [done | by right].
  - apply (Hdiff true); [done | by left].
  - apply (Hdiff true); [done | by left].
  - apply (Hdiff false); [done | by right].
  - apply (Hdiff false); [done | by left].
  - apply (Hdiff false); [done | by left].
Qed.

Lemma inv_write_commit s hist pend t pos :
  inv s hist pend -> pcs s t = WCommit pos ->
  inv (set_pc (set_seq s (slot s pos) (pos + 1)) t Idle) hist pend.
Proof.
  intros [Hc Hm Hw Hr Hs Ht Hth Hu Hp] E.
  pose proof (Hth t) as Hok. rewrite E in Hok. destruct Hok as (Hpos & Hseq & Hv).
  split; cbn [set_pc set_seq capacity_ mask_ rpos wpos seqs vals pcs]; try done.
  - intros j Hj. destruct (Ht j Hj) as (q & Hturn). exists q.
    destruct (decide (slot s pos = j)) as [<- | Hne].
    + destruct (turn_free s hist q pos ltac:(lia) Hturn Hseq) as [-> (_ & Hfr & _)].
      destruct Hturn as (Hq & Hqj & Hqw & _). split; [done|]. split; [done|]. split; [done|].
      right. split; cbn; [by rewrite fn_lookup_insert|]. split; [lia|]. split; [done | left; lia].
    + destruct Hturn as (Hq & Hqj & Hqw & Hturn). split; [done|]. split; [done|]. split; [done|].
      assert (owns (pcs s t) <> Some (true, q) /\ owns (pcs s t) <> Some (false, q)) as [? ?].
      { rewrite E. split; [|done]. intros [= ->]. by apply Hne. }
      destruct Hturn as [(Eq & Hqr & Hcl) | (Eq & Hqw' & Hval & Hcl)]; [left | right];
        (split; cbn; [by rewrite fn_lookup_insert_ne|]).
      * split; [done|]. destruct Hcl as [? | Hex]; [by left | right; by apply owner_kept].
      * split; [done|]. split; [done|].
        destruct Hcl as [? | Hex]; [by left | right; by apply owner_kept].
  - apply (threads_commit s hist pend t true pos); try (done || lia). by rewrite E.
  - apply unique_kept; [done | by left].
  - intros t'. destruct (decide (t = t')) as [<- | ?].
    + intros _. apply Hp. by rewrite E.
    + rewrite insert_pc_ne by done. apply Hp.
Qed.

(** *** The read of an element *)

Lemma inv_claim s hist pend t :
  inv s hist pend -> pcs s t = RCas (rpos s) ->
  exists v, hist !! Z.to_nat (rpos s) = Some v /\ rpos s < wpos s
    /\ inv (set_pc (set_rpos s (rpos s + 1)) t (RTake (rpos s))) hist (<[t := v]> pend).
Proof.
  intros [Hc Hm Hw Hr Hs Ht Hth Hu Hp] E.
  pose proof (Hth t) as Hcas. rewrite E in Hcas. destruct Hcas as [_ Hseq]. specialize (Hseq eq_refl).
  pose proof (slot_range s (rpos s) ltac:(lia)) as Hsl.
  destruct (Ht _ Hsl) as (p0 & Hturn0).
  destruct (turn_holds s hist p0 (rpos s) ltac:(lia) Hturn0 Hseq) as [-> (_ & Hlt & Hv & _)].
  exists (vals s (slot s (rpos s))). split; [done|]. split; [done|].
  split; cbn [set_pc set_rpos capacity_ mask_ rpos wpos seqs vals pcs]; try (done || lia).
  - intros j Hj. destruct (Ht j Hj) as (q & Hq & Hqj & Hqw & Hturn). exists q.
    split; [done|]. split; [done|]. split; [done|].
    destruct Hturn as [(Eq & Hqr & Hcl) | (Eq & Hqw' & Hval & Hcl)]; [left | right].
    + split; [done|]. cbn. assert (q <> rpos s).
      { intros ->. unfold slot in Hseq. rewrite Hqj in Hseq. lia. }
      split; [lia|]. destruct Hcl as [? | Hex]; [by left|]. right.
      apply owner_kept; [by rewrite E | done].
    + split; [done|]. split; [done|]. split; [done|]. cbn. destruct Hcl as [? | Hex].
      * destruct (decide (q = rpos s)) as [-> | ?]; [|left; lia].
        right. exists t. by rewrite insert_pc_eq.
      * right. apply owner_kept; [by rewrite E | done].
  - intros t'. destruct (decide (t = t')) as [<- | Hne].
    + rewrite insert_pc_eq. cbn. rewrite lookup_insert_eq. split_and!; (done || lia).
    + rewrite insert_pc_ne by done. pose proof (Hth t') as Hok.
      destruct (pcs s t'); cbn in *; rewrite ?lookup_insert_ne by done; try (done || lia).
      * destruct Hok as (? & ? & ? & ?). split_and!; (done || lia).
      * destruct Hok as (? & ? & ?). split_and!; (done || lia).
  - intros t1 t2 x.
    destruct (decide (t = t1)) as [<- | H1], (decide (t = t2)) as [<- | H2];
      rewrite ?insert_pc_eq, ?insert_pc_ne by done; try done; try apply Hu; cbn.
    + intros [= <-] Ho. pose proof (Hth t2) as Hok. destruct (pcs s t2); cbn in *; try done;
        injection Ho as ->; lia.
    + intros Ho [= <-]. pose proof (Hth t1) as Hok. destruct (pcs s t1); cbn in *; try done;
        injection Ho as ->; lia.
  - intros t'. destruct (decide (t = t')) as [<- | ?].
    + by rewrite insert_pc_eq.
    + rewrite insert_pc_ne, lookup_insert_ne by done. apply Hp.
Qed.

Lemma inv_take s hist pend t pos :
  inv s hist pend -> pcs s t = RTake pos ->
  inv (set_pc s t (RCommit pos (vals s (slot s pos)))) hist pend.
Proof.
  intros [Hc Hm Hw Hr Hs Ht Hth Hu Hp] E.
  pose proof (Hth t) as Hok. rewrite E in Hok. destruct Hok as (Hpos & Hseq & Hv & _).
  split; cbn [set_pc capacity_ mask_ rpos wpos seqs vals pcs]; try done.
  - intros j Hj. destruct (Ht j Hj) as (q & Hq & Hqj & Hqw & Hturn). exists q.
    split; [done|]. split; [done|]. split; [done|].
    assert (forall x, (exists t', owns (pcs s t') = Some x) -> exists t',
      owns ((<[t := RCommit pos (vals s (slot s pos))]> (pcs s)) t') = Some x) as Hkeep.
    { intros x [t' Ht']. destruct (decide (t = t')) as [<- | ?].
      - exists t. rewrite insert_pc_eq. by rewrite E in Ht'.
      - exists t'. by rewrite insert_pc_ne. }
    destruct Hturn as [(Eq & Hqr & Hcl) | (Eq & Hqw' & Hval & Hcl)]; [left | right];
      (split; [done|]; split; [done|]; try split; cbn; try done;
       destruct Hcl as [? | Hex]; [by left | right; eauto]).
  - intros t'. rewrite thread_ok_set_pc. destruct (decide (t = t')) as [<- | Hne].
    + by rewrite insert_pc_eq.
    + by rewrite insert_pc_ne.
  - apply unique_kept; [done | right; by rewrite E].
  - intros t'. destruct (decide (t = t')) as [<- | ?].
    + by rewrite insert_pc_eq.
    + rewrite insert_pc_ne by done. apply Hp.
Qed.

Lemma inv_read_commit s hist pend t pos v :
  inv s hist pend -> pcs s t = RCommit pos v ->
  pend !! t = Some v
  /\ inv (set_pc (set_seq s (slot s pos) (pos + capacity_ s)) t Idle) hist (delete t pend).
Proof.
  intros [Hc Hm Hw Hr Hs Ht Hth Hu Hp] E.
  pose proof (Hth t) as Hok. rewrite E in Hok. destruct Hok as (Hpos & Hseq & Hv).
  split; [done|]. split; cbn [set_pc set_seq capacity_ mask_ rpos wpos seqs vals pcs]; try done.
  - intros j Hj. destruct (Ht j Hj) as (q & Hturn).
    destruct (decide (slot s pos = j)) as [<- | Hne].
    + destruct (turn_holds s hist q pos ltac:(lia) Hturn Hseq) as [-> _].
      destruct Hturn as (Hq & Hqj & Hqw & _). exists (pos + capacity_ s). cbn.
      split; [lia|]. split.
      { rewrite <- (Z.mul_1_l (capacity_ s)) at 1. by rewrite Z_mod_plus_full. }
      split; [cbn; lia|]. left. split; cbn; [by rewrite fn_lookup_insert|]. split; [lia | left; lia].
    + exists q. destruct Hturn as (Hq & Hqj & Hqw & Hturn). split; [done|]. split; [done|]. split; [done|].
      assert (owns (pcs s t) <> Some (true, q) /\ owns (pcs s t) <> Some (false, q)) as [? ?].
      { rewrite E. split; [done|]. intros [= ->]. by apply Hne. }
      destruct Hturn as [(Eq & Hqr & Hcl) | (Eq & Hqw' & Hval & Hcl)]; [left | right];
        (split; cbn; [by rewrite fn_lookup_insert_ne|]).
      * split; [done|]. destruct Hcl as [? | Hex]; [by left | right; by apply owner_kept].
      * split; [done|]. split; [done|].
        destruct Hcl as [? | Hex]; [by left | right; by apply owner_kept].
  - apply (threads_commit s hist pend t false pos); try (done || lia); [by rewrite E|].
    intros t' ?. by rewrite lookup_delete_ne.
  - apply unique_kept; [done | by left].
  - intros t'. destruct (decide (t = t')) as [<- | ?].
    + by rewrite lookup_delete_eq.
    + rewrite insert_pc_ne, lookup_delete_ne by done. apply Hp.
Qed.
End invariant.

(** ** Refinement *)

Section refinement.
Context {V : Type}.

Definition abstract (s : state V) (hist : list V) (pend : gmap nat V) : fifo V :=
  mkFifo (drop (Z.to_nat (rpos s)) hist) pend.

(** What a step preserves, and how it looks to the specification. *)
Definition simulated (s : state V) (hist : list V) (pend : gmap nat V) (l : label V)
    (s' : state V) : Prop :=
  exists pend', inv s' (hist ++ enqueued [l]) pend' /\ capacity_ s' = capacity_ s
    /\ fifo_step (capacity_ s) l (abstract s hist pend) (abstract s' (hist ++ enqueued [l]) pend').

Lemma simulated_pc s hist pend t p l :
  inv s hist pend -> owns (pcs s t) = None -> owns p = None -> thread_ok s hist pend t p ->
  (match l with LEnqueue _ | LClaim _ | LPopped _ _ => False | _ => True end) ->
  simulated s hist pend l (set_pc s t p).
Proof.
  intros Hi Ho Ho' Hok Hl. exists pend.
  assert (enqueued [l] = []) as -> by (by destruct l). rewrite app_nil_r.
  split; [by apply inv_set_pc|]. split; [done|].
  unfold abstract. cbn. destruct l; try done; constructor.
Qed.

Lemma push_step_simulated s hist pend t spurious l s' :
  inv s hist pend -> Z.of_nat (length hist) < 2 ^ 62 ->
  push_step s t spurious = Some (l, s') -> simulated s hist pend l s'.
Proof.
  intros Hi Hb. pose proof Hi as [Hc Hm Hw Hr Hs _ Hth _ _]. specialize (Hth t).
  unfold push_step. destruct (pcs s t) as [| v | v pos | v pos | v pos | pos | | | | | | |] eqn:E;
    try done; cbn in Hth.
  - intros [= <- <-]. apply simulated_pc; cbn; rewrite ?E; (done || lia).
  - rewrite Hm by lia. destruct (Z.eqb_spec (i64 (seqs s (slot s pos) - pos)) 0) as [Hd | Hd].
    + intros [= <- <-]. apply simulated_pc; rewrite ?E; try done. cbn. split; [done|].
      intros Hpos. destruct (inv_turn _ _ _ Hi (slot s pos) (slot_range s pos ltac:(lia)))
        as (q & Hq & Hqj & Hqw & Hturn).
      assert (- 2 ^ 63 <= seqs s (slot s pos) - pos < 2 ^ 63) as Hsm.
      { destruct Hturn as [(-> & ? & _) | (-> & ? & _)]; lia. }
      rewrite wraps_small in Hd; [lia | lia | exact Hsm].
    + destruct (_ <? 0); intros [= <- <-]; (apply simulated_pc; rewrite ?E; done).
  - destruct (Z.eqb_spec (wpos s) pos) as [<- | Hne]; cbn [andb].
    2: { intros [= <- <-]. apply simulated_pc; rewrite ?E; try done. cbn. lia. }
    destruct spurious; cbn [negb]; intros [= <- <-].
    { apply simulated_pc; rewrite ?E; try done. cbn. lia. }
    destruct (inv_enqueue s hist pend t v Hi E) as [Hfree Hi'].
    rewrite wraps_small; [|lia | cbn -[Z.pow]; lia].
    exists pend. split; [done|]. split; [done|]. unfold abstract. cbn.
    rewrite drop_app_le by lia. constructor. rewrite length_drop. lia.
  - intros [= <- <-]. rewrite Hm by lia. exists pend. rewrite app_nil_r.
    split; [by apply (inv_fill s hist pend t v pos)|]. split; [done|]. constructor.
  - intros [= <- <-]. rewrite Hm by lia. rewrite wraps_small; [|lia | cbn -[Z.pow]; lia].
    exists pend. rewrite app_nil_r.
    split; [by apply inv_write_commit|]. split; [done|]. constructor.
Qed.

Lemma pop_step_simulated s hist pend t spurious l s' :
  inv s hist pend -> Z.of_nat (length hist) < 2 ^ 62 ->
  pop_step s t spurious = Some (l, s') -> simulated s hist pend l s'.
Proof.
  intros Hi Hb. pose proof Hi as [Hc Hm Hw Hr Hs _ Hth _ _]. specialize (Hth t).
  unfold pop_step. destruct (pcs s t) as [| | | | | | | pos | pos | pos | pos v | |] eqn:E;
    try done; cbn in Hth.
  - intros [= <- <-]. apply simulated_pc; cbn; rewrite ?E; (done || lia).
  - rewrite Hm by lia. rewrite (wraps_small 64 (pos + 1)); [|lia | cbn -[Z.pow]; lia].
    destruct (Z.eqb_spec (i64 (seqs s (slot s pos) - (pos + 1))) 0) as [Hd | Hd].
    + intros [= <- <-]. apply simulated_pc; rewrite ?E; try done. cbn. split; [done|].
      intros Hpos. destruct (inv_turn _ _ _ Hi (slot s pos) (slot_range s pos ltac:(lia)))
        as (q & Hq & Hqj & Hqw & Hturn).
      assert (- 2 ^ 63 <= seqs s (slot s pos) - (pos + 1) < 2 ^ 63) as Hsm.
      { destruct Hturn as [(-> & ? & _) | (-> & ? & _)]; lia. }
      rewrite wraps_small in Hd; [lia | lia | exact Hsm].
    + destruct (_ <? 0); intros [= <- <-]; (apply simulated_pc; rewrite ?E; done).
  - destruct (Z.eqb_spec (rpos s) pos) as [<- | Hne]; cbn [andb].
    2: { intros [= <- <-]. apply simulated_pc; rewrite ?E; try done. cbn. lia. }
    destruct spurious; cbn [negb]; intros [= <- <-].
    { apply simulated_pc; rewrite ?E; try done. cbn. lia. }
    destruct (inv_claim s hist pend t Hi E) as (v & Hv & Hlt & Hi').
    rewrite wraps_small; [|lia | cbn -[Z.pow]; lia].
    exists (<[t := v]> pend). rewrite app_nil_r. split; [done|]. split; [done|]. unfold abstract. cbn.
    rewrite (drop_S _ _ _ Hv). replace (Z.to_nat (rpos s + 1)) with (S (Z.to_nat (rpos s))) by lia.
    constructor. apply (inv_pending _ _ _ Hi). by rewrite E.
  - intros [= <- <-]. rewrite Hm by lia. exists pend. rewrite app_nil_r.
    split; [by apply inv_take|]. split; [done|]. constructor.
  - intros [= <- <-]. rewrite Hm by lia.
    rewrite wrapu_small, wraps_small; [|lia | cbn -[Z.pow]; lia | lia].
    destruct (inv_read_commit s hist pend t pos v Hi E) as [Hv Hi'].
    exists (delete t pend). rewrite app_nil_r. split; [done|]. split; [done|].
    unfold abstract. cbn. by constructor.
Qed.

Lemma size_step_simulated s hist pend t l s' :
  inv s hist pend -> size_step s t = Some (l, s') -> simulated s hist pend l s'.
Proof.
  intros Hi. pose proof (inv_rpos _ _ _ Hi). pose proof (inv_threads _ _ _ Hi t) as Hth.
  unfold size_step. destruct (pcs s t) eqn:E; try done; intros [= <- <-];
    (apply simulated_pc; rewrite ?E; try done). cbn. lia.
Qed.

Lemma step_simulated s hist pend a l s' :
  inv s hist pend -> Z.of_nat (length hist) < 2 ^ 62 ->
  step a s = Some (l, s') -> simulated s hist pend l s'.
Proof.
  intros Hi Hb. destruct a as [t v | t | t | t spurious]; cbn [step].
  1-3: destruct (pcs s t) eqn:E; try done; intros [= <- <-]; by apply simulated_pc; rewrite ?E.
  destruct (push_step s t spurious) as [[l1 s1]|] eqn:E1.
  { intros [= <- <-]. by apply (push_step_simulated s hist pend t spurious). }
  destruct (pop_step s t spurious) as [[l2 s2]|] eqn:E2.
  { intros [= <- <-]. by apply (pop_step_simulated s hist pend t spurious). }
  intros E3. by apply (size_step_simulated s hist pend t).
Qed.

Lemma enqueued_app (ls ls' : list (label V)) : enqueued (ls ++ ls') = enqueued ls ++ enqueued ls'.
Proof. apply omap_app. Qed.

Lemma run_simulated acts s hist pend ls s' :
  inv s hist pend -> run acts s = Some (ls, s') ->
  Z.of_nat (length (hist ++ enqueued ls)) < 2 ^ 62 ->
  exists pend', inv s' (hist ++ enqueued ls) pend' /\ capacity_ s' = capacity_ s
    /\ fifo_run (capacity_ s) ls (abstract s hist pend) (abstract s' (hist ++ enqueued ls) pend').
Proof.
  revert s hist pend ls. induction acts as [|a acts IH]; intros s hist pend ls Hi; cbn [run].
  - intros [= <- <-] _. exists pend. rewrite app_nil_r. split; [done|]. split; [done | constructor].
  - destruct (step a s) as [[l s1]|] eqn:E; cbn [mbind option_bind]; [|done].
    destruct (run acts s1) as [[ls1 s2]|] eqn:E1; cbn [mbind option_bind]; [|done].
    intros [= <- <-] Hb. change (l :: ls1) with ([l] ++ ls1) in *.
    rewrite enqueued_app, app_assoc in *. rewrite length_app in Hb.
    destruct (step_simulated s hist pend a l s1 Hi) as (pend1 & Hi1 & Hc1 & Hf1); [|done|].
    { rewrite length_app in Hb. lia. }
    destruct (IH s1 _ pend1 ls1 Hi1 E1) as (pend2 & Hi2 & Hc2 & Hf2); [rewrite length_app; lia|].
    exists pend2. split; [done|]. split; [congruence|]. rewrite Hc1 in Hf2.
    econstructor; [exact Hf1 | exact Hf2].
Qed.

(** *** The initial state *)

Lemma init_seqs_spec n (s : state V) :
  let s' := init_seqs (Z.of_nat n) s in
  (forall j, seqs s' j = if (0 <=? j) && (j <? Z.of_nat n) then j else seqs s j)
  /\ capacity_ s' = capacity_ s /\ mask_ s' = mask_ s /\ rpos s' = rpos s /\ wpos s' = wpos s
  /\ vals s' = vals s /\ pcs s' = pcs s.
Proof.
  unfold init_seqs. cbv zeta. induction n as [|n IH].
  - cbn. split; [|done]. intros j. repeat zcase; cbn; (done || lia).
  - replace (Z.of_nat (S n)) with (Z.of_nat n + 1) by lia.
    rewrite seqZ_app by lia. rewrite foldl_app. set (s1 := foldl _ s (seqZ 0 (Z.of_nat n))) in *.
    clearbody s1. rewrite Z.add_0_l. change (seqZ (Z.of_nat n) 1) with [Z.of_nat n]. cbn.
    destruct IH as (Hseq & Hrest). split; [|done]. intros j.
    destruct (decide (Z.of_nat n = j)) as [<- | Hne].
    + rewrite fn_lookup_insert. repeat zcase; cbn; (done || lia).
    + rewrite fn_lookup_insert_ne, Hseq by done. repeat zcase; cbn; (done || lia).
Qed.

Lemma inv_initial k (zero : V) :
  1 <= k < 62 -> inv (init_seqs (2 ^ k) (zeroed (2 ^ k) zero)) [] ∅.
Proof.
  intros Hk. assert (2 ^ 1 <= 2 ^ k < 2 ^ 62).
  { split; [apply Z.pow_le_mono_r; lia | apply Z.pow_lt_mono_r; lia]. }
  destruct (init_seqs_spec (Z.to_nat (2 ^ k)) (zeroed (2 ^ k) zero))
    as (Hseq & Hc & Hm & Hr & Hw & _ & Hp).
  rewrite Z2Nat.id in * by lia. set (s := init_seqs _ _) in *. clearbody s.
  cbn in Hc, Hm, Hr, Hw, Hp. change (2 ^ 1) with 2 in *.
  split; rewrite ?Hc, ?Hr, ?Hw, ?Hp; cbn [length]; try (done || lia).
  - intros pos Hpos. unfold elem_index, slot. rewrite Hc, Hm, !wrapu_small by lia.
    apply land_pred_pow2. lia.
  - intros j Hj. exists j. unfold turn, free_at. rewrite Hc, Hr, Hw, Hseq.
    split; [lia|]. split; [apply Z.mod_small; lia|]. split; [lia|]. left.
    rewrite (proj2 (Z.leb_le _ _)), (proj2 (Z.ltb_lt _ _)) by lia. cbn. split; [done|]. lia.
Qed.
End refinement.

(** ** Reachable states *)

Section reachable.
Context {V : Type}.

Lemma new_mpmc_queue_inv c (zero : V) s0 :
  2 <= c <= 2 ^ 30 -> new_mpmc_queue c zero = Some s0 ->
  inv s0 [] ∅ /\ c <= capacity_ s0 < 2 * c /\ rpos s0 = 0 /\ wpos s0 = 0
  /\ (forall t, pcs s0 t = Idle).
Proof.
  intros Hc. unfold new_mpmc_queue. destruct (next_pow2_minimal c) as (k & Hk & -> & Hle & Hmin); [lia|].
  cbn [mbind option_bind]. intros [= <-].
  assert (1 <= k) by (destruct (decide (k = 0)) as [-> |]; [cbn in Hle; lia | lia]).
  split; [apply inv_initial; lia|].
  pose proof (init_seqs_spec (Z.to_nat (2 ^ k)) (zeroed (2 ^ k) zero)) as Hs.
  rewrite Z2Nat.id in Hs by lia. destruct Hs as (_ & -> & _ & -> & -> & _ & ->). cbn -[Z.pow Z.mul].
  split; [|done]. split; [done|]. apply Z.nle_gt. intros Hbig.
  assert (2 ^ k = 2 * 2 ^ (k - 1)) by (rewrite <- Z.pow_succ_r by lia; f_equal; lia).
  pose proof (Hmin (k - 1)). lia.
Qed.

Lemma reachable_inv c (zero : V) s0 acts ls s :
  2 <= c <= 2 ^ 30 -> new_mpmc_queue c zero = Some s0 -> run acts s0 = Some (ls, s) ->
  Z.of_nat (length (enqueued ls)) < 2 ^ 62 -> exists pend, inv s (enqueued ls) pend.
Proof.
  intros Hc Hn Hr Hb. destruct (new_mpmc_queue_inv c zero s0 Hc Hn) as (Hi & _).
  destruct (run_simulated acts s0 [] ∅ ls s Hi Hr Hb) as (pend & Hi' & _). eauto.
Qed.
Lemma pop_failed_inv (s : state V) t spurious t' s' :
  step (Run t spurious) s = Some (LPopFailed t', s') ->
  exists pos, pcs s t = RSeq pos /\ i64 (seqs s (elem_index s pos) - i64 (pos + 1)) < 0.
Proof.
  cbn [step]. unfold push_step, pop_step, size_step. intros Hstep.
  repeat (case_match; simplify_eq). zbool. repeat eexists; done.
Qed.

Lemma push_failed_inv (s : state V) t spurious t' s' :
  step (Run t spurious) s = Some (LPushFailed t', s') ->
  exists v pos, pcs s t = WSeq v pos /\ i64 (seqs s (elem_index s pos) - pos) < 0.
Proof.
  cbn [step]. unfold push_step, pop_step, size_step. intros Hstep.
  repeat (case_match; simplify_eq). zbool. repeat eexists; done.
Qed.
End reachable.

(** ** Properties *)

(** C1: the queue is linearizable to a bounded first-in first-out queue.  For
    every interleaving of pushes, pops and sizes by any number of threads, the
    sequence of events is one of the specification: values enter in the order of
    the write positions and only while fewer than the capacity are queued, they
    are claimed in the order in which they entered, each by one thread, and a pop
    returns exactly the value that its thread has claimed. *)
Theorem mpmc_refines_fifo {V} c (zero : V) s0 acts ls s :
  2 <= c <= 2 ^ 30 -> new_mpmc_queue c zero = Some s0 -> run acts s0 = Some (ls, s) ->
  Z.of_nat (length (enqueued ls)) < 2 ^ 62 ->
  exists f, fifo_run (capacity_ s0) ls (mkFifo [] ∅) f
    /\ Z.of_nat (length (queued f)) = wpos s - rpos s /\ wpos s - rpos s <= capacity_ s0
    /\ c <= capacity_ s0.
Proof.
  intros Hc Hn Hr Hb. destruct (new_mpmc_queue_inv c zero s0 Hc Hn) as (Hi & Hcap & Hr0 & _).
  destruct (run_simulated acts s0 [] ∅ ls s Hi Hr Hb) as (pend & Hi' & Hc' & Hf).
  unfold abstract in Hf. rewrite Hr0 in Hf. cbn [app Z.to_nat drop] in *.
  eexists. split; [exact Hf|]. cbn [queued]. rewrite length_drop.
  pose proof (inv_wpos _ _ _ Hi'). pose proof (inv_rpos _ _ _ Hi'). pose proof (inv_size _ _ _ Hi').
  rewrite Hc' in *. lia.
Qed.

Lemma mpmc_refines_fifo_witness :
  let s0 := init_seqs 2 (zeroed 2 0) in
  let acts := CallPush 1 7 :: CallPop 2 :: replicate 5 (Run 1 false) ++ replicate 5 (Run 2 false) in
  let ls := [LNone; LNone; LNone; LNone; LEnqueue 7; LNone; LNone; LNone; LNone; LClaim 2; LNone;
             LPopped 2 7] in
  exists s f, run acts s0 = Some (ls, s) /\ fifo_run 2 ls (mkFifo [] ∅) f
    /\ Z.of_nat (length (queued f)) = wpos s - rpos s /\ wpos s - rpos s <= 2 /\ 2 <= 2.
Proof.
  intros s0 acts ls.
  assert (exists s, run acts s0 = Some (ls, s)) as [s Hs] by (eexists; vm_compute; reflexivity).
  destruct (mpmc_refines_fifo 2 0 s0 acts ls s) as (f & Hf);
    [lia | reflexivity | exact Hs | reflexivity |].
  exists s, f. exact (conj Hs Hf).
Defined.

(** C17: a pop fails only when the queue is empty or another thread is between
    claiming a position and publishing its value; a push only when the queue is
    full or another thread is between claiming a value and releasing its
    element. *)
Theorem mpmc_failures_justified {V} c (zero : V) s0 acts ls s t spurious l s' :
  2 <= c <= 2 ^ 30 -> new_mpmc_queue c zero = Some s0 -> run acts s0 = Some (ls, s) ->
  Z.of_nat (length (enqueued ls)) < 2 ^ 62 -> step (Run t spurious) s = Some (l, s') ->
  (l = LPopFailed t -> rpos s = wpos s \/ exists t' pos, owns (pcs s t') = Some (true, pos))
  /\ (l = LPushFailed t ->
        wpos s - rpos s = capacity_ s \/ exists t' pos, owns (pcs s t') = Some (false, pos)).
Proof.
  intros Hc Hn Hr Hb Hstep. destruct (reachable_inv c zero s0 acts ls s Hc Hn Hr Hb) as [pend Hi].
  pose proof Hi as [Hcap Hm Hw Hrp Hs Ht Hth _ _]. specialize (Hth t). split; intros ->.
  - apply pop_failed_inv in Hstep as (pos & E & Hlt). rewrite E in Hth. cbn in Hth.
    destruct (Ht (slot s pos) (slot_range s pos ltac:(lia)))
      as (q & Hq & Hqj & Hqw & [(Hseq & Hqr & Hcl) | (Hseq & Hqw' & _ & Hcl)]);
      rewrite (wraps_small 64 (pos + 1)), Hm, Hseq, wraps_small in Hlt
        by (cbn -[Z.pow]; lia).
    + destruct Hcl as [? | [t' ?]]; [left; lia | right; eauto].
    + pose proof (mod_distinct q pos (capacity_ s) ltac:(lia) Hqj ltac:(lia)). left. lia.
  - apply push_failed_inv in Hstep as (v & pos & E & Hlt). rewrite E in Hth. cbn in Hth.
    destruct (Ht (slot s pos) (slot_range s pos ltac:(lia)))
      as (q & Hq & Hqj & Hqw & [(Hseq & Hqr & Hcl) | (Hseq & Hqw' & _ & Hcl)]);
      rewrite Hm, Hseq, wraps_small in Hlt by (cbn -[Z.pow]; lia);
      pose proof (mod_distinct q pos (capacity_ s) ltac:(lia) Hqj ltac:(lia)).
    + left. lia.
    + destruct Hcl as [? | [t' ?]]; [left; lia | right; eauto].
Qed.

Lemma mpmc_failures_justified_witness :
  let s0 := init_seqs 2 (zeroed 2 0) in
  let s := match run [CallPop 1; Run 1 false] s0 with Some (_, s) => s | None => s0 end in
  rpos s = wpos s \/ exists t' pos, owns (pcs s t') = Some (true, pos).
Proof.
  intros s0 s.
  refine (proj1 (mpmc_failures_justified 2 0 s0 [CallPop 1; Run 1 false] [LNone; LNone] s 1 false
    (LPopFailed 1) (set_pc s 1 Idle) _ _ _ _ _) _); try reflexivity. lia.
Defined.

(** [size] never underestimates: its result is at least the number of
    elements queued when it reads the write position, whatever the other threads
    do between its two loads; so a queue reported as empty is empty. *)
Theorem mpmc_size_bound {V} c (zero : V) s0 acts ls s t n s' :
  2 <= c <= 2 ^ 30 -> new_mpmc_queue c zero = Some s0 -> run acts s0 = Some (ls, s) ->
  Z.of_nat (length (enqueued ls)) < 2 ^ 62 -> step (Run t false) s = Some (LSize t n, s') ->
  0 <= wpos s - rpos s <= n /\ n <= wpos s.
Proof.
  intros Hc Hn Hr Hb Hstep. destruct (reachable_inv c zero s0 acts ls s Hc Hn Hr Hb) as [pend Hi].
  pose proof Hi as [Hcap Hm Hw Hrp Hs _ Hth _ _]. specialize (Hth t).
  cbn [step] in Hstep. unfold push_step, pop_step, size_step in Hstep.
  repeat (case_match; simplify_eq). cbn in Hth. rewrite wrapu_small by lia. lia.
Qed.

Lemma mpmc_size_bound_witness :
  let s0 := init_seqs 2 (zeroed 2 0) in
  let acts := [CallSize 1; Run 1 false] in
  let s := match run acts s0 with Some (_, s) => s | None => s0 end in
  0 <= wpos s - rpos s <= 0 /\ 0 <= wpos s.
Proof.
  intros s0 acts s.
  refine (mpmc_size_bound 2 0 s0 acts [LNone; LNone] s 1 0 (set_pc s 1 Idle) _ _ _ _ _);
    try reflexivity. lia.
Defined.

(** ** A thread that runs alone *)

Section solo.
Context {V : Type}.

(** A thread's successive steps, seen through what each changes. *)
Lemma run_cons a acts (s s1 s2 : state V) l ls :
  step a s = Some (l, s1) -> run acts s1 = Some (ls, s2) ->
  run (a :: acts) s = Some (l :: ls, s2).
Proof. intros E E1. cbn [run]. rewrite E. cbn [mbind option_bind]. by rewrite E1. Qed.

Lemma quiescent_push_elem (s : state V) hist pend :
  inv s hist pend -> (forall t, pcs s t = Idle) ->
  seqs s (slot s (wpos s))
  = if wpos s - rpos s <? capacity_ s then wpos s else wpos s - capacity_ s + 1.
Proof.
  intros Hi Hq. pose proof Hi as [Hcap Hm Hw Hrp Hs Ht _ _ _].
  destruct (Ht (slot s (wpos s)) (slot_range s _ ltac:(lia)))
    as (q & Hq0 & Hqj & Hqw & [(Hseq & Hqr & Hcl) | (Hseq & Hqw' & _ & Hcl)]);
    rewrite Hseq; (destruct Hcl as [Hcl | [t' Ho]]; [|by rewrite Hq in Ho]).
  - destruct (decide (q = wpos s)) as [-> | ?]; [zcase; lia|].
    pose proof (mod_distinct (wpos s) q (capacity_ s) ltac:(lia) ltac:(done) ltac:(lia)). lia.
  - pose proof (mod_distinct q (wpos s) (capacity_ s) ltac:(lia) Hqj ltac:(lia)). zcase; lia.
Qed.

Lemma quiescent_pop_elem (s : state V) hist pend :
  inv s hist pend -> (forall t, pcs s t = Idle) ->
  if rpos s <? wpos s
  then seqs s (slot s (rpos s)) = rpos s + 1
       /\ hist !! Z.to_nat (rpos s) = Some (vals s (slot s (rpos s)))
  else seqs s (slot s (rpos s)) = rpos s.
Proof.
  intros Hi Hq. pose proof Hi as [Hcap Hm Hw Hrp Hs Ht _ _ _].
  destruct (Ht (slot s (rpos s)) (slot_range s _ ltac:(lia)))
    as (q & Hq0 & Hqj & Hqw & [(Hseq & Hqr & Hcl) | (Hseq & Hqw' & Hv & Hcl)]);
    rewrite Hseq; (destruct Hcl as [Hcl | [t' Ho]]; [|by rewrite Hq in Ho]).
  - destruct (decide (q = rpos s)) as [-> | ?]; [zcase; lia|].
    pose proof (mod_distinct (rpos s) q (capacity_ s) ltac:(lia) ltac:(done) ltac:(lia)). lia.
  - destruct (decide (q = rpos s)) as [-> | ?].
    + zcase; [done | lia].
    + pose proof (mod_distinct (rpos s) q (capacity_ s) ltac:(lia) ltac:(done) ltac:(lia)). lia.
Qed.

Lemma elem_index_set_pc (s : state V) t p : elem_index (set_pc s t p) = elem_index s.
Proof. done. Qed.
End solo.

(** Steps of the running thread, whose program counter was just set. *)
Ltac solo_step :=
  eapply run_cons; [cbn [step]; unfold push_step, pop_step;
    cbn [set_pc set_rpos set_wpos set_seq set_val capacity_ mask_ rpos wpos seqs vals pcs];
    rewrite ?insert_pc_eq |].

(** a push that runs alone completes: with no other call in progress it takes
    five steps and enqueues its value if the queue is not full, and fails at its
    second step if it is. *)
Theorem mpmc_push_alone {V} c (zero : V) s0 acts ls s t v :
  2 <= c <= 2 ^ 30 -> new_mpmc_queue c zero = Some s0 -> run acts s0 = Some (ls, s) ->
  Z.of_nat (length (enqueued ls)) < 2 ^ 62 -> (forall t, pcs s t = Idle) ->
  if wpos s - rpos s <? capacity_ s
  then exists s', run (CallPush t v :: replicate 5 (Run t false)) s
         = Some ([LNone; LNone; LNone; LEnqueue v; LNone; LNone], s')
         /\ wpos s' = wpos s + 1 /\ rpos s' = rpos s
  else exists s', run (CallPush t v :: replicate 2 (Run t false)) s
         = Some ([LNone; LNone; LPushFailed t], s')
         /\ wpos s' = wpos s /\ rpos s' = rpos s.
Proof.
  intros Hc Hn Hr Hb Hq. destruct (reachable_inv c zero s0 acts ls s Hc Hn Hr Hb) as [pend Hi].
  pose proof (quiescent_push_elem s _ _ Hi Hq) as Hseq.
  pose proof Hi as [Hcap Hm Hw Hrp Hs _ _ _ _].
  assert (elem_index s (wpos s) = slot s (wpos s)) as Hidx by (apply Hm; lia).
  destruct (Z.ltb_spec (wpos s - rpos s) (capacity_ s)) as [Hfree | Hfull]; eexists; split.
  - cbn [replicate]. eapply run_cons; [cbn [step]; by rewrite Hq|].
    solo_step; [reflexivity|].
    solo_step; [change (elem_index _ (wpos s)) with (elem_index s (wpos s));
      rewrite Hidx, Hseq, Z.sub_diag; reflexivity|].
    solo_step; [rewrite Z.eqb_refl; reflexivity|].
    solo_step; [reflexivity|]. solo_step; [reflexivity|]. reflexivity.
  - cbn. split; [|done]. apply wraps_small; [lia|]. cbn -[Z.pow]. lia.
  - cbn [replicate]. eapply run_cons; [cbn [step]; by rewrite Hq|].
    solo_step; [reflexivity|].
    solo_step; [|reflexivity].
    change (elem_index _ (wpos s)) with (elem_index s (wpos s)). rewrite Hidx, Hseq, wraps_small by (cbn -[Z.pow]; lia).
    rewrite (proj2 (Z.eqb_neq _ _)), (proj2 (Z.ltb_lt _ _)) by lia. reflexivity.
  - done.
Qed.

Lemma mpmc_push_alone_witness :
  exists s', run (CallPush 5 7 :: replicate 5 (Run 5%nat false)) (init_seqs 2 (zeroed 2 0))
    = Some ([LNone; LNone; LNone; LEnqueue 7; LNone; LNone], s')
    /\ wpos s' = 0 + 1 /\ rpos s' = 0.
Proof.
  refine (mpmc_push_alone 2 0 (init_seqs 2 (zeroed 2 0)) [] [] (init_seqs 2 (zeroed 2 0)) 5 7
    _ _ _ _ _); try reflexivity. lia.
Defined.

(** a pop that runs alone completes: with no other call in progress it takes
    five steps and returns the oldest value if there is one, and fails at its
    second step if there is none. *)
Theorem mpmc_pop_alone {V} c (zero : V) s0 acts ls s t :
  2 <= c <= 2 ^ 30 -> new_mpmc_queue c zero = Some s0 -> run acts s0 = Some (ls, s) ->
  Z.of_nat (length (enqueued ls)) < 2 ^ 62 -> (forall t, pcs s t = Idle) ->
  if rpos s <? wpos s
  then exists v s', enqueued ls !! Z.to_nat (rpos s) = Some v
         /\ run (CallPop t :: replicate 5 (Run t false)) s
            = Some ([LNone; LNone; LNone; LClaim t; LNone; LPopped t v], s')
         /\ rpos s' = rpos s + 1 /\ wpos s' = wpos s
  else exists s', run (CallPop t :: replicate 2 (Run t false)) s
         = Some ([LNone; LNone; LPopFailed t], s')
         /\ rpos s' = rpos s /\ wpos s' = wpos s.
Proof.
  intros Hc Hn Hr Hb Hq. destruct (reachable_inv c zero s0 acts ls s Hc Hn Hr Hb) as [pend Hi].
  pose proof (quiescent_pop_elem s _ _ Hi Hq) as Helem.
  pose proof Hi as [Hcap Hm Hw Hrp Hs _ _ _ _].
  assert (elem_index s (rpos s) = slot s (rpos s)) as Hidx by (apply Hm; lia).
  destruct (Z.ltb_spec (rpos s) (wpos s)) as [Hsome | Hnone].
  - destruct Helem as [Hseq Hv]. exists (vals s (slot s (rpos s))). eexists. split; [done|]. split.
    + cbn [replicate]. eapply run_cons; [cbn [step]; by rewrite Hq|].
      solo_step; [reflexivity|].
      solo_step; [change (elem_index _ (rpos s)) with (elem_index s (rpos s));
        rewrite Hidx, Hseq, (wraps_small 64 (rpos s + 1)), Z.sub_diag by (cbn -[Z.pow]; lia);
        reflexivity|].
      solo_step; [rewrite Z.eqb_refl; reflexivity|].
      solo_step; [change (elem_index _ (rpos s)) with (elem_index s (rpos s));
        rewrite Hidx; reflexivity|].
      solo_step; [reflexivity|]. reflexivity.
    + cbn. split; [|done]. apply wraps_small; [lia|]. cbn -[Z.pow]. lia.
  - eexists. split.
    + cbn [replicate]. eapply run_cons; [cbn [step]; by rewrite Hq|].
      solo_step; [reflexivity|].
      solo_step; [|reflexivity].
      change (elem_index _ (rpos s)) with (elem_index s (rpos s)).
      rewrite Hidx, Helem, (wraps_small 64 (rpos s + 1)), wraps_small by (cbn -[Z.pow]; lia).
      rewrite (proj2 (Z.eqb_neq _ _)), (proj2 (Z.ltb_lt _ _)) by lia. reflexivity.
    + done.
Qed.

Lemma mpmc_pop_alone_witness :
  exists s', run (CallPop 5 :: replicate 2 (Run 5%nat false)) (init_seqs 2 (zeroed 2 0))
    = Some ([LNone; LNone; LPopFailed 5], s')
    /\ rpos s' = 0 /\ wpos s' = 0.
Proof.
  refine (mpmc_pop_alone 2 0 (init_seqs 2 (zeroed 2 0)) [] [] (init_seqs 2 (zeroed 2 0)) 5
    _ _ _ _ _); try reflexivity. lia.
Defined.

(** ** The constructor from a capacity *)

Section constructor.
Context {V : Type}.
Variable c : Z.

(** The element [c] was never initialised, and no position passes [c]. *)
Definition stuck_pc (p : pc V) : Prop :=
  match p with
  | WSeq _ pos | RSeq pos => 0 <= pos <= c
  | WCas _ pos | WFill _ pos | WCommit pos | RCas pos | RTake pos | RCommit pos _ => 0 <= pos < c
  | _ => True
  end.

Record stuck (s : state V) (n : nat) : Prop := {
  stuck_c : 2 <= c < capacity_ s /\ capacity_ s < 2 ^ 62;
  stuck_index : forall pos, 0 <= pos <= c -> elem_index s pos = pos;
  stuck_seq : seqs s c = 0;
  stuck_rpos : 0 <= rpos s <= c;
  stuck_wpos : wpos s = Z.of_nat n /\ wpos s <= c;
  stuck_pcs : forall t, stuck_pc (pcs s t)
}.

Lemma stuck_set_pc s n t p : stuck s n -> stuck_pc p -> stuck (set_pc s t p) n.
Proof.
  intros [Hc Hi Hs Hr Hw Hp] Hok. split; try done. intros t'. cbn.
  destruct (decide (t = t')) as [<- | ?]; [by rewrite insert_pc_eq | by rewrite insert_pc_ne].
Qed.

Lemma stuck_set_seq s n pos seq : stuck s n -> 0 <= pos < c -> stuck (set_seq s pos seq) n.
Proof.
  intros [Hc Hi Hs Hr Hw Hp] Hpos. split; try done. cbn. rewrite fn_lookup_insert_ne; [done | lia].
Qed.

Lemma stuck_set_val s n pos v : stuck s n -> stuck (set_val s pos v) n.
Proof. by intros [Hc Hi Hs Hr Hw Hp]; split. Qed.

Lemma stuck_step a s n l s' :
  stuck s n -> step a s = Some (l, s') -> stuck s' (n + length (enqueued [l])).
Proof.
  intros Hst. pose proof Hst as [Hc Hi Hs Hr [Hw Hwc] Hp].
  destruct a as [t v | t | t | t spurious]; cbn [step].
  1-3: destruct (pcs s t); try done; intros [= <- <-]; rewrite Nat.add_0_r; by apply stuck_set_pc.
  pose proof (Hp t) as Hok. unfold push_step, pop_step, size_step.
  destruct (pcs s t) as [| v | v pos | v pos | v pos | pos | | pos | pos | pos | pos v | | r] eqn:E;
    try done; cbn in Hok.
  - intros [= <- <-]. rewrite Nat.add_0_r. apply stuck_set_pc; [done | cbn; lia].
  - rewrite Hi by lia. destruct (Z.eqb_spec (i64 (seqs s pos - pos)) 0) as [Hd | Hd];
      [|destruct (_ <? 0)]; intros [= <- <-]; rewrite Nat.add_0_r; (apply stuck_set_pc; [done|]); try done.
    cbn. assert (pos <> c); [|lia]. intros ->. rewrite Hs, wraps_small in Hd;
      [lia | lia | cbn -[Z.pow]; lia].
  - destruct (Z.eqb_spec (wpos s) pos) as [Hpos | Hpos], spurious; cbn [negb andb]; intros [= <- <-];
      rewrite ?Nat.add_0_r; try (apply stuck_set_pc; [done | cbn; lia]).
    apply stuck_set_pc; [|cbn; lia].
    rewrite wraps_small; [|lia | cbn -[Z.pow]; lia]. split; cbn; try (done || lia).
  - intros [= <- <-]. rewrite Nat.add_0_r. apply stuck_set_pc; [by apply stuck_set_val | cbn; lia].
  - intros [= <- <-]. rewrite Nat.add_0_r, Hi by lia.
    apply stuck_set_pc; [by apply stuck_set_seq | done].
  - intros [= <- <-]. rewrite Nat.add_0_r. apply stuck_set_pc; [done | cbn; lia].
  - rewrite Hi by lia. rewrite (wraps_small 64 (pos + 1)); [|lia | cbn -[Z.pow]; lia].
    destruct (Z.eqb_spec (i64 (seqs s pos - (pos + 1))) 0) as [Hd | Hd];
      [|destruct (_ <? 0)]; intros [= <- <-]; rewrite Nat.add_0_r; (apply stuck_set_pc; [done|]); try done.
    cbn. assert (pos <> c); [|lia]. intros ->. rewrite Hs, wraps_small in Hd;
      [lia | lia | cbn -[Z.pow]; lia].
  - destruct (Z.eqb_spec (rpos s) pos) as [Hpos | Hpos], spurious; cbn [negb andb]; intros [= <- <-];
      rewrite Nat.add_0_r; try (apply stuck_set_pc; [done | cbn; lia]).
    apply stuck_set_pc; [|cbn; lia].
    rewrite wraps_small; [|lia | cbn -[Z.pow]; lia]. split; cbn; try (done || lia).
  - intros [= <- <-]. rewrite Nat.add_0_r. apply stuck_set_pc; [done | cbn; lia].
  - intros [= <- <-]. rewrite Nat.add_0_r, Hi by lia.
    apply stuck_set_pc; [by apply stuck_set_seq | done].
  - intros [= <- <-]. rewrite Nat.add_0_r. by apply stuck_set_pc.
  - intros [= <- <-]. rewrite Nat.add_0_r. by apply stuck_set_pc.
Qed.

Lemma stuck_run acts s n ls s' :
  stuck s n -> run acts s = Some (ls, s') -> stuck s' (n + length (enqueued ls)).
Proof.
  revert s n ls. induction acts as [|a acts IH]; intros s n ls Hst; cbn [run].
  - intros [= <- <-]. by rewrite Nat.add_0_r.
  - destruct (step a s) as [[l s1]|] eqn:E; cbn [mbind option_bind]; [|done].
    destruct (run acts s1) as [[ls1 s2]|] eqn:E1; cbn [mbind option_bind]; [|done].
    intros [= <- <-]. change (l :: ls1) with ([l] ++ ls1).
    rewrite enqueued_app, length_app, Nat.add_assoc.
    apply (IH s1); [by apply (stuck_step a s) | done].
Qed.

Lemma stuck_initial (zero : V) s0 :
  2 <= c <= 2 ^ 30 -> is_pow2 c = false -> MpmcQueue c zero = Some s0 -> stuck s0 0.
Proof.
  intros Hc Hnp. unfold MpmcQueue. destruct (next_pow2_minimal c) as (k & Hk & -> & Hle & _); [lia|].
  cbn [mbind option_bind]. intros [= <-].
  assert (c <> 2 ^ k) by (intros ->; rewrite is_pow2_pow2 in Hnp; [done | lia]).
  assert (2 ^ k <= 2 ^ 30) by (apply Z.pow_le_mono_r; lia).
  pose proof (init_seqs_spec (Z.to_nat c) (zeroed (2 ^ k) zero)) as Hs.
  rewrite Z2Nat.id in Hs by lia. destruct Hs as (Hseq & Hc' & Hm & Hr & Hw & _ & Hp).
  set (s := init_seqs _ _) in *. clearbody s. cbn in Hc', Hm, Hr, Hw, Hp.
  split; rewrite ?Hc', ?Hr, ?Hw, ?Hp; try (done || lia).
  - intros pos Hpos. unfold elem_index. rewrite Hm, !wrapu_small, land_pred_pow2 by lia.
    apply Z.mod_small. lia.
  - rewrite Hseq, (proj2 (Z.ltb_ge c c)), andb_false_r by lia. done.
Qed.
End constructor.

(** the constructor from a capacity initialises as many sequence numbers as
    were asked for, not as many as there are elements.  For a power of two that
    is the state of [new_mpmc_queue]; for another capacity [c] at most [c] values
    ever enter the queue, however many are popped. *)
Theorem mpmc_constructor_capacity {V} c (zero : V) s0 :
  2 <= c <= 2 ^ 30 -> MpmcQueue c zero = Some s0 ->
  (is_pow2 c = true -> new_mpmc_queue c zero = Some s0)
  /\ (is_pow2 c = false -> forall acts ls s, run acts s0 = Some (ls, s) ->
        Z.of_nat (length (enqueued ls)) <= c).
Proof.
  intros Hc Hn. split; intros Hp.
  - unfold MpmcQueue, new_mpmc_queue in *.
    destruct (next_pow2_minimal c) as (k & Hk & E & Hle & Hmin); [lia|]. rewrite E in *.
    cbn [mbind option_bind] in *. rewrite <- Hn. apply is_pow2_inv in Hp.
    pose proof (Z.log2_nonneg c). assert (k = Z.log2 c) as ->; [|by rewrite <- Hp].
    apply Z.le_antisymm; [apply Hmin; lia|]. apply (Z.pow_le_mono_r_iff 2); lia.
  - intros acts ls s Hr. pose proof (stuck_initial c zero s0 Hc Hp Hn) as Hst.
    destruct (stuck_wpos _ _ _ (stuck_run c acts s0 0 ls s Hst Hr)). lia.
Qed.

Lemma mpmc_constructor_capacity_witness :
  exists ls s, run (CallPush 1 7 :: replicate 5 (Run 1%nat false)) (init_seqs 3 (zeroed 4 0))
               = Some (ls, s)
    /\ Z.of_nat (length (enqueued ls)) <= 3.
Proof.
  assert (exists s, run (CallPush 1 7 :: replicate 5 (Run 1%nat false)) (init_seqs 3 (zeroed 4 0))
    = Some ([LNone; LNone; LNone; LEnqueue 7; LNone; LNone], s)) as [s Hs]
    by (eexists; vm_compute; reflexivity).
  eexists _, s. split; [exact Hs|].
  refine (proj2 (mpmc_constructor_capacity 3 0 (init_seqs 3 (zeroed 4 0)) _ _) _ _ _ s Hs);
    [lia | reflexivity | reflexivity].
Defined.
