(* ===== verification/Heap.v ===== *)
(** * Binary heaps of the C++ standard library

    The contract of [push_heap], [pop_heap] and [make_heap] that the timer queue
    relies on, as a class: the functions order a vector by a key, smallest key
    first (the code passes [is_after] as the comparison).  An instance that keeps
    the vector sorted shows that the contract can be met. *)
From stdpp Require Import sorting.
From S2P Require Import Prelude.

(** Every element's key is at least its parent's. *)
Definition is_heap {A} (key : A -> Z) (l : list A) : Prop :=
  forall i x y, (0 < i)%nat -> l !! ((i - 1) / 2)%nat = Some x -> l !! i = Some y -> key x <= key y.

Class StdHeap := {
  push_heap : forall {A}, (A -> Z) -> list A -> list A;
  pop_heap : forall {A}, (A -> Z) -> list A -> list A;
  make_heap : forall {A}, (A -> Z) -> list A -> list A
}.

(** [push_heap] inserts the last element, [pop_heap] moves the first one to the
    end, and [make_heap] orders any vector. *)
Class StdHeapLaws (H : StdHeap) : Prop := {
  push_heap_spec : forall A (key : A -> Z) l x,
    is_heap key l -> push_heap key (l ++ [x]) ≡ₚ x :: l /\ is_heap key (push_heap key (l ++ [x]));
  pop_heap_spec : forall A (key : A -> Z) x l,
    is_heap key (x :: l) ->
    exists l', pop_heap key (x :: l) = l' ++ [x] /\ l' ≡ₚ l /\ is_heap key l';
  make_heap_spec : forall A (key : A -> Z) l,
    make_heap key l ≡ₚ l /\ is_heap key (make_heap key l)
}.

Lemma is_heap_nil {A} (key : A -> Z) : is_heap key [].
Proof. by intros i x y _ E. Qed.

(** The first element has the smallest key. *)
Lemma is_heap_front {A} (key : A -> Z) x l y :
  is_heap key (x :: l) -> y ∈ x :: l -> key x <= key y.
Proof.
  intros Hh Hy. apply list_elem_of_lookup in Hy as [i Hi]. revert y Hi.
  induction (lt_wf i) as [i _ IH]. intros y Hi.
  destruct (decide (i = 0%nat)) as [-> | Hne].
  { cbn in Hi. injection Hi as ->. lia. }
  assert (((i - 1) / 2 < i)%nat) as Hlt by (apply Nat.Div0.div_lt_upper_bound; lia).
  destruct (lookup_lt_is_Some_2 (x :: l) ((i - 1) / 2)) as [z Hz].
  { apply lookup_lt_Some in Hi. lia. }
  pose proof (IH _ Hlt z Hz). pose proof (Hh i z y ltac:(lia) Hz Hi). lia.
Qed.

Lemma is_heap_ext {A} (key key' : A -> Z) l :
  (forall x, x ∈ l -> key x = key' x) -> is_heap key l -> is_heap key' l.
Proof.
  intros Hk Hh i x y Hi Hx Hy.
  rewrite <- !Hk by (eapply list_elem_of_lookup_2; eauto). eauto.
Qed.

(** ** A sorted vector is a heap *)

Section sorted.
Context {A : Type} (key : A -> Z).

Definition key_le (x y : A) : Prop := key x <= key y.
#[local] Instance key_le_dec : RelDecision key_le.
Proof. intros x y. unfold key_le. apply _. Defined.
#[local] Instance key_le_total : Total key_le.
Proof. intros x y. unfold key_le. lia. Qed.
#[local] Instance key_le_trans : Transitive key_le.
Proof. intros x y z. unfold key_le. lia. Qed.

Definition sort_by : list A -> list A := merge_sort key_le.

Lemma sorted_lookup l i j x y :
  StronglySorted key_le l -> (i < j)%nat -> l !! i = Some x -> l !! j = Some y -> key x <= key y.
Proof.
  intros Hs. revert i j. induction Hs as [|z l Hs IH Hall]; intros i j Hij Hx Hy; [done|].
  destruct i as [|i], j as [|j]; try lia.
  - injection Hx as ->. cbn in Hy. rewrite Forall_forall in Hall. apply Hall.
    by eapply list_elem_of_lookup_2.
  - by apply (IH i j); [lia | |].
Qed.

Lemma sorted_is_heap l : StronglySorted key_le l -> is_heap key l.
Proof.
  intros Hs i x y Hi Hx Hy. apply (sorted_lookup l ((i - 1) / 2) i); try done.
  apply Nat.Div0.div_lt_upper_bound; lia.
Qed.

Lemma sort_by_spec l : sort_by l ≡ₚ l /\ is_heap key (sort_by l).
Proof.
  split; [apply merge_sort_Permutation|]. apply sorted_is_heap, (StronglySorted_merge_sort _ _).
Qed.
End sorted.

#[export] Instance sorted_heap : StdHeap := {
  push_heap A key l := sort_by key l;
  pop_heap A key l := match l with x :: l' => sort_by key l' ++ [x] | [] => [] end;
  make_heap A key l := sort_by key l
}.

#[export] Instance sorted_heap_laws : StdHeapLaws sorted_heap.
Proof.
  split; cbn.
  - intros A key l x _. destruct (sort_by_spec key (l ++ [x])) as [Hp Hh]. split; [|done].
    rewrite Hp. by rewrite Permutation_app_comm.
  - intros A key x l _. exists (sort_by key l). destruct (sort_by_spec key l). done.
  - intros A key l. apply sort_by_spec.
Qed.
