(* ===== verification/Timer.v ===== *)
(** * Timers

    Models [toolbox/io/Timer.hpp] and [toolbox/io/Timer.cpp]: the pool of timer
    records, their reference counts, the heap of timers of one queue, and the
    operations of the queue, with the user's callbacks.

    A timer record is a location; the memory of all records is a total function,
    and a location below [slabs_ * SlabSize] has been allocated.  A handle
    ([Timer], an intrusive pointer) is a location too: copying and destroying
    handles is written as the calls of [add_ref] and [release] that the C++
    compiler inserts.  The heap holds one handle for each of its elements. *)
From stdpp Require Import functions sorting.
From S2P Require Import Prelude Heap.

(** ** Records, pool and queue *)

(** [Timer::Impl]; a slot is the callback bound to the timer.  The union of
    [next] and [tq] is not kept: the free list is a list, and there is one queue. *)
Record Impl := mkImpl {
  ref_count : Z;
  id : Z;
  expiry : Z;
  interval : Z;
  slot : option Z
}.

(** [sizeof(Timer)] is the size of a pointer. *)
Definition SlabSize : nat := 510.
Example SlabSize_value : Z.of_nat SlabSize = (4096 - 16) / 8.
Proof. reflexivity. Qed.

(** [TimerPool] (memory, slabs, free list) and [TimerQueue] (the rest). *)
Record TimerQueue := mkTQ {
  impls : nat -> Impl;
  slabs_ : nat;
  free_ : list nat;
  max_id_ : Z;
  cancelled_ : Z;
  heap_ : list nat
}.

Definition set_impl (t : TimerQueue) (l : nat) (i : Impl) : TimerQueue :=
  mkTQ (<[l := i]> (impls t)) (slabs_ t) (free_ t) (max_id_ t) (cancelled_ t) (heap_ t).
Definition set_free (t : TimerQueue) (slabs : nat) (f : list nat) : TimerQueue :=
  mkTQ (impls t) slabs f (max_id_ t) (cancelled_ t) (heap_ t).
Definition set_max_id (t : TimerQueue) (n : Z) : TimerQueue :=
  mkTQ (impls t) (slabs_ t) (free_ t) n (cancelled_ t) (heap_ t).
Definition set_cancelled (t : TimerQueue) (n : Z) : TimerQueue :=
  mkTQ (impls t) (slabs_ t) (free_ t) (max_id_ t) n (heap_ t).
Definition set_heap (t : TimerQueue) (h : list nat) : TimerQueue :=
  mkTQ (impls t) (slabs_ t) (free_ t) (max_id_ t) (cancelled_ t) h.

Definition with_ref (i : Impl) (n : Z) : Impl :=
  mkImpl n (id i) (expiry i) (interval i) (slot i).
Definition with_slot (i : Impl) (s : option Z) : Impl :=
  mkImpl (ref_count i) (id i) (expiry i) (interval i) s.
Definition with_expiry (i : Impl) (e : Z) : Impl :=
  mkImpl (ref_count i) (id i) e (interval i) (slot i).
Definition with_interval (i : Impl) (d : Z) : Impl :=
  mkImpl (ref_count i) (id i) (expiry i) d (slot i).

Definition pending (t : TimerQueue) (l : nat) : bool :=
  match slot (impls t l) with Some _ => true | None => false end.
Definition expiry_of (t : TimerQueue) (l : nat) : Z := expiry (impls t l).

(** [TimerPool::alloc]: the head of the free list, or the first record of a new
    slab, whose other records are pushed one by one on the free list. *)
Definition pool_alloc (t : TimerQueue) : nat * TimerQueue :=
  match free_ t with
  | l :: f => (l, set_free t (slabs_ t) f)
  | [] =>
      let base := (slabs_ t * SlabSize)%nat in
      (base, set_free t (S (slabs_ t)) (rev (seq (base + 1) (SlabSize - 1))))
  end.

Definition dealloc (l : nat) (t : TimerQueue) : TimerQueue := set_free t (slabs_ t) (l :: free_ t).

Definition add_ref (l : nat) (t : TimerQueue) : TimerQueue :=
  set_impl t l (with_ref (impls t l) (ref_count (impls t l) + 1)).

Definition size (t : TimerQueue) : Z := u64 (Z.of_nat (length (heap_ t)) - cancelled_ t).

(** ** Operations of the queue *)

Section operations.
Context `{StdHeap}.

(** [pop] copies the front handle and returns it; [pop_back] destroys the handle
    of the vector.  [None] is a pop from an empty vector. *)
Definition pop (release : nat -> TimerQueue -> option TimerQueue) (t : TimerQueue)
    : option (nat * TimerQueue) :=
  match heap_ t with
  | [] => None
  | tmr :: _ =>
      let t := add_ref tmr t in
      let h := pop_heap (expiry_of t) (heap_ t) in
      back ← last h;
      t ← release back (set_heap t (removelast h));
      Some (tmr, t)
  end.

Fixpoint release_all (release : nat -> TimerQueue -> option TimerQueue) (ls : list nat)
    (t : TimerQueue) : option TimerQueue :=
  match ls with
  | [] => Some t
  | l :: ls' => t ← release l t; release_all release ls' t
  end.

(** [gc]: [remove_if] and [erase] destroy the handles that are not pending. *)
Definition gc (release : nat -> TimerQueue -> option TimerQueue) (t : TimerQueue)
    : option TimerQueue :=
  if Z.of_nat (length (heap_ t)) / 2 <? cancelled_ t then
    let kept := filter (fun l => pending t l = true) (heap_ t) in
    let removed := filter (fun l => pending t l = false) (heap_ t) in
    t ← release_all release removed (set_heap t kept);
    Some (set_cancelled (set_heap t (make_heap (expiry_of t) (heap_ t))) 0)
  else Some t.

(** [intrusive_ptr_release] and [TimerQueue::cancel] call each other; the fuel
    bounds the depth of the calls and the rounds of the loop. *)
Fixpoint release (fuel : nat) (l : nat) (t : TimerQueue) {struct fuel} : option TimerQueue :=
  match fuel with
  | O => None
  | S fuel =>
      let n := ref_count (impls t l) - 1 in
      let t := set_impl t l (with_ref (impls t l) n) in
      if n =? 1 then
        if pending t l
        then
          let t := set_impl t l (with_slot (impls t l) None) in
          cancel_loop fuel (set_cancelled t (cancelled_ t + 1))
        else Some t
      else if n =? 0 then Some (dealloc l t)
      else Some t
  end
with cancel_loop (fuel : nat) (t : TimerQueue) {struct fuel} : option TimerQueue :=
  match fuel with
  | O => None
  | S fuel =>
      match heap_ t with
      | [] => gc (release fuel) t
      | front :: _ =>
          if pending t front then gc (release fuel) t
          else
            '(tmr, t) ← pop (release fuel) t;
            t ← release fuel tmr t;
            cancel_loop fuel (set_cancelled t (cancelled_ t - 1))
      end
  end.

(** [TimerQueue::cancel]. *)
Definition queue_cancel (fuel : nat) (t : TimerQueue) : option TimerQueue :=
  cancel_loop fuel (set_cancelled t (cancelled_ t + 1)).

(** [Timer::cancel]. *)
Definition timer_cancel (fuel : nat) (l : nat) (t : TimerQueue) : option TimerQueue :=
  if pending t l
  then queue_cancel fuel (set_impl t l (with_slot (impls t l) None))
  else Some t.

(** [TimerQueue::alloc] returns a handle; [insert] copies it into the vector and
    returns it. *)
Definition queue_alloc (t : TimerQueue) (exp int : Z) (s : Z) : nat * TimerQueue :=
  let '(l, t) := pool_alloc t in
  let t := set_max_id t (max_id_ t + 1) in
  (l, set_impl t l (mkImpl 1 (max_id_ t) exp int (Some s))).

Definition push (l : nat) (t : TimerQueue) : TimerQueue :=
  let t := add_ref l t in
  set_heap t (push_heap (expiry_of t) (heap_ t ++ [l])).

Definition insert (t : TimerQueue) (exp int : Z) (s : Z) : nat * TimerQueue :=
  let '(tmr, t) := queue_alloc t exp int s in
  (tmr, push tmr t).

(** ** The client *)

(** The program that uses the queue: the handles that it holds, and the
    callbacks that have been invoked, with the expiry of their timer. *)
Record client := mkClient {
  tq : TimerQueue;
  held : nat -> Z;
  fired : list (Z * Z)
}.

Definition set_tq (c : client) (t : TimerQueue) : client := mkClient t (held c) (fired c).

(** What a program does with the queue and its handles. *)
Inductive op :=
| Insert (exp int s : Z)
| Copy (l : nat)
| Drop (l : nat)
| Cancel (l : nat)
| SetInterval (l : nat) (d : Z).

(** A program can only use a handle that it holds; an operation on another
    timer is no operation. *)
Definition run_op (fuel : nat) (o : op) (c : client) : option client :=
  match o with
  | Insert exp int s =>
      let '(l, t) := insert (tq c) exp int s in
      Some (mkClient t (<[l := held c l + 1]> (held c)) (fired c))
  | Copy l =>
      if 0 <? held c l
      then Some (mkClient (add_ref l (tq c)) (<[l := held c l + 1]> (held c)) (fired c))
      else Some c
  | Drop l =>
      if 0 <? held c l
      then t ← release fuel l (tq c); Some (mkClient t (<[l := held c l - 1]> (held c)) (fired c))
      else Some c
  | Cancel l =>
      if 0 <? held c l then t ← timer_cancel fuel l (tq c); Some (set_tq c t) else Some c
  | SetInterval l d =>
      if 0 <? held c l
      then Some (set_tq c (set_impl (tq c) l (with_interval (impls (tq c) l) d)))
      else Some c
  end.

Fixpoint run_ops (fuel : nat) (os : list op) (c : client) : option client :=
  match os with
  | [] => Some c
  | o :: os' => c ← run_op fuel o c; run_ops fuel os' c
  end.

(** What the callback of a slot does, given the time, the timer and the state it
    finds; a callback that throws stops after the operations of the list. *)
Variable handler : Z -> Z -> nat -> client -> list op.

Definition expire (fuel : nat) (now : Z) (c : client) : option client :=
  '(tmr, t) ← pop (release fuel) (tq c);
  s ← slot (impls t tmr);
  let c := mkClient t (held c) (fired c ++ [(s, expiry_of t tmr)]) in
  c ← run_ops fuel (handler s now tmr c) c;
  let t := tq c in
  let i := impls t tmr in
  let t :=
    if pending t tmr then
      if 0 <? interval i then
        push tmr (set_impl t tmr (with_expiry i (Z.max (i64 (expiry i + interval i)) (i64 (now + 1)))))
      else set_impl t tmr (with_slot i None)
    else t in
  t ← release fuel tmr t;
  Some (set_tq c t).

Fixpoint dispatch (fuel : nat) (now : Z) (c : client) (work : Z) : option (Z * client) :=
  match fuel with
  | O => None
  | S fuel' =>
      match heap_ (tq c) with
      | [] => t ← gc (release fuel') (tq c); Some (work, set_tq c t)
      | front :: _ =>
          if negb (pending (tq c) front) then
            '(tmr, t) ← pop (release fuel') (tq c);
            t ← release fuel' tmr t;
            dispatch fuel' now (set_tq c (set_cancelled t (cancelled_ t - 1))) work
          else if expiry_of (tq c) front <=? now then
            c ← expire fuel' now c;
            dispatch fuel' now c (work + 1)
          else t ← gc (release fuel') (tq c); Some (work, set_tq c t)
      end
  end.
End operations.

(** A queue on an empty pool, and a client without handles. *)
Definition empty_queue : TimerQueue := mkTQ (fun _ => mkImpl 0 0 0 0 None) 0 [] 0 0 [].
Definition new_client : client := mkClient empty_queue (fun _ => 0) [].

Example dispatch_test :
  match run_ops 20 [Insert 10 0 100; Insert 5 3 101; Insert 7 0 102; Cancel 508] new_client with
  | Some c =>
      match dispatch (fun _ _ _ _ => []) 20 8 c 0 with
      | Some (work, c') => (work, fired c', heap_ (tq c'), size (tq c'), max_id_ (tq c'))
                           = (1, [(101, 5)], [509%nat; 0%nat], 2, 3)
      | None => False
      end
  | None => False
  end.
Proof. vm_compute. reflexivity. Qed.

(** ** Reference counts *)

Lemma list_filter_iff' {A} (P Q : A -> Prop) `{forall x, Decision (P x)} `{forall x, Decision (Q x)} (l : list A) :
  (forall x, x ∈ l -> P x <-> Q x) -> filter P l = filter Q l.
Proof.
  induction l as [|x l IH]; intros HPQ; [done|].
  rewrite !filter_cons, IH by (intros y Hy; apply HPQ; by right).
  pose proof (HPQ x ltac:(left)). repeat case_decide; tauto.
Qed.

Definition bound (t : TimerQueue) : nat := (slabs_ t * SlabSize)%nat.
Definition in_heap (t : TimerQueue) (l : nat) : Z := if decide (l ∈ heap_ t) then 1 else 0.

(** [ext l] is the number of handles of [l] outside of the heap.  A record is
    free or referenced, its count is the number of its handles, and a pending
    timer has two handles at least. *)
Record live (t : TimerQueue) (ext : nat -> Z) : Prop := {
  lv_ext : forall l, 0 <= ext l;
  lv_heap : NoDup (heap_ t);
  lv_free : NoDup (free_ t);
  lv_used : forall l, l ∈ heap_ t \/ 0 < ext l ->
    (l < bound t)%nat /\ (l ∉ free_ t) /\ ref_count (impls t l) = in_heap t l + ext l;
  lv_freeb : forall l, l ∈ free_ t -> (l < bound t)%nat;
  lv_leak : forall l, (l < bound t)%nat -> l ∈ free_ t \/ l ∈ heap_ t \/ 0 < ext l;
  lv_pending : forall l, l ∈ heap_ t \/ 0 < ext l -> pending t l = true -> 2 <= (in_heap t l + ext l)
}.

(** Two queues that agree on everything but reference counts, free list and heap. *)
Record stable (t t' : TimerQueue) : Prop := {
  st_cancelled : cancelled_ t' = cancelled_ t;
  st_max_id : max_id_ t' = max_id_ t;
  st_slabs : slabs_ t' = slabs_ t;
  st_slot : forall l, slot (impls t' l) = slot (impls t l);
  st_expiry : forall l, expiry (impls t' l) = expiry (impls t l);
  st_interval : forall l, interval (impls t' l) = interval (impls t l)
}.

#[export] Instance stable_preorder : PreOrder stable.
Proof.
  split; [by split|]. intros t1 t2 t3 [] []. split; intros; congruence.
Qed.

Lemma stable_pending t t' l : stable t t' -> pending t' l = pending t l.
Proof. intros Hs. unfold pending. by rewrite (st_slot _ _ Hs). Qed.

Lemma stable_expiry_of t t' l : stable t t' -> expiry_of t' l = expiry_of t l.
Proof. intros Hs. apply (st_expiry _ _ Hs). Qed.

Lemma stable_set_ref t l n : stable t (set_impl t l (with_ref (impls t l) n)).
Proof.
  split; try done; intros x; cbn; destruct (decide (l = x)) as [<- | ?];
    by rewrite ?fn_lookup_insert, ?fn_lookup_insert_ne.
Qed.

Lemma live_ext_eq t ext ext' : (forall l, ext' l = ext l) -> live t ext -> live t ext'.
Proof.
  intros E [H1 H2 H3 H4 H5 H6 H7]. split; try done; intros l; rewrite ?E; auto.
Qed.

(** Setting the count of a referenced record to the number of its handles. *)
Lemma live_set_ref t ext ext' l n :
  live t ext -> (l < bound t)%nat -> l ∉ free_ t -> 0 <= ext' l ->
  (forall x, x <> l -> ext' x = ext x) ->
  n = in_heap t l + ext' l -> 0 < n -> (pending t l = true -> 2 <= n) ->
  live (set_impl t l (with_ref (impls t l) n)) ext'.
Proof.
  intros [H1 H2 H3 H4 H5 H6 H7] Hb Hf H0 Hext Hn Hpos Hp.
  assert (forall x, in_heap (set_impl t l (with_ref (impls t l) n)) x = in_heap t x) as Hin by done.
  split; try done.
  - intros x. destruct (decide (x = l)) as [-> | ?]; [done|]. by rewrite Hext.
  - intros x Hx. rewrite Hin. destruct (decide (x = l)) as [-> | ?].
    + cbn. rewrite fn_lookup_insert. done.
    + cbn. rewrite fn_lookup_insert_ne, Hext by done. apply H4. by rewrite <- Hext.
  - intros x Hx. destruct (decide (x = l)) as [-> | ?].
    + unfold in_heap in Hn. case_decide; [by right; left | right; right; lia].
    + rewrite Hext by done. by apply H6.
  - intros x Hx Hxp. rewrite Hin.
    rewrite (stable_pending _ _ x (stable_set_ref t l n)) in Hxp.
    destruct (decide (x = l)) as [-> | ?]; [rewrite <- Hn; auto|].
    rewrite Hext in Hx |- * by done. auto.
Qed.

(** Freeing a record that only has the handle being released. *)
Lemma live_dealloc t ext l i :
  live t ext -> ext l = 1 -> l ∉ heap_ t -> live (dealloc l (set_impl t l i)) (<[l := 0]> ext).
Proof.
  intros [H1 H2 H3 H4 H5 H6 H7] He Hh. destruct (H4 l) as (Hb & Hf & _); [right; lia|].
  assert (forall x, x ∈ heap_ t \/ 0 < (<[l := 0]> ext) x -> x <> l /\ (x ∈ heap_ t \/ 0 < ext x)) as Hx.
  { intros x Hx. destruct (decide (x = l)) as [-> | Hne].
    - rewrite fn_lookup_insert in Hx. destruct Hx; [done | lia].
    - rewrite fn_lookup_insert_ne in Hx by done. done. }
  split; cbn [dealloc set_free set_impl impls slabs_ free_ heap_]; try done.
  - intros x. destruct (decide (l = x)) as [<- | ?]; rewrite ?fn_lookup_insert, ?fn_lookup_insert_ne;
      (done || lia).
  - by constructor.
  - intros x Hr. destruct (Hx x Hr) as [Hne Hr']. destruct (H4 x Hr') as (? & ? & ?).
    rewrite !fn_lookup_insert_ne by done. split; [done|]. split; [|done].
    rewrite elem_of_cons. intros [? | ?]; done.
  - intros x. rewrite elem_of_cons. intros [-> | ?]; [done | by apply H5].
  - intros x Hxb. rewrite elem_of_cons. destruct (decide (x = l)) as [-> | ?]; [by left; left|].
    rewrite fn_lookup_insert_ne by done. destruct (H6 x Hxb) as [? | ?]; [left; by right | by right].
  - intros x Hr Hp. destruct (Hx x Hr) as [Hne Hr']. rewrite fn_lookup_insert_ne by done.
    apply H7; [done|]. unfold pending in *. cbn in Hp. by rewrite fn_lookup_insert_ne in Hp.
Qed.

Section ref_counts.
Context `{StdHeap}.

(** A release that does not cancel the timer. *)
Lemma release_quiet t ext l :
  live t ext -> 0 < ext l -> (pending t l = true -> 3 <= in_heap t l + ext l) ->
  exists t', (forall fuel, release (S fuel) l t = Some t') /\ live t' (<[l := ext l - 1]> ext)
    /\ heap_ t' = heap_ t /\ stable t t'.
Proof.
  intros Hl He Hp. destruct (lv_used _ _ Hl l (or_intror He)) as (Hb & Hf & Hr).
  remember (in_heap t l + ext l - 1) as n eqn:Hn.
  pose proof (stable_set_ref t l n) as Hst. set (t1 := set_impl t l (with_ref (impls t l) n)) in *.
  assert (0 <= in_heap t l) by (unfold in_heap; case_decide; lia).
  exists (if n =? 0 then dealloc l t1 else t1). split; [|split].
  - intros fuel. cbn [release]. rewrite Hr, <- Hn. fold t1. rewrite (stable_pending _ _ l Hst).
    destruct (Z.eqb_spec n 1) as [-> | E1]; [|by destruct (n =? 0)].
    destruct (pending t l); [specialize (Hp eq_refl); lia | done].
  - destruct (Z.eqb_spec n 0) as [E0 | E0].
    + assert (ext l = 1 /\ in_heap t l = 0) as [E Eh] by lia. rewrite E. apply live_dealloc; try done.
      unfold in_heap in Eh. by case_decide.
    + apply (live_set_ref t ext); try done.
      * rewrite fn_lookup_insert. lia.
      * intros x ?. by rewrite fn_lookup_insert_ne.
      * rewrite fn_lookup_insert. lia.
      * lia.
      * intros Hpend. specialize (Hp Hpend). lia.
  - destruct (n =? 0); (split; [done|]); destruct Hst; by split.
Qed.

(** Destroying a list of handles of timers that are not pending. *)
Lemma release_all_quiet ls t ext :
  NoDup ls -> (forall l, l ∈ ls -> pending t l = false) -> (forall l, 0 <= ext l) ->
  live t (fun x => ext x + (if decide (x ∈ ls) then 1 else 0)) ->
  exists t', (forall fuel, release_all (release (S fuel)) ls t = Some t') /\ live t' ext
    /\ heap_ t' = heap_ t /\ stable t t'.
Proof.
  intros Hnd. revert t. induction Hnd as [|l ls Hl Hnd IH]; intros t Hp H0 Hlive.
  - exists t. split; [done|]. split; [|done]. eapply live_ext_eq; [|exact Hlive].
    intros l. cbn. rewrite decide_False by apply not_elem_of_nil. lia.
  - destruct (release_quiet t _ l Hlive) as (t1 & E1 & Hl1 & Hh1 & Hs1).
    + cbn. rewrite decide_True by by left. specialize (H0 l). lia.
    + rewrite Hp by by left. done.
    + destruct (IH t1) as (t2 & E2 & Hl2 & Hh2 & Hs2).
      * intros x Hx. rewrite (stable_pending _ _ x Hs1). apply Hp. by right.
      * done.
      * eapply live_ext_eq; [|exact Hl1]. intros x. cbn.
        destruct (decide (l = x)) as [<- | Hne].
        -- rewrite fn_lookup_insert. rewrite (decide_True (P := l ∈ l :: ls)) by by left.
           rewrite decide_False by done. lia.
        -- rewrite fn_lookup_insert_ne by done. f_equal.
           apply decide_ext. rewrite elem_of_cons. intuition congruence.
      * exists t2. split; [intros fuel; cbn [release_all]; rewrite E1; apply E2|].
        split; [done|]. split; [congruence | by transitivity t1].
Qed.

(** ** The heap *)

Context {HL : StdHeapLaws _}.

Definition not_pending (t : TimerQueue) : list nat :=
  filter (fun l => pending t l = false) (heap_ t).

(** A well-formed queue: reference counts, heap order, and at least as many
    timers counted as cancelled as there are cancelled timers in the heap. *)
Record wf (t : TimerQueue) (ext : nat -> Z) : Prop := {
  wf_live : live t ext;
  wf_heap : is_heap (expiry_of t) (heap_ t);
  wf_cancelled : Z.of_nat (length (not_pending t)) <= cancelled_ t
}.

(** What the internal operations may change: they only remove from the heap
    timers that are not pending. *)
Record shrinks (t t' : TimerQueue) : Prop := {
  sh_max_id : max_id_ t' = max_id_ t;
  sh_slabs : slabs_ t' = slabs_ t;
  sh_slot : forall l, slot (impls t' l) = slot (impls t l);
  sh_expiry : forall l, expiry (impls t' l) = expiry (impls t l);
  sh_interval : forall l, interval (impls t' l) = interval (impls t l);
  sh_heap : forall l, l ∈ heap_ t' -> l ∈ heap_ t;
  sh_keep : forall l, l ∈ heap_ t -> pending t l = true -> l ∈ heap_ t';
  sh_exact : cancelled_ t' - Z.of_nat (length (not_pending t'))
             <= cancelled_ t - Z.of_nat (length (not_pending t))
}.

Lemma shrinks_pending t t' l : shrinks t t' -> pending t' l = pending t l.
Proof. intros Hs. unfold pending. by rewrite (sh_slot _ _ Hs). Qed.

#[export] Instance shrinks_preorder : PreOrder shrinks.
Proof.
  split.
  - intros t. split; (done || lia).
  - intros t1 t2 t3 H12 H23. pose proof H12 as []. pose proof H23 as [].
    split; intros; try congruence; try lia; auto.
    apply (sh_keep _ _ H23); [by apply (sh_keep _ _ H12)|]. by rewrite (shrinks_pending _ _ _ H12).
Qed.

Lemma filter_pending_perm (t t' : TimerQueue) (h h' : list nat) (b : bool) :
  (forall l, pending t' l = pending t l) -> h' ≡ₚ h ->
  length (filter (fun l => pending t' l = b) h') = length (filter (fun l => pending t l = b) h).
Proof.
  intros Hp Hh. rewrite Hh. f_equal. apply list_filter_iff. intros x. by rewrite Hp.
Qed.

(** The front is out of the heap, with two handles: the one returned, and the one that
    the heap held. *)
Lemma live_popped t ext l h h' n :
  live t ext -> heap_ t = l :: h -> h' ≡ₚ h -> n = ref_count (impls t l) + 1 ->
  live (set_heap (set_impl t l (with_ref (impls t l) n)) h') (<[l := ext l + 2]> ext).
Proof.
  intros Hl Hh Hp ->. pose proof Hl as [H1 H2 H3 H4 H5 H6 H7].
  destruct (H4 l) as (Hb & Hf & Hr); [left; rewrite Hh; left|].
  assert (in_heap t l = 1) as Hin by (unfold in_heap; rewrite Hh, decide_True by left; done).
  pose proof (stable_set_ref t l (ref_count (impls t l) + 1)) as Hst.
  assert (NoDup (l :: h)) as Hnd by (by rewrite <- Hh). apply NoDup_cons in Hnd as [Hlh Hnd].
  assert (l ∉ h') as Hlh' by (by rewrite Hp).
  set (t1 := set_heap _ h').
  assert (forall x, x <> l -> x ∈ h' <-> x ∈ heap_ t) as Hmem.
  { intros x Hne. rewrite Hp, Hh, elem_of_cons. intuition congruence. }
  assert (forall x, x <> l -> in_heap t1 x = in_heap t x) as Hinx.
  { intros x Hne. unfold in_heap. cbn. by apply decide_ext, Hmem. }
  assert (in_heap t1 l = 0) as Hin1 by (unfold in_heap; cbn; by rewrite decide_False).
  split; try done.
  - intros x. destruct (decide (l = x)) as [<- | ?];
      rewrite ?fn_lookup_insert, ?fn_lookup_insert_ne by done; [specialize (H1 l); lia | done].
  - cbn. by rewrite Hp.
  - intros x. destruct (decide (l = x)) as [<- | ?].
    + intros _. split; [done|]. split; [done|]. rewrite Hin1, fn_lookup_insert. cbn.
      rewrite fn_lookup_insert. cbn. lia.
    + rewrite Hinx, fn_lookup_insert_ne by done. cbn. rewrite fn_lookup_insert_ne by done.
      rewrite Hmem by done. apply H4.
  - intros x Hx. destruct (decide (l = x)) as [<- | ?].
    + right. right. rewrite fn_lookup_insert. specialize (H1 l). lia.
    + rewrite fn_lookup_insert_ne by done. cbn. rewrite Hmem by done. by apply H6.
  - intros x Hx Hpx. rewrite (stable_pending t t1) in Hpx by (destruct Hst; by split).
    destruct (decide (l = x)) as [<- | ?].
    + rewrite fn_lookup_insert. specialize (H1 l). lia.
    + rewrite Hinx, fn_lookup_insert_ne in * by done. apply H7; [|done].
      cbn in Hx. rewrite Hmem in Hx by done. done.
Qed.

(** Popping the front: its handle is returned, the others stay. *)
Lemma pop_spec t ext l h :
  live t ext -> heap_ t = l :: h -> is_heap (expiry_of t) (heap_ t) ->
  exists t', (forall fuel, pop (release (S fuel)) t = Some (l, t'))
    /\ live t' (<[l := ext l + 1]> ext) /\ heap_ t' ≡ₚ h /\ is_heap (expiry_of t') (heap_ t')
    /\ stable t t'.
Proof.
  intros Hl Hh Hord. pose proof Hl as [H1 H2 H3 H4 H5 H6 H7].
  destruct (H4 l) as (Hb & Hf & Hr); [left; rewrite Hh; left|].
  assert (in_heap t l = 1) as Hin by (unfold in_heap; rewrite Hh, decide_True by left; done).
  rewrite Hh in Hord.
  pose proof (stable_set_ref t l (ref_count (impls t l) + 1)) as Hst.
  set (t0 := add_ref l t) in *. change (set_impl _ _ _) with t0 in Hst.
  destruct (pop_heap_spec nat (expiry_of t0) l h) as (h' & E & Hp & Hord').
  { eapply is_heap_ext; [|exact Hord]. intros x _. symmetry. by apply stable_expiry_of. }
  assert (NoDup (l :: h)) as Hnd by (by rewrite <- Hh).
  apply NoDup_cons in Hnd as [Hlh Hnd].
  assert (l ∉ h') as Hlh' by (by rewrite Hp).
  set (t1 := set_heap t0 h').
  assert (forall rel, pop rel t = (t ← rel l t1; Some (l, t))) as Epop.
  { intros rel. unfold pop. rewrite Hh. cbv zeta. fold t0.
    replace (heap_ t0) with (l :: h) by (by rewrite <- Hh). rewrite E.
    rewrite last_snoc. cbn [mbind option_bind]. by rewrite removelast_last. }
  assert (live t1 (<[l := ext l + 2]> ext)) as Hl1 by (by apply (live_popped t ext l h h')).
  destruct (release_quiet t1 _ l Hl1) as (t2 & E2 & Hl2 & Hh2 & Hs2).
  - rewrite fn_lookup_insert. specialize (H1 l). lia.
  - rewrite fn_lookup_insert. rewrite (stable_pending t t1) by (destruct Hst; by split).
    intros Hpl. specialize (H7 l ltac:(left; rewrite Hh; left) Hpl).
    unfold in_heap. cbn. rewrite decide_False by done. lia.
  - exists t2. split; [intros fuel; by rewrite Epop, E2|].
    assert (stable t t2) as Hst2 by (transitivity t1; [destruct Hst; by split | done]).
    split; [|split; [by rewrite Hh2|]]; [|split; [|done]].
    + eapply live_ext_eq; [|exact Hl2]. intros x.
      destruct (decide (l = x)) as [<- | ?]; rewrite ?fn_lookup_insert, ?fn_lookup_insert_ne by done;
        (done || lia).
    + rewrite Hh2. eapply is_heap_ext; [|exact Hord']. intros x _.
      rewrite (stable_expiry_of _ _ x Hst2). by apply stable_expiry_of.
Qed.

(** Popping and destroying a front that is not pending, and counting it out. *)
Lemma drop_front_spec t ext l h :
  wf t ext -> heap_ t = l :: h -> pending t l = false ->
  exists t1 t2, (forall fuel, pop (release (S fuel)) t = Some (l, t1))
    /\ (forall fuel, release (S fuel) l t1 = Some t2)
    /\ let t' := set_cancelled t2 (cancelled_ t2 - 1) in
       wf t' ext /\ shrinks t t' /\ heap_ t' ≡ₚ h.
Proof.
  intros [Hl Hord Hc] Hh Hp.
  destruct (pop_spec t ext l h Hl Hh Hord) as (t1 & E1 & Hl1 & Hh1 & Hord1 & Hs1).
  pose proof (lv_ext _ _ Hl l) as H0.
  destruct (release_quiet t1 _ l Hl1) as (t2 & E2 & Hl2 & Hh2 & Hs2).
  { rewrite fn_lookup_insert. lia. }
  { rewrite (stable_pending _ _ _ Hs1), Hp. done. }
  exists t1, t2. split; [done|]. split; [done|]. cbv zeta.
  assert (stable t t2) as Hs by (by transitivity t1).
  assert (length (not_pending t) = S (length (not_pending t2))) as Hnp.
  { unfold not_pending at 1. rewrite Hh, filter_cons, decide_True by done. cbn. f_equal.
    unfold not_pending. rewrite <- (filter_pending_perm t t2 h (heap_ t2) false); [done | |].
    - intros x. by apply stable_pending.
    - by rewrite Hh2, Hh1. }
  assert (NoDup (l :: h)) as Hnd by (rewrite <- Hh; apply Hl).
  split; [|split].
  - split.
    + assert (live t2 ext) as [] ; [|by split].
      eapply live_ext_eq; [|exact Hl2]. intros x.
      destruct (decide (l = x)) as [<- | ?]; rewrite ?fn_lookup_insert, ?fn_lookup_insert_ne by done;
        (done || lia).
    + cbn. rewrite Hh2. eapply is_heap_ext; [|exact Hord1]. intros x _. symmetry.
      exact (stable_expiry_of _ _ x Hs2).
    + change (not_pending (set_cancelled t2 _)) with (not_pending t2). cbn.
      rewrite (st_cancelled _ _ Hs). lia.
  - destruct Hs. split; try done.
    + intros x. cbn. rewrite Hh2, Hh1, Hh. apply list_elem_of_further.
    + intros x Hx Hpx. cbn. rewrite Hh2, Hh1. rewrite Hh in Hx.
      apply elem_of_cons in Hx as [-> | ?]; [congruence | done].
    + change (not_pending (set_cancelled t2 _)) with (not_pending t2). cbn. lia.
  - cbn. by rewrite Hh2, Hh1.
Qed.

Definition front_pending (t : TimerQueue) : Prop :=
  match heap_ t with [] => True | l :: _ => pending t l = true end.

(** The timers that are kept and those that are removed. *)
Definition kept (t : TimerQueue) : list nat := filter (fun l => pending t l = true) (heap_ t).

Lemma elem_of_kept t x : x ∈ kept t <-> pending t x = true /\ x ∈ heap_ t.
Proof. unfold kept, not_pending. by rewrite list_elem_of_filter. Qed.

Lemma elem_of_not_pending t x : x ∈ not_pending t <-> pending t x = false /\ x ∈ heap_ t.
Proof. unfold kept, not_pending. by rewrite list_elem_of_filter. Qed.

(** The handles of the timers that are removed are out of the heap, and counted as held. *)
Lemma live_kept t ext :
  live t ext -> live (set_heap t (kept t)) (fun x => ext x + (if decide (x ∈ not_pending t) then 1 else 0)).
Proof.
  intros [H1 H2 H3 H4 H5 H6 H7].
  assert (forall x, x ∈ heap_ t <-> x ∈ kept t \/ x ∈ not_pending t) as Hsplit.
  { intros x. rewrite elem_of_kept, elem_of_not_pending. destruct (pending t x); intuition. }
  assert (forall x, x ∈ kept t -> x ∈ not_pending t -> False) as Hdisj.
  { intros x. rewrite elem_of_kept, elem_of_not_pending. intuition congruence. }
  assert (forall x, in_heap (set_heap t (kept t)) x + (if decide (x ∈ not_pending t) then 1 else 0)
                    = in_heap t x) as Hin.
  { intros x. unfold in_heap. cbn. specialize (Hsplit x). specialize (Hdisj x).
    repeat case_decide; intuition. }
  assert (forall x, x ∈ kept t \/ 0 < ext x + (if decide (x ∈ not_pending t) then 1 else 0) <->
            x ∈ heap_ t \/ 0 < ext x) as Hused.
  { intros x. rewrite Hsplit. specialize (H1 x). case_decide; intuition lia. }
  split; cbn; try done.
  - intros x. specialize (H1 x). case_decide; lia.
  - by apply NoDup_filter.
  - intros x Hx. rewrite Hused in Hx. destruct (H4 x Hx) as (? & ? & ?).
    split; [done|]. split; [done|]. specialize (Hin x). lia.
  - intros x Hx. destruct (H6 x Hx) as [? | Hx']; [by left | right; by apply Hused].
  - intros x Hx Hp. rewrite Hused in Hx. specialize (H7 x Hx Hp). specialize (Hin x). lia.
Qed.

(** The heap is rebuilt from the timers that were kept, and none counts as cancelled. *)
Lemma rebuilt_spec t t1 ext :
  Z.of_nat (length (not_pending t)) <= cancelled_ t -> live t1 ext -> heap_ t1 = kept t -> stable t t1 ->
  let t' := set_cancelled (set_heap t1 (make_heap (expiry_of t1) (heap_ t1))) 0 in
  wf t' ext /\ shrinks t t' /\ front_pending t'.
Proof.
  intros Hc Hl1 Hh1 Hs1 t'.
  destruct (make_heap_spec nat (expiry_of t1) (heap_ t1)) as [Hperm Hord'].
  assert (heap_ t' ≡ₚ kept t) as Hh' by (unfold t'; cbn; by rewrite Hperm, Hh1).
  assert (forall x, pending t' x = pending t x) as Hpend.
  { intros x. transitivity (pending t1 x); [done|]. by rewrite (stable_pending _ _ _ Hs1). }
  assert (not_pending t' = []) as Hnp.
  { apply elem_of_nil_inv. intros x. rewrite elem_of_not_pending, Hpend, Hh', elem_of_kept. intuition congruence. }
  split; [|split].
  - split; [|done | rewrite Hnp; done]. destruct Hl1 as [H1 H2 H3 H4 H5 H6 H7].
    assert (forall x, x ∈ heap_ t' <-> x ∈ heap_ t1) as Hmem by (intros x; by rewrite Hh', Hh1).
    assert (forall x, in_heap t' x = in_heap t1 x) as Hin.
    { intros x. unfold in_heap. by apply decide_ext. }
    split; try done; intros; rewrite ?Hin, ?Hmem in *; auto. rewrite Hh', <- Hh1. done.
  - destruct Hs1. split; try done.
    + intros x. rewrite Hh', elem_of_kept. by intros [].
    + intros x Hx Hpx. by rewrite Hh', elem_of_kept.
    + rewrite Hnp. cbn. lia.
  - unfold front_pending. destruct (heap_ t') as [|x h] eqn:Eh; [done|].
    assert (x ∈ x :: h) as Hx by left. rewrite Hh', elem_of_kept, <- Hpend in Hx. apply Hx.
Qed.

(** Collecting the timers that are not pending. *)
Lemma gc_spec t ext :
  wf t ext -> front_pending t ->
  exists t', (forall fuel, gc (release (S fuel)) t = Some t') /\ wf t' ext /\ shrinks t t' /\ front_pending t'
    /\ 2 * cancelled_ t' <= Z.of_nat (length (heap_ t')).
Proof.
  intros Hwf Hfr. pose proof Hwf as [Hl Hord Hc]. unfold gc.
  destruct (Z.ltb_spec (Z.of_nat (length (heap_ t)) / 2) (cancelled_ t)) as [Hbig | Hsmall].
  - destruct (release_all_quiet (not_pending t) (set_heap t (kept t)) ext) as (t1 & E & Hl1 & Hh1 & Hs1).
    + apply NoDup_filter, (lv_heap _ _ Hl).
    + intros x Hx. apply elem_of_not_pending in Hx. apply Hx.
    + apply Hl.
    + by apply live_kept.
    + eexists. split; [intros fuel; unfold not_pending, kept in E; by rewrite E|].
      destruct (rebuilt_spec t t1 ext Hc Hl1 Hh1) as (? & ? & ?); [destruct Hs1; by split|].
      repeat (split; [done|]). cbn. lia.
  - exists t. repeat (split; [done|]).
    pose proof (Z.mul_div_le (Z.of_nat (length (heap_ t))) 2 ltac:(lia)). lia.
Qed.

(** The cancellation loop ends with a pending timer at the front. *)
Lemma cancel_loop_spec t ext :
  wf t ext ->
  exists t', (forall fuel, (length (heap_ t) + 2 <= fuel)%nat -> cancel_loop fuel t = Some t')
    /\ wf t' ext /\ shrinks t t' /\ front_pending t'
    /\ 2 * cancelled_ t' <= Z.of_nat (length (heap_ t')).
Proof.
  remember (length (heap_ t)) as n eqn:Hn. revert t Hn. induction (lt_wf n) as [n _ IH].
  intros t Hn Hwf.
  destruct (match heap_ t with l :: _ => negb (pending t l) | [] => false end) eqn:Hdrop.
  - destruct (heap_ t) as [|l h] eqn:Eh; [done|]. apply negb_true_iff in Hdrop.
    destruct (drop_front_spec t ext l h Hwf Eh Hdrop) as (t1 & t2 & E1 & E2 & Hrest).
    cbv zeta in Hrest. destruct Hrest as (Hwf' & Hs & Hh').
    set (t3 := set_cancelled t2 (cancelled_ t2 - 1)) in *.
    cbn in Hn. assert (length (heap_ t3) = length h) as Hlen by (by rewrite Hh').
    destruct (IH (length h) ltac:(lia) t3 ltac:(done) Hwf') as (t' & E & Hw & Hs' & Hrest).
    exists t'. split; [|split; [done | split; [by transitivity t3 | done]]].
    intros [|[|fuel]] Hf; [lia.. |]. transitivity (cancel_loop (S fuel) t3); [|apply E; lia].
    cbn [cancel_loop]. rewrite Eh, Hdrop, E1. cbn [mbind option_bind]. rewrite E2. done.
  - assert (front_pending t) as Hfp.
    { unfold front_pending. destruct (heap_ t); [done|]. by apply negb_false_iff in Hdrop. }
    destruct (gc_spec t ext Hwf Hfp) as (t' & Eg & Hg). exists t'. split; [|done].
    intros [|[|fuel]] Hf; [lia.. |]. cbn [cancel_loop]. unfold front_pending in Hfp.
    destruct (heap_ t) as [|l h]; [apply Eg|]. rewrite Hfp. apply Eg.
Qed.

(** ** Cancelling *)

Definition slot_off (t : TimerQueue) (l : nat) : TimerQueue :=
  set_impl t l (with_slot (impls t l) None).

(** Changes of a record that keep its count and do not make it pending. *)
Lemma live_same_refs t t' ext :
  live t ext -> heap_ t' = heap_ t -> free_ t' = free_ t -> slabs_ t' = slabs_ t ->
  (forall l, ref_count (impls t' l) = ref_count (impls t l)) ->
  (forall l, pending t' l = true -> pending t l = true) -> live t' ext.
Proof.
  intros [H1 H2 H3 H4 H5 H6 H7] Eh Ef Es Er Hp.
  assert (forall l, in_heap t' l = in_heap t l) as Hin by (intros; unfold in_heap; by rewrite Eh).
  assert (bound t' = bound t) as Eb by (unfold bound; by rewrite Es).
  split; try done; rewrite ?Eh, ?Ef, ?Eb; try done.
  - intros l. rewrite Er, Hin. apply H4.
  - intros l Hl Hpl. rewrite Hin. auto.
Qed.

Lemma impl_lookup t l i x :
  impls (set_impl t l i) x = if decide (l = x) then i else impls t x.
Proof. cbn. case_decide as E; [rewrite <- E; apply fn_lookup_insert | by apply fn_lookup_insert_ne]. Qed.

Lemma pending_slot_off t l x :
  pending (slot_off t l) x = if decide (l = x) then false else pending t x.
Proof. unfold pending, slot_off. rewrite impl_lookup. by case_decide. Qed.

Lemma slot_off_same t l x :
  ref_count (impls (slot_off t l) x) = ref_count (impls t x)
  /\ expiry (impls (slot_off t l) x) = expiry (impls t x)
  /\ interval (impls (slot_off t l) x) = interval (impls t x)
  /\ (x <> l -> slot (impls (slot_off t l) x) = slot (impls t x))
  /\ slot (impls (slot_off t l) l) = None.
Proof.
  unfold slot_off. rewrite !impl_lookup, (decide_True (P := l = l)) by done.
  destruct (decide (l = x)) as [<- | ?]; split_and!; done.
Qed.

Lemma live_slot_off t ext l : live t ext -> live (slot_off t l) ext.
Proof.
  intros Hl. apply (live_same_refs t); try done.
  - intros x. apply slot_off_same.
  - intros x. rewrite pending_slot_off. by case_decide.
Qed.

(** How many timers of the heap are not pending. *)
Lemma count_slot_off t l h :
  NoDup h ->
  length (filter (fun x => pending (slot_off t l) x = false) h)
  = (length (filter (fun x => pending t x = false) h)
     + (if decide (l ∈ h /\ pending t l = true) then 1 else 0))%nat.
Proof.
  induction 1 as [|x h Hx Hnd IH].
  { cbn. rewrite decide_False; [done|]. intros [Hn _]. by apply not_elem_of_nil in Hn. }
  rewrite !filter_cons. destruct (decide (l = x)) as [<- | Hne].
  - rewrite (decide_False (P := l ∈ h /\ _)) in IH by intuition.
    rewrite (decide_True (P := pending (slot_off t l) l = false))
      by (rewrite pending_slot_off; by rewrite decide_True).
    destruct (pending t l) eqn:Ep.
    + rewrite (decide_False (P := true = false)) by done.
      rewrite (decide_True (P := l ∈ l :: h /\ _)) by (split; [left | done]). cbn. lia.
    + rewrite (decide_True (P := false = false)) by done.
      rewrite (decide_False (P := l ∈ l :: h /\ _)) by (intros [_ [=]]). cbn. lia.
  - assert (pending (slot_off t l) x = pending t x) as Ep.
    { rewrite pending_slot_off. by rewrite decide_False. }
    rewrite Ep. assert (l ∈ x :: h <-> l ∈ h) as Hin by (rewrite elem_of_cons; intuition).
    destruct (decide (l ∈ h /\ pending t l = true)), (decide (l ∈ x :: h /\ pending t l = true));
      try tauto; case_decide; cbn; lia.
Qed.

(** What operations on existing timers may change. *)
Record reduces (t t' : TimerQueue) : Prop := {
  rd_max_id : max_id_ t' = max_id_ t;
  rd_slabs : slabs_ t' = slabs_ t;
  rd_slot : forall l, slot (impls t' l) = slot (impls t l) \/ slot (impls t' l) = None;
  rd_expiry : forall l, expiry (impls t' l) = expiry (impls t l);
  rd_heap : forall l, l ∈ heap_ t' -> l ∈ heap_ t;
  rd_keep : forall l, l ∈ heap_ t -> pending t' l = true -> l ∈ heap_ t'
}.

Lemma reduces_pending t t' l : reduces t t' -> pending t' l = true -> pending t l = true.
Proof. unfold pending. intros Hr. destruct (rd_slot _ _ Hr l) as [-> | ->]; done. Qed.

#[export] Instance reduces_preorder : PreOrder reduces.
Proof.
  split.
  - intros t. split; try done. by left.
  - intros t1 t2 t3 H12 H23. pose proof H12 as []. pose proof H23 as [].
    split; intros; try congruence; auto.
    + destruct (rd_slot _ _ H23 l) as [-> | ?]; [auto | by right].
    + apply (rd_keep _ _ H23); [|done]. apply (rd_keep _ _ H12); [done|].
      by apply (reduces_pending _ _ _ H23).
Qed.

Lemma shrinks_reduces t t' : shrinks t t' -> reduces t t'.
Proof.
  intros Hs. split; try apply Hs.
  - intros l. left. apply Hs.
  - intros l Hl Hp. apply Hs; [done|]. by rewrite <- (shrinks_pending _ _ _ Hs).
Qed.

Lemma stable_reduces t t' : stable t t' -> heap_ t' = heap_ t -> reduces t t'.
Proof.
  intros Hs Eh. split; rewrite ?Eh; try done; try apply Hs. intros l. left. apply Hs.
Qed.

(** Resetting the slot of a timer and telling the queue. *)
Lemma cancelled_spec t ext l :
  live (slot_off t l) ext -> is_heap (expiry_of t) (heap_ t) ->
  Z.of_nat (length (not_pending t)) <= cancelled_ t ->
  exists t', (forall fuel, (length (heap_ t) + 2 <= fuel)%nat ->
      cancel_loop fuel (set_cancelled (slot_off t l) (cancelled_ t + 1)) = Some t')
    /\ wf t' ext /\ reduces t t' /\ front_pending t' /\ pending t' l = false
    /\ (forall x, x <> l -> slot (impls t' x) = slot (impls t x))
    /\ (l ∈ heap_ t -> pending t l = true ->
         cancelled_ t = Z.of_nat (length (not_pending t)) ->
         cancelled_ t' = Z.of_nat (length (not_pending t'))).
Proof.
  intros Hl Hord Hc. set (t0 := set_cancelled (slot_off t l) (cancelled_ t + 1)).
  pose proof (count_slot_off t l (heap_ t) (lv_heap _ _ Hl)) as Hcount.
  fold (not_pending t) in Hcount. change (filter _ _) with (not_pending t0) in Hcount at 1.
  destruct (cancel_loop_spec t0 ext) as (t' & E & Hwf & Hs & Hfr & _).
  - split; [by destruct Hl | |].
    + eapply is_heap_ext; [|exact Hord]. intros x _. symmetry. apply slot_off_same.
    + rewrite Hcount. cbn. case_decide; lia.
  - exists t'. split; [done|]. split; [done|].
    assert (reduces t t0) as Hr0.
    { split; try done.
      - intros x. cbn. destruct (decide (x = l)) as [-> | ?]; [right | left]; by apply slot_off_same.
      - intros x. apply slot_off_same. }
    split; [transitivity t0; [done | by apply shrinks_reduces]|]. split; [done|].
    split; [|split].
    + rewrite (shrinks_pending _ _ _ Hs). change (pending (slot_off t l) l = false).
      rewrite pending_slot_off. by rewrite decide_True.
    + intros x Hx. rewrite (sh_slot _ _ Hs). by apply slot_off_same.
    + intros Hin Hp Hex. pose proof (sh_exact _ _ Hs) as Hle. pose proof (wf_cancelled _ _ Hwf).
      rewrite Hcount, decide_True in Hle by done. cbn in Hle. lia.
Qed.

Definition exact (t : TimerQueue) : Prop := cancelled_ t = Z.of_nat (length (not_pending t)).

Lemma stable_wf_parts t t' :
  stable t t' -> heap_ t' = heap_ t ->
  not_pending t' = not_pending t
  /\ (is_heap (expiry_of t) (heap_ t) -> is_heap (expiry_of t') (heap_ t'))
  /\ (front_pending t -> front_pending t').
Proof.
  intros Hs Eh. split; [|split].
  - unfold not_pending. rewrite Eh. apply list_filter_iff. intros x. by rewrite (stable_pending _ _ _ Hs).
  - rewrite Eh. apply is_heap_ext. intros x _. symmetry. by apply stable_expiry_of.
  - unfold front_pending. rewrite Eh. destruct (heap_ t); [done|]. by rewrite (stable_pending _ _ _ Hs).
Qed.

(** The last handle outside the heap is destroyed: the timer loses its slot. *)
Lemma live_last t ext l :
  live t ext -> 0 < ext l -> in_heap t l + ext l = 2 ->
  live (slot_off (set_impl t l (with_ref (impls t l) 1)) l) (<[l := ext l - 1]> ext).
Proof.
  intros Hl He H2. destruct (lv_used _ _ Hl l (or_intror He)) as (Hb & Hfr & _).
  assert (live (set_impl (slot_off t l) l (with_ref (impls (slot_off t l) l) 1))
            (<[l := ext l - 1]> ext)) as Hl2.
  { apply (live_set_ref (slot_off t l) ext); try done; try lia.
    - by apply live_slot_off.
    - rewrite fn_lookup_insert. lia.
    - intros x ?. by rewrite fn_lookup_insert_ne.
    - rewrite fn_lookup_insert. change (in_heap (slot_off t l) l) with (in_heap t l). lia.
    - rewrite pending_slot_off, decide_True by done. done. }
  eapply live_same_refs; [exact Hl2 | done..| |].
  - intros x. unfold slot_off. rewrite !impl_lookup, !(decide_True (P := l = l)) by done. by case_decide.
  - intros x. unfold pending, slot_off. rewrite !impl_lookup, !(decide_True (P := l = l)) by done. by case_decide.
Qed.

(** Destroying a handle, in general: when only the heap's handle or a local one
    is left, a pending timer is cancelled. *)
Lemma release_spec t ext l :
  wf t ext -> 0 < ext l ->
  exists t', (forall fuel, (length (heap_ t) + 3 <= fuel)%nat -> release fuel l t = Some t') /\ wf t' (<[l := ext l - 1]> ext) /\ reduces t t'
    /\ (front_pending t -> front_pending t')
    /\ (forall x, x <> l -> slot (impls t' x) = slot (impls t x))
    /\ (pending t l = false \/ 3 <= in_heap t l + ext l -> heap_ t' = heap_ t /\ stable t t')
    /\ (l ∈ heap_ t -> exact t -> exact t').
Proof.
  intros [Hl Hord Hc] He.
  destruct (decide (pending t l = true /\ in_heap t l + ext l = 2)) as [[Hp H2] | Hquiet].
  - destruct (lv_used _ _ Hl l (or_intror He)) as (Hb & Hfr & Hr).
    set (t1 := set_impl t l (with_ref (impls t l) 1)).
    pose proof (stable_set_ref t l 1) as Hs1. fold t1 in Hs1.
    assert (forall fuel, release (S fuel) l t
              = cancel_loop fuel (set_cancelled (slot_off t1 l) (cancelled_ t1 + 1))) as Erel.
    { intros fuel. cbn [release]. rewrite Hr. replace (in_heap t l + ext l - 1) with 1 by lia.
      cbn [Z.eqb Pos.eqb]. fold t1. by rewrite (stable_pending _ _ _ Hs1), Hp. }
    destruct (stable_wf_parts t t1 Hs1 eq_refl) as (Hnp & Hord1 & _). specialize (Hord1 Hord).
    assert (live (slot_off t1 l) (<[l := ext l - 1]> ext)) as Hl1 by (by apply live_last).
    destruct (cancelled_spec t1 (<[l := ext l - 1]> ext) l Hl1 Hord1)
      as (t' & E & Hwf & Hr' & Hfr' & Hpf & Hslot & Hex).
    + rewrite Hnp. done.
    + exists t'. split; [intros [|fuel] Hf; [lia|]; rewrite Erel; apply E; cbn; lia|]. split; [done|].
      split; [transitivity t1; [by apply stable_reduces | done]|]. split; [done|]. split; [|split].
      * intros x Hx. rewrite Hslot by done. apply Hs1.
      * intros [? | ?]; [congruence | lia].
      * intros Hin Hext. apply Hex; [done | by rewrite (stable_pending _ _ _ Hs1) |].
        rewrite Hnp. done.
  - destruct (release_quiet t ext l Hl He) as (t' & E & Hl' & Hh' & Hs').
    { intros Hp. pose proof (lv_pending _ _ Hl l (or_intror He) Hp). 
      destruct (decide (in_heap t l + ext l = 2)); [tauto | lia]. }
    destruct (stable_wf_parts t t' Hs' Hh') as (Hnp & Hord' & Hfr').
    exists t'. split; [intros [|fuel] Hf; [lia|]; apply E|].
    split; [split; [done | auto | by rewrite Hnp, (st_cancelled _ _ Hs')]|].
    split; [by apply stable_reduces|]. split; [done|]. split; [intros; apply Hs'|].
    split; [done|]. intros _. unfold exact. by rewrite Hnp, (st_cancelled _ _ Hs').
Qed.

Lemma timer_cancel_spec t ext l :
  wf t ext ->
  exists t', (forall fuel, (length (heap_ t) + 2 <= fuel)%nat -> timer_cancel fuel l t = Some t') /\ wf t' ext /\ reduces t t'
    /\ (front_pending t -> front_pending t') /\ pending t' l = false
    /\ (forall x, x <> l -> slot (impls t' x) = slot (impls t x))
    /\ (l ∈ heap_ t -> exact t -> exact t').
Proof.
  intros [Hl Hord Hc]. unfold timer_cancel.
  destruct (pending t l) eqn:Hp; [|exists t; by split_and!].
  destruct (cancelled_spec t ext l (live_slot_off _ _ _ Hl) Hord Hc)
    as (t' & E & Hwf & Hr & Hfr & Hpf & Hslot & Hex).
  exists t'. unfold queue_cancel. fold (slot_off t l). split_and!; auto.
  intros Hin Hext. by apply Hex.
Qed.

(** ** Scheduling *)

Lemma elem_of_rev {A} (x : A) l : x ∈ rev l <-> x ∈ l.
Proof. by rewrite !list_elem_of_In, <- in_rev. Qed.

Lemma NoDup_reverse_rev {A} (l : list A) : NoDup l -> NoDup (rev l).
Proof. rewrite !NoDup_ListNoDup. apply List.NoDup_rev. Qed.

(** A slot that is in the pool, or not yet in it, is not used. *)
Definition unused (t : TimerQueue) (x : nat) : Prop := x ∈ free_ t \/ (bound t <= x)%nat.

Lemma live_unused t ext x : live t ext -> unused t x -> (x ∉ heap_ t) /\ ext x = 0.
Proof.
  intros [H1 _ _ H4 _ _ _] Hx. split; [intros Hin | destruct (decide (ext x = 0)); [done|]; exfalso];
    (destruct (H4 x) as (? & ? & _); [specialize (H1 x); (by left) || (right; lia)|]; destruct Hx; [done | lia]).
Qed.

(** Taking an unused slot [x] out of the pool, of which [f] is left. *)
Lemma live_allocated t ext f sl x i :
  live t ext -> unused t x -> NoDup f -> x ∉ f -> (x < sl * SlabSize)%nat -> (slabs_ t <= sl)%nat ->
  (forall y, y ∈ f -> (y < sl * SlabSize)%nat /\ unused t y) ->
  (forall y, (y < sl * SlabSize)%nat -> unused t y -> y = x \/ y ∈ f) ->
  ref_count i = 1 -> slot i = None -> live (set_impl (set_free t sl f) x i) (<[x := 1]> ext).
Proof.
  intros Hl Hx Hnd Hxf Hxb Hsl Hf1 Hf2 Hr Hs. destruct (live_unused t ext x Hl Hx) as [Hxh Hxe].
  pose proof Hl as [H1 H2 H3 H4 H5 H6 H7].
  assert (forall y, y <> x -> (<[x := 1]> ext) y = ext y) as Hne
    by (intros; by apply fn_lookup_insert_ne).
  assert (bound t <= sl * SlabSize)%nat by (unfold bound; nia).
  split; cbn [heap_ free_ set_impl set_free]; try done.
  - intros y. destruct (decide (y = x)) as [-> | ?]; [rewrite fn_lookup_insert; lia | by rewrite Hne].
  - intros y Hy. rewrite impl_lookup. change (in_heap (set_impl _ x i) y) with (in_heap t y).
    change (bound (set_impl _ x i)) with (sl * SlabSize)%nat.
    destruct (decide (x = y)) as [<- | Hxy].
    + split; [done|]. split; [done|]. unfold in_heap. rewrite decide_False, fn_lookup_insert by done. lia.
    + rewrite Hne in Hy |- * by done. destruct (H4 y Hy) as (? & ? & ?).
      split; [lia|]. split; [|done]. intros Hyf. destruct (Hf1 y Hyf) as [_ [? | ?]]; [done | lia].
  - intros y Hy. apply Hf1, Hy.
  - change (bound (set_impl _ x i)) with (sl * SlabSize)%nat. intros y Hy.
    destruct (decide (y = x)) as [-> | Hyx]; [right; right; rewrite fn_lookup_insert; lia|].
    rewrite Hne by done. destruct (decide (bound t <= y)%nat) as [Hb | Hb].
    + destruct (Hf2 y Hy (or_intror Hb)); [done | by left].
    + destruct (H6 y ltac:(lia)) as [Hyf | ?]; [|by right].
      destruct (Hf2 y Hy (or_introl Hyf)); [done | by left].
  - intros y Hy. change (in_heap (set_impl _ x i) y) with (in_heap t y). unfold pending.
    rewrite impl_lookup. destruct (decide (x = y)) as [<- | Hxy]; [by rewrite Hs|].
    rewrite Hne in * by done. by apply H7.
Qed.

Lemma pool_alloc_spec t ext l t' :
  live t ext -> pool_alloc t = (l, t') ->
  (l ∉ heap_ t) /\ ext l = 0 /\ heap_ t' = heap_ t /\ impls t' = impls t /\ cancelled_ t' = cancelled_ t
  /\ max_id_ t' = max_id_ t
  /\ forall i, ref_count i = 1 -> slot i = None -> live (set_impl t' l i) (<[l := 1]> ext).
Proof.
  intros Hl. pose proof (lv_free _ _ Hl) as H3. pose proof (lv_freeb _ _ Hl) as H5.
  unfold pool_alloc. remember (rev (seq (slabs_ t * SlabSize + 1) (SlabSize - 1))) as slab eqn:Eslab.
  destruct (free_ t) as [|x f] eqn:Ef; intros [= <- <-].
  - assert (unused t (slabs_ t * SlabSize)) as Hu by (right; unfold bound; lia).
    destruct (live_unused _ _ _ Hl Hu) as [? ?].
    split_and!; try done.
    assert (forall y, y ∈ slab <-> (slabs_ t * SlabSize < y < S (slabs_ t) * SlabSize)%nat) as Hslab.
    { intros y. rewrite Eslab, elem_of_rev, elem_of_seq. assert (1 <= SlabSize)%nat by (cbv; lia). lia. }
    assert (1 <= SlabSize)%nat by (cbv; lia).
    intros i Hr Hi. unfold bound in *. apply live_allocated; try done.
    + rewrite Eslab. apply NoDup_reverse_rev, NoDup_seq.
    + rewrite Hslab. lia.
    + lia.
    + lia.
    + intros y. rewrite Hslab. split; [lia | right; unfold bound; lia].
    + intros y Hy [Hn | Hn]; [by rewrite Ef in Hn; apply not_elem_of_nil in Hn|].
      rewrite Hslab. unfold bound in Hn. lia.
  - assert (unused t x) as Hu by (left; rewrite Ef; left). destruct (live_unused _ _ _ Hl Hu) as [? ?]. split_and!; try done.
    apply NoDup_cons in H3 as [Hx Hnd]. intros i Hr Hi. apply live_allocated; try done.
    + apply H5. left.
    + intros y Hy. split; [apply H5; by right | left; rewrite Ef; by right].
    + intros y Hy [Hin | ?]; [rewrite Ef in Hin; by apply elem_of_cons in Hin | unfold bound in *; lia].
Qed.

Lemma push_spec t ext l :
  live (slot_off t l) ext -> l ∉ heap_ t -> 1 <= ext l -> is_heap (expiry_of t) (heap_ t) ->
  pending t l = true ->
  let t' := push l t in
  live t' ext /\ is_heap (expiry_of t') (heap_ t') /\ heap_ t' ≡ₚ l :: heap_ t
  /\ length (not_pending t') = length (not_pending t) /\ stable t t'.
Proof.
  intros Hl Hn He Hord Hp t'. pose proof (stable_set_ref t l (ref_count (impls t l) + 1)) as Hs.
  set (t0 := add_ref l t) in *. change (set_impl _ _ _) with t0 in Hs.
  destruct (push_heap_spec nat (expiry_of t0) (heap_ t) l) as [Hperm Hord'].
  { eapply is_heap_ext; [|exact Hord]. intros x _. symmetry. by apply stable_expiry_of. }
  assert (heap_ t' ≡ₚ l :: heap_ t) as Hh by exact Hperm.
  assert (stable t t') as Hs' by (destruct Hs; by split).
  assert (forall x, x ∈ heap_ t' <-> x = l \/ x ∈ heap_ t) as Hmem.
  { intros x. by rewrite Hh, elem_of_cons. }
  assert (forall x, in_heap t' x = if decide (l = x) then 1 else in_heap t x) as Hin.
  { intros x. unfold in_heap. destruct (decide (l = x)) as [<- | Hne].
    - rewrite decide_True; [done|]. apply Hmem. by left.
    - apply decide_ext. rewrite Hmem. intuition congruence. }
  split; [|split; [exact Hord'|split; [done|split; [|done]]]].
  - destruct Hl as [H1 H2 H3 H4 H5 H6 H7].
    assert (forall x, x ∈ heap_ t' \/ 0 < ext x <-> x ∈ heap_ t \/ 0 < ext x) as Hused.
    { intros x. rewrite Hmem. split; [|tauto]. intros [[-> | ?] | ?]; [right; lia | tauto..]. }
    split; try done.
    + rewrite Hh. by constructor.
    + intros x Hx. rewrite Hused in Hx. destruct (H4 x Hx) as (? & ? & Hr).
      split; [done|]. split; [done|]. rewrite Hin. cbn in Hr.
      change (in_heap (slot_off t l) x) with (in_heap t x) in Hr.
      change (impls t' x) with (impls t0 x). unfold t0, add_ref. rewrite impl_lookup.
      destruct (decide (l = x)) as [<- | ?].
      * rewrite fn_lookup_insert in Hr. cbn in *. unfold in_heap in Hr.
        rewrite decide_False in Hr by done. lia.
      * by rewrite fn_lookup_insert_ne in Hr.
    + intros x Hx. rewrite Hused. apply H6, Hx.
    + intros x Hx Hpx. rewrite Hin. destruct (decide (l = x)) as [<- | Hne]; [lia|].
      apply H7; [by apply Hused|]. rewrite pending_slot_off, decide_False by done.
      by rewrite <- (stable_pending _ _ _ Hs').
  - unfold not_pending. rewrite (filter_pending_perm t t' (l :: heap_ t)); [| |done].
    + rewrite filter_cons, decide_False; [done|]. by rewrite Hp.
    + intros x. by apply stable_pending.
Qed.

Lemma insert_spec t ext exp int s l t' :
  wf t ext -> insert t exp int s = (l, t') ->
  (l ∉ heap_ t) /\ ext l = 0 /\ wf t' (<[l := 1]> ext) /\ heap_ t' ≡ₚ l :: heap_ t
  /\ max_id_ t' = max_id_ t + 1 /\ cancelled_ t' = cancelled_ t
  /\ length (not_pending t') = length (not_pending t)
  /\ id (impls t' l) = max_id_ t' /\ slot (impls t' l) = Some s
  /\ expiry (impls t' l) = exp /\ interval (impls t' l) = int
  /\ (forall x, x <> l -> impls t' x = impls t x).
Proof.
  intros [Hl Hord Hc] E. unfold insert, queue_alloc in E.
  destruct (pool_alloc t) as [l0 t0] eqn:Ea. injection E as -> Et.
  destruct (pool_alloc_spec t ext l t0 Hl Ea) as (Hn & He & Eh & Ei & Ec & Em & Hlive).
  set (i := mkImpl 1 (max_id_ (set_max_id t0 (max_id_ t0 + 1))) exp int (Some s)).
  set (t1 := set_impl (set_max_id t0 (max_id_ t0 + 1)) l i).
  assert (t' = push l t1) as -> by (symmetry; exact Et). clear Et.
  assert (forall x, x <> l -> impls t1 x = impls t x) as Hsame.
  { intros x Hx. unfold t1. rewrite impl_lookup, decide_False by done. cbn. by rewrite Ei. }
  assert (impls t1 l = i) as Hi by (unfold t1; by rewrite impl_lookup, decide_True).
  assert (forall x, x ∈ heap_ t -> x <> l) as Hne by (intros x Hx ->; done).
  destruct (push_spec t1 (<[l := 1]> ext) l) as (Hl' & Hord' & Hh' & Hnp' & Hs').
  - eapply live_same_refs; [apply (Hlive (with_slot i None)); done | done..| |].
    + intros x. unfold slot_off, t1. rewrite !impl_lookup, !(decide_True (P := l = l)) by done.
      by case_decide.
    + intros x. unfold pending, slot_off, t1.
      rewrite !impl_lookup, !(decide_True (P := l = l)) by done. by case_decide.
  - cbn. by rewrite Eh.
  - rewrite fn_lookup_insert. lia.
  - cbn. rewrite Eh. eapply is_heap_ext; [|exact Hord]. intros x Hx. unfold expiry_of.
    change (impls (set_impl _ l i) x) with (impls t1 x). by rewrite Hsame by auto.
  - unfold pending. by rewrite Hi.
  - change (heap_ t1) with (heap_ t0) in Hh'. rewrite Eh in Hh'.
    assert (length (not_pending t1) = length (not_pending t)) as Hnp1.
    { unfold not_pending. change (heap_ t1) with (heap_ t0). rewrite Eh. f_equal.
      apply list_filter_iff'. intros x Hx. unfold pending. by rewrite Hsame by auto. }
    assert (cancelled_ (push l t1) = cancelled_ t) as Ec' by (rewrite (st_cancelled _ _ Hs'); exact Ec).
    split_and!; try done.
    + split; [done | done |]. rewrite Hnp', Hnp1, Ec'. done.
    + rewrite (st_max_id _ _ Hs'). cbn. by rewrite Em.
    + by rewrite Hnp'.
    + unfold push, add_ref. cbn [set_heap impls max_id_]. rewrite impl_lookup, decide_True by done.
      cbn [with_ref id]. by rewrite Hi.
    + by rewrite (st_slot _ _ Hs'), Hi.
    + by rewrite (st_expiry _ _ Hs'), Hi.
    + by rewrite (st_interval _ _ Hs'), Hi.
    + intros x Hx. rewrite <- (Hsame x Hx). unfold push, add_ref. cbn [set_heap impls].
      by rewrite impl_lookup, decide_False.
Qed.

(** ** The client's operations *)

(** [loc] counts the handles of the operations in progress, and [out] is the
    timer whose callback is running, which is not in the heap. *)
Record client_inv (c : client) (loc : nat -> Z) (out : option nat) : Prop := {
  ci_wf : wf (tq c) (fun l => held c l + loc l);
  ci_held : forall l, 0 <= held c l;
  ci_loc : forall l, 0 <= loc l;
  ci_sched : forall l, 0 < held c l + loc l -> pending (tq c) l = true ->
    l ∈ heap_ (tq c) \/ out = Some l
}.

(** No timer due at [now] is added, and the local timers stay where they are. *)
Record later (now : Z) (loc : nat -> Z) (t t' : TimerQueue) : Prop := {
  la_due : forall l, l ∈ heap_ t' -> expiry_of t' l <= now ->
    l ∈ heap_ t /\ expiry_of t' l = expiry_of t l;
  la_loc : forall l, 0 < loc l -> l ∉ heap_ t -> l ∉ heap_ t'
}.

#[export] Instance later_preorder now loc : PreOrder (later now loc).
Proof.
  split; [by split|]. intros t1 t2 t3 [] []. split; [|auto].
  intros l Hl He. destruct (la_due1 l Hl He) as [Hl2 E2]. rewrite E2 in He.
  destruct (la_due0 l Hl2 He) as [? ?]. split; [done | congruence].
Qed.

Lemma reduces_later now loc t t' : reduces t t' -> later now loc t t'.
Proof.
  intros Hr. split.
  - intros l Hl _. split; [by apply Hr | apply Hr].
  - intros l _ Hn Hl. by apply Hn, Hr.
Qed.

Lemma live_heap_length t t' ext ext' :
  live t ext -> live t' ext' -> (forall l, l ∈ heap_ t' -> l ∈ heap_ t) ->
  (length (heap_ t') <= length (heap_ t))%nat.
Proof.
  intros Hl Hl' Hsub. apply submseteq_length, NoDup_submseteq; [apply Hl' | done].
Qed.

Lemma wf_ext_eq t ext ext' : (forall l, ext' l = ext l) -> wf t ext -> wf t ext'.
Proof. intros E [Hl ? ?]. split; try done. by apply (live_ext_eq t ext). Qed.

(** An operation that inserts nothing that is due. *)
Definition op_later (now : Z) (o : op) : Prop :=
  match o with Insert exp _ _ => now < exp | _ => True end.

(** What an operation of the client guarantees. *)
Definition op_result (now : Z) (c : client) (loc : nat -> Z) (out : option nat)
    (r : nat -> option client) : Prop :=
  exists c', (forall fuel, (length (heap_ (tq c)) + 3 <= fuel)%nat -> r fuel = Some c')
    /\ client_inv c' loc out /\ later now loc (tq c) (tq c')
    /\ (length (heap_ (tq c')) <= S (length (heap_ (tq c))))%nat /\ fired c' = fired c
    /\ (out = None -> exact (tq c) -> exact (tq c')).

Lemma op_result_skip now c loc out : client_inv c loc out -> op_result now c loc out (fun _ => Some c).
Proof. intros Hc. exists c. split; [done|]. split; [done|]. split; [done|]. split; [lia | done]. Qed.

(** Operations on an existing timer. *)
Lemma reduces_client now c loc out t' held' :
  client_inv c loc out -> reduces (tq c) t' -> (forall l, 0 <= held' l) ->
  wf t' (fun l => held' l + loc l) -> (forall l, 0 < held' l + loc l -> 0 < held c l + loc l) ->
  client_inv (mkClient t' held' (fired c)) loc out
  /\ later now loc (tq c) t' /\ (length (heap_ t') <= S (length (heap_ (tq c))))%nat.
Proof.
  intros [Hwf Hheld Hloc Hsched] Hr H0 Hwf' Hsub. split; [split; try done|].
  - cbn. intros l Hx Hp. destruct (Hsched l (Hsub l Hx)) as [Hin | ->]; [|left|by right].
    + by apply (reduces_pending (tq c) t').
    + by apply Hr.
  - split; [by apply reduces_later|].
    pose proof (live_heap_length _ _ _ _ (wf_live _ _ Hwf) (wf_live _ _ Hwf') (rd_heap _ _ Hr)). lia.
Qed.

Lemma run_insert_spec now c loc out exp int s :
  client_inv c loc out -> now < exp -> op_result now c loc out (fun fuel => run_op fuel (Insert exp int s) c).
Proof.
  intros Hci0 Hlater. pose proof Hci0 as [Hwf Hheld Hloc Hsched]. pose proof (wf_live _ _ Hwf) as Hl.
  unfold op_result. cbn [run_op].
  destruct (insert (tq c) exp int s) as [l t'] eqn:E.
  destruct (insert_spec _ _ exp int s l t' Hwf E)
    as (Hn & H0 & Hwf' & Hh & _ & Hc' & Hnp & _ & Hs & He & _ & Hsame).
  cbn in H0. assert (held c l = 0 /\ loc l = 0) as [E1 E2] by (specialize (Hheld l); specialize (Hloc l); lia).
  assert (forall x, x ∈ heap_ t' <-> x = l \/ x ∈ heap_ (tq c)) as Hmem.
  { intros x. by rewrite Hh, elem_of_cons. }
  eexists. split; [done|]. split; [|split; [|split; [|split; [done|]]]].
  + split; cbn; try done.
    * eapply wf_ext_eq; [|exact Hwf']. intros x. cbn.
      destruct (decide (l = x)) as [<- | ?]; rewrite ?fn_lookup_insert, ?fn_lookup_insert_ne by done; lia.
    * intros x. destruct (decide (l = x)) as [<- | ?];
        rewrite ?fn_lookup_insert, ?fn_lookup_insert_ne by done; [lia | done].
    * intros x Hx Hp. rewrite Hmem. destruct (decide (x = l)) as [-> | Hne]; [by left; left|].
      rewrite fn_lookup_insert_ne in Hx by done. unfold pending in Hp. rewrite Hsame in Hp by done.
      destruct (Hsched x Hx Hp); [left; by right | by right].
  + cbn. split.
    * intros x Hx Hd. apply Hmem in Hx as [-> | Hx].
      -- unfold expiry_of in Hd. rewrite He in Hd. lia.
      -- split; [done|]. unfold expiry_of. rewrite Hsame; [done|]. by intros ->.
    * intros x Hx Hnx. rewrite Hmem. intros [-> | ?]; [lia | done].
  + cbn. by rewrite Hh.
  + cbn. intros _. unfold exact. by rewrite Hc', Hnp.
Qed.

Lemma run_copy_spec now c loc out l :
  client_inv c loc out -> op_result now c loc out (fun fuel => run_op fuel (Copy l) c).
Proof.
  intros Hci0. pose proof Hci0 as [Hwf Hheld Hloc Hsched]. pose proof (wf_live _ _ Hwf) as Hl.
  pose proof (fun t' held' => reduces_client now c loc out t' held' Hci0) as Hred.
  assert (forall l, 0 < held c l -> 0 < held c l + loc l) as Hpos by (intros x; specialize (Hloc x); lia).
  unfold op_result. cbn [run_op].
  destruct (Z.ltb_spec 0 (held c l)) as [Hh | Hh].
  2: { by apply op_result_skip. }
  pose proof (stable_set_ref (tq c) l (ref_count (impls (tq c) l) + 1)) as Hs.
  destruct (stable_wf_parts _ _ Hs eq_refl) as (Hnp & Hord & _).
  destruct (lv_used _ _ Hl l (or_intror (Hpos l Hh))) as (Hb & Hfr & Hr).
  eexists. split; [done|].
  destruct (Hred (add_ref l (tq c)) (<[l := held c l + 1]> (held c))) as (Hci & Hla & Hlen).
  + by apply stable_reduces.
  + intros x. destruct (decide (l = x)) as [<- | ?];
      rewrite ?fn_lookup_insert, ?fn_lookup_insert_ne by done; [lia | done].
  + split; [|apply Hord, Hwf | unfold add_ref; rewrite Hnp; apply Hwf].
    assert (0 <= in_heap (tq c) l) by (unfold in_heap; case_decide; lia). specialize (Hloc l).
    eapply live_set_ref; [exact Hl | done | done | | | | lia |].
    * cbn. rewrite fn_lookup_insert. lia.
    * intros x ?. cbn. by rewrite fn_lookup_insert_ne.
    * cbn. rewrite fn_lookup_insert. lia.
    * intros Hp. pose proof (lv_pending _ _ Hl l (or_intror (Hpos l Hh)) Hp). lia.
  + intros x. destruct (decide (l = x)) as [<- | ?];
      rewrite ?fn_lookup_insert, ?fn_lookup_insert_ne by done; [specialize (Hloc l); lia | done].
  + split; [done|]. split; [done|]. split; [done|]. split; [done|]. intros _. unfold exact. cbn [tq].
    unfold add_ref. by rewrite Hnp.
Qed.

Lemma run_drop_spec now c loc out l :
  client_inv c loc out -> op_result now c loc out (fun fuel => run_op fuel (Drop l) c).
Proof.
  intros Hci0. pose proof Hci0 as [Hwf Hheld Hloc Hsched]. pose proof (wf_live _ _ Hwf) as Hl.
  pose proof (fun t' held' => reduces_client now c loc out t' held' Hci0) as Hred.
  assert (forall l, 0 < held c l -> 0 < held c l + loc l) as Hpos by (intros x; specialize (Hloc x); lia).
  unfold op_result. cbn [run_op].
  destruct (Z.ltb_spec 0 (held c l)) as [Hh | Hh].
  2: { by apply op_result_skip. }
  destruct (release_spec (tq c) _ l Hwf (Hpos l Hh)) as (t' & E & Hwf' & Hr & _ & _ & Hq & Hex).
  eexists. split; [intros fuel Hf; by rewrite E|].
  destruct (Hred t' (<[l := held c l - 1]> (held c))) as (Hci & Hla & Hlen).
  + done.
  + intros x. destruct (decide (l = x)) as [<- | ?];
      rewrite ?fn_lookup_insert, ?fn_lookup_insert_ne by done; [lia | done].
  + eapply wf_ext_eq; [|exact Hwf']. intros x. cbn.
    destruct (decide (l = x)) as [<- | ?]; rewrite ?fn_lookup_insert, ?fn_lookup_insert_ne by done; lia.
  + intros x. destruct (decide (l = x)) as [<- | ?];
      rewrite ?fn_lookup_insert, ?fn_lookup_insert_ne by done; [specialize (Hloc l); lia | done].
  + split; [done|]. split; [done|]. split; [done|]. split; [done|]. cbn [tq]. intros -> Hext.
    destruct (decide (l ∈ heap_ (tq c))) as [Hin | Hnin]; [by apply Hex|].
    destruct Hq as [Eh Hs].
    { left. destruct (pending (tq c) l) eqn:Ep; [|done].
      destruct (Hsched l (Hpos l Hh) Ep); done. }
    destruct (stable_wf_parts _ _ Hs Eh) as (Hnp & _). unfold exact.
    by rewrite Hnp, (st_cancelled _ _ Hs).
Qed.

Lemma run_cancel_spec now c loc out l :
  client_inv c loc out -> op_result now c loc out (fun fuel => run_op fuel (Cancel l) c).
Proof.
  intros Hci0. pose proof Hci0 as [Hwf Hheld Hloc Hsched]. pose proof (wf_live _ _ Hwf) as Hl.
  pose proof (fun t' held' => reduces_client now c loc out t' held' Hci0) as Hred.
  assert (forall l, 0 < held c l -> 0 < held c l + loc l) as Hpos by (intros x; specialize (Hloc x); lia).
  unfold op_result. cbn [run_op].
  destruct (Z.ltb_spec 0 (held c l)) as [Hh | Hh].
  2: { by apply op_result_skip. }
  destruct (timer_cancel_spec (tq c) _ l Hwf) as (t' & E & Hwf' & Hr & _ & _ & _ & Hex).
  eexists. split; [intros fuel Hf; by rewrite E by lia|].
  destruct (Hred t' (held c) Hr Hheld Hwf') as (Hci & Hla & Hlen); [done|].
  split; [done|]. split; [done|]. split; [done|]. split; [done|]. cbn [tq set_tq]. intros -> Hext.
  destruct (decide (l ∈ heap_ (tq c))) as [Hin | Hnin]; [by apply Hex|].
  specialize (E _ (le_n _)). unfold timer_cancel in E.
  destruct (pending (tq c) l) eqn:Ep; [|by injection E as <-].
  destruct (Hsched l (Hpos l Hh) Ep); done.
Qed.

Lemma run_set_interval_spec now c loc out l d :
  client_inv c loc out -> op_result now c loc out (fun fuel => run_op fuel (SetInterval l d) c).
Proof.
  intros Hci0. pose proof Hci0 as [Hwf Hheld Hloc Hsched]. pose proof (wf_live _ _ Hwf) as Hl.
  pose proof (fun t' held' => reduces_client now c loc out t' held' Hci0) as Hred.
  assert (forall l, 0 < held c l -> 0 < held c l + loc l) as Hpos by (intros x; specialize (Hloc x); lia).
  unfold op_result. cbn [run_op].
  destruct (Z.ltb_spec 0 (held c l)) as [Hh | Hh].
  2: { by apply op_result_skip. }
  set (t' := set_impl (tq c) l (with_interval (impls (tq c) l) d)).
  assert (forall x, ref_count (impls t' x) = ref_count (impls (tq c) x)
            /\ slot (impls t' x) = slot (impls (tq c) x)
            /\ expiry (impls t' x) = expiry (impls (tq c) x)) as Hsame.
  { intros x. unfold t'. rewrite impl_lookup. case_decide as E; [by subst | done]. }
  assert (forall x, pending t' x = pending (tq c) x) as Hp.
  { intros x. unfold pending. destruct (Hsame x) as (_ & -> & _). done. }
  assert (not_pending t' = not_pending (tq c)) as Hnp.
  { unfold not_pending. apply list_filter_iff. intros x. by rewrite Hp. }
  eexists. split; [done|].
  destruct (Hred t' (held c)) as (Hci & Hla & Hlen); try done.
  + split; try done. * intros x. left. apply Hsame. * intros x. apply Hsame.
  + split.
    * eapply live_same_refs; [exact Hl | done.. | |].
      -- intros x. apply Hsame. -- intros x. by rewrite Hp.
    * eapply is_heap_ext; [|apply Hwf]. intros x _. symmetry. apply Hsame.
    * rewrite Hnp. apply Hwf.
  + split; [done|]. split; [done|]. split; [done|]. split; [done|]. intros _. unfold exact.
    cbn [tq set_tq]. by rewrite Hnp.
Qed.

Lemma run_op_spec now o c loc out :
  client_inv c loc out -> op_later now o -> op_result now c loc out (fun fuel => run_op fuel o c).
Proof.
  intros Hc Hlater. destruct o; [by apply run_insert_spec | by apply run_copy_spec
    | by apply run_drop_spec | by apply run_cancel_spec | by apply run_set_interval_spec].
Qed.

Lemma run_ops_spec now os c loc out :
  client_inv c loc out -> Forall (op_later now) os ->
  exists c', (forall fuel, (length (heap_ (tq c)) + length os + 3 <= fuel)%nat ->
      run_ops fuel os c = Some c')
    /\ client_inv c' loc out /\ later now loc (tq c) (tq c')
    /\ (length (heap_ (tq c')) <= length os + length (heap_ (tq c)))%nat /\ fired c' = fired c
    /\ (out = None -> exact (tq c) -> exact (tq c')).
Proof.
  intros Hc Hos. revert c Hc. induction Hos as [|o os Ho Hos IH]; intros c Hc.
  - exists c. by split_and!.
  - destruct (run_op_spec now o c loc out Hc Ho) as (c1 & E1 & Hc1 & Hl1 & Hlen1 & Hf1 & He1).
    destruct (IH c1 Hc1) as (c2 & E2 & Hc2 & Hl2 & Hlen2 & Hf2 & He2).
    exists c2. split_and!; try done; [|by etransitivity | cbn; lia | congruence | auto].
    intros fuel Hf. cbn in Hf. cbn [run_ops]. rewrite E1 by lia. cbn [mbind option_bind].
    apply E2. lia.
Qed.

(** ** Expiry and dispatch *)

(** What the queue looks like when the callback of [l] has returned: the timer is
    scheduled again, or switched off. *)
Definition rescheduled (now : Z) (t : TimerQueue) (l : nat) : TimerQueue :=
  let i := impls t l in
  if pending t l then
    if 0 <? interval i then
      push l (set_impl t l (with_expiry i (Z.max (i64 (expiry i + interval i)) (i64 (now + 1)))))
    else set_impl t l (with_slot i None)
  else t.

Lemma set_expiry_facts t l e x :
  let t' := set_impl t l (with_expiry (impls t l) e) in
  ref_count (impls t' x) = ref_count (impls t x) /\ pending t' x = pending t x
  /\ (x <> l -> expiry_of t' x = expiry_of t x) /\ expiry_of t' l = e.
Proof.
  cbv zeta. unfold pending, expiry_of. rewrite !impl_lookup, (decide_True (P := l = l)) by done.
  destruct (decide (l = x)) as [<- | ?]; split_and!; done.
Qed.

Lemma rescheduled_spec now t ext l :
  wf t ext -> l ∉ heap_ t -> 0 < ext l -> - 2 ^ 63 <= now < 2 ^ 63 - 1 ->
  let t' := rescheduled now t l in
  wf t' ext /\ (length (heap_ t') <= S (length (heap_ t)))%nat
  /\ (pending t' l = true -> l ∈ heap_ t')
  /\ (pending t' l = true -> 3 <= in_heap t' l + ext l)
  /\ (forall x, pending t' x = true -> pending t x = true)
  /\ (forall x, x ∈ heap_ t -> x ∈ heap_ t')
  /\ (forall x, x ∈ heap_ t' -> expiry_of t' x <= now -> x ∈ heap_ t /\ expiry_of t' x = expiry_of t x).
Proof.
  intros Hwf Hn He Hnow. pose proof Hwf as [Hl Hord Hc]. cbv zeta. unfold rescheduled.
  destruct (pending t l) eqn:Hp.
  2: { split_and!; try done; [lia | congruence | congruence]. }
  pose proof (lv_pending _ _ Hl l (or_intror He) Hp) as H2.
  assert (in_heap t l = 0) as Hin by (unfold in_heap; by rewrite decide_False).
  destruct (Z.ltb_spec 0 (interval (impls t l))) as [Hper | Hone].
  - set (e := Z.max _ _). set (t1 := set_impl t l (with_expiry (impls t l) e)).
    assert (now < e) as Hlate by (unfold e; rewrite (wraps_small 64 (now + 1)); [lia | lia | cbn -[Z.pow]; lia]).
    pose proof (fun x => set_expiry_facts t l e x) as Hfacts. cbv zeta in Hfacts. fold t1 in Hfacts.
    assert (not_pending t1 = not_pending t) as Hnp.
    { unfold not_pending. apply list_filter_iff. intros x. by destruct (Hfacts x) as (_ & -> & _). }
    destruct (push_spec t1 ext l) as (Hl' & Hord' & Hh' & Hnp' & Hs').
    + apply live_slot_off. eapply live_same_refs; [exact Hl | done..| |]; intros x.
      * apply Hfacts. * by destruct (Hfacts x) as (_ & -> & _).
    + done.
    + lia.
    + eapply is_heap_ext; [|exact Hord]. intros x Hx. symmetry. apply Hfacts. by intros ->.
    + by destruct (Hfacts l) as (_ & -> & _).
    + change (heap_ t1) with (heap_ t) in Hh'.
      assert (forall x, x ∈ heap_ (push l t1) <-> x = l \/ x ∈ heap_ t) as Hmem
        by (intros x; by rewrite Hh', elem_of_cons).
      split_and!.
      * split; [done | done |]. rewrite Hnp', Hnp, (st_cancelled _ _ Hs'). done.
      * by rewrite Hh'.
      * intros _. apply Hmem. by left.
      * intros _. unfold in_heap. rewrite decide_True by (apply Hmem; by left). lia.
      * intros x Hx. rewrite (stable_pending _ _ _ Hs') in Hx. by destruct (Hfacts x) as (_ & <- & _).
      * intros x Hx. apply Hmem. by right.
      * intros x Hx Hd. rewrite (stable_expiry_of _ _ x Hs') in *. apply Hmem in Hx as [-> | Hx].
        -- destruct (Hfacts l) as (_ & _ & _ & El). lia.
        -- split; [done|]. apply Hfacts. by intros ->.
  - fold (slot_off t l). pose proof (count_slot_off t l (heap_ t) (lv_heap _ _ Hl)) as Hcount.
    rewrite decide_False in Hcount by tauto.
    split_and!; try (done || lia).
    + split; [by apply live_slot_off | |].
      * eapply is_heap_ext; [|exact Hord]. intros x _. symmetry. apply slot_off_same.
      * unfold not_pending in *. change (heap_ (slot_off t l)) with (heap_ t).
        change (cancelled_ (slot_off t l)) with (cancelled_ t). lia.
    + cbn. lia.
    + rewrite pending_slot_off, decide_True by done. done.
    + rewrite pending_slot_off, decide_True by done. done.
    + intros x. rewrite pending_slot_off. by case_decide.
    + intros x Hx _. split; [done|]. apply slot_off_same.
Qed.

Variable handler : Z -> Z -> nat -> client -> list op.

(** The callbacks insert no timer that is due already. *)
Definition handler_later (now : Z) : Prop :=
  forall s l c, Forall (op_later now) (handler s now l c).

(** The front was popped: its handle is a local one, and its callback is to run. *)
Lemma popped_client c l h t1 f :
  client_inv c (fun _ => 0) None -> heap_ (tq c) = l :: h -> pending (tq c) l = true ->
  live t1 (<[l := held c l + 0 + 1]> (fun x => held c x + 0)) -> heap_ t1 ≡ₚ h ->
  is_heap (expiry_of t1) (heap_ t1) -> stable (tq c) t1 ->
  client_inv (mkClient t1 (held c) f) (<[l := 1]> (fun _ => 0)) (Some l).
Proof.
  intros [Hwf Hheld _ Hsched] Hh Hp Hl1 Hh1 Hord1 Hs1. pose proof Hwf as [Hl Hord Hc].
  assert (NoDup (l :: h)) as Hnd by (rewrite <- Hh; apply Hl). apply NoDup_cons in Hnd as [Hlh Hnd].
  split; try done.
  - cbn. split; [| done |].
    + eapply live_ext_eq; [|exact Hl1]. intros x. cbn.
      destruct (decide (l = x)) as [<- | ?]; rewrite ?fn_lookup_insert, ?fn_lookup_insert_ne by done; lia.
    + rewrite (st_cancelled _ _ Hs1). etransitivity; [|exact Hc]. unfold not_pending.
      rewrite (filter_pending_perm (tq c) t1 h); [| |done].
      * rewrite Hh, filter_cons, decide_False by (by rewrite Hp). done.
      * intros x. by apply stable_pending.
  - intros x. destruct (decide (l = x)) as [<- | ?];
      rewrite ?fn_lookup_insert, ?fn_lookup_insert_ne by done; lia.
  - intros x Hx Hpx. cbn in *. rewrite (stable_pending _ _ _ Hs1) in Hpx.
    destruct (decide (l = x)) as [<- | Hne]; [by right|]. left. rewrite Hh1.
    rewrite fn_lookup_insert_ne in Hx by done.
    destruct (Hsched x ltac:(lia) Hpx) as [Hin | ?]; [|done]. rewrite Hh in Hin.
    by apply elem_of_cons in Hin as [-> | ?].
Qed.

Lemma expire_spec now c l h :
  client_inv c (fun _ => 0) None -> heap_ (tq c) = l :: h -> pending (tq c) l = true ->
  handler_later now -> - 2 ^ 63 <= now < 2 ^ 63 - 1 ->
  exists s fuel0 c', slot (impls (tq c) l) = Some s
    /\ (forall fuel, (fuel0 <= fuel)%nat -> expire handler fuel now c = Some c')
    /\ client_inv c' (fun _ => 0) None
    /\ fired c' = fired c ++ [(s, expiry_of (tq c) l)]
    /\ (forall x, x ∈ heap_ (tq c') -> expiry_of (tq c') x <= now ->
          x ∈ h /\ expiry_of (tq c') x = expiry_of (tq c) x).
Proof.
  intros Hc Hh Hp Hlater Hnow. pose proof Hc as [[Hl Hord _] Hheld _ Hsched].
  assert (exists s, slot (impls (tq c) l) = Some s) as [s Es].
  { unfold pending in Hp. destruct (slot (impls (tq c) l)) as [s|]; [eauto | done]. }
  destruct (pop_spec _ _ l h Hl Hh Hord) as (t1 & Epop & Hl1 & Hh1 & Hord1 & Hs1).
  set (c1 := mkClient t1 (held c) (fired c ++ [(s, expiry_of t1 l)])).
  set (loc := <[l := 1]> (fun _ : nat => 0)).
  assert (NoDup (l :: h)) as Hnd by (rewrite <- Hh; apply Hl). apply NoDup_cons in Hnd as [Hlh Hnd].
  assert (client_inv c1 loc (Some l)) as Hc1 by (by apply (popped_client c l h)).
  destruct (run_ops_spec now (handler s now l c1) c1 loc (Some l) Hc1 (Hlater s l c1))
    as (c2 & Erun & [Hwf2 Hheld2 Hloc2 Hsched2] & Hla2 & Hlen2 & Hf2 & _).
  assert (loc l = 1) as Hll by (unfold loc; by rewrite fn_lookup_insert).
  assert (l ∉ heap_ (tq c2)) as Hn2.
  { apply (la_loc _ _ _ _ Hla2); [lia|]. cbn. by rewrite Hh1. }
  destruct (rescheduled_spec now (tq c2) _ l Hwf2 Hn2)
    as (Hwf3 & Hlen3 & Hin3 & H3 & Hp3 & Hkeep3 & Hdue3); [specialize (Hheld2 l); lia | done |].
  set (t3 := rescheduled now (tq c2) l) in *.
  destruct (release_quiet t3 _ l (wf_live _ _ Hwf3)) as (t4 & Erel & Hl4 & Hh4 & Hs4);
    [specialize (Hheld2 l); lia | done |].
  destruct (stable_wf_parts t3 t4 Hs4 Hh4) as (Hnp4 & Hord4 & _).
  exists s, (length (heap_ t1) + length (handler s now l c1) + 5)%nat, (set_tq c2 t4).
  split; [done|]. split; [|split; [|split]].
  - intros [|fuel] Hf; [lia|]. unfold expire. rewrite Epop. cbn [mbind option_bind]. rewrite (st_slot _ _ Hs1), Es.
    cbn [mbind option_bind]. fold c1. rewrite Erun by (cbn; lia). cbn [mbind option_bind].
    change (if pending (tq c2) l then _ else _) with t3. by rewrite Erel.
  - split; cbn [tq held set_tq]; try done.
    + split; [| by apply Hord4, Hwf3 | rewrite Hnp4, (st_cancelled _ _ Hs4); apply Hwf3].
      eapply live_ext_eq; [|exact Hl4]. intros x. cbn. unfold loc.
      destruct (decide (l = x)) as [<- | ?]; rewrite ?fn_lookup_insert, ?fn_lookup_insert_ne by done; lia.
    + intros x Hx Hpx. left. rewrite Hh4. rewrite (stable_pending _ _ _ Hs4) in Hpx.
      destruct (decide (l = x)) as [<- | Hne]; [by apply Hin3|].
      apply Hkeep3. destruct (Hsched2 x) as [? | [= ->]]; try done; [|by apply Hp3].
      unfold loc. rewrite fn_lookup_insert_ne; done.
  - cbn. rewrite Hf2. unfold c1. cbn. by rewrite (stable_expiry_of _ _ l Hs1).
  - intros x Hx Hd. cbn [tq set_tq] in *. rewrite Hh4 in Hx. rewrite (stable_expiry_of _ _ _ Hs4) in *.
    destruct (Hdue3 x Hx Hd) as [Hx2 E2]. rewrite E2 in *.
    destruct (la_due _ _ _ _ Hla2 x Hx2 Hd) as [Hx1 E1]. cbn in Hx1, E1. rewrite E1.
    split; [by rewrite <- Hh1 | by apply stable_expiry_of].
Qed.

(** The timers of the heap that are due. *)
Definition due_in (now : Z) (t : TimerQueue) (h : list nat) : nat :=
  length (filter (fun l => expiry_of t l <= now) h).
Definition due (now : Z) (t : TimerQueue) : nat := due_in now t (heap_ t).

Lemma due_le now t t' (h : list nat) :
  NoDup (heap_ t') ->
  (forall x, x ∈ heap_ t' -> expiry_of t' x <= now -> x ∈ h /\ expiry_of t x <= now) ->
  (due now t' <= due_in now t h)%nat.
Proof.
  intros Hnd Hsub. unfold due, due_in.
  apply submseteq_length, NoDup_submseteq; [by apply NoDup_filter|].
  intros x. rewrite !list_elem_of_filter. intros [Hd Hx]. destruct (Hsub x Hx Hd). done.
Qed.

(** The result of a dispatch: the callbacks that were invoked, and the queue. *)
Definition dispatched (now : Z) (c : client) (k : Z) (c' : client) : Prop :=
  exists fs, fired c' = fired c ++ fs /\ k = Z.of_nat (length fs)
    /\ StronglySorted Z.le (snd <$> fs)
    /\ Forall (fun e => e <= now /\ exists x, x ∈ heap_ (tq c) /\ expiry_of (tq c) x = e) (snd <$> fs)
    /\ client_inv c' (fun _ => 0) None
    /\ (forall x, x ∈ heap_ (tq c') -> now < expiry_of (tq c') x)
    /\ front_pending (tq c')
    /\ 2 * cancelled_ (tq c') <= Z.of_nat (length (heap_ (tq c'))).

Lemma dispatched_gc now c :
  client_inv c (fun _ => 0) None ->
  match heap_ (tq c) with
  | [] => True
  | l :: _ => pending (tq c) l = true /\ now < expiry_of (tq c) l
  end ->
  exists t', (forall fuel, gc (release (S fuel)) (tq c) = Some t')
    /\ dispatched now c 0 (set_tq c t').
Proof.
  intros [Hwf Hheld Hloc Hsched] Hfront.
  assert (front_pending (tq c)) as Hfp.
  { unfold front_pending. destruct (heap_ (tq c)); [done | apply Hfront]. }
  destruct (gc_spec _ _ Hwf Hfp) as (t' & E & Hwf' & Hs & Hfp' & Hc').
  exists t'. split; [done|]. exists []. split; [by rewrite app_nil_r|].
  split; [done|]. split; [constructor|]. split; [constructor|].
  split; [|split; [|done]].
  - split; try done. cbn. intros x Hx Hp. rewrite (shrinks_pending _ _ _ Hs) in Hp.
    destruct (Hsched x Hx Hp) as [Hin | ?]; [left; by apply Hs | done].
  - cbn [tq set_tq]. intros x Hx. unfold expiry_of. rewrite (sh_expiry _ _ Hs).
    apply (sh_heap _ _ Hs) in Hx. pose proof (wf_heap _ _ Hwf) as Hord.
    destruct (heap_ (tq c)) as [|l h]; [by apply not_elem_of_nil in Hx|].
    pose proof (is_heap_front _ _ _ _ Hord Hx). unfold expiry_of in *. lia.
Qed.

(** Dropping a cancelled timer from the front. *)
Lemma dispatch_drop now c l h :
  client_inv c (fun _ => 0) None -> heap_ (tq c) = l :: h -> pending (tq c) l = false ->
  exists t1 t2, (forall fuel, pop (release (S fuel)) (tq c) = Some (l, t1))
    /\ (forall fuel, release (S fuel) l t1 = Some t2)
    /\ let c' := set_tq c (set_cancelled t2 (cancelled_ t2 - 1)) in
       client_inv c' (fun _ => 0) None /\ heap_ (tq c') ≡ₚ h
       /\ (due now (tq c') <= due now (tq c))%nat
       /\ (forall k c2, dispatched now c' k c2 -> dispatched now c k c2).
Proof.
  intros [Hwf Hheld Hloc Hsched] Eh Ep.
  destruct (drop_front_spec _ _ l h Hwf Eh Ep) as (t1 & t2 & E1 & E2 & Hrest).
  cbv zeta in Hrest. destruct Hrest as (Hwf' & Hs & Hh').
  exists t1, t2. split; [done|]. split; [done|]. cbv zeta.
  set (t' := set_cancelled t2 (cancelled_ t2 - 1)) in *.
  assert (forall x, x ∈ heap_ t' -> x ∈ heap_ (tq c) /\ expiry_of t' x = expiry_of (tq c) x) as Hsub.
  { intros x Hx. split; [by apply Hs | apply Hs]. }
  split; [|split; [done|split]].
  - split; try done. cbn [tq set_tq held]. intros x Hx Hp. rewrite (shrinks_pending _ _ _ Hs) in Hp.
    destruct (Hsched x Hx Hp) as [Hin | ?]; [left; by apply (sh_keep _ _ Hs) | done].
  - apply due_le; [apply (lv_heap _ _ (wf_live _ _ Hwf'))|]. intros x Hx Hd.
    destruct (Hsub x Hx) as [? E]. by rewrite <- E.
  - intros k c2 (fs & Hf & Hw & Hso & Hall & Hrest). exists fs.
    split; [done|]. split; [done|]. split; [done|]. split; [|done].
    eapply Forall_impl; [exact Hall|]. intros e [He (x & Hx & <-)]. split; [done|].
    destruct (Hsub x Hx) as [? Ex]. exists x. split; [done | by symmetry].
Qed.

(** Firing the front. *)
Lemma dispatch_fire now c l h c1 s k c2 :
  client_inv c (fun _ => 0) None -> heap_ (tq c) = l :: h -> expiry_of (tq c) l <= now ->
  fired c1 = fired c ++ [(s, expiry_of (tq c) l)] ->
  (forall x, x ∈ heap_ (tq c1) -> expiry_of (tq c1) x <= now ->
    x ∈ h /\ expiry_of (tq c1) x = expiry_of (tq c) x) ->
  dispatched now c1 k c2 -> dispatched now c (1 + k) c2.
Proof.
  intros [Hwf _ _ _] Eh Hdue Hf1 Hsub (fs & Hf & Hw & Hso & Hall & Hrest).
  exists ((s, expiry_of (tq c) l) :: fs).
  assert (Forall (fun e => e <= now /\ exists x, x ∈ heap_ (tq c) /\ expiry_of (tq c) x = e)
            (snd <$> fs)) as Hall'.
  { eapply Forall_impl; [exact Hall|]. intros e [He (x & Hx & Ex)]. split; [done|].
    rewrite <- Ex in He. destruct (Hsub x Hx He) as [Hxh E]. exists x.
    split; [rewrite Eh; by right | congruence]. }
  split; [by rewrite Hf, Hf1, <- app_assoc|]. split; [cbn [length]; lia|]. cbn [fmap list_fmap snd].
  split; [|split; [|exact Hrest]].
  - constructor; [done|]. eapply Forall_impl; [exact Hall'|]. intros e [_ (x & Hx & <-)].
    pose proof (wf_heap _ _ Hwf) as Hord. rewrite Eh in Hord, Hx. by apply (is_heap_front _ _ _ _ Hord).
  - constructor; [|exact Hall']. split; [done|]. exists l. split; [rewrite Eh; left | done].
Qed.

Lemma dispatch_spec now : handler_later now -> - 2 ^ 63 <= now < 2 ^ 63 - 1 ->
  forall n m c, due now (tq c) = n -> length (heap_ (tq c)) = m ->
  client_inv c (fun _ => 0) None ->
  exists fuel0 k c', (forall fuel, (fuel0 <= fuel)%nat -> forall work,
    dispatch handler fuel now c work = Some (work + k, c')) /\ dispatched now c k c'.
Proof.
  intros Hlater Hnow n. induction (lt_wf n) as [n _ IHn]. intros m.
  induction (lt_wf m) as [m _ IHm]. intros c Hn Hm Hc. pose proof Hc as [Hwf Hheld Hloc Hsched].
  destruct (heap_ (tq c)) as [|l h] eqn:Eh.
  { destruct (dispatched_gc now c Hc) as (t' & E & Hd); [by rewrite Eh|].
    exists 2%nat, 0, (set_tq c t'). split; [|done].
    intros [|[|fuel]] Hf work; [lia.. |]. cbn [dispatch]. rewrite Eh, E. by rewrite Z.add_0_r. }
  destruct (pending (tq c) l) eqn:Ep.
  2: { destruct (dispatch_drop now c l h Hc Eh Ep) as (t1 & t2 & E1 & E2 & Hc' & Hh' & Hdue & Hcomp).
       set (c' := set_tq c (set_cancelled t2 (cancelled_ t2 - 1))) in *.
       assert (length (heap_ (tq c')) < m)%nat as Hlen by (rewrite Hh'; cbn in Hm; lia).
       assert (exists fuel0 k c2, (forall fuel, (fuel0 <= fuel)%nat -> forall work,
         dispatch handler fuel now c' work = Some (work + k, c2)) /\ dispatched now c' k c2)
         as (fuel0 & k & c2 & IH & Hres).
       { destruct (decide (due now (tq c') = n)) as [E | Hne].
         - by apply (IHm _ Hlen c' E).
         - by apply (IHn (due now (tq c')) ltac:(lia) _ c' eq_refl eq_refl). }
       exists (S (S fuel0)), k, c2. split; [|by apply Hcomp].
       intros [|[|fuel]] Hf work; [lia.. |].
       transitivity (dispatch handler (S fuel) now c' work); [|apply IH; lia].
       cbn [dispatch]. rewrite Eh, Ep. cbn [negb]. rewrite E1. cbn [mbind option_bind]. by rewrite E2. }
  destruct (Z.leb_spec (expiry_of (tq c) l) now) as [Hdue | Hnot].
  - destruct (expire_spec now c l h Hc Eh Ep Hlater Hnow) as (s & fuel0 & c1 & _ & Hexp & Hc1 & Hf1 & Hd1).
    assert (due now (tq c1) < n)%nat as Hless.
    { eapply Nat.le_lt_trans; [apply (due_le now (tq c) (tq c1) h)|].
      - apply (lv_heap _ _ (wf_live _ _ (ci_wf _ _ _ Hc1))).
      - intros x Hx Hd. destruct (Hd1 x Hx Hd) as [? E]. by rewrite <- E.
      - rewrite <- Hn. unfold due, due_in. rewrite Eh, filter_cons, decide_True by done. cbn. lia. }
    destruct (IHn _ Hless _ c1 eq_refl eq_refl Hc1) as (fuel1 & k & c2 & IH & Hres).
    exists (S (fuel0 + fuel1)), (1 + k), c2. split; [|by apply (dispatch_fire now c l h c1 s)].
    intros [|fuel] Hf work; [lia|]. cbn [dispatch]. rewrite Eh, Ep.
    cbn [negb]. rewrite (proj2 (Z.leb_le _ _)), Hexp by (done || lia). cbn [mbind option_bind].
    rewrite IH by lia. do 2 f_equal. lia.
  - destruct (dispatched_gc now c Hc) as (t' & E & Hd); [by rewrite Eh|].
    exists 2%nat, 0, (set_tq c t'). split; [|done].
    intros [|[|fuel]] Hf work; [lia.. |]. cbn [dispatch]. rewrite Eh, Ep.
    cbn [negb]. rewrite (proj2 (Z.leb_gt _ _)), E by done. by rewrite Z.add_0_r.
Qed.
End ref_counts.

(** ** Sessions *)

Lemma new_client_inv `{StdHeap} : client_inv new_client (fun _ => 0) None.
Proof.
  assert (forall l : nat, l ∉ (@nil nat)) as Hnil by apply not_elem_of_nil.
  split; cbn; try (done || lia). split; cbn; [| apply is_heap_nil | done].
  split; cbn; try apply NoDup_nil_2; try done.
  - intros x [? | ?]; [by destruct (Hnil x) | lia].
  - intros x ?. by destruct (Hnil x).
  - intros x ?. unfold bound in *. cbn in *. lia.
Qed.

(** A program's use of a queue: operations, and dispatches at given times. *)
Inductive event := Op (o : op) | Dispatch (now : Z).

Section session.
Context `{StdHeap}.
Variable handler : Z -> Z -> nat -> client -> list op.

Fixpoint session (fuel : nat) (es : list event) (c : client) : option client :=
  match es with
  | [] => Some c
  | Op o :: es' => c ← run_op fuel o c; session fuel es' c
  | Dispatch now :: es' => '(_, c) ← dispatch handler fuel now c 0; session fuel es' c
  end.

Definition event_ok (e : event) : Prop :=
  match e with
  | Op _ => True
  | Dispatch now => - 2 ^ 63 <= now < 2 ^ 63 - 1 /\ handler_later handler now
  end.

Context {HL : StdHeapLaws _}.

Lemma op_later_exists o : exists now, op_later now o.
Proof. destruct o as [exp int s | | | |]; [exists (exp - 1); cbn; lia | by exists 0..]. Qed.

Lemma session_spec es c :
  Forall event_ok es -> client_inv c (fun _ => 0) None ->
  exists fuel0 c', (forall fuel, (fuel0 <= fuel)%nat -> session fuel es c = Some c')
    /\ client_inv c' (fun _ => 0) None.
Proof.
  intros Hes. revert c. induction Hes as [|e es He Hes IH]; intros c Hc.
  { exists 0%nat, c. done. }
  destruct e as [o | now].
  - destruct (op_later_exists o) as [now Ho].
    destruct (run_op_spec now o c (fun _ => 0) None Hc Ho) as (c1 & E & Hc1 & _).
    destruct (IH c1 Hc1) as (fuel1 & c2 & IH1 & Hc2).
    exists (length (heap_ (tq c)) + 3 + fuel1)%nat, c2. split; [|done]. intros fuel Hf.
    cbn [session]. rewrite E by lia. apply IH1. lia.
  - destruct He as [Hnow Hlater].
    destruct (dispatch_spec handler now Hlater Hnow _ _ c eq_refl eq_refl Hc)
      as (fuel1 & k & c1 & E1 & (fs & _ & _ & _ & _ & Hc1 & _)).
    destruct (IH c1 Hc1) as (fuel2 & c2 & IH1 & Hc2).
    exists (fuel1 + fuel2)%nat, c2. split; [|done]. intros fuel Hf. cbn [session].
    rewrite E1 by lia. cbn [mbind option_bind]. apply IH1. lia.
Qed.
End session.

Lemma op_later_mono now now' o : now' <= now -> op_later now o -> op_later now' o.
Proof. intros Hle. destruct o; cbn; lia. Qed.

Lemma ops_later_exists os : exists now, Forall (op_later now) os.
Proof.
  induction os as [|o os [now IH]]; [by exists 0|]. destruct (op_later_exists o) as [now' Ho].
  exists (Z.min now now'). constructor; [eapply op_later_mono; [|exact Ho]; lia|].
  eapply Forall_impl; [exact IH|]. intros o'. apply op_later_mono. lia.
Qed.

Lemma filter_pending_length t h :
  (length (filter (fun l => pending t l = true) h)
   + length (filter (fun l => pending t l = false) h) = length h)%nat.
Proof.
  induction h as [|l h IH]; [done|]. rewrite !filter_cons.
  destruct (pending t l); repeat case_decide; cbn; (done || lia).
Qed.

(** ** Properties *)




Definition example_client : client :=
  match run_ops 20 [Insert 5 3 1; Insert 6 0 2; Insert 20 0 3] new_client with
  | Some c => c
  | None => new_client
  end.

Lemma example_client_inv : client_inv example_client (fun _ => 0) None.
Proof.
  destruct (run_ops_spec 0 [Insert 5 3 1; Insert 6 0 2; Insert 20 0 3] new_client _ None new_client_inv)
    as (c & E & Hc & _); [repeat (constructor; [cbn; lia|]); constructor|].
  unfold example_client. rewrite (E 20%nat) by (cbn; lia). done.
Qed.


(** outside of dispatch, [size] is the number of pending timers: after any
    operations of a program on its handles, every timer counted is scheduled and
    pending, and every pending timer that is held is scheduled. *)
Theorem size_counts_pending `{HL : StdHeapLaws} os :
  Z.of_nat (length os) < 2 ^ 64 ->
  exists fuel0 c, (forall fuel, (fuel0 <= fuel)%nat -> run_ops fuel os new_client = Some c)
    /\ size (tq c) = Z.of_nat (length (filter (fun l => pending (tq c) l = true) (heap_ (tq c))))
    /\ (forall l, 0 < held c l -> pending (tq c) l = true -> l ∈ heap_ (tq c)).
Proof.
  intros Hlen. destruct (ops_later_exists os) as [now Hos].
  destruct (run_ops_spec now os new_client _ None new_client_inv Hos)
    as (c & E & [Hwf Hheld _ Hsched] & _ & Hl & _ & Hex).
  eexists _, c. split; [exact E|]. cbn [tq new_client empty_queue heap_ length] in Hl.
  specialize (Hex eq_refl eq_refl). unfold exact in Hex. unfold not_pending in Hex.
  pose proof (filter_pending_length (tq c) (heap_ (tq c))). split.
  - unfold size. rewrite Hex, wrapu_small by lia. lia.
  - intros l Hl' Hp. destruct (Hsched l ltac:(lia) Hp); done.
Qed.

Lemma size_counts_pending_witness :
  exists fuel0 c,
    (forall fuel, (fuel0 <= fuel)%nat ->
       run_ops fuel [Insert 10 0 1; Insert 5 3 2; Cancel 0] new_client = Some c)
    /\ size (tq c) = Z.of_nat (length (filter (fun l => pending (tq c) l = true) (heap_ (tq c))))
    /\ (forall l, 0 < held c l -> pending (tq c) l = true -> l ∈ heap_ (tq c)).
Proof. apply (size_counts_pending [Insert 10 0 1; Insert 5 3 2; Cancel 0]). reflexivity. Defined.

(** cancelling a timer in its own callback counts a cancelled timer that is
    not in the heap: here three other timers are pending, and [size] is two. *)
Theorem self_cancel_undercounts :
  match session (fun s _ l _ => [Cancel l]) 30
          [Op (Insert 1 0 1); Op (Insert 10 0 2); Op (Insert 11 0 3); Op (Insert 12 0 4); Dispatch 5]
          new_client with
  | Some c => (fired c, size (tq c),
               length (filter (fun l => pending (tq c) l = true) (heap_ (tq c))))
              = ([(1, 1)], 2, 3%nat)
  | None => False
  end.
Proof. vm_compute. reflexivity. Qed.

(** inserting: the new timer is a record that no handle referred to, it has
    the next identifier and the given expiry, interval and slot, it is scheduled,
    and no other timer changes. *)
Theorem insert_schedules `{HL : StdHeapLaws} t ext exp int s l t' :
  wf t ext -> insert t exp int s = (l, t') ->
  (l ∉ heap_ t) /\ ext l = 0 /\ wf t' (<[l := 1]> ext) /\ heap_ t' ≡ₚ l :: heap_ t
  /\ impls t' l = mkImpl 2 (max_id_ t + 1) exp int (Some s) /\ max_id_ t' = max_id_ t + 1
  /\ (forall x, x <> l -> impls t' x = impls t x).
Proof.
  intros Hwf E. destruct (insert_spec t ext exp int s l t' Hwf E)
    as (Hn & H0 & Hwf' & Hh & Hm & _ & _ & Hid & Hs & He & Hi & Hsame).
  split_and!; try done.
  destruct (lv_used _ _ (wf_live _ _ Hwf') l) as (_ & _ & Hr); [left; rewrite Hh; left|].
  rewrite fn_lookup_insert in Hr. unfold in_heap in Hr. rewrite decide_True in Hr by (rewrite Hh; left).
  rewrite Hm in Hid. destruct (impls t' l). cbn in *. by subst.
Qed.

Lemma insert_schedules_witness :
  let t' := snd (insert empty_queue 5 3 1) in
  (0%nat ∉ heap_ empty_queue) /\ 0 = 0 /\ wf t' (<[0%nat := 1]> (fun _ => 0))
  /\ heap_ t' ≡ₚ 0%nat :: heap_ empty_queue
  /\ impls t' 0%nat = mkImpl 2 (max_id_ empty_queue + 1) 5 3 (Some 1)
  /\ max_id_ t' = max_id_ empty_queue + 1
  /\ (forall x, x <> 0%nat -> impls t' x = impls empty_queue x).
Proof.
  apply (insert_schedules empty_queue (fun _ => 0) 5 3 1 0%nat).
  - exact (ci_wf _ _ _ new_client_inv).
  - reflexivity.
Defined.

(** C10: cancelling: the timer is not pending any more, no other timer's slot
    changes, pending timers stay scheduled, and a pending timer, or none, is at
    the front of the heap. *)
Theorem cancel_unschedules `{HL : StdHeapLaws} t ext l :
  wf t ext -> pending t l = true ->
  exists t', (forall fuel, (length (heap_ t) + 2 <= fuel)%nat -> timer_cancel fuel l t = Some t')
    /\ wf t' ext /\ pending t' l = false
    /\ (forall x, x <> l -> slot (impls t' x) = slot (impls t x))
    /\ (forall x, x <> l -> x ∈ heap_ t -> pending t x = true -> x ∈ heap_ t')
    /\ (forall x h, heap_ t' = x :: h -> pending t' x = true).
Proof.
  intros Hwf Hp. destruct Hwf as [Hl Hord Hc].
  destruct (cancelled_spec t ext l (live_slot_off _ _ _ Hl) Hord Hc)
    as (t' & E & Hwf' & Hr & Hfp & Hpf & Hslot & _).
  exists t'. split_and!; try done.
  - intros fuel Hf. unfold timer_cancel. rewrite Hp. by apply E.
  - intros x Hx Hin Hpx. apply Hr; [done|]. unfold pending in *. by rewrite Hslot.
  - intros x h Eh. unfold front_pending in Hfp. by rewrite Eh in Hfp.
Qed.

Lemma cancel_unschedules_witness :
  let t := snd (insert empty_queue 5 3 1) in
  exists t', (forall fuel, (length (heap_ t) + 2 <= fuel)%nat -> timer_cancel fuel 0 t = Some t')
    /\ wf t' (<[0%nat := 1]> (fun _ => 0)) /\ pending t' 0 = false
    /\ (forall x, x <> 0%nat -> slot (impls t' x) = slot (impls t x))
    /\ (forall x, x <> 0%nat -> x ∈ heap_ t -> pending t x = true -> x ∈ heap_ t')
    /\ (forall x h, heap_ t' = x :: h -> pending t' x = true).
Proof.
  apply (cancel_unschedules (snd (insert empty_queue 5 3 1)) (<[0%nat := 1]> (fun _ => 0)) 0).
  - exact (proj1 (proj2 (proj2 (insert_spec empty_queue _ 5 3 1 0%nat _
      (ci_wf _ _ _ new_client_inv) eq_refl)))).
  - reflexivity.
Defined.
