(* ===== verification/Epoll.v ===== *)
(** * Subscriptions and the epoll reactor

    Models the subscriptions of [toolbox/io/Reactor.hpp] (PollFD, PollHandle,
    the computation of the time to wait in next_expiry), of
    [toolbox/io/MultiReactor.hpp] (the time to wait in poll) and the poller of
    [toolbox/io/Epoll.hpp] and [toolbox/io/Epoll.cpp].

    The kernel is the environment: the calls of [epoll_ctl] are recorded in the
    order in which they are made, and the ready events are an input.  A call that
    the kernel refuses ends the program in the code ([PollHandle::commit] is
    noexcept), so no path follows it; the theorems show that no call is refused
    for naming a descriptor that is, or is not, registered. *)
From S2P Require Import Prelude.

(** ** Event masks *)

Definition EvNone : Z := 0.
Definition EvRead : Z := 1.
Definition EvWrite : Z := 4.
Definition EvError : Z := 8.
Definition EvET : Z := 2 ^ 31.

(** [operator+] and [operator-] of [PollEvents]. *)
Definition ev_add (a b : Z) : Z := Z.lor a b.
Definition ev_sub (a b : Z) : Z := Z.land a (u32 (Z.lnot b)).

Definition EpollIn : Z := 1.
Definition EpollOut : Z := 4.
Definition EpollErr : Z := 8.
Definition EpollHup : Z := 16.
Definition EpollEt : Z := 2 ^ 31.

Definition has (a b : Z) : bool := negb (Z.land a b =? 0).

Definition to_epoll_events (events : Z) : Z :=
  let r := 0 in
  let r := if has events EvRead then Z.lor r EpollIn else r in
  let r := if has events EvWrite then Z.lor r EpollOut else r in
  let r := if has events EvError then Z.lor r (Z.lor EpollErr EpollHup) else r in
  if has events EvET then Z.lor r EpollEt else r.

Definition from_epoll_events (mask : Z) : Z :=
  let r := EvNone in
  let r := if has mask EpollIn then Z.lor r EvRead else r in
  let r := if has mask EpollOut then Z.lor r EvWrite else r in
  if has mask (Z.lor EpollErr EpollHup) then Z.lor r EvError else r.

(** ** Subscriptions *)

(** [PollFD], without the pointer that no poller here uses; a slot is the
    callback bound to it. *)
Record PollFD := mkPollFD { fd : Z; sid : Z; events : Z; slot : option Z }.

Definition default_pollfd : PollFD := mkPollFD 0 0 0 None.
Definition reset_pollfd : PollFD := mkPollFD (-1) 0 0 None.
Definition is_empty (p : PollFD) : bool := match slot p with None => true | Some _ => false end.

Definition with_events (p : PollFD) (ev : Z) : PollFD := mkPollFD (fd p) (sid p) ev (slot p).
Definition with_slot (p : PollFD) (s : option Z) : PollFD := mkPollFD (fd p) (sid p) (events p) s.
Definition with_sid (p : PollFD) (n : Z) : PollFD := mkPollFD (fd p) n (events p) (slot p).

(** A call of [epoll_ctl]; the event holds a mask and 64 bits of data. *)
Inductive ctl_call :=
| CtlAdd (fd mask data : Z)
| CtlMod (fd mask data : Z)
| CtlDel (fd : Z).

Record Epoll := mkEpoll {
  timer_fd : Z;
  notify_fd : Z;
  data_ : list PollFD;
  calls : list ctl_call
}.

Definition call (e : Epoll) (c : ctl_call) : Epoll :=
  mkEpoll (timer_fd e) (notify_fd e) (data_ e) (calls e ++ [c]).
Definition set_data (e : Epoll) (d : list PollFD) : Epoll :=
  mkEpoll (timer_fd e) (notify_fd e) d (calls e).

(** The data of an event: the subscription id above the descriptor. *)
Definition pack (fd sid : Z) : Z := Z.lor (u64 (Z.shiftl (u64 sid) 32)) (u64 fd).
Definition unpack_fd (data : Z) : Z := i32 (Z.land data (2 ^ 32 - 1)).
Definition unpack_sid (data : Z) : Z := i32 (Z.shiftr data 32).

Definition ep_add (e : Epoll) (fd sid events : Z) : Epoll :=
  call e (CtlAdd fd (to_epoll_events events) (pack fd sid)).
Definition ep_mod (e : Epoll) (fd sid events : Z) : Epoll :=
  call e (CtlMod fd (to_epoll_events events) (pack fd sid)).
Definition ep_del (e : Epoll) (fd : Z) : Epoll := call e (CtlDel fd).

(** The constructor: the timer's and the notification's descriptors. *)
Definition make_epoll (tfd nfd size_hint : Z) : Epoll :=
  let e := mkEpoll tfd nfd [] [] in
  let e := ep_add e tfd 0 EvRead in
  let e := ep_add e nfd 0 EvRead in
  set_data e (replicate (Z.to_nat (Z.max (nfd + 1) size_hint)) default_pollfd).

(** [std::vector::resize] to a larger size. *)
Definition grow (d : list PollFD) (n : nat) : list PollFD :=
  d ++ replicate (n - length d) default_pollfd.

(** ** Handles *)

(** [PollHandle]: its subscription and its flags. *)
Record PollHandle := mkHandle { pfd : PollFD; flags_ : Z }.

Definition BatchCtl : Z := 1.
Definition PendingCtl : Z := 2.

(** [Epoll::ctl]: the new handle (its [sid] may be advanced) and the poller. *)
Definition ctl (h : PollHandle) (e : Epoll) : bool * PollHandle * Epoll :=
  let p := pfd h in
  let ix := Z.to_nat (u64 (fd p)) in
  let ev := events p in
  if is_empty p then
    match data_ e !! ix with
    | Some ref =>
        if negb (is_empty ref)
        then (true, h, set_data (ep_del e (fd p)) (<[ix := reset_pollfd]> (data_ e)))
        else (false, h, e)
    | None => (false, h, e)
    end
  else
    let d := if (length (data_ e) <=? ix)%nat then grow (data_ e) (S ix) else data_ e in
    let e := set_data e d in
    let ref := nth ix d default_pollfd in
    if is_empty ref then
      if negb (ev =? 0) then
        let p := with_sid p (i32 (sid p + 1)) in
        (true, mkHandle p (flags_ h),
         ep_add (set_data e (<[ix := with_events p ev]> d)) (fd p) (sid p) ev)
      else (true, h, e)
    else if negb (sid ref =? sid p) then (false, h, e)
    else
      let e := if negb (ev =? events ref) then ep_mod e (fd p) (sid p) ev else e in
      (true, h, set_data e (<[ix := with_slot (with_events ref ev) (slot p)]> d)).

Definition set_pfd (h : PollHandle) (p : PollFD) : PollHandle := mkHandle p (flags_ h).

Definition commit (force : bool) (h : PollHandle) (e : Epoll) : PollHandle * Epoll :=
  if force || negb (has (flags_ h) BatchCtl) || has (flags_ h) PendingCtl then
    let '(_, h, e) := ctl h e in
    (mkHandle (pfd h) (Z.land (flags_ h) (Z.lnot PendingCtl)), e)
  else (h, e).

Definition batching (enable : bool) (h : PollHandle) : PollHandle :=
  mkHandle (pfd h)
    (if enable then Z.lor (flags_ h) BatchCtl else Z.land (flags_ h) (Z.lnot BatchCtl)).

(** [reset], which the destructor calls as well. *)
Definition reset (h : PollHandle) (e : Epoll) : PollHandle * Epoll :=
  let '(h, e) :=
    if negb (is_empty (pfd h)) || negb (events (pfd h) =? EvNone)
    then commit false (set_pfd h (with_slot (with_events (pfd h) EvNone) None)) e
    else (h, e) in
  (set_pfd h reset_pollfd, e).

Definition del (ev : Z) (h : PollHandle) (e : Epoll) : PollHandle * Epoll :=
  if has (events (pfd h)) ev
  then commit false (set_pfd h (with_events (pfd h) (ev_sub (events (pfd h)) ev))) e
  else (h, e).

Definition slot_eqb (a b : option Z) : bool := bool_decide (a = b).

Definition del_slot (ev : Z) (s : option Z) (h : PollHandle) (e : Epoll) : PollHandle * Epoll :=
  if has (events (pfd h)) ev || negb (slot_eqb s (slot (pfd h)))
  then commit false
         (set_pfd h (with_slot (with_events (pfd h) (ev_sub (events (pfd h)) ev)) s)) e
  else (h, e).

Definition add (ev : Z) (h : PollHandle) (e : Epoll) : PollHandle * Epoll :=
  if negb (Z.land (events (pfd h)) ev =? ev) then
    let h := set_pfd h (with_events (pfd h) (ev_add (events (pfd h)) ev)) in
    if negb (is_empty (pfd h)) then commit false h e else (h, e)
  else (h, e).

Definition add_slot (ev : Z) (s : option Z) (h : PollHandle) (e : Epoll) : PollHandle * Epoll :=
  if negb (slot_eqb s (slot (pfd h))) || negb (Z.land (events (pfd h)) ev =? ev)
  then commit false
         (set_pfd h (with_events (with_slot (pfd h) s) (ev_add (events (pfd h)) ev))) e
  else (h, e).

Definition mod_slot (s : option Z) (h : PollHandle) (e : Epoll) : PollHandle * Epoll :=
  if negb (slot_eqb (slot (pfd h)) s)
  then commit false (set_pfd h (with_slot (pfd h) s)) e
  else (h, e).

(** ** A program with several handles *)

Record world := mkWorld { poller : Epoll; handles : gmap nat PollHandle }.

(** Operations of a program; [New] destroys the handle that it replaces. *)
Inductive op :=
| New (i : nat) (fd : Z)
| Reset (i : nat)
| Del (i : nat) (ev : Z)
| DelSlot (i : nat) (ev : Z) (s : option Z)
| Add (i : nat) (ev : Z)
| AddSlot (i : nat) (ev : Z) (s : option Z)
| ModSlot (i : nat) (s : option Z)
| Commit (i : nat) (force : bool)
| Batching (i : nat) (enable : bool).

Definition on_handle (i : nat) (f : PollHandle -> Epoll -> PollHandle * Epoll) (w : world) : world :=
  match handles w !! i with
  | Some h => let '(h, e) := f h (poller w) in mkWorld e (<[i := h]> (handles w))
  | None => w
  end.

(** A handle that has been reset is not subscribed again, only replaced: its
    descriptor is [-1]. *)
Definition on_open (i : nat) (f : PollHandle -> Epoll -> PollHandle * Epoll) (w : world) : world :=
  on_handle i (fun h e => if fd (pfd h) =? -1 then (h, e) else f h e) w.

Definition run_op (o : op) (w : world) : world :=
  match o with
  | New i n =>
      let w := on_handle i reset w in
      mkWorld (poller w) (<[i := mkHandle (mkPollFD n 0 0 None) 0]> (handles w))
  | Reset i => on_handle i reset w
  | Del i ev => on_handle i (del ev) w
  | DelSlot i ev s => on_open i (del_slot ev s) w
  | Add i ev => on_handle i (add ev) w
  | AddSlot i ev s => on_open i (add_slot ev s) w
  | ModSlot i s => on_open i (mod_slot s) w
  | Commit i force => on_handle i (commit force) w
  | Batching i enable => on_handle i (fun h e => (batching enable h, e)) w
  end.

Definition run_ops (os : list op) (w : world) : world := foldl (fun w o => run_op o w) w os.

(** ** Dispatch *)

(** A ready event reported by [epoll_wait]. *)
Record event := mkEvent { ev_mask : Z; ev_data : Z }.

(** An invocation of a callback. *)
Record invocation := mkInvocation { inv_slot : Z; inv_fd : Z; inv_events : Z }.

Section dispatch.
(** What the callback of a slot does in the state it finds; one that throws stops
    after the operations of the list. *)
Variable handler : invocation -> world -> list op.

(** The callback due for an event, if any. *)
Definition due_callback (e : Epoll) (ev : event) : option invocation :=
  let fd := unpack_fd (ev_data ev) in
  if fd =? notify_fd e then None
  else
    let ref := nth (Z.to_nat (u64 fd)) (data_ e) default_pollfd in
    match slot ref with
    | None => None
    | Some s =>
        if unpack_sid (ev_data ev) <? sid ref then None
        else
          let mask := Z.land (ev_mask ev)
            (Z.lor (Z.lor (to_epoll_events (events ref)) EpollErr) EpollHup) in
          if mask =? 0 then None
          else Some (mkInvocation s fd (from_epoll_events mask))
    end.

Fixpoint dispatch (evs : list event) (w : world) (work : Z) (log : list invocation)
    : Z * world * list invocation :=
  match evs with
  | [] => (work, w, log)
  | ev :: evs =>
      match due_callback (poller w) ev with
      | None => dispatch evs w work log
      | Some inv => dispatch evs (run_ops (handler inv w) w) (work + 1) (log ++ [inv])
      end
  end.
End dispatch.

(** ** The time to wait *)

(** [Reactor::next_expiry]; a queue is its front's expiry, or none when it is
    empty.  Times are nanoseconds. *)
Definition next_expiry (high low : option Z) (next : Z) : Z :=
  let next := match high with Some e => Z.min next (e - 200000) | None => next end in
  match low with Some e => Z.min next e | None => next end.

(** [BasicMultiReactor::poll]: the time to wait until, zero for no wait.
    Without a timeout the time is unbounded. *)
Definition NoTimeout : Z := -1.

Definition wait_until (now timeout : Z) (no_hooks : bool) (high low : option Z) : Z :=
  if negb (timeout =? 0) && no_hooks then
    let next := next_expiry high low (if timeout =? NoTimeout then int64_max else i64 (now + timeout)) in
    if now <? next then next else 0
  else 0.

(** [Epoll::wait]: the timer is set when the time has changed (zero disarms it),
    and the call blocks unless the time is zero. *)
Definition wait (timer : Z) (timeout : Z) : option Z * bool * Z :=
  (if negb (timeout =? timer) then Some timeout else None, negb (timeout =? 0), timeout).

(** ** The interest list *)

(** What [epoll_ctl] documents: adding a registered descriptor, or modifying or
    removing one that is not registered, is refused. *)
Definition apply_call (m : option (gmap Z (Z * Z))) (c : ctl_call) : option (gmap Z (Z * Z)) :=
  m ← m;
  match c with
  | CtlAdd n mask data => match m !! n with None => Some (<[n := (mask, data)]> m) | Some _ => None end
  | CtlMod n mask data => match m !! n with Some _ => Some (<[n := (mask, data)]> m) | None => None end
  | CtlDel n => match m !! n with Some _ => Some (delete n m) | None => None end
  end.
Definition interest (cs : list ctl_call) : option (gmap Z (Z * Z)) := foldl apply_call (Some ∅) cs.

Lemma interest_snoc cs c : interest (cs ++ [c]) = apply_call (interest cs) c.
Proof. unfold interest. by rewrite foldl_app. Qed.

(** What the poller has registered for a descriptor. *)
Definition entry (e : Epoll) (n : Z) : option (Z * Z) :=
  match data_ e !! Z.to_nat n with
  | Some p => if is_empty p then None else Some (to_epoll_events (events p), pack n (sid p))
  | None => None
  end.

Definition valid_fd (e : Epoll) (n : Z) : Prop := 0 <= n < 2 ^ 31 /\ n <> timer_fd e /\ n <> notify_fd e.

Definition handle_ok (e : Epoll) (h : PollHandle) : Prop :=
  valid_fd e (fd (pfd h)) \/ (fd (pfd h) = -1 /\ is_empty (pfd h) = true).

Record poller_ok (e : Epoll) : Prop := {
  po_len : Z.of_nat (length (data_ e)) <= 2 ^ 31;
  po_interest : exists m, interest (calls e) = Some m
    /\ (forall n, valid_fd e n -> m !! n = entry e n)
    /\ m !! timer_fd e = Some (EpollIn, pack (timer_fd e) 0)
    /\ m !! notify_fd e = Some (EpollIn, pack (notify_fd e) 0)
}.

Definition same_fds (e e' : Epoll) : Prop := timer_fd e' = timer_fd e /\ notify_fd e' = notify_fd e.

Lemma lookup_grow d n i :
  grow d n !! i = match d !! i with Some p => Some p
                  | None => if decide (i < n)%nat then Some default_pollfd else None end.
Proof.
  unfold grow. destruct (d !! i) as [p|] eqn:E; [by apply lookup_app_l_Some|].
  apply lookup_ge_None in E. rewrite lookup_app_r by done.
  case_decide; [apply lookup_replicate; split; [done | lia]|].
  apply lookup_ge_None. rewrite length_replicate. lia.
Qed.

Lemma length_grow d n : length (grow d n) = Nat.max (length d) n.
Proof. unfold grow. rewrite length_app, length_replicate. lia. Qed.

(** Growing the table registers nothing. *)
Lemma poller_ok_grow e n :
  poller_ok e -> Z.of_nat n <= 2 ^ 31 -> poller_ok (set_data e (grow (data_ e) n)).
Proof.
  intros [Hl (m & Hm & He & Ht & Hn)] Hb. split; cbn.
  - rewrite length_grow. lia.
  - exists m. split; [done|]. split; [|done]. intros k Hk. rewrite He by exact Hk.
    unfold entry. cbn. rewrite lookup_grow. destruct (data_ e !! Z.to_nat k); [done|]. by case_decide.
Qed.

(** Changing the entry of one descriptor together with the interest list. *)
Lemma poller_ok_update e n p c m' :
  poller_ok e -> valid_fd e n -> (Z.to_nat n < length (data_ e))%nat ->
  (forall m, interest (calls e) = Some m -> m !! n = entry e n ->
     foldl apply_call (Some m) c = Some (m' m)
     /\ m' m !! n = (if is_empty p then None else Some (to_epoll_events (events p), pack n (sid p)))
     /\ forall k, k <> n -> m' m !! k = m !! k) ->
  poller_ok (mkEpoll (timer_fd e) (notify_fd e) (<[Z.to_nat n := p]> (data_ e)) (calls e ++ c)).
Proof.
  intros [Hl (m & Hm & He & Ht & Hn)] Hv Hin Hc. destruct (Hc m Hm (He n Hv)) as (Hf & Hsome & Hother).
  split; cbn; [by rewrite length_insert|].
  exists (m' m). split; [unfold interest in *; by rewrite foldl_app, Hm|].
  destruct Hv as (Hr & Hnt & Hnn). split; [|by rewrite !Hother].
  intros k Hk. unfold entry. cbn. destruct (decide (k = n)) as [-> | Hne].
  - rewrite list_lookup_insert_eq by done. exact Hsome.
  - rewrite Hother, list_lookup_insert_ne by (done || (destruct Hk; lia)). by apply He.
Qed.

Lemma ctl_unsubscribe_ok h e ok h' e' :
  poller_ok e -> valid_fd e (fd (pfd h)) -> is_empty (pfd h) = true -> ctl h e = (ok, h', e') ->
  poller_ok e' /\ h' = h /\ same_fds e e'.
Proof.
  intros He Hv Hemp Hc. pose proof Hv as (Hr & _). unfold ctl in Hc.
  rewrite wrapu_small, Hemp in Hc by lia.
  destruct (data_ e !! Z.to_nat (fd (pfd h))) as [ref|] eqn:Eref; [|by injection Hc as <- <- <-].
  destruct (is_empty ref) eqn:Eemp; cbn [negb] in Hc; injection Hc as <- <- <-; [done|].
  split; [|done].
  apply (poller_ok_update e (fd (pfd h)) reset_pollfd [CtlDel (fd (pfd h))]
           (fun m => delete (fd (pfd h)) m)); try done.
  - by eapply lookup_lt_Some.
  - intros m _ Hm. unfold entry in Hm. rewrite Eref, Eemp in Hm. cbn. rewrite Hm.
    split; [done|]. split; [by rewrite lookup_delete_eq|]. intros k Hk. by rewrite lookup_delete_ne.
Qed.

Lemma ctl_subscribe_ok h e ok h' e' :
  poller_ok e -> valid_fd e (fd (pfd h)) -> is_empty (pfd h) = false -> ctl h e = (ok, h', e') ->
  poller_ok e' /\ same_fds e e' /\ slot (pfd h') = slot (pfd h) /\ fd (pfd h') = fd (pfd h).
Proof.
  intros He Hv Hemp Hc. pose proof Hv as (Hr & _). unfold ctl in Hc.
  rewrite wrapu_small, Hemp in Hc by lia. set (n := fd (pfd h)) in *.
  set (d := if (length (data_ e) <=? Z.to_nat n)%nat then _ else _) in Hc.
  assert (poller_ok (set_data e d) /\ (Z.to_nat n < length d)%nat) as [He1 Hin].
  { unfold d. destruct (Nat.leb_spec (length (data_ e)) (Z.to_nat n)).
    - split; [apply poller_ok_grow; [done | lia]|]. rewrite length_grow. lia.
    - split; [by destruct e | done]. }
  set (e1 := set_data e d) in *. clearbody d.
  destruct (lookup_lt_is_Some_2 d (Z.to_nat n) Hin) as [ref Eref].
  rewrite (nth_lookup_Some _ _ _ _ Eref) in Hc.
  assert (entry e1 n = if is_empty ref then None else Some (to_epoll_events (events ref), pack n (sid ref)))
    as Hentry by (unfold entry; cbn; by rewrite Eref).
  destruct (is_empty ref) eqn:Eemp.
  - destruct (events (pfd h) =? 0); cbn [negb] in Hc; injection Hc as <- <- <-; [done|].
    split; [|done].
    apply (poller_ok_update e1 n (with_events (with_sid (pfd h) _) (events (pfd h)))
             [CtlAdd n (to_epoll_events (events (pfd h))) (pack n (i32 (sid (pfd h) + 1)))]
             (fun m => <[n := (to_epoll_events (events (pfd h)), pack n (i32 (sid (pfd h) + 1)))]> m));
      try done.
    intros m _ Hm. rewrite Hentry in Hm. cbn. rewrite Hm. split; [done|].
    split; [rewrite lookup_insert_eq; unfold is_empty in *; cbn; by destruct (slot (pfd h))|].
    intros k Hk. by rewrite lookup_insert_ne.
  - destruct (Z.eqb_spec (sid ref) (sid (pfd h))) as [Es | Es]; cbn [negb] in Hc.
    2: { injection Hc as <- <- <-. done. }
    injection Hc as <- <- <-.
    set (p := with_slot (with_events ref (events (pfd h))) (slot (pfd h))).
    assert (is_empty p = false) as Ep by (unfold is_empty, p in *; cbn; by destruct (slot (pfd h))).
    destruct (Z.eqb_spec (events (pfd h)) (events ref)) as [Ee | Ee]; cbn [negb].
    + split; [|done]. 
      replace (set_data e1 (<[Z.to_nat n := p]> d))
        with (mkEpoll (timer_fd e1) (notify_fd e1) (<[Z.to_nat n := p]> (data_ e1)) (calls e1 ++ []))
        by (by rewrite app_nil_r).
      apply (poller_ok_update e1 n p [] (fun m => m)); try done.
      intros m _ Hm. rewrite Hentry in Hm. rewrite Ep. split; [done|].
      split; [|done]. rewrite Hm. unfold p. cbn. by rewrite Ee.
    + split; [|done].
      apply (poller_ok_update e1 n p
               [CtlMod n (to_epoll_events (events (pfd h))) (pack n (sid (pfd h)))]
               (fun m => <[n := (to_epoll_events (events (pfd h)), pack n (sid (pfd h)))]> m)); try done.
      intros m _ Hm. rewrite Hentry in Hm. cbn. rewrite Hm, Ep. split; [done|].
      split; [rewrite lookup_insert_eq; unfold p; cbn; by rewrite Es|].
      intros k Hk. by rewrite lookup_insert_ne.
Qed.

Lemma ctl_ok h e ok h' e' :
  poller_ok e -> handle_ok e h -> ctl h e = (ok, h', e') ->
  poller_ok e' /\ handle_ok e' h' /\ same_fds e e' /\ slot (pfd h') = slot (pfd h)
  /\ fd (pfd h') = fd (pfd h).
Proof.
  intros He [Hv | [E1 Hemp]] Hc.
  - destruct (is_empty (pfd h)) eqn:Hemp.
    + destruct (ctl_unsubscribe_ok h e ok h' e' He Hv Hemp Hc) as (? & -> & Hs).
      split_and!; try done. left. unfold valid_fd in *. by destruct Hs as [-> ->].
    + destruct (ctl_subscribe_ok h e ok h' e' He Hv Hemp Hc) as (? & Hs & ? & Ef).
      split_and!; try done. left. unfold valid_fd in *. rewrite Ef. by destruct Hs as [-> ->].
  - unfold ctl in Hc. rewrite Hemp, E1 in Hc.
    assert (data_ e !! Z.to_nat (u64 (-1)) = None) as Hnone.
    { apply lookup_ge_None. pose proof (po_len _ He). change (u64 (-1)) with (2 ^ 64 - 1). lia. }
    rewrite Hnone in Hc. injection Hc as <- <- <-. split_and!; try done. by right.
Qed.

(** ** Operations keep the interest list exact *)

Definition world_ok (w : world) : Prop :=
  poller_ok (poller w) /\ map_Forall (fun _ h => handle_ok (poller w) h) (handles w).

(** A function on handles that keeps the poller and the handle consistent. *)
Definition keeps (f : PollHandle -> Epoll -> PollHandle * Epoll) : Prop :=
  forall h e, poller_ok e -> handle_ok e h ->
    let '(h', e') := f h e in poller_ok e' /\ handle_ok e' h' /\ same_fds e e'.

Lemma commit_keeps force h e :
  poller_ok e -> handle_ok e h ->
  let '(h', e') := commit force h e in poller_ok e' /\ handle_ok e' h' /\ same_fds e e'.
Proof.
  intros He Hh. unfold commit. destruct (force || _ || _); [|done].
  destruct (ctl h e) as [[ok h1] e1] eqn:Ec.
  by destruct (ctl_ok h e ok h1 e1 He Hh Ec) as (? & ? & ? & _).
Qed.

(** A handle that keeps its descriptor, and is open or stays without a slot. *)
Lemma handle_ok_set e h p :
  handle_ok e h -> fd p = fd (pfd h) -> fd (pfd h) <> -1 \/ is_empty p = true ->
  handle_ok e (set_pfd h p).
Proof.
  intros [Hv | [E1 Hemp]] Ef Hp; unfold handle_ok; cbn; rewrite Ef; [by left|].
  right. split; [done|]. by destruct Hp.
Qed.

Lemma slot_keeps f g :
  (forall h, fd (g h) = fd (pfd h)) -> (forall h e, fd (pfd h) <> -1 ->
    f h e = (h, e) \/ f h e = commit false (set_pfd h (g h)) e) ->
  keeps (fun h e => if fd (pfd h) =? -1 then (h, e) else f h e).
Proof.
  intros Hg Hf h e He Hh. destruct (Z.eqb_spec (fd (pfd h)) (-1)); [done|].
  destruct (Hf h e ltac:(done)) as [-> | ->]; [done|].
  apply commit_keeps; [done|]. apply handle_ok_set; [done | done | by left].
Qed.

Lemma reset_keeps : keeps reset.
Proof.
  intros h e He Hh. unfold reset.
  destruct (negb (is_empty (pfd h)) || _).
  - pose proof (commit_keeps false (set_pfd h (with_slot (with_events (pfd h) EvNone) None)) e He) as Hk.
    destruct (commit _ _ _) as [h1 e1].
    destruct Hk as (? & ? & ?); [by apply handle_ok_set; [| |right]|].
    split; [done|]. split; [|done]. right. done.
  - split; [done|]. split; [|done]. right. done.
Qed.

Lemma on_handle_ok i f w : keeps f -> world_ok w -> world_ok (on_handle i f w)
  /\ same_fds (poller w) (poller (on_handle i f w)).
Proof.
  intros Hf [He Hhs]. unfold on_handle. destruct (handles w !! i) as [h|] eqn:Eh; [|done].
  pose proof (Hf h (poller w) He (Hhs i h Eh)) as Hk. destruct (f h (poller w)) as [h' e'].
  destruct Hk as (He' & Hh' & Hs). split; [|done]. split; [done|]. cbn.
  apply map_Forall_insert_2; [done|]. eapply map_Forall_impl; [exact Hhs|].
  intros k h2 Hk. unfold handle_ok, valid_fd in *. by destruct Hs as [-> ->].
Qed.

Definition op_ok (w : world) (o : op) : Prop :=
  match o with New _ n => valid_fd (poller w) n | _ => True end.

Lemma run_op_ok o w : world_ok w -> op_ok w o ->
  world_ok (run_op o w) /\ same_fds (poller w) (poller (run_op o w)).
Proof.
  intros Hw Ho. destruct o as [i n | i | i ev | i ev s | i ev | i ev s | i s | i force | i enable];
    cbn [run_op]; try apply on_handle_ok; try done.
  - destruct (on_handle_ok i reset w reset_keeps Hw) as [[He Hhs] Hs]. split; [|done].
    split; [done|]. cbn. apply map_Forall_insert_2; [|done]. left. cbn in *.
    unfold valid_fd in *. by destruct Hs as [-> ->].
  - apply reset_keeps.
  - intros h e He Hh. unfold del. destruct (has _ _) eqn:Ehas; [|done]. apply commit_keeps; [done|].
    apply handle_ok_set; [done | done |]. destruct Hh as [(? & _) | [_ ?]]; [left; lia | by right].
  - apply (slot_keeps _ (fun h => with_slot (with_events (pfd h) (ev_sub (events (pfd h)) ev)) s));
      [done|]. intros h e _. unfold del_slot. destruct (has _ _ || _); [by right | by left].
  - intros h e He Hh. unfold add. destruct (negb _); [|done].
    assert (handle_ok e (set_pfd h (with_events (pfd h) (ev_add (events (pfd h)) ev)))) as Hh'.
    { apply handle_ok_set; [done | done |]. destruct Hh as [(? & _) | [_ ?]]; [left; lia | by right]. }
    destruct (negb _); [by apply commit_keeps | done].
  - apply (slot_keeps _ (fun h => with_events (with_slot (pfd h) s) (ev_add (events (pfd h)) ev)));
      [done|]. intros h e _. unfold add_slot. destruct (negb _ || _); [by right | by left].
  - apply (slot_keeps _ (fun h => with_slot (pfd h) s)); [done|].
    intros h e _. unfold mod_slot. destruct (negb _); [by right | by left].
  - intros h e He Hh. by apply commit_keeps.
Qed.

Lemma run_ops_ok os w : world_ok w -> Forall (op_ok w) os ->
  world_ok (run_ops os w) /\ same_fds (poller w) (poller (run_ops os w)).
Proof.
  revert w. induction os as [|o os IH]; intros w Hw Hos; [done|].
  apply Forall_cons in Hos as [Ho Hos]. destruct (run_op_ok o w Hw Ho) as [Hw' Hs].
  destruct (IH (run_op o w) Hw') as [Hw'' Hs'].
  - eapply Forall_impl; [exact Hos|]. intros [] H; cbn in *; try done.
    unfold valid_fd in *. by destruct Hs as [-> ->].
  - split; [done|]. unfold same_fds in *. cbn. destruct Hs as [<- <-]. exact Hs'.
Qed.

(** A handler that opens only descriptors other than the poller's own. *)
Definition opens_valid (tfd nfd : Z) (o : op) : Prop :=
  match o with New _ n => 0 <= n < 2 ^ 31 /\ n <> tfd /\ n <> nfd | _ => True end.

Lemma opens_valid_ok w o : opens_valid (timer_fd (poller w)) (notify_fd (poller w)) o -> op_ok w o.
Proof. by destruct o. Qed.

Lemma dispatch_ok handler evs w work log :
  (forall inv w', Forall (opens_valid (timer_fd (poller w)) (notify_fd (poller w))) (handler inv w')) ->
  world_ok w ->
  world_ok (dispatch handler evs w work log).1.2
  /\ same_fds (poller w) (poller (dispatch handler evs w work log).1.2).
Proof.
  revert w work log. induction evs as [|ev evs IH]; intros w work log Hh Hw; [done|].
  cbn [dispatch]. destruct (due_callback (poller w) ev) as [inv|]; [|by apply IH].
  destruct (run_ops_ok (handler inv w) w Hw) as [Hw' Hs].
  { eapply Forall_impl; [apply Hh|]. apply opens_valid_ok. }
  destruct (IH (run_ops (handler inv w) w) (work + 1) (log ++ [inv])) as [Hw'' Hs'].
  - destruct Hs as [-> ->]. exact Hh.
  - done.
  - split; [done|]. unfold same_fds in *. destruct Hs as [<- <-]. exact Hs'.
Qed.

(** A session of the reactor: the program's own operations, and batches of ready
    events whose callbacks run operations in turn. *)
Inductive activity :=
| Ops (os : list op)
| Poll (handler : invocation -> world -> list op) (evs : list event).

Definition activity_valid (tfd nfd : Z) (a : activity) : Prop :=
  match a with
  | Ops os => Forall (opens_valid tfd nfd) os
  | Poll handler _ => forall inv w, Forall (opens_valid tfd nfd) (handler inv w)
  end.

Definition run_activity (w : world) (a : activity) : world :=
  match a with
  | Ops os => run_ops os w
  | Poll handler evs => (dispatch handler evs w 0 []).1.2
  end.

Definition session (tfd nfd hint : Z) (acts : list activity) : world :=
  foldl run_activity (mkWorld (make_epoll tfd nfd hint) ∅) acts.

Lemma make_epoll_ok tfd nfd hint :
  tfd <> nfd -> 0 <= tfd -> 0 <= nfd < 2 ^ 31 -> hint <= 2 ^ 31 -> poller_ok (make_epoll tfd nfd hint).
Proof.
  intros Hne Ht Hn Hh. split; cbn.
  - rewrite length_replicate. lia.
  - exists (<[nfd := (EpollIn, pack nfd 0)]> (<[tfd := (EpollIn, pack tfd 0)]> ∅)).
    unfold interest. cbn. rewrite lookup_empty. cbn.
    rewrite lookup_insert_ne by done. rewrite lookup_empty. split; [done|].
    split; [|split; [by rewrite lookup_insert_ne, lookup_insert_eq by done | by rewrite lookup_insert_eq]].
    intros n (_ & Hnt & Hnn). cbn in *. rewrite !lookup_insert_ne, lookup_empty by done.
    unfold entry. cbn. destruct (replicate _ _ !! _) as [p|] eqn:E; [|done].
    by apply lookup_replicate in E as [-> _].
Qed.

Lemma session_ok tfd nfd w acts :
  timer_fd (poller w) = tfd -> notify_fd (poller w) = nfd -> world_ok w ->
  Forall (activity_valid tfd nfd) acts ->
  world_ok (foldl run_activity w acts) /\ same_fds (poller w) (poller (foldl run_activity w acts)).
Proof.
  revert w. induction acts as [|a acts IH]; intros w Et En Hw Ha; [done|].
  apply Forall_cons in Ha as [Ha Has].
  assert (world_ok (run_activity w a) /\ same_fds (poller w) (poller (run_activity w a))) as [Hw' Hs].
  { destruct a as [os | handler evs]; cbn in *.
    - apply run_ops_ok; [done|]. eapply Forall_impl; [exact Ha|]. intros o Ho. apply opens_valid_ok.
      by rewrite Et, En.
    - apply dispatch_ok; [|done]. by rewrite Et, En. }
  destruct Hs as [Hs1 Hs2]. cbn. destruct (IH (run_activity w a)) as [Hw'' Hs'];
    [congruence | congruence | done | done |].
  split; [done|]. unfold same_fds in *. by rewrite <- Hs1, <- Hs2.
Qed.

(** C11: Throughout a session (any sequence of handle operations and of batches of
    ready events, whose callbacks may open, change and close subscriptions) the
    poller makes no call of [epoll_ctl] that the kernel refuses because the
    descriptor is, or is not, registered: adding, changing and removing always
    agree with what is registered.  What the kernel has registered for each
    descriptor is exactly the table's entry for it (its mask and its subscription
    id), and the timer and the notification stay registered for reading. *)
Theorem subscriptions_consistent (tfd nfd hint : Z) (acts : list activity) :
  tfd <> nfd -> 0 <= tfd -> 0 <= nfd < 2 ^ 31 -> hint <= 2 ^ 31 ->
  Forall (activity_valid tfd nfd) acts ->
  let e := poller (session tfd nfd hint acts) in
  exists m, interest (calls e) = Some m
    /\ m !! tfd = Some (EpollIn, pack tfd 0) /\ m !! nfd = Some (EpollIn, pack nfd 0)
    /\ forall n, 0 <= n < 2 ^ 31 -> n <> tfd -> n <> nfd -> m !! n = entry e n.
Proof.
  intros Hne Ht Hn Hh Ha. destruct (session_ok tfd nfd (mkWorld (make_epoll tfd nfd hint) ∅) acts)
    as [[[_ (m & Hm & He & Hmt & Hmn)] _] [Et En]]; try done.
  { split; [by apply make_epoll_ok|]. cbn. apply map_Forall_empty. }
  cbn in Et, En. unfold session. exists m. rewrite Et in Hmt. rewrite En in Hmn.
  split_and!; try done. intros n Hr Hnt Hnn. apply He. unfold valid_fd. rewrite Et, En. split; [|split]; done.
Qed.

Lemma subscriptions_consistent_witness :
  exists m, interest (calls (poller (session 3 4 8
      [Ops [New 0 9; AddSlot 0 EvRead (Some 1); Add 0 EvWrite];
       Poll (fun inv _ => if inv_slot inv =? 1 then [Del 0 EvWrite; New 1 6; AddSlot 1 EvRead (Some 2)] else [])
         [mkEvent EpollIn (pack 9 1)];
       Ops [Reset 0]]))) = Some m
    /\ m !! 6 = Some (EpollIn, pack 6 1) /\ m !! 9 = None.
Proof.
  edestruct (subscriptions_consistent 3 4 8
    [Ops [New 0 9; AddSlot 0 EvRead (Some 1); Add 0 EvWrite];
       Poll (fun inv _ => if inv_slot inv =? 1 then [Del 0 EvWrite; New 1 6; AddSlot 1 EvRead (Some 2)] else [])
         [mkEvent EpollIn (pack 9 1)];
       Ops [Reset 0]]) as (m & Hm & _ & _ & He); [lia | lia | lia | lia | |].
  - repeat constructor; cbn; try lia. intros inv w.
    destruct (inv_slot inv =? 1); repeat constructor; cbn; lia.
  - exists m. split; [exact Hm|]. rewrite !He by lia. split; vm_compute; reflexivity.
Defined.

(** ** Events *)

Lemma land_low32 z : Z.land z (2 ^ 32 - 1) = z mod 2 ^ 32.
Proof. apply (land_pred_pow2 z 32). lia. Qed.

Lemma pack_add n s : 0 <= n < 2 ^ 31 -> 0 <= s < 2 ^ 31 -> pack n s = s * 2 ^ 32 + n.
Proof.
  intros Hn Hs. unfold pack. rewrite (wrapu_small 64 s), (wrapu_small 64 n) by lia.
  rewrite Z.shiftl_mul_pow2 by lia. rewrite (wrapu_small 64) by lia.
  by rewrite lor_add_pow2 by lia.
Qed.

(** The descriptor and the subscription id survive the trip through the kernel. *)
Lemma unpack_pack n s : 0 <= n < 2 ^ 31 -> 0 <= s < 2 ^ 31 ->
  unpack_fd (pack n s) = n /\ unpack_sid (pack n s) = s.
Proof.
  intros Hn Hs. unfold unpack_fd, unpack_sid.
  rewrite land_low32, Z.shiftr_div_pow2, pack_add by lia. split.
  - rewrite Z.add_comm, Z.mod_add, Z.mod_small by lia. apply wraps_small; cbn; lia.
  - rewrite Z.div_add_l, Z.div_small, Z.add_0_r by lia. apply wraps_small; cbn; lia.
Qed.

Lemma has_pow2 a k : 0 <= k -> has a (2 ^ k) = Z.testbit a k.
Proof.
  intros Hk. unfold has. rewrite Z.land_comm. destruct (Z.testbit a k) eqn:E.
  - destruct (Z.eqb_spec (Z.land (2 ^ k) a) 0) as [Hz | ]; [|done].
    apply (f_equal (fun z => Z.testbit z k)) in Hz.
    by rewrite Z.land_spec, Z.pow2_bits_true, E, Z.bits_0 in Hz.
  - destruct (Z.eqb_spec (Z.land (2 ^ k) a) 0) as [ | Hz]; [done|]. exfalso. apply Hz.
    apply Z.bits_inj'. intros j Hj. rewrite Z.land_spec, Z.pow2_bits_eqb, Z.bits_0 by done.
    destruct (Z.eqb_spec k j); [by subst | done].
Qed.

Lemma has_land a b k : 0 <= k -> has (Z.land a b) (2 ^ k) = has a (2 ^ k) && has b (2 ^ k).
Proof. intros. by rewrite !has_pow2, Z.land_spec. Qed.
Lemma has_lor_l a b k : 0 <= k -> has (Z.lor a b) (2 ^ k) = has a (2 ^ k) || has b (2 ^ k).
Proof. intros. by rewrite !has_pow2, Z.lor_spec. Qed.

Lemma has_lor_r a b c : has a (Z.lor b c) = has a b || has a c.
Proof.
  unfold has. rewrite Z.land_lor_distr_r.
  destruct (Z.eqb_spec (Z.land a b) 0) as [-> | H1]; [done|].
  destruct (Z.eqb_spec (Z.lor (Z.land a b) (Z.land a c)) 0) as [H2 | H2]; [|done].
  apply Z.lor_eq_0_iff in H2. by destruct H2.
Qed.

(** The bits of the two masks. *)
Lemma to_epoll_bits ev :
  has (to_epoll_events ev) EpollIn = has ev EvRead
  /\ has (to_epoll_events ev) EpollOut = has ev EvWrite
  /\ has (to_epoll_events ev) EpollErr = has ev EvError
  /\ has (to_epoll_events ev) EpollHup = has ev EvError.
Proof.
  unfold to_epoll_events.
  destruct (has ev EvRead), (has ev EvWrite), (has ev EvError), (has ev EvET); by vm_compute.
Qed.

Lemma from_epoll_bits m :
  has (from_epoll_events m) EvRead = has m EpollIn
  /\ has (from_epoll_events m) EvWrite = has m EpollOut
  /\ has (from_epoll_events m) EvError = has m EpollErr || has m EpollHup.
Proof.
  unfold from_epoll_events. rewrite has_lor_r.
  destruct (has m EpollIn), (has m EpollOut), (has m EpollErr), (has m EpollHup); by vm_compute.
Qed.

Lemma has_event_mask m ev :
  let k := Z.land m (Z.lor (Z.lor (to_epoll_events ev) EpollErr) EpollHup) in
  has (from_epoll_events k) EvRead = has m EpollIn && has ev EvRead
  /\ has (from_epoll_events k) EvWrite = has m EpollOut && has ev EvWrite
  /\ has (from_epoll_events k) EvError = has m EpollErr || has m EpollHup.
Proof.
  intros k. destruct (from_epoll_bits k) as (-> & -> & ->).
  destruct (to_epoll_bits ev) as (Hi & Ho & He & Hh). unfold k.
  rewrite (has_land m _ 0), (has_land m _ 2), (has_land m _ 3), (has_land m _ 4) by lia.
  rewrite !(has_lor_l _ _ 0), !(has_lor_l _ _ 2), !(has_lor_l _ _ 3), !(has_lor_l _ _ 4) by lia.
  change (2 ^ 0) with EpollIn. change (2 ^ 2) with EpollOut.
  change (2 ^ 3) with EpollErr. change (2 ^ 4) with EpollHup.
  rewrite Hi, Ho, He, Hh. cbn. rewrite !orb_true_r, !andb_true_r, !orb_false_r. done.
Qed.

Lemma has_if m (b : bool) c : has m (if b then c else 0) = has m c && b.
Proof. destruct b; [by rewrite andb_true_r|]. unfold has. by rewrite Z.land_0_r, andb_false_r. Qed.

(** The mask that is left of an event, unless it is empty. *)
Lemma has_wanted m ev : has m EvET = false ->
  has m (Z.lor (Z.lor (to_epoll_events ev) EpollErr) EpollHup)
  = has m EpollErr || has m EpollHup || (has m EpollIn && has ev EvRead)
    || (has m EpollOut && has ev EvWrite).
Proof.
  intros Het.
  replace (Z.lor (Z.lor (to_epoll_events ev) EpollErr) EpollHup)
    with (Z.lor (if has ev EvRead then EpollIn else 0) (Z.lor (if has ev EvWrite then EpollOut else 0)
      (Z.lor EpollErr (Z.lor EpollHup (if has ev EvET then EvET else 0))))).
  - rewrite !has_lor_r, !has_if, Het.
    destruct (has m EpollIn), (has m EpollOut), (has m EpollErr), (has m EpollHup),
      (has ev EvRead), (has ev EvWrite); reflexivity.
  - unfold to_epoll_events.
    destruct (has ev EvRead), (has ev EvWrite), (has ev EvError), (has ev EvET); reflexivity.
Qed.


Definition sample_poller : Epoll :=
  poller (run_ops [New 0 9; AddSlot 0 (ev_add EvRead EvWrite) (Some 7); Del 0 EvWrite]
    (mkWorld (make_epoll 3 4 16) ∅)).


(** ** The time to wait *)

(** The smallest of some times, as the code takes it. *)
Lemma next_expiry_least high low limit :
  let times := limit :: option_list low ++ option_list ((fun e => e - 200000) <$> high) in
  next_expiry high low limit ∈ times /\ forall u, u ∈ times -> next_expiry high low limit <= u.
Proof.
  cbn. unfold next_expiry. split.
  - destruct high as [h|], low as [l|]; cbn; rewrite ?elem_of_cons, ?elem_of_nil; lia.
  - intros u. destruct high as [h|], low as [l|]; cbn; rewrite ?elem_of_cons, ?elem_of_nil; lia.
Qed.

(** The poller never sleeps past a timer or the caller's timeout: when it blocks
    (and there are no hooks) the time that it waits until is in the future, at most
    [now + timeout], at most the expiry of the first low priority timer and at most
    200us before that of the first high priority timer, and it is one of these.  It
    does not block (the time is zero) exactly when the timeout is zero, there are
    hooks, or one of these times is not in the future.  Arming the kernel's timer
    with a time that it already has is skipped. *)
Lemma wait_until_bounded (now timeout : Z) (no_hooks : bool) (high low : option Z) (timer : Z) :
  0 <= now -> NoTimeout <= timeout -> now + timeout <= int64_max ->
  let limit := if timeout =? NoTimeout then int64_max else now + timeout in
  let t := wait_until now timeout no_hooks high low in
  let times := limit :: option_list low ++ option_list ((fun e => e - 200000) <$> high) in
  (t = 0 \/ (now < t /\ t ∈ times /\ forall u, u ∈ times -> t <= u))
  /\ (t = 0 <-> timeout = 0 \/ no_hooks = false \/ exists u, u ∈ times /\ u <= now)
  /\ wait timer t = (if t =? timer then None else Some t, negb (t =? 0), t).
Proof.
  intros Hnow Ht Hmax limit t times.
  assert (limit = if timeout =? NoTimeout then int64_max else i64 (now + timeout)) as Hl.
  { unfold limit, NoTimeout in *. zcase; [done|]. rewrite wraps_small; [done | lia |].
    cbn -[Z.pow]. unfold int64_max in *. lia. }
  destruct (next_expiry_least high low limit) as [Hin Hle]. fold times in Hin, Hle.
  assert (t = if negb (timeout =? 0) && no_hooks
              then if now <? next_expiry high low limit then next_expiry high low limit else 0 else 0) as Et
    by (unfold t, wait_until; by rewrite Hl).
  split; [|split; [|unfold wait; by destruct (t =? timer)]].
  - rewrite Et. destruct (negb _ && _); [|by left]. zcase; [right; by split_and! | by left].
  - rewrite Et. destruct (Z.eqb_spec timeout 0); cbn [negb andb]; [by split; [left|]|].
    destruct no_hooks; [|by split; [right; left|]]. zcase.
    + split; [lia|]. intros [? | [? | (u & Hu & ?)]]; [done | done |]. specialize (Hle u Hu). lia.
    + split; [|done]. intros _. right. right. eauto.
Qed.

(** ** Two flaws *)

(** The world after some operations, from the poller of a new reactor. *)
Definition program (os : list op) : world := run_ops os (mkWorld (make_epoll 3 4 16) ∅).

(** An event is delivered to a subscription that did not exist when the poller
    returned it.  Two descriptors are ready; the callback of the first closes the
    second, and opens a new subscription on the descriptor number that this freed,
    as an accepted connection would.  Ids start again at one with each handle, so
    the check that the entry was modified after the wait passes and the new
    subscription's callback is told that it can read. *)
Theorem stale_event_delivered :
  let w := program [New 0 5; AddSlot 0 EvRead (Some 10); New 1 6; AddSlot 1 EvRead (Some 20)] in
  let handler inv (_ : world) :=
    if inv_slot inv =? 10 then [Reset 1; New 2 6; AddSlot 2 EvRead (Some 30)] else [] in
  (dispatch handler [mkEvent EpollIn (pack 5 1); mkEvent EpollIn (pack 6 1)] w 0 []).2
  = [mkInvocation 10 5 EvRead; mkInvocation 30 6 EvRead].
Proof. vm_compute. reflexivity. Qed.

(** A handle that is reset while its changes are batched stays subscribed: the
    change is not committed, nothing marks it as pending, and the handle forgets
    its descriptor, so no later commit removes it.  The table and the kernel keep
    the old callback, which is still invoked, and a new handle on that descriptor
    cannot subscribe. *)
Theorem reset_while_batching_leaks :
  let w := program [New 0 5; AddSlot 0 EvRead (Some 10); Batching 0 true; Reset 0;
                    Batching 0 false] in
  due_callback (poller w) (mkEvent EpollIn (pack 5 1)) = Some (mkInvocation 10 5 EvRead)
  /\ (m ← interest (calls (poller w)); m !! 5) = Some (EpollIn, pack 5 1)
  /\ due_callback (poller (run_ops [New 1 5; AddSlot 1 EvRead (Some 20)] w))
       (mkEvent EpollIn (pack 5 1)) = Some (mkInvocation 10 5 EvRead)
  /\ (exists h, handles (run_ops [New 1 5; AddSlot 1 EvRead (Some 20)] w) !! 1%nat = Some h
       /\ (ctl h (poller (run_ops [New 1 5; AddSlot 1 EvRead (Some 20)] w))).1.1 = false).
Proof.
  cbv zeta. split; [vm_compute; reflexivity|]. split; [vm_compute; reflexivity|].
  split; [vm_compute; reflexivity|]. exists (mkHandle (mkPollFD 5 0 EvRead (Some 20)) 0).
  split; [vm_compute; reflexivity|]. vm_compute. reflexivity.
Qed.
