(* ===== verification/Text.v ===== *)
(** * Text: numbers, flags, trimming, fields

    Models the text utilities of [toolbox/util/Utility.hpp], [Utility.cpp],
    [String.hpp] and [String.cpp] (numbers, booleans, trimming, fixed width
    fields, hexadecimal dumps).  A [string_view] is a list of characters; a [char]
    is signed where the code compares it. *)
From Stdlib Require Export Ascii.
From Stdlib Require Import String.
From S2P Require Import Prelude.
#[local] Open Scope Z_scope.

Abbreviation str := (list ascii).

(** A literal of the source. *)
Definition lit (s : string) : str := list_ascii_of_string s.

Definition code (c : ascii) : Z := Z.of_N (N_of_ascii c).
Definition chr (z : Z) : ascii := ascii_of_N (Z.to_N z).

Lemma code_range c : 0 <= code c < 256.
Proof. unfold code. pose proof (N_ascii_bounded c). lia. Qed.
Lemma chr_code c : chr (code c) = c.
Proof. unfold chr, code. rewrite N2Z.id. apply ascii_N_embedding. Qed.
Lemma code_chr z : 0 <= z < 256 -> code (chr z) = z.
Proof. intros. unfold chr, code. rewrite N_ascii_embedding; lia. Qed.
Lemma code_inj c d : code c = code d -> c = d.
Proof. intros H. by rewrite <- (chr_code c), <- (chr_code d), H. Qed.

#[export] Instance ascii_eqdec : EqDecision ascii := ascii_dec.

(** ** Numbers *)

Definition isdigit (c : ascii) : bool := (48 <=? code c) && (code c <=? 57).

(** Width and signedness of an integral type, and conversion to it. *)
Record itype := mkItype { bits : Z; signed : bool }.
Definition convert (t : itype) (z : Z) : Z := if signed t then wraps (bits t) z else wrapu (bits t) z.
Definition in_itype (t : itype) (z : Z) : Prop :=
  if signed t then - 2 ^ (bits t - 1) <= z < 2 ^ (bits t - 1) else 0 <= z < 2 ^ bits t.

Fixpoint ston_loop (n : Z) (sv : str) : Z :=
  match sv with
  | c :: sv => if isdigit c then ston_loop (u64 (u64 (n * 10) + (code c - 48))) sv else n
  | [] => n
  end.

Definition ston_abs (sv : str) : Z :=
  match sv with
  | c :: sv => if isdigit c then ston_loop (code c - 48) sv else 0
  | [] => 0
  end.

Definition ston (t : itype) (sv : str) : Z :=
  match sv with
  | [] => 0
  | c :: rest =>
      if signed t && bool_decide (c = "-"%char)
      then match rest with [] => 0 | _ => convert t (u64 (- ston_abs rest)) end
      else convert t (ston_abs sv)
  end.

(** [std::to_string] and [std::to_chars] in base ten. *)
Fixpoint digits_loop (fuel : nat) (n : Z) (acc : str) : str :=
  match fuel with
  | O => acc
  | S fuel =>
      let acc := chr (48 + n mod 10) :: acc in
      if n / 10 =? 0 then acc else digits_loop fuel (n / 10) acc
  end.
Definition digits (n : Z) : str := digits_loop (S (Z.to_nat (Z.log2 n))) n [].
Definition to_string (n : Z) : str := if n <? 0 then "-"%char :: digits (- n) else digits n.

Definition dec_digits (i : Z) : Z :=
  if i <? 10000000000 then
    if i <? 100000 then
      if i <? 100 then (if i <? 10 then 1 else 2)
      else if i <? 1000 then 3 else if i <? 10000 then 4 else 5
    else if i <? 10000000 then (if i <? 1000000 then 6 else 7)
    else if i <? 100000000 then 8 else if i <? 1000000000 then 9 else 10
  else if i <? 1000000000000000 then
    if i <? 1000000000000 then (if i <? 100000000000 then 11 else 12)
    else if i <? 10000000000000 then 13 else if i <? 100000000000000 then 14 else 15
  else if i <? 100000000000000000 then (if i <? 10000000000000000 then 16 else 17)
  else if i <? 1000000000000000000 then 18 else 19.

(** ** Booleans *)

(** The characters of the comparisons [sv[i] == 'X' || sv[i] == 'x']. *)
Definition is2 (c a b : ascii) : bool := bool_decide (c = a) || bool_decide (c = b).

Definition stob (sv : str) (dfl : bool) : bool :=
  match sv with
  | [c] =>
      if bool_decide (c ∈ lit "0FNfn") then false
      else if bool_decide (c ∈ lit "1TYty") then true else dfl
  | [c0; c1] =>
      if is2 c0 "N" "n" && is2 c1 "O" "o" then false
      else if is2 c0 "O" "o" && is2 c1 "N" "n" then true else dfl
  | [c0; c1; c2] =>
      if is2 c0 "O" "o" && is2 c1 "F" "f" && is2 c2 "F" "f" then false
      else if is2 c0 "Y" "y" && is2 c1 "E" "e" && is2 c2 "S" "s" then true else dfl
  | [c0; c1; c2; c3] =>
      if is2 c0 "T" "t" && is2 c1 "R" "r" && is2 c2 "U" "u" && is2 c3 "E" "e" then true else dfl
  | [c0; c1; c2; c3; c4] =>
      if is2 c0 "F" "f" && is2 c1 "A" "a" && is2 c2 "L" "l" && is2 c3 "S" "s" && is2 c4 "E" "e"
      then false else dfl
  | _ => dfl
  end.

(** ** Trimming and splitting *)

Definition Space : str := [" "; "009"; "010"; "011"; "012"; "013"]%char.

(** [find_first_not_of], [find_last_not_of], [find_first_of]. *)
Definition find_first_not_of (s set : str) : option nat := fst <$> list_find (fun c => c ∉ set) s.
Definition find_first_of (s set : str) : option nat := fst <$> list_find (fun c => c ∈ set) s.
Definition find_last_not_of (s set : str) : option nat :=
  (fun i => length s - 1 - i)%nat <$> find_first_not_of (reverse s) set.

Definition ltrim (s : str) : str :=
  drop (match find_first_not_of s Space with Some pos => pos | None => length s end) s.
Definition rtrim (s : str) : str :=
  take (match find_last_not_of s Space with Some pos => S pos | None => 0%nat end) s.
Definition trim (s : str) : str := rtrim (ltrim s).

Definition split_pair (s : str) (delim : ascii) : str * str :=
  match find_first_of s [delim] with
  | None => (s, [])
  | Some pos => (take pos s, drop (S pos) s)
  end.

(** ** Fixed width fields *)

(** [strnlen]: the position of the first null character, at most [n]. *)
Definition pstrlen (pad : ascii) (src : str) (n : nat) : nat :=
  match list_find (fun c => c = pad) (take n src) with
  | Some (i, _) => i
  | None => Nat.min n (length src)
  end.

(** The field after the copy, and the length of what was copied. *)
Definition pstrcpy (pad : ascii) (src : str) (n : nat) : str * nat :=
  let len := Nat.min n (length src) in
  (take len src ++ replicate (n - len) pad, len).

(** [to_chars] leaves the field unspecified when the number does not fit. *)
Definition pstrcpyid (pad : ascii) (id : Z) (n : nat) : option str * nat :=
  let ds := to_string id in
  if (n <? length ds)%nat then (None, 0%nat)
  else (Some (ds ++ replicate (n - length ds) pad), length ds).

Definition ends_with (s m : str) : bool :=
  (length m <=? length s)%nat && bool_decide (drop (length s - length m) s = m).

(** ** Hexadecimal dumps *)

Definition hex_char (n : Z) : ascii := nth (Z.to_nat n) (lit "0123456789ABCDEF") "0"%char.

Definition to_hex_dump (buf : str) : str :=
  let schar c := wraps 8 (code c) in
  mjoin ((fun c => [hex_char (Z.land (Z.shiftr (schar c) 4) 15);
                    hex_char (Z.land (schar c) 15); " "%char]) <$> buf)
  ++ ["010"%char]
  ++ mjoin ((fun c => [" "%char; (if schar c <? 32 then " "%char else c); " "%char]) <$> buf).

(** ** Printing numbers *)

(** The value of a list of digits. *)
Definition digit (c : ascii) : Z := code c - 48.
Definition value (n : Z) (s : str) : Z := foldl (fun n c => n * 10 + digit c) n s.

Lemma value_cons n c s : value n (c :: s) = value (n * 10 + digit c) s.
Proof. done. Qed.

Lemma isdigit_range c : isdigit c = true <-> 0 <= digit c <= 9.
Proof. unfold isdigit, digit. rewrite andb_true_iff, !Z.leb_le. lia. Qed.

Lemma digit_chr d : 0 <= d <= 9 -> digit (chr (48 + d)) = d.
Proof. intros. unfold digit. rewrite code_chr; lia. Qed.

Lemma isdigit_chr d : 0 <= d <= 9 -> isdigit (chr (48 + d)) = true.
Proof. intros. apply isdigit_range. by rewrite digit_chr. Qed.

#[local] Ltac Zify.zify_post_hook ::= Z.div_mod_to_equations.

Lemma log2_div10 n : 0 < n / 10 -> (Z.to_nat (Z.log2 (n / 10)) < Z.to_nat (Z.log2 n))%nat.
Proof.
  intros Hn. assert (10 <= n) by lia.
  assert (Z.log2 (n / 10) < Z.log2 n); [|pose proof (Z.log2_nonneg (n / 10)); lia].
  apply Z.log2_lt_pow2; [done|]. pose proof (Z.log2_spec n ltac:(lia)) as [_ Hs].
  assert (1 <= Z.log2 n) by (apply Z.log2_le_pow2; lia).
  replace (Z.succ (Z.log2 n)) with (Z.log2 n + 1) in Hs by lia.
  rewrite Z.pow_add_r, Z.pow_1_r in Hs by lia. lia.
Qed.

Lemma digits_loop_spec fuel n acc :
  0 <= n -> (Z.to_nat (Z.log2 n) < fuel)%nat ->
  exists ds, digits_loop fuel n acc = ds ++ acc /\ Forall (fun c => isdigit c = true) ds
    /\ value 0 ds = n /\ ds <> []
    /\ n < 10 ^ Z.of_nat (length ds) /\ (length ds = 1%nat \/ 10 ^ (Z.of_nat (length ds) - 1) <= n).
Proof.
  revert n acc. induction fuel as [|fuel IH]; intros n acc Hn Hf; [lia|]. cbn [digits_loop].
  assert (0 <= n mod 10 <= 9) by lia.
  destruct (Z.eqb_spec (n / 10) 0).
  - exists [chr (48 + n mod 10)]. split; [done|]. split; [repeat constructor; by apply isdigit_chr|].
    unfold value. cbn [foldl]. rewrite digit_chr by lia. cbn [length].
    split; [lia|]. split; [done|]. split; [change (10 ^ Z.of_nat 1) with 10; lia | by left].
  - pose proof (log2_div10 n ltac:(lia)).
    destruct (IH (n / 10) (chr (48 + n mod 10) :: acc)) as (ds & -> & Hd & Hv & Hne & Hlt & Hge); [lia | lia |].
    exists (ds ++ [chr (48 + n mod 10)]). rewrite <- app_assoc. split; [done|].
    split; [apply Forall_app; split; [done | repeat constructor; by apply isdigit_chr]|].
    split; [unfold value in *; rewrite foldl_app, Hv; cbn [foldl]; rewrite digit_chr; lia|].
    split; [by destruct ds|]. rewrite length_app. cbn [length].
    replace (Z.of_nat (length ds + 1)) with (Z.of_nat (length ds) + 1) by lia.
    rewrite Z.pow_add_r, Z.add_simpl_r by lia. split; [lia|]. right.
    destruct Hge as [Hl | Hge]; [rewrite Hl; change (10 ^ Z.of_nat 1) with 10; lia|].
    replace (Z.of_nat (length ds)) with (Z.of_nat (length ds) - 1 + 1) by lia.
    rewrite Z.pow_add_r by (destruct ds; cbn [length]; [done | lia]). lia.
Qed.

Lemma digits_spec n : 0 <= n ->
  Forall (fun c => isdigit c = true) (digits n) /\ value 0 (digits n) = n /\ digits n <> []
  /\ n < 10 ^ Z.of_nat (length (digits n))
  /\ (length (digits n) = 1%nat \/ 10 ^ (Z.of_nat (length (digits n)) - 1) <= n).
Proof.
  intros Hn. unfold digits.
  destruct (digits_loop_spec (S (Z.to_nat (Z.log2 n))) n []) as (ds & -> & Hs); [done | lia |].
  by rewrite app_nil_r.
Qed.

Lemma length_digits n k : 0 <= n -> 1 <= k -> k = 1 \/ 10 ^ (k - 1) <= n -> n < 10 ^ k ->
  Z.of_nat (length (digits n)) = k.
Proof.
  intros Hn Hk Hlo Hhi. destruct (digits_spec n Hn) as (_ & _ & Hne & Hlt & Hge).
  set (l := Z.of_nat (length (digits n))) in *.
  assert (1 <= l) by (unfold l; destruct (digits n); [done | cbn [length]; lia]).
  assert (forall a b, 1 <= a -> a < b -> b = 1 \/ 10 ^ (b - 1) <= n -> n < 10 ^ a -> False) as Hno.
  { intros a b Ha Hab [-> | Hb] Hx; [lia|].
    assert (10 ^ a <= 10 ^ (b - 1)) by (apply Z.pow_le_mono_r; lia). lia. }
  assert (l = 1 \/ 10 ^ (l - 1) <= n) by (destruct Hge; [left; unfold l; lia | by right]).
  destruct (Z.lt_trichotomy l k) as [? | [? | ?]]; [|done|].
  - exfalso. by apply (Hno l k).
  - exfalso. by apply (Hno k l).
Qed.

(** The comparison tree of [dec_digits] gives the number of characters that
    printing the number in base ten takes, for every non-negative 64 bit integer. *)
Theorem dec_digits_correct (i : Z) :
  0 <= i <= int64_max -> dec_digits i = Z.of_nat (length (to_string i)).
Proof.
  intros Hi. unfold int64_max in Hi. change (2 ^ 63 - 1) with 9223372036854775807 in Hi.
  unfold to_string. destruct (Z.ltb_spec i 0); [lia|]. symmetry.
  unfold dec_digits.
  repeat match goal with |- context [i <? ?k] => destruct (Z.ltb_spec i k) end;
    apply length_digits; try lia; try (left; reflexivity); try (right; cbn; lia); cbn; lia.
Qed.

Lemma dec_digits_correct_witness : dec_digits 1000000 = 7 /\ dec_digits int64_max = 19.
Proof.
  rewrite !dec_digits_correct by (unfold int64_max; lia). split; vm_compute; reflexivity.
Defined.

(** ** Parsing numbers *)

Definition starts_with_digit (s : str) : bool := match s with c :: _ => isdigit c | [] => false end.

Lemma value_mono n s : 0 <= n -> Forall (fun c => isdigit c = true) s -> n <= value n s.
Proof.
  revert n. induction s as [|c s IH]; intros n Hn Hs; [cbn; lia|].
  apply Forall_cons in Hs as [Hc Hs]. apply isdigit_range in Hc. rewrite value_cons.
  specialize (IH (n * 10 + digit c) ltac:(lia) Hs). lia.
Qed.

Lemma ston_loop_value n ds rest :
  0 <= n -> Forall (fun c => isdigit c = true) ds -> value n ds < 2 ^ 64 ->
  starts_with_digit rest = false -> ston_loop n (ds ++ rest) = value n ds.
Proof.
  revert n. induction ds as [|c ds IH]; intros n Hn Hd Hv Hr.
  - destruct rest as [|c rest]; [done|]. cbn in *. by rewrite Hr.
  - apply Forall_cons in Hd as [Hc Hd]. cbn [app ston_loop]. rewrite Hc.
    apply isdigit_range in Hc. rewrite value_cons in *. fold (digit c).
    pose proof (value_mono (n * 10 + digit c) ds ltac:(lia) Hd).
    rewrite wrapu_add_l, wrapu_small by lia. apply IH; [lia | done | done | done].
Qed.

Lemma ston_abs_digits n rest : 0 <= n < 2 ^ 64 -> starts_with_digit rest = false ->
  ston_abs (digits n ++ rest) = n.
Proof.
  intros Hn Hr. destruct (digits_spec n ltac:(lia)) as (Hd & Hv & Hne & _).
  destruct (digits n) as [|c ds]; [done|]. cbn [app ston_abs].
  apply Forall_cons in Hd as [Hc Hd]. rewrite Hc. apply isdigit_range in Hc.
  fold (digit c). rewrite value_cons in Hv.
  replace (0 * 10 + digit c) with (digit c) in Hv by lia.
  rewrite ston_loop_value; (done || lia).
Qed.

Lemma convert_small t z : 0 < bits t -> in_itype t z -> convert t z = z.
Proof.
  unfold in_itype, convert. intros Hb Hz. destruct (signed t); [by apply wraps_small | by apply wrapu_small].
Qed.

Lemma wraps_u64 w z : 0 < w <= 64 -> wraps w (u64 z) = wraps w z.
Proof.
  intros Hw. unfold wraps. f_equal. rewrite <- (Zplus_mod_idemp_l (u64 z)), <- (Zplus_mod_idemp_l z).
  unfold wrapu. by rewrite mod_mod_pow2 by lia.
Qed.

Lemma digits_not_minus n rest : 0 <= n -> forall c s, digits n ++ rest = c :: s -> c <> "-"%char.
Proof.
  intros Hn c s He ->. destruct (digits_spec n Hn) as (Hd & _ & Hne & _).
  destruct (digits n) as [|d ds]; [done|]. injection He as -> _. by apply Forall_cons in Hd as [Hd _].
Qed.

(** Parsing a printed number gives it back. *)
Lemma ston_to_string (t : itype) (n : Z) (rest : str) :
  0 < bits t <= 64 -> in_itype t n -> starts_with_digit rest = false ->
  ston t (to_string n ++ rest) = n.
Proof.
  intros Hb Ht Hr. unfold to_string. destruct (Z.ltb_spec n 0) as [Hn | Hn].
  - assert (signed t = true) as Es by (unfold in_itype in Ht; destruct (signed t); [done | lia]).
    unfold in_itype in Ht. rewrite Es in Ht. cbn [app]. unfold ston. rewrite Es, bool_decide_true by done.
    cbn [andb]. assert (2 ^ (bits t - 1) <= 2 ^ 63) by (apply Z.pow_le_mono_r; lia).
    destruct (digits (- n) ++ rest) eqn:E.
    { destruct (digits_spec (- n) ltac:(lia)) as (_ & _ & Hne & _). by destruct (digits (- n)). }
    rewrite <- E, ston_abs_digits, Z.opp_involutive by (lia || done).
    unfold convert. rewrite Es, wraps_u64 by lia. apply wraps_small; lia.
  - assert (n < 2 ^ 64).
    { unfold in_itype in Ht. destruct (signed t); [assert (2 ^ (bits t - 1) <= 2 ^ 64)
        by (apply Z.pow_le_mono_r; lia); lia | assert (2 ^ bits t <= 2 ^ 64)
        by (apply Z.pow_le_mono_r; lia); lia]. }
    unfold ston. destruct (digits n ++ rest) as [|c s] eqn:E.
    { destruct (digits_spec n Hn) as (_ & _ & Hne & _). by destruct (digits n). }
    rewrite bool_decide_false, andb_false_r by exact (digits_not_minus n rest Hn c s E).
    rewrite <- E, ston_abs_digits by (lia || done). by apply convert_small; [lia|].
Qed.

(** Nothing that is not a number parses as one other than zero. *)
Lemma ston_nothing t s : 0 < bits t -> starts_with_digit s = false ->
  (forall s', s = "-"%char :: s' -> signed t = true -> starts_with_digit s' = false) -> ston t s = 0.
Proof.
  assert (forall s, starts_with_digit s = false -> ston_abs s = 0) as Ha
    by (intros [|c r]; cbn; [done | intros ->; done]).
  assert (0 < bits t -> convert t 0 = 0) as Hc.
  { intros. apply convert_small; [done|]. unfold in_itype. destruct (signed t); lia. }
  intros Hb Hs Hm. unfold ston. destruct s as [|c r]; [done|].
  destruct (signed t) eqn:Es; cbn [andb]; [|rewrite Ha, Hc; done].
  case_bool_decide; [|rewrite Ha, Hc; done]. subst c.
  destruct r as [|d r]; [done|]. rewrite Ha by (by apply Hm). by apply Hc.
Qed.

(** ** Fixed width fields *)

Lemma list_find_pad pad (s : str) k : pad ∉ s ->
  list_find (fun c => c = pad) (s ++ replicate k pad)
  = match k with O => None | S _ => Some (length s, pad) end.
Proof.
  intros Hs. induction s as [|c s IH]; cbn.
  - destruct k; cbn; [done|]. by rewrite decide_True.
  - rewrite decide_False by (intros ->; apply Hs; left). rewrite IH by (intros ?; apply Hs; by right).
    by destruct k.
Qed.

Lemma pstrlen_padded pad s k : pad ∉ s ->
  pstrlen pad (s ++ replicate k pad) (length s + k) = length s.
Proof.
  intros Hs. unfold pstrlen. rewrite take_ge by (rewrite length_app, length_replicate; lia).
  rewrite list_find_pad by done. destruct k; [rewrite length_app, length_replicate; lia | done].
Qed.

(** A string written to a field of a fixed width fills the field, and reading the
    field gives back the part of the string that fits, when the padding does not
    occur in it. *)
Theorem pstrcpy_roundtrip (pad : ascii) (src : str) (n : nat) :
  pad ∉ src ->
  let '(field, len) := pstrcpy pad src n in
  length field = n /\ len = Nat.min n (length src)
  /\ pstrlen pad field n = len /\ take len field = take n src.
Proof.
  intros Hp. unfold pstrcpy. set (len := Nat.min n (length src)).
  assert (length (take len src) = len) as Hl by (rewrite length_take; lia).
  split; [rewrite length_app, length_replicate, Hl; lia|]. split; [done|]. split.
  - replace n with (length (take len src) + (n - len))%nat at 2 by lia.
    rewrite pstrlen_padded; [done|].
    intros Hin. apply Hp. rewrite <- (take_drop len src), elem_of_app. by left.
  - rewrite take_app_le, take_take by lia. unfold len.
    destruct (Nat.le_ge_cases n (length src)); [f_equal; lia|]. rewrite !take_ge; (done || lia).
Qed.

Lemma pstrcpy_roundtrip_witness :
  pstrlen " " (lit "AB   ") 5 = 2%nat /\ take 2 (lit "AB   ") = lit "AB".
Proof.
  destruct (pstrcpy_roundtrip " " (lit "AB") 5) as (_ & _ & H).
  - intros H. apply list_elem_of_lookup in H as [[|[|[|]]] H]; discriminate.
  - exact H.
Defined.

Lemma pad_not_in_number pad id : isdigit pad = false -> pad <> "-"%char -> pad ∉ to_string id.
Proof.
  intros Hd Hm Hin. unfold to_string in Hin.
  assert (forall n, 0 <= n -> pad ∈ digits n -> False) as Hno.
  { intros n Hn H. destruct (digits_spec n Hn) as (Hf & _). rewrite Forall_forall in Hf.
    by rewrite Hf in Hd. }
  destruct (Z.ltb_spec id 0); [|by eapply Hno].
  apply elem_of_cons in Hin as [-> | Hin]; [done|]. apply (Hno (- id)); [lia | done].
Qed.

(** An identifier written to a field of a fixed width is read back exactly: the
    field is filled, its length is the length of the number, and parsing the field
    (the padding included, or only the number) as the 64 bit integer gives the
    identifier.  When the field is too short nothing is reported as written. *)
Theorem pstrcpyid_roundtrip (pad : ascii) (id : Z) (n : nat) :
  isdigit pad = false -> pad <> "-"%char -> int64_min <= id <= int64_max ->
  if (n <? length (to_string id))%nat then (pstrcpyid pad id n).2 = 0%nat
  else exists field, pstrcpyid pad id n = (Some field, length (to_string id))
       /\ length field = n /\ pstrlen pad field n = length (to_string id)
       /\ ston (mkItype 64 true) field = id
       /\ ston (mkItype 64 true) (take (pstrlen pad field n) field) = id.
Proof.
  intros Hd Hm Hid. unfold pstrcpyid. destruct (Nat.ltb_spec n (length (to_string id))); [done|].
  eexists. split; [reflexivity|].
  assert (in_itype (mkItype 64 true) id) as Hin
    by (unfold in_itype; cbn -[Z.pow]; unfold int64_min, int64_max in *; lia).
  assert (pstrlen pad (to_string id ++ replicate (n - length (to_string id)) pad) n
          = length (to_string id)) as Hlen.
  { replace n with (length (to_string id) + (n - length (to_string id)))%nat at 2 by lia.
    apply pstrlen_padded. by apply pad_not_in_number. }
  split; [rewrite length_app, length_replicate; lia|]. split; [done|]. split.
  - apply ston_to_string; [cbn; lia | done |]. by destruct (n - length (to_string id))%nat.
  - rewrite Hlen, take_app_length. rewrite <- (app_nil_r (to_string id)).
    by apply ston_to_string; [cbn; lia | |].
Qed.

Lemma pstrcpyid_roundtrip_witness :
  ston (mkItype 64 true) (lit "-42   ") = -42.
Proof.
  destruct (pstrcpyid_roundtrip " " (-42) 6) as (f & Hf & _ & _ & Hs & _);
    [reflexivity | discriminate | unfold int64_min, int64_max; lia |].
  injection Hf as <-. exact Hs.
Defined.

(** ** Booleans *)

Definition lower_char (c : ascii) : ascii :=
  if (65 <=? code c) && (code c <=? 90) then chr (code c + 32) else c.
Definition lower (s : str) : str := lower_char <$> s.

Definition is_word (s : str) (words : list string) : bool :=
  existsb (fun w => bool_decide (s = lit w)) words.

Definition false_words : list string := ["0"; "f"; "n"; "no"; "off"; "false"]%string.
Definition true_words : list string := ["1"; "t"; "y"; "on"; "yes"; "true"]%string.

Lemma bool_decide_cons (a b : ascii) (s t : str) :
  bool_decide (a :: s = b :: t) = bool_decide (a = b) && bool_decide (s = t).
Proof. do 3 case_bool_decide; try done; exfalso; (congruence || by subst). Qed.
Lemma bool_decide_cons_nil (a : ascii) (s : str) : bool_decide (a :: s = []) = false.
Proof. by case_bool_decide. Qed.
Lemma bool_decide_nil_cons (a : ascii) (s : str) : bool_decide ([] = a :: s) = false.
Proof. by case_bool_decide. Qed.
Lemma bool_decide_nil : bool_decide (@nil ascii = []) = true.
Proof. by case_bool_decide. Qed.

(** Each comparison with both cases of a letter, checked for all characters. *)
Ltac all_chars c := destruct c as [[] [] [] [] [] [] [] []]; reflexivity.
Lemma is2_A c : is2 c "A" "a" = bool_decide (lower_char c = "a"%char). Proof. all_chars c. Qed.
Lemma is2_E c : is2 c "E" "e" = bool_decide (lower_char c = "e"%char). Proof. all_chars c. Qed.
Lemma is2_F c : is2 c "F" "f" = bool_decide (lower_char c = "f"%char). Proof. all_chars c. Qed.
Lemma is2_L c : is2 c "L" "l" = bool_decide (lower_char c = "l"%char). Proof. all_chars c. Qed.
Lemma is2_N c : is2 c "N" "n" = bool_decide (lower_char c = "n"%char). Proof. all_chars c. Qed.
Lemma is2_O c : is2 c "O" "o" = bool_decide (lower_char c = "o"%char). Proof. all_chars c. Qed.
Lemma is2_R c : is2 c "R" "r" = bool_decide (lower_char c = "r"%char). Proof. all_chars c. Qed.
Lemma is2_S c : is2 c "S" "s" = bool_decide (lower_char c = "s"%char). Proof. all_chars c. Qed.
Lemma is2_T c : is2 c "T" "t" = bool_decide (lower_char c = "t"%char). Proof. all_chars c. Qed.
Lemma is2_U c : is2 c "U" "u" = bool_decide (lower_char c = "u"%char). Proof. all_chars c. Qed.
Lemma is2_Y c : is2 c "Y" "y" = bool_decide (lower_char c = "y"%char). Proof. all_chars c. Qed.
Lemma one_false c : bool_decide (c ∈ lit "0FNfn") = is_word [lower_char c] ["0"; "f"; "n"]%string.
Proof. all_chars c. Qed.
Lemma one_true c : bool_decide (c ∈ lit "1TYty") = is_word [lower_char c] ["1"; "t"; "y"]%string.
Proof. all_chars c. Qed.

Create Rewrite HintDb words.
#[local] Hint Rewrite is2_A is2_E is2_F is2_L is2_N is2_O is2_R is2_S is2_T is2_U is2_Y
  bool_decide_cons bool_decide_cons_nil bool_decide_nil_cons bool_decide_nil : words.

(** [stob] recognises the words for false and true in any mixture of upper and
    lower case, and gives the default for every other string. *)
Theorem stob_words (sv : str) (dfl : bool) :
  stob sv dfl = if is_word (lower sv) false_words then false
                else if is_word (lower sv) true_words then true else dfl.
Proof.
  destruct sv as [|c0 [|c1 [|c2 [|c3 [|c4 [|c5 sv]]]]]]; cbn [lower fmap list_fmap stob].
  1: done.
  1: rewrite one_false, one_true.
  all: unfold is_word, false_words, true_words, lit; cbn; autorewrite with words.
  all: by rewrite ?andb_false_r, ?andb_true_r, ?orb_false_r, ?andb_assoc.
Qed.

(** ** Trimming *)

Definition is_space (c : ascii) : Prop := c ∈ Space.

(** Trimming on the left drops the spaces before the first other character. *)
Lemma ltrim_spec s : exists a, s = a ++ ltrim s /\ Forall is_space a
  /\ (forall c r, ltrim s = c :: r -> ~ is_space c).
Proof.
  unfold ltrim, find_first_not_of. destruct (list_find _ s) as [[i c]|] eqn:E; cbn.
  - apply list_find_Some in E as (Hi & Hc & Hlt). exists (take i s).
    split; [by rewrite take_drop|]. split.
    + apply Forall_lookup. intros j d Hj. apply lookup_take_Some in Hj as [Hj Hji].
      unfold is_space. apply dec_stable. by apply (Hlt j).
    + intros d r Hd. apply (f_equal (fun l => l !! 0%nat)) in Hd.
      rewrite lookup_drop, Nat.add_0_r, Hi in Hd. by injection Hd as <-.
  - apply list_find_None in E. exists s. rewrite drop_all, app_nil_r.
    split; [done|]. split; [|done]. eapply Forall_impl; [exact E|]. intros c. apply dec_stable.
Qed.

Lemma ltrim_unique s a r : s = a ++ r -> Forall is_space a -> (forall c t, r = c :: t -> ~ is_space c) ->
  ltrim s = r.
Proof.
  intros -> Ha Hr. induction Ha as [|c a Hc _ IH]; cbn [app].
  - unfold ltrim, find_first_not_of. destruct r as [|c r]; [done|]. cbn.
    rewrite decide_True; [done|]. exact (Hr c r eq_refl).
  - etrans; [|exact IH]. unfold ltrim, find_first_not_of. cbn. rewrite decide_False by (unfold is_space in Hc; tauto).
    by destruct (list_find _ (a ++ r)) as [[i d]|].
Qed.

Lemma rtrim_reverse s : rtrim s = reverse (ltrim (reverse s)).
Proof.
  unfold rtrim, ltrim, find_last_not_of. destruct (find_first_not_of (reverse s) Space) as [i|] eqn:E; cbn.
  - assert (i < length s)%nat.
    { unfold find_first_not_of in E. apply fmap_Some in E as ([j c] & Hf & ->).
      apply list_find_Some in Hf as (Hj & _). apply lookup_lt_Some in Hj. by rewrite length_reverse in Hj. }
    replace (S (length s - 1 - i)) with (length (reverse (drop i (reverse s))))
      by (rewrite length_reverse, length_drop, length_reverse; lia).
    rewrite <- (reverse_involutive s) at 2. rewrite <- (take_drop i (reverse s)) at 2.
    by rewrite reverse_app, take_app_length.
  - by rewrite drop_all.
Qed.

(** [trim] removes white space at both ends and nothing else: the string is the
    result between two runs of white space, and the result neither begins nor ends
    with white space. *)
Theorem trim_spec (s : str) :
  exists a b, s = a ++ trim s ++ b /\ Forall is_space a /\ Forall is_space b
    /\ (forall c r, trim s = c :: r -> ~ is_space c) /\ (forall c r, trim s = r ++ [c] -> ~ is_space c).
Proof.
  unfold trim. rewrite rtrim_reverse. destruct (ltrim_spec s) as (a & Ha & Hsa & Hfa).
  destruct (ltrim_spec (reverse (ltrim s))) as (b & Hb & Hsb & Hfb).
  exists a, (reverse b). apply (f_equal reverse) in Hb. rewrite reverse_involutive, reverse_app in Hb.
  split; [congruence|]. split; [done|]. split; [by apply Forall_reverse|]. split.
  - intros c r Hc. destruct (reverse (ltrim (reverse (ltrim s)))); [done|]. injection Hc as -> ->.
    by eapply Hfa.
  - intros c r Hc. apply (Hfb c (reverse r)). apply (f_equal reverse) in Hc.
    rewrite reverse_involutive, reverse_app in Hc. exact Hc.
Qed.

(** ** Splitting *)

(** Splitting at the first delimiter loses nothing: the key has no delimiter, and
    the string is the key alone, or the key, the delimiter and the value. *)
Lemma split_pair_spec s d : let '(key, val) := split_pair s d in
  (d ∉ key) /\ ((d ∉ s) /\ key = s /\ val = [] \/ s = key ++ d :: val).
Proof.
  unfold split_pair, find_first_of. destruct (list_find _ s) as [[i c]|] eqn:E; cbn.
  - apply list_find_Some in E as (Hi & Hc & Hlt). apply list_elem_of_singleton in Hc as ->. split.
    + intros Hin. apply list_elem_of_lookup in Hin as [j Hj]. apply lookup_take_Some in Hj as [Hj Hji].
      by apply (Hlt j d Hj); [|left].
    + right. by rewrite <- (take_drop_middle s i d) at 1.
  - apply list_find_None in E. rewrite Forall_forall in E.
    assert (d ∉ s) as Hd by (intros Hin; apply (E d Hin); left). split; [done|]. by left.
Qed.

Lemma split_pair_join key val d : (d ∉ key) -> split_pair (key ++ d :: val) d = (key, val).
Proof.
  intros Hk. pose proof (split_pair_spec (key ++ d :: val) d) as Hs.
  destruct (split_pair _ d) as [k v]. destruct Hs as [Hk' [(Hn & _) | He]].
  { exfalso. apply Hn. apply elem_of_app. right. left. }
  revert k Hk' He Hk. induction key as [|c key IH]; intros [|c' k] Hk' He Hk; cbn in *.
  - by injection He as <-.
  - injection He as <- _. exfalso. apply Hk'. left.
  - injection He as -> _. exfalso. apply Hk. left.
  - injection He as <- He. rewrite not_elem_of_cons in *.
    specialize (IH k ltac:(tauto) He ltac:(tauto)). congruence.
Qed.

(** ** Dumps *)

(** The two digits of a byte in a dump determine it. *)
Lemma hex_dump_byte c :
  let schar := wraps 8 (code c) in
  exists hi lo, 0 <= hi < 16 /\ 0 <= lo < 16 /\ 16 * hi + lo = code c
    /\ hex_char (Z.land (Z.shiftr schar 4) 15) = hex_char hi
    /\ hex_char (Z.land schar 15) = hex_char lo.
Proof.
  intros schar. exists (code c / 16), (code c mod 16). pose proof (code_range c).
  split; [lia|]. split; [lia|]. split; [lia|].
  destruct c as [[] [] [] [] [] [] [] []]; split; reflexivity.
Qed.
