(* ===== verification/Tokeniser.v ===== *)
(** * Tokens and lines

    Models [toolbox/util/Tokeniser.hpp]: the tokeniser, [parse_line] and [split].
    The iterators of the buffer are positions in it. *)
From S2P Require Import Prelude Text.
#[local] Open Scope nat_scope.

Record Tokeniser := mkTokeniser { buf_ : str; delims_ : str; i_ : nat; j_ : nat }.

(** [std::find_first_of] from a position: the first delimiter, or the end. *)
Definition find_from (buf delims : str) (i : nat) : nat :=
  match list_find (fun c => c ∈ delims) (drop i buf) with
  | Some (k, _) => i + k
  | None => length buf
  end.

Definition reset (buf delims : str) : Tokeniser := mkTokeniser buf delims 0 (find_from buf delims 0).
Definition consumed (t : Tokeniser) : nat := i_ t.
Definition empty (t : Tokeniser) : bool := i_ t =? length (buf_ t).
Definition has_delim (t : Tokeniser) : bool := negb (j_ t =? length (buf_ t)).
Definition top (t : Tokeniser) : str := take (j_ t - i_ t) (drop (i_ t) (buf_ t)).
Definition pop (t : Tokeniser) : Tokeniser :=
  if negb (j_ t =? length (buf_ t))
  then mkTokeniser (buf_ t) (delims_ t) (j_ t + 1) (find_from (buf_ t) (delims_ t) (j_ t + 1))
  else mkTokeniser (buf_ t) (delims_ t) (j_ t) (j_ t).
Definition next (t : Tokeniser) : str * Tokeniser := (top t, pop t).

(** [while (!toks.empty()) toks.next()]. *)
Fixpoint tokens (fuel : nat) (t : Tokeniser) (acc : list str) : option (list str * Tokeniser) :=
  if empty t then Some (acc, t)
  else match fuel with
       | O => None
       | S fuel => let '(tok, t) := next t in tokens fuel t (acc ++ [tok])
       end.

(** [parse_line]: the lines passed to the function, and the bytes consumed. *)
Fixpoint parse_loop (fuel : nat) (lines : Tokeniser) (calls : list str) : option (list str * nat) :=
  if has_delim lines then
    match fuel with
    | O => None
    | S fuel => parse_loop fuel (pop lines) (calls ++ [top lines])
    end
  else Some (calls, consumed lines).
Definition newline : ascii := "010".
Definition parse_line (fuel : nat) (buf : str) : option (list str * nat) :=
  parse_loop fuel (reset buf [newline]) [].

(** [split]: the columns of a row of fixed width. *)
Fixpoint split_cols (toks : Tokeniser) (row : list str) : list str :=
  match row with
  | [] => []
  | col :: row => if empty toks then col :: row else top toks :: split_cols (pop toks) row
  end.
Definition split (line delims : str) (row : list str) : list str := split_cols (reset line delims) row.

(** ** What the tokens are *)

(** The text before the first delimiter, and the rest from the delimiter. *)
Fixpoint field (delims s : str) : str * str :=
  match s with
  | [] => ([], [])
  | c :: s => if decide (c ∈ delims) then ([], c :: s) else let '(f, r) := field delims s in (c :: f, r)
  end.

Lemma field_spec delims s : let '(f, r) := field delims s in
  s = f ++ r /\ Forall (fun c => c ∉ delims) f
  /\ find_from s delims 0 = length f
  /\ (r = [] \/ exists d r', r = d :: r' /\ d ∈ delims).
Proof.
  unfold find_from. rewrite drop_0. induction s as [|c s IH]; cbn [field]; [split_and!; try done; by left|].
  cbn [list_find]. destruct (decide (c ∈ delims)) as [Hc | Hc].
  - split_and!; try done. right. eauto.
  - destruct (field delims s) as [f r]. destruct IH as (-> & Hf & Hl & Hr).
    split_and!; [done | by constructor | | done].
    destruct (list_find (fun c => c ∈ delims) (f ++ r)) as [[k d]|]; cbn in *; lia.
Qed.

(** A tokeniser at the start of the rest [s] of its buffer. *)
Definition at_rest (t : Tokeniser) (s : str) : Prop :=
  drop (i_ t) (buf_ t) = s /\ i_ t <= length (buf_ t) /\ j_ t = find_from (buf_ t) (delims_ t) (i_ t).

Lemma reset_at_rest buf delims : at_rest (reset buf delims) buf.
Proof. split; [by rewrite drop_0|]. split; [cbn; lia | done]. Qed.

Lemma find_from_drop buf delims i : i <= length buf ->
  find_from buf delims i = i + find_from (drop i buf) delims 0.
Proof.
  intros Hi. unfold find_from. rewrite drop_0. destruct (list_find _ (drop i buf)) as [[k d]|]; [done|].
  rewrite length_drop. lia.
Qed.

Lemma at_rest_empty t s : at_rest t s -> empty t = bool_decide (s = []).
Proof.
  intros (Hd & Hi & _). unfold empty. subst s.
  pose proof (length_drop (buf_ t) (i_ t)).
  destruct (Nat.eqb_spec (i_ t) (length (buf_ t))); case_bool_decide as Hs; try done.
  - exfalso. apply Hs. apply drop_ge. lia.
  - rewrite Hs in H. cbn in H. lia.
Qed.

(** At the rest [f ++ r] of a buffer, where [f] is the next field. *)
Lemma at_rest_step t s : at_rest t s -> let '(f, r) := field (delims_ t) s in
  top t = f /\ has_delim t = (if decide (r = []) then false else true)
  /\ at_rest (pop t) (tail r) /\ delims_ (pop t) = delims_ t
  /\ buf_ (pop t) = buf_ t.
Proof.
  intros (Hd & Hi & Hj). pose proof (field_spec (delims_ t) s) as Hf.
  destruct (field (delims_ t) s) as [f r]. destruct Hf as (Hs & Hf & Hl & Hr).
  rewrite find_from_drop, Hd, Hl in Hj by done.
  assert (length (buf_ t) = i_ t + length f + length r) as Hlen.
  { pose proof (length_drop (buf_ t) (i_ t)) as H. rewrite Hd, Hs, length_app in H. lia. }
  unfold top, has_delim, pop. rewrite Hj, Hd.
  split; [replace (i_ t + length f - i_ t) with (length f) by lia; by rewrite Hs, take_app_length|].
  destruct Hr as [-> | (d & r' & -> & Hdel)]; cbn [length tail] in *.
  - rewrite decide_True by done. rewrite (proj2 (Nat.eqb_eq _ _)) by lia. split; [done|].
    split; [|done]. split; [cbn; rewrite drop_ge by lia; done|]. cbn. split; [lia|].
    unfold find_from. rewrite drop_ge by lia. cbn. lia.
  - rewrite decide_False by done. rewrite (proj2 (Nat.eqb_neq _ _)) by lia. cbn [negb]. split; [done|].
    split; [|done]. split; [|cbn; split; [lia | done]]. cbn.
    replace (i_ t + length f + 1) with (i_ t + (length f + 1)) by lia.
    rewrite <- drop_drop, Hd, Hs, drop_app_ge by lia. replace (length f + 1 - length f) with 1 by lia. done.
Qed.

(** The fields of a string that end at a delimiter, with it, and what follows them. *)
Definition join (fs : list (str * ascii)) : str := mjoin ((fun '(f, d) => f ++ [d]) <$> fs).
Definition fields_of (delims s : str) (fs : list (str * ascii)) (last : str) : Prop :=
  s = join fs ++ last
  /\ Forall (fun '(f, d) => Forall (fun c => c ∉ delims) f /\ d ∈ delims) fs
  /\ Forall (fun c => c ∉ delims) last.

Lemma fields_of_step delims s fs last : let '(f, r) := field delims s in
  match r with
  | [] => fields_of delims s [] f
  | d :: r => fields_of delims r fs last -> fields_of delims s ((f, d) :: fs) last
  end.
Proof.
  pose proof (field_spec delims s) as Hf. destruct (field delims s) as [f r].
  destruct Hf as (Hs & Hf & _ & Hr). destruct Hr as [-> | (d & r' & -> & Hd)].
  - rewrite app_nil_r in Hs. split; [done|]. by split.
  - intros (Hr & Hfs & Hl). split; [|split; [by constructor|done]].
    unfold join. cbn. rewrite Hs, Hr. unfold join. by rewrite <- !app_assoc.
Qed.

Lemma field_length delims s : let '(f, r) := field delims s in length (tail r) < length s \/ s = [].
Proof.
  pose proof (field_spec delims s) as Hf. destruct (field delims s) as [f r].
  destruct Hf as (-> & _ & _ & [-> | (d & r' & -> & _)]); rewrite length_app; cbn.
  - destruct f; [by right | left; cbn; lia].
  - left. lia.
Qed.

Lemma tokens_fields fuel t s acc :
  at_rest t s -> length s <= fuel ->
  exists fs last t', fields_of (delims_ t) s fs last
    /\ tokens fuel t acc = Some (acc ++ fs.*1 ++ (if decide (last = []) then [] else [last]), t')
    /\ consumed t' = length (buf_ t).
Proof.
  revert t s acc. induction fuel as [|fuel IH]; intros t s acc Hs Hf.
  - destruct s; [|cbn in Hf; lia]. exists [], [], t. split; [done|]. cbn.
    rewrite (at_rest_empty t [] Hs). cbn. rewrite app_nil_r. split; [done|].
    destruct Hs as (Hd & Hi & _). pose proof (length_drop (buf_ t) (i_ t)) as H. rewrite Hd in H. cbn in H.
    unfold consumed. lia.
  - cbn [tokens]. rewrite (at_rest_empty t s Hs). case_bool_decide as He.
    + subst s. exists [], [], t. split; [done|]. cbn. rewrite app_nil_r. split; [done|].
      destruct Hs as (Hd & Hi & _). pose proof (length_drop (buf_ t) (i_ t)) as H. rewrite Hd in H. cbn in H.
      unfold consumed. lia.
    + pose proof (at_rest_step t s Hs) as Hstep.
      pose proof (fun fs last => fields_of_step (delims_ t) s fs last) as Hfo.
      pose proof (field_length (delims_ t) s) as Hfl.
      destruct (field (delims_ t) s) as [f r]. destruct Hstep as (Htop & _ & Hrest & Hdel & Hbuf).
      destruct Hfl as [Hfl | Hfl]; [|done]. unfold next. rewrite Htop.
      destruct (IH (pop t) (tail r) (acc ++ [f]) Hrest ltac:(lia)) as (fs & last & t' & Hfs & Heq & Hc).
      rewrite Hdel in Hfs. rewrite Hbuf in Hc. destruct r as [|d r]; cbn [tail] in *.
      * destruct Hfs as (Hnil & _ & _). assert (fs = [] /\ last = []) as [-> ->].
        { symmetry in Hnil. apply app_nil in Hnil as [Hj ->].
          destruct fs as [|[l d] fs]; [done|]. by destruct l. }
        exists [], f, t'. split; [by apply (Hfo [] [])|]. split; [|done]. rewrite Heq. cbn.
        rewrite (decide_True (P := [] = [])), (decide_False (P := f = [])), app_nil_r; [done | | done].
        intros ->. destruct (Hfo [] []) as (Hs0 & _). by cbn in Hs0.
      * exists ((f, d) :: fs), last, t'. split; [by apply Hfo|]. split; [|done].
        rewrite Heq. cbn. by rewrite <- app_assoc.
Qed.

Lemma tokens_fuel fuel fuel' t acc r :
  tokens fuel t acc = Some r -> fuel <= fuel' -> tokens fuel' t acc = Some r.
Proof.
  revert fuel' t acc. induction fuel as [|fuel IH]; intros fuel' t acc Ht Hf.
  - cbn in Ht. destruct fuel'; cbn; by destruct (empty t).
  - destruct fuel' as [|fuel']; [lia|]. cbn [tokens] in *. destruct (empty t); [done|].
    destruct (next t). apply IH; [done | lia].
Qed.

(** Taking tokens until the tokeniser is empty terminates, consumes the whole
    buffer, and gives its fields in order: the buffer is the fields, none of which
    contains a delimiter, each followed by its delimiter, and a last field.  Empty
    fields are kept, but an empty last field is not a token. *)
Theorem tokens_are_fields (buf delims : str) :
  exists fs last t',
    buf = join fs ++ last
    /\ Forall (fun '(f, d) => Forall (fun c => c ∉ delims) f /\ d ∈ delims) fs
    /\ Forall (fun c => c ∉ delims) last
    /\ (forall fuel, length buf <= fuel -> tokens fuel (reset buf delims) [] =
        Some (fs.*1 ++ (if decide (last = []) then [] else [last]), t'))
    /\ consumed t' = length buf.
Proof.
  destruct (tokens_fields (length buf) (reset buf delims) buf [] (reset_at_rest buf delims))
    as (fs & last & t' & (Hj & Hf & Hl) & Htok & Hc); [lia|].
  exists fs, last, t'. split_and!; try done. intros fuel Hfuel.
  by apply (tokens_fuel (length buf)).
Qed.

(** ** Lines *)

Lemma parse_loop_fields fuel t s calls :
  at_rest t s -> length s < fuel ->
  exists fs last, fields_of (delims_ t) s fs last
    /\ parse_loop fuel t calls = Some (calls ++ fs.*1, length (buf_ t) - length last).
Proof.
  revert t s calls. induction fuel as [|fuel IH]; intros t s calls Hs Hf; [lia|].
  cbn [parse_loop]. pose proof (at_rest_step t s Hs) as Hstep.
  pose proof (fun fs last => fields_of_step (delims_ t) s fs last) as Hfo.
  pose proof (field_length (delims_ t) s) as Hfl. pose proof (field_spec (delims_ t) s) as Hsp.
  destruct (field (delims_ t) s) as [f r]. destruct Hstep as (Htop & Hhas & Hrest & Hdel & Hbuf).
  destruct Hsp as (Hsf & _ & _ & Hr). rewrite Hhas. destruct r as [|d r].
  - rewrite decide_True by done. exists [], f. split; [by apply (Hfo [] [])|].
    rewrite app_nil_r in *. subst s. destruct Hs as (Hd & Hi & _).
    pose proof (length_drop (buf_ t) (i_ t)) as H. rewrite Hd in H. unfold consumed. do 2 f_equal. lia.
  - rewrite decide_False by done. cbn [tail] in *.
    destruct Hfl as [Hfl | ->]; [|by destruct f].
    destruct (IH (pop t) r (calls ++ [top t]) Hrest ltac:(lia)) as (fs & last & Hfs & ->).
    rewrite Hdel in Hfs. exists ((f, d) :: fs), last. split; [by apply Hfo|].
    rewrite Hbuf, Htop, <- app_assoc. done.
Qed.

(** The lines of a string and what follows the last line break. *)
Definition lines_of (s : str) (ls : list str) (rest : str) : Prop :=
  s = mjoin ((fun l => l ++ [newline]) <$> ls) ++ rest
  /\ Forall (fun l => newline ∉ l) ls /\ (newline ∉ rest).

Lemma lines_of_unique s ls rest ls' rest' :
  lines_of s ls rest -> lines_of s ls' rest' -> ls = ls' /\ rest = rest'.
Proof.
  intros (Hs & Hl & Hr) (Hs' & Hl' & Hr'). subst s. revert ls' Hs' Hl'.
  induction ls as [|l ls IH]; intros ls' Hs Hl'.
  - destruct ls' as [|l' ls']; [done|]. exfalso. apply Hr. cbn in Hs. rewrite Hs, !elem_of_app.
    left. left. right. left.
  - destruct ls' as [|l' ls'].
    { exfalso. apply Hr'. cbn in Hs. rewrite <- Hs, !elem_of_app. left. left. right. left. }
    apply Forall_cons in Hl as [Hl1 Hl]. apply Forall_cons in Hl' as [Hl1' Hl'].
    cbn in Hs. rewrite <- !app_assoc in Hs. cbn in Hs.
    apply (f_equal (fun s => split_pair s newline)) in Hs.
    rewrite !split_pair_join in Hs by done. injection Hs as -> Hs.
    destruct (IH Hl ls') as [-> ->]; done.
Qed.

Lemma parse_line_lines fuel buf : length buf < fuel ->
  exists ls rest, lines_of buf ls rest /\ parse_line fuel buf = Some (ls, length buf - length rest).
Proof.
  intros Hf. destruct (parse_loop_fields fuel (reset buf [newline]) buf [] (reset_at_rest _ _) Hf)
    as (fs & last & (Hj & Hfs & Hl) & Hp).
  exists fs.*1, last. split; [|exact Hp]. cbn in Hj, Hfs, Hl. split; [|split].
  - rewrite Hj. f_equal. unfold join. f_equal. rewrite <- list_fmap_compose. clear - Hfs.
    induction Hfs as [|[f d] fs (Hf & Hd) _ IH]; [done|]. cbn. rewrite IH.
    by apply list_elem_of_singleton in Hd as ->.
  - clear - Hfs. induction Hfs as [|[f d] fs (Hf & Hd) _ IH]; [done|]. constructor; [|done]. cbn.
    intros Hin. rewrite Forall_forall in Hf. apply (Hf _ Hin). left.
  - intros Hin. rewrite Forall_forall in Hl. apply (Hl _ Hin). left.
Qed.

(** A reader: the bytes that were not consumed stay in front of the next chunk. *)
Definition read_chunk (st : str * list str) (chunk : str) : option (str * list str) :=
  let '(pending, seen) := st in
  let buf := pending ++ chunk in
  '(ls, n) ← parse_line (S (length buf)) buf; Some (drop n buf, seen ++ ls).
Fixpoint read_chunks (st : str * list str) (chunks : list str) : option (str * list str) :=
  match chunks with
  | [] => Some st
  | c :: chunks => st ← read_chunk st c; read_chunks st chunks
  end.

Lemma read_chunk_lines s pending seen c :
  lines_of s seen pending -> exists pending' seen',
    read_chunk (pending, seen) c = Some (pending', seen') /\ lines_of (s ++ c) seen' pending'.
Proof.
  intros (Hs & Hl & Hr). unfold read_chunk.
  destruct (parse_line_lines (S (length (pending ++ c))) (pending ++ c)) as (ls & rest & (He & Hls & Hrest) & ->);
    [lia|].
  exists rest, (seen ++ ls). cbn. split.
  - rewrite He at 2. rewrite He. rewrite length_app, Nat.add_sub, drop_app_length. done.
  - split; [|split; [by apply Forall_app | done]].
    rewrite Hs, <- app_assoc, He, fmap_app, join_app. by rewrite app_assoc.
Qed.

(** Reading lines from a stream that arrives in chunks of any sizes, keeping what
    [parse_line] did not consume in front of the next chunk, passes exactly the
    lines of the whole stream to the function, in order and once each, and keeps
    exactly the incomplete last line. *)
Theorem parse_line_chunks (chunks : list str) :
  exists pending seen, read_chunks ([], []) chunks = Some (pending, seen)
    /\ mjoin chunks = mjoin ((fun l => l ++ [newline]) <$> seen) ++ pending
    /\ Forall (fun l => newline ∉ l) seen /\ (newline ∉ pending).
Proof.
  assert (forall s st, lines_of s st.2 st.1 -> exists st', read_chunks st chunks = Some st'
    /\ lines_of (s ++ mjoin chunks) st'.2 st'.1) as Hgen.
  { induction chunks as [|c chunks IH]; intros s [p q] Hs; cbn [read_chunks mjoin list_join].
    - exists (p, q). by rewrite app_nil_r.
    - destruct (read_chunk_lines s p q c Hs) as (p' & q' & -> & Hs'). cbn.
      destruct (IH (s ++ c) (p', q') Hs') as (st' & -> & Hl). exists st'. by rewrite app_assoc. }
  destruct (Hgen [] ([], [])) as ([p q] & -> & Hl).
  - split; [done|]. split; [done|]. apply not_elem_of_nil.
  - by exists p, q.
Qed.

(** ** Rows *)

Lemma tokens_extend fuel t acc r t' : tokens fuel t acc = Some (r, t') -> exists ts, r = acc ++ ts.
Proof.
  revert t acc. induction fuel as [|fuel IH]; intros t acc Ht; cbn in Ht.
  - destruct (empty t); [|done]. injection Ht as <- _. exists []. by rewrite app_nil_r.
  - destruct (empty t); [injection Ht as <- _; exists []; by rewrite app_nil_r|].
    destruct (IH _ _ Ht) as [ts ->]. exists (top t :: ts). by rewrite <- app_assoc.
Qed.

Lemma split_cols_tokens row t fuel acc ts t' :
  tokens fuel t acc = Some (acc ++ ts, t') ->
  split_cols t row = take (length row) ts ++ drop (length ts) row.
Proof.
  revert t fuel acc ts. induction row as [|col row IH]; intros t fuel acc ts Ht.
  - by rewrite drop_nil.
  - cbn [split_cols]. destruct (empty t) eqn:E.
    + assert (ts = []) as ->; [|by rewrite take_nil].
      destruct fuel; cbn in Ht; rewrite E in Ht; injection Ht as Ht _;
        rewrite <- (app_nil_r acc) in Ht at 1; by apply app_inv_head in Ht.
    + destruct fuel as [|fuel]; cbn in Ht; rewrite E in Ht; [done|].
      destruct (tokens_extend _ _ _ _ _ Ht) as [ts' Hts]. rewrite <- app_assoc in Hts.
      apply app_inv_head in Hts. subst ts. cbn. f_equal.
      apply (IH (pop t) fuel (acc ++ [top t])). by rewrite <- app_assoc.
Qed.

(** Splitting a line into a row of columns stores its first tokens in the columns
    from the left, as many as there are columns, and leaves the columns for which
    there is no token as they were. *)
Theorem split_fills_row (line delims : str) (row : list str) :
  exists ts t', tokens (length line) (reset line delims) [] = Some (ts, t')
    /\ split line delims row = take (length row) ts ++ drop (length ts) row.
Proof.
  destruct (tokens_fields (length line) (reset line delims) line [] (reset_at_rest line delims))
    as (fs & last & t' & _ & Ht & _); [lia|].
  eexists _, t'. split; [exact Ht|]. by apply (split_cols_tokens row _ (length line) [] _ t').
Qed.
