(* ===== verification/Options.v ===== *)
(** * Command line options

    Models [toolbox/util/Argv.hpp], [Argv.cpp] (the lexer) and
    [toolbox/util/Options.hpp], [Options.cpp] (registration and parsing).

    A [Value] passes each argument to a function that stores it in the program's
    variable; it is modelled by the arguments that were passed, in order.  The
    options registered under a short and a long name share their data, so the
    table maps names to an index of the shared records. *)
From stdpp Require Import strings.
From Stdlib Require Import String.
From S2P Require Import Prelude Text.
#[local] Open Scope nat_scope.

(** ** The lexer *)

Record ArgvLexer := mkLexer { it_ : list str; opt_ : str; val_ : option str }.

Definition lex_empty (l : ArgvLexer) : bool := match it_ l with [] => true | _ => false end.

Definition dash : ascii := "-".
Definition equals : ascii := "=".

(** [next]: classifies the argument at the position. *)
Definition lex_next (it : list str) : ArgvLexer :=
  match it with
  | [] => mkLexer it [] None
  | arg :: _ =>
      match arg with
      | c0 :: c1 :: rest =>
          if negb (bool_decide (c0 = dash)) then mkLexer it [] (Some arg)
          else if bool_decide (c1 = dash) then
            match rest with
            | [] => mkLexer it [] (Some arg)
            | _ =>
                match list_find (fun c => c = equals) rest with
                | Some (pos, _) => mkLexer it (take pos rest) (Some (drop (S pos) rest))
                | None => mkLexer it rest None
                end
            end
          else mkLexer it [c1] (match rest with [] => None | _ => Some rest end)
      | _ => mkLexer it [] (Some arg)
      end
  end.

Inductive error :=
| UnexpectedValue (opt : str)
| MissingValue (opt : str)
| UnexpectedArgument (arg : str)
| UnknownOption (opt : str)
| DuplicateOption (opt : str)
| DuplicateRegistration (opt : str)
| MissingRequired
| MissingPositional.

Definition lex_pop (l : ArgvLexer) : ArgvLexer := lex_next (tail (it_ l)).

Definition pop_switch (l : ArgvLexer) : error + ArgvLexer :=
  let it := tail (it_ l) in
  match val_ l with
  | Some _ => inl (UnexpectedValue (opt_ l))
  | None => inr (lex_next it)
  end.

Definition pop_value (l : ArgvLexer) : error + (str * ArgvLexer) :=
  let it := tail (it_ l) in
  match val_ l with
  | Some val => inr (val, lex_next it)
  | None =>
      match it with
      | [] => inl (MissingValue (opt_ l))
      | val :: it => inr (val, lex_next it)
      end
  end.

(** ** The options *)

Record ValueData := mkValue { required : bool; multitoken_ : bool; set_ : bool; args : list str }.

Inductive Data :=
| Value (v : ValueData)
| Help
| NoOp
| Switch (flag : bool).

Record Options := mkOptions {
  opts_ : gmap str nat;
  data_ : list Data;
  positional_ : list Data
}.

Definition set_data (o : Options) (d : list Data) : Options := mkOptions (opts_ o) d (positional_ o).
Definition set_positional (o : Options) (d : list Data) : Options := mkOptions (opts_ o) (data_ o) d.

(** Registration; a short option is a name of one character. *)
Definition add_name (o : Options) (n : str) (id : nat) : option error * Options :=
  match opts_ o !! n with
  | Some _ => (Some (DuplicateRegistration n), o)
  | None => (None, mkOptions (<[n := id]> (opts_ o)) (data_ o) (positional_ o))
  end.

Definition register (o : Options) (short_opt : option ascii) (long_opt : str) (d : Data)
    : option error * Options :=
  let id := length (data_ o) in
  let o := set_data o (data_ o ++ [d]) in
  let '(e, o) := match short_opt with Some c => add_name o [c] id | None => (None, o) end in
  match e with
  | Some _ => (e, o)
  | None => match long_opt with [] => (None, o) | _ => add_name o long_opt id end
  end.

Definition register_positional (o : Options) (d : Data) : Options :=
  set_positional o (positional_ o ++ [d]).

Definition run_value (v : ValueData) (arg : str) : ValueData :=
  mkValue (required v) (multitoken_ v) true (args v ++ [arg]).

Inductive outcome := Done | Exit | Error (e : error).

(** One option or argument: the data after the visit and the lexer, or the
    outcome that ends the parse. *)
Definition visit (opt : str) (d : Data) (lex : ArgvLexer) : outcome + (Data * ArgvLexer) :=
  match d with
  | Help => match pop_switch lex with inl e => inl (Error e) | inr _ => inl Exit end
  | Switch _ => match pop_switch lex with inl e => inl (Error e) | inr lex => inr (Switch true, lex) end
  | Value v =>
      match pop_value lex with
      | inl e => inl (Error e)
      | inr (val, lex) =>
          if set_ v && negb (multitoken_ v) then inl (Error (DuplicateOption opt))
          else inr (Value (run_value v val), lex)
      end
  | NoOp => inr (d, lex_pop lex)
  end.

Definition step (lex : ArgvLexer) (idx : nat) (o : Options)
    : (outcome * Options) + (ArgvLexer * nat * Options) :=
  let opt := opt_ lex in
  match opt with
  | [] =>
      match positional_ o !! idx with
      | None => inl (Error (UnexpectedArgument (default [] (head (it_ lex)))), o)
      | Some d =>
          match visit opt d lex with
          | inl r => inl (r, o)
          | inr (d, lex) => inr (lex, S idx, set_positional o (<[idx := d]> (positional_ o)))
          end
      end
  | _ =>
      match opts_ o !! opt with
      | None => inl (Error (UnknownOption opt), o)
      | Some id =>
          match data_ o !! id with
          | None => inl (Error (UnknownOption opt), o) (* names refer to registered data *)
          | Some d =>
              match visit opt d lex with
              | inl r => inl (r, o)
              | inr (d, lex) => inr (lex, idx, set_data o (<[id := d]> (data_ o)))
              end
          end
      end
  end.

Definition missing (d : Data) : bool :=
  match d with Value v => required v && negb (set_ v) | _ => false end.

Definition check_required (o : Options) : outcome :=
  if existsb missing (omap (fun '(_, id) => data_ o !! id) (map_to_list (opts_ o)))
  then Error MissingRequired
  else if existsb missing (positional_ o) then Error MissingPositional else Done.

Fixpoint parse_loop (fuel : nat) (lex : ArgvLexer) (idx : nat) (o : Options) : option (outcome * Options) :=
  if lex_empty lex then Some (check_required o, o)
  else match fuel with
       | O => None
       | S fuel =>
           match step lex idx o with
           | inl r => Some r
           | inr (lex, idx, o) => parse_loop fuel lex idx o
           end
       end.

(** [parse]: the arguments after the program's name. *)
Definition parse (fuel : nat) (argv : list str) (o : Options) : option (outcome * Options) :=
  parse_loop fuel (lex_next argv) 0 o.

(** ** Command lines *)

(** How an option is named, and how its value is given. *)
Inductive name := Short (c : ascii) | Long (n : str).
Inductive item :=
| IAttached (n : name) (v : str)
| ISeparate (n : name) (v : str)
| ISwitch (n : name)
| IPositional (v : str).

Definition name_of (n : name) : str := match n with Short c => [c] | Long n => n end.

Definition render (i : item) : list str :=
  match i with
  | IAttached (Short c) v => [dash :: c :: v]
  | IAttached (Long n) v => [dash :: dash :: n ++ equals :: v]
  | ISeparate (Short c) v => [[dash; c]; v]
  | ISeparate (Long n) v => [dash :: dash :: n; v]
  | ISwitch (Short c) => [[dash; c]]
  | ISwitch (Long n) => [dash :: dash :: n]
  | IPositional v => [v]
  end.

Definition name_ok (n : name) : Prop :=
  match n with Short c => c <> dash | Long n => n <> [] /\ (equals ∉ n) end.

(** An argument that is not an option: it does not begin with a dash, or is one or
    two dashes. *)
Definition positional_ok (v : str) : Prop :=
  v = [] \/ v = [dash] \/ v = [dash; dash] \/ exists c r, v = c :: r /\ c <> dash.

Definition item_ok (i : item) : Prop :=
  match i with
  | IAttached (Short c) v => name_ok (Short c) /\ v <> []
  | IAttached n _ | ISeparate n _ | ISwitch n => name_ok n
  | IPositional v => positional_ok v
  end.

(** ** What a parse does to the options *)

(** How the data of one option changes: arguments are appended, at most one to an
    option that takes one value; the flag of a switch is only ever raised. *)
Definition data_step (d d' : Data) : Prop :=
  match d, d' with
  | Value v, Value v' =>
      required v' = required v /\ multitoken_ v' = multitoken_ v
      /\ exists xs, args v' = args v ++ xs
           /\ set_ v' = set_ v || negb (bool_decide (xs = []))
           /\ (multitoken_ v = false -> length xs <= if set_ v then 0 else 1)
  | Help, Help | NoOp, NoOp => True
  | Switch b, Switch b' => b = true -> b' = true
  | _, _ => False
  end.

#[local] Instance data_step_refl : Reflexive data_step.
Proof.
  intros [v | | | b]; cbn; try done. split; [done|]. split; [done|]. exists [].
  rewrite app_nil_r. split_and!; [done | by rewrite orb_false_r | intros; cbn; lia].
Qed.

#[local] Instance data_step_trans : Transitive data_step.
Proof.
  intros [v1 | | | b1] [v2 | | | b2] [v3 | | | b3]; cbn; try done.
  2: { intros H1 H2 H. auto. }
  intros (R1 & M1 & xs & A1 & S1 & L1) (R2 & M2 & ys & A2 & S2 & L2).
  split; [congruence|]. split; [congruence|]. exists (xs ++ ys).
  split; [rewrite A2, A1; by rewrite <- app_assoc|]. split.
  - rewrite S2, S1. destruct (set_ v1), xs, ys; done.
  - intros Hm. rewrite M1 in L2. specialize (L1 Hm). specialize (L2 Hm). rewrite length_app.
    rewrite S1 in L2. destruct (set_ v1), xs; cbn in *; lia.
Qed.


Lemma visit_step opt d lex d' lex' : visit opt d lex = inr (d', lex') -> data_step d d'.
Proof.
  destruct d as [v | | | b]; cbn.
  - destruct (pop_value lex) as [e | [val l]]; [done|].
    destruct (set_ v) eqn:Es, (multitoken_ v) eqn:Em; cbn; intros H; try done;
      injection H as <- <-; cbn; (split; [done|]; split; [congruence|]; exists [val];
      rewrite ?Es, ?Em; split_and!; done).
  - by destruct (pop_switch lex).
  - by intros [= <- <-].
  - destruct (pop_switch lex); [done|]. by intros [= <- <-].
Qed.

Lemma Forall2_insert_step (l : list Data) i d d' :
  l !! i = Some d -> data_step d d' -> Forall2 data_step l (<[i := d']> l).
Proof.
  intros Hi Hd. apply Forall2_same_length_lookup_2; [by rewrite length_insert|].
  intros j x y Hx Hy. destruct (decide (j = i)) as [-> | Hne].
  - rewrite list_lookup_insert_eq in Hy by (by eapply lookup_lt_Some). congruence.
  - rewrite list_lookup_insert_ne in Hy by done. assert (x = y) as -> by congruence. reflexivity.
Qed.

Definition options_step (o o' : Options) : Prop :=
  opts_ o' = opts_ o /\ Forall2 data_step (data_ o) (data_ o')
  /\ Forall2 data_step (positional_ o) (positional_ o').

#[local] Instance options_step_refl : Reflexive options_step.
Proof. intros o. split_and!; reflexivity. Qed.
#[local] Instance options_step_trans : Transitive options_step.
Proof. intros o1 o2 o3 (E1 & D1 & P1) (E2 & D2 & P2). split_and!; [congruence | by etrans | by etrans]. Qed.

Lemma step_options lex idx o r : step lex idx o = r ->
  match r with inl (_, o') => o' = o | inr (_, _, o') => options_step o o' end.
Proof.
  intros <-. unfold step. destruct (opt_ lex) as [|c opt].
  - destruct (positional_ o !! idx) as [d|] eqn:E; [|done].
    destruct (visit [] d lex) as [r | [d' lex']] eqn:Ev; [done|].
    split_and!; [done | reflexivity | cbn]. eapply Forall2_insert_step; [done | by eapply visit_step].
  - destruct (opts_ o !! (c :: opt)) as [id|]; [|done].
    destruct (data_ o !! id) as [d|] eqn:E; [|done].
    destruct (visit (c :: opt) d lex) as [r | [d' lex']] eqn:Ev; [done|].
    split_and!; [done | cbn | reflexivity]. eapply Forall2_insert_step; [done | by eapply visit_step].
Qed.

(** Each iteration consumes an argument. *)
Lemma it_lex_next it : it_ (lex_next it) = it.
Proof.
  destruct it as [|[|c0 [|c1 rest]] it]; try done. cbn. destruct (negb _); [done|].
  case_bool_decide; [|done]. destruct rest; [done|]. by destruct (list_find _ _) as [[]|].
Qed.

Lemma visit_consumes opt d lex d' lex' : lex_empty lex = false ->
  visit opt d lex = inr (d', lex') -> length (it_ lex') < length (it_ lex).
Proof.
  unfold lex_empty. destruct (it_ lex) as [|a l] eqn:Ei; [done|]. intros _ Hv. cbn [length].
  assert (forall e l', pop_switch lex = e -> e = inr l' -> length (it_ l') < S (length l)) as Hsw.
  { unfold pop_switch. rewrite Ei. intros e l' <- H. destruct (val_ lex); [done|]. injection H as <-.
    rewrite it_lex_next. cbn. lia. }
  destruct d as [v | | | b]; cbn in Hv.
  - unfold pop_value in Hv. rewrite Ei in Hv. cbn in Hv. destruct (val_ lex).
    + destruct (_ && _); [done|]. injection Hv as <- <-. rewrite it_lex_next. lia.
    + destruct l as [|v' l]; [done|]. destruct (_ && _); [done|]. injection Hv as <- <-.
      rewrite it_lex_next. cbn. lia.
  - by destruct (pop_switch lex).
  - injection Hv as <- <-. unfold lex_pop. rewrite it_lex_next, Ei. cbn. lia.
  - destruct (pop_switch lex) eqn:E; [done|]. injection Hv as <- <-. by eapply Hsw.
Qed.

Lemma step_consumes lex idx o lex' idx' o' : lex_empty lex = false ->
  step lex idx o = inr (lex', idx', o') -> length (it_ lex') < length (it_ lex).
Proof.
  intros He Hs. unfold step in Hs.
  repeat match type of Hs with
  | context [match ?x with _ => _ end] => destruct x eqn:?; try done
  end; injection Hs as <- <- <-; by eapply visit_consumes.
Qed.

Lemma visit_not_done opt d lex : visit opt d lex <> inl Done.
Proof.
  destruct d as [v | | | b]; cbn; try (by destruct (pop_switch lex)).
  destruct (pop_value lex) as [|[]]; [done|]. by destruct (_ && _).
Qed.

Lemma step_not_done lex idx o o' : step lex idx o <> inl (Done, o').
Proof.
  unfold step. intros H.
  repeat match type of H with
  | context [visit ?a ?b ?c] => pose proof (visit_not_done a b c); destruct (visit a b c) as [|[]]
  | context [match ?x with _ => _ end] => destruct x
  end; congruence.
Qed.

Lemma parse_loop_total fuel lex idx o : length (it_ lex) <= fuel ->
  exists r o', parse_loop fuel lex idx o = Some (r, o') /\ options_step o o'
    /\ (r = Done -> check_required o' = Done).
Proof.
  revert lex idx o. induction fuel as [|fuel IH]; intros lex idx o Hf; cbn [parse_loop].
  - destruct lex as [[|? ?] ? ?]; [|cbn in Hf; lia]. cbn. by exists (check_required o), o.
  - destruct (lex_empty lex) eqn:E; [by exists (check_required o), o|].
    pose proof (step_options lex idx o _ eq_refl) as Hst.
    destruct (step lex idx o) as [[r o'] | [[lex' idx'] o']] eqn:Es.
    + subst o'. exists r, o. split; [done|]. split; [done|]. intros ->. exfalso.
      by apply (step_not_done lex idx o o).
    + pose proof (step_consumes _ _ _ _ _ _ E Es).
      destruct (IH lex' idx' o' ltac:(lia)) as (r & o2 & -> & Ho & Hd). exists r, o2.
      split; [done|]. split; [by etrans | done].
Qed.

Lemma existsb_false {A} (f : A -> bool) l : existsb f l = false -> forall x, x ∈ l -> f x = false.
Proof.
  intros H x Hx. destruct (f x) eqn:E; [|done]. rewrite <- not_true_iff_false in H. exfalso. apply H.
  apply existsb_exists. exists x. by rewrite <- list_elem_of_In.
Qed.

Lemma check_required_done o : check_required o = Done ->
  (forall n id d, opts_ o !! n = Some id -> data_ o !! id = Some d -> missing d = false)
  /\ forall i d, positional_ o !! i = Some d -> missing d = false.
Proof.
  unfold check_required. destruct (existsb missing _) eqn:E1; [done|].
  destruct (existsb missing (positional_ o)) eqn:E2; [done|]. intros _. split.
  - intros n id d Hn Hd. apply (existsb_false _ _ E1). apply list_elem_of_omap.
    exists (n, id). split; [by apply elem_of_map_to_list | done].
  - intros i d Hd. apply (existsb_false _ _ E2). by eapply list_elem_of_lookup_2.
Qed.

Lemma parse_loop_fuel fuel fuel' lex idx o r :
  parse_loop fuel lex idx o = Some r -> fuel <= fuel' -> parse_loop fuel' lex idx o = Some r.
Proof.
  revert fuel' lex idx o. induction fuel as [|fuel IH]; intros fuel' lex idx o Hp Hf.
  - cbn in Hp. destruct fuel'; cbn; by destruct (lex_empty lex).
  - destruct fuel' as [|fuel']; [lia|]. cbn [parse_loop] in *. destruct (lex_empty lex); [done|].
    destruct (step lex idx o) as [|[[lex' idx'] o']]; [done|]. apply IH; [done | lia].
Qed.

(** Parsing terminates on every command line, and each option's function has been
    called with further arguments in the order in which they were given: at most
    one for an option that takes a single value.  When the parse ends normally
    every registered option that is required, and every required positional
    argument, has been given. *)
Theorem parse_sound (argv : list str) (o : Options) :
  (forall id v, data_ o !! id = Some (Value v) -> set_ v = false) ->
  exists r o', (forall fuel, length argv <= fuel -> parse fuel argv o = Some (r, o'))
    /\ opts_ o' = opts_ o
    /\ Forall2 data_step (data_ o) (data_ o') /\ Forall2 data_step (positional_ o) (positional_ o')
    /\ (r = Done ->
        (forall n id v, opts_ o !! n = Some id -> data_ o !! id = Some (Value v) -> required v = true ->
           exists v' x xs, data_ o' !! id = Some (Value v') /\ args v' = args v ++ x :: xs)
        /\ (forall i v, positional_ o !! i = Some (Value v) -> required v = true -> set_ v = false ->
           exists v' x xs, positional_ o' !! i = Some (Value v') /\ args v' = args v ++ x :: xs)).
Proof.
  intros Hunset. destruct (parse_loop_total (length argv) (lex_next argv) 0 o) as (r & o' & Hp & Ho & Hd).
  { by rewrite it_lex_next. }
  exists r, o'. split; [intros fuel Hf; by apply (parse_loop_fuel (length argv))|].
  destruct Ho as (En & Hdata & Hpos). split_and!; try done. intros ->.
  destruct (check_required_done o' (Hd eq_refl)) as [Hn Hi].
  assert (forall v d', data_step (Value v) d' -> missing d' = false -> required v = true ->
    set_ v = false -> exists v' x xs, d' = Value v' /\ args v' = args v ++ x :: xs) as Hgiven.
  { intros v d' Hst Hm Hr Hs. destruct d' as [v' | | | b]; try done. cbn in *.
    destruct Hst as (Hr' & _ & xs & Ha & Hset & _). rewrite Hr', Hr, Hset, Hs in Hm.
    destruct xs as [|x xs]; [done|]. by exists v', x, xs. }
  split.
  - intros n id v Hid Hv Hr. destruct (Forall2_lookup_l _ _ _ _ _ Hdata Hv) as (d' & Hd' & Hst).
    destruct (Hgiven v d' Hst) as (v' & x & xs & -> & Ha); [|done|by eapply Hunset|].
    + apply (Hn n id d'); [by rewrite En | done].
    + by exists v', x, xs.
  - intros i v Hv Hr Hs. destruct (Forall2_lookup_l _ _ _ _ _ Hpos Hv) as (d' & Hd' & Hst).
    destruct (Hgiven v d' Hst (Hi i d' Hd') Hr Hs) as (v' & x & xs & -> & Ha). by exists v', x, xs.
Qed.

(** ** What a command line means *)

Definition give (d : Data) (v : str) : option Data :=
  match d with
  | Value w => if set_ w && negb (multitoken_ w) then None else Some (Value (run_value w v))
  | _ => None
  end.

Definition give_option (o : Options) (n : name) (v : str) : option Options :=
  id ← opts_ o !! name_of n; d ← data_ o !! id; d' ← give d v; Some (set_data o (<[id := d']> (data_ o))).

Definition raise_switch (o : Options) (n : name) : option Options :=
  id ← opts_ o !! name_of n; d ← data_ o !! id;
  match d with Switch _ => Some (set_data o (<[id := Switch true]> (data_ o))) | _ => None end.

(** The meaning of an item, if it fits the options: the name is that of an option
    of its kind, which has not been given before or takes several values. *)
Definition apply_item (st : nat * Options) (i : item) : option (nat * Options) :=
  let '(idx, o) := st in
  match i with
  | IAttached n v | ISeparate n v => o' ← give_option o n v; Some (idx, o')
  | ISwitch n => o' ← raise_switch o n; Some (idx, o')
  | IPositional v =>
      d ← positional_ o !! idx; d' ← give d v;
      Some (S idx, set_positional o (<[idx := d']> (positional_ o)))
  end.

Fixpoint apply_items (st : nat * Options) (items : list item) : option (nat * Options) :=
  match items with [] => Some st | i :: items => st ← apply_item st i; apply_items st items end.

Lemma list_find_equals n v : (equals ∉ n) ->
  list_find (fun c => c = equals) (n ++ equals :: v) = Some (length n, equals).
Proof.
  induction n as [|c n IH]; intros Hn; cbn.
  - by rewrite decide_True.
  - rewrite decide_False by (intros ->; apply Hn; left).
    by rewrite IH by (intros H; apply Hn; by right).
Qed.

Lemma list_find_no_equals n : (equals ∉ n) -> list_find (fun c => c = equals) n = None.
Proof. intros Hn. apply list_find_None, Forall_forall. by intros c Hc ->. Qed.

(** The value that is attached to an item. *)
Definition attached (i : item) : option str :=
  match i with IAttached _ v | IPositional v => Some v | _ => None end.
Definition item_name (i : item) : str :=
  match i with IAttached n _ | ISeparate n _ | ISwitch n => name_of n | IPositional _ => [] end.

Lemma lex_option c rest it : c <> dash ->
  lex_next ((dash :: c :: rest) :: it)
  = mkLexer ((dash :: c :: rest) :: it) [c] (match rest with [] => None | _ => Some rest end).
Proof. intros Hc. cbn. rewrite (bool_decide_false (c = dash)) by done. done. Qed.

Lemma lex_item i rest : item_ok i ->
  lex_next (render i ++ rest) = mkLexer (render i ++ rest) (item_name i) (attached i).
Proof.
  destruct i as [[c | n] v | [c | n] v | [c | n] | v]; cbn [item_ok render app item_name attached name_of].
  - intros [Hc Hv]. rewrite lex_option by exact Hc. by destruct v.
  - intros [Hn He]. destruct n as [|c n]; [done|]. cbn -[list_find].
    pose proof (list_find_equals (c :: n) v He) as Hf. cbn [app] in Hf. rewrite Hf.
    cbn [length take drop]. rewrite (take_app_length n). do 3 f_equal. rewrite drop_app_ge by lia.
    by replace (S (length n) - length n) with 1 by lia.
  - intros Hc. by rewrite lex_option by exact Hc.
  - intros [Hn He]. destruct n as [|c n]; [done|]. cbn -[list_find]. by rewrite list_find_no_equals.
  - intros Hc. by rewrite lex_option by exact Hc.
  - intros [Hn He]. destruct n as [|c n]; [done|]. cbn -[list_find]. by rewrite list_find_no_equals.
  - intros [-> | [-> | [-> | (c & r & -> & Hc)]]]; try done.
    destruct r as [|d r]; [done|]. cbn. by rewrite (bool_decide_false (c = dash)).
Qed.

Lemma name_of_nonempty n : name_ok n -> name_of n <> [].
Proof. destruct n; cbn; [done | tauto]. Qed.

Lemma step_item i rest idx o idx' o' :
  item_ok i -> apply_item (idx, o) i = Some (idx', o') ->
  step (lex_next (render i ++ rest)) idx o = inr (lex_next rest, idx', o').
Proof.
  intros Hok Hap. rewrite lex_item by done. unfold step. cbn [opt_ it_].
  assert (forall n v l, name_ok n -> (o2 ← give_option o n v; Some (idx, o2)) = Some (idx', o') ->
    opt_ l = name_of n -> pop_value l = inr (v, lex_next rest) ->
    match opts_ o !! name_of n with
    | None => inl (Error (UnknownOption (name_of n)), o)
    | Some id => match data_ o !! id with
        | None => inl (Error (UnknownOption (name_of n)), o)
        | Some d => match visit (name_of n) d l with
            | inl r => inl (r, o)
            | inr (d, lex) => inr (lex, idx, set_data o (<[id := d]> (data_ o)))
            end end end = inr (lex_next rest, idx', o')) as Hval.
  { intros n v l _ Hg Hl Hpop. unfold give_option, give in Hg.
    destruct (opts_ o !! name_of n) as [id|]; [|done]. cbn in Hg.
    destruct (data_ o !! id) as [d|]; [|done]. cbn in Hg. destruct d as [w | | |]; try done.
    cbn. rewrite Hpop. destruct (_ && _); [done|]. cbn in Hg. by injection Hg as <- <-. }
  destruct i as [n v | n v | n | v]; cbn [item_name attached apply_item] in *.
  - assert (name_ok n) as Hn by (destruct n; [by destruct Hok | exact Hok]).
    destruct (name_of n) eqn:En; [by destruct (name_of_nonempty n)|]. rewrite <- En.
    apply (Hval n v); [done | done | done |]. unfold pop_value. cbn. by destruct n.
  - destruct (name_of n) eqn:En; [by destruct (name_of_nonempty n)|]. rewrite <- En.
    apply (Hval n v); [done | done | done |]. unfold pop_value. cbn. by destruct n.
  - destruct (name_of n) eqn:En; [by destruct (name_of_nonempty n)|]. rewrite <- En in *.
    unfold raise_switch in Hap. rewrite En in *. destruct (opts_ o !! _) as [id|]; [|done]. cbn in Hap.
    destruct (data_ o !! id) as [d|]; [|done]. cbn in Hap. destruct d as [| | | b]; try done.
    injection Hap as <- <-. unfold visit, pop_switch. cbn. by destruct n.
  - destruct (positional_ o !! idx) as [d|]; [|done]. cbn in Hap.
    destruct d as [w | | |]; try done. unfold give in Hap. cbn. destruct (_ && _); [done|].
    cbn in Hap. by injection Hap as <- <-.
Qed.

Lemma lex_empty_item i rest : lex_empty (lex_next (render i ++ rest)) = false.
Proof. unfold lex_empty. rewrite it_lex_next. by destruct i as [[] | [] | [] |]. Qed.

Lemma parse_loop_items items fuel idx o idx' o' :
  Forall item_ok items -> apply_items (idx, o) items = Some (idx', o') -> length items <= fuel ->
  parse_loop fuel (lex_next (mjoin (render <$> items))) idx o = Some (check_required o', o').
Proof.
  revert fuel idx o. induction items as [|i items IH]; intros fuel idx o Hok Hap Hf.
  - injection Hap as <- <-. by destruct fuel.
  - apply Forall_cons in Hok as [Hi Hok]. cbn [apply_items] in Hap.
    destruct (apply_item (idx, o) i) as [[idx1 o1]|] eqn:E; [|done]. cbn in Hap, Hf.
    destruct fuel as [|fuel]; [lia|]. cbn [fmap list_fmap mjoin list_join parse_loop].
    rewrite lex_empty_item, (step_item i _ idx o idx1 o1) by done. apply IH; [done | done | lia].
Qed.

(** The values that a command line gives to an option. *)
Definition values_for (names : gmap str nat) (id : nat) (items : list item) : list str :=
  omap (fun i => match i with
                 | IAttached n v | ISeparate n v => if decide (names !! name_of n = Some id) then Some v else None
                 | _ => None
                 end) items.

(** What the items do to one option's data. *)
Lemma apply_item_values idx o i idx' o' id w :
  apply_item (idx, o) i = Some (idx', o') -> data_ o !! id = Some (Value w) ->
  opts_ o' = opts_ o /\ exists w', data_ o' !! id = Some (Value w')
    /\ args w' = args w ++ values_for (opts_ o) id [i].
Proof.
  intros Hap Hid.
  assert (forall n v, (o2 ← give_option o n v; Some (idx, o2)) = Some (idx', o') ->
    opts_ o' = opts_ o /\ exists w', data_ o' !! id = Some (Value w')
    /\ args w' = args w ++ (if decide (opts_ o !! name_of n = Some id) then [v] else [])) as Hval.
  { intros n v Hg. unfold give_option in Hg. destruct (opts_ o !! name_of n) as [id2|]; [|done].
    cbn in Hg. destruct (data_ o !! id2) as [d|] eqn:Ed; [|done]. cbn in Hg.
    destruct (give d v) as [d'|] eqn:Eg; [|done]. cbn in Hg. injection Hg as <- <-. split; [done|]. cbn.
    destruct (decide (Some id2 = Some id)) as [[= ->] | Hne].
    - rewrite list_lookup_insert_eq by (by eapply lookup_lt_Some).
      rewrite Hid in Ed. injection Ed as <-. cbn in Eg. destruct (_ && _); [done|]. injection Eg as <-.
      by exists (run_value w v).
    - rewrite list_lookup_insert_ne by congruence. exists w. by rewrite app_nil_r. }
  assert (forall n v, values_for (opts_ o) id [IAttached n v]
    = (if decide (opts_ o !! name_of n = Some id) then [v] else [])) as Hv.
  { intros n v. unfold values_for. cbn. by case_decide. }
  destruct i as [n v | n v | n | v]; cbn [apply_item] in Hap.
  - rewrite Hv. by apply Hval.
  - change (values_for (opts_ o) id [ISeparate n v]) with (values_for (opts_ o) id [IAttached n v]).
    rewrite Hv. by apply Hval.
  - unfold raise_switch in Hap. destruct (opts_ o !! name_of n) as [id2|]; [|done]. cbn in Hap.
    destruct (data_ o !! id2) as [d|] eqn:Ed; [|done]. cbn in Hap.
    destruct d as [| | | b]; try done. injection Hap as <- <-. split; [done|]. cbn.
    rewrite list_lookup_insert_ne by (intros ->; by rewrite Hid in Ed). exists w. by rewrite app_nil_r.
  - destruct (positional_ o !! idx) as [d|]; [|done]. cbn in Hap. destruct (give d v); [|done].
    injection Hap as <- <-. split; [done|]. exists w. by rewrite app_nil_r.
Qed.

Lemma apply_items_values items idx o idx' o' id w :
  apply_items (idx, o) items = Some (idx', o') -> data_ o !! id = Some (Value w) ->
  exists w', data_ o' !! id = Some (Value w') /\ args w' = args w ++ values_for (opts_ o) id items.
Proof.
  revert idx o w. induction items as [|i items IH]; intros idx o w Hap Hid.
  - injection Hap as <- <-. exists w. by rewrite app_nil_r.
  - cbn [apply_items] in Hap. destruct (apply_item (idx, o) i) as [[idx1 o1]|] eqn:E; [|done].
    destruct (apply_item_values idx o i idx1 o1 id w E Hid) as (En & w1 & Hw1 & Ha1).
    destruct (IH idx1 o1 w1 Hap Hw1) as (w' & Hw' & Ha'). exists w'. split; [done|].
    rewrite Ha', Ha1, En, <- app_assoc. f_equal. unfold values_for.
    change (i :: items) with ([i] ++ items). by rewrite omap_app.
Qed.

(** A command line that is written from options that fit the table is understood:
    short and long options with the value attached or in the next argument (where a
    value may begin with a dash), switches, and positional arguments give each
    option exactly its values, in order, and the parse ends with the check of the
    required options. *)
Theorem parse_rendered (items : list item) (o o' : Options) (idx : nat) :
  Forall item_ok items -> apply_items (0, o) items = Some (idx, o') ->
  parse (length items) (mjoin (render <$> items)) o = Some (check_required o', o')
  /\ forall id w, data_ o !! id = Some (Value w) ->
       exists w', data_ o' !! id = Some (Value w') /\ args w' = args w ++ values_for (opts_ o) id items.
Proof.
  intros Hok Hap. split; [by apply (parse_loop_items items _ 0 o idx o')|].
  intros id w Hid. by apply (apply_items_values items 0 o idx o').
Qed.

(** The options of a small program: a required value, a switch, and a list. *)
Definition sample_options : Options :=
  let o := mkOptions ∅ [] [] in
  let o := (register o (Some "f"%char) (lit "file") (Value (mkValue true false false []))).2 in
  let o := (register o (Some "v"%char) [] (Switch false)).2 in
  register_positional o (Value (mkValue false true false [])).

Definition sample_items : list item :=
  [ISwitch (Short "v"); IAttached (Long (lit "file")) (lit "a=b"); IPositional (lit "x")].

Definition file_value : ValueData := mkValue true false false [].

Lemma parse_rendered_witness :
  exists o', parse 3 [lit "-v"; lit "--file=a=b"; lit "x"] sample_options = Some (Done, o')
  /\ exists w', data_ o' !! 0 = Some (Value w') /\ args w' = [lit "a=b"].
Proof.
  destruct (apply_items (0, sample_options) sample_items) as [[idx o']|] eqn:E;
    [|vm_compute in E; discriminate E].
  destruct (parse_rendered sample_items sample_options o' idx) as [Hp Hv].
  - apply Forall_cons_2; [discriminate|]. apply Forall_cons_2; [split; [discriminate|]|].
    + intros H. apply list_elem_of_lookup in H as [[|[|[|[|]]]] H]; discriminate H.
    + apply Forall_cons_2; [|constructor]. right. right. right. exists "x"%char, []. by split.
  - exact E.
  - exists o'. split.
    + etransitivity; [exact Hp|]. f_equal. f_equal. vm_compute in E. injection E as _ <-. reflexivity.
    + destruct (Hv 0 file_value eq_refl) as (w' & Hw' & Ha). exists w'. split; [exact Hw'|].
      rewrite Ha. reflexivity.
Defined.

Lemma parse_sound_witness :
  exists r o', parse 5 [lit "-f"; lit "-1"; lit "q"] sample_options = Some (r, o').
Proof.
  destruct (parse_sound [lit "-f"; lit "-1"; lit "q"] sample_options) as (r & o' & H & _).
  - intros [|[|id]] v Hv; cbn in Hv; [by injection Hv as <- | discriminate Hv | discriminate Hv].
  - exists r, o'. apply H. cbn. lia.
Defined.
