(* ===== verification/OptionsHelp.v ===== *)
(** * Registered options and the help text

    Models what [toolbox/util/Options.hpp] and [Options.cpp] keep for the help text: the
    names and descriptions of the registered options, the registration that stores them
    next to the table of file Options, [operator[]] and the printed text.

    [setw] takes an [int]: the width, which is unsigned and may have wrapped around, is
    converted, and a width that is not positive pads nothing. *)
From stdpp Require Import strings.
From Stdlib Require Import String.
From S2P Require Import Prelude Text Options.
#[local] Open Scope nat_scope.

(** ** Registration *)

(** The members of [OptionData] that are printed. *)
Record OptionText := mkText { short_opt : str; long_opt : str; description : str }.

Record Described := mkDescribed {
  table : Options;
  description_ : str;
  help_ : list OptionText
}.

Definition make_options (description : str) : Described :=
  mkDescribed (mkOptions ∅ [] []) description [].

(** The arguments of a registration; no short option is the character zero. *)
Record Registration := mkReg {
  reg_short : option ascii; reg_long : str; reg_data : Data; reg_description : str
}.

Definition option_text (r : Registration) : OptionText :=
  mkText (match reg_short r with Some c => [c] | None => [] end) (reg_long r) (reg_description r).

(** [operator()]: the option is in the list of the help text before its names are
    entered. *)
Definition add_option (h : Described) (r : Registration) : option error * Described :=
  let help := help_ h ++ [option_text r] in
  let '(e, o) := register (table h) (reg_short r) (reg_long r) (reg_data r) in
  (e, mkDescribed o (description_ h) help).

(** A chain of registrations, which an exception ends. *)
Fixpoint add_options (h : Described) (rs : list Registration) : option error * Described :=
  match rs with
  | [] => (None, h)
  | r :: rs =>
      match add_option h r with
      | (None, h) => add_options h rs
      | failed => failed
      end
  end.

(** [operator[]], of a long option and of a short one. *)
Definition has_option (h : Described) (long_opt : str) : bool := bool_decide (is_Some (opts_ (table h) !! long_opt)).
Definition has_short (h : Described) (c : ascii) : bool := has_option h [c].

(** [Value::default_value] passes the value to the function, but the option does not
    count as set. *)
Definition default_value (v : ValueData) (value : str) : ValueData :=
  mkValue (required v) (multitoken_ v) (set_ v) (args v ++ [value]).

(** ** The help text *)

Definition space : ascii := " ".

(** [out << setw(width) << ' ']. *)
Definition put_space (width : Z) : str :=
  replicate (Z.to_nat (i32 width) - 1) space ++ [space].

Definition put_option (o : OptionText) : str :=
  let w := 15%Z in
  let out := lit "  " in
  let '(out, w) :=
    match short_opt o with [] => (out, w) | s => (out ++ dash :: s, u32 (w - 2)) end in
  let '(out, w) :=
    match long_opt o with
    | [] => (out, w)
    | l =>
        let '(out, w) :=
          match short_opt o with [] => (out, w) | _ => (out ++ lit ", ", u32 (w - 2)) end in
        (out ++ lit "--" ++ l, u32 (w - (2 + Z.of_nat (length l))))
    end in
  out ++ put_space w ++ description o ++ ["010"%char].

Definition put_help (h : Described) : str :=
  lit "Usage: " ++ description_ h ++ "010"%char :: lit "Options:" ++ "010"%char :: mjoin (put_option <$> help_ h).

(** ** The names *)

Definition reg_names (r : Registration) : list str :=
  match reg_short r with Some c => [[c]] | None => [] end
  ++ match reg_long r with [] => [] | l => [l] end.

(** The options as they are written in the help text. *)
Definition written (o : OptionText) : str :=
  match short_opt o, long_opt o with
  | [], [] => []
  | s, [] => dash :: s
  | [], l => lit "--" ++ l
  | s, l => dash :: s ++ lit ", --" ++ l
  end.

(** The table and the list after the registrations [rs]. *)
Definition registered (d : str) (h : Described) (rs : list Registration) : Prop :=
  description_ h = d
  /\ help_ h = option_text <$> rs
  /\ data_ (table h) = reg_data <$> rs
  /\ positional_ (table h) = []
  /\ NoDup (rs ≫= reg_names)
  /\ forall n i, opts_ (table h) !! n = Some i <-> exists r, rs !! i = Some r /\ n ∈ reg_names r.

Lemma registered_known d h rs n : registered d h rs ->
  is_Some (opts_ (table h) !! n) <-> n ∈ rs ≫= reg_names.
Proof.
  intros (_ & _ & _ & _ & _ & Ho). rewrite list_elem_of_bind. split.
  - intros [i Hi]. apply Ho in Hi as (r & Hr & Hn). exists r. split; [done|]. by eapply list_elem_of_lookup_2.
  - intros (r & Hn & Hr). apply list_elem_of_lookup_1 in Hr as [i Hi]. exists i. apply Ho. eauto.
Qed.

(** Entering a list of names for one option. *)
Fixpoint add_names (o : Options) (ns : list str) (id : nat) : option error * Options :=
  match ns with
  | [] => (None, o)
  | n :: ns => match add_name o n id with (None, o) => add_names o ns id | failed => failed end
  end.

Lemma register_names o r :
  register o (reg_short r) (reg_long r) (reg_data r)
  = add_names (set_data o (data_ o ++ [reg_data r])) (reg_names r) (length (data_ o)).
Proof.
  unfold register, reg_names. destruct (reg_short r) as [c|]; cbn [app add_names].
  - destruct (add_name _ [c] _) as [[e|] o']; [done|]. destruct (reg_long r); [done|].
    cbn [add_names]. by destruct (add_name o' _ _) as [[e|] ?].
  - destruct (reg_long r); [done|]. cbn [add_names]. by destruct (add_name _ _ _) as [[e|] ?].
Qed.

Lemma add_names_ok ns o id :
  NoDup ns -> (forall n, n ∈ ns -> opts_ o !! n = None) ->
  exists o', add_names o ns id = (None, o') /\ data_ o' = data_ o /\ positional_ o' = positional_ o
    /\ forall n, opts_ o' !! n = if decide (n ∈ ns) then Some id else opts_ o !! n.
Proof.
  revert o. induction ns as [|m ns IH]; intros o Hnd Hnew; cbn [add_names].
  - exists o. split_and!; [done..|]. intros n. rewrite decide_False; [done | set_solver].
  - apply NoDup_cons in Hnd as [Hm Hnd]. unfold add_name. rewrite Hnew by set_solver.
    destruct (IH (mkOptions (<[m:=id]> (opts_ o)) (data_ o) (positional_ o)) Hnd) as (o' & -> & Hd & Hp & Ho).
    { intros n Hn. cbn [opts_]. rewrite lookup_insert_ne by set_solver. apply Hnew. set_solver. }
    exists o'. split_and!; [done..|]. intros n. rewrite Ho. cbn [opts_].
    destruct (decide (n ∈ ns)); [rewrite decide_True by set_solver; done|].
    destruct (decide (n = m)) as [->|Hne].
    + rewrite decide_True by set_solver. apply lookup_insert_eq.
    + rewrite decide_False by set_solver. by rewrite lookup_insert_ne.
Qed.

Lemma add_names_fail ns o id :
  ~ (NoDup ns /\ forall n, n ∈ ns -> opts_ o !! n = None) ->
  exists n o', add_names o ns id = (Some (DuplicateRegistration n), o') /\ n ∈ ns.
Proof.
  revert o. induction ns as [|m ns IH]; intros o Hno; cbn [add_names].
  - exfalso. apply Hno. split; [constructor | set_solver].
  - unfold add_name. destruct (opts_ o !! m) as [j|] eqn:Hm; [exists m, o; split; [done | set_solver]|].
    destruct (IH (mkOptions (<[m:=id]> (opts_ o)) (data_ o) (positional_ o))) as (n & o' & He & Hn).
    + intros [Hnd Hnew]. apply Hno. cbn [opts_] in Hnew.
      assert (m ∉ ns) as Hm'.
      { intros Hin. specialize (Hnew m Hin). rewrite lookup_insert_eq in Hnew. done. }
      split; [by constructor|]. intros n [->|Hn]%elem_of_cons; [done|].
      specialize (Hnew n Hn). rewrite lookup_insert_ne in Hnew by set_solver. done.
    + exists n, o'. split; [done | set_solver].
Qed.

Lemma bind_snoc (rs : list Registration) r : (rs ++ [r]) ≫= reg_names = (rs ≫= reg_names) ++ reg_names r.
Proof. by rewrite bind_app, bind_singleton. Qed.

Lemma add_option_ok d h rs r :
  registered d h rs -> NoDup ((rs ++ [r]) ≫= reg_names) ->
  exists h', add_option h r = (None, h') /\ registered d h' (rs ++ [r]).
Proof.
  intros Hr Hnd. pose proof (registered_known d h rs) as Hk. specialize (fun n => Hk n Hr).
  destruct Hr as (Hd & Hh & Hdata & Hp & _ & Ho).
  assert (Hnd' := Hnd). rewrite bind_snoc in Hnd. apply NoDup_app in Hnd as (_ & Hdis & Hnd).
  unfold add_option. rewrite register_names.
  destruct (add_names_ok (reg_names r) (set_data (table h) (data_ (table h) ++ [reg_data r]))
              (length (data_ (table h)))) as (o' & -> & Hd' & Hp' & Ho'); [done | |].
  { intros n Hn. cbn [set_data opts_]. apply eq_None_not_Some. rewrite Hk. intros Hin. by apply (Hdis n). }
  eexists. split; [done|]. unfold registered. cbn [description_ help_ table].
  rewrite Hh, Hd', Hp', fmap_app. cbn [set_data data_ positional_]. rewrite Hdata, fmap_app.
  split_and!; [done..|]. intros n i. rewrite Ho'. cbn [set_data opts_].
  assert (length (data_ (table h)) = length rs) as -> by (by rewrite Hdata, length_fmap).
  case_decide as Hn.
  - split.
    + intros [= <-]. exists r. split; [|done]. by rewrite lookup_app_r, Nat.sub_diag by lia.
    + intros (r' & Hr' & Hn'). f_equal. apply lookup_app_Some in Hr' as [Hr'|[Hlen Hr']].
      * exfalso. apply (Hdis n); [|done]. apply list_elem_of_bind. exists r'. split; [done|].
        by eapply list_elem_of_lookup_2.
      * apply list_lookup_singleton_Some in Hr' as [? _]. lia.
  - rewrite Ho. split; intros (r' & Hr' & Hn').
    + exists r'. split; [|done]. by apply lookup_app_l_Some.
    + exists r'. split; [|done]. apply lookup_app_Some in Hr' as [?|[_ Hr']]; [done|].
      apply list_lookup_singleton_Some in Hr' as [_ <-]. done.
Qed.

Lemma add_option_fail d h rs r :
  registered d h rs -> ~ NoDup ((rs ++ [r]) ≫= reg_names) ->
  exists n h', add_option h r = (Some (DuplicateRegistration n), h') /\ n ∈ reg_names r
    /\ help_ h' = option_text <$> rs ++ [r].
Proof.
  intros Hr Hnd. pose proof (registered_known d h rs) as Hk. specialize (fun n => Hk n Hr).
  destruct Hr as (_ & Hh & _ & _ & Hnd' & _). unfold add_option. rewrite register_names.
  destruct (add_names_fail (reg_names r) (set_data (table h) (data_ (table h) ++ [reg_data r]))
              (length (data_ (table h)))) as (n & o' & -> & Hn).
  - intros [Hr Hnew]. apply Hnd. rewrite bind_snoc. apply NoDup_app. split_and!; [done | | done].
    intros n Hin Hn. apply Hk in Hin as [i Hi]. specialize (Hnew n Hn). cbn [set_data opts_] in Hnew. congruence.
  - eexists n, _. split_and!; [done..|]. cbn [help_]. by rewrite Hh, fmap_app.
Qed.

(** What a chain of registrations does, from a state after others. *)
Lemma add_options_spec d h rs0 rs :
  registered d h rs0 ->
  match add_options h rs with
  | (None, h') => registered d h' (rs0 ++ rs)
  | (Some e, h') =>
      exists k r n, rs !! k = Some r /\ e = DuplicateRegistration n /\ n ∈ reg_names r
        /\ NoDup ((rs0 ++ take k rs) ≫= reg_names) /\ ~ NoDup ((rs0 ++ take (S k) rs) ≫= reg_names)
        /\ help_ h' = option_text <$> rs0 ++ take (S k) rs
  end.
Proof.
  revert h rs0. induction rs as [|r rs IH]; intros h rs0 Hr; cbn [add_options].
  - by rewrite app_nil_r.
  - destruct (decide (NoDup ((rs0 ++ [r]) ≫= reg_names))) as [Hnd|Hnd].
    + destruct (add_option_ok d h rs0 r Hr Hnd) as (h' & -> & Hr').
      specialize (IH h' (rs0 ++ [r]) Hr'). destruct (add_options h' rs) as [[e|] h''].
      * destruct IH as (k & r' & n & Hk & He & Hn & H1 & H2 & H3). exists (S k), r', n.
        rewrite <- !(assoc_L (++)) in *. split_and!; done.
      * by rewrite <- (assoc_L (++)) in IH.
    + destruct (add_option_fail d h rs0 r Hr Hnd) as (n & h' & -> & Hn & Hh).
      exists 0%nat, r, n. rewrite take_0, app_nil_r. change (take 1 (r :: rs)) with [r].
      split_and!; try done. apply Hr.
Qed.

Lemma make_options_registered d : registered d (make_options d) [].
Proof. split_and!; try done; [constructor|]. intros n i. split; [done|]. by intros (? & ? & _). Qed.

(** *** Columns *)

Lemma put_space_replicate w : (- 2 ^ 31 <= w < 2 ^ 31)%Z ->
  put_space (u32 w) = replicate (max 1 (Z.to_nat w)) space.
Proof.
  intros Hw. unfold put_space.
  assert (i32 (u32 w) = w) as ->.
  { unfold wraps, wrapu. rewrite Zplus_mod_idemp_l. apply (wraps_small 32 w); lia. }
  change [space] with (replicate 1 space). rewrite <- replicate_add. f_equal. lia.
Qed.

(** The width that is left after [n] characters. *)
Lemma put_space_after (n : nat) w : (w = 15 - Z.of_nat n)%Z -> (Z.of_nat n < 2 ^ 31 + 15)%Z ->
  exists pad, put_space (u32 w) = replicate pad space /\ 1 <= pad /\ n + pad = max 15 (n + 1).
Proof.
  intros -> Hn. exists (max 1 (Z.to_nat (15 - Z.of_nat n))).
  split_and!; [apply put_space_replicate | |]; lia.
Qed.

(** ** Theorems *)

(** Registration succeeds exactly when no name is given twice; then [operator[]]
    answers for the names that were registered, the table leads from a name to the data
    of its option, and the help text lists the options in their order.  Otherwise the
    exception names a name of the first option that repeats one; the help text lists
    that option all the same. *)
Theorem registrations (d : str) (rs : list Registration) :
  match add_options (make_options d) rs with
  | (None, h) =>
      NoDup (rs ≫= reg_names)
      /\ (forall n, has_option h n = true <-> n ∈ rs ≫= reg_names)
      /\ (forall n i r, rs !! i = Some r -> n ∈ reg_names r ->
            opts_ (table h) !! n = Some i /\ data_ (table h) !! i = Some (reg_data r))
      /\ help_ h = option_text <$> rs
  | (Some e, h) =>
      exists k r n, rs !! k = Some r /\ e = DuplicateRegistration n /\ n ∈ reg_names r
        /\ NoDup (take k rs ≫= reg_names) /\ ~ NoDup (take (S k) rs ≫= reg_names)
        /\ help_ h = option_text <$> take (S k) rs
  end.
Proof.
  pose proof (add_options_spec d (make_options d) [] rs (make_options_registered d)) as H.
  destruct (add_options (make_options d) rs) as [[e|] h]; [done|]. rewrite app_nil_l in H.
  pose proof (registered_known d h rs) as Hk. specialize (fun n => Hk n H).
  destruct H as (_ & Hh & Hdata & _ & Hnd & Ho). split_and!; try done.
  - intros n. unfold has_option. rewrite bool_decide_eq_true. apply Hk.
  - intros n i r Hi Hn. split; [apply Ho; eauto|]. rewrite Hdata, list_lookup_fmap, Hi. done.
Qed.

(** A line of the help text: the option as it is written, in a column of two characters
    and at least fifteen, and one more if it is longer, and the description. *)
Theorem put_option_columns (o : OptionText) :
  length (short_opt o) <= 1 -> (Z.of_nat (length (long_opt o)) < 2 ^ 31)%Z ->
  exists pad, put_option o
    = lit "  " ++ written o ++ replicate pad space ++ description o ++ ["010"%char]
    /\ 1 <= pad /\ length (written o) + pad = max 15 (length (written o) + 1).
Proof.
  intros Hs Hl.
  assert (exists w, put_option o = lit "  " ++ written o ++ put_space (u32 w) ++ description o ++ ["010"%char]
            /\ (w = 15 - Z.of_nat (length (written o)))%Z) as (w & -> & Hw).
  { destruct o as [[|c [|]] [|c' l] de]; cbn [short_opt long_opt length] in *; try lia.
    - by exists 15%Z.
    - eexists. split; [done | cbn [written short_opt long_opt length app lit list_ascii_of_string]; lia].
    - by exists 13%Z.
    - exists (11 - (2 + Z.of_nat (length (c' :: l))))%Z. split; [done | cbn [written short_opt long_opt length app lit list_ascii_of_string]; lia]. }
  destruct (put_space_after (length (written o)) w) as (pad & -> & ? & ?); [done | | by exists pad].
  destruct o as [[|c [|]] [|c' l] de];
    cbn [written short_opt long_opt length app lit list_ascii_of_string] in *; lia.
Qed.

Lemma put_option_columns_witness :
  let o := mkText [] (lit "a_long_option") (lit "text") in
  put_option o = lit "  --a_long_option text" ++ ["010"%char].
Proof.
  cbv zeta. destruct (put_option_columns (mkText [] (lit "a_long_option") (lit "text")))
    as (pad & -> & Hpad & Hmax); [cbn; lia.. |].
  assert (pad = 1) as -> by (cbn in Hmax; lia). reflexivity.
Defined.

(** The options and the text of the program's own test. *)
Definition sample_registrations : list Registration :=
  [mkReg (Some "o"%char) (lit "option") (Value (default_value (mkValue true false false []) (lit "3"))) (lit "Option Description");
   mkReg (Some "s"%char) [] NoOp (lit "ShortOption Description");
   mkReg None (lit "long_opt") NoOp (lit "LongOption Description");
   mkReg (Some "x"%char) [] (Switch false) (lit "Switch Description")].

Example sample_help :
  put_help (add_options (make_options (lit "Unit Test options [OPTIONS] [COMMAND]")) sample_registrations).2
  = mjoin ((fun l => lit l ++ ["010"%char]) <$>
      ["Usage: Unit Test options [OPTIONS] [COMMAND]"; "Options:";
       "  -o, --option   Option Description";
       "  -s             ShortOption Description";
       "  --long_opt     LongOption Description";
       "  -x             Switch Description"]%string).
Proof. vm_compute. reflexivity. Qed.
