(* ===== verification/VarSub.v ===== *)
(** * Variable substitution

    Models [toolbox/util/VarSub.hpp] and [VarSub.cpp].  The string is modified in
    place, so a call returns it; the set of names seen by the outer level is passed
    by reference, so a call returns it as well.  The recursion and the loop may both
    go on for ever, so they run on fuel. *)
From stdpp Require Import strings.
From Stdlib Require Import String.
From S2P Require Import Prelude Text.
#[local] Open Scope nat_scope.

Definition dollar : ascii := "$".
Definition backslash : ascii := "\".
Definition lbrace : ascii := "{".
Definition rbrace : ascii := "}".

(** [std::string::replace] and [erase] of [n] characters at a position. *)
Definition replace_at (s : str) (i n : nat) (r : str) : str := take i s ++ r ++ drop (i + n) s.
Definition substr (s : str) (i n : nat) : str := take n (drop i s).

Inductive scan := Normal | Dollar | Backslash.
#[local] Instance scan_eqdec : EqDecision scan.
Proof. solve_decision. Defined.

Section substitute.
Variable fn : str -> str.

(** [substitute]: the loop at position [j], in a level whose brace opens at [i]
    (the top level has no outer names). *)
Fixpoint substitute (fuel : nat) (s : str) (i j last : nat) (state : scan) (inner : gset str)
    (outer : option (gset str)) : option (bool * str * option (gset str)) :=
  match fuel with
  | O => None
  | S fuel =>
      match s !! j with
      | None => Some (false, s, outer)
      | Some ch =>
          match state with
          | Backslash => substitute fuel (replace_at s (j - 1) 1 []) i (S j) last Normal inner outer
          | _ =>
              if bool_decide (state = Dollar /\ ch = lbrace) then
                let '(last, inner) := if last <? j then (j, ∅) else (last, inner) in
                let j := j - 1 in
                match substitute fuel s j (j + 2) 0 Normal ∅ (Some inner) with
                | Some (true, s, inner') => substitute fuel s i j last Normal (default ∅ inner') outer
                | Some (false, s, _) => Some (false, s, outer)
                | None => None
                end
              else if bool_decide (ch = dollar) then substitute fuel s i (S j) last Dollar inner outer
              else if bool_decide (ch = backslash) then substitute fuel s i (S j) last Backslash inner outer
              else
                match outer with
                | Some names =>
                    if bool_decide (ch = rbrace) then
                      let n := j - i in
                      let name := substr s (i + 2) (n - 2) in
                      if bool_decide (name ∈ names) then Some (true, replace_at s i (n + 1) [], outer)
                      else Some (true, replace_at s i (n + 1) (fn name), Some ({[name]} ∪ names))
                    else substitute fuel s i (S j) last Normal inner outer
                | None => substitute fuel s i (S j) last Normal inner outer
                end
          end
      end
  end.


(** [operator()]. *)
Definition var_sub (fuel : nat) (s : str) : option str :=
  '(_, s, _) ← substitute fuel s 0 0 0 Normal ∅ None; Some s.
End substitute.

(** More fuel gives the same result. *)
Lemma substitute_fuel fn fuel fuel' s i j last st inner outer r :
  substitute fn fuel s i j last st inner outer = Some r -> fuel <= fuel' ->
  substitute fn fuel' s i j last st inner outer = Some r.
Proof.
  revert fuel' s i j last st inner outer r.
  induction fuel as [|fuel IH]; intros fuel' s i j last st inner outer r Hs Hf; [done|].
  destruct fuel' as [|fuel']; [lia|]. cbn [substitute] in *.
  destruct (s !! j) as [ch|]; [|done].
  destruct st; [| | by apply IH; [|lia]].
  all: case_bool_decide;
    [ destruct (if last <? j then _ else _) as [last' inner'];
      destruct (substitute fn fuel s (j - 1) (j - 1 + 2) 0 Normal ∅ (Some inner'))
        as [[[[] s'] inner'']|] eqn:E; [|by rewrite (IH fuel' _ _ _ _ _ _ _ _ E) by lia | done];
      rewrite (IH fuel' _ _ _ _ _ _ _ _ E) by lia; by apply IH; [|lia]
    | repeat case_bool_decide; try (by apply IH; [|lia]); destruct outer; repeat case_bool_decide;
      try (by apply IH; [|lia]); done ].
Qed.

Section runs.
Variable fn : str -> str.

(** The call returns. *)
Definition runs s i j last st inner outer r : Prop :=
  exists fuel, substitute fn fuel s i j last st inner outer = Some r.

Definition plain (ch : ascii) : Prop := ch <> dollar /\ ch <> backslash /\ ch <> rbrace.

Lemma runs_end s i j last st inner outer : length s <= j ->
  runs s i j last st inner outer (false, s, outer).
Proof. intros Hj. exists 1. cbn. by rewrite lookup_ge_None_2. Qed.

Lemma runs_plain s i j last inner outer r ch :
  s !! j = Some ch -> ch <> dollar -> ch <> backslash -> (ch = rbrace -> outer = None) ->
  runs s i (S j) last Normal inner outer r -> runs s i j last Normal inner outer r.
Proof.
  intros Hch Hd Hb Hr [fuel Hf]. exists (S fuel). cbn. rewrite Hch.
  rewrite bool_decide_false by (by intros [? _]). rewrite !bool_decide_false by done.
  destruct outer; [|done]. rewrite bool_decide_false by (intros E; by specialize (Hr E)). done.
Qed.

Lemma runs_dollar s i j last inner outer r :
  s !! j = Some dollar -> runs s i (S j) last Dollar inner outer r -> runs s i j last Normal inner outer r.
Proof.
  intros Hch [fuel Hf]. exists (S fuel). cbn. rewrite Hch.
  rewrite bool_decide_false by (by intros [? _]). by rewrite bool_decide_true.
Qed.

Lemma runs_brace s i j last inner outer r last' inner' s' inner'' :
  s !! j = Some lbrace -> (if last <? j then (j, ∅) else (last, inner)) = (last', inner') ->
  runs s (j - 1) (j - 1 + 2) 0 Normal ∅ (Some inner') (true, s', Some inner'') ->
  runs s' i (j - 1) last' Normal inner'' outer r -> runs s i j last Dollar inner outer r.
Proof.
  intros Hch Hl [f1 H1] [f2 H2]. exists (S (Nat.max f1 f2)). cbn -[Nat.ltb]. rewrite Hch.
  rewrite bool_decide_true by done. rewrite Hl.
  rewrite (substitute_fuel _ _ _ _ _ _ _ _ _ _ _ H1) by lia. cbn.
  by apply (substitute_fuel _ f2); [|lia].
Qed.

Lemma runs_close s i j last inner names :
  s !! j = Some rbrace ->
  runs s i j last Normal inner (Some names)
    (let name := substr s (i + 2) (j - i - 2) in
     if decide (name ∈ names) then (true, replace_at s i (j - i + 1) [], Some names)
     else (true, replace_at s i (j - i + 1) (fn name), Some ({[name]} ∪ names))).
Proof.
  intros Hch. exists 1. cbn. rewrite Hch. cbn. destruct (decide _) as [H | H].
  - by rewrite (bool_decide_true _ H).
  - by rewrite (bool_decide_false _ H).
Qed.

(** A run of characters that are not special. *)
Lemma runs_chars t pre post i last inner outer r :
  Forall (fun ch => ch <> dollar /\ ch <> backslash /\ (ch = rbrace -> outer = None)) t ->
  runs (pre ++ t ++ post) i (length pre + length t) last Normal inner outer r ->
  runs (pre ++ t ++ post) i (length pre) last Normal inner outer r.
Proof.
  revert pre. induction t as [|c t IH]; intros pre Ht Hr; [by rewrite Nat.add_0_r in Hr|].
  apply Forall_cons in Ht as [(Hd & Hb & Hx) Ht].
  apply (runs_plain _ _ _ _ _ _ _ c); try done.
  - rewrite lookup_app_r, Nat.sub_diag by lia. done.
  - specialize (IH (pre ++ [c]) Ht). rewrite length_app, <- app_assoc in IH. cbn in IH.
    replace (length pre + 1) with (S (length pre)) in IH by lia. apply IH.
    cbn in Hr. by rewrite Nat.add_succ_r in Hr.
Qed.

Definition var (name : str) : str := dollar :: lbrace :: name ++ [rbrace].

(** The inner level of a reference: the name up to the closing brace. *)
Lemma runs_reference pre name post names :
  Forall plain name ->
  runs (pre ++ var name ++ post) (length pre) (length pre + 2) 0 Normal ∅ (Some names)
    (if decide (name ∈ names) then (true, pre ++ post, Some names)
     else (true, pre ++ fn name ++ post, Some ({[name]} ∪ names))).
Proof.
  intros Hn. set (s := pre ++ var name ++ post).
  assert (s = (pre ++ [dollar; lbrace]) ++ name ++ rbrace :: post) as Es
    by (unfold s, var; cbn; rewrite <- ?app_assoc; cbn; by rewrite <- ?app_assoc).
  assert (length (pre ++ [dollar; lbrace]) = length pre + 2) as El by (by rewrite length_app).
  pose proof (runs_close s (length pre) (length pre + 2 + length name) 0 ∅ names) as Hc.
  assert (s !! (length pre + 2 + length name) = Some rbrace) as Hch.
  { rewrite Es, lookup_app_r, El by (rewrite El; lia).
    rewrite lookup_app_r by lia. by replace (_ - _) with 0 by lia. }
  specialize (Hc Hch).
  assert (substr s (length pre + 2) (length pre + 2 + length name - length pre - 2) = name) as Hname.
  { unfold substr. rewrite Es, <- El, drop_app_length.
    replace (_ - _ - _) with (length name) by lia. apply take_app_length. }
  assert (forall v, replace_at s (length pre) (length pre + 2 + length name - length pre + 1) v
    = pre ++ v ++ post) as Hrep.
  { intros v. unfold replace_at. unfold s at 1. rewrite take_app_length. f_equal. f_equal.
    assert (s = (pre ++ [dollar; lbrace] ++ name ++ [rbrace]) ++ post) as ->
      by (rewrite Es, <- !app_assoc; done).
    apply drop_app_length'. rewrite !length_app. cbn. rewrite ?length_app. cbn. lia. }
  cbv zeta in Hc. rewrite Hname, !Hrep in Hc. cbn [app] in Hc.
  rewrite Es at 1. rewrite <- El. apply runs_chars.
  - eapply Forall_impl; [exact Hn|]. intros c (Hd & Hb & Hr). done.
  - rewrite <- Es, El. exact Hc.
Qed.

(** ** Templates *)

Inductive piece := Text (t : str) | Var (name : str).
Definition source (p : piece) : str := match p with Text t => t | Var n => var n end.
Definition expansion (p : piece) : str := match p with Text t => t | Var n => fn n end.

(** Text without a dollar or a backslash; it may have closing braces. *)
Definition text_ok (t : str) : Prop := Forall (fun c => c <> dollar /\ c <> backslash) t.
Definition piece_ok (p : piece) : Prop :=
  match p with Text t => text_ok t | Var n => Forall plain n /\ text_ok (fn n) end.

Lemma text_ok_top t : text_ok t ->
  Forall (fun ch => ch <> dollar /\ ch <> backslash /\ (ch = rbrace -> @None (gset str) = None)) t.
Proof. intros H. eapply Forall_impl; [exact H|]. by intros c [? ?]. Qed.

Lemma runs_template ps done last inner :
  Forall piece_ok ps ->
  last <= S (length done) -> (last = S (length done) -> forall n, n ∈ inner -> fn n = []) ->
  runs (done ++ mjoin (source <$> ps)) 0 (length done) last Normal inner None
    (false, done ++ mjoin (expansion <$> ps), None).
Proof.
  revert done last inner. induction ps as [|p ps IH]; intros done last inner Hps Hl Hin.
  - cbn. rewrite app_nil_r. apply runs_end. lia.
  - apply Forall_cons in Hps as [Hp Hps]. cbn [fmap list_fmap mjoin list_join].
    destruct p as [t | n]; cbn [source expansion piece_ok] in *.
    + apply runs_chars; [by apply text_ok_top|]. rewrite app_assoc.
      rewrite <- length_app. rewrite (app_assoc done t (mjoin (expansion <$> ps))).
      apply IH; [done | rewrite length_app; lia |]. intros E. rewrite length_app in E.
      apply Hin. lia.
    + destruct Hp as [Hn Hv]. set (post := mjoin (source <$> ps)).
      apply runs_dollar.
      { rewrite lookup_app_r, Nat.sub_diag by lia. done. }
      remember (if last <? S (length done) then (S (length done), ∅) else (last, inner)) as li eqn:Eli.
      destruct li as [last' inner']. symmetry in Eli.
      assert (last' = S (length done) /\ forall m, m ∈ inner' -> fn m = []) as [-> Hin'].
      { destruct (Nat.ltb_spec last (S (length done))); injection Eli as <- <-; [split; [done|]; set_solver|].
        assert (last = S (length done)) by lia. split; [done|]. by apply Hin. }
      set (inner2 := if decide (n ∈ inner') then inner' else {[n]} ∪ inner').
      eapply (runs_brace _ _ _ _ _ _ _ _ _ (done ++ fn n ++ post) inner2); [| exact Eli | |].
      { rewrite lookup_app_r by lia. by replace (S (length done) - length done) with 1 by lia. }
      { replace (S (length done) - 1) with (length done) by lia.
        pose proof (runs_reference done n post inner' Hn) as Hr. unfold inner2.
        destruct (decide (n ∈ inner')) as [H|]; [|exact Hr]. rewrite (Hin' n H). exact Hr. }
      replace (S (length done) - 1) with (length done) by lia.
      apply runs_chars; [by apply text_ok_top|]. rewrite <- length_app, !app_assoc.
      apply IH; [done | rewrite length_app; lia |].
      intros E m Hm. rewrite length_app in E. assert (fn n = []) as En by (apply length_zero_iff_nil; lia).
      unfold inner2 in Hm. destruct (decide _); [by apply Hin'|].
      apply elem_of_union in Hm as [Hm | Hm]; [by apply elem_of_singleton in Hm as -> | by apply Hin'].
Qed.
End runs.

(** Substitution of a text with references terminates and replaces each reference
    by the value of its variable, in place, and changes nothing else.  The texts and
    the values contain no dollar and no backslash (they may contain braces); the
    names contain no closing brace either.  The same variable may be used any number
    of times, also when its value is empty. *)
Theorem var_sub_template (fn : str -> str) (ps : list piece) :
  Forall (piece_ok fn) ps ->
  exists fuel0, forall fuel, fuel0 <= fuel ->
    var_sub fn fuel (mjoin (source <$> ps)) = Some (mjoin (expansion fn <$> ps)).
Proof.
  intros Hps. destruct (runs_template fn ps [] 0 ∅ Hps) as [fuel0 Hr]; [lia | done |].
  exists fuel0. intros fuel Hf. unfold var_sub. cbn [app length] in Hr.
  by rewrite (substitute_fuel _ _ _ _ _ _ _ _ _ _ _ Hr Hf).
Qed.

Definition sample_env (n : str) : str :=
  if bool_decide (n = lit "FOO") then lit "101" else if bool_decide (n = lit "BAR") then lit "{2}" else [].


Lemma var_sub_template_witness :
  exists fuel, var_sub sample_env fuel (lit "<${FOO} ${BAR}${}>") = Some (lit "<101 {2}>").
Proof.
  destruct (var_sub_template sample_env
    [Text (lit "<"); Var (lit "FOO"); Text (lit " "); Var (lit "BAR"); Var []; Text (lit ">")]) as [f Hf].
  - repeat first [apply Forall_nil_2 | apply Forall_cons_2 | split | discriminate].
  - exists f. exact (Hf f (le_n f)).
Defined.

(** ** References that never end *)

Lemma scan_chars fn fuel t pre post last inner :
  text_ok t ->
  substitute fn fuel (pre ++ t ++ post) 0 (length pre) last Normal inner None
  = substitute fn (fuel - length t) (pre ++ t ++ post) 0 (length pre + length t) last Normal inner None.
Proof.
  revert fuel pre. induction t as [|c t IH]; intros fuel pre Ht.
  - by rewrite Nat.sub_0_r, Nat.add_0_r.
  - apply Forall_cons in Ht as [[Hd Hb] Ht]. destruct fuel as [|fuel]; [done|].
    cbn [substitute length]. rewrite lookup_app_r, Nat.sub_diag by lia. cbn [app lookup list_lookup].
    rewrite bool_decide_false by (by intros [? _]). rewrite !bool_decide_false by done.
    specialize (IH fuel (pre ++ [c]) Ht). rewrite length_app, <- app_assoc in IH. cbn in IH.
    replace (length pre + 1) with (S (length pre)) in IH by lia. cbn [app] in IH. rewrite IH.
    cbn [Nat.sub]. by rewrite Nat.add_succ_r.
Qed.

Lemma runs_result fn fuel s i j last st inner outer r r' :
  runs fn s i j last st inner outer r -> substitute fn fuel s i j last st inner outer = Some r' -> r' = r.
Proof.
  intros [f Hf] Hr. apply (substitute_fuel _ _ (Nat.max f fuel)) in Hf; [|lia].
  apply (substitute_fuel _ _ (Nat.max f fuel)) in Hr; [|lia]. congruence.
Qed.

Lemma self_reference fn name t u fuel pre post last inner :
  Forall plain name -> text_ok t -> t <> [] -> fn name = t ++ var name ++ u -> last <= length pre ->
  substitute fn fuel (pre ++ var name ++ post) 0 (length pre) last Normal inner None = None.
Proof.
  intros Hn Ht Hne Hfn. revert pre post last inner.
  induction fuel as [fuel IH] using lt_wf_ind. intros pre post last inner Hl.
  assert ((pre ++ var name ++ post) !! length pre = Some dollar) as H1
    by (rewrite lookup_app_r, Nat.sub_diag by lia; done).
  assert ((pre ++ var name ++ post) !! S (length pre) = Some lbrace) as H2
    by (rewrite lookup_app_r by lia; by replace (S (length pre) - length pre) with 1 by lia).
  destruct fuel as [|[|fuel]]; [done | |]; cbn [substitute]; rewrite H1;
    (rewrite bool_decide_false by (by intros [? _])); rewrite bool_decide_true by done; [done|].
  rewrite H2. rewrite bool_decide_true by done.
  destruct (Nat.ltb_spec last (S (length pre))); [|lia].
  replace (S (length pre) - 1) with (length pre) by lia.
  destruct (substitute fn fuel _ (length pre) (length pre + 2) 0 Normal ∅ (Some ∅)) as [r|] eqn:E; [|done].
  apply (runs_result _ _ _ _ _ _ _ _ _ _ _ (runs_reference fn pre name post ∅ Hn)) in E.
  destruct (decide (name ∈ ∅)) as [Hin | _]; [by apply elem_of_empty in Hin|]. subst r. cbn [default].
  rewrite Hfn, <- !app_assoc, scan_chars by done. rewrite (app_assoc pre t), <- length_app.
  apply IH; [lia|]. rewrite length_app. destruct t; [done | cbn; lia].
Qed.

(** A variable whose value refers to the variable itself after some text is
    expanded for ever: the detection of loops forgets the names that it has seen
    whenever the position has advanced.  (A value that begins with the reference is
    detected.) *)
Theorem var_sub_self_reference (fn : str -> str) (name t u : str) (fuel : nat) :
  Forall plain name -> text_ok t -> t <> [] -> fn name = t ++ var name ++ u ->
  var_sub fn fuel (var name) = None.
Proof.
  intros Hn Ht Hne Hfn. unfold var_sub.
  pose proof (self_reference fn name t u fuel [] [] 0 ∅ Hn Ht Hne Hfn (le_n _)) as H.
  rewrite app_nil_r in H. cbn in H. by rewrite H.
Qed.

Lemma var_sub_self_reference_witness :
  var_sub (fun _ => lit "/bin:${PATH}") 1000 (lit "${PATH}") = None.
Proof.
  apply (var_sub_self_reference (fun _ => lit "/bin:${PATH}") (lit "PATH") (lit "/bin:") []);
    try discriminate; try reflexivity;
    repeat first [apply Forall_nil_2 | apply Forall_cons_2 | split | discriminate].
Defined.

(** The character after an escaped one is not looked at: an escaped character in
    front of a reference prevents the substitution, whatever the character is (the
    loop advances past the escaped character twice, after the backslash was
    removed and again at its end). *)
Theorem escape_skips_character (fn : str -> str) (c : ascii) (name : str) :
  Forall plain name ->
  exists fuel0, forall fuel, fuel0 <= fuel ->
    var_sub fn fuel (backslash :: c :: var name) = Some (c :: var name).
Proof.
  intros Hn.
  assert (runs fn (backslash :: c :: var name) 0 0 0 Normal ∅ None (false, c :: var name, None)) as [f0 Hf].
  { destruct (runs_chars fn (lbrace :: name ++ [rbrace]) [c; dollar] [] 0 0 ∅ None (false, c :: var name, None))
      as [f Hf].
    - constructor; [done|]. apply Forall_app. split; [|by repeat constructor].
      eapply Forall_impl; [exact Hn|]. by intros d (? & ? & _).
    - rewrite app_nil_r. apply (runs_end fn (c :: var name)). cbn. lia.
    - rewrite app_nil_r in Hf. exists (S (S f)). cbn. exact Hf. }
  exists f0. intros fuel Hfuel. unfold var_sub.
  by rewrite (substitute_fuel _ _ _ _ _ _ _ _ _ _ _ Hf Hfuel).
Qed.

Lemma escape_skips_character_witness :
  exists fuel, var_sub sample_env fuel (lit "\\${FOO}") = Some (lit "\${FOO}").
Proof.
  destruct (escape_skips_character sample_env backslash (lit "FOO")) as [f Hf].
  - repeat first [apply Forall_nil_2 | apply Forall_cons_2 | split | discriminate].
  - exists f. exact (Hf f (le_n f)).
Defined.
