(* ===== verification/Config.v ===== *)
(** * Configuration files

    Models [toolbox/util/Config.hpp] and [Config.cpp]: sections of keys and values,
    the fallback of a section to its parent, and files of several sections.  The
    values go through the substitution of variables (file VarSub), with the
    environment as a parameter. *)
From stdpp Require Import strings.
From Stdlib Require Import String.
From S2P Require Import Prelude Text VarSub.
#[local] Open Scope nat_scope.

(** ** Streams *)

(** An input stream: what is left to read, and its end-of-file flag. *)
Record istream := mkStream { rest_ : str; eof_ : bool }.

Definition newline : ascii := "010".

(** [std::getline]: fails at the end of the stream; the last line need not end
    with a line break. *)
Definition getline (ins : istream) : option str * istream :=
  match rest_ ins with
  | [] => (None, mkStream [] true)
  | s =>
      match list_find (fun c => c = newline) s with
      | Some (pos, _) => (Some (take pos s), mkStream (drop (S pos) s) (eof_ ins))
      | None => (Some s, mkStream [] true)
      end
  end.

Definition hash : ascii := "#".
Definition lbracket : ascii := "[".
Definition rbracket : ascii := "]".
Definition equals : ascii := "=".

Definition front_is (s : str) (c : ascii) : bool := bool_decide (head s = Some c).
Definition back_is (s : str) (c : ascii) : bool := bool_decide (last s = Some c).

(** [parse_section]: the calls of the function, the name of the next section (empty
    at the end of the stream) and the stream. *)
Fixpoint parse_section (fuel : nat) (ins : istream) (calls : list (str * str))
    : option (list (str * str) * str * istream) :=
  match fuel with
  | O => None
  | S fuel =>
      match getline ins with
      | (None, ins) => Some (calls, [], ins)
      | (Some line, ins) =>
          let line := trim line in
          if bool_decide (line = []) || front_is line hash then parse_section fuel ins calls
          else if front_is line lbracket && back_is line rbracket
          then Some (calls, trim (take (length line - 2) (drop 1 line)), ins)
          else
            let '(key, val) := split_pair line equals in
            parse_section fuel ins (calls ++ [(rtrim key, ltrim val)])
      end
  end.

(** ** Configurations *)

(** The entries, and the parent if one has been set. *)
Inductive Config :=
| RootConfig (entries : gmap str str)
| ChildConfig (entries : gmap str str) (parent : Config).

Definition map_ (c : Config) : gmap str str := match c with RootConfig m | ChildConfig m _ => m end.

(** [get]: [None] stands for the exception that the key is missing. *)
Fixpoint get (c : Config) (key : str) : option str :=
  match map_ c !! key with
  | Some v => Some v
  | None => match c with ChildConfig _ p => get p key | RootConfig _ => None end
  end.

(** [get] with a default. *)
Fixpoint get_default (c : Config) (key dfl : str) : str :=
  match map_ c !! key with
  | Some v => v
  | None => match c with ChildConfig _ p => get_default p key dfl | RootConfig _ => dfl end
  end.

(** [map::emplace] keeps the value of a key that is present. *)
Definition emplace {A} (m : gmap str A) (key : str) (v : A) : gmap str A :=
  match m !! key with Some _ => m | None => <[key := v]> m end.

(** [set]. *)
Definition set_value (c : Config) (key val : str) : Config :=
  match c with
  | RootConfig m => RootConfig (emplace m key val)
  | ChildConfig m p => ChildConfig (emplace m key val) p
  end.

(** The conversions of [TypeTraits] that the typed getters select by their type. *)
Class FromString (T : Type) := from_string : str -> T.
Definition from_int (t : itype) : FromString Z := ston t.
#[export] Instance from_bool : FromString bool := fun sv => stob sv false.
#[export] Instance from_str : FromString str := fun sv => sv.

(** [get<ValueT>], without and with a default. *)
Fixpoint get_as {T} `{FromString T} (c : Config) (key : str) : option T :=
  match map_ c !! key with
  | Some v => Some (from_string v)
  | None => match c with ChildConfig _ p => get_as p key | RootConfig _ => None end
  end.

Fixpoint get_as_default {T} `{FromString T} (c : Config) (key : str) (dfl : T) : T :=
  match map_ c !! key with
  | Some v => from_string v
  | None => match c with ChildConfig _ p => get_as_default p key dfl | RootConfig _ => dfl end
  end.

Section read.
Variable get_env : str -> str.

Fixpoint add_entries (fuel : nat) (m : gmap str str) (calls : list (str * str)) : option (gmap str str) :=
  match calls with
  | [] => Some m
  | (key, val) :: calls =>
      v ← var_sub get_env fuel val; add_entries fuel (emplace m key v) calls
  end.

(** [read_section] into a configuration without entries. *)
Definition read_section (fuel : nat) (ins : istream) : option (gmap str str * str * istream) :=
  '(calls, next, ins) ← parse_section fuel ins [];
  m ← add_entries fuel ∅ calls; Some (m, next, ins).

Record MultiConfig := mkMulti { root_ : Config; sections_ : gmap str Config }.

Fixpoint read_sections (fuel : nat) (ins : istream) (next : str) (mc : MultiConfig) : option MultiConfig :=
  match fuel with
  | O => None
  | S fuel =>
      let name := next in
      '(m, next, ins) ← read_section fuel ins;
      let mc := mkMulti (root_ mc) (emplace (sections_ mc) name (ChildConfig m (root_ mc))) in
      if eof_ ins then Some mc else read_sections fuel ins next mc
  end.

(** [MultiConfig::read]. *)
Definition read (fuel : nat) (text : str) : option MultiConfig :=
  '(m, next, ins) ← read_section fuel (mkStream text false);
  let mc := mkMulti (RootConfig m) ∅ in
  if eof_ ins then Some mc else read_sections fuel ins next mc.
End read.

Definition section (mc : MultiConfig) (name : str) : Config := default (root_ mc) (sections_ mc !! name).

(** ** The text of a configuration *)

(** A line of a section, with white space around its parts. *)
Inductive cline :=
| Blank (w : str)
| Comment (w t : str)
| Entry (w key w1 w2 val w3 : str).
Record header := mkHeader { hw : str; hw1 : str; hname : str; hw2 : str; hw3 : str }.

Definition line_text (l : cline) : str :=
  match l with
  | Blank w => w
  | Comment w t => w ++ hash :: t
  | Entry w key w1 w2 val w3 => w ++ key ++ w1 ++ equals :: w2 ++ val ++ w3
  end.
Definition header_text (h : header) : str :=
  hw h ++ lbracket :: hw1 h ++ hname h ++ hw2 h ++ rbracket :: hw3 h.

Definition lines_text (ls : list cline) : str := mjoin ((fun l => line_text l ++ [newline]) <$> ls).
Definition config_text (root : list cline) (secs : list (header * list cline)) : str :=
  lines_text root ++ mjoin ((fun '(h, ls) => header_text h ++ [newline] ++ lines_text ls) <$> secs).

Definition spaces (w : str) : Prop := Forall (fun c => is_space c /\ c <> newline) w.
Definition trimmed (s : str) : Prop :=
  (forall c r, s = c :: r -> ~ is_space c) /\ (forall c r, s = r ++ [c] -> ~ is_space c).

Definition line_ok (l : cline) : Prop :=
  match l with
  | Blank w => spaces w
  | Comment w t => spaces w /\ (newline ∉ t)
  | Entry w key w1 w2 val w3 =>
      spaces w /\ spaces w1 /\ spaces w2 /\ spaces w3
      /\ trimmed key /\ (newline ∉ key) /\ (equals ∉ key)
      /\ head key <> Some hash /\ head key <> Some lbracket
      /\ trimmed val /\ (newline ∉ val) /\ text_ok val
  end.
Definition header_ok (h : header) : Prop :=
  spaces (hw h) /\ spaces (hw1 h) /\ spaces (hw2 h) /\ spaces (hw3 h)
  /\ trimmed (hname h) /\ (newline ∉ hname h).

Definition entries (ls : list cline) : list (str * str) :=
  omap (fun l => match l with Entry _ key _ _ val _ => Some (key, val) | _ => None end) ls.

(** What the entries bind: the first entry of a key counts. *)
Definition bind (es : list (str * str)) : gmap str str := foldl (fun m '(k, v) => emplace m k v) ∅ es.

(** ** Trimming lines *)

Lemma ltrim_app x c y : ~ is_space c -> ltrim (x ++ c :: y) = ltrim x ++ c :: y.
Proof.
  intros Hc. destruct (ltrim_spec x) as (a & Ha & Hsa & Hfa).
  apply (ltrim_unique _ a); [by rewrite Ha at 1; rewrite <- app_assoc | done |].
  intros d t Hd. destruct (ltrim x) as [|e r]; [injection Hd as <- <-; done|].
  injection Hd as <- <-. by eapply Hfa.
Qed.

Lemma rtrim_app x c y : ~ is_space c -> rtrim (x ++ c :: y) = x ++ c :: rtrim y.
Proof.
  intros Hc. rewrite !rtrim_reverse, reverse_app, reverse_cons, <- app_assoc. cbn.
  rewrite ltrim_app, reverse_app, reverse_cons, reverse_involutive, <- app_assoc by done. done.
Qed.

Lemma ltrim_spaces w : Forall is_space w -> ltrim w = [].
Proof. intros Hw. apply (ltrim_unique _ w); [by rewrite app_nil_r | done | done]. Qed.
Lemma rtrim_spaces w : Forall is_space w -> rtrim w = [].
Proof. intros Hw. rewrite rtrim_reverse, ltrim_spaces; [done | by apply Forall_reverse]. Qed.

Lemma spaces_space w : spaces w -> Forall is_space w.
Proof. intros H. eapply Forall_impl; [exact H|]. by intros c [? _]. Qed.
Lemma spaces_newline w : spaces w -> newline ∉ w.
Proof. intros H Hin. unfold spaces in H. rewrite Forall_forall in H. by destruct (H _ Hin). Qed.

Lemma trimmed_nil : trimmed [].
Proof. split; [done|]. by intros c []. Qed.

(** Padding a trimmed string. *)
Lemma ltrim_pad w s w' : Forall is_space w -> Forall is_space w' -> trimmed s ->
  ltrim (w ++ s ++ w') = if decide (s = []) then [] else s ++ w'.
Proof.
  intros Hw Hw' [Hs _]. destruct (decide (s = [])) as [-> | Hne].
  - apply ltrim_spaces. by apply Forall_app.
  - apply (ltrim_unique _ w); [done | done |]. intros c t Hc. destruct s as [|d r]; [done|].
    injection Hc as <- _. by eapply Hs.
Qed.

Lemma rtrim_pad w s w' : Forall is_space w -> Forall is_space w' -> trimmed s ->
  rtrim (w ++ s ++ w') = if decide (s = []) then [] else w ++ s.
Proof.
  intros Hw Hw' [Hs He]. destruct (decide (s = [])) as [-> | Hne].
  - apply rtrim_spaces. by apply Forall_app.
  - destruct (exists_last Hne) as (r & c & ->).
    rewrite <- (app_assoc r). cbn. rewrite (app_assoc w r), rtrim_app by (by eapply He).
    rewrite rtrim_spaces by done. by rewrite <- app_assoc.
Qed.

Lemma trim_pad w s w' : Forall is_space w -> Forall is_space w' -> trimmed s ->
  trim (w ++ s ++ w') = s.
Proof.
  intros Hw Hw' Hs. unfold trim. rewrite ltrim_pad by done. case_decide; [by subst|].
  pose proof (rtrim_pad [] s w' ltac:(constructor) Hw' Hs) as H'. cbn [app] in H'. rewrite H'.
  by rewrite decide_False.
Qed.

Lemma trim_around x c y : ~ is_space c -> trim (x ++ c :: y) = ltrim x ++ c :: rtrim y.
Proof. intros Hc. unfold trim. by rewrite ltrim_app, rtrim_app. Qed.

Lemma not_space c : bool_decide (c ∈ Space) = false -> ~ is_space c.
Proof. apply bool_decide_eq_false. Qed.

(** ** Reading lines *)

Lemma getline_line l rest eof : (newline ∉ l) ->
  getline (mkStream (l ++ newline :: rest) eof) = (Some l, mkStream rest eof).
Proof.
  intros Hl. unfold getline. cbn [rest_ eof_].
  assert (list_find (fun c => c = newline) (l ++ newline :: rest) = Some (length l, newline)) as Hf.
  { induction l as [|c l IH]; cbn; [by rewrite decide_True|].
    rewrite not_elem_of_cons in Hl. rewrite decide_False by (intros ->; tauto).
    by rewrite IH by tauto. }
  destruct (l ++ newline :: rest) eqn:E; [by destruct l|]. rewrite <- E in *. rewrite Hf.
  rewrite take_app_length. do 2 f_equal. rewrite drop_app_ge by lia.
  by replace (S (length l) - length l) with 1 by lia.
Qed.

Lemma key_text_front w key w1 : spaces w -> spaces w1 -> trimmed key ->
  ltrim (w ++ key ++ w1) = if decide (key = []) then [] else key ++ w1.
Proof. intros Hw Hw1 Hk. by apply ltrim_pad; [apply spaces_space | apply spaces_space |]. Qed.

(** An entry's line, trimmed. *)
Lemma entry_text w key w1 w2 val w3 :
  spaces w -> spaces w1 -> spaces w2 -> spaces w3 -> trimmed key -> trimmed val ->
  trim (line_text (Entry w key w1 w2 val w3))
  = (if decide (key = []) then [] else key ++ w1) ++ equals :: (if decide (val = []) then [] else w2 ++ val).
Proof.
  intros Hw Hw1 Hw2 Hw3 Hk Hv. cbn [line_text].
  replace (w ++ key ++ w1 ++ equals :: w2 ++ val ++ w3)
    with ((w ++ key ++ w1) ++ equals :: (w2 ++ val ++ w3)) by (by rewrite <- !app_assoc).
  rewrite trim_around by (by apply not_space). rewrite key_text_front by done.
  by rewrite rtrim_pad by (try apply spaces_space; done).
Qed.

Lemma parse_entry fuel w key w1 w2 val w3 rest eof calls :
  line_ok (Entry w key w1 w2 val w3) ->
  parse_section (S fuel) (mkStream (line_text (Entry w key w1 w2 val w3) ++ newline :: rest) eof) calls
  = parse_section fuel (mkStream rest eof) (calls ++ [(key, val)]).
Proof.
  intros (Hw & Hw1 & Hw2 & Hw3 & Hk & Hkn & Hke & Hkh & Hkb & Hv & Hvn & _).
  cbn [parse_section]. rewrite getline_line.
  2: { cbn. rewrite !elem_of_app, elem_of_cons, !elem_of_app.
       pose proof (spaces_newline _ Hw). pose proof (spaces_newline _ Hw1).
       pose proof (spaces_newline _ Hw2). pose proof (spaces_newline _ Hw3).
       intros [? | [? | [? | [? | [? | [? | ?]]]]]]; done. }
  rewrite entry_text by done.
  set (l := _ ++ equals :: _).
  assert (front_is l hash = false /\ front_is l lbracket = false /\ l <> []) as (Hh & Hb & Hne).
  { unfold front_is, l. destruct (decide (key = [])) as [-> | Hn]; [done|].
    destruct key as [|c key]; [done|]. cbn in *. rewrite !bool_decide_eq_false. split_and!; done. }
  rewrite (bool_decide_false (l = [])), Hh, Hb by done. cbn [orb andb]. unfold l.
  rewrite split_pair_join.
  2: { case_decide; [apply not_elem_of_nil|]. rewrite elem_of_app. intros [? | Hin]; [done|].
       pose proof (spaces_space _ Hw1) as H1. rewrite Forall_forall in H1. by apply (not_space equals), H1. }
  assert (rtrim (if decide (key = []) then [] else key ++ w1) = key) as ->.
  { case_decide as Hd; [by rewrite Hd|].
    pose proof (rtrim_pad [] key w1 ltac:(constructor) (spaces_space _ Hw1) Hk) as H'.
    cbn [app] in H'. rewrite H'. by rewrite decide_False. }
  assert (ltrim (if decide (val = []) then [] else w2 ++ val) = val) as ->; [|done].
  case_decide as Hd; [by rewrite Hd|].
  pose proof (ltrim_pad w2 val [] (spaces_space _ Hw2) ltac:(constructor) Hv) as H'.
  rewrite app_nil_r in H'. rewrite H'. by rewrite decide_False.
Qed.

Lemma parse_line fuel l rest eof calls : line_ok l ->
  parse_section (S fuel) (mkStream (line_text l ++ newline :: rest) eof) calls
  = parse_section fuel (mkStream rest eof) (calls ++ entries [l]).
Proof.
  intros Hl. destruct l as [w | w t | w key w1 w2 val w3]; [| | by apply parse_entry].
  - cbn in *. rewrite app_nil_r, getline_line by (by apply spaces_newline).
    pose proof (trim_pad w [] [] (spaces_space _ Hl) ltac:(constructor)) as H'.
    rewrite !app_nil_r in H'. by rewrite H' by apply trimmed_nil.
  - destruct Hl as [Hw Ht]. cbn [parse_section line_text]. rewrite app_nil_r, getline_line.
    2: { rewrite elem_of_app, elem_of_cons. pose proof (spaces_newline _ Hw). intros [? | [? | ?]]; done. }
    rewrite trim_around by (by apply not_space). rewrite ltrim_spaces by (by apply spaces_space). done.
Qed.

Lemma parse_lines ls fuel rest eof calls : Forall line_ok ls -> length ls <= fuel ->
  parse_section fuel (mkStream (lines_text ls ++ rest) eof) calls
  = parse_section (fuel - length ls) (mkStream rest eof) (calls ++ entries ls).
Proof.
  revert fuel calls. induction ls as [|l ls IH]; intros fuel calls Hls Hf.
  - by rewrite app_nil_r, Nat.sub_0_r.
  - apply Forall_cons in Hls as [Hl Hls]. destruct fuel as [|fuel]; [cbn in Hf; lia|].
    unfold lines_text. cbn [fmap list_fmap mjoin list_join]. rewrite <- !app_assoc. cbn [app].
    rewrite parse_line by done. fold (lines_text ls). cbn in Hf.
    unfold lines_text in IH. rewrite IH by (done || lia). cbn [length Nat.sub].
    rewrite <- app_assoc. unfold entries. change (l :: ls) with ([l] ++ ls). by rewrite omap_app.
Qed.

Lemma parse_header fuel h rest eof calls : header_ok h ->
  parse_section (S fuel) (mkStream (header_text h ++ newline :: rest) eof) calls
  = Some (calls, hname h, mkStream rest eof).
Proof.
  intros (Hw & Hw1 & Hw2 & Hw3 & Hn & Hnn). unfold header_text. cbn [parse_section].
  rewrite getline_line.
  2: { rewrite elem_of_app, elem_of_cons, !elem_of_app, elem_of_cons.
       pose proof (spaces_newline _ Hw). pose proof (spaces_newline _ Hw1).
       pose proof (spaces_newline _ Hw2). pose proof (spaces_newline _ Hw3).
       intros [? | [? | [? | [? | [? | [? | ?]]]]]]; done. }
  set (inner := hw1 h ++ hname h ++ hw2 h).
  assert (trim (hw h ++ lbracket :: hw1 h ++ hname h ++ hw2 h ++ rbracket :: hw3 h)
          = lbracket :: inner ++ [rbracket]) as ->.
  { rewrite trim_around by (by apply not_space). rewrite ltrim_spaces by (by apply spaces_space). cbn [app].
    f_equal. replace (hw1 h ++ hname h ++ hw2 h ++ rbracket :: hw3 h) with (inner ++ rbracket :: hw3 h)
      by (unfold inner; by rewrite <- !app_assoc).
    rewrite rtrim_app, rtrim_spaces by (by apply not_space || by apply spaces_space). done. }
  assert (back_is (lbracket :: inner ++ [rbracket]) rbracket = true) as ->.
  { unfold back_is. apply bool_decide_eq_true. rewrite app_comm_cons. apply last_snoc. }
  cbn [andb orb]. rewrite bool_decide_false by done. cbn [orb].
  change (front_is (lbracket :: inner ++ [rbracket]) hash) with false.
  change (front_is (lbracket :: inner ++ [rbracket]) lbracket) with true. cbn [andb].
  change (drop 1 (lbracket :: inner ++ [rbracket])) with (inner ++ [rbracket]).
  do 3 f_equal. cbn [length]. rewrite length_app. cbn [length].
  replace (S (length inner + 1) - 2) with (length inner) by lia. rewrite take_app_length.
  apply trim_pad; [by apply spaces_space | by apply spaces_space | done].
Qed.

(** ** Reading files *)

(** The first value of a key. *)
Fixpoint first {A} (es : list (str * A)) (key : str) : option A :=
  match es with
  | [] => None
  | (k, v) :: es => if decide (k = key) then Some v else first es key
  end.

Definition emplace_all {A} (m : gmap str A) (es : list (str * A)) : gmap str A :=
  foldl (fun m '(k, v) => emplace m k v) m es.

Lemma lookup_emplace_all {A} (es : list (str * A)) m key :
  emplace_all m es !! key = match m !! key with Some v => Some v | None => first es key end.
Proof.
  revert m. unfold emplace_all.
  induction es as [|[k v] es IH]; intros m; cbn; [by destruct (m !! key)|].
  rewrite IH. unfold emplace. destruct (m !! k) as [v'|] eqn:E.
  - destruct (m !! key) eqn:E'; [done|]. rewrite decide_False; [done|]. congruence.
  - destruct (decide (k = key)) as [-> | Hne]; [by rewrite lookup_insert_eq, E|].
    by rewrite lookup_insert_ne.
Qed.

Lemma lookup_bind es key : bind es !! key = first es key.
Proof. etrans; [apply (lookup_emplace_all es ∅ key)|]. by rewrite lookup_empty. Qed.

Section read_correct.
Variable get_env : str -> str.

Lemma var_sub_plain fuel t : text_ok t -> length t < fuel -> var_sub get_env fuel t = Some t.
Proof.
  intros Ht Hf. unfold var_sub. pose proof (scan_chars get_env fuel t [] [] 0 ∅ Ht) as H.
  cbn [app length] in H. rewrite app_nil_r in H. rewrite H.
  destruct (fuel - length t) as [|k] eqn:E; [lia|]. cbn. by rewrite lookup_ge_None_2.
Qed.

Definition plain_entries (es : list (str * str)) : Prop := Forall (fun '(_, v) => text_ok v) es.

Lemma entries_plain ls : Forall line_ok ls -> plain_entries (entries ls).
Proof.
  intros Hls. unfold entries. induction Hls as [|l ls Hl _ IH]; [constructor|].
  destruct l as [w | w t | w k w1 w2 v w3]; cbn; [done | done |]. constructor; [|done].
  cbn in Hl. tauto.
Qed.

Lemma add_entries_plain es m : plain_entries es ->
  exists fuel0, forall fuel, fuel0 <= fuel -> add_entries get_env fuel m es = Some (emplace_all m es).
Proof.
  intros Hes. revert m. induction Hes as [|[k v] es Hv _ IH]; intros m; [by exists 0|].
  destruct (IH (emplace m k v)) as [f Hf]. exists (Nat.max f (S (length v))). intros fuel Hfuel.
  cbn [add_entries]. rewrite var_sub_plain by (done || lia). cbn. apply Hf. lia.
Qed.

Lemma read_section_end ls : Forall line_ok ls ->
  exists fuel0, forall fuel, fuel0 <= fuel ->
    read_section get_env fuel (mkStream (lines_text ls) false) = Some (bind (entries ls), [], mkStream [] true).
Proof.
  intros Hls. destruct (add_entries_plain (entries ls) ∅ (entries_plain ls Hls)) as [f Hf].
  exists (Nat.max f (S (length ls))). intros fuel Hfuel. unfold read_section.
  rewrite <- (app_nil_r (lines_text ls)), parse_lines by (done || lia).
  destruct (fuel - length ls) as [|k] eqn:E; [lia|]. cbn. by rewrite Hf by lia.
Qed.

Lemma read_section_next ls h rest : Forall line_ok ls -> header_ok h ->
  exists fuel0, forall fuel, fuel0 <= fuel ->
    read_section get_env fuel (mkStream (lines_text ls ++ header_text h ++ newline :: rest) false)
    = Some (bind (entries ls), hname h, mkStream rest false).
Proof.
  intros Hls Hh. destruct (add_entries_plain (entries ls) ∅ (entries_plain ls Hls)) as [f Hf].
  exists (Nat.max f (S (length ls))). intros fuel Hfuel. unfold read_section.
  rewrite parse_lines by (done || lia).
  destruct (fuel - length ls) as [|k] eqn:E; [lia|]. rewrite parse_header by done. cbn.
  by rewrite Hf by lia.
Qed.

Definition sections_text (secs : list (header * list cline)) : str :=
  mjoin ((fun '(h, ls) => header_text h ++ [newline] ++ lines_text ls) <$> secs).
Definition section_ok (s : header * list cline) : Prop := header_ok s.1 /\ Forall line_ok s.2.
Definition config_of (root : Config) (ls : list cline) : Config := ChildConfig (bind (entries ls)) root.

Lemma read_sections_text secs ls name mc :
  Forall line_ok ls -> Forall section_ok secs ->
  exists fuel0, forall fuel, fuel0 <= fuel ->
    read_sections get_env fuel (mkStream (lines_text ls ++ sections_text secs) false) name mc
    = Some (mkMulti (root_ mc) (emplace_all (sections_ mc)
        ((name, config_of (root_ mc) ls) :: ((fun '(h, ls) => (hname h, config_of (root_ mc) ls)) <$> secs)))).
Proof.
  revert ls name mc. induction secs as [|[h ls'] secs IH]; intros ls name mc Hls Hsecs.
  - destruct (read_section_end ls Hls) as [f Hf]. exists (S f). intros [|fuel] Hfuel; [lia|].
    cbn [read_sections]. change (sections_text []) with (@nil ascii). rewrite app_nil_r, Hf by lia. done.
  - apply Forall_cons in Hsecs as [[Hh Hls'] Hsecs]. cbn in Hh, Hls'.
    set (mc' := mkMulti (root_ mc) (emplace (sections_ mc) name (config_of (root_ mc) ls))).
    destruct (IH ls' (hname h) mc' Hls' Hsecs) as [f1 Hf1].
    destruct (read_section_next ls h (lines_text ls' ++ sections_text secs) Hls Hh) as [f2 Hf2].
    exists (S (Nat.max f1 f2)). intros [|fuel] Hfuel; [lia|]. cbn [read_sections].
    assert (lines_text ls ++ sections_text ((h, ls') :: secs)
      = lines_text ls ++ header_text h ++ newline :: lines_text ls' ++ sections_text secs) as ->.
    { unfold sections_text. cbn. by rewrite <- !app_assoc. }
    rewrite Hf2 by lia. cbn [mbind option_bind eof_].
    change (ChildConfig (bind (entries ls)) (root_ mc)) with (config_of (root_ mc) ls). fold mc'.
    rewrite Hf1 by lia. done.
Qed.

Lemma read_text root secs : Forall line_ok root -> Forall section_ok secs ->
  exists fuel0, forall fuel, fuel0 <= fuel ->
    read get_env fuel (config_text root secs)
    = Some (mkMulti (RootConfig (bind (entries root))) (emplace_all ∅
        ((fun '(h, ls) => (hname h, config_of (RootConfig (bind (entries root))) ls)) <$> secs))).
Proof.
  intros Hroot Hsecs. unfold read. destruct secs as [|[h ls] secs].
  - destruct (read_section_end root Hroot) as [f Hf]. exists f. intros fuel Hfuel.
    unfold config_text. cbn [fmap list_fmap mjoin list_join]. rewrite app_nil_r, Hf by done. done.
  - apply Forall_cons in Hsecs as [[Hh Hls] Hsecs]. cbn in Hh, Hls.
    destruct (read_section_next root h (lines_text ls ++ sections_text secs) Hroot Hh) as [f1 Hf1].
    destruct (read_sections_text secs ls (hname h) (mkMulti (RootConfig (bind (entries root))) ∅) Hls Hsecs)
      as [f2 Hf2].
    exists (Nat.max f1 f2). intros fuel Hfuel.
    assert (config_text root ((h, ls) :: secs)
      = lines_text root ++ header_text h ++ newline :: lines_text ls ++ sections_text secs) as ->.
    { unfold config_text, sections_text. cbn. by rewrite <- !app_assoc. }
    rewrite Hf1 by lia. cbn [mbind option_bind eof_]. by rewrite Hf2 by lia.
Qed.
End read_correct.

Lemma first_fmap {A B} (f : A -> B) (secs : list (header * A)) name :
  first ((fun '(h, a) => (hname h, f a)) <$> secs) name = f <$> first ((fun '(h, a) => (hname h, a)) <$> secs) name.
Proof.
  induction secs as [|[h a] secs IH]; [done|]. cbn. by case_decide.
Qed.

(** Reading a configuration file terminates and gives what the file says.  For
    the text of any root entries and sections, with blank lines, comments and white
    space around keys, values and names: a key of the root has its first value
    there; a key of a section has its first value in the first section of that name,
    or else the root's; for a section that does not exist the root answers; a key
    that is in neither is reported as missing.  (The values have no references to
    variables.) *)
Theorem config_read (get_env : str -> str) (root : list cline) (secs : list (header * list cline)) :
  Forall line_ok root -> Forall section_ok secs ->
  exists fuel0 mc, (forall fuel, fuel0 <= fuel -> read get_env fuel (config_text root secs) = Some mc)
    /\ (forall key, get (root_ mc) key = first (entries root) key)
    /\ forall name key, get (section mc name) key =
         match first ((fun '(h, ls) => (hname h, ls)) <$> secs) name with
         | Some ls => match first (entries ls) key with
                      | Some v => Some v
                      | None => first (entries root) key
                      end
         | None => first (entries root) key
         end.
Proof.
  intros Hroot Hsecs. destruct (read_text get_env root secs Hroot Hsecs) as [fuel0 Hread].
  eexists fuel0, _. split; [exact Hread|].
  assert (forall key, get (RootConfig (bind (entries root))) key = first (entries root) key) as Hget.
  { intros key. change (match bind (entries root) !! key with Some v => Some v | None => None end
      = first (entries root) key). rewrite lookup_bind. by destruct (first _ _). }
  split; [exact Hget|]. intros name key. unfold section. cbn [root_ sections_].
  rewrite lookup_emplace_all, lookup_empty, first_fmap.
  destruct (first _ name) as [ls|]; cbn [fmap option_fmap option_map default from_option]; [|apply Hget].
  change (match bind (entries ls) !! key with
          | Some v => Some v | None => get (RootConfig (bind (entries root))) key end
          = match first (entries ls) key with Some v => Some v | None => first (entries root) key end).
  rewrite lookup_bind. destruct (first (entries ls) key); [done|]. apply Hget.
Qed.

Definition sample_root : list cline :=
  [Comment [] (lit " defaults"); Entry [] (lit "foo") [] [] (lit "101") []; Blank [];
   Entry [] (lit "bar") (lit " ") (lit " ") (lit "202") []].
Definition sample_section : header * list cline :=
  (mkHeader [] (lit " ") (lit "session") (lit " ") [],
   [Entry (lit " ") (lit "bar") [] [] (lit "= 303") []; Entry [] (lit "bar") [] [] (lit "0") []]).

Lemma trimmed_decide s :
  match head s with Some c => bool_decide (c ∉ Space) | None => true end = true ->
  match last s with Some c => bool_decide (c ∉ Space) | None => true end = true -> trimmed s.
Proof.
  intros Hh Hl. split.
  - intros c r ->. by apply bool_decide_eq_true in Hh.
  - intros c r ->. rewrite last_snoc in Hl. by apply bool_decide_eq_true in Hl.
Qed.

Lemma not_elem_decide (c : ascii) (s : str) : bool_decide (c ∉ s) = true -> c ∉ s.
Proof. apply bool_decide_eq_true_1. Qed.
Lemma spaces_decide (w : str) : bool_decide (Forall (fun c => c ∈ Space /\ c <> newline) w) = true -> spaces w.
Proof. apply bool_decide_eq_true_1. Qed.
Lemma text_decide (w : str) : bool_decide (Forall (fun c => c <> dollar /\ c <> backslash) w) = true -> text_ok w.
Proof. apply bool_decide_eq_true_1. Qed.

(** The conditions on a concrete line. *)
Ltac concrete_line :=
  repeat match goal with
  | |- line_ok _ => unfold line_ok
  | |- header_ok _ => unfold header_ok
  | |- _ /\ _ => split
  | |- spaces _ => apply spaces_decide; vm_compute; reflexivity
  | |- trimmed _ => apply trimmed_decide; vm_compute; reflexivity
  | |- _ ∉ _ => apply not_elem_decide; vm_compute; reflexivity
  | |- text_ok _ => apply text_decide; vm_compute; reflexivity
  | |- _ <> _ => discriminate
  end.

Lemma config_read_witness :
  exists mc, (exists fuel, read (fun _ => []) fuel (config_text sample_root [sample_section]) = Some mc)
    /\ get (section mc (lit "session")) (lit "foo") = Some (lit "101")
    /\ get (section mc (lit "session")) (lit "bar") = Some (lit "= 303")
    /\ get (section mc (lit "other")) (lit "bar") = Some (lit "202").
Proof.
  destruct (config_read (fun _ => []) sample_root [sample_section]) as (f & mc & Hf & _ & Hget).
  - repeat (apply Forall_cons_2 || apply Forall_nil_2); concrete_line.
  - apply Forall_cons_2; [|apply Forall_nil_2]. split; [concrete_line|].
    repeat (apply Forall_cons_2 || apply Forall_nil_2); concrete_line.
  - exists mc. split; [exists f; exact (Hf f (le_n f))|]. rewrite !Hget.
    split; [|split]; vm_compute; reflexivity.
Defined.

(** ** Typed values *)

Lemma get_as_get {T} `{FromString T} c key : get_as c key = from_string <$> get c key.
Proof.
  induction c as [m|m p IH]; cbn [get_as get map_]; destruct (m !! key); [done..|]. apply IH.
Qed.

Lemma get_as_default_get {T} `{FromString T} c key dfl :
  get_as_default c key dfl = default dfl (get_as c key).
Proof.
  induction c as [m|m p IH]; cbn [get_as get_as_default map_]; destruct (m !! key); [done..|]. apply IH.
Qed.

Lemma lookup_emplace {A} (m : gmap str A) key v key' :
  emplace m key v !! key' = if decide (key' = key) then Some (default v (m !! key)) else m !! key'.
Proof.
  unfold emplace. destruct (m !! key) eqn:E; case_decide; subst; [done..| |].
  - apply lookup_insert_eq.
  - by apply lookup_insert_ne.
Qed.

Lemma get_set_value c key v key' :
  get (set_value c key v) key'
  = if decide (key' = key) then Some (default v (map_ c !! key)) else get c key'.
Proof.
  destruct c as [m|m p]; cbn [set_value get map_]; rewrite lookup_emplace; by case_decide.
Qed.

(** Setting an integer and reading it back as its type: the configuration answers with
    the integer, whatever its parents say, unless it had the key already, whose value
    it keeps; other keys are not affected. *)
Theorem typed_value_roundtrip (t : itype) (c : Config) (key : str) (n dfl : Z) :
  (0 < bits t <= 64)%Z -> in_itype t n ->
  let c' := set_value c key (to_string n) in
  get_as (H := from_int t) c' key = Some (match map_ c !! key with Some old => ston t old | None => n end)
  /\ forall key', key' <> key ->
       get_as_default (H := from_int t) c' key' dfl = get_as_default (H := from_int t) c key' dfl.
Proof.
  intros Hb Hn c'. rewrite get_as_get. subst c'. rewrite get_set_value, decide_True by done. split.
  - destruct (map_ c !! key); [done|]. cbn [default from_option]. unfold from_string, from_int.
    cbn [fmap option_fmap option_map]. f_equal.
    rewrite <- (app_nil_r (to_string n)). by apply ston_to_string.
  - intros key' Hne. rewrite !get_as_default_get, !get_as_get, get_set_value. by rewrite decide_False.
Qed.

Lemma typed_value_roundtrip_witness :
  let c := ChildConfig ∅ (RootConfig {[ lit "port" := lit "80" ]}) in
  get_as (H := from_int (mkItype 16 false)) (set_value c (lit "port") (to_string 8080)) (lit "port") = Some 8080%Z.
Proof.
  cbv zeta. destruct (typed_value_roundtrip (mkItype 16 false)
    (ChildConfig ∅ (RootConfig {[ lit "port" := lit "80" ]})) (lit "port") 8080 0) as [-> _];
    [cbn; lia | unfold in_itype; cbn; lia | done].
Defined.
