(* ===== verification/StringBuf.v ===== *)
(** * String buffers with a fixed bound

    Models [toolbox/util/StringBuf.hpp]: a buffer holds at most [MaxN] characters,
    and what does not fit is cut off; the comparisons with [compare] of
    [toolbox/util/Compare.hpp]. *)
From S2P Require Import Prelude Text.
#[local] Open Scope Z_scope.

(** The characters in use; the bytes behind them are unspecified. *)
Record StringBuf := mkBuf { data : str }.

Definition size (b : StringBuf) : nat := length (data b).
Definition is_empty (b : StringBuf) : bool := (size b =? 0)%nat.
Definition clear (b : StringBuf) : StringBuf := mkBuf [].

Section ops.
Variable MaxN : nat.

Definition assign (b : StringBuf) (r : str) : StringBuf :=
  let len := Nat.min (length r) MaxN in
  if (0 <? len)%nat then mkBuf (take len r) else mkBuf [].

Definition append (b : StringBuf) (r : str) : StringBuf :=
  let rlen := Nat.min (length r) (MaxN - size b) in
  if (0 <? rlen)%nat then mkBuf (data b ++ take rlen r) else b.
End ops.

(** [memcmp] of the first [n] bytes: the difference of the first that differ. *)
Fixpoint memcmp (n : nat) (a b : str) : Z :=
  match n, a, b with
  | S n, c :: a, d :: b => if code c =? code d then memcmp n a b else code c - code d
  | _, _, _ => 0
  end.

(** [toolbox::compare]. *)
Definition compare3 (a b : Z) : Z := if a <? b then -1 else if b <? a then 1 else 0.

Definition compare (b : StringBuf) (r : str) : Z :=
  let result := memcmp (Nat.min (size b) (length r)) (data b) r in
  if result =? 0 then compare3 (Z.of_nat (size b)) (Z.of_nat (length r)) else result.

(** The operators with a string on the right, and on the left. *)
Definition eq_r b r := compare b r =? 0.
Definition ne_r b r := negb (compare b r =? 0).
Definition lt_r b r := compare b r <? 0.
Definition le_r b r := compare b r <=? 0.
Definition gt_r b r := compare b r >? 0.
Definition ge_r b r := compare b r >=? 0.
Definition eq_l l b := 0 =? compare b l.
Definition ne_l l b := negb (0 =? compare b l).
Definition lt_l l b := 0 <? compare b l.
Definition le_l l b := 0 <=? compare b l.
Definition gt_l l b := 0 >? compare b l.
Definition ge_l l b := 0 >=? compare b l.

(** ** Contents *)

(** A buffer never holds more than its bound, and after any assignments and
    appends its contents are the text assigned last and appended since, cut off at
    the bound. *)
Theorem contents_truncated (MaxN : nat) (r : str) (rs : list str) (b0 : StringBuf) :
  let b := foldl (append MaxN) (assign MaxN b0 r) rs in
  data b = take MaxN (r ++ mjoin rs) /\ (size b <= MaxN)%nat.
Proof.
  cbv zeta. assert (data (assign MaxN b0 r) = take MaxN r) as H0.
  { unfold assign. destruct (Nat.ltb_spec 0 (Nat.min (length r) MaxN)); cbn.
    - destruct (Nat.le_ge_cases (length r) MaxN) as [Hle | Hle];
        [by rewrite (take_ge r MaxN), take_ge by (cbn; lia)|].
      by rewrite Nat.min_r by lia.
    - destruct r; [by rewrite take_nil|]. by (destruct MaxN; [|cbn in *; lia]). }
  assert (forall rs b s, data b = take MaxN s ->
    data (foldl (append MaxN) b rs) = take MaxN (s ++ mjoin rs)) as Hgen.
  { clear. intros rs. induction rs as [|r rs IH]; intros b s Hb; cbn; [by rewrite app_nil_r|].
    rewrite app_assoc. apply IH. unfold append, size. rewrite Hb, length_take.
    destruct (Nat.le_ge_cases MaxN (length s)).
    - replace (Nat.min MaxN (length s)) with MaxN by lia.
      replace (MaxN - MaxN)%nat with 0%nat by lia. rewrite Nat.min_0_r. cbn.
      rewrite Hb, take_app_le by lia. done.
    - replace (Nat.min MaxN (length s)) with (length s) by lia.
      rewrite take_ge by lia. rewrite take_app_ge by lia.
      destruct (Nat.ltb_spec 0 (Nat.min (length r) (MaxN - length s))); cbn.
      + f_equal. destruct (Nat.le_ge_cases (length r) (MaxN - length s)).
        * by rewrite (take_ge r (MaxN - length s)), take_ge by lia.
        * by rewrite Nat.min_r by lia.
      + rewrite Hb, take_ge by lia. destruct r as [|c r]; [by rewrite take_nil, app_nil_r|].
        destruct (MaxN - length s)%nat; [by rewrite app_nil_r | cbn in *; lia]. }
  rewrite (Hgen rs _ r H0). split; [done|]. unfold size. rewrite (Hgen rs _ r H0), length_take. lia.
Qed.

(** ** Order *)

(** The order of strings as sequences of unsigned bytes. *)
Fixpoint str_lt (a b : str) : bool :=
  match a, b with
  | _, [] => false
  | [], _ :: _ => true
  | c :: a, d :: b => (code c <? code d) || ((code c =? code d) && str_lt a b)
  end.

Lemma compare_cons c d a b : 
  compare (mkBuf (c :: a)) (d :: b) = if code c =? code d then compare (mkBuf a) b else code c - code d.
Proof.
  unfold compare, size. cbn [data length Nat.min memcmp].
  destruct (Z.eqb_spec (code c) (code d)) as [E | E].
  - destruct (memcmp _ a b =? 0); [|done]. unfold compare3.
    rewrite !Nat2Z.inj_succ. repeat case_match; zbool; (done || lia).
  - destruct (Z.eqb_spec (code c - code d) 0); [lia | done].
Qed.

Lemma compare_sign a b :
  (compare (mkBuf a) b < 0 <-> str_lt a b = true)
  /\ (compare (mkBuf a) b = 0 <-> a = b)
  /\ (0 < compare (mkBuf a) b <-> str_lt b a = true).
Proof.
  revert b. induction a as [|c a IH]; intros [|d b].
  - cbn. split_and!; split; (done || lia).
  - unfold compare, size, compare3. cbn. split_and!; split; (done || lia).
  - unfold compare, size, compare3. cbn [data length memcmp Nat.min str_lt].
    change (0 =? 0) with true. cbn match.
    destruct (Z.ltb_spec (Z.of_nat (S (length a))) (Z.of_nat 0)); [lia|].
    destruct (Z.ltb_spec (Z.of_nat 0) (Z.of_nat (S (length a)))); [|lia].
    split_and!; split; (done || lia).
  - rewrite compare_cons. cbn [str_lt]. destruct (IH b) as (H1 & H2 & H3).
    destruct (Z.eqb_spec (code c) (code d)) as [E | E].
    + rewrite E, Z.ltb_irrefl, Z.eqb_refl. cbn [orb andb]. apply code_inj in E as ->.
      split; [done|]. split; [|done]. rewrite H2. split; [by intros -> | by intros [= ->]].
    + rewrite (proj2 (Z.eqb_neq (code d) (code c))) by lia. cbn [andb]. rewrite !orb_false_r, !Z.ltb_lt.
      split; [lia|]. split; [|lia]. split; [lia | intros [= -> _]; done].
Qed.

(** The comparison operators of a buffer, with a string on either side, are the
    order of the contents as sequences of unsigned bytes, a prefix being smaller,
    and equality of the contents; the order is total. *)
Theorem operators_are_lexicographic (b : StringBuf) (s : str) :
  eq_r b s = bool_decide (data b = s) /\ ne_r b s = negb (bool_decide (data b = s))
  /\ lt_r b s = str_lt (data b) s /\ gt_r b s = str_lt s (data b)
  /\ le_r b s = negb (str_lt s (data b)) /\ ge_r b s = negb (str_lt (data b) s)
  /\ eq_l s b = bool_decide (data b = s) /\ ne_l s b = negb (bool_decide (data b = s))
  /\ lt_l s b = str_lt s (data b) /\ gt_l s b = str_lt (data b) s
  /\ le_l s b = negb (str_lt (data b) s) /\ ge_l s b = negb (str_lt s (data b))
  /\ (str_lt (data b) s = true \/ data b = s \/ str_lt s (data b) = true).
Proof.
  destruct b as [a]. cbn [data]. destruct (compare_sign a s) as (Hlt & Heq & Hgt).
  unfold eq_r, ne_r, lt_r, gt_r, le_r, ge_r, eq_l, ne_l, lt_l, gt_l, le_l, ge_l.
  rewrite !Z.gtb_ltb, !Z.geb_leb, (Z.eqb_sym 0).
  set (k := compare (mkBuf a) s) in *.
  assert ((k =? 0) = bool_decide (a = s)) as E0.
  { case_bool_decide as H; [apply Z.eqb_eq; tauto | apply Z.eqb_neq; tauto]. }
  assert ((k <? 0) = str_lt a s) as E1
    by (apply eq_true_iff_eq; by rewrite Z.ltb_lt, Hlt).
  assert ((0 <? k) = str_lt s a) as E2
    by (apply eq_true_iff_eq; by rewrite Z.ltb_lt, Hgt).
  rewrite E0, E1, E2, !(Z.leb_antisym), E1, E2. split_and!; try done.
  destruct (Z.lt_trichotomy k 0) as [H | [H | H]]; [left | right; left | right; right]; tauto.
Qed.
