(* ===== verification/Socket.v ===== *)
(** * Asynchronous sockets

    Models the completion slots and the sockets of [toolbox/io/Socket.hpp] (and the
    write queue of the datagram sockets of [toolbox/io/DgramSocket.hpp]) on top of
    the subscriptions of file Epoll: the reads and writes that are pending, the loop
    over ready events with its batched changes, opening and closing.

    The results of the system calls are inputs, in the order in which the calls are
    made; a call for which there is none left would block.  The callbacks of the
    program are arbitrary functions from what completed and the state to the
    operations that they start; they may throw.  How writes are kept differs
    between stream and datagram sockets, so the loop is written against an
    interface with two implementations. *)
From S2P Require Import Prelude Buffer Epoll.

(** ** State *)

Definition EWOULDBLOCK : Z := 11.

(** A callback that is invoked once: the operation was a read or a write. *)
Record completion := mkCompletion { c_read : bool; c_slot : Z; c_size : Z; c_ec : Z }.

(** What can be observed of a socket, in order. *)
Inductive observation :=
| StartedRead (slot : Z)
| StartedWrite (slot : Z) (bytes : list Z) (ep : Z)
| Received (limit flags : Z) (r : Z * Z)
| Sent (bytes : list Z) (flags ep : Z) (r : Z * Z)
| Completed (c : completion).

(** [SocketRead]: the slot, the size of the buffer, the flags. *)
Record SocketRead := mkRead { r_slot : option Z; r_size : Z; r_flags : Z }.

(** A socket with a way of keeping writes. *)
Record State (W : Type) := mkState {
  poll_ : PollHandle;
  epoll : Epoll;
  io_slot_ : option Z;
  rd : SocketRead;
  wr : W;
  recvs : list (Z * Z);
  sends : list (Z * Z);
  log : list observation
}.
Arguments mkState {W}. Arguments poll_ {W}. Arguments epoll {W}. Arguments io_slot_ {W}.
Arguments rd {W}. Arguments wr {W}. Arguments recvs {W}. Arguments sends {W}. Arguments log {W}.

Section state.
Context {W : Type}.
Implicit Types s : State W.

Definition set_rd s r : State W := mkState (poll_ s) (epoll s) (io_slot_ s) r (wr s) (recvs s) (sends s) (log s).
Definition set_wr s (w : W) : State W := mkState (poll_ s) (epoll s) (io_slot_ s) (rd s) w (recvs s) (sends s) (log s).
Definition observe s e : State W :=
  mkState (poll_ s) (epoll s) (io_slot_ s) (rd s) (wr s) (recvs s) (sends s) (log s ++ [e]).

(** An operation on the handle. *)
Definition on_poll (f : PollHandle -> Epoll -> PollHandle * Epoll) s : State W :=
  let '(h, e) := f (poll_ s) (epoll s) in
  mkState h e (io_slot_ s) (rd s) (wr s) (recvs s) (sends s) (log s).

(** [recv] and [write]: the size and the error. *)
Definition sys_recv (limit flags : Z) s : (Z * Z) * State W :=
  let r := default (-1, EWOULDBLOCK) (head (recvs s)) in
  (r, mkState (poll_ s) (epoll s) (io_slot_ s) (rd s) (wr s) (tail (recvs s)) (sends s)
        (log s ++ [Received limit flags r])).
Definition sys_send (bytes : list Z) (flags ep : Z) s : (Z * Z) * State W :=
  let r := default (-1, EWOULDBLOCK) (head (sends s)) in
  (r, mkState (poll_ s) (epoll s) (io_slot_ s) (rd s) (wr s) (recvs s) (tail (sends s))
        (log s ++ [Sent bytes flags ep r])).

Definition would_block (r : Z * Z) : bool := (r.1 <? 0) && (r.2 =? EWOULDBLOCK).
End state.

#[global] Arguments on_poll {W} f s : simpl never.

(** An operation on the handle leaves the rest alone. *)
Section on_poll.
Context {W : Type} (f : PollHandle -> Epoll -> PollHandle * Epoll) (s : State W).
Lemma rd_on_poll : rd (on_poll f s) = rd s.
Proof. unfold on_poll. by destruct (f _ _). Qed.
Lemma wr_on_poll : wr (on_poll f s) = wr s.
Proof. unfold on_poll. by destruct (f _ _). Qed.
Lemma log_on_poll : log (on_poll f s) = log s.
Proof. unfold on_poll. by destruct (f _ _). Qed.
Lemma recvs_on_poll : recvs (on_poll f s) = recvs s.
Proof. unfold on_poll. by destruct (f _ _). Qed.
Lemma sends_on_poll : sends (on_poll f s) = sends s.
Proof. unfold on_poll. by destruct (f _ _). Qed.
End on_poll.

(** ** Programs *)

(** What a program or a callback does with a socket. *)
Inductive action :=
| AsyncRead (slot size flags : Z)
| AsyncWrite (slot : Z) (bytes : list Z) (ep : Z)
| Close
| Throw.

(** How a completion step ended. *)
Inductive status := Blocked | Completing | Threw.

(** The writes of a socket: is one pending, start one (or throw), complete. *)
Class WriteImpl (W : Type) := {
  w_pending : W -> bool;
  w_start : Z -> list Z -> Z -> State W -> State W * bool;
  w_complete : (completion -> State W -> State W * bool) -> nat -> State W -> option (State W * status)
}.

Section socket.
Context {W : Type} `{WriteImpl W}.
Implicit Types s : State W.

(** *** Reads *)

Definition r_pending (r : SocketRead) : bool := match r_slot r with Some _ => true | None => false end.

(** [SocketRead::reset] keeps the buffer. *)
Definition reset_read (r : SocketRead) : SocketRead := mkRead None (r_size r) 0.

(** [SocketRead::prepare]; the flag says whether it throws. *)
Definition prepare_read (slot size : Z) s : State W * bool :=
  if r_pending (rd s) then (s, true)
  else
    let s := set_rd s (mkRead (Some slot) size (r_flags (rd s))) in
    let s := on_poll (add EvRead) s in
    (on_poll (commit false) s, false).

(** [async_recv] sets the flags first; [async_read] is the case of no flags. *)
Definition async_recv (slot size flags : Z) s : State W * bool :=
  let s := set_rd s (mkRead (r_slot (rd s)) (r_size (rd s)) flags) in
  let '(s, threw) := prepare_read slot size s in
  (if threw then s else observe s (StartedRead slot), threw).

Definition async_write (slot : Z) (bytes : list Z) (ep : Z) s : State W * bool :=
  let '(s, threw) := w_start slot bytes ep s in
  (if threw then s else observe s (StartedWrite slot bytes ep), threw).

(** [close]: the descriptor itself is closed by the base class. *)
Definition close s : State W := on_poll reset s.

Definition act (a : action) s : State W * bool :=
  match a with
  | AsyncRead slot size flags => async_recv slot size flags s
  | AsyncWrite slot bytes ep => async_write slot bytes ep s
  | Close => (close s, false)
  | Throw => (s, true)
  end.

Fixpoint run_actions (acts : list action) s : State W * bool :=
  match acts with
  | [] => (s, false)
  | a :: acts => let '(s, threw) := act a s in if threw then (s, true) else run_actions acts s
  end.

(** *** Completion *)

Variable callback : completion -> State W -> list action.

Definition invoke (c : completion) s : State W * bool :=
  let s := observe s (Completed c) in run_actions (callback c s) s.

(** [SocketRead::complete]. *)
Definition read_complete s : State W * status :=
  let '((size, ec), s) := sys_recv (r_size (rd s)) (r_flags (rd s)) s in
  if would_block (size, ec) then (on_poll (add EvRead) s, Blocked)
  else
    let slot := default 0 (r_slot (rd s)) in
    let s := set_rd s (reset_read (rd s)) in
    let '(s, threw) := invoke (mkCompletion true slot size ec) s in
    if threw then (s, Threw)
    else ((if r_pending (rd s) then s else on_poll (del EvRead) s), Completing).

(** [while(read_impl())]: the state, the events that are left, whether there was
    some interest, whether a callback threw. *)
Fixpoint read_loop (fuel : nat) s (events : Z) (again : bool) : option (State W * Z * bool * bool) :=
  if r_pending (rd s) then
    match fuel with
    | O => None
    | S fuel =>
        match read_complete s with
        | (s, Threw) => Some (s, events, again, true)
        | (s, Blocked) => Some (s, ev_sub events EvRead, again, false)
        | (s, Completing) => read_loop fuel s events true
        end
    end
  else Some (s, events, again, false).

Fixpoint write_loop (fuel : nat) s (events : Z) (again : bool) : option (State W * Z * bool * bool) :=
  if w_pending (wr s) then
    match fuel with
    | O => None
    | S fuel =>
        match w_complete invoke fuel s with
        | None => None
        | Some (s, Threw) => Some (s, events, again, true)
        | Some (s, Blocked) => Some (s, ev_sub events EvWrite, again, false)
        | Some (s, Completing) => write_loop fuel s events true
        end
    end
  else Some (s, events, again, false).

(** The loop of [on_io_event], with at most [rounds] rounds. *)
Fixpoint io_rounds (rounds fuel : nat) s (events : Z) : option (State W * bool) :=
  match rounds with
  | O => Some (s, false)
  | S rounds =>
      match (if has events EvRead then read_loop fuel s events false
             else Some (s, events, false, false)) with
      | None => None
      | Some (s, _, _, true) => Some (s, true)
      | Some (s, events, again, false) =>
          match (if has events EvWrite then write_loop fuel s events again
                 else Some (s, events, again, false)) with
          | None => None
          | Some (s, _, _, true) => Some (s, true)
          | Some (s, events, again, false) =>
              if negb again || negb (has events (Z.lor EvRead EvWrite)) then Some (s, false)
              else io_rounds rounds fuel s events
          end
      end
  end.

Definition MaxRounds : nat := 64.

(** [on_io_event]: a callback that throws leaves it before the end. *)
Definition on_io_event (fuel : nat) (events : Z) s : option (State W * bool) :=
  let old_batching := has (flags_ (poll_ s)) BatchCtl in
  let s := on_poll (fun h e => (batching true h, e)) s in
  match io_rounds MaxRounds fuel s events with
  | None => None
  | Some (s, true) => Some (s, true)
  | Some (s, false) =>
      Some (on_poll (commit true) (on_poll (fun h e => (batching old_batching h, e)) s), false)
  end.

(** *** Opening *)

(** [io_slot]: the slot of the handle is set when it is another one. *)
Definition set_io_slot (slot : Z) s : State W :=
  if bool_decide (io_slot_ s = Some slot) then s
  else
    let s := mkState (poll_ s) (epoll s) (Some slot) (rd s) (wr s) (recvs s) (sends s) (log s) in
    on_poll (mod_slot (Some slot)) s.

(** [open]: the handle is replaced (the assignment resets the old one and does not
    move the flags), then its slot is set. *)
Definition open (fd slot : Z) s : State W :=
  let s := on_poll (fun h e => let '(h, e) := reset h e in (mkHandle (mkPollFD fd 0 0 None) (flags_ h), e)) s in
  set_io_slot slot s.
End socket.

(** ** Writes of a stream socket *)

(** The data of a write: bytes, or a size and the function that fills the buffer. *)
Inductive write_data := Plain (bytes : list Z) | Mut (size : Z) (fill : Z -> list Z) | NoData.

Record SocketWrite := mkWrite {
  w_slot : option Z;
  w_data : write_data;
  w_flags : Z;
  w_buf : Buffer.Buffer
}.

Definition write_pending (w : SocketWrite) : bool := match w_slot w with Some _ => true | None => false end.

(** [SocketWrite::prepare] and the one without a copy, which differ in the data;
    the flags are set first. *)
Definition prepare_write (slot : Z) (d : write_data) (s : State SocketWrite) : State SocketWrite * bool :=
  let s := set_wr s (mkWrite (w_slot (wr s)) (w_data (wr s)) 0 (w_buf (wr s))) in
  if write_pending (wr s) then (s, true)
  else
    let s := set_wr s (mkWrite (Some slot) d (w_flags (wr s)) (w_buf (wr s))) in
    (on_poll (add EvWrite) s, false).

(** [SocketWrite::complete]. *)
Definition write_complete (invoke : completion -> State SocketWrite -> State SocketWrite * bool)
    (s : State SocketWrite) : State SocketWrite * status :=
  let w := wr s in
  let '(bytes, s) :=
    match w_data w with
    | Mut size fill =>
        let '(r, b) := Buffer.prepare size (w_buf w) in
        let bytes := fill (Buffer.region_size r) in
        (bytes, set_wr s (mkWrite (w_slot w) (w_data w) (w_flags w) (Buffer.store r bytes b)))
    | Plain bytes => (bytes, s)
    | NoData => ([], s)
    end in
  let '((size, ec), s) := sys_send bytes (w_flags (wr s)) 0 s in
  if would_block (size, ec) then (on_poll (add EvWrite) s, Blocked)
  else
    let slot := default 0 (w_slot (wr s)) in
    let s := set_wr s (mkWrite None NoData 0 (w_buf (wr s))) in
    let '(s, threw) := invoke (mkCompletion false slot size ec) s in
    if threw then (s, Threw)
    else ((if write_pending (wr s) then s else on_poll (del EvWrite) s), Completing).

#[export] Instance stream_writes : WriteImpl SocketWrite := {
  w_pending := write_pending;
  w_start slot bytes _ s := prepare_write slot (Plain bytes) s;
  w_complete invoke _ s := Some (write_complete invoke s)
}.

(** ** Writes of a datagram socket *)

(** An operation of the queue: its slot, size, destination and flags. *)
Record WriteOp := mkOp { o_slot : option Z; o_size : Z; o_ep : option Z; o_flags : Z }.

(** [SocketWriteQueue]: the operations, and the bytes of all of them. *)
Record SocketWriteQueue := mkQueue { queue_ : list WriteOp; wbuf_ : Buffer.Buffer; next_ : WriteOp }.

Definition empty_op : WriteOp := mkOp None 0 None 0.

Definition queue_pending (q : SocketWriteQueue) : bool := match queue_ q with [] => false | _ => true end.

(** [prepare] copies the bytes; the destination was set on the next operation by
    [async_sendto]. *)
Definition queue_prepare (slot : Z) (bytes : list Z) (ep : Z) (s : State SocketWriteQueue)
    : State SocketWriteQueue * bool :=
  let q := wr s in
  let next := mkOp (o_slot (next_ q)) (o_size (next_ q)) (Some ep) (o_flags (next_ q)) in
  let s := set_wr s (mkQueue (queue_ q) (wbuf_ q) next) in
  match o_slot next with
  | Some _ => (s, true)
  | None =>
      let sz := Z.of_nat (length bytes) in
      let op := mkOp (Some slot) sz (o_ep next) (o_flags next) in
      let s := on_poll (add EvWrite) s in
      let '(r, b) := Buffer.prepare sz (wbuf_ q) in
      let b := Buffer.commit sz (Buffer.store r bytes b) in
      (set_wr s (mkQueue (queue_ q ++ [op]) b empty_op), false)
  end.

(** [complete]: operations from the front until one would block.  An operation
    without a destination or a slot would dereference a null pointer or call a null
    function: there is no result. *)
Fixpoint queue_complete (invoke : completion -> State SocketWriteQueue -> State SocketWriteQueue * bool)
    (fuel : nat) (s : State SocketWriteQueue) : option (State SocketWriteQueue * status) :=
  match queue_ (wr s) with
  | [] => Some (s, Completing)
  | op :: rest =>
      match fuel with
      | O => None
      | S fuel =>
          match o_ep op with
          | None => None
          | Some ep =>
              let sz := o_size op in
              let bytes := take (Z.to_nat sz) (Buffer.str (wbuf_ (wr s))) in
              let '((size, ec), s) := sys_send bytes (o_flags op) ep s in
              if would_block (size, ec) then Some (on_poll (add EvWrite) s, Blocked)
              else
                match o_slot op with
                | None => None
                | Some slot =>
                    let s := set_wr s (mkQueue (empty_op :: rest) (wbuf_ (wr s)) (next_ (wr s))) in
                    let '(s, threw) := invoke (mkCompletion false slot size ec) s in
                    if threw then Some (s, Threw)
                    else
                      let s := on_poll (del EvWrite) s in
                      let s := set_wr s (mkQueue (tail (queue_ (wr s)))
                                           (Buffer.consume sz (wbuf_ (wr s))) (next_ (wr s))) in
                      queue_complete invoke fuel s
                end
          end
      end
  end.

#[export] Instance datagram_writes : WriteImpl SocketWriteQueue := {
  w_pending := queue_pending;
  w_start := queue_prepare;
  w_complete := queue_complete
}.

(** ** Sessions *)

Inductive step := Act (a : action) | Event (events : Z) | Open (fd slot : Z).

Definition run_step {W} `{WriteImpl W} (fuel : nat) (callback : completion -> State W -> list action)
    (st : step) (s : State W) : option (State W) :=
  match st with
  | Act a => Some (act a s).1
  | Event events => fst <$> on_io_event callback fuel events s
  | Open fd slot => Some (open fd slot s)
  end.

Fixpoint run {W} `{WriteImpl W} (fuel : nat) (callback : completion -> State W -> list action)
    (steps : list step) (s : State W) : option (State W) :=
  match steps with
  | [] => Some s
  | st :: steps => s ← run_step fuel callback st s; run fuel callback steps s
  end.

(** ** The protocol of reads *)

Inductive rstate := RIdle | RPending (slot : Z) | RReady (slot size ec : Z).

(** Which observations may follow: a read is started when none is pending, received
    for until a call does not block, and completed once, with the slot that it was
    started with and the result of that call. *)
Definition read_spec (st : rstate) (o : observation) : option rstate :=
  match o with
  | StartedRead slot => match st with RIdle => Some (RPending slot) | _ => None end
  | Received _ _ r =>
      match st with
      | RPending slot => Some (if would_block r then st else RReady slot r.1 r.2)
      | _ => None
      end
  | Completed c =>
      if c_read c then
        match st with
        | RReady slot size ec =>
            if bool_decide ((c_slot c, c_size c, c_ec c) = (slot, size, ec)) then Some RIdle else None
        | _ => None
        end
      else Some st
  | StartedWrite _ _ _ | Sent _ _ _ _ => Some st
  end.

Definition run_spec {S} (spec : S -> observation -> option S) (st : S) (l : list observation) : option S :=
  foldl (fun st o => st ← st; spec st o) (Some st) l.

Lemma run_spec_snoc {S} (spec : S -> observation -> option S) st l o :
  run_spec spec st (l ++ [o]) = (st ← run_spec spec st l; spec st o).
Proof. unfold run_spec. by rewrite foldl_app. Qed.

Definition rstate_of (r : SocketRead) : rstate :=
  match r_slot r with Some slot => RPending slot | None => RIdle end.
Definition reads_ok {W} (s : State W) : Prop := run_spec read_spec RIdle (log s) = Some (rstate_of (rd s)).

(** What an implementation of writes leaves alone. *)
Class WriteReads (W : Type) `{WriteImpl W} := {
  w_start_reads slot bytes ep s : reads_ok s -> reads_ok (w_start slot bytes ep s).1;
  w_complete_reads invoke fuel s s' st :
    (forall c s, c_read c = false -> reads_ok s -> reads_ok (invoke c s).1) ->
    reads_ok s -> w_complete invoke fuel s = Some (s', st) -> reads_ok s'
}.

Section reads.
Context {W : Type} `{WriteReads W}.
Implicit Types s : State W.

Lemma on_poll_reads f s : reads_ok s -> reads_ok (on_poll f s).
Proof. unfold reads_ok. by rewrite log_on_poll, rd_on_poll. Qed.

Lemma observe_reads s o st : reads_ok s -> read_spec (rstate_of (rd s)) o = Some st ->
  run_spec read_spec RIdle (log (observe s o)) = Some st.
Proof. unfold reads_ok. intros Hs Ho. cbn [log observe]. rewrite run_spec_snoc, Hs. exact Ho. Qed.

Lemma async_recv_reads slot size flags s : reads_ok s -> reads_ok (async_recv slot size flags s).1.
Proof.
  intros Hs. unfold async_recv, prepare_read. cbn [rd set_rd]. unfold r_pending. cbn [r_slot].
  destruct (r_slot (rd s)) eqn:E; cbn [fst]; [unfold reads_ok, rstate_of in *; cbn; by rewrite E in *|].
  unfold reads_ok. cbn [log rd observe]. rewrite !log_on_poll, !rd_on_poll. cbn [log rd set_rd].
  rewrite run_spec_snoc, Hs. unfold rstate_of. by rewrite E.
Qed.

Lemma async_write_reads slot bytes ep s : reads_ok s -> reads_ok (async_write slot bytes ep s).1.
Proof.
  intros Hs. unfold async_write. pose proof (w_start_reads slot bytes ep s Hs) as Hw.
  destruct (w_start slot bytes ep s) as [s' threw]. cbn [fst] in *. destruct threw; [done|].
  by apply (observe_reads s').
Qed.

Lemma act_reads a s : reads_ok s -> reads_ok (act a s).1.
Proof.
  intros Hs. destruct a; cbn [act fst]; [by apply async_recv_reads | by apply async_write_reads | | done].
  by apply on_poll_reads.
Qed.

Lemma run_actions_reads acts s : reads_ok s -> reads_ok (run_actions acts s).1.
Proof.
  revert s. induction acts as [|a acts IH]; intros s Hs; [done|]. cbn [run_actions].
  pose proof (act_reads a s Hs) as Ha. destruct (act a s) as [s' threw]. cbn [fst] in Ha.
  destruct threw; [done|]. by apply IH.
Qed.

Variable callback : completion -> State W -> list action.

Lemma invoke_reads c s : c_read c = false -> reads_ok s -> reads_ok (invoke callback c s).1.
Proof.
  intros Hc Hs. apply run_actions_reads. apply (observe_reads s); [done|]. cbn. by rewrite Hc.
Qed.

Lemma read_complete_reads s : r_pending (rd s) = true -> reads_ok s -> reads_ok (read_complete callback s).1.
Proof.
  intros Hp Hs. unfold r_pending in Hp. destruct (r_slot (rd s)) as [slot|] eqn:E; [|done].
  unfold read_complete, sys_recv. destruct (default _ _) as [size ec].
  set (s1 := mkState _ _ _ _ _ _ _ _).
  assert (run_spec read_spec RIdle (log s1)
          = Some (if would_block (size, ec) then RPending slot else RReady slot size ec)) as H1.
  { cbn [log s1]. rewrite run_spec_snoc, Hs. unfold rstate_of. rewrite E. cbn. by destruct (would_block _). }
  destruct (would_block (size, ec)).
  - apply on_poll_reads. unfold reads_ok. rewrite H1. unfold rstate_of. cbn. by rewrite E.
  - cbn [rd s1]. rewrite E. cbn [default from_option]. set (s2 := set_rd s1 _).
    assert (reads_ok (observe s2 (Completed (mkCompletion true slot size ec)))) as H2.
    { unfold reads_ok. cbn [log observe s2 set_rd rd]. rewrite run_spec_snoc, H1. cbn.
      by rewrite bool_decide_true. }
    unfold invoke. pose proof (run_actions_reads (callback (mkCompletion true slot size ec)
      (observe s2 (Completed (mkCompletion true slot size ec)))) _ H2) as H3.
    destruct (run_actions _ _) as [s3 threw]. cbn [fst] in *. destruct threw; [done|].
    destruct (r_pending (rd s3)); [done|]. by apply on_poll_reads.
Qed.

Lemma read_loop_reads fuel s events again r :
  reads_ok s -> read_loop callback fuel s events again = Some r -> reads_ok r.1.1.1.
Proof.
  revert s events again. induction fuel as [|fuel IH]; intros s events again Hs Hr; cbn [read_loop] in Hr;
    destruct (r_pending (rd s)) eqn:E; try done; try (by injection Hr as <-).
  pose proof (read_complete_reads s E Hs) as Hc.
  destruct (read_complete callback s) as [s' []]; cbn [fst] in Hc;
    [by injection Hr as <- | by apply (IH s' events true) | by injection Hr as <-].
Qed.

Lemma write_loop_reads fuel s events again r :
  reads_ok s -> write_loop callback fuel s events again = Some r -> reads_ok r.1.1.1.
Proof.
  revert s events again. induction fuel as [|fuel IH]; intros s events again Hs Hr; cbn [write_loop] in Hr;
    destruct (w_pending (wr s)); try done; try (by injection Hr as <-).
  destruct (w_complete _ fuel s) as [[s' st]|] eqn:E; [|done].
  pose proof (w_complete_reads _ _ _ _ _ invoke_reads Hs E) as Hc.
  destruct st; [by injection Hr as <- | by apply (IH s' events true) | by injection Hr as <-].
Qed.

Lemma io_rounds_reads rounds fuel s events r :
  reads_ok s -> io_rounds callback rounds fuel s events = Some r -> reads_ok r.1.
Proof.
  revert s events. induction rounds as [|rounds IH]; intros s events Hs Hr; cbn [io_rounds] in Hr.
  { by injection Hr as <-. }
  destruct (if has events EvRead then _ else _) as [[[[s1 ev1] ag1] th1]|] eqn:E1; [|done].
  assert (reads_ok s1) as H1.
  { destruct (has events EvRead); [by apply (read_loop_reads _ _ _ _ _ Hs) in E1 | by injection E1 as <-]. }
  destruct th1; [by injection Hr as <-|].
  destruct (if has ev1 EvWrite then _ else _) as [[[[s2 ev2] ag2] th2]|] eqn:E2; [|done].
  assert (reads_ok s2) as H2.
  { destruct (has ev1 EvWrite); [by apply (write_loop_reads _ _ _ _ _ H1) in E2 | by injection E2 as <-]. }
  destruct th2; [by injection Hr as <-|].
  destruct (_ || _); [by injection Hr as <-|]. by apply (IH s2 ev2).
Qed.

Lemma run_step_reads fuel st s s' : reads_ok s -> run_step fuel callback st s = Some s' -> reads_ok s'.
Proof.
  intros Hs Hr. destruct st as [a | events | fd slot]; cbn [run_step] in Hr.
  - injection Hr as <-. by apply act_reads.
  - unfold on_io_event in Hr. destruct (io_rounds _ _ _ _ _) as [[s1 threw]|] eqn:E; [|done].
    apply io_rounds_reads in E; [|by apply on_poll_reads]. cbn [fst] in E.
    destruct threw; injection Hr as <-; [done|]. by do 2 apply on_poll_reads.
  - injection Hr as <-. unfold open, set_io_slot. case_bool_decide; [by apply on_poll_reads|].
    apply on_poll_reads. unfold reads_ok in *. cbn. by rewrite log_on_poll, rd_on_poll.
Qed.

Lemma run_reads fuel steps s s' : reads_ok s -> run fuel callback steps s = Some s' -> reads_ok s'.
Proof.
  revert s. induction steps as [|st steps IH]; intros s Hs Hr; cbn [run] in Hr; [by injection Hr as <-|].
  destruct (run_step fuel callback st s) as [s1|] eqn:E; [|done].
  apply (IH s1); [by eapply run_step_reads | done].
Qed.
End reads.

Lemma set_wr_reads {W} (s : State W) w : reads_ok s -> reads_ok (set_wr s w).
Proof. done. Qed.

Lemma sys_send_reads {W} bytes flags ep (s : State W) : reads_ok s -> reads_ok (sys_send bytes flags ep s).2.
Proof. intros Hs. unfold reads_ok. cbn [log rd sys_send snd]. by rewrite run_spec_snoc, Hs. Qed.

#[export] Instance stream_reads : WriteReads SocketWrite.
Proof.
  split.
  - intros slot bytes ep s Hs. cbn. unfold prepare_write. destruct (write_pending _); [done|].
    by apply on_poll_reads.
  - intros invoke fuel s s' st Hinv Hs Hw. cbn in Hw. injection Hw as Hw. unfold write_complete in Hw.
    set (p := match w_data (wr s) with Mut _ _ => _ | _ => _ end) in Hw.
    assert (reads_ok p.2) as Hp.
    { unfold p. destruct (w_data (wr s)); [done | | done]. by destruct (Buffer.prepare _ _). }
    destruct p as [bytes s1]. cbn [snd] in Hp.
    pose proof (sys_send_reads bytes (w_flags (wr s1)) 0 s1 Hp) as Hq.
    destruct (sys_send bytes (w_flags (wr s1)) 0 s1) as [[size ec] s2]. cbn [snd] in Hq.
    destruct (would_block (size, ec)); [injection Hw as <- _; by apply on_poll_reads|].
    match type of Hw with context [invoke ?c ?t] =>
      pose proof (Hinv c t eq_refl (set_wr_reads _ _ Hq)) as Hi; destruct (invoke c t) as [s3 threw] end.
    cbn [fst] in Hi. destruct threw; [by injection Hw as <- _|].
    destruct (write_pending (wr s3)); injection Hw as <- _; [done | by apply on_poll_reads].
Qed.

#[export] Instance datagram_reads : WriteReads SocketWriteQueue.
Proof.
  split.
  - intros slot bytes ep s Hs. cbn. unfold queue_prepare. cbn [o_slot]. destruct (o_slot _); [done|].
    destruct (Buffer.prepare _ _). by apply set_wr_reads, on_poll_reads.
  - intros invoke fuel s s' st Hinv. revert s. induction fuel as [|fuel IH]; intros s Hs Hw;
      cbn [w_complete datagram_writes queue_complete] in Hw;
      (destruct (queue_ (wr s)) as [|op rest] eqn:Eq; [by injection Hw as <- _|]); [done|].
    destruct (o_ep op) as [ep|]; [|done].
    match type of Hw with context [sys_send ?b ?f ?e ?t] =>
      pose proof (sys_send_reads b f e t Hs) as Hq; destruct (sys_send b f e t) as [[size ec] s2] end.
    cbn [snd] in Hq. destruct (would_block (size, ec)); [injection Hw as <- _; by apply on_poll_reads|].
    destruct (o_slot op) as [slot|]; [|done].
    match type of Hw with context [invoke ?c ?t] =>
      pose proof (Hinv c t eq_refl (set_wr_reads _ _ Hq)) as Hi; destruct (invoke c t) as [s3 threw] end.
    cbn [fst] in Hi. destruct threw; [by injection Hw as <- _|].
    apply (IH _ (set_wr_reads _ _ (on_poll_reads _ _ Hi)) Hw).
Qed.

(** ** Stream sockets terminate *)

Section total.
Implicit Types s : State SocketWrite.
Variable callback : completion -> State SocketWrite -> list action.

(** The results that are left bound the completions. *)
Definition budget s : nat := (length (recvs s) + length (sends s))%nat.

Lemma budget_on_poll f s : budget (on_poll f s) = budget s.
Proof. unfold budget. by rewrite recvs_on_poll, sends_on_poll. Qed.

Lemma act_budget a s : recvs (act a s).1 = recvs s /\ sends (act a s).1 = sends s.
Proof.
  destruct a as [slot size flags | slot bytes ep | |]; cbn [act fst]; [| | |done].
  - unfold async_recv, prepare_read. destruct (r_pending _); [done|]. cbn [fst].
    unfold observe. cbn [recvs sends]. by rewrite !recvs_on_poll, !sends_on_poll.
  - unfold async_write. cbn. unfold prepare_write. destruct (write_pending _); [done|]. cbn.
    by rewrite recvs_on_poll, sends_on_poll.
  - unfold close. by rewrite recvs_on_poll, sends_on_poll.
Qed.

Lemma run_actions_budget acts s :
  recvs (run_actions acts s).1 = recvs s /\ sends (run_actions acts s).1 = sends s.
Proof.
  revert s. induction acts as [|a acts IH]; intros s; [done|]. cbn [run_actions].
  destruct (act_budget a s) as [H1 H2]. destruct (act a s) as [s' []]; cbn [fst] in *; [done|].
  destruct (IH s') as [H3 H4]. by rewrite H3, H4.
Qed.

(** A completion step blocks when there is no result, and uses one up otherwise. *)
Lemma read_complete_budget s : let '(s', st) := read_complete callback s in
  (budget s' <= budget s)%nat /\ (st = Completing -> budget s' < budget s)%nat.
Proof.
  unfold read_complete, sys_recv, budget.
  destruct (recvs s) as [|[size ec] rs] eqn:E; cbn [head default from_option tail id].
  - cbn. rewrite recvs_on_poll, sends_on_poll. cbn. split; [lia | done].
  - destruct (would_block (size, ec)); cbn [recvs sends];
      [rewrite recvs_on_poll, sends_on_poll; cbn; split; [lia | done]|].
    unfold invoke. match goal with |- context [run_actions ?a ?t] =>
      destruct (run_actions_budget a t) as [H1 H2]; destruct (run_actions a t) as [s3 []] end;
      cbn [fst] in *; cbn in H1, H2; [rewrite H1, H2; cbn; split; [lia | done]|].
    destruct (r_pending (rd s3)); rewrite ?recvs_on_poll, ?sends_on_poll, H1, H2; cbn; split; lia.
Qed.

Lemma write_complete_budget s : let '(s', st) := write_complete (invoke callback) s in
  (budget s' <= budget s)%nat /\ (st = Completing -> budget s' < budget s)%nat.
Proof.
  unfold write_complete.
  set (p := match w_data (wr s) with Mut _ _ => _ | _ => _ end).
  assert (recvs p.2 = recvs s /\ sends p.2 = sends s) as [Hr Hs].
  { unfold p. destruct (w_data (wr s)); [done | | done]. by destruct (Buffer.prepare _ _). }
  destruct p as [bytes s1]. cbn [snd] in *. unfold sys_send, budget. rewrite <- Hr, <- Hs.
  destruct (sends s1) as [|[size ec] rs] eqn:E; cbn [head default from_option tail id].
  - cbn. rewrite recvs_on_poll, sends_on_poll. cbn. split; [lia | done].
  - destruct (would_block (size, ec)); cbn [recvs sends];
      [rewrite recvs_on_poll, sends_on_poll; cbn; split; [lia | done]|].
    unfold invoke. match goal with |- context [run_actions ?a ?t] =>
      destruct (run_actions_budget a t) as [H1 H2]; destruct (run_actions a t) as [s3 []] end;
      cbn [fst] in *; cbn in H1, H2; [rewrite H1, H2; cbn; split; [lia | done]|].
    destruct (write_pending (wr s3)); rewrite ?recvs_on_poll, ?sends_on_poll, H1, H2; cbn; split; lia.
Qed.

Lemma read_loop_total fuel s events again : (budget s < fuel)%nat ->
  exists s' ev ag th, read_loop callback fuel s events again = Some (s', ev, ag, th)
    /\ (budget s' <= budget s)%nat.
Proof.
  revert s again. induction fuel as [|fuel IH]; intros s again Hf; [lia|]. cbn [read_loop].
  destruct (r_pending (rd s)); [|by eauto 10]. pose proof (read_complete_budget s) as Hc.
  destruct (read_complete callback s) as [s' []]; destruct Hc as [Hle Hlt]; [by eauto 10 | | by eauto 10].
  specialize (Hlt eq_refl). destruct (IH s' true ltac:(lia)) as (s2 & ev & ag & th & -> & Hb).
  exists s2, ev, ag, th. split; [done | lia].
Qed.

Lemma write_loop_total fuel s events again : (budget s < fuel)%nat ->
  exists s' ev ag th, write_loop callback fuel s events again = Some (s', ev, ag, th)
    /\ (budget s' <= budget s)%nat.
Proof.
  revert s again. induction fuel as [|fuel IH]; intros s again Hf; [lia|].
  cbn [write_loop w_pending w_complete stream_writes].
  destruct (write_pending (wr s)); [|by eauto 10]. pose proof (write_complete_budget s) as Hc.
  destruct (write_complete (invoke callback) s) as [s' []]; destruct Hc as [Hle Hlt]; [by eauto 10 | | by eauto 10].
  specialize (Hlt eq_refl). destruct (IH s' true ltac:(lia)) as (s2 & ev & ag & th & -> & Hb).
  exists s2, ev, ag, th. split; [done | lia].
Qed.

Lemma io_rounds_total rounds fuel s events : (budget s < fuel)%nat ->
  exists s' th, io_rounds callback rounds fuel s events = Some (s', th) /\ (budget s' <= budget s)%nat.
Proof.
  revert s events. induction rounds as [|rounds IH]; intros s events Hf; cbn [io_rounds]; [by eauto|].
  assert (exists s1 ev ag th, (if has events EvRead then read_loop callback fuel s events false
      else Some (s, events, false, false)) = Some (s1, ev, ag, th) /\ (budget s1 <= budget s)%nat)
    as (s1 & ev1 & ag1 & th1 & -> & H1).
  { destruct (has events EvRead); [by apply read_loop_total | by eauto 10]. }
  destruct th1; [by eauto|].
  assert (exists s2 ev ag th, (if has ev1 EvWrite then write_loop callback fuel s1 ev1 ag1
      else Some (s1, ev1, ag1, false)) = Some (s2, ev, ag, th) /\ (budget s2 <= budget s1)%nat)
    as (s2 & ev2 & ag2 & th2 & -> & H2).
  { destruct (has ev1 EvWrite); [apply write_loop_total; lia | by eauto 10]. }
  destruct th2; [exists s2, true; split; [done | lia]|].
  destruct (_ || _); [exists s2, false; split; [done | lia]|].
  destruct (IH s2 ev2 ltac:(lia)) as (s' & th & -> & H3). exists s', th. split; [done | lia].
Qed.

Lemma run_step_total fuel st s : (budget s < fuel)%nat ->
  exists s', run_step fuel callback st s = Some s' /\ (budget s' <= budget s)%nat.
Proof.
  intros Hf. destruct st as [a | events | fd slot]; cbn [run_step].
  - eexists. split; [reflexivity|]. unfold budget. destruct (act_budget a s) as [-> ->]. lia.
  - unfold on_io_event.
    destruct (io_rounds_total MaxRounds fuel (on_poll (fun h e => (batching true h, e)) s) events)
      as (s' & th & -> & Hb); [by rewrite budget_on_poll|]. rewrite budget_on_poll in Hb.
    destruct th; eexists; (split; [reflexivity|]); cbn [fst]; [done|]. by rewrite !budget_on_poll.
  - eexists. split; [reflexivity|]. unfold open, set_io_slot.
    case_bool_decide; rewrite budget_on_poll; [done|]. unfold budget. cbn.
    by rewrite recvs_on_poll, sends_on_poll.
Qed.

Lemma run_total fuel steps s : (budget s < fuel)%nat -> exists s', run fuel callback steps s = Some s'.
Proof.
  revert s. induction steps as [|st steps IH]; intros s Hf; cbn [run]; [by eauto|].
  destruct (run_step_total fuel st s Hf) as (s1 & -> & H1). apply IH. lia.
Qed.
End total.

(** ** Properties of reads *)

(** A socket that has not been used, on a poller. *)
Definition new_read : SocketRead := mkRead None 0 0.
Definition new_socket {W} (e : Epoll) (w : W) (rs ss : list (Z * Z)) : State W :=
  mkState (mkHandle default_pollfd 0) e None new_read w rs ss [].
(** The constructor with a reactor: the handle gets the poller of the descriptor, but
    not the descriptor itself, which stays that of a handle without one: zero. *)
Definition construct {W} (slot : Z) (e : Epoll) (w : W) (rs ss : list (Z * Z)) : State W :=
  set_io_slot slot (new_socket e w rs ss).
Definition new_queue : SocketWriteQueue := mkQueue [] Buffer.new_buffer empty_op.
Definition new_write : SocketWrite := mkWrite None NoData 0 Buffer.new_buffer.

(** C8: For a stream socket, in every session of opening, closing, asynchronous
    operations and ready events, with arbitrary callbacks (that may start operations,
    close the socket and throw) and arbitrary results of the system calls: every
    step returns, and reads follow the protocol: one is started only when none is
    pending, the call is made only while one is pending and again as long as it
    would block, and each read is completed once, with the slot that it was started
    with and with the result of the call that did not block. *)
Theorem stream_reads_protocol (e : Epoll) (rs ss : list (Z * Z))
    (callback : completion -> State SocketWrite -> list action) (steps : list step) (fuel : nat) :
  (length rs + length ss < fuel)%nat ->
  exists s, run fuel callback steps (new_socket e new_write rs ss) = Some s
    /\ run_spec read_spec RIdle (log s) = Some (rstate_of (rd s)).
Proof.
  intros Hf. destruct (run_total callback fuel steps (new_socket e new_write rs ss)) as [s Hs]; [exact Hf|].
  exists s. split; [done|]. by apply (run_reads callback fuel steps (new_socket e new_write rs ss)).
Qed.

Definition echo_reads (c : completion) (s : State SocketWrite) : list action :=
  if c_size c =? 0 then [Close] else [AsyncRead (c_slot c) 100 0].

Lemma stream_reads_protocol_witness :
  exists s, run 4 echo_reads [Open 5 1; Act (AsyncRead 7 100 0); Event EvRead; Event EvRead]
              (new_socket (make_epoll 3 4 8) new_write [(10, 0); (-1, EWOULDBLOCK); (0, 0)] []) = Some s
    /\ run_spec read_spec RIdle (log s) = Some (rstate_of (rd s)).
Proof.
  apply (stream_reads_protocol (make_epoll 3 4 8) [(10, 0); (-1, EWOULDBLOCK); (0, 0)] [] echo_reads
    [Open 5 1; Act (AsyncRead 7 100 0); Event EvRead; Event EvRead] 4).
  cbn. lia.
Defined.
