(* ===== verification/SocketInterest.v ===== *)
(** * Asynchronous sockets: no lost wakeups

    What the sockets of file Socket register with the poller: as long as callbacks
    neither throw nor close the socket, a pending operation is always registered
    for its event, with the callback of the socket.  Then what happens otherwise. *)
From S2P Require Import Prelude Buffer Epoll Socket.

(** ** The handle and the poller's entry *)

Section handle.
Variables (n io : Z).
Hypothesis n_range : 0 <= n < 2 ^ 31.

(** The handle of an open socket. *)
Definition handle_good (h : PollHandle) : Prop :=
  fd (pfd h) = n /\ slot (pfd h) = Some io /\ has (flags_ h) PendingCtl = false.

(** The poller's entry is free, or belongs to the handle. *)
Definition attached (h : PollHandle) (e : Epoll) : Prop :=
  match data_ e !! Z.to_nat n with
  | Some p => is_empty p = true \/ sid p = sid (pfd h)
  | None => True
  end.

(** The poller's entry is what the handle asks for. *)
Definition synced (h : PollHandle) (e : Epoll) : Prop :=
  match data_ e !! Z.to_nat n with
  | Some p =>
      if is_empty p then events (pfd h) = 0
      else events p = events (pfd h) /\ slot p = slot (pfd h) /\ sid p = sid (pfd h)
  | None => events (pfd h) = 0
  end.

(** A handle with its changes batched, or committed. *)
Definition handle_ok (b : bool) (h : PollHandle) (e : Epoll) : Prop :=
  handle_good h /\ has (flags_ h) BatchCtl = b /\ attached h e /\ (b = false -> synced h e).

Lemma synced_attached h e : synced h e -> attached h e.
Proof.
  unfold synced, attached. destruct (data_ e !! _) as [p|]; [|done].
  destruct (is_empty p) eqn:E; [by left|]. intros (_ & _ & ?). by right.
Qed.

Lemma good_not_empty h : handle_good h -> is_empty (pfd h) = false.
Proof. intros (_ & Hs & _). unfold is_empty. by rewrite Hs. Qed.

Lemma ctl_syncs h e : handle_good h -> attached h e ->
  let '(_, h', e') := ctl h e in
  handle_good h' /\ flags_ h' = flags_ h /\ events (pfd h') = events (pfd h) /\ synced h' e'.
Proof.
  intros Hg Ha. pose proof (good_not_empty h Hg) as Hne. destruct Hg as (Hn & Hs & Hp).
  unfold ctl. rewrite Hne, Hn, wrapu_small by lia.
  set (d := if (_ <=? _)%nat then _ else _).
  assert ((Z.to_nat n < length d)%nat /\
    match d !! Z.to_nat n with Some p => is_empty p = true \/ sid p = sid (pfd h) | None => False end)
    as [Hlen Hd].
  { unfold d, attached in *. destruct (Nat.leb_spec (length (data_ e)) (Z.to_nat n)) as [Hle | Hlt].
    - rewrite length_grow, lookup_grow. rewrite lookup_ge_None_2 by done.
      rewrite decide_True by lia. split; [lia | by left].
    - split; [done|]. destruct (lookup_lt_is_Some_2 _ _ Hlt) as [p Ep]. by rewrite Ep in *. }
  destruct (d !! Z.to_nat n) as [p|] eqn:Ep; [|done]. rewrite (nth_lookup_Some _ _ _ _ Ep).
  destruct (is_empty p) eqn:Eemp.
  - destruct (Z.eqb_spec (events (pfd h)) 0) as [E0 | E0]; cbn [negb].
    + split; [done|]. split; [done|]. split; [done|]. unfold synced. cbn. by rewrite Ep, Eemp.
    + split; [by repeat split|]. split; [done|]. split; [done|]. unfold synced. cbn.
      rewrite list_lookup_insert_eq by done. unfold is_empty in *. cbn. by rewrite Hs.
  - destruct Hd as [? | Hsid]; [done|]. rewrite Hsid, Z.eqb_refl. cbn [negb].
    split; [done|]. split; [done|]. split; [done|]. unfold synced. cbn.
    rewrite list_lookup_insert_eq by done. unfold is_empty in *. cbn. rewrite Hs. done.
Qed.

Lemma clear_pending f : has (Z.land f (Z.lnot PendingCtl)) PendingCtl = false
  /\ has (Z.land f (Z.lnot PendingCtl)) BatchCtl = has f BatchCtl.
Proof.
  pose proof (has_land f (Z.lnot PendingCtl) 1 ltac:(lia)) as H1.
  pose proof (has_land f (Z.lnot PendingCtl) 0 ltac:(lia)) as H0.
  change (2 ^ 1) with PendingCtl in H1. change (2 ^ 0) with BatchCtl in H0. rewrite H1, H0.
  change (has (Z.lnot PendingCtl) PendingCtl) with false.
  change (has (Z.lnot PendingCtl) BatchCtl) with true. by rewrite andb_false_r, andb_true_r.
Qed.

Lemma batching_flags on h : has (flags_ (batching on h)) PendingCtl = has (flags_ h) PendingCtl
  /\ has (flags_ (batching on h)) BatchCtl = on.
Proof.
  change PendingCtl with (2 ^ 1). change BatchCtl with (2 ^ 0). destruct on; cbn [batching flags_].
  - rewrite !has_lor_l by lia. change (has BatchCtl (2 ^ 1)) with false. change (has BatchCtl (2 ^ 0)) with true.
    by rewrite orb_false_r, orb_true_r.
  - rewrite !has_land by lia. change (has (Z.lnot BatchCtl) (2 ^ 1)) with true.
    change (has (Z.lnot BatchCtl) (2 ^ 0)) with false. by rewrite andb_true_r, andb_false_r.
Qed.

Lemma batching_good on h : handle_good h -> handle_good (batching on h).
Proof. intros (? & ? & Hp). destruct (batching_flags on h) as [Hf _]. rewrite Hp in Hf. by repeat split. Qed.

Lemma commit_ok force b h e :
  handle_good h -> has (flags_ h) BatchCtl = b -> attached h e ->
  let '(h', e') := commit force h e in
  handle_ok b h' e' /\ events (pfd h') = events (pfd h) /\ (force = true -> synced h' e').
Proof.
  intros Hg Hb Ha. pose proof Hg as (_ & _ & Hp). unfold commit. rewrite Hb, Hp, orb_false_r.
  destruct (force || negb b) eqn:E.
  - pose proof (ctl_syncs h e Hg Ha) as Hc. destruct (ctl h e) as [[ok h1] e1].
    destruct Hc as (Hg1 & Hf1 & Hev & Hs). destruct Hg1 as (H1 & H2 & _).
    destruct (clear_pending (flags_ h1)) as [Hc1 Hc2].
    split; [|split; [done | intros _; exact Hs]]. split; [by repeat split|].
    cbn [flags_]. rewrite Hc2, Hf1. split; [done|]. split; [by apply synced_attached | intros _; exact Hs].
  - apply orb_false_iff in E as [-> E]. destruct b; [|done].
    split; [|split; [done | done]]. split; [done|]. split; [done|]. by split.
Qed.

Lemma add_handle_ok ev b h e : handle_ok b h e ->
  let '(h', e') := add ev h e in handle_ok b h' e' /\ events (pfd h') = ev_add (events (pfd h)) ev.
Proof.
  intros Hok. pose proof Hok as (Hg & Hb & Ha & Hs). unfold add. destruct (Z.eqb_spec (Z.land (events (pfd h)) ev) ev) as [E | E]; cbn [negb].
  - split; [done|]. unfold ev_add. apply Z.bits_inj'. intros k Hk.
    apply (f_equal (fun z => Z.testbit z k)) in E. rewrite Z.land_spec in E. rewrite Z.lor_spec.
    destruct (Z.testbit (events (pfd h)) k), (Z.testbit ev k); done.
  - set (h1 := set_pfd h _). assert (handle_good h1) as Hg1 by (by destruct Hg as (? & ? & ?)).
    rewrite (good_not_empty h1 Hg1). cbn [negb].
    pose proof (commit_ok false b h1 e Hg1 Hb Ha) as Hc. destruct (commit false h1 e) as [h' e'].
    destruct Hc as (? & Hev & _). split; [done|]. by rewrite Hev.
Qed.

Lemma del_handle_ok ev b h e : handle_ok b h e ->
  let '(h', e') := del ev h e in handle_ok b h' e'
  /\ events (pfd h') = if has (events (pfd h)) ev then ev_sub (events (pfd h)) ev else events (pfd h).
Proof.
  intros Hok. pose proof Hok as (Hg & Hb & Ha & Hs). unfold del. destruct (has (events (pfd h)) ev); [|done].
  set (h1 := set_pfd h _). assert (handle_good h1) as Hg1 by (by destruct Hg as (? & ? & ?)).
  pose proof (commit_ok false b h1 e Hg1 Hb Ha) as Hc. destruct (commit false h1 e) as [h' e'].
  destruct Hc as (? & Hev & _). split; [done|]. by rewrite Hev.
Qed.
End handle.

(** Reading and writing are separate bits. *)
Lemma has_add a ev k : 0 <= k -> has (ev_add a ev) (2 ^ k) = has a (2 ^ k) || has ev (2 ^ k).
Proof. intros. unfold ev_add. by rewrite has_lor_l. Qed.

Lemma has_sub_write a : has (ev_sub a EvRead) EvWrite = has a EvWrite.
Proof. unfold ev_sub. rewrite (has_land a _ 2) by lia. change (has (u32 (Z.lnot EvRead)) (2 ^ 2)) with true. by rewrite andb_true_r. Qed.
Lemma has_sub_read a : has (ev_sub a EvWrite) EvRead = has a EvRead.
Proof. unfold ev_sub. rewrite (has_land a _ 0) by lia. change (has (u32 (Z.lnot EvWrite)) (2 ^ 0)) with true. by rewrite andb_true_r. Qed.
Lemma has_add_read a ev : has (ev_add a ev) EvRead = has a EvRead || has ev EvRead.
Proof. apply (has_add a ev 0). lia. Qed.
Lemma has_add_write a ev : has (ev_add a ev) EvWrite = has a EvWrite || has ev EvWrite.
Proof. apply (has_add a ev 2). lia. Qed.

(** ** Pending operations are registered *)

(** A condition on the pending writes, and whether they are registered by now. *)
Record condition (W : Type) := mkCond { holds : W -> Prop; at_once : bool }.
Arguments mkCond {W}. Arguments holds {W}. Arguments at_once {W}.

Section interest.
Variables (n io : Z).
Hypothesis n_range : 0 <= n < 2 ^ 31.

Definition asks {W} (s : State W) (ev : Z) : bool := has (events (pfd (poll_ s))) ev.

(** The invariant, with the changes of the handle batched or not. *)
Record interested {W} `{WriteImpl W} (P : condition W) (b : bool) (s : State W) : Prop := {
  in_handle : handle_ok n io b (poll_ s) (epoll s);
  in_read : r_pending (rd s) = true -> asks s EvRead = true;
  in_write : at_once P = true -> w_pending (wr s) = true -> asks s EvWrite = true;
  in_writes : holds P (wr s)
}.

Definition results {W} (s : State W) : list (Z * Z) * list (Z * Z) := (recvs s, sends s).
Definition left {W} (s : State W) : nat := (length (recvs s) + length (sends s))%nat.

(** Starting a write (of some bytes) keeps the invariant. *)
Definition stable {W} `{WriteImpl W} (P : condition W) : Prop :=
  forall b slot bytes ep s, bytes <> [] -> interested P b s ->
    interested P b (w_start slot bytes ep s).1 /\ results (w_start slot bytes ep s).1 = results s.

(** A callback's part: it keeps every condition that starting writes keeps, and does
    not throw. *)
Definition polite {W} `{WriteImpl W} (inv : completion -> State W -> State W * bool) : Prop :=
  forall P c s, stable P -> interested P true s ->
    (inv c s).2 = false /\ interested P true (inv c s).1 /\ results (inv c s).1 = results s.
End interest.

(** What an implementation of writes promises: its condition on pending writes is
    kept, and completing them keeps the invariant, uses up a result for every
    write that is completed, and returns. *)
Class WriteInterest (W : Type) `{WriteImpl W} := {
  w_inv : condition W;
  w_start_stable n io : 0 <= n < 2 ^ 31 -> stable n io w_inv;
  w_complete_ok n io inv fuel s : 0 <= n < 2 ^ 31 ->
    polite n io inv -> interested n io w_inv true s -> w_pending (wr s) = true ->
    (length (sends s) < fuel)%nat ->
    exists s' st, w_complete inv fuel s = Some (s', st) /\ st <> Threw
      /\ interested n io w_inv true s' /\ (left s' <= left s)%nat
      /\ (st = Completing -> (left s' < left s)%nat)
}.

Section generic.
Context {W : Type} `{WriteInterest W}.
Variables (n io : Z).
Hypothesis n_range : 0 <= n < 2 ^ 31.
Implicit Types s : State W.

Lemma interested_add P b ev s : (ev = EvRead \/ ev = EvWrite) -> interested n io P b s ->
  interested n io P b (on_poll (add ev) s) /\ asks (on_poll (add ev) s) ev = true.
Proof.
  intros Hev [Hh Hr Hw Hp]. unfold on_poll, asks in *.
  pose proof (add_handle_ok n io n_range ev b _ _ Hh) as Ha.
  destruct (add ev (poll_ s) (epoll s)) as [h' e']. destruct Ha as [Hh' He].
  split; [split; unfold asks; cbn; [done | | | done]|cbn]; rewrite He.
  - intros Hp'. rewrite has_add_read, Hr by done. done.
  - intros Hg Hp'. rewrite has_add_write, Hw by done. done.
  - destruct Hev as [-> | ->]; [rewrite has_add_read | rewrite has_add_write]; apply orb_true_r.
Qed.

Lemma interested_del P b ev s : interested n io P b s ->
  (ev = EvRead /\ r_pending (rd s) = false \/ ev = EvWrite /\ (at_once P = true -> w_pending (wr s) = false)) ->
  interested n io P b (on_poll (del ev) s).
Proof.
  intros [Hh Hr Hw Hp] Hev. unfold on_poll, asks in *.
  pose proof (del_handle_ok n io n_range ev b _ _ Hh) as Ha.
  destruct (del ev (poll_ s) (epoll s)) as [h' e']. destruct Ha as [Hh' He].
  destruct Hev as [[-> Hn] | [-> Hn]]; (split; unfold asks; cbn; [done | | | done]); rewrite He; intros;
    first [by (rewrite Hn in * by done) | case_match; rewrite ?has_sub_read, ?has_sub_write; by auto].
Qed.

Lemma interested_commit P b force s : interested n io P b s ->
  interested n io P b (on_poll (commit force) s)
  /\ (force = true -> synced n (poll_ (on_poll (commit force) s)) (epoll (on_poll (commit force) s)))
  /\ forall ev, asks (on_poll (commit force) s) ev = asks s ev.
Proof.
  intros [Hh Hr Hw Hp]. unfold on_poll. destruct Hh as (Hg & Hb & Ha & Hs).
  pose proof (commit_ok n io n_range force b _ _ Hg Hb Ha) as Hc.
  destruct (commit force (poll_ s) (epoll s)) as [h' e']. destruct Hc as (Hh' & He & Hsync).
  split; [|split; [exact Hsync | intros ev; unfold asks; cbn; by rewrite He]].
  split; unfold asks in *; cbn; [done | | | done]; by rewrite He.
Qed.

(** Changing the read operation. *)
Lemma interested_rd P b s r : interested n io P b s -> (r_pending r = true -> asks s EvRead = true) ->
  interested n io P b (set_rd s r).
Proof. intros [Hh Hr Hw Hp] Hn. by split. Qed.

Lemma interested_observe P b s o : interested n io P b s -> interested n io P b (observe s o).
Proof. intros [Hh Hr Hw Hp]. by split. Qed.

Lemma on_poll_set_rd f s r : on_poll f (set_rd s r) = set_rd (on_poll f s) r.
Proof. unfold on_poll. cbn. by destruct (f _ _). Qed.

Lemma async_recv_eq slot size flags s : async_recv slot size flags s =
  if r_pending (rd s) then (set_rd s (mkRead (r_slot (rd s)) (r_size (rd s)) flags), true)
  else (observe (set_rd (on_poll (commit false) (on_poll (add EvRead) s)) (mkRead (Some slot) size flags))
          (StartedRead slot), false).
Proof.
  unfold async_recv, prepare_read. rewrite !on_poll_set_rd. cbn.
  unfold r_pending; cbn. destruct (r_slot (rd s)); [done|].
  unfold on_poll; cbn. by destruct (add EvRead _ _) as [h e]; cbn; destruct (commit false _ _).
Qed.

Lemma async_recv_interest P b slot size flags s : interested n io P b s ->
  interested n io P b (async_recv slot size flags s).1
  /\ results (async_recv slot size flags s).1 = results s.
Proof.
  intros Hs. rewrite async_recv_eq. destruct (r_pending (rd s)) eqn:E; cbn [fst].
  - split; [|done]. apply interested_rd; [done|]. intros _. by apply (in_read _ _ _ _ _ Hs).
  - destruct (interested_add P b EvRead s ltac:(by left) Hs) as [Ha Hask].
    destruct (interested_commit P b false _ Ha) as (Hc & _ & Hkeep).
    split; [|unfold results, observe, set_rd; cbn; by rewrite !recvs_on_poll, !sends_on_poll].
    apply interested_observe, interested_rd; [done|]. intros _. by rewrite Hkeep.
Qed.

(** Actions that neither close nor throw. *)
Definition quiet (a : action) : Prop :=
  match a with AsyncRead _ _ _ => True | AsyncWrite _ bytes _ => bytes <> [] | Close | Throw => False end.

Lemma act_interest P b a s : stable n io P -> quiet a -> interested n io P b s ->
  interested n io P b (act a s).1 /\ results (act a s).1 = results s.
Proof.
  intros Hst Hq Hs. destruct a as [slot size flags | slot bytes ep | |]; try done; cbn [act].
  - by apply async_recv_interest.
  - destruct (Hst b slot bytes ep s Hq Hs) as [H1 H2]. unfold async_write.
    destruct (w_start slot bytes ep s) as [s' threw]. cbn [fst] in *.
    destruct threw; [done|]. split; [by apply interested_observe | done].
Qed.

Lemma run_actions_interest P b acts s : stable n io P -> Forall quiet acts -> interested n io P b s ->
  interested n io P b (run_actions acts s).1 /\ results (run_actions acts s).1 = results s.
Proof.
  intros Hst. revert s. induction acts as [|a acts IH]; intros s Hq Hs; [done|].
  apply Forall_cons in Hq as [Ha Hq]. cbn [run_actions].
  destruct (act_interest P b a s Hst Ha Hs) as [H1 H2]. destruct (act a s) as [s' threw]. cbn [fst] in *.
  destruct threw; [done|]. destruct (IH s' Hq H1) as [H3 H4]. split; [done | congruence].
Qed.

Variable callback : completion -> State W -> list action.

(** Callbacks that neither close the socket nor throw. *)
Definition quiet_callback : Prop :=
  forall c s, Forall quiet (callback c s) /\ (run_actions (callback c s) s).2 = false.
Hypothesis Hquiet : quiet_callback.

Lemma invoke_polite : polite n io (invoke callback).
Proof.
  intros P c s Hst Hs. unfold invoke. set (s1 := observe s (Completed c)).
  destruct (Hquiet c s1) as [Hq Hn].
  destruct (run_actions_interest P true (callback c s1) s1 Hst Hq) as [H1 H2];
    [by apply interested_observe|]. split; [done|]. split; [done|]. by rewrite H2.
Qed.

Lemma read_complete_interest s : interested n io w_inv true s -> r_pending (rd s) = true ->
  let '(s', st) := read_complete callback s in
  st <> Threw /\ interested n io w_inv true s' /\ (left s' <= left s)%nat
  /\ (st = Completing -> (left s' < left s)%nat).
Proof.
  intros Hs Hpend. unfold read_complete, sys_recv, left.
  assert (forall r rs l, interested n io w_inv true
    (mkState (poll_ s) (epoll s) (io_slot_ s) (rd s) (wr s) rs (sends s) (l ++ [r]))) as Hframe
    by (intros; by destruct Hs).
  assert (forall st, Blocked = st -> st <> Threw) as Hb by (by intros st <-).
  destruct (recvs s) as [|[size ec] rs]; cbn [head default from_option tail id].
  - cbn [would_block fst snd andb].
    match goal with |- context [on_poll (add EvRead) ?t] =>
      destruct (interested_add w_inv true EvRead t ltac:(by left) (Hframe _ _ _)) as [H1 _] end.
    change (would_block (-1, EWOULDBLOCK)) with true. cbn iota.
    split; [by apply Hb|]. split; [done|]. rewrite recvs_on_poll, sends_on_poll. cbn. split; [lia | done].
  - destruct (would_block (size, ec)).
    + match goal with |- context [on_poll (add EvRead) ?t] =>
        destruct (interested_add w_inv true EvRead t ltac:(by left) (Hframe _ _ _)) as [H1 _] end.
      split; [by apply Hb|]. split; [done|]. rewrite recvs_on_poll, sends_on_poll. cbn. split; [lia | done].
    + match goal with |- context [invoke callback ?c ?t] =>
        destruct (invoke_polite w_inv c t (w_start_stable n io n_range)) as (Hth & Hi & Hres);
          [apply interested_rd; [apply Hframe | done]|]; destruct (invoke callback c t) as [s3 threw] end.
      cbn [fst snd] in *. subst threw. injection Hres as Hr1 Hr2. cbn in Hr1, Hr2.
      split; [done|]. split.
      * destruct (r_pending (rd s3)) eqn:E; [done|]. apply interested_del; [done | by left].
      * destruct (r_pending (rd s3)); rewrite ?recvs_on_poll, ?sends_on_poll, Hr1, Hr2; cbn; split; lia.
Qed.

Lemma read_loop_interest fuel s ev ag : interested n io w_inv true s -> (left s < fuel)%nat ->
  exists s' ev' ag', read_loop callback fuel s ev ag = Some (s', ev', ag', false)
    /\ interested n io w_inv true s' /\ (left s' <= left s)%nat.
Proof.
  revert s ag. induction fuel as [|fuel IH]; intros s ag Hs Hf; [lia|]. cbn [read_loop].
  destruct (r_pending (rd s)) eqn:E; [|by eauto 10]. pose proof (read_complete_interest s Hs E) as Hc.
  destruct (read_complete callback s) as [s' st]. destruct Hc as (Hnt & Hi & Hle & Hlt).
  destruct st; [by eauto 10 | | done]. specialize (Hlt eq_refl).
  destruct (IH s' true Hi ltac:(lia)) as (s2 & ev' & ag' & -> & Hi2 & Hl). exists s2, ev', ag'.
  split; [done|]. split; [done | lia].
Qed.

Lemma write_loop_interest fuel s ev ag : interested n io w_inv true s -> (left s < fuel)%nat ->
  exists s' ev' ag', write_loop callback (S fuel) s ev ag = Some (s', ev', ag', false)
    /\ interested n io w_inv true s' /\ (left s' <= left s)%nat.
Proof.
  revert s ag. induction fuel as [|fuel IH]; intros s ag Hs Hf; [lia|]. cbn [write_loop].
  destruct (w_pending (wr s)) eqn:E; [|by eauto 10].
  destruct (w_complete_ok n io (invoke callback) (S fuel) s n_range invoke_polite Hs E) as
    (s' & st & -> & Hnt & Hi & Hle & Hlt); [unfold left in Hf; lia|].
  destruct st; [by eauto 10 | | done]. specialize (Hlt eq_refl).
  destruct (IH s' true Hi ltac:(lia)) as (s2 & ev' & ag' & H2 & Hi2 & Hl). cbn [write_loop] in H2.
  rewrite H2. exists s2, ev', ag'. split; [done|]. split; [done | lia].
Qed.

Lemma io_rounds_interest rounds fuel s ev : interested n io w_inv true s -> (left s < fuel)%nat ->
  exists s', io_rounds callback rounds (S fuel) s ev = Some (s', false)
    /\ interested n io w_inv true s' /\ (left s' <= left s)%nat.
Proof.
  revert s ev. induction rounds as [|rounds IH]; intros s ev Hs Hf; cbn [io_rounds]; [by eauto|].
  assert (exists s1 ev1 ag1, (if has ev EvRead then read_loop callback (S fuel) s ev false
      else Some (s, ev, false, false)) = Some (s1, ev1, ag1, false)
      /\ interested n io w_inv true s1 /\ (left s1 <= left s)%nat) as (s1 & ev1 & ag1 & -> & H1 & L1).
  { destruct (has ev EvRead); [apply read_loop_interest; [done | lia] | by eauto 10]. }
  assert (exists s2 ev2 ag2, (if has ev1 EvWrite then write_loop callback (S fuel) s1 ev1 ag1
      else Some (s1, ev1, ag1, false)) = Some (s2, ev2, ag2, false)
      /\ interested n io w_inv true s2 /\ (left s2 <= left s1)%nat) as (s2 & ev2 & ag2 & -> & H2 & L2).
  { destruct (has ev1 EvWrite); [apply write_loop_interest; [done | lia] | by eauto 10]. }
  destruct (_ || _); [exists s2; split; [done|]; split; [done | lia]|].
  destruct (IH s2 ev2 H2 ltac:(lia)) as (s' & -> & H3 & L3). exists s'. split; [done|]. split; [done | lia].
Qed.

Lemma interested_batching P b s : interested n io P b s ->
  interested n io P true (on_poll (fun h e => (batching true h, e)) s).
Proof.
  intros [(Hg & Hb & Ha & Hs) Hr Hw Hp]. split; [|done..]. split; [by apply batching_good|].
  split; [apply batching_flags | by split].
Qed.

(** The end of [on_io_event]: the batching is restored and everything is committed. *)
Lemma interested_finish P s : interested n io P true s ->
  interested n io P false (on_poll (commit true) (on_poll (fun h e => (batching false h, e)) s)).
Proof.
  intros [(Hg & Hb & Ha & Hs) Hr Hw Hp]. set (h1 := batching false (poll_ s)).
  pose proof (commit_ok n io n_range true false h1 (epoll s) (batching_good n io false _ Hg)
    (proj2 (batching_flags false _)) Ha) as Hc.
  unfold on_poll. cbn [poll_ epoll]. fold h1. destruct (commit true h1 (epoll s)) as [h' e'].
  destruct Hc as (Hh' & He & _). split; unfold asks in *; cbn; [done | | | done]; rewrite He; done.
Qed.

Lemma run_step_interest fuel st s :
  match st with Act a => quiet a | Event _ => True | Open _ _ => False end ->
  interested n io w_inv false s -> (left s < fuel)%nat ->
  exists s', run_step (S fuel) callback st s = Some s'
    /\ interested n io w_inv false s' /\ (left s' <= left s)%nat.
Proof.
  intros Hq Hs Hf. destruct st as [a | ev |]; [| | done]; cbn [run_step].
  - destruct (act_interest w_inv false a s (w_start_stable n io n_range) Hq Hs) as [H1 H2].
    eexists. split; [reflexivity|]. split; [done|]. injection H2 as E1 E2. unfold left. by rewrite E1, E2.
  - unfold on_io_event. pose proof (in_handle _ _ _ _ _ Hs) as (_ & -> & _ & _).
    destruct (io_rounds_interest MaxRounds fuel (on_poll (fun h e => (batching true h, e)) s) ev)
      as (s' & -> & Hi & Hl); [by eapply interested_batching | exact Hf |].
    eexists. split; [reflexivity|]. split; [by apply interested_finish|].
    unfold left in *. cbn [fst]. by rewrite !recvs_on_poll, !sends_on_poll in *.
Qed.

Definition quiet_step (st : step) : Prop :=
  match st with Act a => quiet a | Event _ => True | Open _ _ => False end.

Lemma run_interest fuel steps s : Forall quiet_step steps ->
  interested n io w_inv false s -> (left s < fuel)%nat ->
  exists s', run (S fuel) callback steps s = Some s' /\ interested n io w_inv false s'.
Proof.
  revert s. induction steps as [|st steps IH]; intros s Hq Hs Hf; cbn [run]; [by eauto|].
  apply Forall_cons in Hq as [Hst Hq].
  destruct (run_step_interest fuel st s Hst Hs Hf) as (s1 & -> & H1 & L1). apply IH; [done | done | lia].
Qed.
End generic.

(** Recording a pending write. *)
Lemma interested_wr {W} `{WriteImpl W} n io (P Q : condition W) b (s : State W) w :
  interested n io P b s -> holds Q w -> (at_once Q = true -> w_pending w = true -> asks s EvWrite = true) ->
  interested n io Q b (set_wr s w).
Proof. intros [Hh Hr Hw Hp] HQ Hn. by split. Qed.

(** Using up a result. *)
Lemma interested_sys_send {W} `{WriteImpl W} n io (P : condition W) b bytes flags ep (s : State W) :
  interested n io P b s -> interested n io P b (sys_send bytes flags ep s).2.
Proof. intros []. by split. Qed.

Lemma sys_send_results {W} bytes flags ep (s : State W) :
  let '(r, s') := sys_send bytes flags ep s in
  recvs s' = recvs s /\ wr s' = wr s
  /\ (would_block r = true \/ S (length (sends s')) = length (sends s)) /\ (length (sends s') <= length (sends s))%nat.
Proof. unfold sys_send. destruct (sends s); cbn; repeat split; auto with lia. Qed.

Lemma results_on_poll {W} f (s : State W) : results (on_poll f s) = results s.
Proof. unfold results. by rewrite recvs_on_poll, sends_on_poll. Qed.

Lemma left_results {W} (s s' : State W) : results s = results s' -> left s = left s'.
Proof. intros Hr. injection Hr as E1 E2. unfold left. by rewrite E1, E2. Qed.

(** ** Stream sockets *)

Definition any_write : condition SocketWrite := mkCond (fun _ => True) true.

Lemma on_poll_set_wr {W} f (s : State W) w : on_poll f (set_wr s w) = set_wr (on_poll f s) w.
Proof. unfold on_poll. cbn. by destruct (f _ _). Qed.

Lemma prepare_write_stable n io : 0 <= n < 2 ^ 31 -> stable n io any_write.
Proof.
  intros Hn b slot bytes ep s _ Hs. cbn [w_start stream_writes]. unfold prepare_write. cbn [wr set_wr].
  unfold write_pending. cbn [w_slot]. destruct (w_slot (wr s)) eqn:E; cbn [fst].
  - split; [|done]. apply (interested_wr _ _ any_write); [done..|]. intros _ _.
    apply (in_write _ _ _ _ _ Hs); [done|]. cbn. unfold write_pending. by rewrite E.
  - rewrite !on_poll_set_wr. destruct (interested_add n io Hn any_write b EvWrite s ltac:(by right) Hs) as [Ha Hask].
    split; [|unfold results; cbn; by rewrite recvs_on_poll, sends_on_poll].
    apply (interested_wr _ _ any_write); [|done|done].
    apply (interested_wr _ _ any_write); [done..|]. cbn. by unfold write_pending.
Qed.

Lemma write_complete_interest n io inv (s : State SocketWrite) : 0 <= n < 2 ^ 31 ->
  polite n io inv -> interested n io any_write true s -> w_pending (wr s) = true ->
  let '(s', st) := write_complete inv s in
  st <> Threw /\ interested n io any_write true s' /\ (left s' <= left s)%nat
  /\ (st = Completing -> (left s' < left s)%nat).
Proof.
  intros Hn Hinv Hs Hpend. unfold write_complete.
  set (p := match w_data (wr s) with Mut _ _ => _ | _ => _ end).
  assert (interested n io any_write true p.2 /\ results p.2 = results s) as [Hp Hr].
  { unfold p. destruct (w_data (wr s)); [done | | done]. destruct (Buffer.prepare _ _). cbn [snd].
    split; [|done]. apply (interested_wr _ _ any_write); [done..|]. intros _ _. by apply (in_write _ _ _ _ _ Hs). }
  destruct p as [bytes s1]. cbn [snd] in *. injection Hr as Hr1 Hr2.
  pose proof (interested_sys_send n io any_write true bytes (w_flags (wr s1)) 0 s1 Hp) as H2.
  pose proof (sys_send_results bytes (w_flags (wr s1)) 0 s1) as Hres.
  destruct (sys_send bytes (w_flags (wr s1)) 0 s1) as [[size ec] s2]. cbn [snd] in H2.
  destruct Hres as (E1 & E2 & Hused & Hle). destruct (would_block (size, ec)) eqn:Eb.
  - destruct (interested_add n io Hn any_write true EvWrite s2 ltac:(by right) H2) as [H3 _].
    split; [done|]. split; [done|]. unfold left. rewrite recvs_on_poll, sends_on_poll.
    split; [|done]. rewrite E1, Hr1, <- Hr2. lia.
  - destruct Hused as [? | Hused]; [done|].
    match goal with |- context [inv ?c ?t] =>
      destruct (Hinv any_write c t (prepare_write_stable n io Hn)) as (Hth & Hi & Hres);
        [by apply (interested_wr _ _ any_write) |]; destruct (inv c t) as [s3 threw] end.
    cbn [fst snd] in *. subst threw. apply left_results in Hres. unfold left in *. cbn [recvs sends set_wr] in Hres.
    split; [done|]. split.
    + destruct (write_pending (wr s3)) eqn:E; [done|]. apply interested_del; [done | done | by right].
    + destruct (write_pending (wr s3)); rewrite ?recvs_on_poll, ?sends_on_poll, Hres, E1, Hr1, <- Hr2; split; lia.
Qed.

#[export] Instance stream_interest : WriteInterest SocketWrite.
Proof.
  refine {| w_inv := any_write; w_start_stable := prepare_write_stable |}.
  intros n io inv fuel s Hn Hinv Hs Hpend _. cbn [w_complete stream_writes].
  pose proof (write_complete_interest n io inv s Hn Hinv Hs Hpend) as Hc.
  destruct (write_complete inv s) as [s' st]. by exists s', st.
Defined.

(** ** Datagram sockets *)

Definition has_slot (op : WriteOp) : Prop := is_Some (o_slot op) /\ is_Some (o_ep op).

(** Every operation of the queue has its slot and its destination; while the front one is being
    completed, the others need not be registered. *)
Definition waiting_ops : condition SocketWriteQueue :=
  mkCond (fun q => Forall has_slot (queue_ q) /\ o_slot (next_ q) = None) true.
Definition front_completing : condition SocketWriteQueue :=
  mkCond (fun q => (exists rest, queue_ q = empty_op :: rest /\ Forall has_slot rest)
                   /\ o_slot (next_ q) = None) false.
Definition between_ops : condition SocketWriteQueue := mkCond (holds waiting_ops) false.

Lemma queue_prepare_stable (P : condition SocketWriteQueue) n io : 0 <= n < 2 ^ 31 ->
  (forall q, holds P q -> o_slot (next_ q) = None) ->
  (forall q op b, holds P q -> has_slot op -> holds P (mkQueue (queue_ q ++ [op]) b empty_op)) ->
  stable n io P.
Proof.
  intros Hn Hnext Happ b slot bytes ep s _ Hs. cbn [w_start datagram_writes]. unfold queue_prepare.
  cbn [o_slot wr set_wr queue_ wbuf_ next_ o_ep o_flags]. rewrite (Hnext _ (in_writes _ _ _ _ _ Hs)).
  destruct (Buffer.prepare _ _) as [r buf]. cbn [fst]. rewrite !on_poll_set_wr.
  destruct (interested_add n io Hn P b EvWrite s ltac:(by right) Hs) as [Ha Hask].
  split; [|unfold results; cbn; by rewrite recvs_on_poll, sends_on_poll].
  match goal with |- interested _ _ _ _ (set_wr (set_wr ?t _) ?w) => change (interested n io P b (set_wr t w)) end.
  apply (interested_wr _ _ P P); [done | | done].
  apply Happ; [apply (in_writes _ _ _ _ _ Hs) | by split; eexists].
Qed.

Lemma waiting_ops_stable n io : 0 <= n < 2 ^ 31 -> stable n io waiting_ops.
Proof.
  intros Hn. apply queue_prepare_stable; [done | by intros q [] |].
  intros q op b [Hq _] Hop. split; [|done]. apply Forall_app. split; [done|]. by apply Forall_singleton.
Qed.

Lemma front_completing_stable n io : 0 <= n < 2 ^ 31 -> stable n io front_completing.
Proof.
  intros Hn. apply queue_prepare_stable; [done | by intros q [] |].
  intros q op b [(rest & Hq & Hrest) _] Hop. split; [|done]. exists (rest ++ [op]). cbn.
  rewrite Hq. split; [done|]. apply Forall_app. split; [done|]. by apply Forall_singleton.
Qed.

Lemma queue_complete_interest n io inv fuel (s : State SocketWriteQueue) : 0 <= n < 2 ^ 31 ->
  polite n io inv -> interested n io between_ops true s -> (length (sends s) < fuel)%nat ->
  exists s' st, queue_complete inv fuel s = Some (s', st)
    /\ st <> Threw /\ interested n io waiting_ops true s' /\ (left s' <= left s)%nat
    /\ (st = Completing -> queue_ (wr s) <> [] -> (left s' < left s)%nat).
Proof.
  intros Hn Hinv. revert s. induction fuel as [|fuel IH]; intros s Hs Hf; [lia|]. cbn [queue_complete].
  destruct (queue_ (wr s)) as [|op rest] eqn:Eq.
  { exists s, Completing. split; [done|]. split; [done|]. split; [|done].
    destruct Hs as [Hh Hr _ Hp]. split; [done | done | | done]. cbn. unfold queue_pending. by rewrite Eq. }
  pose proof (in_writes _ _ _ _ _ Hs) as [Hslots Hnext]. rewrite Eq in Hslots.
  apply Forall_cons in Hslots as [[[slot Eslot] [ep Eep]] Hrest]. rewrite Eep.
  match goal with |- context [sys_send ?b ?f ?e s] =>
    pose proof (interested_sys_send n io between_ops true b f e s Hs) as H2;
    pose proof (sys_send_results b f e s) as Hres; destruct (sys_send b f e s) as [[size ec] s2] end.
  cbn [snd] in H2. destruct Hres as (E1 & E2 & Hused & Hle). destruct (would_block (size, ec)) eqn:Eb.
  - destruct (interested_add n io Hn between_ops true EvWrite s2 ltac:(by right) H2) as [H3 Hask].
    eexists _, Blocked. split; [reflexivity|]. split; [done|]. split.
    + destruct H3 as [Hh Hr _ Hp]. by split.
    + unfold left. rewrite recvs_on_poll, sends_on_poll, E1. split; [lia | done].
  - destruct Hused as [? | Hused]; [done|].
    rewrite Eslot. match goal with |- context [inv ?c ?t] =>
      destruct (Hinv front_completing c t (front_completing_stable n io Hn)) as (Hth & Hi & Hres);
        [apply (interested_wr _ _ between_ops); [done | | done] |]; [|destruct (inv c t) as [s3 threw]] end.
    { split; [by exists rest | cbn; by rewrite E2]. }
    cbn [fst snd] in *. subst threw. injection Hres as Hres1 Hres2.
    pose proof (in_writes _ _ _ _ _ Hi) as [(rest' & Eq' & Hrest') Hnext'].
    destruct (IH (set_wr (on_poll (del EvWrite) s3) (mkQueue (tail (queue_ (wr (on_poll (del EvWrite) s3))))
        (Buffer.consume (o_size op) (wbuf_ (wr (on_poll (del EvWrite) s3)))) (next_ (wr (on_poll (del EvWrite) s3))))))
      as (s' & st & E & Hst & H4 & Hle4 & Hlt4).
    + apply (interested_wr _ _ front_completing); [apply interested_del; [done | done | by right] | | done].
      split; rewrite wr_on_poll, ?Eq'; done.
    + cbn [recvs sends set_wr] in *. rewrite sends_on_poll, Hres2. lia.
    + exists s', st. split; [exact E|]. split; [done|]. split; [done|].
      unfold left in *. cbn [recvs sends set_wr] in *.
      rewrite recvs_on_poll, sends_on_poll, Hres1, Hres2 in *. rewrite E1 in *. lia.
Qed.

#[export] Instance datagram_interest : WriteInterest SocketWriteQueue.
Proof.
  refine {| w_inv := waiting_ops; w_start_stable := waiting_ops_stable |}.
  intros n io inv fuel s Hn Hinv Hs Hpend Hf. cbn [w_complete datagram_writes].
  destruct (queue_complete_interest n io inv fuel s Hn Hinv) as (s' & st & H1 & H2 & H3 & H4 & H5); [|done|].
  - destruct Hs as [Hh Hr _ Hp]. by split.
  - exists s', st. split; [done|]. split; [done|]. split; [done|]. split; [done|]. intros Hst.
    apply H5; [done|]. intros E. cbn in Hpend. unfold queue_pending in Hpend. by rewrite E in Hpend.
Defined.

(** ** Opened sockets *)

Definition free_entry (n : Z) (e : Epoll) : Prop :=
  forall p, data_ e !! Z.to_nat n = Some p -> is_empty p = true.

Lemma open_interested {W} `{WriteImpl W} n io e (w : W) rs ss (P : condition W) : 0 <= n < 2 ^ 31 ->
  free_entry n e -> holds P w -> w_pending w = false ->
  interested n io P false (open n io (new_socket e w rs ss))
  /\ results (open n io (new_socket e w rs ss)) = (rs, ss).
Proof.
  intros Hn Hfree HP Hw. unfold open, set_io_slot, new_socket, on_poll at 1 3 5, results. cbn.
  rewrite bool_decide_eq_false_2 by done. unfold on_poll, mod_slot. cbn.
  pose proof (commit_ok n io Hn false false (mkHandle (mkPollFD n 0 0 (Some io)) 0) e) as Hc.
  unfold set_pfd, with_slot. cbn.
  destruct (commit false _ e) as [h' e']. destruct Hc as (Hok & Hev & _); [by repeat split | done | |].
  { unfold attached. destruct (data_ e !! _) as [p|] eqn:E; [|done]. left. by apply Hfree. }
  split; [|done]. split; cbn; [done | done | intros _ Hp | done].
  change (w_pending w = true) in Hp. by rewrite Hw in Hp.
Qed.

(** The poller's entry of a descriptor calls the socket for an event. *)
Definition registered (n io ev : Z) (e : Epoll) : Prop :=
  exists p, data_ e !! Z.to_nat n = Some p /\ slot p = Some io /\ has (events p) ev = true.

Lemma interested_registered {W} `{WriteImpl W} n io (P : condition W) (s : State W) ev :
  interested n io P false s -> asks s ev = true -> registered n io ev (epoll s).
Proof.
  intros [(Hg & _ & _ & Hs) _ _ _] Ha. specialize (Hs eq_refl). unfold asks in Ha. unfold synced in Hs.
  assert (events (pfd (poll_ s)) <> 0) as Hne by (intros E; by rewrite E in Ha).
  destruct (data_ (epoll s) !! _) as [p|] eqn:E; [|done].
  destruct (is_empty p); [done|]. destruct Hs as (He & Hsl & _). exists p. split; [done|].
  destruct Hg as (_ & Hio & _). by rewrite Hsl, Hio, He.
Qed.

Lemma session_registered {W} `{WriteInterest W} (n io : Z) (e : Epoll) (w : W) rs ss callback steps fuel :
  0 <= n < 2 ^ 31 -> free_entry n e -> holds w_inv w -> at_once w_inv = true -> w_pending w = false ->
  quiet_callback callback -> Forall quiet_step steps -> (length rs + length ss < fuel)%nat ->
  exists s, run (S fuel) callback (Open n io :: steps) (new_socket e w rs ss) = Some s
    /\ (r_pending (rd s) = true -> registered n io EvRead (epoll s))
    /\ (w_pending (wr s) = true -> registered n io EvWrite (epoll s)).
Proof.
  intros Hn Hfree HP Hnow Hw Hq Hsteps Hf. cbn [run run_step].
  destruct (open_interested n io e w rs ss w_inv Hn Hfree HP Hw) as [Hi Hr].
  destruct (run_interest n io Hn callback Hq fuel steps _ Hsteps Hi) as (s & Hs & Hsi).
  { unfold results in Hr. unfold left. injection Hr as -> ->. done. }
  exists s. split; [done|]. split; intros Hp; eapply interested_registered; eauto;
    [by apply (in_read _ _ _ _ _ Hsi) | by apply (in_write _ _ _ _ _ Hsi)].
Qed.


(** A server that reads again, while nothing is pending. *)
Definition read_again {W} (c : completion) (s : State W) : list action :=
  if c_read c && negb (r_pending (rd s)) then [AsyncRead (c_slot c) 100 0] else [].

Lemma read_again_quiet {W} `{WriteImpl W} : quiet_callback (W := W) read_again.
Proof.
  intros c s. unfold read_again. destruct (c_read c); [|by split]. destruct (r_pending (rd s)) eqn:E; [by split|].
  cbn [andb negb]. split; [by repeat constructor|]. cbn. unfold async_recv, prepare_read, r_pending in *. cbn in *.
  by destruct (r_slot (rd s)).
Qed.




(** ** What can lose wakeups *)

(** The state at the end of a session of a new stream socket on a poller that has
    room for eight descriptors. *)
Definition stream_session (callback : completion -> State SocketWrite -> list action) (steps : list step)
    (rs ss : list (Z * Z)) : option (State SocketWrite) :=
  run 9 callback steps (new_socket (make_epoll 3 4 8) new_write rs ss).

Definition lost (ev : Z) (n : nat) (pending : bool) (e : Epoll) : bool :=
  pending && negb (has (events (nth n (data_ e) default_pollfd)) ev).

(** A callback that throws loses wakeups: [on_io_event] is left with the changes
    of the handle still batched, so a write that is started later is pending but
    not registered, and it stays so until some read event is handled.  With a
    callback that does not throw the same session registers it. *)
Theorem throwing_callback_loses_wakeups :
  let steps := [Open 5 1; Act (AsyncRead 7 100 0); Event EvRead; Act (AsyncWrite 8 [1] 0)] in
  let lost_write s := lost EvWrite 5 (write_pending (wr s)) (epoll s) in
  option_map lost_write (stream_session (fun _ _ => [Throw]) steps [(1, 0)] []) = Some true
  /\ option_map lost_write (stream_session (fun _ _ => []) steps [(1, 0)] []) = Some false.
Proof. by vm_compute. Qed.

(** A socket that is closed and opened again loses wakeups: [close] resets the
    handle but not the callback that the socket remembers, so the second [open]
    finds the callback unchanged and leaves the new handle without one; a read is
    then pending but not registered.  When the callback differs it is registered. *)
Theorem reopened_socket_loses_wakeups :
  let steps io := [Open 5 1; Act Close; Open 6 io; Act (AsyncRead 7 100 0)] in
  let lost_read s := lost EvRead 6 (r_pending (rd s)) (epoll s) in
  option_map lost_read (stream_session (fun _ _ => []) (steps 1) [] []) = Some true
  /\ option_map lost_read (stream_session (fun _ _ => []) (steps 2) [] []) = Some false.
Proof. by vm_compute. Qed.

(** The first subscription of a handle of descriptor zero to a poller that has no
    entry for it. *)
Definition room (e : Epoll) : Epoll := set_data e (if (length (data_ e) <=? 0)%nat then grow (data_ e) 1 else data_ e).

Lemma room_free e : free_entry 0 e -> exists p d, data_ (room e) = p :: d /\ is_empty p = true.
Proof. unfold free_entry, room. destruct (data_ e) as [|p d]; intros Hf; [by eexists _, _|]. exists p, d. split; [done|]. by apply Hf. Qed.

Lemma mod_slot_zero io e : free_entry 0 e ->
  mod_slot (Some io) (mkHandle default_pollfd 0) e = (mkHandle (mkPollFD 0 0 0 (Some io)) 0, room e).
Proof.
  intros Hf. destruct (room_free e Hf) as (p & d & Hd & Hp).
  unfold mod_slot. change (slot_eqb (slot (pfd (mkHandle default_pollfd 0))) (Some io)) with false. cbn [negb].
  unfold commit, ctl. cbn -[room grow u64]. change (Z.to_nat (u64 0)) with 0%nat. fold (room e).
  change (if (length (data_ e) <=? 0)%nat then _ else _) with (data_ (room e)). rewrite Hd.
  by destruct p as [f i ev [x|]].
Qed.

Lemma add_read_zero io e p d : data_ e = p :: d -> is_empty p = true ->
  let '(h, e') := add EvRead (mkHandle (mkPollFD 0 0 0 (Some io)) 0) e in
  calls e' = calls e ++ [CtlAdd 0 EpollIn (pack 0 1)] /\ commit false h e' = (h, e').
Proof.
  intros Hd Hp. destruct e as [t nf d' cs]. cbn in Hd. subst d'.
  destruct p as [f i ev [x|]]; [done|]. by vm_compute.
Qed.

(** A socket that is constructed with a reactor asks for events of the wrong
    descriptor: whatever its own is, a read registers descriptor zero (the
    standard input of the process), and nothing else. *)
Theorem constructed_socket_polls_descriptor_zero {W} `{WriteImpl W} (e : Epoll) (w : W)
    (io slot size flags : Z) :
  free_entry 0 e ->
  calls (epoll (async_recv slot size flags (construct io e w [] [])).1) = calls e ++ [CtlAdd 0 EpollIn (pack 0 1)].
Proof.
  intros Hf. rewrite async_recv_eq. unfold construct, set_io_slot, new_socket, on_poll. cbn -[mod_slot add commit pack].
  rewrite mod_slot_zero by done. cbn -[add commit pack]. destruct (room_free e Hf) as (p & d & Hd & Hp).
  pose proof (add_read_zero io (room e) p d Hd Hp) as Ha. destruct (add EvRead _ _) as [h e'].
  destruct Ha as [Hc Hk]. cbn -[commit pack]. by rewrite Hk.
Qed.

Lemma constructed_socket_polls_descriptor_zero_witness :
  free_entry 0 (make_epoll 3 4 8) /\
  calls (epoll (async_recv 7 100 0 (construct 1 (make_epoll 3 4 8) new_write [] [])).1)
  = [CtlAdd 3 EpollIn (pack 3 0); CtlAdd 4 EpollIn (pack 4 0); CtlAdd 0 EpollIn (pack 0 1)].
Proof.
  assert (free_entry 0 (make_epoll 3 4 8)) as Hf by (intros p E; vm_compute in E; by injection E as <-).
  split; [exact Hf|]. exact (constructed_socket_polls_descriptor_zero (make_epoll 3 4 8) new_write 1 7 100 0 Hf).
Defined.

(** A read that is refused because another one is pending changes the flags of
    the pending one: they are set before the check. *)
Theorem refused_read_changes_flags (slot size flags : Z) {W} `{WriteImpl W} (s : State W) :
  r_pending (rd s) = true ->
  async_recv slot size flags s = (set_rd s (mkRead (r_slot (rd s)) (r_size (rd s)) flags), true).
Proof. intros Hp. by rewrite async_recv_eq, Hp. Qed.

Lemma refused_read_changes_flags_witness :
  r_pending (mkRead (Some 1) 10 0) = true /\
  async_recv 2 20 64 (mkState (mkHandle default_pollfd 0) (make_epoll 3 4 8) None (mkRead (Some 1) 10 0) new_write [] [] [])
  = (mkState (mkHandle default_pollfd 0) (make_epoll 3 4 8) None (mkRead (Some 1) 10 64) new_write [] [] [], true).
Proof.
  split; [reflexivity|].
  apply (refused_read_changes_flags 2 20 64
    (mkState (mkHandle default_pollfd 0) (make_epoll 3 4 8) None (mkRead (Some 1) 10 0) new_write [] [] [])).
  reflexivity.
Defined.

(** A write without a copy may send more than it was asked to: the function that
    fills the buffer is handed all the room that the buffer has, and the room left
    by an earlier, larger write is sent as well.  After a write of 100 bytes, the
    function is asked for 100 bytes when 10 are to be written. *)
Theorem zero_copy_write_sends_more :
  let fill k := replicate (Z.to_nat k) 65 in
  let write n s :=
    (write_complete (fun _ s => (s, false)) (prepare_write 7 (Mut n fill) s).1).1 in
  let s := write 10 (write 100 (new_socket (make_epoll 3 4 8) new_write [] [(100, 0); (100, 0)])) in
  map (fun o => match o with Sent bytes _ _ _ => length bytes | _ => 0%nat end) (log s) = [100%nat; 100%nat].
Proof. by vm_compute. Qed.
