(* ===== verification/Datagram.v ===== *)
(** * Datagram sockets: writes are queued in order

    The write queue of the datagram sockets of file Socket refines a queue of
    messages: what is sent is the oldest message that is not completed, whole and to
    its destination, and every message is completed once, in order. *)
From S2P Require Import Prelude Buffer Epoll Socket SocketInterest.

(** ** The specification *)

(** A message: the slot of the program, the bytes, the destination. *)
Definition message : Type := Z * list Z * Z.

(** The messages that are not completed, the oldest first, and the result that the
    oldest one got. *)
Definition write_spec (st : list message * option (Z * Z)) (o : observation)
    : option (list message * option (Z * Z)) :=
  let '(q, reply) := st in
  match o with
  | StartedWrite slot bytes ep => Some (q ++ [(slot, bytes, ep)], reply)
  | Sent bytes _ ep r =>
      match q, reply with
      | (_, bytes', ep') :: _, None =>
          if bool_decide (bytes = bytes' /\ ep = ep') then Some (q, if would_block r then None else Some r) else None
      | _, _ => None
      end
  | Completed c =>
      if c_read c then Some st
      else
        match q, reply with
        | (slot, _, _) :: q', Some r =>
            if bool_decide (c_slot c = slot /\ (c_size c, c_ec c) = r) then Some (q', None) else None
        | _, _ => None
        end
  | StartedRead _ | Received _ _ _ => Some st
  end.

(** The bytes of the messages that were started. *)
Definition cost (o : observation) : Z :=
  match o with StartedWrite _ bytes _ => Z.of_nat (length bytes) | _ => 0 end.
Fixpoint written (l : list observation) : Z := match l with [] => 0 | o :: l => cost o + written l end.

Lemma written_snoc l o : written (l ++ [o]) = written l + cost o.
Proof. induction l as [|o' l IH]; cbn [written app]; [lia|]. rewrite IH. lia. Qed.

(** ** The invariant *)

(** What the queue is doing with its front: nothing, it got a result, its callback
    is running. *)
Inductive phase := Idle | Replied (r : Z * Z) | InCallback (sz : Z).

Definition reply_of (ph : phase) : option (Z * Z) := match ph with Replied r => Some r | _ => None end.
Definition queue_of (ph : phase) (ops : list WriteOp) : list WriteOp :=
  match ph with InCallback _ => empty_op :: ops | _ => ops end.
Definition front_size (ph : phase) : Z := match ph with InCallback sz => sz | _ => 0 end.

Definition describes (op : WriteOp) (m : message) : Prop :=
  o_slot op = Some m.1.1 /\ o_size op = Z.of_nat (length m.1.2) /\ o_ep op = Some m.2.

Definition contents (q : list message) : list Z := concat (map (fun m => m.1.2) q).

Record fifo_queue (ph : phase) (q : list message) (w : SocketWriteQueue) : Prop := {
  fq_ops : exists ops, queue_ w = queue_of ph ops /\ Forall2 describes ops q;
  fq_bytes : exists front, Buffer.str (wbuf_ w) = front ++ contents q /\ Z.of_nat (length front) = front_size ph;
  fq_next : o_slot (next_ w) = None;
  fq_wf : Buffer.wf (wbuf_ w)
}.

Section fifo.
Implicit Types s : State SocketWriteQueue.

Definition fifo (ph : phase) s : Prop :=
  written (log s) < 2 ^ 63 ->
  exists q, run_spec write_spec ([], None) (log s) = Some (q, reply_of ph) /\ fifo_queue ph q (wr s)
    /\ Buffer.vector_size (wbuf_ (wr s)) <= written (log s).

Lemma fifo_same ph s s' : wr s' = wr s -> log s' = log s -> fifo ph s -> fifo ph s'.
Proof. unfold fifo. by intros -> ->. Qed.

Lemma fifo_on_poll ph f s : fifo ph s -> fifo ph (on_poll f s).
Proof. apply fifo_same; [apply wr_on_poll | apply log_on_poll]. Qed.

(** Observations that do not concern writes. *)
Definition neutral (o : observation) : Prop :=
  match o with StartedRead _ | Received _ _ _ => True | Completed c => c_read c = true | _ => False end.

Lemma fifo_neutral ph o s s' : neutral o -> wr s' = wr s -> log s' = log s ++ [o] -> fifo ph s -> fifo ph s'.
Proof.
  intros Ho Hw Hl Hs. unfold fifo. rewrite Hw, Hl, written_snoc, run_spec_snoc.
  destruct o; try done; cbn [cost]; rewrite Z.add_0_r; intros Hb;
    destruct (Hs Hb) as (q & -> & Hq); exists q; cbn; [done | done |]. cbn in Ho. by rewrite Ho.
Qed.

Lemma async_recv_fifo ph slot size flags s : fifo ph s -> fifo ph (async_recv slot size flags s).1.
Proof.
  intros Hs. rewrite async_recv_eq. destruct (r_pending _); cbn [fst]; [by apply (fifo_same _ s)|].
  apply (fifo_neutral _ (StartedRead slot) s); [done | | | done]; unfold observe, set_rd; cbn.
  - by rewrite !wr_on_poll.
  - by rewrite !log_on_poll.
Qed.

(** A message is appended, also while the callback of the front is running. *)
Lemma fifo_append ph q w slot bytes ep :
  fifo_queue ph q w -> Buffer.vector_size (wbuf_ w) + Z.of_nat (length bytes) < 2 ^ 63 ->
  let '(r, b) := Buffer.prepare (Z.of_nat (length bytes)) (wbuf_ w) in
  let b := Buffer.commit (Z.of_nat (length bytes)) (Buffer.store r bytes b) in
  fifo_queue ph (q ++ [(slot, bytes, ep)])
    (mkQueue (queue_ w ++ [mkOp (Some slot) (Z.of_nat (length bytes)) (Some ep) (o_flags (next_ w))]) b empty_op)
  /\ Buffer.vector_size b <= Buffer.vector_size (wbuf_ w) + Z.of_nat (length bytes).
Proof.
  intros [(ops & Hops & Hdesc) (front & Hstr & Hfront) Hnext Hwf] Hb.
  pose proof (prepare_facts (Z.of_nat (length bytes)) (wbuf_ w) Hwf ltac:(lia) Hb) as Hp.
  destruct (Buffer.prepare _ _) as [r b]. destruct Hp as (Hwf1 & Hstr1 & _ & Hwp & Hd & Hsz & Hend & Hvs).
  destruct (store_commit_facts r bytes b Hwf1) as (Hwf2 & Hstr2 & Hvs2); [lia | lia |].
  destruct Hwf as [_ Hw]. split; [|rewrite Hvs2, Hvs; lia].
  split; cbn [queue_ wbuf_ next_]; [| | done | done].
  - exists (ops ++ [mkOp (Some slot) (Z.of_nat (length bytes)) (Some ep) (o_flags (next_ w))]). rewrite Hops.
    split; [by destruct ph|]. apply Forall2_app; [done|]. by repeat constructor.
  - exists front. split; [|done]. unfold contents. rewrite Hstr2, Hstr1, Hstr, map_app, concat_app. cbn.
    by rewrite app_nil_r, app_assoc.
Qed.

Lemma async_write_fifo ph slot bytes ep s : fifo ph s -> fifo ph (async_write slot bytes ep s).1.
Proof.
  intros Hs. unfold async_write. cbn [w_start datagram_writes]. unfold queue_prepare.
  cbn [o_slot o_ep o_flags wr set_wr]. destruct (o_slot (next_ (wr s))) as [x|] eqn:E.
  - intros Hb. cbn [fst log set_wr] in *. destruct (Hs Hb) as (q & _ & [_ _ Hn _] & _). by rewrite E in Hn.
  - destruct (Buffer.prepare _ _) as [r b] eqn:Ep.
    intros Hb. cbn [fst log observe set_wr wr] in *. rewrite log_on_poll in *. cbn [log set_wr] in *.
    rewrite written_snoc in Hb. cbn [cost] in Hb. destruct (Hs ltac:(lia)) as (q & Hspec & Hq & Hv).
    pose proof (fifo_append ph q (wr s) slot bytes ep Hq ltac:(lia)) as Ha. rewrite Ep in Ha.
    destruct Ha as [Ha Hv']. exists (q ++ [(slot, bytes, ep)]). rewrite run_spec_snoc, Hspec, written_snoc.
    split; [done|]. split; [exact Ha|]. cbn [cost wbuf_]. lia.
Qed.

Lemma act_fifo ph a s : fifo ph s -> fifo ph (act a s).1.
Proof.
  intros Hs. destruct a; cbn [act fst];
    [by apply async_recv_fifo | by apply async_write_fifo | by apply fifo_on_poll | done].
Qed.

Lemma run_actions_fifo ph acts s : fifo ph s -> fifo ph (run_actions acts s).1.
Proof.
  revert s. induction acts as [|a acts IH]; intros s Hs; [done|]. cbn [run_actions].
  pose proof (act_fifo ph a s Hs) as Ha. destruct (act a s) as [s' []]; [done | by apply IH].
Qed.

Variable callback : completion -> State SocketWriteQueue -> list action.
Hypothesis Hquiet : quiet_callback callback.

Lemma invoke_fifo ph c s : fifo ph (observe s (Completed c)) ->
  (invoke callback c s).2 = false /\ fifo ph (invoke callback c s).1.
Proof. intros Hs. split; [apply Hquiet | by apply run_actions_fifo]. Qed.

Lemma read_complete_fifo s : fifo Idle s ->
  (read_complete callback s).2 <> Threw /\ fifo Idle (read_complete callback s).1.
Proof.
  intros Hs. unfold read_complete.
  assert (fifo Idle (sys_recv (r_size (rd s)) (r_flags (rd s)) s).2) as H1.
  { by eapply (fifo_neutral _ (Received (r_size (rd s)) (r_flags (rd s)) _) s). }
  destruct (sys_recv _ _ s) as [[size ec] s1]. cbn [snd] in H1.
  destruct (would_block _); cbn [fst snd]; [split; [done | by apply fifo_on_poll]|].
  match goal with |- context [invoke callback ?c ?t] => destruct (invoke_fifo Idle c t) as [Hth Hi] end.
  { by apply (fifo_neutral _ (Completed (mkCompletion true (default 0 (r_slot (rd s1))) size ec)) s1). }
  destruct (invoke callback _ _) as [s3 threw]. cbn [fst snd] in *. subst threw. cbn [fst snd].
  split; [done|]. destruct (r_pending _); [done | by apply fifo_on_poll].
Qed.

(** The front: what is sent, what is completed, what is consumed. *)
Lemma fifo_send op rest flags ep s : fifo Idle s -> queue_ (wr s) = op :: rest -> o_ep op = Some ep ->
  let bytes := take (Z.to_nat (o_size op)) (Buffer.str (wbuf_ (wr s))) in
  let '(r, s') := sys_send bytes flags ep s in
  fifo (if would_block r then Idle else Replied r) s' /\ wr s' = wr s.
Proof.
  intros Hs Eq Eep bytes0. destruct (sys_send bytes0 _ _ s) as [r s'] eqn:E. injection E as Er Es. subst s'.
  split; [|done]. intros Hb. cbn [log wr] in *. rewrite written_snoc in *. cbn [cost] in *.
  destruct (Hs ltac:(lia)) as (q & Hspec & Hq & Hv). exists q.
  pose proof Hq as [(ops & Hops & Hdesc) (front & Hstr & Hfront) Hn Hwf]. cbn in Hops, Hfront.
  destruct front; [|cbn in Hfront; lia]. rewrite Eq in Hops. subst ops.
  destruct q as [|[[slot bytes] ep'] q]; [by apply Forall2_cons_nil_inv in Hdesc|].
  apply Forall2_cons in Hdesc as [(Hd1 & Hd2 & Hd3) Hdesc]. cbn in Hd1, Hd2, Hd3.
  rewrite run_spec_snoc, Hspec. cbn [mbind option_bind write_spec reply_of]. rewrite Er.
  rewrite bool_decide_true.
  - split; [by destruct (would_block r)|]. split; [|lia]. split; [| | done | done].
    + exists (op :: rest). split; [by destruct (would_block r)|]. constructor; [by split | done].
    + exists []. split; [done|]. by destruct (would_block r).
  - unfold bytes0. rewrite Hstr, Hd2, Nat2Z.id. rewrite Eep in Hd3. injection Hd3 as <-. cbn. by rewrite take_app_length.
Qed.

Lemma fifo_reply op rest slot size ec s : fifo (Replied (size, ec)) s -> queue_ (wr s) = op :: rest ->
  o_slot op = Some slot ->
  fifo (InCallback (o_size op))
    (observe (set_wr s (mkQueue (empty_op :: rest) (wbuf_ (wr s)) (next_ (wr s))))
       (Completed (mkCompletion false slot size ec))).
Proof.
  intros Hs Eq Eslot Hb. cbn [log observe set_wr wr wbuf_] in *. rewrite written_snoc in *. cbn [cost] in *.
  destruct (Hs ltac:(lia)) as (q & Hspec & [(ops & Hops & Hdesc) (front & Hstr & Hfront) Hn Hwf] & Hv).
  cbn in Hops, Hfront. destruct front; [|cbn in Hfront; lia]. rewrite Eq in Hops. subst ops.
  destruct q as [|[[slot' bytes] ep] q]; [by apply Forall2_cons_nil_inv in Hdesc|].
  apply Forall2_cons in Hdesc as [(Hd1 & Hd2 & Hd3) Hdesc]. cbn in Hd1, Hd2, Hd3.
  rewrite Eslot in Hd1. injection Hd1 as <-. exists q. rewrite run_spec_snoc, Hspec.
  cbn [mbind option_bind write_spec reply_of c_read c_slot c_size c_ec]. rewrite bool_decide_true by done.
  split; [done|]. split; [|lia]. split; cbn [queue_ wbuf_ next_ queue_of front_size]; [by exists rest | | done | done].
  exists bytes. split; [|lia]. by rewrite Hstr.
Qed.

Lemma fifo_pop sz s s' : fifo (InCallback sz) s -> log s' = log s ->
  wr s' = mkQueue (tail (queue_ (wr s))) (Buffer.consume sz (wbuf_ (wr s))) (next_ (wr s)) -> fifo Idle s'.
Proof.
  intros Hs Hl Hw Hb. rewrite Hl in *.
  destruct (Hs Hb) as (q & Hspec & [(ops & Hops & Hdesc) (front & Hstr & Hfront) Hn Hwf] & Hv).
  cbn in Hops, Hfront. exists q. split; [done|]. rewrite Hw. cbn [wbuf_].
  pose proof (str_length (wbuf_ (wr s)) Hwf) as Hlen. rewrite Hstr, length_app in Hlen.
  destruct (consume_facts sz (wbuf_ (wr s)) Hwf) as (Hwf' & Hstr' & Hvs & _); [lia|].
  split; [|lia]. split; cbn [queue_ wbuf_ next_]; [| | done | done].
  - exists ops. by rewrite Hops.
  - exists []. split; [|done]. rewrite Hstr', Hstr, <- Hfront, Nat2Z.id. cbn. by rewrite drop_app_length.
Qed.

Lemma queue_complete_fifo fuel s s' st : fifo Idle s ->
  queue_complete (invoke callback) fuel s = Some (s', st) -> st <> Threw /\ fifo Idle s'.
Proof.
  revert s. induction fuel as [|fuel IH]; intros s Hs Hr; cbn [queue_complete] in Hr;
    destruct (queue_ (wr s)) as [|op rest] eqn:Eq; try done; try (by injection Hr as <- <-).
  destruct (o_ep op) as [ep|] eqn:Eep; [|done].
  pose proof (fifo_send op rest (o_flags op) ep s Hs Eq Eep) as Hsend. cbv zeta in Hsend.
  destruct (sys_send _ _ _ s) as [[size ec] s1]. destruct Hsend as [H1 Ew].
  destruct (would_block (size, ec)); [injection Hr as <- <-; split; [done | by apply fifo_on_poll]|].
  destruct (o_slot op) as [slot|] eqn:Eslot; [|done]. rewrite <- Ew in Eq.
  destruct (invoke_fifo _ _ _ (fifo_reply op rest slot size ec s1 H1 Eq Eslot)) as [Hth Hi].
  destruct (invoke callback _ _) as [s3 threw]. cbn [fst snd] in *. subst threw.
  refine (IH _ _ Hr). eapply (fifo_pop _ s3); [exact Hi | |].
  - cbn [log set_wr]. by rewrite log_on_poll.
  - cbn [wr set_wr]. by rewrite wr_on_poll.
Qed.

(** *** The loops *)

Lemma read_loop_fifo fuel s ev ag s' ev' ag' th : fifo Idle s ->
  read_loop callback fuel s ev ag = Some (s', ev', ag', th) -> th = false /\ fifo Idle s'.
Proof.
  revert s ag. induction fuel as [|fuel IH]; intros s ag Hs Hr; cbn [read_loop] in Hr;
    destruct (r_pending (rd s)); try done; try (by injection Hr as <- _ _ <-).
  pose proof (read_complete_fifo s Hs) as [Hn Hi]. destruct (read_complete callback s) as [s1 []]; cbn in *;
    [by injection Hr as <- _ _ <- | by apply (IH s1 true) | done].
Qed.

Lemma write_loop_fifo fuel s ev ag s' ev' ag' th : fifo Idle s ->
  write_loop callback fuel s ev ag = Some (s', ev', ag', th) -> th = false /\ fifo Idle s'.
Proof.
  revert s ag. induction fuel as [|fuel IH]; intros s ag Hs Hr; cbn [write_loop] in Hr;
    destruct (w_pending (wr s)); try done; try (by injection Hr as <- _ _ <-).
  destruct (w_complete (invoke callback) fuel s) as [[s1 st]|] eqn:E; [|done].
  destruct (queue_complete_fifo fuel s s1 st Hs E) as [Hn Hi].
  destruct st; [by injection Hr as <- _ _ <- | by apply (IH s1 true) | done].
Qed.

Lemma io_rounds_fifo rounds fuel s ev s' th : fifo Idle s ->
  io_rounds callback rounds fuel s ev = Some (s', th) -> th = false /\ fifo Idle s'.
Proof.
  revert s ev. induction rounds as [|rounds IH]; intros s ev Hs Hr; cbn [io_rounds] in Hr;
    [by injection Hr as <- <-|].
  destruct (if has ev EvRead then _ else _) as [[[[s1 ev1] ag1] th1]|] eqn:E1; [|done].
  assert (th1 = false /\ fifo Idle s1) as [-> H1].
  { destruct (has ev EvRead); [by eapply read_loop_fifo | by injection E1 as <- _ _ <-]. }
  destruct (if has ev1 EvWrite then _ else _) as [[[[s2 ev2] ag2] th2]|] eqn:E2; [|done].
  assert (th2 = false /\ fifo Idle s2) as [-> H2].
  { destruct (has ev1 EvWrite); [by eapply write_loop_fifo | by injection E2 as <- _ _ <-]. }
  destruct (_ || _); [by injection Hr as <- <- | by apply (IH s2 ev2)].
Qed.

Lemma run_step_fifo fuel st s s' : fifo Idle s -> run_step fuel callback st s = Some s' -> fifo Idle s'.
Proof.
  intros Hs Hr. destruct st as [a | ev | fd slot]; cbn [run_step] in Hr.
  - injection Hr as <-. by apply act_fifo.
  - unfold on_io_event in Hr. destruct (io_rounds _ _ _ _ _) as [[s1 th]|] eqn:E; [|done].
    apply io_rounds_fifo in E as [-> H1]; [|by apply fifo_on_poll]. injection Hr as <-. by do 2 apply fifo_on_poll.
  - injection Hr as <-. unfold open, set_io_slot. case_bool_decide; [by apply fifo_on_poll|].
    apply fifo_on_poll. match goal with |- fifo _ (mkState _ _ _ (rd ?t) _ _ _ _) => apply (fifo_same _ t) end;
      [done | done | by apply fifo_on_poll].
Qed.

Lemma run_fifo fuel steps s s' : fifo Idle s -> run fuel callback steps s = Some s' -> fifo Idle s'.
Proof.
  revert s. induction steps as [|st steps IH]; intros s Hs Hr; cbn [run] in Hr; [by injection Hr as <-|].
  destruct (run_step fuel callback st s) as [s1|] eqn:E; [|done]. by eapply IH; [eapply run_step_fifo|].
Qed.
End fifo.

Lemma new_queue_fifo e rs ss : fifo Idle (new_socket e new_queue rs ss).
Proof.
  intros _. exists []. split; [done|]. split; [|done]. split; [by exists [] | by exists [] | done |].
  split; cbn; unfold Buffer.vector_size; cbn; lia.
Qed.



(** A callback of a datagram's completion that throws wrecks the queue: the
    message that was sent stays at the front without its callback and its
    destination, and the next write event dereferences the null destination; without
    the exception the next message is sent. *)
Theorem throwing_callback_wrecks_queue :
  let steps := [Open 5 1; Act (AsyncWrite 7 [65] 3); Act (AsyncWrite 8 [66] 4); Event EvWrite; Event EvWrite] in
  let session callback := run 9 callback steps (new_socket (make_epoll 3 4 8) new_queue [] [(1, 0); (-1, EWOULDBLOCK); (1, 0)]) in
  session (fun _ _ => [Throw]) = None
  /\ option_map (fun s => omap (fun o => match o with Sent bytes _ ep r => Some (bytes, ep, r) | _ => None end) (log s))
       (session (fun _ _ => []))
     = Some [([65], 3, (1, 0)); ([66], 4, (-1, EWOULDBLOCK)); ([66], 4, (1, 0))].
Proof. by vm_compute. Qed.
