(* ===== verification/Frame.v ===== *)
(** * Frames and byte order

    Models [toolbox/net/Frame.hpp] (messages behind a 4 byte length) and
    [toolbox/net/Endian.hpp] (swapping the bytes of integers), and a receiver that
    parses the frames of a stream out of the buffer of file Buffer. *)
From S2P Require Import Prelude Buffer.

(** A byte is its numeric value. *)
Definition is_byte (b : Z) : Prop := 0 <= b < 256.

Abbreviation u8 := (wrapu 8).
Abbreviation u16 := (wrapu 16).

(** ** Definitions *)

(** [get_length] of the first four bytes.  The shifts are on [int]; what they lose is
    lost by the conversion as well. *)
Definition get_length (buf : list Z) : Z :=
  let byte i := Z.land (nth i buf 0) 255 in
  u32 (Z.lor (Z.lor (Z.lor (Z.shiftl (byte 3%nat) 24) (Z.shiftl (byte 2%nat) 16))
               (Z.shiftl (byte 1%nat) 8)) (byte 0%nat)).

(** [put_length] stores the first four bytes of a buffer. *)
Definition put_length (buf : list Z) (len : Z) : list Z :=
  [u8 (Z.land 255 len); u8 (Z.land 255 (Z.shiftr len 8)); u8 (Z.land 255 (Z.shiftr len 16));
   u8 (Z.land 255 (Z.shiftr len 24))] ++ drop 4 buf.

(** [parse_frame]: the messages that the function object is called for and the number
    of consumed bytes. *)
Fixpoint parse_frame (fuel : nat) (buf : list Z) : option (list (list Z) * Z) :=
  match fuel with
  | O => None
  | S fuel =>
      let size := Z.of_nat (length buf) in
      if size <? 4 then Some ([], 0)
      else
        let total := u64 (4 + get_length buf) in
        if size <? total then Some ([], 0)
        else
          let msg := take (Z.to_nat (total - 4)) (drop 4 buf) in
          '(msgs, consumed) ← parse_frame fuel (drop (Z.to_nat total) buf);
          Some (msg :: msgs, total + consumed)
  end.

Definition bswap16 (n : Z) : Z := u16 (Z.lor (Z.shiftl n 8) (Z.shiftr n 8)).
Definition bswap32 (n : Z) : Z :=
  Z.lor (Z.lor (Z.lor (Z.shiftr n 24) (Z.land (Z.shiftr n 8) 0xff00)) (Z.land (u32 (Z.shiftl n 8)) 0xff0000))
    (u32 (Z.shiftl n 24)).
Definition bswap64 (n : Z) : Z :=
  let hi := u64 (Z.shiftl (bswap32 (u32 n)) 32) in
  Z.lor hi (bswap32 (u32 (Z.shiftr n 32))).

(** The signed ones, by conversion. *)
Definition bswap_signed (w : Z) (bswap : Z -> Z) (n : Z) : Z := wraps w (bswap (wrapu w n)).

(** [ntoh] and [hton] of a type, on a little endian machine. *)
Inductive int_type := Int16 | UInt16 | Int32 | UInt32 | Int64 | UInt64.
Definition hton (t : int_type) : Z -> Z :=
  match t with
  | Int16 => bswap_signed 16 bswap16 | UInt16 => bswap16
  | Int32 => bswap_signed 32 bswap32 | UInt32 => bswap32
  | Int64 => bswap_signed 64 bswap64 | UInt64 => bswap64
  end.
Definition ntoh : int_type -> Z -> Z := hton.

(** ** Numbers of bytes *)

(** The number that bytes in memory stand for, and the other way round. *)
Fixpoint le (bs : list Z) : Z := match bs with [] => 0 | b :: bs => b + 256 * le bs end.
Fixpoint bytes_le (n : nat) (z : Z) : list Z :=
  match n with O => [] | S n => z mod 256 :: bytes_le n (z / 256) end.

Lemma le_range bs : Forall is_byte bs -> 0 <= le bs < 2 ^ (8 * Z.of_nat (length bs)).
Proof.
  induction 1 as [|b bs Hb Hbs IH]; cbn [le length]; [lia|]. unfold is_byte in Hb.
  replace (8 * Z.of_nat (S (length bs))) with (8 + 8 * Z.of_nat (length bs)) by lia.
  rewrite Z.pow_add_r by lia. change (2 ^ 8) with 256. lia.
Qed.

Lemma length_bytes_le n z : length (bytes_le n z) = n.
Proof. revert z. induction n; intros; cbn; [done|]. by rewrite IHn. Qed.

Lemma bytes_le_bytes n z : Forall is_byte (bytes_le n z).
Proof.
  revert z. induction n; intros; cbn; constructor; [|done]. unfold is_byte. pose proof (Z.mod_pos_bound z 256). lia.
Qed.

Lemma le_bytes_le n z : 0 <= z < 2 ^ (8 * Z.of_nat n) -> le (bytes_le n z) = z.
Proof.
  revert z. induction n as [|n IH]; intros z Hz; cbn [bytes_le le]; [cbn in Hz; lia|].
  replace (8 * Z.of_nat (S n)) with (8 + 8 * Z.of_nat n) in Hz by lia.
  rewrite Z.pow_add_r in Hz by lia. change (2 ^ 8) with 256 in Hz.
  rewrite IH; [pose proof (Z.div_mod z 256); lia|]. split; [apply Z.div_pos; lia|].
  apply Z.div_lt_upper_bound; lia.
Qed.

Lemma byte_high b k : is_byte b -> 8 <= k -> Z.testbit b k = false.
Proof. intros Hb Hk. unfold is_byte in Hb. 
  apply (proj1 (Z.bounded_iff_bits_nonneg 8 b ltac:(lia) ltac:(lia))); lia.
Qed.

(** Appending a byte below a number. *)
Lemma lor_byte a b : is_byte b -> Z.lor (Z.shiftl a 8) b = b + 256 * a.
Proof.
  intros Hb. rewrite <- Z.lxor_lor, <- Z.add_nocarry_lxor; [rewrite Z.shiftl_mul_pow2; lia | |];
    (apply Z.bits_inj'; intros i Hi; rewrite Z.land_spec, Z.testbit_0_l;
     destruct (decide (i < 8)); [by rewrite Z.shiftl_spec_low by lia|];
     rewrite (byte_high b) by (done || lia); apply andb_false_r).
Qed.

Lemma le_testbit bs k : Forall is_byte bs -> 0 <= k ->
  Z.testbit (le bs) k = Z.testbit (nth (Z.to_nat (k / 8)) bs 0) (k mod 8).
Proof.
  intros Hbs. revert k. induction Hbs as [|b bs Hb Hbs IH]; intros k Hk; cbn [le].
  - rewrite Z.testbit_0_l. destruct (Z.to_nat (k / 8)); by rewrite Z.testbit_0_l.
  - rewrite <- lor_byte, Z.lor_spec, Z.shiftl_spec by (done || lia). destruct (decide (k < 8)) as [Hlt | Hge].
    + by rewrite Z.testbit_neg_r, Z.div_small, Z.mod_small by lia.
    + rewrite IH, (byte_high b), orb_false_r by (done || lia).
      replace (k - 8) with (k + (-1) * 8) by lia. rewrite Z.div_add, Z.mod_add by lia.
      assert (1 <= k / 8) by (apply Z.div_le_lower_bound; lia).
      by replace (Z.to_nat (k / 8)) with (S (Z.to_nat (k / 8 + -1))) by lia.
Qed.

Lemma land_byte b : is_byte b -> Z.land b 255 = b.
Proof. intros Hb. unfold is_byte in Hb. change 255 with (2 ^ 8 - 1). rewrite land_pred_pow2 by lia. apply Z.mod_small. lia. Qed.

Lemma u8_land z : u8 (Z.land 255 z) = z mod 256.
Proof.
  rewrite Z.land_comm. change 255 with (2 ^ 8 - 1). rewrite land_pred_pow2 by lia. unfold wrapu. change (2 ^ 8) with 256. apply Z.mod_mod. lia.
Qed.

(** The length is a little endian number. *)
Lemma get_length_le buf : Forall is_byte buf -> (4 <= length buf)%nat -> get_length buf = le (take 4 buf).
Proof.
  intros Hb Hl. destruct buf as [|b0 [|b1 [|b2 [|b3 rest]]]]; cbn in Hl; try lia.
  repeat (apply Forall_cons in Hb as [? Hb]). unfold get_length. cbn [nth take].
  rewrite !land_byte by done.
  replace (Z.lor (Z.lor (Z.lor (Z.shiftl b3 24) (Z.shiftl b2 16)) (Z.shiftl b1 8)) b0)
    with (Z.lor (Z.shiftl (Z.lor (Z.shiftl (Z.lor (Z.shiftl b3 8) b2) 8) b1) 8) b0)
    by (by rewrite !Z.shiftl_lor, !Z.shiftl_shiftl by lia).
  rewrite !lor_byte by done. assert (Forall is_byte [b0; b1; b2; b3]) as Hbs by by rewrite !Forall_cons.
  pose proof (le_range _ Hbs) as Hr.
  change (8 * Z.of_nat (length [b0; b1; b2; b3])) with 32 in Hr. cbn [le] in *. rewrite wrapu_small, take_0; cbn [le]; lia.
Qed.

Lemma put_length_le buf len : put_length buf len = bytes_le 4 len ++ drop 4 buf.
Proof.
  unfold put_length. rewrite !u8_land, !Z.shiftr_div_pow2 by lia. cbn [bytes_le].
  by rewrite !Z.div_div by lia.
Qed.

(** The bytes of a frame. *)
Definition frame (msg : list Z) : list Z := put_length [] (Z.of_nat (length msg)) ++ msg.

Lemma get_put_length len rest : 0 <= len < 2 ^ 32 -> Forall is_byte rest ->
  get_length (put_length [] len ++ rest) = len.
Proof.
  intros Hl Hr. rewrite put_length_le. cbn [drop]. rewrite app_nil_r.
  rewrite get_length_le; [| apply Forall_app; split; [apply bytes_le_bytes | done] | rewrite length_app, length_bytes_le; lia].
  by rewrite take_app_length', le_bytes_le by (by rewrite length_bytes_le || done).
Qed.

(** *** Parsing *)

Lemma get_length_range buf : 0 <= get_length buf < 2 ^ 32.
Proof. apply wrapu_range. lia. Qed.

Lemma total_eq buf : u64 (4 + get_length buf) = 4 + get_length buf.
Proof. pose proof (get_length_range buf). apply wrapu_small. lia. Qed.

(** A buffer that does not start with a whole frame. *)
Definition incomplete (buf : list Z) : Prop :=
  Z.of_nat (length buf) < 4 \/ Z.of_nat (length buf) < 4 + get_length buf.

Lemma parse_incomplete fuel buf : incomplete buf -> parse_frame (S fuel) buf = Some ([], 0).
Proof.
  intros Hi. cbn [parse_frame]. rewrite total_eq.
  destruct (Z.ltb_spec (Z.of_nat (length buf)) 4); [done|].
  destruct (Z.ltb_spec (Z.of_nat (length buf)) (4 + get_length buf)); [done|]. destruct Hi; lia.
Qed.

Lemma length_frame msg : length (frame msg) = (4 + length msg)%nat.
Proof. unfold frame. by rewrite length_app. Qed.

(** A whole frame at the start. *)
Lemma parse_frame_app fuel msg rest : Z.of_nat (length msg) < 2 ^ 32 ->
  Forall is_byte msg -> Forall is_byte rest ->
  parse_frame (S fuel) (frame msg ++ rest) =
    ('(msgs, consumed) ← parse_frame fuel rest; Some (msg :: msgs, 4 + Z.of_nat (length msg) + consumed)).
Proof.
  intros Hl Hm Hr. cbn [parse_frame]. rewrite total_eq.
  assert (get_length (frame msg ++ rest) = Z.of_nat (length msg)) as ->.
  { unfold frame. rewrite <- app_assoc. apply get_put_length; [lia|]. by apply Forall_app. }
  rewrite length_app, length_frame.
  destruct (Z.ltb_spec (Z.of_nat (4 + length msg + length rest)) 4); [lia|].
  destruct (Z.ltb_spec (Z.of_nat (4 + length msg + length rest)) (4 + Z.of_nat (length msg))); [lia|].
  replace (Z.to_nat (4 + Z.of_nat (length msg))) with (length (frame msg)) by (rewrite length_frame; lia).
  rewrite drop_app_length. replace (Z.to_nat (4 + Z.of_nat (length msg) - 4)) with (length msg) by lia.
  replace (take (length msg) (drop 4 (frame msg ++ rest))) with msg; [done|].
  unfold frame, put_length. cbn. by rewrite drop_0, take_app_length.
Qed.

(** Every buffer is a sequence of frames and an incomplete rest. *)
Lemma split_frame buf : Forall is_byte buf -> incomplete buf \/
  exists msg rest, buf = frame msg ++ rest /\ Z.of_nat (length msg) < 2 ^ 32 /\ Forall is_byte msg /\ Forall is_byte rest.
Proof.
  intros Hb. unfold incomplete. destruct (decide (Z.of_nat (length buf) < 4 \/ Z.of_nat (length buf) < 4 + get_length buf))
    as [Hi | Hc]; [by left | right]. pose proof (get_length_range buf) as Hg.
  assert (4 <= Z.of_nat (length buf) /\ 4 + get_length buf <= Z.of_nat (length buf)) as [H4 Ht] by lia.
  exists (take (Z.to_nat (get_length buf)) (drop 4 buf)), (drop (Z.to_nat (4 + get_length buf)) buf).
  assert (length (take (Z.to_nat (get_length buf)) (drop 4 buf)) = Z.to_nat (get_length buf)) as Hlen.
  { rewrite length_take, length_drop. lia. }
  split; [|split; [lia|]; split; [by apply Forall_take, Forall_drop | by apply Forall_drop]].
  unfold frame. rewrite Hlen, put_length_le. cbn [drop]. rewrite app_nil_r.
  rewrite Z2Nat.id by lia. assert (bytes_le 4 (get_length buf) = take 4 buf) as ->.
  { rewrite get_length_le by (done || lia).
    destruct buf as [|b0 [|b1 [|b2 [|b3 rest]]]]; cbn in H4; try lia.
    repeat (apply Forall_cons in Hb as [? Hb]). unfold is_byte in *. cbn [take le bytes_le].
    repeat f_equal; Z.to_euclidean_division_equations; lia. }
  rewrite <- app_assoc, <- (take_drop 4 buf) at 1. f_equal.
  replace (Z.to_nat (4 + get_length buf)) with (4 + Z.to_nat (get_length buf))%nat by lia.
  by rewrite <- drop_drop, take_drop.
Qed.

Definition frames (msgs : list (list Z)) : list Z := concat (map frame msgs).

(** Messages that a frame can hold. *)
Definition small (msg : list Z) : Prop := Z.of_nat (length msg) < 2 ^ 32 /\ Forall is_byte msg.

Lemma frames_app ms ms' : frames (ms ++ ms') = frames ms ++ frames ms'.
Proof. unfold frames. by rewrite map_app, concat_app. Qed.

Lemma frame_bytes msg : small msg -> Forall is_byte (frame msg).
Proof.
  intros [_ Hm]. unfold frame. rewrite put_length_le. apply Forall_app. split; [|done].
  apply Forall_app. split; [apply bytes_le_bytes | done].
Qed.

Lemma frames_bytes msgs : Forall small msgs -> Forall is_byte (frames msgs).
Proof.
  induction 1 as [|m ms Hm Hms IH]; [done|]. change (frames (m :: ms)) with (frame m ++ frames ms).
  apply Forall_app. split; [by apply frame_bytes | done].
Qed.

Lemma parse_frames fuel msgs rest : Forall small msgs -> Forall is_byte rest -> incomplete rest ->
  (length msgs < fuel)%nat ->
  parse_frame fuel (frames msgs ++ rest) = Some (msgs, Z.of_nat (length (frames msgs))).
Proof.
  intros Hs Hr Hi. revert fuel. induction Hs as [|m ms [Hl Hm] Hms IH]; intros fuel Hf;
    (destruct fuel as [|fuel]; [cbn in Hf; lia|]); [by apply parse_incomplete|].
  change (frames (m :: ms)) with (frame m ++ frames ms). rewrite <- app_assoc.
  rewrite parse_frame_app; [|done|done|apply Forall_app; split; [by apply frames_bytes | done]].
  cbn [length] in Hf. rewrite IH by lia. cbn [mbind option_bind]. rewrite length_app, length_frame. do 2 f_equal. lia.
Qed.

Lemma split_frames buf : Forall is_byte buf ->
  exists msgs rest, buf = frames msgs ++ rest /\ Forall small msgs /\ Forall is_byte rest /\ incomplete rest.
Proof.
  remember (length buf) as n eqn:En. revert buf En. induction (lt_wf n) as [n _ IH]. intros buf -> Hb.
  destruct (split_frame buf Hb) as [Hi | (m & rest & -> & Hl & Hm & Hr)]; [by exists [], buf|].
  destruct (IH (length rest)) with (buf := rest) as (ms & rest' & -> & Hs & Hr' & Hi'); [|done|done|].
  { rewrite length_app, length_frame. lia. }
  exists (m :: ms), rest'. split; [by rewrite (app_assoc (frame m))|]. split; [by constructor | done].
Qed.

Lemma length_frames msgs : (length msgs <= length (frames msgs))%nat.
Proof.
  induction msgs as [|m ms IH]; [done|]. change (frames (m :: ms)) with (frame m ++ frames ms).
  rewrite length_app, length_frame. cbn [length]. lia.
Qed.

Lemma frames_unique ms ms' rest rest' :
  Forall small ms -> Forall small ms' -> Forall is_byte rest -> Forall is_byte rest' ->
  incomplete rest -> incomplete rest' -> frames ms ++ rest = frames ms' ++ rest' -> ms = ms' /\ rest = rest'.
Proof.
  intros Hs Hs' Hr Hr' Hi Hi' E.
  pose proof (parse_frames (S (length ms + length ms')) ms rest Hs Hr Hi ltac:(lia)) as H1.
  pose proof (parse_frames (S (length ms + length ms')) ms' rest' Hs' Hr' Hi' ltac:(lia)) as H2.
  rewrite E, H2 in H1. injection H1 as -> _. split; [done|]. by apply app_inv_head in E.
Qed.

(** ** A receiver *)

(** A chunk arrives: it is stored in the buffer, the frames are parsed and what they
    take is consumed. *)
Definition receive (st : Buffer * list (list Z)) (chunk : list Z) : option (Buffer * list (list Z)) :=
  let '(b, msgs) := st in
  let '(r, b) := prepare (Z.of_nat (length chunk)) b in
  let b := commit (Z.of_nat (length chunk)) (store r chunk b) in
  '(new, consumed) ← parse_frame (S (length (str b))) (str b);
  Some (consume consumed b, msgs ++ new).

Fixpoint receive_all (st : Buffer * list (list Z)) (chunks : list (list Z)) : option (Buffer * list (list Z)) :=
  match chunks with
  | [] => Some st
  | c :: cs => st ← receive st c; receive_all st cs
  end.

(** What was received so far, as frames and the rest that is in the buffer. *)
Record received (stream : list Z) (b : Buffer) (msgs : list (list Z)) : Prop := {
  rc_stream : stream = frames msgs ++ str b;
  rc_small : Forall small msgs;
  rc_bytes : Forall is_byte (str b);
  rc_incomplete : incomplete (str b);
  rc_wf : wf b;
  rc_size : vector_size b <= Z.of_nat (length stream)
}.

Lemma receive_ok stream b msgs chunk : received stream b msgs -> Forall is_byte chunk ->
  Z.of_nat (length (stream ++ chunk)) < 2 ^ 63 ->
  exists b' msgs', receive (b, msgs) chunk = Some (b', msgs') /\ received (stream ++ chunk) b' msgs'.
Proof.
  intros [Hst Hs Hb Hi Hwf Hsz] Hc Hmax. unfold receive. rewrite length_app in Hmax.
  pose proof (prepare_facts (Z.of_nat (length chunk)) b Hwf ltac:(lia) ltac:(lia)) as Hp.
  destruct (prepare _ b) as [r b1]. destruct Hp as (Hwf1 & Hstr1 & _ & Hwp & Hd & Hreg & Hend & Hvs).
  destruct (store_commit_facts r chunk b1 Hwf1) as (Hwf2 & Hstr2 & Hvs2); [lia | lia |].
  cbv zeta. set (b2 := commit _ _) in *. rewrite Hstr1 in Hstr2.
  destruct (split_frames (str b2)) as (ms & rest & Es & Hms & Hr & Hir);
    [rewrite Hstr2; by apply Forall_app|].
  assert (parse_frame (S (length (str b2))) (str b2) = Some (ms, Z.of_nat (length (frames ms)))) as ->.
  { rewrite Es. apply parse_frames; [done..|]. rewrite length_app. pose proof (length_frames ms). lia. }
  cbn [mbind option_bind]. eexists _, _. split; [reflexivity|].
  pose proof (str_length b2 Hwf2) as Hlen. rewrite Es, length_app in Hlen.
  destruct (consume_facts (Z.of_nat (length (frames ms))) b2 Hwf2) as (Hwf3 & Hstr3 & Hvs3 & _); [lia|].
  rewrite Nat2Z.id, Es, drop_app_length in Hstr3.
  split; rewrite ?Hstr3; try done.
  - rewrite Hst, frames_app, <- app_assoc, <- Hstr2, Es, app_assoc. done.
  - by apply Forall_app.
  - rewrite Hvs3, Hvs2, Hvs, length_app. destruct Hwf as [_ Hw]. lia.
Qed.

Lemma receive_all_ok chunks stream b msgs : received stream b msgs -> Forall (Forall is_byte) chunks ->
  Z.of_nat (length (stream ++ concat chunks)) < 2 ^ 63 ->
  exists b' msgs', receive_all (b, msgs) chunks = Some (b', msgs') /\ received (stream ++ concat chunks) b' msgs'.
Proof.
  intros Hst Hc. revert stream b msgs Hst. induction Hc as [|c cs Hc Hcs IH]; intros stream b msgs Hst Hmax; cbn [receive_all concat] in *.
  - exists b, msgs. by rewrite app_nil_r.
  - rewrite app_assoc in Hmax |- *.
    destruct (receive_ok stream b msgs c Hst Hc) as (b1 & ms1 & -> & H1); [revert Hmax; rewrite !length_app; lia|].
    apply (IH _ _ _ H1 Hmax).
Qed.

(** ** Byte order *)

(** Splitting a bit index of a small range into its values. *)
Ltac bit_cases k n :=
  let go m := (assert (k = m \/ k <> m) as [-> | ?] by lia) in
  lazymatch n with
  | 0 => try lia
  | _ => let m := eval vm_compute in (n - 1) in go m; [| bit_cases k m]
  end.

Lemma testbit_u w n k : 0 <= k < w -> Z.testbit (wrapu w n) k = Z.testbit n k.
Proof. intros. unfold wrapu. by rewrite Z.mod_pow2_bits_low by lia. Qed.

Lemma testbit_high w n k : 0 <= n < 2 ^ w -> 0 <= w <= k -> Z.testbit n k = false.
Proof.
  intros Hn Hk. apply (proj1 (Z.bounded_iff_bits_nonneg w n ltac:(lia) ltac:(lia))); lia.
Qed.

Ltac bits := rewrite ?Z.lor_spec, ?Z.land_spec, ?Z.shiftl_spec, ?Z.shiftr_spec by lia.

(** Evaluate the bits of constants and the constant indices; bits out of range are off. *)
Ltac eval_bits w :=
  repeat match goal with
    | |- context [Z.testbit ?n ?e] =>
        first [ is_var n; let e' := eval vm_compute in e in progress change e with e'
              | let b := eval vm_compute in (Z.testbit n e) in
                lazymatch b with true => idtac | false => idtac end; change (Z.testbit n e) with b
              | rewrite (testbit_high w n e) by lia
              | rewrite (Z.testbit_neg_r n e) by lia ]
    end;
  rewrite ?andb_true_r, ?andb_false_r, ?orb_false_r, ?orb_false_l; try reflexivity.

(** The bit of a swapped number: bytes in the other order, bits of a byte in the same. *)
Definition swapped (bytes k : Z) : Z := 8 * (bytes - 1 - k / 8) + k mod 8.

Lemma bswap16_bit n k : 0 <= n < 2 ^ 16 -> 0 <= k < 16 ->
  Z.testbit (bswap16 n) k = Z.testbit n (swapped 2 k).
Proof.
  intros Hn Hk. unfold bswap16. rewrite testbit_u by lia. bits. unfold swapped. bit_cases k 16; eval_bits 16.
Qed.

Lemma bswap32_bit n k : 0 <= n < 2 ^ 32 -> 0 <= k < 32 ->
  Z.testbit (bswap32 n) k = Z.testbit n (swapped 4 k).
Proof.
  intros Hn Hk. unfold bswap32. bits. rewrite !testbit_u by lia. bits. unfold swapped. bit_cases k 32; eval_bits 32.
Qed.

Lemma lor_range w a b : 0 <= w -> 0 <= a < 2 ^ w -> 0 <= b < 2 ^ w -> 0 <= Z.lor a b < 2 ^ w.
Proof.
  intros Hw Ha Hb. assert (0 <= Z.lor a b) by (apply Z.lor_nonneg; lia). split; [done|].
  apply Z.bounded_iff_bits_nonneg; [lia..|]. intros k Hk.
  by rewrite Z.lor_spec, (testbit_high w a), (testbit_high w b) by lia.
Qed.

Lemma land_range w a b : 0 <= w -> 0 <= a -> 0 <= b < 2 ^ w -> 0 <= Z.land a b < 2 ^ w.
Proof.
  intros Hw Ha Hb. assert (0 <= Z.land a b) by (apply Z.land_nonneg; lia). split; [done|].
  apply Z.bounded_iff_bits_nonneg; [lia..|]. intros k Hk.
  by rewrite Z.land_spec, (testbit_high w b), andb_false_r by lia.
Qed.

Lemma bswap16_range n : 0 <= bswap16 n < 2 ^ 16.
Proof. apply wrapu_range. lia. Qed.

Lemma bswap32_range n : 0 <= n < 2 ^ 32 -> 0 <= bswap32 n < 2 ^ 32.
Proof.
  intros Hn. assert (forall i, 0 <= i -> 0 <= Z.shiftr n i < 2 ^ 32) as Hs.
  { intros i Hi. rewrite Z.shiftr_div_pow2 by done. split; [apply Z.div_pos; lia|].
    apply Z.div_lt_upper_bound; [lia|]. assert (1 <= 2 ^ i) by (pose proof (pow2_pos i Hi); lia). nia. }
  unfold bswap32. pose proof (wrapu_range 32 (Z.shiftl n 8) ltac:(lia)).
  repeat apply lor_range; try lia; [apply Hs; lia | | | apply wrapu_range; lia]; apply land_range; try lia.
  apply Hs. lia.
Qed.

Lemma bswap64_range n : 0 <= n < 2 ^ 64 -> 0 <= bswap64 n < 2 ^ 64.
Proof.
  intros Hn. pose proof (bswap32_range (u32 (Z.shiftr n 32)) (wrapu_range 32 _ ltac:(lia))).
  apply lor_range; [lia | apply wrapu_range; lia | lia].
Qed.

Lemma bswap64_bit n k : 0 <= n < 2 ^ 64 -> 0 <= k < 64 ->
  Z.testbit (bswap64 n) k = Z.testbit n (swapped 8 k).
Proof.
  intros Hn Hk. unfold bswap64. rewrite Z.lor_spec, testbit_u, Z.shiftl_spec by lia.
  pose proof (bswap32_range (u32 (Z.shiftr n 32)) (wrapu_range 32 _ ltac:(lia))) as Hlo.
  unfold swapped. pose proof (Z.div_mod k 8 ltac:(lia)). pose proof (Z.mod_pos_bound k 8 ltac:(lia)).
  destruct (decide (k < 32)).
  - rewrite Z.testbit_neg_r, bswap32_bit by (lia || apply wrapu_range; lia). cbn [orb]. unfold swapped.
    assert (0 <= k / 8 < 4) by (split; [apply Z.div_pos; lia | apply Z.div_lt_upper_bound; lia]).
    rewrite testbit_u, Z.shiftr_spec by lia. f_equal. lia.
  - rewrite (testbit_high 32 (bswap32 (u32 (Z.shiftr n 32)))), orb_false_r by lia.
    rewrite bswap32_bit by (lia || apply wrapu_range; lia). unfold swapped.
    replace (k - 32) with (k + (-4) * 8) by lia. rewrite Z.div_add, Z.mod_add by lia.
    assert (4 <= k / 8 < 8) by (split; [apply Z.div_le_lower_bound; lia | apply Z.div_lt_upper_bound; lia]).
    rewrite testbit_u by lia. f_equal. lia.
Qed.

(** A function that swaps the bits so reverses the bytes. *)
Lemma swap_reverses (N : nat) (f : Z -> Z) bs :
  (forall n k, 0 <= n < 2 ^ (8 * Z.of_nat N) -> 0 <= k < 8 * Z.of_nat N ->
     Z.testbit (f n) k = Z.testbit n (swapped (Z.of_nat N) k)) ->
  (forall n, 0 <= n < 2 ^ (8 * Z.of_nat N) -> 0 <= f n < 2 ^ (8 * Z.of_nat N)) ->
  length bs = N -> Forall is_byte bs -> f (le bs) = le (rev bs).
Proof.
  intros Hbit Hrange Hl Hb. pose proof (le_range bs Hb) as Hle. rewrite Hl in Hle.
  assert (Forall is_byte (rev bs)) as Hrb by (by apply List.Forall_rev).
  apply Z.bits_inj'. intros k Hk. destruct (decide (k < 8 * Z.of_nat N)) as [Hlt | Hge].
  - rewrite Hbit, !le_testbit by (done || unfold swapped; pose proof (Z.mod_pos_bound k 8);
      assert (k / 8 < Z.of_nat N) by (apply Z.div_lt_upper_bound; lia); lia).
    assert (0 <= k / 8 < Z.of_nat N) by (split; [apply Z.div_pos; lia | apply Z.div_lt_upper_bound; lia]).
    unfold swapped. rewrite (Z.mul_comm 8), Z.add_comm, Z.div_add, Z.mod_add by lia.
    rewrite Z.mod_mod, (Z.div_small (k mod 8)) by (pose proof (Z.mod_pos_bound k 8); lia).
    rewrite rev_nth by lia. f_equal. f_equal. lia.
  - pose proof (le_range (rev bs) Hrb) as Hler. rewrite length_rev, Hl in Hler.
    rewrite (testbit_high (8 * Z.of_nat N)), (testbit_high (8 * Z.of_nat N)) by (try apply Hrange; lia). done.
Qed.

(** The sizes and the numbers of the types. *)
Definition bytes_of_type (t : int_type) : nat :=
  match t with Int16 | UInt16 => 2 | Int32 | UInt32 => 4 | Int64 | UInt64 => 8 end.
Definition width (t : int_type) : Z := 8 * Z.of_nat (bytes_of_type t).
Definition signed (t : int_type) : bool := match t with Int16 | Int32 | Int64 => true | _ => false end.
Definition in_range (t : int_type) (n : Z) : Prop :=
  if signed t then - 2 ^ (width t - 1) <= n < 2 ^ (width t - 1) else 0 <= n < 2 ^ width t.
Definition unsigned_swap (t : int_type) : Z -> Z :=
  match t with Int16 | UInt16 => bswap16 | Int32 | UInt32 => bswap32 | Int64 | UInt64 => bswap64 end.

(** The bytes of a number in memory. *)
Definition memory (t : int_type) (n : Z) : list Z := bytes_le (bytes_of_type t) (wrapu (width t) n).

Lemma unsigned_swap_bits t :
  (forall n k, 0 <= n < 2 ^ width t -> 0 <= k < width t ->
     Z.testbit (unsigned_swap t n) k = Z.testbit n (swapped (Z.of_nat (bytes_of_type t)) k)) /\
  (forall n, 0 <= n < 2 ^ width t -> 0 <= unsigned_swap t n < 2 ^ width t).
Proof.
  destruct t; split; intros;
    first [by apply bswap16_bit | by apply bswap32_bit | by apply bswap64_bit
          | apply bswap16_range | by apply bswap32_range | by apply bswap64_range].
Qed.

Lemma unsigned_swap_reverses t n : 0 <= n < 2 ^ width t ->
  unsigned_swap t n = le (rev (bytes_le (bytes_of_type t) n)) /\ 0 <= unsigned_swap t n < 2 ^ width t.
Proof.
  intros Hn. destruct (unsigned_swap_bits t) as [Hbit Hrange]. split; [|by apply Hrange].
  rewrite <- (le_bytes_le (bytes_of_type t) n Hn) at 1.
  apply (swap_reverses (bytes_of_type t)); [exact Hbit | exact Hrange | apply length_bytes_le | apply bytes_le_bytes].
Qed.

Lemma bytes_le_inj bs : Forall is_byte bs -> bytes_le (length bs) (le bs) = bs.
Proof.
  induction 1 as [|b bs Hb Hbs IH]; [done|]. cbn [length bytes_le le]. unfold is_byte in Hb.
  replace (b + 256 * le bs) with (b + le bs * 256) by lia. rewrite Z.mod_add, Z.div_add by lia.
  rewrite Z.mod_small, Z.div_small, Z.add_0_l by lia. by rewrite IH.
Qed.

Lemma wrapu_wraps w n : 0 < w -> wrapu w (wraps w n) = wrapu w n.
Proof.
  intros Hw. unfold wrapu, wraps. rewrite Zminus_mod_idemp_l. f_equal. lia.
Qed.

Lemma wraps_wrapu w n : 0 < w -> wraps w (wrapu w n) = wraps w n.
Proof. intros Hw. unfold wraps, wrapu. by rewrite Zplus_mod_idemp_l. Qed.

Lemma int_width_pos t : 0 < width t.
Proof. by destruct t. Qed.

Lemma width_wrapu t n : 0 <= wrapu (width t) n < 2 ^ width t.
Proof. apply wrapu_range. pose proof (int_width_pos t). lia. Qed.

(** [hton] stores the bytes of a number the other way round. *)
Lemma hton_swap t n : in_range t n ->
  wrapu (width t) (hton t n) = unsigned_swap t (wrapu (width t) n) /\ in_range t (hton t n).
Proof.
  intros Hn. pose proof (int_width_pos t) as Hw.
  destruct (unsigned_swap_reverses t (wrapu (width t) n) (width_wrapu t n)) as [_ Hr].
  assert (hton t n = if signed t then wraps (width t) (unsigned_swap t (wrapu (width t) n)) else unsigned_swap t n)
    as -> by (by destruct t).
  unfold in_range in *. destruct (signed t).
  - rewrite wrapu_wraps, wrapu_small by done. split; [done | by apply wraps_range].
  - rewrite (wrapu_small _ n) in * by done. split; [by apply wrapu_small | done].
Qed.

(** The byte order functions: for every integer type and every number of the type,
    [hton] is in range and stores the bytes of the number in the other (big endian)
    order, and [ntoh] gives the number back. *)
Theorem byte_order_roundtrip (t : int_type) (n : Z) :
  in_range t n ->
  in_range t (hton t n) /\ memory t (hton t n) = rev (memory t n) /\ ntoh t (hton t n) = n.
Proof.
  intros Hn. pose proof (hton_swap t n Hn) as [Hs Hr]. split; [done|].
  pose proof (width_wrapu t n) as Hw.
  destruct (unsigned_swap_reverses t _ Hw) as [Hrev Hrange].
  assert (memory t (hton t n) = rev (memory t n)) as Hmem.
  { unfold memory. rewrite Hs, Hrev. rewrite <- (length_bytes_le (bytes_of_type t) (wrapu (width t) n)) at 1.
    rewrite <- length_rev. apply bytes_le_inj. apply List.Forall_rev, bytes_le_bytes. }
  split; [done|]. pose proof (hton_swap t (hton t n) Hr) as [Hs2 Hr2].
  assert (wrapu (width t) (hton t (hton t n)) = wrapu (width t) n) as Heq.
  { rewrite Hs2, Hs. destruct (unsigned_swap_reverses t (unsigned_swap t (wrapu (width t) n)) Hrange) as [-> _].
    rewrite <- Hs. fold (memory t (hton t n)). rewrite Hmem, rev_involutive. by apply le_bytes_le. }
  unfold ntoh. unfold in_range in *. destruct (signed t) eqn:E.
  - pose proof (int_width_pos t) as Hwp.
    assert (wraps (width t) (hton t (hton t n)) = wraps (width t) n) as Hw2.
    { rewrite <- (wraps_wrapu (width t) (hton t (hton t n))), Heq by done. by apply wraps_wrapu. }
    by rewrite !wraps_small in Hw2 by done.
  - by rewrite !wrapu_small in Heq by done.
Qed.

Lemma byte_order_roundtrip_witness :
  in_range Int32 (-2) /\ in_range Int32 (hton Int32 (-2))
  /\ memory Int32 (hton Int32 (-2)) = rev (memory Int32 (-2)) /\ ntoh Int32 (hton Int32 (-2)) = -2.
Proof. split; [by vm_compute | apply (byte_order_roundtrip Int32 (-2)); by vm_compute]. Defined.

(** ** Frames *)

(** Parsing frames: for any bytes, the messages that the function object is called
    for, the number of consumed bytes and the rest satisfy: the consumed bytes are
    the frames of the messages, in order, and the rest does not start with a whole
    frame; this determines them, and the loop ends. *)
Theorem parse_frame_correct (buf : list Z) :
  Forall is_byte buf ->
  exists msgs consumed, parse_frame (S (length buf)) buf = Some (msgs, consumed)
    /\ Z.of_nat (length (frames msgs)) = consumed
    /\ buf = frames msgs ++ drop (Z.to_nat consumed) buf
    /\ incomplete (drop (Z.to_nat consumed) buf)
    /\ forall msgs' rest', Forall small msgs' -> incomplete rest' -> buf = frames msgs' ++ rest' -> msgs' = msgs.
Proof.
  intros Hb. destruct (split_frames buf Hb) as (ms & rest & -> & Hs & Hr & Hi).
  exists ms, (Z.of_nat (length (frames ms))). pose proof (length_frames ms).
  rewrite parse_frames by (try done; rewrite length_app; lia). split; [done|]. split; [done|].
  rewrite Nat2Z.id, drop_app_length. split; [done|]. split; [done|]. intros ms' rest' Hs' Hi' E.
  assert (Forall is_byte rest') as Hr' by (rewrite E in Hb; by apply Forall_app in Hb as [_ ?]).
  by destruct (frames_unique ms ms' rest rest' Hs Hs' Hr Hr' Hi Hi' E).
Qed.

Lemma parse_frame_correct_witness :
  Forall is_byte [1; 0; 0; 0; 7; 2] /\
  exists msgs consumed, parse_frame 7 [1; 0; 0; 0; 7; 2] = Some (msgs, consumed)
    /\ Z.of_nat (length (frames msgs)) = consumed
    /\ [1; 0; 0; 0; 7; 2] = frames msgs ++ drop (Z.to_nat consumed) [1; 0; 0; 0; 7; 2]
    /\ incomplete (drop (Z.to_nat consumed) [1; 0; 0; 0; 7; 2])
    /\ forall msgs' rest', Forall small msgs' -> incomplete rest' ->
         [1; 0; 0; 0; 7; 2] = frames msgs' ++ rest' -> msgs' = msgs.
Proof.
  assert (Forall is_byte [1; 0; 0; 0; 7; 2]) as Hb by (by rewrite !Forall_cons).
  split; [exact Hb | exact (parse_frame_correct [1; 0; 0; 0; 7; 2] Hb)].
Defined.

(** C18: Messages survive any chunking: when a stream of frames (and an incomplete one)
    arrives in chunks of any sizes, empty ones included, and each chunk is put into
    the buffer and what [parse_frame] takes is consumed, then exactly the messages
    are delivered, in order, and the incomplete frame is what the buffer holds. *)
Theorem frames_any_chunking (chunks msgs : list (list Z)) (rest : list Z) :
  concat chunks = frames msgs ++ rest ->
  Forall (Forall is_byte) chunks -> Forall small msgs -> incomplete rest ->
  Z.of_nat (length (concat chunks)) < 2 ^ 63 ->
  exists b, receive_all (new_buffer, []) chunks = Some (b, msgs) /\ str b = rest.
Proof.
  intros E Hc Hs Hi Hmax.
  destruct (receive_all_ok chunks [] new_buffer []) as (b & ms & Hrun & [Hst Hms Hb Hib _ _]); [| done | done |].
  { assert (str new_buffer = []) as E0 by done. split; rewrite ?E0; [done | done | constructor | left; cbn; lia | |].
    - split; cbn; unfold vector_size; cbn; lia.
    - unfold vector_size; cbn; lia. }
  cbn [app] in Hst. rewrite E in Hst.
  assert (Forall is_byte rest) as Hr.
  { assert (Forall is_byte (concat chunks)) as H by (by apply Forall_concat).
    rewrite E in H. by apply Forall_app in H as [_ ?]. }
  destruct (frames_unique msgs ms rest (str b) Hs Hms Hr Hb Hi Hib Hst) as [-> ->]. by exists b.
Qed.

Lemma frames_any_chunking_witness :
  exists b, receive_all (new_buffer, []) [[1; 0]; []; [0; 0; 7; 0]; [0; 0; 0; 2]] = Some (b, [[7]; []]) /\ str b = [2].
Proof.
  apply (frames_any_chunking [[1; 0]; []; [0; 0; 7; 0]; [0; 0; 0; 2]] [[7]; []] [2]).
  - vm_compute. reflexivity.
  - by rewrite !Forall_cons.
  - rewrite !Forall_cons. unfold small. by rewrite !Forall_cons.
  - left. cbn. lia.
  - cbn. lia.
Defined.
