(* ===== verification/Time.v ===== *)
(** * Times and durations

    Models [toolbox/sys/Time.hpp]: conversions between durations, [timeval] and
    [timespec], their sums and differences, and reading and writing times of day.
    A duration is its number of nanoseconds; [duration_cast] truncates towards zero. *)
From Stdlib Require Import String.
From S2P Require Import Prelude Text.
#[local] Open Scope Z_scope.

(** ** Conversions *)

Definition to_time_t (t : Z) : Z := Z.quot t 1000000000.
Definition from_time_t (t : Z) : Z := t * 1000000000.
Definition ms_since_epoch (t : Z) : Z := Z.quot t 1000000.
Definition us_since_epoch (t : Z) : Z := Z.quot t 1000.

Record timeval := mkTimeval { tv_sec : Z; tv_usec : Z }.
Record timespec := mkTimespec { ts_sec : Z; ts_nsec : Z }.

Definition time_of_timeval (tv : timeval) : Z := tv_sec tv * 1000000000 + tv_usec tv * 1000.
Definition time_of_timespec (ts : timespec) : Z := ts_sec ts * 1000000000 + ts_nsec ts.

Definition to_timeval (d : Z) : timeval :=
  let us := Z.quot d 1000 in mkTimeval (Z.quot us 1000000) (Z.rem us 1000000).
Definition to_timespec (d : Z) : timespec :=
  mkTimespec (Z.quot d 1000000000) (Z.rem d 1000000000).

Definition timeval_is_zero (tv : timeval) : bool := (tv_sec tv =? 0) && (tv_usec tv =? 0).
Definition timespec_is_zero (ts : timespec) : bool := (ts_sec ts =? 0) && (ts_nsec ts =? 0).

(** ** Sums and differences *)

Definition timeval_add (lhs rhs : timeval) : timeval :=
  let sec := tv_sec lhs + tv_sec rhs in
  let usec := tv_usec lhs + tv_usec rhs in
  if 1000000 <=? usec then mkTimeval (sec + 1) (usec - 1000000) else mkTimeval sec usec.
Definition timeval_sub (lhs rhs : timeval) : timeval :=
  let sec := tv_sec lhs - tv_sec rhs in
  let usec := tv_usec lhs - tv_usec rhs in
  if usec <? 0 then mkTimeval (sec - 1) (usec + 1000000) else mkTimeval sec usec.
Definition timespec_add (lhs rhs : timespec) : timespec :=
  let sec := ts_sec lhs + ts_sec rhs in
  let nsec := ts_nsec lhs + ts_nsec rhs in
  if 1000000000 <=? nsec then mkTimespec (sec + 1) (nsec - 1000000000) else mkTimespec sec nsec.
Definition timespec_sub (lhs rhs : timespec) : timespec :=
  let sec := ts_sec lhs - ts_sec rhs in
  let nsec := ts_nsec lhs - ts_nsec rhs in
  if nsec <? 0 then mkTimespec (sec - 1) (nsec + 1000000000) else mkTimespec sec nsec.

(** ** Times of day *)

(** The factors by the number of digits. *)
Definition factors : list Z :=
  [0; 100000000; 10000000; 1000000; 100000; 10000; 1000; 100; 10; 1].

(** The digits: the number and how many; the arithmetic is on [int]. *)
Fixpoint nanos_loop (ns : Z) (n : nat) (sv : str) : Z * nat :=
  match sv with
  | c :: sv => if isdigit c then nanos_loop (i32 (i32 (ns * 10) + (code c - 48))) (S n) sv else (ns, n)
  | [] => (ns, n)
  end.

(** [parse_nanos]: at most nine digits.  The first character is read even when there is
    none, which is undefined: there is no result. *)
Definition parse_nanos (sv : str) : option Z :=
  match take 9 sv with
  | [] => None
  | c :: rest =>
      let '(ns, n) := if isdigit c then nanos_loop (code c - 48) 1 rest else (0, 0%nat) in
      Some (i32 (ns * nth n factors 0))
  end.

(** [parse_time_only]: the outer option is the one of [parse_nanos], the inner one the
    optional that is returned. *)
Definition parse_time_only (sv : str) : option (option Z) :=
  let digit2 a b := (code a - 48) * 10 + (code b - 48) in
  match sv with
  | h1 :: h2 :: c1 :: m1 :: m2 :: c2 :: s1 :: s2 :: rest =>
      if negb (isdigit h1) || negb (isdigit h2) || negb (bool_decide (c1 = ":"%char))
         || negb (isdigit m1) || negb (isdigit m2) || negb (bool_decide (c2 = ":"%char))
         || negb (isdigit s1) || negb (isdigit s2)
      then Some None
      else
        let ns := (digit2 h1 h2 * 3600 + digit2 m1 m2 * 60 + digit2 s1 s2) * 1000000000 in
        match rest with
        | [] => Some (Some ns)
        | c :: fraction =>
            if negb (bool_decide (c = "."%char)) then Some None
            else f ← parse_nanos fraction; Some (Some (ns + f))
        end
  | _ => Some None
  end.

(** [setfill('0')], [setw(w)] and a number. *)
Definition put_padded (w : nat) (n : Z) : str :=
  let s := to_string n in replicate (w - length s) "0"%char ++ s.

(** The fraction that [put_time] writes after the seconds, by the precision. *)
Inductive precision := Nanos | Micros | Millis | Seconds.
Definition put_fraction (p : precision) (t : Z) : str :=
  match p with
  | Nanos => "."%char :: put_padded 9 (Z.rem t 1000000000)
  | Micros => "."%char :: put_padded 6 (Z.rem (us_since_epoch t) 1000000)
  | Millis => "."%char :: put_padded 3 (Z.rem (ms_since_epoch t) 1000)
  | Seconds => []
  end.

(** Reading durations and times: a number, of milliseconds for a wall time. *)
Definition int64_type : itype := mkItype 64 true.
Definition duration_from_string (sv : str) : Z := ston int64_type sv.
Definition wall_time_from_string (sv : str) : Z := i64 (duration_from_string sv * 1000000).

(** ** Lemmas *)

#[local] Ltac Zify.zify_post_hook ::= Z.to_euclidean_division_equations.

Definition all_digits (s : str) : Prop := Forall (fun c => isdigit c = true) s.

(** The digits at the start. *)
Fixpoint take_digits (s : str) : str :=
  match s with c :: s => if isdigit c then c :: take_digits s else [] | [] => [] end.

Lemma take_digits_all s : all_digits (take_digits s).
Proof. induction s as [|c s IH]; cbn; [constructor|]. destruct (isdigit c) eqn:E; by constructor. Qed.

Lemma take_digits_length s : (length (take_digits s) <= length s)%nat.
Proof. induction s as [|c s IH]; cbn; [done|]. destruct (isdigit c); cbn; lia. Qed.

Lemma take_digits_app ds : all_digits ds -> take_digits ds = ds.
Proof. induction 1 as [|c s Hc Hs IH]; cbn; [done|]. by rewrite Hc, IH. Qed.

Lemma value_bounds ds n k : all_digits ds -> 0 <= n < 10 ^ Z.of_nat k ->
  0 <= value n ds < 10 ^ Z.of_nat (k + length ds).
Proof.
  intros Hd. revert n k. induction Hd as [|c s Hc Hs IH]; intros n k Hn; cbn [length].
  - by rewrite Nat.add_0_r.
  - rewrite value_cons. apply isdigit_range in Hc. rewrite <- Nat.add_succ_comm. apply IH.
    rewrite Nat2Z.inj_succ, Z.pow_succ_r by lia. nia.
Qed.

Lemma pow10_le_9 k : (k <= 9)%nat -> 10 ^ Z.of_nat k <= 1000000000.
Proof. intros. change 1000000000 with (10 ^ 9). apply Z.pow_le_mono_r; lia. Qed.

Lemma nanos_loop_spec sv ns n : 0 <= ns < 10 ^ Z.of_nat n -> (n + length sv <= 9)%nat ->
  nanos_loop ns n sv = (value ns (take_digits sv), (n + length (take_digits sv))%nat).
Proof.
  revert ns n. induction sv as [|c sv IH]; intros ns n Hns Hl; cbn [nanos_loop take_digits];
    [by rewrite Nat.add_0_r|]. destruct (isdigit c) eqn:E; [|by rewrite Nat.add_0_r].
  apply isdigit_range in E. cbn [length] in *. pose proof (pow10_le_9 (S n) ltac:(lia)) as Hp.
  rewrite Nat2Z.inj_succ, Z.pow_succ_r in Hp by lia. unfold digit in E.
  rewrite (wraps_small 32 (ns * 10)), wraps_small by (change (2 ^ (32 - 1)) with 2147483648; lia).
  rewrite IH by (try rewrite Nat2Z.inj_succ, Z.pow_succ_r by lia; lia). rewrite value_cons.
  f_equal. lia.
Qed.

Lemma factors_pow n : (1 <= n <= 9)%nat -> nth n factors 0 = 10 ^ (9 - Z.of_nat n).
Proof. intros. do 10 (destruct n as [|n]; [done || lia|]). lia. Qed.

(** The nanoseconds that the first nine digits of a fraction stand for. *)
Definition fraction (f : str) : Z :=
  let ds := take_digits (take 9 f) in value 0 ds * 10 ^ (9 - Z.of_nat (length ds)).

Lemma fraction_bounds f : 0 <= fraction f < 1000000000.
Proof.
  unfold fraction. set (ds := take_digits (take 9 f)).
  pose proof (value_bounds ds 0 0 (take_digits_all _) ltac:(cbn; lia)) as Hv. cbn [Nat.add] in Hv.
  pose proof (take_digits_length (take 9 f)) as Hl. rewrite length_take in Hl. fold ds in Hl.
  assert (10 ^ Z.of_nat (length ds) * 10 ^ (9 - Z.of_nat (length ds)) = 1000000000) as Hp.
  { rewrite <- Z.pow_add_r by lia. by replace (Z.of_nat (length ds) + (9 - Z.of_nat (length ds))) with 9 by lia. }
  assert (0 < 10 ^ (9 - Z.of_nat (length ds))) by (apply Z.pow_pos_nonneg; lia). nia.
Qed.

Lemma parse_nanos_spec sv : sv <> [] -> parse_nanos sv = Some (fraction sv).
Proof.
  intros Hne. pose proof (fraction_bounds sv) as Hb. unfold parse_nanos, fraction in *.
  destruct (take 9 sv) as [|c rest] eqn:E; [by destruct sv|].
  assert (length rest <= 8)%nat as Hl.
  { assert (length (take 9 sv) <= 9)%nat as H9 by (rewrite length_take; lia). rewrite E in H9. cbn in H9. lia. }
  cbn [take_digits] in *. destruct (isdigit c) eqn:Ec; [|done]. apply isdigit_range in Ec. unfold digit in Ec.
  rewrite nanos_loop_spec by (change (10 ^ Z.of_nat 1) with 10; lia). cbn [length] in *. f_equal.
  pose proof (take_digits_length rest).
  rewrite factors_pow by lia. rewrite value_cons in *.
  replace (0 * 10 + digit c) with (code c - 48) in * by (unfold digit; lia).
  replace (Z.of_nat (1 + length (take_digits rest))) with (Z.of_nat (S (length (take_digits rest)))) by lia.
  apply wraps_small; [lia|]. change (2 ^ (32 - 1)) with 2147483648. lia.
Qed.

(** *** Padded numbers *)

Lemma zeros_digits k : all_digits (replicate k "0"%char).
Proof. apply Forall_replicate. by vm_compute. Qed.

Lemma value_zeros k s : value 0 (replicate k "0"%char ++ s) = value 0 s.
Proof. induction k as [|k IH]; cbn [replicate app]; [done|]. by rewrite value_cons. Qed.

Lemma put_padded_spec w n : 0 <= n < 10 ^ Z.of_nat w -> (0 < w)%nat ->
  all_digits (put_padded w n) /\ length (put_padded w n) = w /\ value 0 (put_padded w n) = n.
Proof.
  intros Hn Hw. unfold put_padded, to_string. destruct (Z.ltb_spec n 0); [lia|].
  destruct (digits_spec n ltac:(lia)) as (Hd & Hv & Hne & Hlt & Hge).
  assert (length (digits n) <= w)%nat.
  { destruct Hge as [? | Hge]; [lia|].
    assert (Z.of_nat (length (digits n)) - 1 < Z.of_nat w); [|lia]. apply (Z.pow_lt_mono_r_iff 10); lia. }
  split; [apply Forall_app; split; [apply zeros_digits | exact Hd]|]. split; [|by rewrite value_zeros].
  rewrite length_app, length_replicate. lia.
Qed.

(** ** Times of day are read back *)

(** What [std::put_time] writes for [%T]: hours, minutes and seconds. *)
Definition put_clock (secs : Z) : str :=
  put_padded 2 (secs / 3600) ++ ":"%char :: put_padded 2 (secs / 60 mod 60) ++ ":"%char :: put_padded 2 (secs mod 60).

(** The unit of a precision. *)
Definition unit_of (p : precision) : Z :=
  match p with Nanos => 1 | Micros => 1000 | Millis => 1000000 | Seconds => 1000000000 end.

Lemma put_padded_2 n : 0 <= n < 100 -> exists a b, put_padded 2 n = [a; b]
  /\ isdigit a = true /\ isdigit b = true /\ (code a - 48) * 10 + (code b - 48) = n.
Proof.
  intros Hn. destruct (put_padded_spec 2 n) as (Hd & Hl & Hv); [change (10 ^ Z.of_nat 2) with 100; lia | lia|].
  destruct (put_padded 2 n) as [|a [|b [|]]]; try done. exists a, b.
  apply Forall_cons in Hd as [Ha Hd]. apply Forall_cons in Hd as [Hb _]. split; [done|].
  split; [done|]. split; [done|]. rewrite !value_cons in Hv. unfold digit in Hv. change (value ?n []) with n in Hv. lia.
Qed.

(** Reading the hours, the minutes and the seconds. *)
Lemma parse_clock secs rest : 0 <= secs < 360000 ->
  parse_time_only (put_clock secs ++ rest) =
    match rest with
    | [] => Some (Some (secs * 1000000000))
    | c :: f => if negb (bool_decide (c = "."%char)) then Some None
                else n ← parse_nanos f; Some (Some (secs * 1000000000 + n))
    end.
Proof.
  intros Hs. unfold put_clock.
  destruct (put_padded_2 (secs / 3600)) as (h1 & h2 & -> & Hh1 & Hh2 & Hh); [lia|].
  destruct (put_padded_2 (secs / 60 mod 60)) as (m1 & m2 & -> & Hm1 & Hm2 & Hm); [lia|].
  destruct (put_padded_2 (secs mod 60)) as (s1 & s2 & -> & Hs1 & Hs2 & Hsec); [lia|].
  cbn [app parse_time_only]. rewrite Hh1, Hh2, Hm1, Hm2, Hs1, Hs2. rewrite !bool_decide_true by done. cbn [negb orb].
  rewrite Hh, Hm, Hsec. replace (secs / 3600 * 3600 + secs / 60 mod 60 * 60 + secs mod 60) with secs by lia. done.
Qed.

(** A padded number as the fraction. *)
Lemma parse_fraction w n : 0 <= n < 10 ^ Z.of_nat w -> (1 <= w <= 9)%nat ->
  parse_nanos (put_padded w n) = Some (n * 10 ^ (9 - Z.of_nat w)).
Proof.
  intros Hn Hw. destruct (put_padded_spec w n Hn ltac:(lia)) as (Hd & Hl & Hv).
  rewrite parse_nanos_spec by (intros E; rewrite E in Hl; cbn in Hl; lia).
  unfold fraction. rewrite take_ge, take_digits_app, Hv, Hl by (done || lia). done.
Qed.

Lemma time_of_day_read (p : precision) (t : Z) :
  0 <= t < 360000 * 1000000000 ->
  parse_time_only (put_clock (to_time_t t) ++ put_fraction p t) = Some (Some (t - t mod unit_of p)).
Proof.
  intros Ht. unfold to_time_t. rewrite Z.quot_div_nonneg by lia. rewrite parse_clock by lia.
  destruct p; cbn [put_fraction unit_of]; unfold us_since_epoch, ms_since_epoch;
    rewrite ?Z.quot_div_nonneg, ?Z.rem_mod_nonneg by lia; cbn [bool_decide negb decide];
    [| | |do 2 f_equal; lia]; rewrite parse_fraction;
    try (split; [lia|]; apply Z.mod_pos_bound; lia); try lia; cbn [mbind option_bind]; do 2 f_equal;
    cbn [Z.of_nat]; lia.
Qed.

(** Times of day are read back: for every time below 100 hours and every precision,
    reading the hours, minutes and seconds followed by the fraction that [put_time]
    writes gives the time, truncated to the precision; the arithmetic on [int] does
    not overflow. *)
Theorem time_of_day_roundtrip (p : precision) (t : Z) :
  0 <= t < 360000 * 1000000000 ->
  parse_time_only (put_clock (to_time_t t) ++ put_fraction p t) = Some (Some (t - t mod unit_of p)).
Proof. apply time_of_day_read. Qed.

Lemma time_of_day_roundtrip_witness :
  0 <= 43200001500000 < 360000 * 1000000000 /\
  parse_time_only (put_clock (to_time_t 43200001500000) ++ put_fraction Millis 43200001500000)
  = Some (Some (43200001500000 - 43200001500000 mod unit_of Millis)).
Proof. split; [lia|]. apply (time_of_day_roundtrip Millis 43200001500000). lia. Defined.

(** What [parse_time_only] accepts although its comment gives the valid values:
    hours, minutes and seconds out of range, and a fraction with anything after its
    digits or without any; and for a time that ends in the period, [parse_nanos]
    reads the character after the end of the text. *)
Theorem parse_time_only_lax :
  parse_time_only (lit "99:99:99") = Some (Some ((99 * 3600 + 99 * 60 + 99) * 1000000000))
  /\ parse_time_only (lit "12:00:00.x") = Some (Some (43200 * 1000000000))
  /\ parse_time_only (lit "12:00:00.5 pm") = Some (Some (43200500000000))
  /\ parse_time_only (lit "12:00:00.") = None.
Proof. by vm_compute. Qed.

(** ** [timeval] and [timespec] *)

Definition timeval_ok (tv : timeval) : Prop := 0 <= tv_usec tv < 1000000.
Definition timespec_ok (ts : timespec) : Prop := 0 <= ts_nsec ts < 1000000000.

(** Sums and differences of normalised [timeval]s and [timespec]s are normalised and
    stand for the sum and the difference of the times, also when it is negative. *)
Theorem time_arithmetic (a b : timeval) (c d : timespec) :
  timeval_ok a -> timeval_ok b -> timespec_ok c -> timespec_ok d ->
  (timeval_ok (timeval_add a b) /\ time_of_timeval (timeval_add a b) = time_of_timeval a + time_of_timeval b)
  /\ (timeval_ok (timeval_sub a b) /\ time_of_timeval (timeval_sub a b) = time_of_timeval a - time_of_timeval b)
  /\ (timespec_ok (timespec_add c d) /\ time_of_timespec (timespec_add c d) = time_of_timespec c + time_of_timespec d)
  /\ (timespec_ok (timespec_sub c d) /\ time_of_timespec (timespec_sub c d) = time_of_timespec c - time_of_timespec d).
Proof.
  unfold timeval_ok, timespec_ok, timeval_add, timeval_sub, timespec_add, timespec_sub, time_of_timeval, time_of_timespec.
  intros Ha Hb Hc Hd. repeat zcase; cbn; repeat split; lia.
Qed.

Lemma time_arithmetic_witness :
  let a := mkTimeval 1 999999 in let b := mkTimeval 2 1 in
  let c := mkTimespec 1 0 in let d := mkTimespec 2 1 in
  (timeval_ok (timeval_add a b) /\ time_of_timeval (timeval_add a b) = time_of_timeval a + time_of_timeval b)
  /\ (timeval_ok (timeval_sub a b) /\ time_of_timeval (timeval_sub a b) = time_of_timeval a - time_of_timeval b)
  /\ (timespec_ok (timespec_add c d) /\ time_of_timespec (timespec_add c d) = time_of_timespec c + time_of_timespec d)
  /\ (timespec_ok (timespec_sub c d) /\ time_of_timespec (timespec_sub c d) = time_of_timespec c - time_of_timespec d).
Proof.
  apply (time_arithmetic (mkTimeval 1 999999) (mkTimeval 2 1) (mkTimespec 1 0) (mkTimespec 2 1));
    split; cbn; lia.
Defined.

(** A duration survives [to_timespec], and one in whole microseconds [to_timeval];
    what they give is normalised exactly when the duration is not negative or has no
    fraction of a second: a negative fraction gives a negative field. *)
Theorem to_timespec_roundtrip (d : Z) :
  time_of_timespec (to_timespec d) = d
  /\ time_of_timeval (to_timeval d) = d - Z.rem d 1000
  /\ (timespec_ok (to_timespec d) <-> 0 <= d \/ d mod 1000000000 = 0)
  /\ (forall ts, timespec_ok ts -> 0 <= ts_sec ts -> to_timespec (time_of_timespec ts) = ts).
Proof.
  unfold time_of_timespec, time_of_timeval, timespec_ok, to_timespec, to_timeval. cbn [ts_sec ts_nsec tv_sec tv_usec].
  split; [lia|]. split; [lia|]. split; [lia|]. intros [s ns] Hns Hs. cbn in *. f_equal; lia.
Qed.

Lemma to_timespec_roundtrip_witness :
  time_of_timespec (to_timespec (-1500)) = -1500
  /\ time_of_timeval (to_timeval (-1500)) = -1500 - Z.rem (-1500) 1000
  /\ (timespec_ok (to_timespec (-1500)) <-> 0 <= -1500 \/ (-1500) mod 1000000000 = 0)
  /\ (forall ts, timespec_ok ts -> 0 <= ts_sec ts -> to_timespec (time_of_timespec ts) = ts).
Proof. exact (to_timespec_roundtrip (-1500)). Defined.
