(* ===== verification/MagicRing.v ===== *)
(** * Byte ring between a writer and a reader

    Models [toolbox/ipc/MagicRingBuffer.hpp]: a ring of bytes in memory that is mapped
    twice in a row, so that every range of it is contiguous, between one writer and one
    reader.  The positions are 64-bit integers that wrap; the two sides run
    concurrently, with one load, store or byte copied per step, in any interleaving
    (memory is sequentially consistent). *)
From S2P Require Import Prelude Math.

(** ** State *)

Record ring := mkRing { capacity_ : Z; mask_ : Z; rpos : Z; wpos : Z; buf : list Z }.

(** The constructor throws unless the capacity is a power of two. *)
Definition make_ring (capacity : Z) : option ring :=
  if is_pow2 capacity
  then Some (mkRing capacity (capacity - 1) 0 0 (replicate (Z.to_nat capacity) 0)) else None.

Definition set_rpos (r : ring) (p : Z) : ring := mkRing (capacity_ r) (mask_ r) p (wpos r) (buf r).
Definition set_wpos (r : ring) (p : Z) : ring := mkRing (capacity_ r) (mask_ r) (rpos r) p (buf r).
Definition set_buf (r : ring) (b : list Z) : ring := mkRing (capacity_ r) (mask_ r) (rpos r) (wpos r) b.

Definition size (r : ring) : Z := u64 (wpos r - rpos r).
Definition empty (r : ring) : bool := size r =? 0.
Definition full (r : ring) : bool := size r =? capacity_ r.
Definition available (r : ring) : Z := u64 (capacity_ r - size r).

(** The byte at an offset from the start of the memory, which is mapped twice. *)
Definition cell (r : ring) (off : Z) : nat := Z.to_nat (off mod capacity_ r).

(** ** The two sides *)

(** Where the writer is: about to load the read position, copying. *)
Inductive writer := WIdle | WLoad (bytes : list Z) (w : Z) | WCopy (bytes : list Z) (w : Z) (k : nat).
(** Where the reader is; it needs a number of bytes and takes at most another. *)
Inductive reader := RIdle | RLoad (need want : Z) (r : Z) | RCopy (r n : Z) (acc : list Z).

(** The results of the calls, in order: of the writes, and of the reads with what
    they copied. *)
Record system := mkSystem {
  shared : ring;
  wr : writer;
  rd : reader;
  writes : list (bool * list Z);
  reads : list (bool * list Z)
}.

Inductive label := BeginWrite (bytes : list Z) | WStep | BeginRead (need want : Z) | RStep.

Definition set_wr (s : system) (x : ring) (w : writer) : system := mkSystem x w (rd s) (writes s) (reads s).
Definition set_rd (s : system) (x : ring) (r : reader) : system := mkSystem x (wr s) r (writes s) (reads s).

(** [write]. *)
Definition writer_step (s : system) : system :=
  let x := shared s in
  match wr s with
  | WIdle => s
  | WLoad bytes w =>
      if u64 (capacity_ x - u64 (w - rpos x)) <? Z.of_nat (length bytes)
      then mkSystem x WIdle (rd s) (writes s ++ [(false, bytes)]) (reads s)
      else set_wr s x (WCopy bytes w 0)
  | WCopy bytes w k =>
      match bytes !! k with
      | Some byte =>
          let off := Z.land (u64 w) (mask_ x) + Z.of_nat k in
          set_wr s (set_buf x (<[cell x off := byte]> (buf x))) (WCopy bytes w (S k))
      | None =>
          mkSystem (set_wpos x (i64 (w + Z.of_nat (length bytes)))) WIdle (rd s)
            (writes s ++ [(true, bytes)]) (reads s)
      end
  end.

(** [read]: the function object takes at most [want] of the bytes that are ready. *)
Definition reader_step (s : system) : system :=
  let x := shared s in
  match rd s with
  | RIdle => s
  | RLoad need want r =>
      let ready := u64 (wpos x - r) in
      if (ready =? 0) || (ready <? need)
      then mkSystem x (wr s) RIdle (writes s) (reads s ++ [(false, [])])
      else set_rd s x (RCopy r (Z.min want ready) [])
  | RCopy r n acc =>
      if Z.of_nat (length acc) <? n then
        let off := Z.land (u64 r) (mask_ x) + Z.of_nat (length acc) in
        set_rd s x (RCopy r n (acc ++ [nth (cell x off) (buf x) 0]))
      else mkSystem (set_rpos x (i64 (r + n))) (wr s) RIdle (writes s) (reads s ++ [(true, acc)])
  end.

Definition exec (l : label) (s : system) : system :=
  match l with
  | BeginWrite bytes =>
      match wr s with WIdle => set_wr s (shared s) (WLoad bytes (wpos (shared s))) | _ => s end
  | WStep => writer_step s
  | BeginRead need want =>
      match rd s with RIdle => set_rd s (shared s) (RLoad need want (rpos (shared s))) | _ => s end
  | RStep => reader_step s
  end.

Definition run (ls : list label) (s : system) : system := fold_left (fun s l => exec l s) ls s.

Definition init (x : ring) : system := mkSystem x WIdle RIdle [] [].

(** What a call of [read] with a buffer and a size returns: the truth value of the
    underlying [read], as a number. *)
Definition read_result (r : bool * list Z) : Z := Z.b2z r.1.

(** ** Alone *)

(** A write or a read that is not interrupted. *)
Definition write_alone (bytes : list Z) (s : system) : system :=
  run (BeginWrite bytes :: replicate (2 + length bytes) WStep) s.
Definition read_alone (need want : Z) (s : system) : system :=
  run (BeginRead need want :: replicate (2 + Z.to_nat (capacity_ (shared s))) RStep) s.

(** The bytes of the calls that succeeded. *)
Definition bytes_of (calls : list (bool * list Z)) : list Z :=
  concat (map (fun c : bool * list Z => if c.1 then c.2 else []) calls).

Lemma bytes_of_snoc calls ok b : bytes_of (calls ++ [(ok, b)]) = bytes_of calls ++ if ok then b else [].
Proof. unfold bytes_of. rewrite map_app, concat_app. cbn. by rewrite app_nil_r. Qed.

(** ** The invariant *)

Lemma i64_mod_pow2 z k : 0 <= k <= 64 -> i64 z mod 2 ^ k = z mod 2 ^ k.
Proof.
  intros Hk. rewrite <- (mod_mod_pow2 (i64 z) k 64), <- (mod_mod_pow2 z k 64) by lia. f_equal.
  unfold wraps. rewrite Zminus_mod_idemp_l. f_equal. lia.
Qed.

Lemma u64_i64_sub a b : u64 (i64 a - i64 b) = u64 (a - b).
Proof.
  unfold wrapu. rewrite Zminus_mod, (i64_mod_pow2 a 64), (i64_mod_pow2 b 64) by lia.
  by rewrite <- Zminus_mod.
Qed.

Lemma i64_add_l a b : i64 (i64 a + b) = i64 (a + b).
Proof.
  unfold wraps. f_equal.
  replace ((a + 2 ^ (64 - 1)) mod 2 ^ 64 - 2 ^ (64 - 1) + b + 2 ^ (64 - 1))
    with ((a + 2 ^ (64 - 1)) mod 2 ^ 64 + b) by lia.
  rewrite !Zplus_mod_idemp_l. f_equal. lia.
Qed.

Section ring.
Variable k : Z.
Hypothesis k_range : 0 <= k < 64.
Let cap : Z := 2 ^ k.

Lemma cap_range : 0 < cap < 2 ^ 64.
Proof. unfold cap. split; [apply pow2_pos; lia | apply Z.pow_lt_mono_r; lia]. Qed.

(** The cell of a position. *)
Definition at_ (p : Z) : nat := Z.to_nat (p mod cap).

Lemma at_range p : (at_ p < Z.to_nat cap)%nat.
Proof. unfold at_. pose proof (Z.mod_pos_bound p cap ltac:(pose proof cap_range; lia)). lia. Qed.

Lemma at_inj p q : 0 <= q - p < cap -> at_ p = at_ q -> p = q.
Proof.
  unfold at_. pose proof cap_range. pose proof (Z.mod_pos_bound p cap ltac:(lia)).
  pose proof (Z.mod_pos_bound q cap ltac:(lia)). intros Hd E. apply Z2Nat.inj in E; [|lia..].
  pose proof (Z.div_mod p cap ltac:(lia)). pose proof (Z.div_mod q cap ltac:(lia)).
  assert (q / cap = p / cap) as Eq by nia. rewrite Eq in *. lia.
Qed.

Lemma cell_at x w off : capacity_ x = cap -> mask_ x = cap - 1 -> 0 <= off ->
  cell x (Z.land (u64 (i64 w)) (mask_ x) + off) = at_ (w + off).
Proof.
  intros Hc Hm Hoff. unfold cell, at_. rewrite Hc, Hm. unfold cap at 1. rewrite land_pred_pow2 by lia.
  unfold wrapu. rewrite mod_mod_pow2, i64_mod_pow2 by lia. fold cap. by rewrite Zplus_mod_idemp_l.
Qed.

(** What the ring holds: the bytes from the read to the write position. *)
Record ring_ok (x : ring) (sent : list Z) (got : nat) : Prop := {
  ro_cap : capacity_ x = cap;
  ro_mask : mask_ x = cap - 1;
  ro_len : length (buf x) = Z.to_nat cap;
  ro_rpos : rpos x = i64 (Z.of_nat got);
  ro_wpos : wpos x = i64 (Z.of_nat (length sent));
  ro_order : (got <= length sent)%nat /\ Z.of_nat (length sent) <= Z.of_nat got + cap;
  ro_bytes : forall i, (got <= i < length sent)%nat -> buf x !! at_ (Z.of_nat i) = sent !! i
}.

Definition writer_ok (x : ring) (sent : list Z) (got : nat) (w : writer) : Prop :=
  match w with
  | WIdle => True
  | WLoad bytes p => p = i64 (Z.of_nat (length sent))
  | WCopy bytes p j =>
      p = i64 (Z.of_nat (length sent)) /\ (j <= length bytes)%nat
      /\ Z.of_nat (length sent + length bytes) <= Z.of_nat got + cap
      /\ forall i, (i < j)%nat -> buf x !! at_ (Z.of_nat (length sent + i)) = bytes !! i
  end.

Definition reader_ok (sent : list Z) (got : nat) (r : reader) : Prop :=
  match r with
  | RIdle => True
  | RLoad need want p => p = i64 (Z.of_nat got) /\ 0 <= want
  | RCopy p n acc =>
      p = i64 (Z.of_nat got) /\ Z.of_nat got + n <= Z.of_nat (length sent)
      /\ Z.of_nat (length acc) <= n /\ acc = take (length acc) (drop got sent)
  end.

Record system_ok (s : system) : Prop := {
  so_prefix : bytes_of (reads s) = take (length (bytes_of (reads s))) (bytes_of (writes s));
  so_ring : ring_ok (shared s) (bytes_of (writes s)) (length (bytes_of (reads s)));
  so_writer : writer_ok (shared s) (bytes_of (writes s)) (length (bytes_of (reads s))) (wr s);
  so_reader : reader_ok (bytes_of (writes s)) (length (bytes_of (reads s))) (rd s)
}.

Lemma size_ok x sent got : ring_ok x sent got -> size x = Z.of_nat (length sent) - Z.of_nat got.
Proof.
  intros [_ _ _ Hr Hw Ho _]. unfold size. rewrite Hr, Hw, u64_i64_sub. pose proof cap_range.
  apply wrapu_small. lia.
Qed.

Lemma writer_step_ok s : system_ok s -> system_ok (writer_step s).
Proof.
  intros [Hp Hr Hw Hrd]. pose proof cap_range as Hcap. unfold writer_step.
  set (sent := bytes_of (writes s)) in *. set (got := length (bytes_of (reads s))) in *.
  destruct (wr s) as [|bytes w|bytes w j] eqn:Ew; [by split; rewrite ?Ew | |].
  - cbn in Hw. subst w. pose proof Hr as [Hc Hm Hl Hrp Hwp Ho Hb]. rewrite Hrp, Hc, u64_i64_sub.
    rewrite (wrapu_small 64 (Z.of_nat (length sent) - Z.of_nat got)), wrapu_small by lia.
    destruct (Z.ltb_spec (cap - (Z.of_nat (length sent) - Z.of_nat got)) (Z.of_nat (length bytes))).
    + split; cbn [shared wr rd writes reads]; rewrite ?bytes_of_snoc, ?app_nil_r; done.
    + split; cbn [shared wr rd writes reads set_wr]; fold sent; fold got; [done | done | | done].
      split; [done|]. split; [lia|]. split; [lia|]. intros i Hi. lia.
  - destruct Hw as (-> & Hj & Hroom & Hcopied). pose proof Hr as [Hc Hm Hl Hrp Hwp Ho Hb].
    destruct (bytes !! j) as [byte|] eqn:Eb.
    + pose proof (lookup_lt_Some _ _ _ Eb) as Hlt. rewrite cell_at by (done || lia).
      assert (forall i, (got <= i < length sent + length bytes)%nat -> (i <> length sent + j)%nat ->
        at_ (Z.of_nat (length sent) + Z.of_nat j) <> at_ (Z.of_nat i)) as Hne.
      { intros i Hi Hne E. destruct (decide (i < length sent + j)%nat).
        - symmetry in E. apply at_inj in E; lia.
        - apply at_inj in E; lia. }
      split; cbn [shared wr rd writes reads set_wr]; fold sent; fold got; [done | | | done].
      * split; cbn; try done; [by rewrite length_insert|]. intros i Hi.
        rewrite list_lookup_insert_ne; [by apply Hb|]. apply Hne; lia.
      * split; [done|]. split; [lia|]. split; [done|]. intros i Hi. cbn.
        destruct (decide (i = j)) as [-> | Hij].
        -- rewrite Nat2Z.inj_add, list_lookup_insert_eq by (rewrite Hl; apply at_range). done.
        -- rewrite list_lookup_insert_ne by (apply Hne; lia). apply Hcopied. lia.
    + apply lookup_ge_None in Eb. assert (j = length bytes) as -> by lia.
      split; cbn [shared wr rd writes reads]; rewrite ?bytes_of_snoc; fold sent.
      * rewrite take_app_le; [done|]. fold got. lia.
      * fold got. split; cbn; try done; [|rewrite length_app; lia|].
        -- rewrite length_app, Nat2Z.inj_add.
           apply i64_add_l.
        -- intros i Hi. destruct (decide (i < length sent)%nat).
           ++ rewrite lookup_app_l by done. apply Hb. lia.
           ++ rewrite lookup_app_r by lia. rewrite <- Hcopied by (rewrite length_app in Hi; lia).
              do 2 f_equal. lia.
      * done.
      * fold got. destruct (rd s) as [|need want r|r n acc]; [done | done |].
        destruct Hrd as (? & Hn & ? & Hacc). split; [done|]. rewrite length_app. split; [lia|]. split; [done|].
        rewrite drop_app_le by lia. rewrite take_app_le; [done|]. rewrite length_drop. lia.
Qed.

Lemma reader_step_ok s : system_ok s -> system_ok (reader_step s).
Proof.
  intros [Hp Hr Hw Hrd]. pose proof cap_range as Hcap. unfold reader_step.
  set (sent := bytes_of (writes s)) in *. set (got := length (bytes_of (reads s))) in *.
  destruct (rd s) as [|need want r|r n acc] eqn:Er; [by split; rewrite ?Er | |].
  - destruct Hrd as [-> Hwant]. pose proof Hr as [Hc Hm Hl Hrp Hwp Ho Hb]. rewrite Hwp, u64_i64_sub.
    rewrite (wrapu_small 64) by lia. destruct (_ || _) eqn:E.
    + split; cbn [shared wr rd writes reads]; rewrite ?bytes_of_snoc, ?app_nil_r; done.
    + zbool. split; cbn [shared wr rd writes reads set_rd]; fold sent; fold got; [done | done | done |].
      split; [done|]. cbn [length]. split; [lia|]. split; [lia | done].
  - destruct Hrd as (-> & Hn & Hacc & Hval). pose proof Hr as [Hc Hm Hl Hrp Hwp Ho Hb].
    destruct (Z.ltb_spec (Z.of_nat (length acc)) n).
    + split; cbn [shared wr rd writes reads set_rd]; fold sent; fold got; [done | done | done |].
      rewrite cell_at by (done || lia). split; [done|]. split; [lia|]. rewrite length_app. cbn [length].
      split; [lia|]. rewrite Nat.add_1_r.
      assert ((got + length acc < length sent)%nat) as Hlt by lia.
      destruct (lookup_lt_is_Some_2 sent _ Hlt) as [byte Eb].
      rewrite (take_S_r _ _ byte) by (by rewrite lookup_drop). rewrite <- Hval. do 2 f_equal.
      rewrite <- Nat2Z.inj_add. apply nth_lookup_Some. rewrite Hb by lia. exact Eb.
    + assert (Z.of_nat (length acc) = n) as Hlen by lia.
      split; cbn [shared wr rd writes reads]; rewrite ?bytes_of_snoc, ?length_app; fold sent; fold got.
      * by rewrite <- take_take_drop, <- Hval, <- Hp.
      * split; cbn; try done; [| lia |].
        -- rewrite i64_add_l. f_equal. lia.
        -- intros i Hi. apply Hb. lia.
      * destruct (wr s) as [|bytes w|bytes w j]; [done | done|]. destruct Hw as (? & ? & ? & ?).
        split; [done|]. split; [done|]. split; [lia | done].
      * done.
Qed.

(** Sizes are not negative. *)
Definition valid (l : label) : Prop := match l with BeginRead _ want => 0 <= want | _ => True end.

Lemma exec_ok l s : valid l -> system_ok s -> system_ok (exec l s).
Proof.
  intros Hv Hs. destruct l as [bytes | | need want |]; cbn [exec];
    [| by apply writer_step_ok | | by apply reader_step_ok].
  - pose proof Hs as [Hp Hr Hw Hrd]. destruct (wr s) eqn:E; [|done..]. split; cbn; [done | done | | done].
    by destruct Hr.
  - pose proof Hs as [Hp Hr Hw Hrd]. destruct (rd s) eqn:E; [|done..]. split; cbn; [done | done | done |].
    split; [by destruct Hr | done].
Qed.

Lemma run_ok ls s : Forall valid ls -> system_ok s -> system_ok (run ls s).
Proof.
  intros Hv. revert s. induction Hv as [|l ls Hl Hls IH]; intros s Hs; cbn; [done|]. by apply IH, exec_ok.
Qed.

Lemma make_ring_ok x : make_ring cap = Some x -> system_ok (init x).
Proof.
  unfold make_ring. destruct (is_pow2 cap); [|done]. intros [= <-]. pose proof cap_range.
  split; cbn; [done | | done | done]. split; cbn; try done; [by rewrite length_replicate | lia | lia].
Qed.
End ring.

(** ** Properties *)

Lemma capacity_pow2 cap x : make_ring cap = Some x -> cap < 2 ^ 64 -> exists k, 0 <= k < 64 /\ cap = 2 ^ k.
Proof.
  unfold make_ring. destruct (is_pow2 cap) eqn:E; [|done]. intros _ Hlt. exists (Z.log2 cap).
  pose proof (is_pow2_inv cap E) as Hc. split; [|done]. split; [apply Z.log2_nonneg|].
  apply Z.log2_lt_pow2; [|lia]. unfold is_pow2 in E. zbool. lia.
Qed.

(** The bytes that the ring holds, from the read position on. *)
Definition contents (x : ring) : list Z :=
  map (fun i => nth (cell x (Z.land (u64 (rpos x)) (mask_ x) + i)) (buf x) 0) (seqZ 0 (size x)).

Lemma contents_ok k x sent got : 0 <= k < 64 -> ring_ok k x sent got -> contents x = drop got sent.
Proof.
  intros Hk Hr. unfold contents. rewrite (size_ok k Hk x sent got Hr). pose proof Hr as [Hc Hm Hl Hrp Hwp Ho Hb].
  apply list_eq. intros i. rewrite list_lookup_fmap, lookup_drop.
  destruct (decide (i < length sent - got)%nat) as [Hi | Hi].
  - rewrite lookup_seqZ_lt by lia. cbn [fmap option_fmap option_map]. rewrite Hrp, (cell_at k Hk) by (done || lia).
    destruct (lookup_lt_is_Some_2 sent (got + i)) as [b Eb]; [lia|]. rewrite Eb. f_equal.
    apply nth_lookup_Some. rewrite <- Eb, <- Hb by lia. do 2 f_equal. lia.
  - rewrite lookup_seqZ_ge by lia. symmetry. apply lookup_ge_None. lia.
Qed.



(** *** Calls that are not interrupted *)

Lemma run_app ls ls' s : run (ls ++ ls') s = run ls' (run ls s).
Proof. apply fold_left_app. Qed.

Lemma ring_run_cons l ls s : run (l :: ls) s = run ls (exec l s).
Proof. done. Qed.

Lemma copy_run bytes w n j s : wr s = WCopy bytes w j -> (j + n = length bytes)%nat ->
  exists b, run (replicate n WStep) s = set_wr s (set_buf (shared s) b) (WCopy bytes w (length bytes)).
Proof.
  revert j s. induction n as [|n IH]; intros j s Hw Hn; cbn [replicate run fold_left].
  - assert (j = length bytes) as -> by lia. exists (buf (shared s)). destruct s as [[] ? ? ? ?]. cbn in *. by subst.
  - destruct (lookup_lt_is_Some_2 bytes j ltac:(lia)) as [byte Eb]. cbn [exec].
    unfold writer_step. rewrite Hw, Eb. match goal with |- context [fold_left _ _ ?t] => destruct (IH (S j) t) as [b Hb] end;
      [done | lia |]. exists b. exact Hb.
Qed.

Lemma fetch_run r n m acc s : rd s = RCopy r n acc -> Z.of_nat (length acc + m) = n ->
  exists acc', run (replicate m RStep) s = set_rd s (shared s) (RCopy r n acc') /\ Z.of_nat (length acc') = n.
Proof.
  revert acc s. induction m as [|m IH]; intros acc s Hr Hn; cbn [replicate run fold_left].
  - exists acc. split; [|lia]. destruct s as [? ? ? ? ?]. cbn in *. by subst.
  - cbn [exec]. unfold reader_step. rewrite Hr. destruct (Z.ltb_spec (Z.of_nat (length acc)) n); [|lia].
    match goal with |- context [fold_left _ _ ?t] => destruct (IH (acc ++ [nth (cell (shared s) (Z.land (u64 r)
      (mask_ (shared s)) + Z.of_nat (length acc))) (buf (shared s)) 0]) t) as (acc' & H1 & H2) end;
      [done | rewrite length_app; cbn; lia |]. exists acc'. by split.
Qed.

Lemma idle_steps n s : rd s = RIdle -> run (replicate n RStep) s = s.
Proof.
  intros Hr. induction n as [|n IH]; [done|]. cbn [replicate]. rewrite ring_run_cons. cbn [exec].
  unfold reader_step. by rewrite Hr.
Qed.

Lemma idle_wsteps n s : wr s = WIdle -> run (replicate n WStep) s = s.
Proof.
  intros Hr. induction n as [|n IH]; [done|]. cbn [replicate]. rewrite ring_run_cons. cbn [exec].
  unfold writer_step. by rewrite Hr.
Qed.

(** The contents after a write, from the invariants before and after. *)
Lemma contents_after k x x' sent got sent' got' : 0 <= k < 64 ->
  ring_ok k x sent got -> ring_ok k x' (sent ++ sent') (got + got') -> (got' <= length sent - got)%nat ->
  contents x' = drop got' (contents x) ++ sent'.
Proof.
  intros Hk Hr Hr' Hle. pose proof (ro_order _ _ _ _ Hr). pose proof (ro_order _ _ _ _ Hr') as Ho'.
  rewrite (contents_ok k _ _ _ Hk Hr), (contents_ok k _ _ _ Hk Hr'), drop_drop.
  rewrite drop_app_le by lia. done.
Qed.

Lemma write_alone_ok k bytes s : 0 <= k < 64 -> system_ok k s -> wr s = WIdle ->
  let held := contents (shared s) in
  let s' := write_alone bytes s in
  let ok := Z.of_nat (length held + length bytes) <=? 2 ^ k in
  wr s' = WIdle /\ rd s' = rd s /\ reads s' = reads s /\ writes s' = writes s ++ [(ok, bytes)]
  /\ contents (shared s') = held ++ if ok then bytes else [].
Proof.
  intros Hk Hs Hidle held s' ok. assert (system_ok k s') as Hs'.
  { apply run_ok; [done | | done]. constructor; [done|]. by apply Forall_replicate. }
  pose proof (cap_range k Hk) as Hcr. pose proof (so_ring _ _ Hs) as Hr. pose proof (ro_order _ _ _ _ Hr) as Ho.
  pose proof (ro_cap _ _ _ _ Hr) as Hc. pose proof (size_ok k Hk _ _ _ Hr) as Hsz. unfold size in Hsz.
  assert (length held = length (bytes_of (writes s)) - length (bytes_of (reads s)))%nat as Hheld.
  { unfold held. by rewrite (contents_ok k _ _ _ Hk Hr), length_drop. }
  assert (wr s' = WIdle /\ rd s' = rd s /\ reads s' = reads s /\ writes s' = writes s ++ [(ok, bytes)])
    as (H1 & H2 & H3 & H4).
  { unfold s', write_alone. cbn [Nat.add replicate]. rewrite ring_run_cons, ring_run_cons. cbn [exec]. rewrite Hidle.
    unfold writer_step. cbn [wr set_wr shared]. rewrite (ro_wpos _ _ _ _ Hr), (ro_rpos _ _ _ _ Hr), Hc, u64_i64_sub.
    rewrite (wrapu_small 64 (Z.of_nat _ - Z.of_nat _)), wrapu_small by lia. unfold ok.
    destruct (Z.ltb_spec (2 ^ k - (Z.of_nat (length (bytes_of (writes s))) - Z.of_nat (length (bytes_of (reads s)))))
      (Z.of_nat (length bytes))) as [Hlt | Hge].
    - rewrite (proj2 (Z.leb_gt _ _)) by lia. change (WStep :: replicate (length bytes) WStep) with (replicate (S (length bytes)) WStep).
      by rewrite idle_wsteps.
    - rewrite (proj2 (Z.leb_le _ _)) by lia.
      change (WStep :: replicate (length bytes) WStep) with (replicate (S (length bytes)) WStep).
      rewrite replicate_S_end, run_app.
      match goal with |- context [run (replicate (length bytes) WStep) ?t] =>
        destruct (copy_run bytes (i64 (Z.of_nat (length (bytes_of (writes s))))) (length bytes) 0 t eq_refl eq_refl) as [b ->] end.
      rewrite ring_run_cons. cbn [exec run fold_left]. unfold writer_step. cbn [wr set_wr].
      by rewrite (lookup_ge_None_2 bytes (length bytes)) by lia. }
  split; [done|]. split; [done|]. split; [done|]. split; [done|].
  pose proof (so_ring _ _ Hs') as Hr'. rewrite H3, H4, bytes_of_snoc in Hr'.
  rewrite <- (Nat.add_0_r (length (bytes_of (reads s)))) in Hr'.
  apply (contents_after k _ _ _ _ _ _ Hk Hr Hr'). lia.
Qed.

Lemma read_alone_ok k need want s : 0 <= k < 64 -> system_ok k s -> rd s = RIdle -> 0 <= want ->
  let held := contents (shared s) in
  let s' := read_alone need want s in
  let ready := Z.of_nat (length held) in
  let ok := negb ((ready =? 0) || (ready <? need)) in
  rd s' = RIdle /\ wr s' = wr s /\ writes s' = writes s
  /\ reads s' = reads s ++ [(ok, if ok then take (Z.to_nat want) held else [])]
  /\ contents (shared s') = if ok then drop (Z.to_nat want) held else held.
Proof.
  intros Hk Hs Hidle Hwant held s' ready ok. assert (system_ok k s') as Hs'.
  { apply run_ok; [done | | done]. constructor; [done|]. by apply Forall_replicate. }
  pose proof (cap_range k Hk) as Hcr. pose proof (so_ring _ _ Hs) as Hr. pose proof (ro_order _ _ _ _ Hr) as Ho.
  pose proof (contents_ok k _ _ _ Hk Hr) as Hheld. fold held in Hheld.
  assert (ready = Z.of_nat (length (bytes_of (writes s))) - Z.of_nat (length (bytes_of (reads s)))) as Hready.
  { unfold ready. rewrite Hheld, length_drop. lia. }
  assert (rd s' = RIdle /\ wr s' = wr s /\ writes s' = writes s /\
    exists acc, reads s' = reads s ++ [(ok, acc)] /\ Z.of_nat (length acc) = if ok then Z.min want ready else 0)
    as (H1 & H2 & H3 & acc & H4 & H5).
  { unfold s', read_alone. cbn [Nat.add replicate]. rewrite ring_run_cons, ring_run_cons. cbn [exec]. rewrite Hidle.
    unfold reader_step. cbn [rd set_rd shared]. rewrite (ro_wpos _ _ _ _ Hr), (ro_rpos _ _ _ _ Hr), u64_i64_sub.
    rewrite wrapu_small, <- Hready by lia. unfold ok. destruct ((ready =? 0) || (ready <? need)); cbn [negb].
    - change (RStep :: replicate (Z.to_nat (capacity_ (shared s))) RStep)
        with (replicate (S (Z.to_nat (capacity_ (shared s)))) RStep).
      rewrite idle_steps by done. repeat (split; [done|]). by exists [].
    - change (RStep :: replicate (Z.to_nat (capacity_ (shared s))) RStep)
        with (replicate (S (Z.to_nat (capacity_ (shared s)))) RStep).
      rewrite (ro_cap _ _ _ _ Hr).
      replace (S (Z.to_nat (2 ^ k))) with (Z.to_nat (Z.min want ready) + S (Z.to_nat (2 ^ k) - Z.to_nat (Z.min want ready)))%nat by lia.
      rewrite replicate_add, run_app.
      match goal with |- context [run (replicate (Z.to_nat (Z.min want ready)) RStep) ?t] =>
        destruct (fetch_run (i64 (Z.of_nat (length (bytes_of (reads s))))) (Z.min want ready)
          (Z.to_nat (Z.min want ready)) [] t eq_refl ltac:(cbn; lia)) as (acc & -> & Hacc) end.
      cbn [replicate]. rewrite ring_run_cons. cbn [exec]. unfold reader_step. cbn [rd set_rd].
      destruct (Z.ltb_spec (Z.of_nat (length acc)) (Z.min want ready)); [lia|]. cbn [shared].
      rewrite idle_steps by done. repeat (split; [done|]). by exists acc. }
  pose proof (so_ring _ _ Hs') as Hr'. pose proof (so_prefix _ _ Hs') as Hp'.
  rewrite H3, H4, bytes_of_snoc in Hr', Hp'. rewrite length_app in Hr', Hp'.
  rewrite <- (app_nil_r (bytes_of (writes s))) in Hr'.
  pose proof (contents_after k _ _ _ _ _ _ Hk Hr Hr') as Hc. rewrite app_nil_r in Hc. fold held in Hc.
  split; [done|]. split; [done|]. split; [done|]. rewrite H4. destruct ok; cbn [length] in *.
  - rewrite <- take_take_drop, <- (so_prefix _ _ Hs), <- Hheld in Hp'. apply app_inv_head in Hp'.
    assert (acc = take (Z.to_nat want) held /\ drop (length acc) held = drop (Z.to_nat want) held) as [-> Hd].
    { assert (length (take (length acc) held) = length acc) as Hl by (rewrite length_take; lia).
      destruct (decide (want <= ready)).
      - assert (length acc = Z.to_nat want) as <- by lia. by rewrite <- Hp'.
      - assert (length acc = length held) as El by lia. rewrite El in *. rewrite Hp', !take_ge, !drop_ge by lia. done. }
    split; [done|]. rewrite <- Hd. apply Hc. lia.
  - destruct acc; [|cbn in H5; lia]. split; [done|]. rewrite Hc by lia. by rewrite drop_0.
Qed.

(** A call that is not interrupted does what its comment says, and returns: a write
    is refused exactly when the capacity would be exceeded; a read is refused
    exactly when nothing is there or less than was needed, and otherwise takes from
    the front what is there, at most what was wanted.  Nothing else changes. *)
Theorem ring_calls (cap : Z) (x : ring) (ls : list label) (bytes : list Z) (need want : Z) :
  make_ring cap = Some x -> cap < 2 ^ 64 -> Forall valid ls -> 0 <= want ->
  let s := run ls (init x) in
  let held := contents (shared s) in
  (wr s = WIdle ->
     let s' := write_alone bytes s in
     let ok := Z.of_nat (length held + length bytes) <=? cap in
     wr s' = WIdle /\ rd s' = rd s /\ reads s' = reads s /\ writes s' = writes s ++ [(ok, bytes)]
     /\ contents (shared s') = held ++ if ok then bytes else [])
  /\ (rd s = RIdle ->
     let s' := read_alone need want s in
     let ready := Z.of_nat (length held) in
     let ok := negb ((ready =? 0) || (ready <? need)) in
     rd s' = RIdle /\ wr s' = wr s /\ writes s' = writes s
     /\ reads s' = reads s ++ [(ok, if ok then take (Z.to_nat want) held else [])]
     /\ contents (shared s') = if ok then drop (Z.to_nat want) held else held).
Proof.
  intros Hx Hcap Hv Hwant s held. destruct (capacity_pow2 cap x Hx Hcap) as (k & Hk & ->).
  pose proof (run_ok k Hk ls (init x) Hv (make_ring_ok k Hk x Hx)) as Hs. fold s in Hs.
  split; intros Hidle.
  - by apply (write_alone_ok k).
  - by apply (read_alone_ok k).
Qed.

Lemma ring_calls_witness :
  let s := run [] (init (mkRing 4 3 0 0 [0; 0; 0; 0])) in
  let held := contents (shared s) in
  (wr s = WIdle ->
     let s' := write_alone [1; 2; 3] s in
     let ok := Z.of_nat (length held + length [1; 2; 3]) <=? 4 in
     wr s' = WIdle /\ rd s' = rd s /\ reads s' = reads s /\ writes s' = writes s ++ [(ok, [1; 2; 3])]
     /\ contents (shared s') = held ++ if ok then [1; 2; 3] else [])
  /\ (rd s = RIdle ->
     let s' := read_alone 0 2 s in
     let ready := Z.of_nat (length held) in
     let ok := negb ((ready =? 0) || (ready <? 0)) in
     rd s' = RIdle /\ wr s' = wr s /\ writes s' = writes s
     /\ reads s' = reads s ++ [(ok, if ok then take (Z.to_nat 2) held else [])]
     /\ contents (shared s') = if ok then drop (Z.to_nat 2) held else held).
Proof.
  apply (ring_calls 4 (mkRing 4 3 0 0 [0; 0; 0; 0]) [] [1; 2; 3] 0 2); [by vm_compute | lia | constructor | lia].
Defined.

(** The call of [read] with a buffer and a size does not return the number of bytes
    read, as its comment says: its result is the truth value of the underlying
    [read], so it is one for every read that succeeds. *)
Theorem read_returns_flag :
  let s := read_alone 0 10 (write_alone [7; 8; 9] (init (mkRing 4 3 0 0 [0; 0; 0; 0]))) in
  reads s = [(true, [7; 8; 9])] /\ map read_result (reads s) = [1].
Proof. by vm_compute. Qed.
