(* ===== verification/HttpStream.v ===== *)
(** * HTTP responses

    Models [toolbox/http/Stream.hpp] and [Stream.cpp]: the stream buffer that writes
    past the end of the buffer of file Buffer without committing, and the response
    head with a place-holder for the length of the content, which is filled in when
    the response is committed. *)
From Stdlib Require Import String.
From S2P Require Import Prelude Buffer Text.
#[local] Open Scope Z_scope.

(** ** [HttpBuf] *)

(** The base is the offset of the bytes that were not committed. *)
Record HttpBuf := mkHttpBuf { buffer_ : Buffer; pbase_ : option Z; pcount_ : Z }.

Definition xsputn (s : list Z) (h : HttpBuf) : HttpBuf :=
  let count := Z.of_nat (length s) in
  let '(r, b) := Buffer.prepare (pcount_ h + count) (buffer_ h) in
  mkHttpBuf (Buffer.store (Buffer.advance r (pcount_ h)) s b) (Some (Buffer.data r)) (pcount_ h + count).

(** [overflow] of a character that is not the end of file. *)
Definition overflow (c : Z) (h : HttpBuf) : HttpBuf :=
  let '(r, b) := Buffer.prepare (pcount_ h + 1) (buffer_ h) in
  mkHttpBuf (Buffer.store (Buffer.advance r (pcount_ h)) [c] b) (Some (Buffer.data r)) (pcount_ h + 1).

Definition buf_commit (h : HttpBuf) : HttpBuf :=
  mkHttpBuf (Buffer.commit (pcount_ h) (buffer_ h)) (pbase_ h) (pcount_ h).

Definition buf_reset (h : HttpBuf) : HttpBuf := mkHttpBuf (buffer_ h) None 0.

(** The digits, from the last one backwards; 64 rounds are enough for 64 bits. *)
Fixpoint patch (fuel : nat) (it : Z) (len : Z) (bytes : list Z) : list Z :=
  match fuel with
  | O => bytes
  | S fuel =>
      let it := it - 1 in
      let bytes := <[Z.to_nat it := 48 + len mod 10]> bytes in
      let len := len / 10 in
      if 0 <? len then patch fuel it len bytes else bytes
  end.

(** Without a base there is nothing to write to. *)
Definition set_content_length (pos len : Z) (h : HttpBuf) : option HttpBuf :=
  base ← pbase_ h;
  let b := buffer_ h in
  Some (mkHttpBuf (mkBuffer (rpos_ b) (wpos_ b) (patch 64 (base + pos) len (buf_ b))) (pbase_ h) (pcount_ h)).

(** ** [HttpStream] *)

Record HttpStream := mkStream { sbuf : HttpBuf; cloff_ : Z; hcount_ : Z }.

(** The bytes of a text, and writing it. *)
Definition bytes (s : str) : list Z := map code s.
Definition put (s : str) (st : HttpStream) : HttpStream := mkStream (xsputn (bytes s) (sbuf st)) (cloff_ st) (hcount_ st).

Definition commit (st : HttpStream) : option HttpStream :=
  h ← (if 0 <? cloff_ st then set_content_length (cloff_ st) (pcount_ (sbuf st) - hcount_ st) (sbuf st)
       else Some (sbuf st));
  Some (mkStream (buf_commit h) (cloff_ st) (hcount_ st)).

Definition stream_reset (st : HttpStream) : HttpStream := mkStream (buf_reset (sbuf st)) 0 0.

Definition crlf : str := [chr 13; chr 10].

(** The status is written as a number, then the text for it ([enum_string]). *)
Definition http_status (status : Z) (reason : str) (content_type : option str) (no_cache : bool) (st : HttpStream)
    : HttpStream :=
  let st := mkStream (buf_reset (sbuf st)) (cloff_ st) (hcount_ st) in
  let st := put (lit "HTTP/1.1 ") st in
  let st := put (to_string status) st in
  let st := put (lit " ") st in
  let st := put reason st in
  let st := if no_cache then put (crlf ++ lit "Cache-Control: no-cache") st else st in
  let st :=
    match content_type with
    | Some ct =>
        let st := put (crlf ++ lit "Content-Type: ") st in
        let st := put ct st in
        let st := put (crlf ++ lit "Content-Length:          0") st in
        mkStream (sbuf st) (pcount_ (sbuf st)) (hcount_ st)
    | None => mkStream (sbuf st) 0 (hcount_ st)
    end in
  let st := put (crlf ++ crlf) st in
  mkStream (sbuf st) (cloff_ st) (pcount_ (sbuf st)).

(** [http_request] with headers; nothing is reset. *)
Definition http_request (method url : str) (headers : list (str * str)) (st : HttpStream) : HttpStream :=
  let st := put method st in
  let st := put (lit " ") st in
  let st := put url st in
  let st := put (lit " ") st in
  let st := put (lit " HTTP/1.1" ++ crlf) st in
  let st := fold_left (fun st (kv : str * str) => put crlf (put kv.2 (put (lit ":") (put kv.1 st)))) headers st in
  put crlf st.

(** A response: the head, the pieces of the content, committed. *)
Definition respond (status : Z) (reason : str) (content_type : option str) (no_cache : bool) (pieces : list str)
    (b : Buffer) : option Buffer :=
  let st := http_status status reason content_type no_cache (mkStream (mkHttpBuf b None 0) 0 0) in
  let st := fold_left (fun st p => put p st) pieces st in
  st ← commit st; Some (buffer_ (sbuf st)).

(** ** What was written and not committed *)

Record pending (b0 : Buffer) (w : list Z) (h : HttpBuf) : Prop := {
  pd_wf : wf (buffer_ h);
  pd_bytes : exists p rest, buf_ (buffer_ h) = p ++ w ++ rest /\ Z.of_nat (length p) = wpos_ b0;
  pd_base : w = [] \/ pbase_ h = Some (wpos_ b0);
  pd_count : pcount_ h = Z.of_nat (length w);
  pd_pos : rpos_ (buffer_ h) = rpos_ b0 /\ wpos_ (buffer_ h) = wpos_ b0;
  pd_str : Buffer.str (buffer_ h) = Buffer.str b0;
  pd_size : wpos_ b0 <= vector_size b0 /\ vector_size (buffer_ h) <= vector_size b0 + Z.of_nat (length w)
}.

Lemma pending_start b h : wf b -> buffer_ h = b -> pending b [] (buf_reset h).
Proof.
  intros Hwf Hb. split; cbn; rewrite ?Hb; try done; [| by left | destruct Hwf; lia].
  exists (take (Z.to_nat (wpos_ b)) (buf_ b)), (drop (Z.to_nat (wpos_ b)) (buf_ b)). rewrite take_drop.
  split; [done|]. destruct Hwf as [? Hw]. unfold vector_size in Hw. rewrite length_take. lia.
Qed.

Lemma prepare_buf sz b : exists z, buf_ (prepare sz b).2 = buf_ b ++ z.
Proof. unfold prepare. case_match; cbn; [by eexists | exists []; by rewrite app_nil_r]. Qed.

Lemma xsputn_pending b0 w s h : pending b0 w h ->
  vector_size b0 + Z.of_nat (length w) + (Z.of_nat (length w) + Z.of_nat (length s)) < 2 ^ 63 ->
  pending b0 (w ++ s) (xsputn s h).
Proof.
  intros [Hwf (p & rest & Hbuf & Hp) _ Hc [Hrp Hwp] Hstr Hsz] Hmax. unfold xsputn. rewrite Hc.
  pose proof (prepare_facts (Z.of_nat (length w) + Z.of_nat (length s)) (buffer_ h) Hwf ltac:(lia) ltac:(lia)) as Hpr.
  pose proof (prepare_buf (Z.of_nat (length w) + Z.of_nat (length s)) (buffer_ h)) as [z Hz].
  destruct (prepare _ _) as [r b]. cbn [snd] in Hz.
  destruct Hpr as (Hwf1 & Hstr1 & Hrp1 & Hwp1 & Hd & Hreg & Hend & Hvs).
  assert (data (advance r (Z.of_nat (length w))) = wpos_ b0 + Z.of_nat (length w)) as Hoff.
  { cbn. rewrite Hd. lia. }
  rewrite Hbuf in Hz.
  assert (Z.of_nat (length (buf_ b)) = vector_size b) as Hlen by done. rewrite Hz, !length_app in Hlen.
  assert (buf_ (store (advance r (Z.of_nat (length w))) s b) = p ++ (w ++ s) ++ drop (length s) (rest ++ z)) as Hst.
  { unfold store. cbn [buf_]. rewrite Hoff, Hz.
    replace (Z.to_nat (wpos_ b0 + Z.of_nat (length w))) with (length (p ++ w)) by (rewrite length_app; lia).
    rewrite <- !app_assoc, (app_assoc p w), take_app_length, <- app_assoc. do 3 f_equal.
    by rewrite <- drop_drop, drop_app_length. }
  assert (vector_size (store (advance r (Z.of_nat (length w))) s b) = vector_size b) as Hvs'.
  { unfold vector_size at 1. rewrite Hst, !length_app, length_drop, length_app. lia. }
  assert (wf (store (advance r (Z.of_nat (length w))) s b)) as Hwf2.
  { destruct Hwf1 as [? ?]. split; [done|]. by rewrite Hvs'. }
  split; cbn [buffer_ pbase_ pcount_]; [done | by eexists p, _ | right; congruence | rewrite length_app; lia | | |].
  - cbn. split; congruence.
  - rewrite !str_slice in * by done. cbn [rpos_ wpos_ store] in *. rewrite <- Hstr, <- Hstr1, Hst, Hz.
    destruct Hwf1 as [Hr1 _].
    rewrite <- !app_assoc. assert (wpos_ b = Z.of_nat (length p)) by congruence.
    by rewrite !(slice_app_l (rpos_ b) (wpos_ b) p) by lia.
  - split; [apply Hsz|]. rewrite Hvs', Hvs, length_app. destruct Hwf as [_ Hw]. lia.
Qed.

(** *** The length of the content *)

Lemma digits_loop_acc fuel n acc : digits_loop fuel n acc = digits_loop fuel n [] ++ acc.
Proof.
  revert n acc. induction fuel as [|fuel IH]; intros n acc; cbn [digits_loop]; [done|].
  case_match; [done|]. rewrite IH, (IH _ [_]). by rewrite <- app_assoc.
Qed.

(** The digits are written over the end of a field that is long enough. *)
Lemma patch_digits fuel n a f c :
  0 <= n -> (Z.to_nat (Z.log2 n) < fuel)%nat -> (length (digits_loop fuel n []) <= length f)%nat ->
  patch fuel (Z.of_nat (length (a ++ f))) n (a ++ f ++ c)
  = a ++ take (length f - length (digits_loop fuel n [])) f ++ bytes (digits_loop fuel n []) ++ c.
Proof.
  revert n f c. induction fuel as [|fuel IH]; intros n f c Hn Hf; cbn [digits_loop patch]; [lia|].
  pose proof (Z.div_mod n 10 ltac:(lia)). pose proof (Z.mod_pos_bound n 10 ltac:(lia)).
  destruct f as [|x f _] using rev_ind; [intros Hl; destruct (_ =? _); [|rewrite digits_loop_acc, length_app in Hl]; cbn in Hl; lia|].
  assert (forall y, <[Z.to_nat (Z.of_nat (length (a ++ f ++ [x])) - 1) := y]> (a ++ (f ++ [x]) ++ c) = a ++ f ++ y :: c) as Hins.
  { intros y. replace (Z.to_nat (Z.of_nat (length (a ++ f ++ [x])) - 1)) with (length (a ++ f) + 0)%nat
      by (rewrite !length_app; cbn; lia).
    rewrite <- (app_assoc f), (app_assoc a), insert_app_r. by rewrite <- app_assoc. }
  rewrite Hins. assert (code (chr (48 + n mod 10)) = 48 + n mod 10) as Hc by (apply code_chr; lia).
  rewrite length_app. cbn [length].
  destruct (Z.eqb_spec (n / 10) 0) as [E | E]; destruct (Z.ltb_spec 0 (n / 10)); try lia; intros Hl.
  - cbn [length bytes map app]. rewrite Hc. rewrite take_app_le, take_ge by (cbn; lia). done.
  - replace (Z.of_nat (length (a ++ f ++ [x])) - 1) with (Z.of_nat (length (a ++ f))) by (rewrite !length_app; cbn; lia).
    rewrite digits_loop_acc in Hl |- *. rewrite length_app in Hl. rewrite (length_app (digits_loop _ _ _)).
    cbn [length] in *. rewrite IH; [| lia | pose proof (log2_div10 n ltac:(lia)); lia | lia].
    unfold bytes. rewrite map_app, <- app_assoc. cbn [map app]. rewrite Hc. f_equal.
    rewrite take_app_le by lia. do 2 f_equal. lia.
Qed.

Lemma digits_fuel fuel n : 0 <= n -> (Z.to_nat (Z.log2 n) < fuel)%nat -> digits_loop fuel n [] = digits n.
Proof.
  intros Hn Hf. unfold digits. generalize (le_n (S (Z.to_nat (Z.log2 n)))). generalize (S (Z.to_nat (Z.log2 n))) at 2 3.
  revert n Hn Hf. induction fuel as [|fuel IH]; intros n Hn Hf [|f] Hf'; try lia. cbn [digits_loop].
  destruct (Z.eqb_spec (n / 10) 0); [done|]. rewrite (digits_loop_acc fuel), (digits_loop_acc f). f_equal.
  pose proof (Z.div_pos n 10 Hn ltac:(lia)). pose proof (log2_div10 n ltac:(lia)). apply IH; lia.
Qed.

(** ** Responses *)

Lemma put_pending b0 w s st : pending b0 w (sbuf st) ->
  vector_size b0 + 2 * Z.of_nat (length (w ++ bytes s)) < 2 ^ 63 ->
  pending b0 (w ++ bytes s) (sbuf (put s st)).
Proof. intros Hp Hm. apply xsputn_pending; [done|]. rewrite length_app in Hm. lia. Qed.

Definition puts (l : list str) (st : HttpStream) : HttpStream := fold_left (fun st s => put s st) l st.

Lemma puts_pending b0 l w st : pending b0 w (sbuf st) ->
  vector_size b0 + 2 * Z.of_nat (length (w ++ bytes (concat l))) < 2 ^ 63 ->
  pending b0 (w ++ bytes (concat l)) (sbuf (puts l st)).
Proof.
  revert w st. induction l as [|s l IH]; intros w st Hp Hm; cbn [concat puts fold_left] in *.
  - by rewrite app_nil_r.
  - unfold bytes in *. rewrite map_app, app_assoc in *. apply IH; [|done].
    apply put_pending; [done|]. unfold bytes in *. rewrite length_app in Hm. lia.
Qed.

Lemma puts_offsets l st : cloff_ (puts l st) = cloff_ st /\ hcount_ (puts l st) = hcount_ st.
Proof. revert st. induction l as [|s l IH]; intros st; [done|]. apply (IH (put s st)). Qed.

(** The pieces of the head before the place where the length is, and the field. *)
Definition head_pieces (status : Z) (reason : str) (content_type : option str) (no_cache : bool) : list str :=
  [lit "HTTP/1.1 "; to_string status; lit " "; reason]
  ++ (if no_cache then [crlf ++ lit "Cache-Control: no-cache"] else [])
  ++ (match content_type with Some ct => [crlf ++ lit "Content-Type: "; ct] | None => [] end).
Definition length_label : str := crlf ++ lit "Content-Length:".
Definition place_holder : str := lit "          0".

(** A number at the right of the eleven columns of the field. *)
Definition length_field (n : Z) : str := replicate (11 - length (digits n)) " "%char ++ digits n.

(** The head that the peer should see. *)
Definition head (status : Z) (reason : str) (content_type : option str) (no_cache : bool) (content_length : Z) : str :=
  concat (head_pieces status reason content_type no_cache)
  ++ (match content_type with Some _ => length_label ++ length_field content_length | None => [] end) ++ crlf ++ crlf.

Lemma http_status_pieces status reason content_type no_cache st :
  let pieces := head_pieces status reason content_type no_cache in
  let l := match content_type with Some _ => [length_label ++ place_holder] | None => [] end in
  let before := puts (pieces ++ l) (mkStream (buf_reset (sbuf st)) 0 0) in
  let st' := http_status status reason content_type no_cache st in
  sbuf st' = sbuf (puts [crlf ++ crlf] before)
  /\ cloff_ st' = (match content_type with Some _ => pcount_ (sbuf before) | None => 0 end)
  /\ hcount_ st' = pcount_ (sbuf st').
Proof.
  destruct content_type, no_cache; cbv zeta; unfold http_status, puts, head_pieces; cbv zeta;
    cbn [fold_left app]; cbn [sbuf cloff_ hcount_ put]; split; reflexivity || (split; reflexivity).
Qed.

(** What is committed comes after what was there. *)
Lemma commit_str b0 p w rest h : pending b0 w h -> buf_ (buffer_ h) = p ++ w ++ rest ->
  Z.of_nat (length p) = wpos_ b0 -> vector_size b0 + Z.of_nat (length w) < 2 ^ 63 ->
  Buffer.str (buffer_ (buf_commit h)) = Buffer.str b0 ++ w /\ wf (buffer_ (buf_commit h)).
Proof.
  intros [Hwf _ _ Hc [Hrp Hwp] Hstr Hsz] Hbuf Hp Hm. cbn [buffer_ buf_commit].
  assert (Z.of_nat (length (buf_ (buffer_ h))) = vector_size (buffer_ h)) as Hlen by done.
  rewrite Hbuf, !length_app in Hlen. pose proof Hwf as [Hr Hw].
  assert (u64 (wpos_ b0 + pcount_ h) = Z.of_nat (length p) + Z.of_nat (length w)) as Hpos.
  { rewrite wrapu_small by lia. lia. }
  assert (wf (Buffer.commit (pcount_ h) (buffer_ h))) as Hwf'.
  { split; unfold vector_size; cbn [rpos_ wpos_ buf_ Buffer.commit]; rewrite Hwp, Hpos; [lia|].
    rewrite Hbuf, !length_app. lia. }
  split; [|done]. rewrite str_slice by done. rewrite <- Hstr, str_slice by done. cbn [rpos_ wpos_ buf_ Buffer.commit].
  rewrite Hwp, Hpos, Hbuf, <- Hp.
  replace (p ++ w ++ rest) with (take (Z.to_nat (Z.of_nat (length p))) p ++ w ++ rest) at 1
    by (by rewrite Nat2Z.id, firstn_all).
  rewrite slice_store by lia. f_equal. symmetry. apply slice_app_l; lia.
Qed.

Lemma patch_pending b0 w1 w2 field n h :
  pending b0 (w1 ++ field ++ w2) h -> w1 <> [] -> 0 <= n < 10 ^ Z.of_nat (length field) -> n < 2 ^ 63 ->
  (1 <= length field)%nat ->
  exists h', set_content_length (Z.of_nat (length (w1 ++ field))) n h = Some h'
    /\ pending b0 (w1 ++ (take (length field - length (digits n)) field ++ bytes (digits n)) ++ w2) h'.
Proof.
  intros [Hwf (p & rest & Hbuf & Hp) Hbase Hc [Hrp Hwp] Hstr Hsz] Hw1 Hn Hmax Hf.
  destruct Hbase as [Hbase | Hbase]; [by destruct w1|]. unfold set_content_length. rewrite Hbase. cbn [mbind option_bind].
  assert (length (digits n) <= length field)%nat as Hd.
  { destruct (digits_spec n ltac:(lia)) as (_ & _ & _ & _ & [? | Hge]); [lia|].
    assert (Z.of_nat (length (digits n)) - 1 < Z.of_nat (length field)); [|lia].
    apply (Z.pow_lt_mono_r_iff 10); lia. }
  assert (Z.to_nat (Z.log2 n) < 64)%nat as Hl.
  { destruct (decide (n = 0)) as [-> | Hn0]; [cbn; lia|].
    assert (Z.log2 n < 63) by (apply Z.log2_lt_pow2; lia). lia. }
  assert (patch 64 (wpos_ b0 + Z.of_nat (length (w1 ++ field))) n (buf_ (buffer_ h))
    = p ++ (w1 ++ (take (length field - length (digits n)) field ++ bytes (digits n)) ++ w2) ++ rest) as Hpatch.
  { rewrite Hbuf, <- Hp, <- Nat2Z.inj_add, <- length_app, app_assoc.
    replace (p ++ (w1 ++ field ++ w2) ++ rest) with ((p ++ w1) ++ field ++ (w2 ++ rest)) by (by rewrite <- !app_assoc).
    rewrite patch_digits by (rewrite ?digits_fuel by lia; lia). rewrite digits_fuel by lia. by rewrite <- !app_assoc. }
  rewrite Hpatch. eexists. split; [reflexivity|].
  assert (length (take (length field - length (digits n)) field ++ bytes (digits n)) = length field) as Hfl.
  { rewrite length_app, length_take. unfold bytes. rewrite length_map. lia. }
  set (field' := take _ field ++ _) in *. clearbody field'.
  set (b1 := mkBuffer _ _ _). assert (vector_size b1 = vector_size (buffer_ h)) as Hvs.
  { unfold vector_size. cbn [buf_ b1]. rewrite Hbuf. rewrite !length_app, Hfl. lia. }
  assert (wf b1) as Hwf1 by (destruct Hwf as [Hr Hw]; split; [exact Hr | rewrite Hvs; exact Hw]).
  assert (Z.of_nat (length (buf_ (buffer_ h))) = vector_size (buffer_ h)) as Hlen by done.
  rewrite Hbuf, !length_app in Hlen. destruct Hwf as [Hr Hw].
  split; cbn [buffer_ pbase_ pcount_]; [done | by exists p, rest | by right | | done | | ].
  - rewrite Hc, !length_app, Hfl. lia.
  - rewrite <- Hstr. rewrite !str_slice by (done || by split). cbn [rpos_ wpos_ buf_ b1]. rewrite Hbuf.
    by rewrite !(slice_app_l (rpos_ (buffer_ h)) (wpos_ (buffer_ h)) p) by lia.
  - rewrite !length_app in Hsz. rewrite Hvs, !length_app, Hfl. lia.
Qed.

Lemma length_bytes s : length (bytes s) = length s.
Proof. apply length_map. Qed.

Lemma bytes_app s s' : bytes (s ++ s') = bytes s ++ bytes s'.
Proof. apply map_app. Qed.

Lemma place_holder_field n : 0 <= n < 10 ^ 11 ->
  take (11 - length (digits n)) (bytes place_holder) ++ bytes (digits n) = bytes (length_field n)
  /\ length (bytes (length_field n)) = 11%nat.
Proof.
  intros Hn. destruct (digits_spec n ltac:(lia)) as (_ & _ & Hne & _ & Hge).
  assert (length (digits n) <= 11)%nat as Hd.
  { destruct Hge as [? | Hge]; [lia|]. assert (Z.of_nat (length (digits n)) - 1 < 11); [|lia].
    apply (Z.pow_lt_mono_r_iff 10); lia. }
  unfold length_field. rewrite bytes_app. split.
  - f_equal. destruct (length (digits n)) as [|k] eqn:E; [by destruct (digits n)|].
    do 11 (destruct k as [|k]; [done|]). lia.
  - rewrite length_app, !length_bytes, length_replicate. lia.
Qed.

Lemma length_head status reason ct nc n : 0 <= n < 10 ^ 11 ->
  length (head status reason ct nc n) = length (head status reason ct nc 0).
Proof.
  intros Hn. unfold head. rewrite !length_app. destruct ct; [|done]. rewrite !length_app.
  destruct (place_holder_field n Hn) as [_ H1]. destruct (place_holder_field 0 ltac:(lia)) as [_ H2].
  rewrite length_bytes in H1, H2. by rewrite H1, H2.
Qed.

(** The line of the content's length, with its place-holder. *)
Definition length_pieces (content_type : option str) : list str :=
  match content_type with Some _ => [length_label ++ place_holder] | None => [] end.

Lemma length_head_pieces status reason ct nc :
  length (head status reason ct nc 0) = (length (concat (head_pieces status reason ct nc ++ length_pieces ct)) + 4)%nat.
Proof.
  unfold head. rewrite concat_app, !length_app. unfold length_pieces. destruct ct; cbn [concat]; [|cbn; lia].
  rewrite !length_app. destruct (place_holder_field 0 ltac:(lia)) as [_ E]. rewrite length_bytes in E. rewrite E. cbn. lia.
Qed.

Lemma commit_pending b w h : pending b w h -> vector_size b + Z.of_nat (length w) < 2 ^ 63 ->
  wf (buffer_ (buf_commit h)) /\ Buffer.str (buffer_ (buf_commit h)) = Buffer.str b ++ w.
Proof. intros Hp Hm. destruct (pd_bytes _ _ _ Hp) as (p & rest & Hbuf & Hlp). by destruct (commit_str b p w rest h Hp Hbuf Hlp Hm). Qed.

(** The head and the content before the response is committed, with the offsets that
    [commit] uses. *)
Lemma content_written status reason ct nc pieces b :
  let ps := head_pieces status reason ct nc ++ length_pieces ct in
  let st := puts pieces (http_status status reason ct nc (mkStream (mkHttpBuf b None 0) 0 0)) in
  wf b ->
  vector_size b + 2 * (Z.of_nat (length (concat ps)) + 4 + Z.of_nat (length (concat pieces))) < 2 ^ 63 ->
  pending b (bytes (concat ps) ++ bytes (crlf ++ crlf) ++ bytes (concat pieces)) (sbuf st)
  /\ cloff_ st = (match ct with Some _ => Z.of_nat (length (concat ps)) | None => 0 end)
  /\ hcount_ st = Z.of_nat (length (concat ps) + 4).
Proof.
  cbv zeta. intros Hwf Hmax. set (st0 := mkStream (mkHttpBuf b None 0) 0 0).
  destruct (http_status_pieces status reason ct nc st0) as (Hs & Hcl & Hh).
  set (st := http_status _ _ _ _ st0) in *. unfold length_pieces in *. set (ps := head_pieces status reason ct nc ++ _) in *.
  assert (pending b (bytes (concat ps)) (sbuf (puts ps (mkStream (buf_reset (sbuf st0)) 0 0)))) as P1.
  { apply (puts_pending b ps []); [by apply pending_start|]. cbn [app]. rewrite length_bytes. lia. }
  assert (length (bytes (concat ps) ++ bytes (crlf ++ crlf)) = length (concat ps) + 4)%nat as Hl4
    by (by rewrite length_app, !length_bytes).
  assert (pending b (bytes (concat ps) ++ bytes (crlf ++ crlf)) (sbuf st)) as P2.
  { rewrite Hs. apply put_pending; [done|]. rewrite Hl4. lia. }
  rewrite (pd_count _ _ _ P1), length_bytes in Hcl. rewrite (pd_count _ _ _ P2), Hl4 in Hh.
  pose proof (puts_offsets pieces st) as [Ho1 Ho2]. rewrite Ho1, Ho2, Hcl, Hh. split; [|done].
  rewrite app_assoc. apply puts_pending; [done|]. rewrite length_app, Hl4, length_bytes. lia.
Qed.

(** The place-holder is replaced by the length. *)
Lemma length_patched ps rest n b h :
  let w := concat (ps ++ [length_label ++ place_holder]) in
  pending b (bytes w ++ bytes (crlf ++ crlf) ++ rest) h -> 0 <= n < 10 ^ 11 ->
  exists h', set_content_length (Z.of_nat (length w)) n h = Some h'
    /\ pending b (bytes (concat ps ++ length_label ++ length_field n) ++ bytes (crlf ++ crlf) ++ rest) h'.
Proof.
  cbv zeta. intros Hp Hn. rewrite concat_app in *. cbn [concat] in *. rewrite app_nil_r in *.
  destruct (patch_pending b (bytes (concat ps ++ length_label)) (bytes (crlf ++ crlf) ++ rest) (bytes place_holder) n h)
    as (h' & Hset & Hp').
  - rewrite !bytes_app, <- !app_assoc in *. exact Hp.
  - rewrite bytes_app. by destruct (bytes (concat ps)).
  - exact Hn.
  - lia.
  - cbn. lia.
  - rewrite length_app, !length_bytes in Hset. rewrite length_app in Hset. rewrite !length_app.
    rewrite Nat.add_assoc. rewrite Hset. eexists. split; [reflexivity|].
    destruct (place_holder_field n Hn) as [Hf _]. change (length (bytes place_holder)) with 11%nat in Hp'. rewrite Hf in Hp'.
    by rewrite !bytes_app, <- !app_assoc in *.
Qed.

(** C30: A response is what HTTP asks for: after the head is written with a place-holder,
    the content in any pieces, and the response is committed, the buffer holds, after
    what it held before, the head and the content, and the length in the head is
    the number of bytes of the content, in decimal at the right of its field (as
    long as it has at most 11 digits); the place-holder is patched in a vector that
    may have been moved by every write. *)
Theorem response_content_length (status : Z) (reason : str) (content_type : option str) (no_cache : bool)
    (pieces : list str) (b : Buffer) :
  wf b -> Z.of_nat (length (concat pieces)) < 10 ^ 11 ->
  vector_size b + 2 * Z.of_nat (length (head status reason content_type no_cache 0 ++ concat pieces)) < 2 ^ 63 ->
  exists b', respond status reason content_type no_cache pieces b = Some b' /\ wf b'
    /\ Buffer.str b' = Buffer.str b
         ++ bytes (head status reason content_type no_cache (Z.of_nat (length (concat pieces))))
         ++ bytes (concat pieces).
Proof.
  intros Hwf Hn Hmax. unfold respond.
  change (fold_left (fun st p => put p st) pieces ?st) with (puts pieces st).
  rewrite length_app, length_head_pieces in Hmax.
  destruct (content_written status reason content_type no_cache pieces b Hwf) as (Hp & Hcl & Hh); [lia|].
  set (st := puts pieces _) in *. unfold commit. rewrite Hcl, Hh, (pd_count _ _ _ Hp).
  set (ps := head_pieces status reason content_type no_cache) in *.
  assert (0 <= Z.of_nat (length (concat pieces))) as Hn0 by lia. set (n := Z.of_nat (length (concat pieces))) in *.
  replace (Z.of_nat (length (_ ++ _ ++ bytes (concat pieces))) - _) with n
    by (rewrite !length_app, !length_bytes; change (length (crlf ++ crlf)) with 4%nat; lia).
  assert (forall w h, pending b (bytes w ++ bytes (crlf ++ crlf) ++ bytes (concat pieces)) h ->
    length w = length (concat (ps ++ length_pieces content_type)) ->
    wf (buffer_ (buf_commit h)) /\ Buffer.str (buffer_ (buf_commit h)) =
      Buffer.str b ++ bytes (w ++ crlf ++ crlf) ++ bytes (concat pieces)) as Hcommit.
  { intros w h Hw Hl. rewrite bytes_app, <- app_assoc. apply commit_pending; [done|].
    rewrite !length_app, !length_bytes, Hl. change (length (crlf ++ crlf)) with 4%nat. lia. }
  unfold head. fold ps. unfold length_pieces in *. destruct content_type as [ct|].
  - assert ((0 <? Z.of_nat (length (concat (ps ++ [length_label ++ place_holder])))) = true) as ->.
    { apply Z.ltb_lt. rewrite concat_app, length_app. cbn [concat length_label place_holder]. rewrite !length_app. cbn. lia. }
    destruct (length_patched ps (bytes (concat pieces)) n b (sbuf st) Hp (conj Hn0 Hn)) as (h & -> & Hp').
    eexists. split; [reflexivity|]. cbn [sbuf]. rewrite (app_assoc (concat ps)). apply Hcommit; [done|].
    destruct (place_holder_field n (conj Hn0 Hn)) as [_ Hf]. rewrite length_bytes in Hf.
    rewrite concat_app, !length_app, Hf. cbn [concat]. rewrite app_nil_r, length_app. cbn [length place_holder]. cbn. lia.
  - change (0 <? 0) with false. eexists. split; [reflexivity|]. rewrite app_nil_r in *. by apply Hcommit.
Qed.

Lemma response_content_length_witness :
  exists b', respond 200 (lit "OK") (Some (lit "text/plain")) true [lit "Hello"; lit ", World"] new_buffer = Some b' /\ wf b'
    /\ Buffer.str b' = Buffer.str new_buffer
         ++ bytes (head 200 (lit "OK") (Some (lit "text/plain")) true 12)
         ++ bytes (lit "Hello, World").
Proof.
  apply (response_content_length 200 (lit "OK") (Some (lit "text/plain")) true [lit "Hello"; lit ", World"] new_buffer);
    [split; cbn; unfold vector_size; cbn; lia | cbn; lia | vm_compute; reflexivity].
Defined.

(** The request line that the client writes is malformed: two spaces between the
    target and the version, where the protocol asks for one. *)
Theorem request_line_two_spaces (method url : str) (b : Buffer) :
  wf b ->
  Z.of_nat (length method) + Z.of_nat (length url) < 2 ^ 32 -> vector_size b < 2 ^ 32 ->
  pending b (bytes (method ++ lit " " ++ url ++ lit "  HTTP/1.1" ++ crlf ++ crlf))
    (sbuf (http_request method url [] (mkStream (mkHttpBuf b None 0) 0 0))).
Proof.
  intros Hwf Hl Hb.
  pose proof (puts_pending b [method; lit " "; url; lit " "; lit " HTTP/1.1" ++ crlf; crlf] []
    (mkStream (mkHttpBuf b None 0) 0 0) (pending_start b (mkHttpBuf b None 0) Hwf eq_refl)) as Hp.
  replace (method ++ lit " " ++ url ++ lit "  HTTP/1.1" ++ crlf ++ crlf)
    with (concat [method; lit " "; url; lit " "; lit " HTTP/1.1" ++ crlf; crlf])
    by (cbn [concat]; rewrite app_nil_r, <- !app_assoc; done).
  apply Hp. cbn [app]. rewrite length_bytes. cbn [concat]. rewrite !length_app. cbn [length lit list_ascii_of_string crlf]. lia.
Qed.

Lemma request_line_two_spaces_witness :
  pending new_buffer (bytes (lit "GET" ++ lit " " ++ lit "/x" ++ lit "  HTTP/1.1" ++ crlf ++ crlf))
    (sbuf (http_request (lit "GET") (lit "/x") [] (mkStream (mkHttpBuf new_buffer None 0) 0 0))).
Proof.
  apply (request_line_two_spaces (lit "GET") (lit "/x") new_buffer); [split; cbn; unfold vector_size; cbn; lia | | ];
    vm_compute; reflexivity.
Defined.
