(* ===== verification/HttpRequest.v ===== *)
(** * HTTP requests

    Models [toolbox/http/Request.hpp] and the callbacks of [toolbox/http/Parser.hpp]
    and [Conn.hpp] that put a request together.  The parser itself is a library
    ([contrib/http_parser.c]): its events, which cut names, values, targets and
    bodies anywhere, are inputs. *)
From Stdlib Require Import String.
From S2P Require Import Prelude Text.
#[local] Open Scope Z_scope.

(** ** Requests *)

Record HttpRequest := mkRequest { method_ : Z; url_ : str; headers_ : list (str * str); body_ : str }.

Definition Get : Z := 1.
Definition clear : HttpRequest := mkRequest Get [] [] [].
Definition set_method (m : Z) (r : HttpRequest) : HttpRequest := mkRequest m (url_ r) (headers_ r) (body_ r).
Definition append_url (sv : str) (r : HttpRequest) : HttpRequest :=
  mkRequest (method_ r) (url_ r ++ sv) (headers_ r) (body_ r).
Definition append_body (sv : str) (r : HttpRequest) : HttpRequest :=
  mkRequest (method_ r) (url_ r) (headers_ r) (body_ r ++ sv).

(** Changing the last header; there must be one. *)
Definition on_back (f : str * str -> str * str) (r : HttpRequest) : option HttpRequest :=
  match last (headers_ r) with
  | Some h => Some (mkRequest (method_ r) (url_ r) (removelast (headers_ r) ++ [f h]) (body_ r))
  | None => None
  end.

Definition append_header_field (sv : str) (first : bool) (r : HttpRequest) : option HttpRequest :=
  if first then Some (mkRequest (method_ r) (url_ r) (headers_ r ++ [(sv, [])]) (body_ r))
  else on_back (fun h => (h.1 ++ sv, h.2)) r.
Definition append_header_value (sv : str) (first : bool) (r : HttpRequest) : option HttpRequest :=
  on_back (fun h => (h.1, h.2 ++ sv)) r.

(** ** The callbacks *)

(** [last_header_elem_]. *)
Inductive elem := NoElem | Field | Value.
#[export] Instance elem_eqdec : EqDecision elem.
Proof. solve_decision. Defined.

Inductive event :=
| MessageBegin
| Url (sv : str)
| HeaderField (sv : str)
| HeaderValue (sv : str)
| HeadersEnd (method : Z)
| Body (sv : str)
| MessageEnd
| ChunkHeader
| ChunkEnd.

(** A request that is put together; nothing resets the last element between requests. *)
Record assembly := mkAssembly { last_header_elem_ : elem; req_ : HttpRequest; in_progress_ : bool }.

Definition with_req (a : assembly) (r : HttpRequest) : assembly :=
  mkAssembly (last_header_elem_ a) r (in_progress_ a).

(** The callbacks but for the end of the message; a value before any name has no
    header to go to. *)
Definition callback (e : event) (a : assembly) : option assembly :=
  match e with
  | MessageBegin => Some (mkAssembly (last_header_elem_ a) clear true)
  | Url sv => Some (with_req a (append_url sv (req_ a)))
  | HeaderField sv =>
      r ← append_header_field sv (bool_decide (last_header_elem_ a <> Field)) (req_ a);
      Some (mkAssembly Field r (in_progress_ a))
  | HeaderValue sv =>
      r ← append_header_value sv (bool_decide (last_header_elem_ a <> Value)) (req_ a);
      Some (mkAssembly Value r (in_progress_ a))
  | HeadersEnd m => Some (with_req a (set_method m (req_ a)))
  | Body sv => Some (with_req a (append_body sv (req_ a)))
  | MessageEnd => Some (mkAssembly (last_header_elem_ a) (req_ a) false)
  | ChunkHeader | ChunkEnd => Some a
  end.

(** The events in order, and the requests at the ends of messages. *)
Fixpoint assemble (es : list event) (a : assembly) : option (assembly * list HttpRequest) :=
  match es with
  | [] => Some (a, [])
  | e :: es =>
      a ← callback e a;
      '(a', reqs) ← assemble es a;
      Some (a', match e with MessageEnd => req_ a :: reqs | _ => reqs end)
  end.

(** ** What the parser reports for a request *)

(** A request, cut into pieces. *)
Record cut_request := mkCut {
  q_method : Z;
  q_url : list str;
  q_headers : list (list str * list str);
  q_body : list (option str) (* a piece of the body, or the bounds of a chunk *)
}.

Definition header_events (h : list str * list str) : list event := map HeaderField h.1 ++ map HeaderValue h.2.
Definition body_events (p : option str) : list event :=
  match p with Some sv => [Body sv] | None => [ChunkEnd; ChunkHeader] end.

Definition events_of (q : cut_request) : list event :=
  MessageBegin :: map Url (q_url q) ++ concat (map header_events (q_headers q)) ++ HeadersEnd (q_method q)
  :: concat (map body_events (q_body q)) ++ [MessageEnd].

(** The parser reports at least one piece of every name and of every value. *)
Definition reported (q : cut_request) : Prop := Forall (fun h => h.1 <> [] /\ h.2 <> []) (q_headers q).

Definition request_of (q : cut_request) : HttpRequest :=
  mkRequest (q_method q) (concat (q_url q)) (map (fun h => (concat h.1, concat h.2)) (q_headers q))
    (concat (map (default []) (q_body q))).

(** ** Lemmas *)

Lemma assemble_app es es' a : assemble (es ++ es') a =
  ('(a1, r1) ← assemble es a; '(a2, r2) ← assemble es' a1; Some (a2, r1 ++ r2)).
Proof.
  revert a. induction es as [|e es IH]; intros a; cbn [app assemble].
  - cbn. by destruct (assemble es' a) as [[]|].
  - destruct (callback e a) as [a'|]; [|done]. cbn [mbind option_bind]. rewrite IH.
    destruct (assemble es a') as [[a1 r1]|]; [|done]. cbn [mbind option_bind].
    destruct (assemble es' a1) as [[a2 r2]|]; [|done]. cbn. by destruct e.
Qed.

Lemma bind_pair {A B} (x : option (A * B)) : (x ≫= fun '(a, b) => Some (a, b)) = x.
Proof. by destruct x as [[]|]. Qed.

Lemma assemble_urls us a rest : assemble (map Url us ++ rest) a =
  assemble rest (with_req a (append_url (concat us) (req_ a))).
Proof.
  revert a. induction us as [|u us IH]; intros a; cbn [map app concat].
  - destruct a as [l [] p]. unfold append_url, with_req. cbn. by rewrite app_nil_r.
  - cbn [assemble callback mbind option_bind]. rewrite IH.
    destruct a as [l [] p]. unfold append_url, with_req. cbn. rewrite app_assoc.
    apply bind_pair.
Qed.

(** The pieces of a name after the first one, and those of a value. *)
Lemma assemble_names ns m u hs n v b p rest :
  assemble (map HeaderField ns ++ rest) (mkAssembly Field (mkRequest m u (hs ++ [(n, v)]) b) p) =
  assemble rest (mkAssembly Field (mkRequest m u (hs ++ [(n ++ concat ns, v)]) b) p).
Proof.
  revert n. induction ns as [|x ns IH]; intros n; cbn [map app concat]; [by rewrite app_nil_r|].
  cbn [assemble callback]. unfold append_header_field, on_back. cbn [headers_ last_header_elem_ req_].
  rewrite bool_decide_eq_false_2 by (by intros []). rewrite last_snoc, removelast_last. cbn [mbind option_bind fst snd method_ url_ body_ in_progress_].
  rewrite IH, app_assoc. apply bind_pair.
Qed.

Lemma assemble_values vs e m u hs n v b p rest : vs <> [] ->
  assemble (map HeaderValue vs ++ rest) (mkAssembly e (mkRequest m u (hs ++ [(n, v)]) b) p) =
  assemble rest (mkAssembly Value (mkRequest m u (hs ++ [(n, v ++ concat vs)]) b) p).
Proof.
  revert e v. induction vs as [|x vs IH]; intros e v Hne; [done|]. cbn [map app concat assemble callback].
  unfold append_header_value, on_back. cbn [headers_ req_]. rewrite last_snoc, removelast_last.
  cbn [mbind option_bind fst snd method_ url_ body_ in_progress_].
  destruct vs as [|y vs].
  - cbn [map app concat]. rewrite app_nil_r. apply bind_pair.
  - rewrite IH by done. rewrite app_assoc. apply bind_pair.
Qed.

Lemma assemble_headers hds e m u hs b p rest : e <> Field -> Forall (fun h => h.1 <> [] /\ h.2 <> []) hds ->
  exists e', e' <> Field /\
  assemble (concat (map header_events hds) ++ rest) (mkAssembly e (mkRequest m u hs b) p) =
  assemble rest (mkAssembly e' (mkRequest m u (hs ++ map (fun h => (concat h.1, concat h.2)) hds) b) p).
Proof.
  intros He Hh. revert e hs He. induction Hh as [|[ns vs] hds [Hn Hv] Hh IH]; intros e hs He; cbn [map concat app].
  - exists e. by rewrite app_nil_r.
  - destruct (IH Value (hs ++ [(concat ns, concat vs)]) ltac:(done)) as (e' & He' & Ha). exists e'. split; [done|].
    cbn [fst snd] in *. destruct ns as [|x ns]; [done|]. unfold header_events at 1. cbn [fst snd map].
    rewrite <- !app_assoc. cbn [app assemble callback]. unfold append_header_field. cbn [last_header_elem_ req_].
    rewrite bool_decide_eq_true_2 by done. cbn [mbind option_bind method_ url_ headers_ body_ in_progress_].
    rewrite assemble_names, assemble_values by done. cbn [app concat] in Ha |- *. rewrite Ha, <- app_assoc. cbn [app].
    apply bind_pair.
Qed.

Lemma assemble_body ps e m u hs b p rest :
  assemble (concat (map body_events ps) ++ rest) (mkAssembly e (mkRequest m u hs b) p) =
  assemble rest (mkAssembly e (mkRequest m u hs (b ++ concat (map (default []) ps))) p).
Proof.
  revert b. induction ps as [|q ps IH]; intros b; cbn [map concat app]; [by rewrite app_nil_r|].
  destruct q as [sv|]; cbn [body_events app default from_option id assemble callback mbind option_bind];
    unfold with_req, append_body; cbn [last_header_elem_ req_ method_ url_ headers_ body_ in_progress_].
  - rewrite IH, <- app_assoc. apply bind_pair.
  - rewrite IH. by rewrite !bind_pair.
Qed.

Lemma assemble_request q a : reported q -> last_header_elem_ a <> Field ->
  exists a', last_header_elem_ a' <> Field /\ assemble (events_of q) a = Some (a', [request_of q]).
Proof.
  intros Hq Ha. unfold events_of. cbn [assemble callback mbind option_bind]. rewrite assemble_urls.
  unfold with_req, append_url, clear. cbn [last_header_elem_ req_ method_ url_ headers_ body_ in_progress_ app].
  destruct (assemble_headers (q_headers q) (last_header_elem_ a) Get (concat (q_url q)) [] [] true
    (HeadersEnd (q_method q) :: concat (map body_events (q_body q)) ++ [MessageEnd]) Ha Hq) as (e' & He' & ->).
  cbn [assemble callback mbind option_bind app]. unfold with_req, set_method.
  cbn [last_header_elem_ req_ method_ url_ headers_ body_ in_progress_]. rewrite assemble_body.
  eexists. split; [|reflexivity]. exact He'.
Qed.

(** C31: Requests are put together whatever the parser's cuts: for any sequence of
    requests on a connection, each reported in any number of pieces (of the target,
    of every name and value, of the body and its chunks), exactly the requests are
    delivered, in order, each with the target, headers and body joined from its
    pieces and nothing of the request before it. *)
Theorem requests_reassembled (qs : list cut_request) :
  Forall reported qs ->
  exists a, assemble (concat (map events_of qs)) (mkAssembly NoElem clear false) = Some (a, map request_of qs).
Proof.
  intros Hq. assert (last_header_elem_ (mkAssembly NoElem clear false) <> Field) as Ha by done. revert Ha.
  generalize (mkAssembly NoElem clear false). induction Hq as [|q qs Hq Hqs IH]; intros a Ha; cbn [map concat].
  - by exists a.
  - rewrite assemble_app. destruct (assemble_request q a Hq Ha) as (a1 & Ha1 & ->). cbn [mbind option_bind].
    destruct (IH a1 Ha1) as (a2 & ->). by exists a2.
Qed.

Lemma requests_reassembled_witness :
  exists a, assemble (concat (map events_of
      [mkCut 1 [lit "/in"; lit "dex"] [([lit "Ho"; lit "st"], [lit "x"])] [];
       mkCut 3 [lit "/"] [([lit "A"], [lit ""]); ([lit "B"], [lit "1"; lit "2"])] [Some (lit "x"); None; Some (lit "y")]]))
      (mkAssembly NoElem clear false)
    = Some (a, map request_of
      [mkCut 1 [lit "/in"; lit "dex"] [([lit "Ho"; lit "st"], [lit "x"])] [];
       mkCut 3 [lit "/"] [([lit "A"], [lit ""]); ([lit "B"], [lit "1"; lit "2"])] [Some (lit "x"); None; Some (lit "y")]]).
Proof. apply requests_reassembled. rewrite !Forall_cons. unfold reported. cbn. by rewrite !Forall_cons. Defined.
