(* ===== verification/Endpoint.v ===== *)
(** * URLs and endpoints

    Models [toolbox/net/ParsedUrl.hpp], [parse_endpoint] and the printed form of
    endpoints of [toolbox/net/Endpoint.cpp], [get_unix_addrinfo] of
    [toolbox/net/Sock.cpp], and the filters of [toolbox/net/EndpointFilter.hpp].
    Names are resolved by the system ([getaddrinfo]): the model ends at its
    arguments. *)
From Stdlib Require Import String.
From S2P Require Import Prelude Text.
#[local] Open Scope Z_scope.

(** ** Searching *)

Definition prefixed (sep s : str) : bool := bool_decide (take (length sep) s = sep).

(** [string_view::find] and [string_view::rfind]. *)
Fixpoint find (sep s : str) : option nat :=
  if prefixed sep s then Some 0%nat else match s with [] => None | _ :: s => S <$> find sep s end.
Definition find_at (sep s : str) (pos : nat) : option nat :=
  if (pos <=? length s)%nat then Nat.add pos <$> find sep (drop pos s) else None.
Fixpoint rfind (sep s : str) : option nat :=
  match match s with [] => None | _ :: s => S <$> rfind sep s end with
  | Some i => Some i
  | None => if prefixed sep s then Some 0%nat else None
  end.
Definition substr (s : str) (pos n : nat) : str := take n (drop pos s).

(** ** [ParsedUrl] *)

Record ParsedUrl := mkUrl {
  data_ : str;
  url_ : str;
  proto_ : str;
  host_ : str;
  service_ : str;
  query_ : str;
  params_ : gmap str str
}.

Definition no_url : ParsedUrl := mkUrl [] [] [] [] [] [] ∅.

(** The first value of a key stays ([emplace]). *)
Definition emplace (m : gmap str str) (k v : str) : gmap str str :=
  match m !! k with Some _ => m | None => <[k := v]> m end.

(** The loop over the parameters: an error when there is no [=] ([inl]); without a
    result it would not end. *)
Fixpoint params_loop (fuel : nat) (sep s : str) (p : nat) (m : gmap str str) : option (() + gmap str str) :=
  match fuel with
  | O => None
  | S fuel =>
      if (p <? length s)%nat then
        match find_at (lit "=") s p with
        | None => Some (inl ())
        | Some e =>
            let key := substr s (p + 1) (e - p - 1) in
            let p := default (length s) (find_at sep s e) in
            params_loop fuel sep s p (emplace m key (substr s (e + 1) (p - e - 1)))
        end
      else Some (inr m)
  end.

(** What is left of the text, and the part before a separator. *)
Definition parse_proto (sep u : str) : str * str :=
  match sep with
  | [] => ([], u)
  | _ => match find sep u with None => ([], u) | Some p => (take p u, drop p u) end
  end.
Definition parse_query (sep u : str) : str * str :=
  match sep with
  | [] => ([], u)
  | _ => match find sep u with None => ([], u) | Some p => (drop p u, take p u) end
  end.
Definition parse_service (sep u : str) : str * str :=
  match sep with
  | [] => ([], u)
  | _ => match rfind sep u with None => ([], u) | Some p => (drop (p + 1) u, take p u) end
  end.

Definition parse_parts (proto_sep query_sep service_sep s url : str) (m : gmap str str) : ParsedUrl :=
  let '(proto, u) := parse_proto proto_sep url in
  let '(query, u) := parse_query query_sep u in
  let '(service, host) := parse_service service_sep u in
  mkUrl s url proto host service query m.

(** [parse]; the parameters are added to those of the object. *)
Definition parse (s params_sep proto_sep query_sep service_sep : str) (self : ParsedUrl) : option (() + ParsedUrl) :=
  match params_sep with
  | [] => Some (inr (parse_parts proto_sep query_sep service_sep s s (params_ self)))
  | _ =>
      let p := default (length s) (find params_sep s) in
      r ← params_loop (S (length s)) params_sep s p (params_ self);
      Some (match r with
            | inl e => inl e
            | inr m => inr (parse_parts proto_sep query_sep service_sep s (take p s) m)
            end)
  end.

(** The constructor, with the separators that it has unless told otherwise. *)
Definition parsed_url (s : str) : option (() + ParsedUrl) :=
  parse s (lit "|") (lit "://") (lit "?") (lit ":") no_url.

Example parsed_url_test :
  parsed_url (lit "192.168.1.3:443?x=1|interface=eth0|k=v=w")
  = Some (inr (mkUrl (lit "192.168.1.3:443?x=1|interface=eth0|k=v=w") (lit "192.168.1.3:443?x=1") []
      (lit "192.168.1.3") (lit "443") (lit "?x=1")
      (<[lit "k" := lit "v=w"]> (<[lit "interface" := lit "eth0"]> ∅)))).
Proof. vm_compute. reflexivity. Qed.

(** ** Endpoints *)

Definition AF_UNSPEC : Z := 0.
Definition AF_UNIX : Z := 1.
Definition AF_INET : Z := 2.
Definition AF_INET6 : Z := 10.
Definition SOCK_STREAM : Z := 1.
Definition SOCK_DGRAM : Z := 2.
Definition IPPROTO_TCP : Z := 6.
Definition IPPROTO_UDP : Z := 17.

(** [sun_path] has 108 bytes; an address is its path, its type and its length. *)
Definition unix_path_size : nat := 108.

(** What [parse_endpoint] does: an exception, a local address, or a question to the
    resolver; a part that is empty is not passed. *)
Inductive endpoint_result :=
| Invalid
| UnixAddr (path : str) (type addrlen : Z)
| Resolve (node service : option str) (family type protocol : Z).

Definition get_unix_addrinfo (path : str) (type : Z) : endpoint_result :=
  let '(sun_path, path_len) := pstrcpy (chr 0) path unix_path_size in
  if (path_len =? unix_path_size)%nat then Invalid
  else UnixAddr (take path_len sun_path) type (2 + Z.of_nat path_len + 1).

Definition nonempty (s : str) : option str := match s with [] => None | _ => Some s end.

(** The family and the protocol for a scheme. *)
Definition scheme_protocol (scheme : str) (type family : Z) : Z * Z :=
  if bool_decide (scheme = lit "ip4") then (AF_INET, 0)
  else if bool_decide (scheme = lit "ip6") then (AF_INET6, 0)
  else if bool_decide (scheme = lit "tcp4") then if type =? SOCK_STREAM then (AF_INET, IPPROTO_TCP) else (family, 0)
  else if bool_decide (scheme = lit "tcp6") then if type =? SOCK_STREAM then (AF_INET6, IPPROTO_TCP) else (family, 0)
  else if bool_decide (scheme = lit "udp4") then if type =? SOCK_DGRAM then (AF_INET, IPPROTO_UDP) else (family, 0)
  else if bool_decide (scheme = lit "udp6") then if type =? SOCK_DGRAM then (AF_INET6, IPPROTO_UDP) else (family, 0)
  else if bool_decide (scheme = []) && ((family =? AF_INET) || (family =? AF_INET6)) then
    (family, if type =? SOCK_STREAM then IPPROTO_TCP else if type =? SOCK_DGRAM then IPPROTO_UDP else 0)
  else (family, 0).

Definition parse_endpoint (uri : str) (type default_family : Z) : option endpoint_result :=
  r ← parsed_url uri;
  Some (match r with
        | inl _ => Invalid
        | inr u =>
            if bool_decide (proto_ u = lit "unix") then get_unix_addrinfo (host_ u) type
            else
              let '(family, protocol) := scheme_protocol (proto_ u) type default_family in
              if family <? 0 then Invalid
              else Resolve (nonempty (host_ u)) (nonempty (service_ u)) family type protocol
        end).

(** [parse_stream_endpoint] and [parse_dgram_endpoint] leave the type out. *)
Definition parse_stream_endpoint (uri : str) : option endpoint_result := parse_endpoint uri 0 AF_UNSPEC.

(** The printed form of an endpoint, given the text of its address; the transport is
    the protocol of stream, or of datagram endpoints. *)
Definition print_scheme (transport : Z) (name4 name6 : string) (family protocol : Z) : str :=
  if family =? AF_INET then lit (if protocol =? transport then name4 else "ip4://")
  else if family =? AF_INET6 then lit (if protocol =? transport then name6 else "ip6://")
  else if family =? AF_UNIX then lit "unix://" else [].
Definition print_dgram (family protocol : Z) (address : str) : str :=
  print_scheme IPPROTO_UDP "udp4://" "udp6://" family protocol ++ address.
Definition print_stream (family protocol : Z) (address : str) : str :=
  print_scheme IPPROTO_TCP "tcp4://" "tcp6://" family protocol ++ address.

(** ** Filters *)

Section filter.
Variable Addr : Type.
Context `{EqDecision Addr}.

Record EndpointFilter := mkFilter { f_address : option Addr; f_port : option Z }.

Definition filter_match (f : EndpointFilter) (ep : Addr * Z) : bool :=
  match f_port f with Some p => ep.2 =? p | None => true end
  && match f_address f with Some a => bool_decide (ep.1 = a) | None => true end.

Record EndpointsFilter := mkFilters { tcp : bool; udp : bool; sources : list EndpointFilter; destinations : list EndpointFilter }.

Definition match_any (fs : list EndpointFilter) (ep : Addr * Z) : bool := existsb (fun f => filter_match f ep) fs.
Definition filters_match (f : EndpointsFilter) (protocol : Z) (src dst : Addr * Z) : bool :=
  if negb (udp f) && (protocol =? IPPROTO_UDP) then false
  else if negb (tcp f) && (protocol =? IPPROTO_TCP) then false
  else if negb (match sources f with [] => true | _ => false end) && negb (match_any (sources f) src) then false
  else if negb (match destinations f with [] => true | _ => false end) && negb (match_any (destinations f) dst) then false
  else true.
End filter.

(** ** Searching *)

Lemma prefixed_app sep s : prefixed sep (sep ++ s) = true.
Proof. unfold prefixed. rewrite take_app_length. by apply bool_decide_eq_true_2. Qed.

Lemma prefixed_head c sep d s : prefixed (c :: sep) (d :: s) = true -> d = c.
Proof. unfold prefixed. cbn. intros H. by apply bool_decide_eq_true_1 in H as [= -> _]. Qed.

(** The first and the last occurrence. *)
Lemma find_app c sep a b : c ∉ a -> find (c :: sep) (a ++ (c :: sep) ++ b) = Some (length a).
Proof.
  induction a as [|d a IH]; intros Hc; cbn [app].
  - pose proof (prefixed_app (c :: sep) b) as E. cbn [app] in E |- *. cbn [find]. by rewrite E.
  - apply not_elem_of_cons in Hc as [Hd Hc]. cbn [find].
    destruct (prefixed _ _) eqn:E; [by apply prefixed_head in E|]. cbn [app] in IH. by rewrite IH.
Qed.

Lemma find_char c a b : c ∉ a -> find [c] (a ++ c :: b) = Some (length a).
Proof. apply (find_app c []). Qed.

Lemma find_absent c sep a : c ∉ a -> find (c :: sep) a = None.
Proof.
  induction a as [|d a IH]; intros Hc; cbn [find]; [done|]. apply not_elem_of_cons in Hc as [Hd Hc].
  destruct (prefixed _ _) eqn:E; [by apply prefixed_head in E|]. by rewrite IH.
Qed.

Lemma rfind_absent c sep a : c ∉ a -> rfind (c :: sep) a = None.
Proof.
  induction a as [|d a IH]; intros Hc; cbn [rfind]; [done|]. apply not_elem_of_cons in Hc as [Hd Hc].
  rewrite IH by done. cbn. destruct (prefixed _ _) eqn:E; [by apply prefixed_head in E | done].
Qed.

Lemma rfind_app c a b : c ∉ b -> rfind [c] (a ++ c :: b) = Some (length a).
Proof.
  intros Hc. induction a as [|d a IH]; cbn [app rfind].
  - rewrite rfind_absent by done. cbn [fmap option_fmap option_map]. pose proof (prefixed_app [c] b) as E.
    cbn [app] in E. by rewrite E.
  - by rewrite IH.
Qed.

Lemma find_at_drop sep a b pos : pos = length a -> find_at sep (a ++ b) pos = Nat.add (length a) <$> find sep b.
Proof.
  intros ->. unfold find_at. rewrite drop_app_length. destruct (Nat.leb_spec (length a) (length (a ++ b))); [done|].
  rewrite length_app in *. lia.
Qed.

(** ** URLs without a scheme *)

Definition param_text (kv : str * str) : str := "|"%char :: kv.1 ++ "="%char :: kv.2.
Definition params_text (kvs : list (str * str)) : str := concat (map param_text kvs).
Definition param_ok (kv : str * str) : Prop :=
  ("|"%char ∉ kv.1) /\ ("="%char ∉ kv.1) /\ ("|"%char ∉ kv.2).

(** A round of the loop: the text is split at [=] and at the next parameter. *)
Lemma params_round pre k v rest m fuel : param_ok (k, v) -> rest = [] \/ head rest = Some "|"%char ->
  params_loop (S fuel) (lit "|") ((pre ++ param_text (k, v)) ++ rest) (length pre) m
  = params_loop fuel (lit "|") ((pre ++ param_text (k, v)) ++ rest) (length (pre ++ param_text (k, v))) (emplace m k v).
Proof.
  intros (Hkb & Hke & Hvb) Hrest. cbn [fst snd] in *.
  assert ((pre ++ param_text (k, v)) ++ rest = pre ++ ("|"%char :: k) ++ lit "=" ++ v ++ rest) as Es.
  { unfold param_text. cbn. by rewrite <- !app_assoc; cbn; rewrite <- app_assoc. }
  set (e := length (pre ++ "|"%char :: k)).
  assert (length (pre ++ param_text (k, v)) = e + 1 + length v)%nat as Hlen.
  { unfold e, param_text. rewrite !length_app. cbn. rewrite length_app. cbn. lia. }
  cbn [params_loop]. destruct (Nat.ltb_spec (length pre) (length ((pre ++ param_text (k, v)) ++ rest))) as [_ | Hl];
    [|rewrite !length_app in Hl; cbn in Hl; lia].
  assert (find_at (lit "=") ((pre ++ param_text (k, v)) ++ rest) (length pre) = Some e) as ->.
  { rewrite Es, find_at_drop by done. rewrite (find_app "="%char []) by (by apply not_elem_of_cons).
    unfold e. by rewrite length_app. }
  assert (default (length ((pre ++ param_text (k, v)) ++ rest)) (find_at (lit "|") ((pre ++ param_text (k, v)) ++ rest) e)
    = e + 1 + length v)%nat as ->.
  { rewrite Es, app_assoc, find_at_drop by done. fold e. assert ("|"%char ∉ lit "=" ++ v) as Hn by (by apply not_elem_of_cons).
    rewrite (app_assoc (lit "=") v rest). destruct rest as [|c rest]; [|destruct Hrest as [|[= ->]]; [done|]].
    - rewrite app_nil_r, (find_absent "|"%char []) by done. cbn [default fmap option_fmap option_map from_option].
      unfold e. rewrite !length_app. cbn. lia.
    - rewrite (find_char "|"%char) by done. cbn. lia. }
  rewrite Hlen. f_equal. f_equal; unfold substr; rewrite Es.
  - replace (pre ++ ("|"%char :: k) ++ lit "=" ++ v ++ rest) with ((pre ++ lit "|") ++ k ++ lit "=" ++ v ++ rest)
      by (cbn; by rewrite <- app_assoc).
    rewrite drop_app_length' by (rewrite length_app; done). apply take_app_length'. unfold e. rewrite length_app. cbn. lia.
  - replace (pre ++ ("|"%char :: k) ++ lit "=" ++ v ++ rest) with ((pre ++ ("|"%char :: k) ++ lit "=") ++ v ++ rest)
      by (by rewrite <- !app_assoc).
    rewrite drop_app_length' by (unfold e; rewrite !length_app; cbn; lia). apply take_app_length'. lia.
Qed.

Lemma params_loop_text kvs pre m fuel : Forall param_ok kvs -> (length kvs < fuel)%nat ->
  params_loop fuel (lit "|") (pre ++ params_text kvs) (length pre) m
  = Some (inr (foldl (fun m kv => emplace m kv.1 kv.2) m kvs)).
Proof.
  intros Hk. revert pre m fuel. induction Hk as [|[k v] kvs Hkv Hk IH]; intros pre m fuel Hf;
    (destruct fuel as [|fuel]; [cbn in Hf; lia|]).
  - unfold params_text. cbn [map concat params_loop]. by rewrite app_nil_r, Nat.ltb_irrefl.
  - unfold params_text. cbn [map concat]. fold (params_text kvs). rewrite app_assoc, params_round; [|done|].
    + cbn [foldl fst snd]. apply IH. cbn in Hf. lia.
    + destruct kvs; [by left | by right].
Qed.

(** The first value of a key. *)
Definition first_value (kvs : list (str * str)) (k : str) : option str :=
  snd ∘ snd <$> list_find (fun kv => kv.1 = k) kvs.

Lemma emplace_all kvs m k :
  foldl (fun m kv => emplace m kv.1 kv.2) m kvs !! k = match m !! k with Some v => Some v | None => first_value kvs k end.
Proof.
  revert m. induction kvs as [|[k' v] kvs IH]; intros m; cbn [foldl fst snd]; [by destruct (m !! k)|].
  rewrite IH. unfold emplace, first_value. cbn [list_find fst]. destruct (decide (k' = k)) as [-> | Hne].
  - destruct (m !! k) eqn:E; [by rewrite E|]. by rewrite lookup_insert_eq.
  - assert ((if decide (k' = k) then Some (0%nat, (k', v)) else prod_map S id <$> list_find (fun kv => kv.1 = k) kvs)
      = prod_map S id <$> list_find (fun kv => kv.1 = k) kvs) as Ed by (by rewrite decide_False).
    destruct (m !! k') eqn:E; [|rewrite lookup_insert_ne by done]; destruct (m !! k); try done;
      by destruct (list_find _ kvs) as [[]|].
Qed.

Lemma parse_proto_eq u : parse_proto (lit "://") u
  = match find (lit "://") u with None => ([], u) | Some p => (take p u, drop p u) end.
Proof. reflexivity. Qed.
Lemma parse_query_eq u : parse_query (lit "?") u
  = match find (lit "?") u with None => ([], u) | Some p => (drop p u, take p u) end.
Proof. reflexivity. Qed.
Lemma parse_service_eq u : parse_service (lit ":") u
  = match rfind [":"%char] u with None => ([], u) | Some p => (drop (p + 1) u, take p u) end.
Proof. reflexivity. Qed.

(** The parameters are split off first. *)
Lemma parsed_url_params url kvs : ("|"%char ∉ url) -> Forall param_ok kvs ->
  parsed_url (url ++ params_text kvs)
  = Some (inr (parse_parts (lit "://") (lit "?") (lit ":") (url ++ params_text kvs) url
      (foldl (fun m kv => emplace m kv.1 kv.2) ∅ kvs))).
Proof.
  intros Hbar Hk.
  assert (default (length (url ++ params_text kvs)) (find (lit "|") (url ++ params_text kvs)) = length url) as Hp.
  { unfold params_text. destruct kvs as [|kv kvs]; cbn [map concat].
    - by rewrite app_nil_r, (find_absent "|"%char []).
    - unfold param_text at 1 3. cbn [app]. by rewrite (find_char "|"%char). }
  change (parsed_url (url ++ params_text kvs)) with
    (r ← params_loop (S (length (url ++ params_text kvs))) (lit "|") (url ++ params_text kvs)
       (default (length (url ++ params_text kvs)) (find (lit "|") (url ++ params_text kvs))) ∅;
     Some (match r with
       | inl e => inl e
       | inr m => inr (parse_parts (lit "://") (lit "?") (lit ":") (url ++ params_text kvs)
           (take (default (length (url ++ params_text kvs)) (find (lit "|") (url ++ params_text kvs))) (url ++ params_text kvs)) m)
       end)).
  rewrite Hp, params_loop_text, take_app_length; [done | done|].
  assert (length kvs <= length (params_text kvs))%nat; [|rewrite length_app; lia].
  unfold params_text. clear. induction kvs as [|kv kvs IH]; cbn [map concat length]; [lia|].
  rewrite length_app. unfold param_text at 1. cbn. lia.
Qed.

(** A URL without a scheme is taken apart as its parts were put together: a host
    that may hold colons, a service, a query from its question mark, and any number
    of parameters, of which the first value of a key counts. *)
Theorem url_components (host service query : str) (kvs : list (str * str)) :
  let url := host ++ ":"%char :: service ++ query in
  query = [] \/ head query = Some "?"%char ->
  ("?"%char ∉ host) -> ("?"%char ∉ service) -> (":"%char ∉ service) ->
  ("|"%char ∉ url) -> find (lit "://") url = None -> Forall param_ok kvs ->
  exists u, parsed_url (url ++ params_text kvs) = Some (inr u)
  /\ url_ u = url /\ proto_ u = [] /\ host_ u = host /\ service_ u = service /\ query_ u = query
  /\ forall k, params_ u !! k = first_value kvs k.
Proof.
  intros url Hq Hqh Hqs Hcs Hbar Hproto Hk.
  rewrite (parsed_url_params url kvs Hbar Hk). eexists. split; [done|]. unfold parse_parts.
  rewrite parse_proto_eq, Hproto, parse_query_eq. unfold url.
  assert (match find (lit "?") (host ++ ":"%char :: service ++ query) with
    | None => ([], host ++ ":"%char :: service ++ query)
    | Some p => (drop p (host ++ ":"%char :: service ++ query), take p (host ++ ":"%char :: service ++ query))
    end = (query, host ++ ":"%char :: service)) as ->.
  { assert ("?"%char ∉ host ++ ":"%char :: service) as Hn by (rewrite elem_of_app, elem_of_cons; by intros [? | [? | ?]]).
    replace (host ++ ":"%char :: service ++ query) with ((host ++ ":"%char :: service) ++ query) by (by rewrite <- app_assoc).
    destruct query as [|c query]; [|destruct Hq as [|[= ->]]; [done|]].
    - by rewrite app_nil_r, (find_absent "?"%char []).
    - rewrite (find_char "?"%char) by done. by rewrite drop_app_length, take_app_length. }
  rewrite parse_service_eq, rfind_app by done. cbv iota beta.
  assert (drop (length host + 1) (host ++ ":"%char :: service) = service) as ->.
  { replace (host ++ ":"%char :: service) with ((host ++ lit ":") ++ service) by (by rewrite <- app_assoc).
    apply drop_app_length'. by rewrite length_app. }
  rewrite take_app_length. cbn [url_ proto_ host_ service_ query_ params_].
  do 5 (split; [done|]). intros k. by rewrite emplace_all, lookup_empty.
Qed.

Lemma url_components_witness :
  let url := lit "::1" ++ ":"%char :: lit "443" ++ lit "?q:x" in
  let kvs := [(lit "if", lit "eth0"); (lit "k", lit "v=w"); (lit "if", lit "lo")] in
  exists u, parsed_url (url ++ params_text kvs) = Some (inr u)
  /\ url_ u = url /\ proto_ u = [] /\ host_ u = lit "::1" /\ service_ u = lit "443" /\ query_ u = lit "?q:x"
  /\ forall k, params_ u !! k = first_value kvs k.
Proof.
  apply (url_components (lit "::1") (lit "443") (lit "?q:x") [(lit "if", lit "eth0"); (lit "k", lit "v=w"); (lit "if", lit "lo")]).
  1: by right.
  1-4: by apply (bool_decide_unpack _); vm_compute.
  1: by vm_compute.
  rewrite !Forall_cons. unfold param_ok. cbn [fst snd].
  repeat split; by apply (bool_decide_unpack _); vm_compute.
Defined.

(** ** URLs with a scheme *)

Lemma parsed_url_scheme scheme host service :
  (":"%char ∉ scheme) -> ("|"%char ∉ scheme ++ lit "://" ++ host ++ ":"%char :: service) ->
  ("?"%char ∉ host ++ ":"%char :: service) -> (":"%char ∉ service) ->
  let uri := scheme ++ lit "://" ++ host ++ ":"%char :: service in
  parsed_url uri = Some (inr (mkUrl uri uri scheme (lit "://" ++ host) service [] ∅)).
Proof.
  intros Hs Hbar Hq Hcs uri. pose proof (parsed_url_params uri [] Hbar ltac:(constructor)) as E.
  unfold params_text in E. cbn [map concat foldl] in E. rewrite app_nil_r in E. rewrite E. unfold parse_parts.
  rewrite parse_proto_eq.
  assert (find (lit "://") uri = Some (length scheme)) as -> by (by apply (find_app ":"%char (lit "//"))).
  assert (drop (length scheme) uri = lit "://" ++ host ++ ":"%char :: service) as -> by apply drop_app_length.
  assert (take (length scheme) uri = scheme) as -> by apply take_app_length.
  rewrite parse_query_eq, (find_absent "?"%char []) by (by apply not_elem_of_cons; split; [|apply not_elem_of_cons; split; [|apply not_elem_of_cons; split]]).
  rewrite parse_service_eq, app_assoc, rfind_app by done. cbv iota beta. rewrite take_app_length.
  assert (drop (length (lit "://" ++ host) + 1) ((lit "://" ++ host) ++ ":"%char :: service) = service) as ->; [|done].
  replace ((lit "://" ++ host) ++ ":"%char :: service) with (((lit "://" ++ host) ++ lit ":") ++ service)
    by (by rewrite <- app_assoc).
  apply drop_app_length'. by rewrite (length_app _ (lit ":")).
Qed.

Lemma parse_endpoint_scheme scheme host service type family :
  (":"%char ∉ scheme) -> ("|"%char ∉ scheme ++ lit "://" ++ host ++ ":"%char :: service) ->
  ("?"%char ∉ host ++ ":"%char :: service) -> (":"%char ∉ service) -> 0 <= family -> scheme <> lit "unix" ->
  parse_endpoint (scheme ++ lit "://" ++ host ++ ":"%char :: service) type family
  = Some (Resolve (Some (lit "://" ++ host)) (nonempty service)
      (scheme_protocol scheme type family).1 type (scheme_protocol scheme type family).2).
Proof.
  intros Hs Hbar Hq Hcs Hf Hu. unfold parse_endpoint. rewrite parsed_url_scheme by done.
  cbn [mbind option_bind proto_ host_ service_]. rewrite bool_decide_eq_false_2 by done.
  assert (0 <= (scheme_protocol scheme type family).1) as Hf'.
  { unfold scheme_protocol. unfold AF_INET, AF_INET6, AF_UNSPEC in *. repeat case_match; cbn; lia. }
  destruct (scheme_protocol scheme type family) as [f p]. cbn [fst snd] in *.
  destruct (Z.ltb_spec f 0); [lia | done].
Qed.

(** The separator of a scheme stays in front of the host: for every scheme but that
    of local addresses, every host and service, what is resolved for
    [scheme://host:service] is the host with [://] in front of it, which is no name
    of a host. *)
Theorem scheme_separator_in_host (scheme host service : str) (type family : Z) :
  (":"%char ∉ scheme) -> ("|"%char ∉ scheme ++ lit "://" ++ host ++ ":"%char :: service) ->
  ("?"%char ∉ host ++ ":"%char :: service) -> (":"%char ∉ service) -> 0 <= family -> scheme <> lit "unix" ->
  exists family' protocol,
    parse_endpoint (scheme ++ lit "://" ++ host ++ ":"%char :: service) type family
    = Some (Resolve (Some (lit "://" ++ host)) (nonempty service) family' type protocol).
Proof. intros. rewrite parse_endpoint_scheme by done. by eexists _, _. Qed.

Lemma scheme_separator_in_host_witness :
  exists family' protocol,
    parse_endpoint (lit "tcp4" ++ lit "://" ++ lit "192.168.1.3" ++ ":"%char :: lit "443") SOCK_STREAM AF_UNSPEC
    = Some (Resolve (Some (lit "://" ++ lit "192.168.1.3")) (nonempty (lit "443")) family' SOCK_STREAM protocol).
Proof.
  apply (scheme_separator_in_host (lit "tcp4") (lit "192.168.1.3") (lit "443")).
  1-4: by apply (bool_decide_unpack _); vm_compute.
  1: by vm_compute.
  by apply (bool_decide_unpack _); vm_compute.
Defined.

(** Endpoints are not read back: for every address [host:service] and family, the
    printed form of a stream endpoint of the system's default protocol, read by the
    function for stream endpoints, is resolved with neither the family nor the
    protocol nor the host that were printed. *)
Theorem printed_endpoint_not_read (family : Z) (host service : str) :
  family = AF_INET \/ family = AF_INET6 ->
  ("|"%char ∉ host ++ ":"%char :: service) -> ("?"%char ∉ host ++ ":"%char :: service) -> (":"%char ∉ service) ->
  parse_stream_endpoint (print_stream family IPPROTO_TCP (host ++ ":"%char :: service))
  = Some (Resolve (Some (lit "://" ++ host)) (nonempty service) AF_UNSPEC 0 0).
Proof.
  intros Hf Hbar Hq Hcs. unfold parse_stream_endpoint.
  assert (exists scheme, print_stream family IPPROTO_TCP (host ++ ":"%char :: service)
    = scheme ++ lit "://" ++ host ++ ":"%char :: service /\ (scheme = lit "tcp4" \/ scheme = lit "tcp6"))
    as (scheme & -> & Hs).
  { destruct Hf as [-> | ->]; [exists (lit "tcp4") | exists (lit "tcp6")]; (split; [reflexivity | tauto]). }
  rewrite parse_endpoint_scheme; [by destruct Hs as [-> | ->] | | | done | done | done |];
    destruct Hs as [-> | ->]; try done; try (by apply (bool_decide_unpack _); vm_compute);
    (intros [Hin | [Hin | Hin]%elem_of_app]%elem_of_app; [| |done]; revert Hin; by apply (bool_decide_unpack _); vm_compute).
Qed.

Lemma printed_endpoint_not_read_witness :
  parse_stream_endpoint (print_stream AF_INET IPPROTO_TCP (lit "127.0.0.1" ++ ":"%char :: lit "80"))
  = Some (Resolve (Some (lit "://" ++ lit "127.0.0.1")) (nonempty (lit "80")) AF_UNSPEC 0 0).
Proof.
  apply (printed_endpoint_not_read AF_INET (lit "127.0.0.1") (lit "80")); [by left|..];
    by apply (bool_decide_unpack _); vm_compute.
Defined.

(** The path of a local endpoint is lost: for every path the address that
    [unix://path] gives has an empty path. *)
Theorem unix_path_lost (path : str) (type family : Z) :
  ("|"%char ∉ path) -> ("?"%char ∉ path) -> (":"%char ∉ path) ->
  parse_endpoint (lit "unix://" ++ path) type family = Some (UnixAddr [] type 3).
Proof.
  intros Hbar Hq Hc. unfold parse_endpoint. set (uri := lit "unix://" ++ path).
  assert ("|"%char ∉ uri) as Hb.
  { intros [Hin | Hin]%elem_of_app; [|done]. revert Hin. by apply (bool_decide_unpack _); vm_compute. }
  pose proof (parsed_url_params uri [] Hb ltac:(constructor)) as E.
  unfold params_text in E. cbn [map concat foldl] in E. rewrite app_nil_r in E. rewrite E. unfold parse_parts.
  rewrite parse_proto_eq. assert (find (lit "://") uri = Some 4%nat) as -> by
    (apply (find_app ":"%char (lit "//") (lit "unix")); by apply (bool_decide_unpack _); vm_compute).
  change (drop 4 uri) with (lit "://" ++ path). change (take 4 uri) with (lit "unix").
  rewrite parse_query_eq, (find_absent "?"%char []).
  2: { intros [Hin | Hin]%elem_of_app; [|done]. revert Hin. by apply (bool_decide_unpack _); vm_compute. }
  rewrite parse_service_eq. assert (rfind [":"%char] (lit "://" ++ path) = Some 0%nat) as ->; [|reflexivity].
  apply (rfind_app ":"%char []). intros [Hin | Hin]%(elem_of_app (lit "//")); [|done]. revert Hin.
  by apply (bool_decide_unpack _); vm_compute.
Qed.

Lemma unix_path_lost_witness :
  parse_endpoint (lit "unix://" ++ lit "/tmp/foo.sock") SOCK_STREAM AF_UNSPEC = Some (UnixAddr [] SOCK_STREAM 3).
Proof. apply unix_path_lost; by apply (bool_decide_unpack _); vm_compute. Defined.
