(* ===== verification/Hook.v ===== *)
(** * Hooks

    Models [toolbox/io/Hook.hpp]: the intrusive list of hooks that the reactor calls
    in every cycle, and its dispatch, during which hooks unhook themselves and others
    and add new ones.  A hook that is unlinked may be gone: going on from it is
    undefined. *)
From S2P Require Import Prelude.
#[local] Open Scope nat_scope.

(** ** The list *)

(** What a callback does to the list: [Unlink] is the destructor or [unlink]. *)
Inductive hook_op := Unlink (h : nat) | PushBack (h : nat).

(** Linking a hook that is linked violates the contract of the list. *)
Definition run_hook_op (o : hook_op) (l : list nat) : option (list nat) :=
  match o with
  | Unlink h => Some (filter (fun x => x <> h) l)
  | PushBack h => if decide (h ∈ l) then None else Some (l ++ [h])
  end.

Fixpoint run_hook_ops (os : list hook_op) (l : list nat) : option (list nat) :=
  match os with [] => Some l | o :: os => l ← run_hook_op o l; run_hook_ops os l end.

(** The iterator after a hook; the end of the list is [None]. *)
Fixpoint next_of (h : nat) (l : list nat) : option nat :=
  match l with
  | [] => None
  | x :: l => if decide (x = h) then head l else next_of h l
  end.

#[export] Instance hook_op_eqdec : EqDecision hook_op.
Proof. solve_decision. Defined.

Section dispatch.
(** What the slot of a hook does, up to an exception, which is caught. *)
Variable slot : nat -> list nat -> list hook_op.

(** The loop of [dispatch], with the hooks that were called: the iterator is advanced
    before the call. *)
Fixpoint dispatch_loop (fuel : nat) (it : option nat) (l calls : list nat) : option (list nat * list nat) :=
  match it with
  | None => Some (l, calls)
  | Some h =>
      match fuel with
      | O => None
      | S fuel =>
          if decide (h ∈ l) then
            let it := next_of h l in
            l ← run_hook_ops (slot h l) l;
            dispatch_loop fuel it l (calls ++ [h])
          else None
      end
  end.

Definition dispatch_hooks (fuel : nat) (l : list nat) : option (list nat * list nat) :=
  dispatch_loop fuel (head l) l [].

(** The reference: the hooks that were linked at the start are called in order, but
    for those that were unlinked before their turn. *)
Fixpoint snapshot (todo l calls : list nat) : option (list nat * list nat) :=
  match todo with
  | [] => Some (l, calls)
  | h :: todo =>
      if decide (h ∈ l) then l ← run_hook_ops (slot h l) l; snapshot todo l (calls ++ [h])
      else snapshot todo l calls
  end.
End dispatch.

(** The test of a hook that unlinks itself and adds another one. *)
Example dispatch_hooks_test :
  dispatch_hooks (fun h _ => match h with 0 => [PushBack 10; Unlink 0] | 1 => [PushBack 11; Unlink 1] | _ => [] end)
    9 [0; 1] = Some ([10; 11], [0; 1; 10; 11]).
Proof. reflexivity. Qed.

(** ** Callbacks that add nothing *)

(** The hooks that a predicate keeps, and those of a list that are still linked. *)
Definition keep (P : nat -> bool) (l : list nat) : list nat := filter (fun x => P x = true) l.
Definition linked (l todo : list nat) : list nat := filter (fun x => x ∈ l) todo.

Definition unlinks (os : list hook_op) : Prop := forall o, o ∈ os -> exists x, o = Unlink x.

(** Unlinking keeps the other hooks in order. *)
Lemma unlinks_keep os l : unlinks os -> exists P : nat -> bool,
  run_hook_ops os l = Some (keep P l) /\ forall x, ~ Unlink x ∈ os -> P x = true.
Proof.
  revert l. induction os as [|o os IH]; intros l Hos; cbn [run_hook_ops].
  - exists (fun _ => true). split; [|done]. f_equal. induction l as [|x l IHl]; [done|].
    unfold keep. rewrite filter_cons_True by done. f_equal. exact IHl.
  - destruct (Hos o) as [y ->]; [by left|]. cbn [run_hook_op mbind option_bind].
    destruct (IH (filter (fun x => x <> y) l)) as (P & -> & HP); [intros o Ho; apply Hos; by right|].
    exists (fun x => P x && bool_decide (x <> y)). split.
    + f_equal. unfold keep. rewrite list_filter_filter. apply list_filter_iff. intros x.
      by rewrite andb_true_iff, bool_decide_eq_true.
    + intros x Hx. apply not_elem_of_cons in Hx as [Hne Hx]. rewrite (HP x Hx). cbn.
      apply bool_decide_eq_true_2. congruence.
Qed.

Lemma next_of_other h l : NoDup l -> next_of h l <> Some h.
Proof.
  induction 1 as [|x l Hx Hnd IH]; cbn; [done|]. destruct (decide (x = h)) as [-> | _]; [|done].
  destruct l as [|y l]; [done|]. intros [= ->]. apply Hx. by left.
Qed.

Lemma linked_in l h todo : h ∈ l -> linked l (h :: todo) = h :: linked l todo.
Proof. intros Hin. unfold linked. by rewrite filter_cons_True. Qed.
Lemma linked_out l h todo : ~ h ∈ l -> linked l (h :: todo) = linked l todo.
Proof. intros Hin. unfold linked. by rewrite filter_cons_False. Qed.

Lemma next_of_app pre h l : h ∉ pre -> next_of h (pre ++ h :: l) = head l.
Proof.
  induction pre as [|x pre IH]; intros Hn; cbn [app next_of]; [by rewrite decide_True|].
  apply not_elem_of_cons in Hn as [? ?]. rewrite decide_False by done. by apply IH.
Qed.

(** The hooks still to be called are at the end of the list. *)
Definition aligned (todo l : list nat) : Prop := NoDup l /\ exists pre, l = pre ++ linked l todo.

Lemma filter_kept (P : nat -> bool) l todo :
  linked (keep P l) todo = keep P (linked l todo).
Proof. unfold linked, keep. rewrite list_filter_filter. apply list_filter_iff. intros x. by rewrite list_elem_of_filter. Qed.

Lemma aligned_kept (P : nat -> bool) h todo l : aligned (h :: todo) l -> h ∈ l ->
  aligned todo (keep P l).
Proof.
  intros [Hnd (pre & Hl)] Hin. split; [by apply NoDup_filter|]. rewrite linked_in in Hl by done.
  exists (keep P (pre ++ [h])). rewrite filter_kept. rewrite Hl at 1.
  unfold keep. by rewrite <- filter_app, <- app_assoc.
Qed.

Lemma snapshot_total slot todo l calls : (forall h l, unlinks (slot h l)) -> is_Some (snapshot slot todo l calls).
Proof.
  intros Hu. revert l calls. induction todo as [|h todo IH]; intros l calls; cbn [snapshot]; [by eexists|].
  destruct (decide _); [|apply IH]. destruct (unlinks_keep _ l (Hu h l)) as (P & -> & _). apply IH.
Qed.

Section equivalence.
Variable slot : nat -> list nat -> list hook_op.
(** Callbacks only unlink, and not the hook that is next. *)
Hypothesis slots_unlink : forall h l, unlinks (slot h l).
Hypothesis next_stays : forall h l n, NoDup l -> next_of h l = Some n -> ~ Unlink n ∈ slot h l.

Lemma dispatch_loop_snapshot todo fuel l calls : aligned todo l -> (length todo <= fuel)%nat ->
  dispatch_loop slot fuel (head (linked l todo)) l calls = snapshot slot todo l calls.
Proof.
  revert fuel l calls. induction todo as [|h todo IH]; intros fuel l calls Hal Hf; cbn [snapshot].
  - by destruct fuel.
  - destruct (decide (h ∈ l)) as [Hin | Hout].
    + rewrite linked_in by done. destruct fuel as [|fuel]; [cbn in Hf; lia|]. cbn [head dispatch_loop].
      rewrite decide_True by done. destruct (unlinks_keep _ l (slots_unlink h l)) as (P & E & HP). rewrite E.
      cbn [mbind option_bind]. rewrite <- (IH fuel); [| by eapply aligned_kept | cbn in Hf; lia]. f_equal.
      rewrite filter_kept. destruct Hal as [Hnd (pre & Hl)]. rewrite linked_in in Hl by done.
      assert (h ∉ pre) as Hpre.
      { rewrite Hl in Hnd. apply NoDup_app in Hnd as (_ & Hdis & _). intros Hp. apply (Hdis h Hp). by left. }
      assert (next_of h l = head (linked l todo)) as Hnext by (rewrite Hl at 1; by apply next_of_app).
      rewrite Hnext. destruct (linked l todo) as [|n rest] eqn:Ef; [done|].
      unfold keep. by rewrite filter_cons_True by (by apply HP, next_stays).
    + rewrite linked_out by done. apply IH; [|cbn in Hf; lia]. destruct Hal as [Hnd (pre & Hl)].
      split; [done|]. exists pre. by rewrite linked_out in Hl.
Qed.
End equivalence.

(** C38: Hooks may unhook themselves: for all callbacks that unhook themselves or others,
    in any number, but not the hook that follows, the dispatch is defined, ends after
    at most as many calls as there were hooks, and does what going through a copy of
    the list does: the hooks that were linked at the start are called in order, each
    once, but for those that were unhooked before their turn. *)
Theorem hooks_as_snapshot (slot : nat -> list nat -> list hook_op) (l : list nat) (fuel : nat) :
  (forall h l, unlinks (slot h l)) -> (forall h l n, NoDup l -> next_of h l = Some n -> ~ Unlink n ∈ slot h l) ->
  NoDup l -> (length l <= fuel)%nat ->
  dispatch_hooks slot fuel l = snapshot slot l l [] /\ is_Some (snapshot slot l l []).
Proof.
  intros Hu Hn Hnd Hf. split.
  - assert (linked l l = l) as Hid.
    { assert (forall l', (forall x, x ∈ l' -> x ∈ l) -> linked l l' = l') as Hgen; [|by apply Hgen].
      intros l'. induction l' as [|x l' IH]; intros Hin; [done|].
      rewrite linked_in by (apply Hin; by left). f_equal. apply IH. intros y Hy. apply Hin. by right. }
    unfold dispatch_hooks. rewrite <- Hid at 1. apply dispatch_loop_snapshot; try done.
    split; [done|]. exists []. by rewrite Hid.
  - apply snapshot_total. exact Hu.
Qed.

Lemma hooks_as_snapshot_witness :
  let slot := fun h (_ : list nat) => match h with 1 => [Unlink 1] | _ => [] end in
  dispatch_hooks slot 3 [1; 2; 3] = snapshot slot [1; 2; 3] [1; 2; 3] []
  /\ is_Some (snapshot slot [1; 2; 3] [1; 2; 3] []).
Proof.
  apply hooks_as_snapshot.
  - intros [|[|h]] l o Ho; try (by apply elem_of_nil in Ho). apply list_elem_of_singleton in Ho as ->. by exists 1.
  - intros h l n Hnd Hn. destruct h as [|[|h]]; try (by intros ?%elem_of_nil). intros [= ->]%list_elem_of_singleton.
    by apply (next_of_other 1 l).
  - by apply (bool_decide_unpack _); vm_compute.
  - by vm_compute; lia.
Defined.
