(* ===== verification/Reactor.v ===== *)
(** * The reactor: cycles, pollers, starting and stopping

    Models [BasicMultiReactor] of [toolbox/io/MultiReactor.hpp] with its base class of
    [Reactor.hpp] and the [BasicRunner] of [Runner.hpp]: the choice of the poller for a
    descriptor, a cycle of the event loop over the poller and the timer of file Epoll,
    and the two threads that start and stop the loop, in any interleaving. *)
From S2P Require Import Prelude Epoll.
#[local] Open Scope Z_scope.

(** ** The poller for a descriptor *)

Definition CustomFDBits : Z := 12.
Definition CustomFDMask : Z := 2 ^ 12 - 1.
Definition HighBitFDMask : Z := - 2 ^ 31.

(** The loop over the implementations: the last one for which the index is zero. *)
Fixpoint find_poller (n : nat) (i : nat) (rix : Z) (poller : option nat) : option nat :=
  match n with
  | O => poller
  | S n => find_poller n (S i) (u64 (rix - 1)) (if rix =? 0 then Some i else poller)
  end.

(** [poller] among [impls] implementations; none is the null pointer.  The mask is
    unsigned, so the descriptor is masked as an unsigned number of 32 bits. *)
Definition poller (impls : nat) (fd : Z) : option nat :=
  let ix := Z.land (u32 fd) (u32 (Z.lnot CustomFDMask)) in
  let rix := Z.shiftr ix CustomFDBits in
  let rix := if Z.land fd HighBitFDMask =? 0 then u64 (Z.of_nat impls - 1) else rix in
  find_poller impls 0 rix None.

(** [socket]: the descriptor of a socket of an implementation. *)
Definition socket (index : nat) (s : Z) : Z :=
  i32 (u64 (Z.lor (Z.shiftl (Z.of_nat index) CustomFDBits) (u64 HighBitFDMask) + s)).

(** ** A cycle *)

(** What a cycle finds: the expiries at the front of the two queues of timers, whether
    there are hooks, the outcome of the wait (none: interrupted), the time after it,
    and the work that the dispatches report. *)
Record cycle_input := mkCycle {
  no_hooks : bool;
  high : option Z;
  low : option Z;
  ready : option Z;
  after : Z;
  high_work : Z;
  io_work : Z;
  low_work : Z
}.

(** What it does. *)
Inductive effect :=
| SetTimer (t : Z)
| Wait (blocking : bool)
| High (now : Z)
| Io (now : Z)
| Low (now : Z)
| Hooks (now : Z).

#[export] Instance effect_eqdec : EqDecision effect.
Proof. solve_decision. Defined.

(** [Epoll::wait] with a time, or without one when it is unbounded, for the time that
    the timer is set to. *)
Definition poller_wait (timer until : Z) : list effect * Z :=
  let '(set, blocking, timer) := wait timer (if until <? int64_max then until else 0) in
  (match set with Some t => [SetTimer t] | None => [] end
   ++ [Wait (if until <? int64_max then blocking else true)], timer).

(** [poll] with one implementation: the effects in order, the work, and the timer.  The
    source does not fix the order of the dispatches of the high priority timers and of
    the events, which are operands of a sum; compilers go from left to right. *)
Definition poll (now timeout : Z) (timer : Z) (c : cycle_input) : list effect * Z * Z :=
  let until := wait_until now timeout (no_hooks c) (high c) (low c) in
  let '(waited, timer) := poller_wait timer until in
  match ready c with
  | None => (waited ++ [Hooks now], 0, timer)
  | Some n =>
      let now := if negb (until =? 0) then after c else now in
      let work := high_work c + io_work c in
      let '(lows, work) := if n =? 0 then ([Low now], work + low_work c) else ([], work) in
      (waited ++ [High now; Io now] ++ lows ++ [Hooks now], work, timer)
  end.

(** The rounds of [run] wait only after a hundred rounds without work. *)
Definition round_timeout (i : Z) : Z := if i <? 100 then 0 else NoTimeout.

(** ** Starting and stopping *)

(** [State]. *)
Inductive rstate := PendingOpen | Open | PendingClosed | Closed.
#[export] Instance rstate_eqdec : EqDecision rstate.
Proof. solve_decision. Defined.

(** The thread of the runner: where it is in [run]. *)
Inductive runner := RStart | RPending | RHead (i : Z) | RBlocked (i : Z) | RClosing | RClosed | RDone.

(** The thread that destroys the runner: [stop], [wakeup], [join]. *)
Inductive stopper := SStart | SCheck | SClose | SStop | SWake | SNotify | SJoin | SDone.

Record system := mkSystem {
  stop_ : bool;
  state_ : rstate;
  notify_ : Z;
  run_pc : runner;
  stop_pc : stopper
}.

Definition set_state (x : rstate) (s : system) : system := mkSystem (stop_ s) x (notify_ s) (run_pc s) (stop_pc s).
Definition set_run (r : runner) (s : system) : system := mkSystem (stop_ s) (state_ s) (notify_ s) r (stop_pc s).
Definition set_stop_pc (p : stopper) (s : system) : system := mkSystem (stop_ s) (state_ s) (notify_ s) (run_pc s) p.
Definition set_notify (n : Z) (s : system) : system := mkSystem (stop_ s) (state_ s) n (run_pc s) (stop_pc s).
Definition set_stop (s : system) : system := mkSystem true (state_ s) (notify_ s) (run_pc s) (stop_pc s).

(** A step: of the runner, which learns whether the cycle had work; of the stopper; or
    a descriptor or a timer that becomes ready for the runner that is blocked, with
    or without work to do for it. *)
Inductive label := Run (work : bool) | Stop | Event (work : bool).

(** The counter of rounds after a round. *)
Definition next_round (work : bool) (i : Z) : Z := if work then 0 else u64 (i + 1).

(** [run]: a round that waits without a limit blocks until it is notified or an event
    happens. *)
Definition run_step (work : bool) (s : system) : system :=
  match run_pc s with
  | RStart => set_run RPending (set_state PendingOpen s)
  | RPending => set_run (RHead 0) (set_state Open s)
  | RHead i =>
      if stop_ s then set_run RClosing (set_state PendingClosed s)
      else if round_timeout i =? 0 then set_run (RHead (next_round work i)) (set_notify 0 s)
      else set_run (RBlocked i) s
  | RBlocked i => if 0 <? notify_ s then set_run (RHead (next_round work i)) (set_notify 0 s) else s
  | RClosing => set_run RClosed (set_state Closed s)
  | RClosed => set_run RDone s
  | RDone => s
  end.

Definition event_step (work : bool) (s : system) : system :=
  match run_pc s with RBlocked i => set_run (RHead (next_round work i)) (set_notify 0 s) | _ => s end.

(** [stop]: two loads and two stores. *)
Definition stop (s : system) : system :=
  match stop_pc s with
  | SStart => if bool_decide (state_ s = PendingClosed) then set_stop_pc SWake s else set_stop_pc SCheck s
  | SCheck => if bool_decide (state_ s = Closed) then set_stop_pc SWake s else set_stop_pc SClose s
  | SClose => set_stop_pc SStop (set_state Closed s)
  | SStop => set_stop_pc SWake (set_stop s)
  | _ => s
  end.

(** [wakeup], which notifies a reactor that is open. *)
Definition wakeup (s : system) : system :=
  match stop_pc s with
  | SWake => if bool_decide (state_ s = Open) then set_stop_pc SNotify s else set_stop_pc SJoin s
  | SNotify => set_stop_pc SJoin (set_notify (notify_ s + 1) s)
  | _ => s
  end.

(** The destructor of the runner: [stop], [wakeup], and the join. *)
Definition stop_step (s : system) : system :=
  match stop_pc s with
  | SStart | SCheck | SClose | SStop => stop s
  | SWake | SNotify => wakeup s
  | SJoin => match run_pc s with RDone => set_stop_pc SDone s | _ => s end
  | SDone => s
  end.

Definition exec (l : label) (s : system) : system :=
  match l with Run work => run_step work s | Stop => stop_step s | Event work => event_step work s end.
Definition run (ls : list label) (s : system) : system := fold_left (fun s l => exec l s) ls s.

(** The reactor is new. *)
Definition new_system : system := mkSystem false Closed 0 RStart SStart.

(** ** Pollers *)

Lemma find_poller_spec n i rix p : (Z.of_nat n < 2 ^ 64)%Z -> 0 <= rix < 2 ^ 64 ->
  find_poller n i rix p = if rix <? Z.of_nat n then Some (i + Z.to_nat rix)%nat else p.
Proof.
  revert i rix p. induction n as [|n IH]; intros i rix p Hn Hr; cbn [find_poller].
  - destruct (Z.ltb_spec rix (Z.of_nat 0)); [lia | done].
  - destruct (Z.eqb_spec rix 0) as [-> | Hne].
    + rewrite IH by (lia || apply wrapu_range; lia). change (u64 (0 - 1)) with (2 ^ 64 - 1).
      destruct (Z.ltb_spec (2 ^ 64 - 1) (Z.of_nat n)); [lia|]. destruct (Z.ltb_spec 0 (Z.of_nat (S n))); [|lia].
      f_equal. lia.
    + rewrite wrapu_small by lia. rewrite IH by lia.
      destruct (Z.ltb_spec (rix - 1) (Z.of_nat n)), (Z.ltb_spec rix (Z.of_nat (S n))); try lia; [f_equal; lia | done].
Qed.

Lemma and_high fd : - 2 ^ 31 <= fd < 2 ^ 31 -> Z.land fd HighBitFDMask = if 0 <=? fd then 0 else - 2 ^ 31.
Proof.
  intros Hfd. unfold HighBitFDMask. replace (- 2 ^ 31) with (Z.lnot (2 ^ 31 - 1)) by done.
  rewrite <- Z.ldiff_land. change (2 ^ 31 - 1) with (Z.ones 31). rewrite Z.ldiff_ones_r, Z.shiftl_mul_pow2, Z.shiftr_div_pow2 by lia.
  destruct (Z.leb_spec 0 fd).
  - rewrite Z.div_small by lia. done.
  - assert (fd / 2 ^ 31 = -1) as -> by (symmetry; apply (Z.div_unique _ _ _ (fd + 2 ^ 31)); lia). done.
Qed.

Lemma socket_eq index s : 0 <= Z.of_nat index < 2 ^ 19 -> 0 <= s < 2 ^ 12 ->
  socket index s = - 2 ^ 31 + (Z.of_nat index * 2 ^ 12 + s).
Proof.
  intros Hi Hs. unfold socket, CustomFDBits. rewrite Z.shiftl_mul_pow2 by lia.
  change (u64 HighBitFDMask) with ((2 ^ 33 - 1) * 2 ^ 31). rewrite Z.lor_comm, lor_add_pow2 by lia.
  rewrite wrapu_small by lia. unfold wraps.
  replace ((2 ^ 33 - 1) * 2 ^ 31 + Z.of_nat index * 2 ^ 12 + s + 2 ^ (32 - 1))
    with (Z.of_nat index * 2 ^ 12 + s + 2 ^ 32 * 2 ^ 32) by lia.
  rewrite Z.mod_add by lia. rewrite Z.mod_small by lia. lia.
Qed.

(** Descriptors of the system get the last implementation, the one for the kernel's
    events; but a descriptor of a socket of any implementation's own gets no
    implementation at all, the null pointer, because the bit that marks it is part of
    the index. *)
Theorem poller_choice (impls : nat) : 0 < Z.of_nat impls < 2 ^ 19 ->
  (forall fd, 0 <= fd < 2 ^ 31 -> poller impls fd = Some (impls - 1)%nat)
  /\ (forall index s, (index < impls)%nat -> 0 <= s < 2 ^ 12 -> poller impls (socket index s) = None).
Proof.
  intros Hn. split.
  - intros fd Hfd. unfold poller. rewrite and_high by lia. destruct (Z.leb_spec 0 fd); [|lia]. cbn [Z.eqb].
    rewrite wrapu_small by lia. rewrite find_poller_spec by lia.
    destruct (Z.ltb_spec (Z.of_nat impls - 1) (Z.of_nat impls)); [f_equal; lia | lia].
  - intros index s Hi Hs. assert (0 <= Z.of_nat index * 2 ^ 12 + s < 2 ^ 31) as Hr by lia.
    rewrite socket_eq by lia. unfold poller. rewrite and_high by lia.
    destruct (Z.leb_spec 0 (- 2 ^ 31 + (Z.of_nat index * 2 ^ 12 + s))); [lia|]. change (- 2 ^ 31 =? 0) with false.
    cbv iota.
    assert (u32 (- 2 ^ 31 + (Z.of_nat index * 2 ^ 12 + s)) = 2 ^ 31 + (Z.of_nat index * 2 ^ 12 + s)) as ->.
    { unfold wrapu. symmetry. apply (Z.mod_unique _ _ (-1)); lia. }
    rewrite Z.shiftr_land, !Z.shiftr_div_pow2 by (unfold CustomFDBits; lia).
    change (u32 (Z.lnot CustomFDMask) / 2 ^ CustomFDBits) with (Z.ones 20).
    assert ((2 ^ 31 + (Z.of_nat index * 2 ^ 12 + s)) / 2 ^ CustomFDBits = 2 ^ 19 + Z.of_nat index) as ->.
    { symmetry. apply (Z.div_unique _ _ _ s); unfold CustomFDBits; lia. }
    rewrite Z.land_ones, Z.mod_small by lia. rewrite find_poller_spec by lia.
    destruct (Z.ltb_spec (2 ^ 19 + Z.of_nat index) (Z.of_nat impls)); [lia | done].
Qed.

Lemma poller_choice_witness :
  (forall fd, 0 <= fd < 2 ^ 31 -> poller 2 fd = Some 1%nat)
  /\ (forall index s, (index < 2)%nat -> 0 <= s < 2 ^ 12 -> poller 2 (socket index s) = None).
Proof. apply (poller_choice 2). lia. Defined.

(** ** Cycles *)

Lemma poller_wait_blocks timer until : 0 <= until ->
  exists waited, poller_wait timer until = (waited, if until <? int64_max then until else 0)
  /\ bool_decide (Wait true ∈ waited) = negb (until =? 0).
Proof.
  intros Hu. unfold poller_wait, wait. eexists. split; [reflexivity|].
  apply eq_bool_prop_intro. rewrite bool_decide_spec.
  assert (forall b l, (forall x, x ∈ l -> exists t, x = SetTimer t) -> Wait true ∈ l ++ [Wait b] <-> b = true) as Hw.
  { intros b l Hl. rewrite elem_of_app, list_elem_of_singleton. split; [|by intros ->; right].
    intros [Hin | [= ->]]; [by destruct (Hl _ Hin)|done]. }
  rewrite Hw by (intros x; destruct (negb _); [intros ->%list_elem_of_singleton; by eexists | by intros ?%elem_of_nil]).
  rewrite Is_true_true. zcase; [done|]. split; [|done]. intros _. unfold int64_max in *. apply negb_true_iff, Z.eqb_neq. lia.
Qed.

(** A timer that the wait may not pass. *)
Definition deadline (c : cycle_input) (t : Z) : Prop :=
  low c = Some t \/ exists e, high c = Some e /\ t = e - 200000.

Lemma deadline_times c t : deadline c t <-> t ∈ option_list (low c) ++ option_list ((fun e => e - 200000) <$> high c).
Proof.
  unfold deadline. destruct (low c) as [l|], (high c) as [h|]; cbn; rewrite ?elem_of_cons, ?elem_of_nil;
    (split; [intros [[= <-] | (e & [= <-] & ->)] | ]; try tauto; try done; intros; destruct_or?; subst; try done; eauto).
Qed.



(** A low priority timer is late by a cycle: the kernel's timer that ends the wait for
    it counts as a ready descriptor, so the cycle that waited for the timer does not
    dispatch it; the next cycle, when no descriptor is ready, does. *)
Theorem low_timer_waits_a_cycle (now expiry late later timer : Z) (io : Z) :
  0 <= now < expiry -> expiry < int64_max -> expiry <= late -> expiry <= later ->
  let woken := mkCycle true None (Some expiry) (Some 1) late 0 io 0 in
  let idle := mkCycle true None (Some expiry) (Some 0) later 0 0 1 in
  exists waited,
    poll now NoTimeout timer woken = (waited ++ [High late; Io late; Hooks late], io, expiry)
    /\ poll later NoTimeout expiry idle = ([SetTimer 0; Wait false; High later; Io later; Low later; Hooks later], 1, 0).
Proof.
  intros Hnow Hmax Hlate Hlater woken idle. destruct (poller_wait_blocks timer expiry ltac:(lia)) as (waited & Ew & _).
  exists waited. unfold poll, wait_until, next_expiry, NoTimeout. cbn [no_hooks high low ready after high_work io_work low_work woken idle].
  change (negb (-1 =? 0) && true) with true. change (-1 =? -1) with true. cbv iota.
  rewrite Z.min_r by lia. split.
  - destruct (Z.ltb_spec now expiry); [|lia]. rewrite Ew. destruct (Z.eqb_spec expiry 0); [lia|]. cbn [negb].
    destruct (Z.ltb_spec expiry int64_max); [done | lia].
  - destruct (Z.ltb_spec later expiry); [lia|]. change (0 <? int64_max) with true. unfold poller_wait, wait.
    change (0 <? int64_max) with true. cbv iota. destruct (Z.eqb_spec 0 expiry); [lia|]. reflexivity.
Qed.

Lemma low_timer_waits_a_cycle_witness :
  exists waited,
    poll 1000 NoTimeout 0 (mkCycle true None (Some 1300) (Some 1) 1301 0 0 0)
    = (waited ++ [High 1301; Io 1301; Hooks 1301], 0, 1300)
    /\ poll 1302 NoTimeout 1300 (mkCycle true None (Some 1300) (Some 0) 1302 0 0 1)
    = ([SetTimer 0; Wait false; High 1302; Io 1302; Low 1302; Hooks 1302], 1, 0).
Proof. apply (low_timer_waits_a_cycle 1000 1300 1301 1302 0 0); [lia | vm_compute; done | lia | lia]. Defined.

(** ** Starting and stopping *)

(** The runner is blocked, nothing notifies it, and the stopper did not find the
    reactor open after it closed it. *)
Definition asleep (s : system) : Prop :=
  notify_ s = 0 /\ (exists i, run_pc s = RBlocked i)
  /\ match stop_pc s with
     | SStart | SCheck | SClose => state_ s = Open
     | SStop | SWake => state_ s = Closed
     | SJoin => True
     | SNotify | SDone => False
     end.

Lemma asleep_step l s : (forall work, l <> Event work) -> asleep s -> asleep (exec l s).
Proof.
  intros Hl (Hn & (i & Hr) & Hs). destruct s as [st x n r p]. cbn in *. subst n r.
  destruct l as [work | | work]; [by repeat split; [exists i |] | | by destruct (Hl work)].
  destruct p; subst; try done; by repeat split; cbn; eauto.
Qed.

(** C13: Stopping does not wake the reactor: when the thread of the reactor is blocked in
    a cycle without a time limit, a runner that is destroyed closes the state before
    it wakes the reactor, which is then skipped; in every interleaving without
    another event the reactor stays blocked and the join never returns. *)
Theorem stop_does_not_wake (i : Z) (ls : list label) :
  Forall (fun l => forall work, l <> Event work) ls ->
  let s := run ls (mkSystem false Open 0 (RBlocked i) SStart) in
  run_pc s = RBlocked i /\ notify_ s = 0 /\ stop_pc s <> SDone.
Proof.
  intros Hls s. assert (asleep s /\ run_pc s = RBlocked i) as [(Hn & _ & Hs) Hr].
  { unfold s. assert (asleep (mkSystem false Open 0 (RBlocked i) SStart)) as H0 by (by repeat split; eauto).
    assert (run_pc (mkSystem false Open 0 (RBlocked i) SStart) = RBlocked i) as H1 by done. revert H0 H1.
    generalize (mkSystem false Open 0 (RBlocked i) SStart). induction Hls as [|l ls Hl Hls IH]; intros s0 H0 H1; [done|].
    apply IH; [by apply asleep_step|]. destruct H0 as (Hn & _). destruct l as [work | | work]; [| |by destruct (Hl work)].
    - cbn. unfold run_step. by rewrite H1, Hn.
    - cbn. unfold stop_step, stop, wakeup. rewrite H1. repeat case_match; done. }
  split; [done|]. split; [done|]. intros E. by rewrite E in Hs.
Qed.

Lemma stop_does_not_wake_witness :
  let s := run [Stop; Run false; Stop; Stop; Stop; Stop; Stop; Run true] (mkSystem false Open 0 (RBlocked 100) SStart) in
  run_pc s = RBlocked 100 /\ notify_ s = 0 /\ stop_pc s <> SDone.
Proof.
  apply (stop_does_not_wake 100 [Stop; Run false; Stop; Stop; Stop; Stop; Stop; Run true]).
  by rewrite !Forall_cons.
Defined.

(** The stop came before the start. *)
Definition unstopped (s : system) : Prop :=
  stop_ s = false
  /\ match stop_pc s with SStart | SCheck | SClose | SStop => False | _ => True end
  /\ match run_pc s with RClosing | RClosed | RDone => False | _ => True end.

(** A stop that comes before the start is lost: when a runner is destroyed before its
    thread has opened the reactor, the state is closed and nothing is stopped; in
    every interleaving, whatever events happen, the loop never ends and the join
    never returns. *)
Theorem early_stop_is_lost (ls : list label) :
  let s := run (Stop :: Stop :: ls) new_system in
  stop_ s = false /\ run_pc s <> RDone /\ stop_pc s <> SDone.
Proof.
  intros s. assert (unstopped s /\ stop_pc s <> SDone) as [(H1 & _ & H3) H4].
  { unfold s. cbn [run fold_left]. set (s0 := exec Stop (exec Stop new_system)).
    assert (unstopped s0 /\ stop_pc s0 <> SDone) as H0 by done. revert H0. generalize s0. clear s s0.
    induction ls as [|l ls IH]; intros s H0; [done|]. cbn [fold_left]. apply IH. clear IH.
    destruct s as [st x n r p], H0 as [(H1 & H2 & H3) H4]. cbn in *. subst st.
    destruct l as [work | | work].
    - destruct r; try done; cbn; unfold run_step; cbn; repeat case_match; done.
    - destruct p; try done; cbn; unfold stop_step; cbn; repeat case_match; subst; done.
    - destruct r; try done. }
  split; [done|]. split; [|done]. intros E. by rewrite E in H3.
Qed.

(** How many steps the runner has left once it is to stop. *)
Definition steps_left (r : runner) : option nat :=
  match r with RHead _ => Some 3%nat | RClosing => Some 2%nat | RClosed => Some 1%nat | RDone => Some 0%nat | _ => None end.
Definition stopping (n : nat) (s : system) : Prop :=
  stop_ s = true /\ (exists k, steps_left (run_pc s) = Some k /\ (k <= n)%nat)
  /\ match run_pc s with RClosed | RDone => state_ s = Closed | _ => True end.
Definition is_run (l : label) : bool := match l with Run _ => true | _ => false end.

Lemma stopping_step n l s : stopping n s -> stopping (if is_run l then n - 1 else n) (exec l s).
Proof.
  intros (Hst & (k & Hk & Hle) & Hs). destruct s as [st x m r p]. cbn in *. subst st. destruct l as [work | | work].
  - destruct r; try done; injection Hk as <-; (split; [done|]; split; [|done]); eexists; (split; [reflexivity|]); cbn [is_run]; lia.
  - cbn [is_run exec]. unfold stop_step, stop, wakeup. cbn.
    destruct p; repeat case_match; cbn; (split; [done|]); (split; [by exists k |]); destruct r; done.
  - destruct r; try done; (split; [done|]; split; [by exists k | done]).
Qed.

(** A stop that is seen ends the loop: once the flag is set and the reactor is at the
    head of its loop, in every interleaving the thread of the reactor is done after
    three of its own steps, and leaves the state closed. *)
Theorem stop_ends_the_loop (s : system) (ls : list label) :
  stop_ s = true -> (exists i, run_pc s = RHead i) -> (3 <= length (List.filter is_run ls))%nat ->
  run_pc (run ls s) = RDone /\ state_ (run ls s) = Closed.
Proof.
  intros Hs (i & Hi) Hn.
  assert (stopping (3 - length (List.filter is_run ls)) (run ls s)) as (_ & (k & Hk & Hle) & Hc).
  { assert (stopping 3 s) as H0 by (split; [done|]; rewrite Hi; split; [by exists 3%nat | done]).
    clear Hs Hi Hn. revert s H0. generalize 3%nat. induction ls as [|l ls IH]; intros n s H0; cbn [run fold_left List.filter].
    - by rewrite Nat.sub_0_r.
    - apply (stopping_step n l) in H0. apply IH in H0. destruct (is_run l); cbn [length]; [|done].
      by replace (n - S (length (List.filter is_run ls)))%nat with (n - 1 - length (List.filter is_run ls))%nat by lia. }
  destruct (run_pc (run ls s)); try done; cbn in Hk; injection Hk as <-; lia || done.
Qed.

Lemma stop_ends_the_loop_witness :
  let s := mkSystem true Closed 0 (RHead 7) SWake in
  let ls := [Stop; Run true; Event true; Run false; Stop; Run false] in
  run_pc (run ls s) = RDone /\ state_ (run ls s) = Closed.
Proof. apply stop_ends_the_loop; [done | by exists 7 | vm_compute; lia]. Defined.
