(* ===== verification/HttpConn.v ===== *)
(** * HTTP connections

    Models the server's connection of [toolbox/http/Conn.hpp] with its base class
    [BasicDisposer] of [toolbox/io/Disposer.hpp]: the handlers of io events and of the
    idle timer, reading and parsing, answering, the output that the socket does not
    take at once, exceptions, and the life time of the connection, which deletes
    itself.  The subscription is that of file Epoll: the handlers are called with any
    io events (a _lifetime_), or with those that the poller delivers ([served]).

    Inputs are the results of the system calls and what the parser, a library,
    reports; the program's callbacks are arbitrary functions.  The poller is the
    reactor's answer to the constructor, which asks for a descriptor that it has moved
    from: the library's own reactor has none for it ([no_poller_for_connection]), so
    that connections only exist with a reactor that answers otherwise. *)
From Stdlib Require Import String.
From S2P Require Import Prelude Buffer Epoll Reactor Text HttpRequest.
#[local] Open Scope Z_scope.

(** ** State *)

(** What can be observed: the program's callbacks, its output, what is written to the
    socket, an exception of the parser that is swallowed, the deletion. *)
Inductive observation :=
| Message (r : HttpRequest)
| Failed
| TimedOut
| Disconnected
| Output (bytes : list Z)
| Wrote (bytes : list Z)
| Rejected
| Deleted.

Record Conn := mkConn {
  locks_ : Z;
  dispose_ : bool;
  deleted : bool;
  sub_ : PollHandle;
  epoll : Epoll;
  tmr_ : Z;
  in_ : Buffer;
  out_ : Buffer;
  asm : assembly;
  write_blocked_ : bool;
  log : list observation
}.

Definition observe (o : observation) (c : Conn) : Conn :=
  mkConn (locks_ c) (dispose_ c) (deleted c) (sub_ c) (epoll c) (tmr_ c) (in_ c) (out_ c) (asm c) (write_blocked_ c) (log c ++ [o]).
Definition set_locks (n : Z) (c : Conn) : Conn :=
  mkConn n (dispose_ c) (deleted c) (sub_ c) (epoll c) (tmr_ c) (in_ c) (out_ c) (asm c) (write_blocked_ c) (log c).
Definition set_dispose (c : Conn) : Conn :=
  mkConn (locks_ c) true (deleted c) (sub_ c) (epoll c) (tmr_ c) (in_ c) (out_ c) (asm c) (write_blocked_ c) (log c).
Definition set_deleted (c : Conn) : Conn :=
  mkConn (locks_ c) (dispose_ c) true (sub_ c) (epoll c) (tmr_ c) (in_ c) (out_ c) (asm c) (write_blocked_ c) (log c).
Definition set_tmr (t : Z) (c : Conn) : Conn :=
  mkConn (locks_ c) (dispose_ c) (deleted c) (sub_ c) (epoll c) t (in_ c) (out_ c) (asm c) (write_blocked_ c) (log c).
Definition set_in (b : Buffer) (c : Conn) : Conn :=
  mkConn (locks_ c) (dispose_ c) (deleted c) (sub_ c) (epoll c) (tmr_ c) b (out_ c) (asm c) (write_blocked_ c) (log c).
Definition set_out (b : Buffer) (c : Conn) : Conn :=
  mkConn (locks_ c) (dispose_ c) (deleted c) (sub_ c) (epoll c) (tmr_ c) (in_ c) b (asm c) (write_blocked_ c) (log c).
Definition set_asm (a : assembly) (c : Conn) : Conn :=
  mkConn (locks_ c) (dispose_ c) (deleted c) (sub_ c) (epoll c) (tmr_ c) (in_ c) (out_ c) a (write_blocked_ c) (log c).
Definition set_sub (h : PollHandle) (e : Epoll) (c : Conn) : Conn :=
  mkConn (locks_ c) (dispose_ c) (deleted c) h e (tmr_ c) (in_ c) (out_ c) (asm c) (write_blocked_ c) (log c).
(** Whether the output is blocked, with [sub_.events(mask)]: that is [PollFD::events],
    which sets the member and does not commit it to the poller. *)
Definition set_blocked (b : bool) (mask : Z) (c : Conn) : Conn :=
  mkConn (locks_ c) (dispose_ c) (deleted c) (set_pfd (sub_ c) (with_events (pfd (sub_ c)) mask)) (epoll c)
    (tmr_ c) (in_ c) (out_ c) (asm c) b (log c).

(** ** Inputs *)

(** The result of a [read]. *)
Inductive read_result := Data (bytes : list Z) | WouldBlock | ReadError.

(** What the parser reports of its input: events, the number of bytes that it took, or
    that the input is malformed after those events. *)
Record parsed := mkParsed { p_events : list event; p_consumed : Z; p_malformed : bool }.

(** The inputs of an io event: the reads, the parser's report, the room that the socket
    has for a write (none: an error), and for the one of the deletion, and whether the
    parser asks to keep the connection alive. *)
Record io_input := mkInput {
  reads : list read_result;
  report : parsed;
  room : option Z;
  last_room : option Z;
  should_keep_alive : bool
}.

(** ** Exceptions *)

Inductive exn := HttpExn | SysExn.

(** A computation ends normally or with an exception; without a result it is
    undefined. *)
Definition M (A : Type) : Type := Conn -> option (Conn * (exn + A)).
Definition ret {A} (a : A) : M A := fun c => Some (c, inr a).
Definition throw {A} (e : exn) : M A := fun c => Some (c, inl e).
Definition bind {A B} (m : M A) (k : A -> M B) : M B := fun c =>
  match m c with
  | Some (c, inr a) => k a c
  | Some (c, inl e) => Some (c, inl e)
  | None => None
  end.
Definition modify (f : Conn -> Conn) : M unit := fun c => Some (f c, inr tt).
Definition get {A} (f : Conn -> A) : M A := fun c => Some (c, inr (f c)).
Definition undefined {A} : M A := fun _ => None.

Declare Scope conn_scope.
Notation "x <- m ;; k" := (bind m (fun x => k)) (at level 100, m at next level, right associativity) : conn_scope.
Notation "m ;;; k" := (bind m (fun _ => k)) (at level 100, right associativity) : conn_scope.
#[local] Open Scope conn_scope.

Section conn.

(** The program: which targets are valid ([http_parser_parse_url]), what the message
    callback writes and whether it throws, and what the error callback writes. *)
Variable url_ok : str -> bool.
Variable handler : HttpRequest -> list Z * bool.
Variable error_output : list Z.

(** *** Life time *)

(** A [write] of the output that the socket has some room for: how much was written. *)
Definition socket_write (room : Z) : M Z :=
  data <- get (fun c => Buffer.str (out_ c)) ;;
  let n := Z.min room (Z.of_nat (length data)) in
  modify (observe (Wrote (take (Z.to_nat n) data))) ;;; ret n.

(** The destructor of the members: the subscription is reset. *)
Definition destroy (c : Conn) : Conn :=
  let he := reset (sub_ c) (epoll c) in set_sub he.1 he.2 (set_deleted c).

(** [dispose_now]: drain what can be drained, ignoring errors, and delete. *)
Definition dispose_now (last : option Z) : M unit :=
  modify (observe Disconnected) ;;;
  e <- get (fun c => Buffer.empty (out_ c)) ;;
  (if negb e then match last with Some n => socket_write n | None => ret 0 end else ret 0) ;;;
  modify (fun c => observe Deleted (destroy c)).

Definition dispose (last : option Z) : M unit :=
  l <- get locks_ ;;
  if l =? 0 then modify (set_locks 1) ;;; dispose_now last else modify set_dispose.

Definition lock_this : M unit := modify (fun c => set_locks (wraps 16 (locks_ c + 1)) c).

Definition unlock (last : option Z) : M unit :=
  modify (fun c => set_locks (wraps 16 (locks_ c - 1)) c) ;;;
  l <- get locks_ ;; d <- get dispose_ ;;
  if (l =? 0) && d then modify (set_locks 1) ;;; dispose_now last else ret tt.

(** *** Callbacks of the parser *)

(** Output of the program: it is written into the buffer and committed. *)
Definition output (bytes : list Z) : M unit :=
  modify (observe (Output bytes)) ;;;
  modify (fun c =>
    let '(r, b) := Buffer.prepare (Z.of_nat (length bytes)) (out_ c) in
    set_out (Buffer.commit (Z.of_nat (length bytes)) (Buffer.store r bytes b)) c).

Definition on_http_error : M unit := modify (observe Failed) ;;; output error_output.

(** A callback that fails: the error callback, and the connection is disposed. *)
Definition fail (last : option Z) : M bool := on_http_error ;;; dispose last ;;; ret false.

Definition on_message_end (last : option Z) : M bool :=
  r <- get (fun c => req_ (asm c)) ;;
  if url_ok (url_ r) then
    modify (observe (Message r)) ;;;
    output (handler r).1 ;;;
    if (handler r).2 then fail last else ret true
  else fail last.

Definition on_event (last : option Z) (e : event) : M bool :=
  a <- get asm ;;
  match callback e a with
  | None => undefined
  | Some a =>
      modify (set_asm a) ;;;
      match e with MessageEnd => on_message_end last | _ => ret true end
  end.

(** [parse]: the callbacks in order until one fails. *)
Fixpoint callbacks (last : option Z) (es : list event) : M bool :=
  match es with
  | [] => ret true
  | e :: es => ok <- on_event last e ;; if ok then callbacks last es else ret false
  end.

Definition parse (inp : io_input) : M Z :=
  ok <- callbacks (last_room inp) (p_events (report inp)) ;;
  if negb ok || p_malformed (report inp) then throw HttpExn else ret (p_consumed (report inp)).

(** *** Events *)

Definition flush_input (inp : io_input) : M unit :=
  n <- parse inp ;; modify (fun c => set_in (Buffer.consume n (in_ c)) c).

(** Five seconds later, rounded up to a second. *)
Definition timeout_at (now : Z) : Z := - (- (now + 5000000000) / 1000000000) * 1000000000.
Definition schedule_timeout (now : Z) : M unit := modify (set_tmr (timeout_at now)).

(** The reads: false when the peer has closed. *)
Fixpoint read_loop (n : nat) (rs : list read_result) : M bool :=
  match n with
  | O => ret true
  | S n =>
      r <- get (fun c => (Buffer.prepare 2944 (in_ c)).1) ;;
      modify (fun c => set_in (Buffer.prepare 2944 (in_ c)).2 c) ;;;
      match default WouldBlock (head rs) with
      | WouldBlock => ret true
      | ReadError => throw SysExn
      | Data bytes =>
          let bytes := take (Z.to_nat (Buffer.region_size r)) bytes in
          let size := Z.of_nat (length bytes) in
          if size =? 0 then ret false
          else
            modify (fun c => set_in (Buffer.commit size (Buffer.store r bytes (in_ c))) c) ;;;
            if size <? Buffer.region_size r then ret true else read_loop n (tail rs)
      end
  end.

Definition drain_input (now : Z) (inp : io_input) : M bool :=
  open <- read_loop 4 (reads inp) ;;
  flush_input inp ;;;
  if open then schedule_timeout now ;;; ret true else ret false.

Definition flush_output (inp : io_input) : M unit :=
  match room inp with
  | None => throw SysExn
  | Some n =>
      if n <=? 0 then throw SysExn
      else
        n <- socket_write n ;;
        modify (fun c => set_out (Buffer.consume n (out_ c)) c) ;;;
        e <- get (fun c => Buffer.empty (out_ c)) ;;
        blocked <- get write_blocked_ ;;
        progress <- get (fun c => in_progress_ (asm c)) ;;
        if e then
          if negb progress && negb (should_keep_alive inp) then dispose (last_room inp)
          else if blocked then modify (set_blocked false EvRead)
          else ret tt
        else if negb blocked then modify (set_blocked true (ev_add EvRead EvWrite))
        else ret tt
  end.

Definition on_io_body (now events : Z) (inp : io_input) : M unit :=
  open <- (if has events EvRead then drain_input now inp else ret true) ;;
  if negb open then dispose (last_room inp)
  else
    e <- get (fun c => Buffer.empty (out_ c)) ;;
    blocked <- get write_blocked_ ;;
    if e || (blocked && negb (has events EvWrite)) then ret tt else flush_output inp.

(** The handlers of the exceptions. *)
Definition catching (last : option Z) (m : M unit) : M unit := fun c =>
  match m c with
  | Some (c, inl HttpExn) => modify (observe Rejected) c
  | Some (c, inl SysExn) => (on_http_error ;;; dispose last) c
  | r => r
  end.

Definition on_io_event (now events : Z) (inp : io_input) : M unit :=
  lock_this ;;; catching (last_room inp) (on_io_body now events inp) ;;; unlock (last_room inp).

Definition on_timeout_timer (last : option Z) : M unit :=
  lock_this ;;; modify (observe TimedOut) ;;; dispose last ;;; unlock last.

(** *** Sessions *)

Inductive step := Io (now events : Z) (inp : io_input) | Timeout (last : option Z) | Dispose (last : option Z).

Definition run_step (s : step) : M unit :=
  match s with
  | Io now events inp => on_io_event now events inp
  | Timeout last => on_timeout_timer last
  | Dispose last => dispose last
  end.

(** Nothing happens to a connection that is deleted. *)
Fixpoint session (steps : list step) (c : Conn) : option Conn :=
  match steps with
  | [] => Some c
  | s :: steps =>
      if deleted c then Some c
      else match run_step s c with Some (c, _) => session steps c | None => None end
  end.
End conn.

(** What the constructor passes to [Reactor::poller]: it asks for the descriptor of the
    socket after it has moved from it. *)
Definition moved_from : Z := -1.

(** The constructor, for a descriptor and the poller that the reactor answers, none
    being the null pointer, which [add] goes through: subscribed for reading, with the
    idle timer. *)
Definition new_conn (now n cb : Z) (poller : option Epoll) : option Conn :=
  match poller with
  | None => None
  | Some e =>
      let '(h, e) := add_slot EvRead (Some cb) (mkHandle (mkPollFD n 0 0 None) 0) e in
      Some (mkConn 0 false false h e (timeout_at now) new_buffer new_buffer (mkAssembly NoElem clear false) false [])
  end.

(** What a poller makes of the kernel's events for the descriptor, which come with the
    data that was registered, of the idle timer, and of the program. *)
Inductive input := Ready (now mask : Z) (inp : io_input) | Expired (last : option Z) | Ended (last : option Z).

Definition deliver (i : input) (c : Conn) : list step :=
  match i with
  | Ready now mask inp =>
      let h := pfd (sub_ c) in
      match due_callback (epoll c) (mkEvent mask (pack (fd h) (sid h))) with
      | Some inv => [Io now (inv_events inv) inp]
      | None => []
      end
  | Expired last => [Timeout last]
  | Ended last => [Dispose last]
  end.

Section lifetime.
Variable url_ok : str -> bool.
Variable handler : HttpRequest -> list Z * bool.
Variable error_output : list Z.

Fixpoint polled (inputs : list input) (c : Conn) : option Conn :=
  match inputs with
  | [] => Some c
  | i :: inputs => match session url_ok handler error_output (deliver i c) c with Some c => polled inputs c | None => None end
  end.

(** A connection from its construction on: called by its io events, or by a poller. *)
Definition lifetime (now n cb : Z) (poller : option Epoll) (steps : list step) : option Conn :=
  match new_conn now n cb poller with Some c => session url_ok handler error_output steps c | None => None end.
Definition served (now n cb : Z) (poller : option Epoll) (inputs : list input) : option Conn :=
  match new_conn now n cb poller with Some c => polled inputs c | None => None end.
End lifetime.

(** ** The invariant *)

Fixpoint outputs (l : list observation) : list Z :=
  match l with [] => [] | Output bytes :: l => bytes ++ outputs l | _ :: l => outputs l end.
Fixpoint wrote (l : list observation) : list Z :=
  match l with [] => [] | Wrote bytes :: l => bytes ++ wrote l | _ :: l => wrote l end.

Lemma outputs_snoc l o : outputs (l ++ [o]) = outputs l ++ outputs [o].
Proof. induction l as [|[] l IH]; cbn; rewrite ?app_nil_r in *; try done. by rewrite IH, app_assoc. Qed.
Lemma wrote_snoc l o : wrote (l ++ [o]) = wrote l ++ wrote [o].
Proof. induction l as [|[] l IH]; cbn; rewrite ?app_nil_r in *; try done. by rewrite IH, app_assoc. Qed.

(** Unless there is more output than can be addressed, what was written and what the
    buffer holds is the output. *)
Definition flowing (c : Conn) : Prop :=
  Z.of_nat (length (outputs (log c))) < 2 ^ 63 ->
  wf (out_ c) /\ outputs (log c) = wrote (log c) ++ Buffer.str (out_ c)
  /\ vector_size (out_ c) <= Z.of_nat (length (outputs (log c))).

(** The handle asks for write events exactly when the output is blocked; the poller
    only knows of read events. *)
Definition asked (blocked : bool) : Z := if blocked then ev_add EvRead EvWrite else EvRead.
Record subscription_ok (blocked : bool) (h : PollHandle) (e : Epoll) : Prop := {
  su_fd : 0 <= fd (pfd h) < 2 ^ 31;
  su_notify : fd (pfd h) <> notify_fd e;
  su_sid : sid (pfd h) = 1;
  su_slot : is_empty (pfd h) = false;
  su_flags : flags_ h = 0;
  su_events : events (pfd h) = asked blocked;
  su_entry : data_ e !! Z.to_nat (fd (pfd h)) = Some (with_events (pfd h) EvRead)
}.
Definition subscribed (c : Conn) : Prop := subscription_ok (write_blocked_ c) (sub_ c) (epoll c).

(** After an error or a timeout the connection is to be disposed. *)
Definition doomed (c : Conn) : Prop := Failed ∈ log c \/ TimedOut ∈ log c -> dispose_ c = true.

Record alive (locks : Z) (c : Conn) : Prop := {
  al_locks : locks_ c = locks;
  al_deleted : deleted c = false;
  al_log : ~ Deleted ∈ log c;
  al_doomed : doomed c;
  al_subscribed : subscribed c;
  al_flowing : flowing c
}.

(** A computation that preserves a property, and one that keeps a live connection alive,
    with its lock. *)
Definition preserves {A} (P : Conn -> Prop) (m : M A) : Prop := forall c c' r, P c -> m c = Some (c', r) -> P c'.
Abbreviation keeps := (preserves (alive 1)).

Section preserves.
Variable P : Conn -> Prop.
Lemma preserves_bind {A B} (m : M A) (k : A -> M B) :
  preserves P m -> (forall a, preserves P (k a)) -> preserves P (bind m k).
Proof.
  intros Hm Hk c c' r Hc. unfold bind. destruct (m c) as [[c1 [e | a]]|] eqn:E; intros Hr; [| |done].
  - injection Hr as <- <-. by eapply Hm.
  - eapply Hk; [|exact Hr]. by eapply Hm.
Qed.
Lemma preserves_ret {A} (a : A) : preserves P (ret a).
Proof. by intros c c' r Hc [= <- <-]. Qed.
Lemma preserves_throw {A} e : preserves P (@throw A e).
Proof. by intros c c' r Hc [= <- <-]. Qed.
Lemma preserves_get {A} (f : Conn -> A) : preserves P (get f).
Proof. by intros c c' r Hc [= <- <-]. Qed.
Lemma preserves_undefined {A} : preserves P (@undefined A).
Proof. by intros c c' r Hc. Qed.
Lemma preserves_modify f : (forall c, P c -> P (f c)) -> preserves P (modify f).
Proof. intros Hf c c' r Hc [= <- <-]. by apply Hf. Qed.
End preserves.

Create HintDb conn.
#[local] Hint Resolve preserves_ret preserves_throw preserves_get preserves_undefined : conn.

(** Observations that have no part in the invariant. *)
Definition plain (o : observation) : Prop :=
  match o with Message _ | Disconnected | Rejected => True | _ => False end.

Lemma log_snoc (o o' : observation) l : o' <> o -> o' ∈ l ++ [o] -> o' ∈ l.
Proof. intros Hne Hin. apply elem_of_app in Hin as [? | Hin]; [done|]. by apply list_elem_of_singleton in Hin. Qed.

Lemma alive_plain o c n : plain o -> alive n c -> alive n (observe o c).
Proof.
  intros Ho [Hl Hd Hlog Hdoom Hsub Hfl].
  assert (o <> Deleted /\ o <> Failed /\ o <> TimedOut /\ outputs [o] = [] /\ wrote [o] = [])
    as (H1 & H2 & H3 & H4 & H5) by (by destruct o).
  split; cbn; [done | done | | | done |].
  - intros Hin. apply Hlog. by apply (log_snoc o).
  - intros [Hin | Hin]; apply Hdoom; [left | right]; by apply (log_snoc o).
  - unfold flowing. cbn [log out_ observe]. by rewrite outputs_snoc, wrote_snoc, H4, H5, !app_nil_r.
Qed.

Lemma alive_set_in b c n : alive n c -> alive n (set_in b c).
Proof. by intros []. Qed.
Lemma alive_set_asm a c n : alive n c -> alive n (set_asm a c).
Proof. by intros []. Qed.
Lemma alive_set_tmr t c n : alive n c -> alive n (set_tmr t c).
Proof. by intros []. Qed.
Lemma alive_set_dispose c n : alive n c -> alive n (set_dispose c).
Proof. intros []. by split. Qed.
Lemma alive_set_blocked b c n :
  alive n c -> alive n (set_blocked b (asked b) c).
Proof. intros [? ? ? ? Hs ?]. split; try done. by destruct Hs. Qed.

(** *** Output *)

Lemma output_keeps n bytes c c' r : alive n c -> output bytes c = Some (c', r) -> alive n c'.
Proof.
  intros [Hl Hd Hlog Hdoom Hsub Hfl]. unfold output, bind, modify. cbn [out_ observe].
  destruct (Buffer.prepare _ _) as [rg b] eqn:Ep. intros [= <- <-]. split; cbn; [done | done | | | done |].
  - intros Hin. apply Hlog. by apply (log_snoc (Output bytes)).
  - intros [Hin | Hin]; apply Hdoom; [left | right]; by apply (log_snoc (Output bytes)).
  - unfold flowing. cbn [log out_ observe set_out]. rewrite outputs_snoc, wrote_snoc. cbn [outputs wrote].
    rewrite !app_nil_r, length_app. intros Hmax. destruct (Hfl ltac:(lia)) as (Hwf & Hout & Hsz).
    pose proof (prepare_facts (Z.of_nat (length bytes)) (out_ c) Hwf ltac:(lia) ltac:(lia)) as Hp.
    rewrite Ep in Hp. destruct Hp as (Hwf1 & Hstr1 & _ & Hwp & Hdt & Hreg & Hend & Hvs).
    destruct (store_commit_facts rg bytes b Hwf1) as (Hwf2 & Hstr2 & Hvs2); [lia | lia |].
    split; [done|]. rewrite Hstr2, Hstr1, Hout, Hvs2, Hvs, app_assoc. split; [done|].
    rewrite <- Hout. destruct Hwf. lia.
Qed.

Lemma keeps_output bytes : keeps (output bytes).
Proof. intros c c' r. apply output_keeps. Qed.

(** What has room is written from the front. *)
Lemma alive_write n room c : 0 < room -> alive n c ->
  let k := Z.min room (Z.of_nat (length (Buffer.str (out_ c)))) in
  alive n (set_out (Buffer.consume k (out_ c)) (observe (Wrote (take (Z.to_nat k) (Buffer.str (out_ c)))) c)).
Proof.
  intros Hroom [Hl Hd Hlog Hdoom Hsub Hfl] k. split; cbn; [done | done | | | done |].
  - intros Hin. apply Hlog. eapply log_snoc; [|exact Hin]. done.
  - intros [Hin | Hin]; apply Hdoom; [left | right]; (eapply log_snoc; [|exact Hin]); done.
  - unfold flowing. cbn [log out_ observe set_out]. rewrite outputs_snoc, wrote_snoc. cbn [outputs wrote].
    rewrite !app_nil_r. intros Hmax. destruct (Hfl Hmax) as (Hwf & Hout & Hsz).
    pose proof (str_length (out_ c) Hwf). destruct (consume_facts k (out_ c) Hwf) as (Hwf' & Hstr' & Hvs' & _);
      [unfold k; lia|].
    split; [done|]. rewrite Hstr', Hvs'. split; [|done]. by rewrite <- app_assoc, take_drop.
Qed.

(** *** Errors and disposal while the lock is held *)

Lemma dispose_locked last c : locks_ c = 1 -> dispose last c = Some (set_dispose c, inr tt).
Proof. intros Hl. unfold dispose, bind, get, modify. by rewrite Hl. Qed.

Lemma keeps_dispose last : keeps (dispose last).
Proof.
  intros c c' r Hc. rewrite dispose_locked by apply Hc. intros [= <- <-]. by apply alive_set_dispose.
Qed.

Lemma doomed_observe o c n : o = Failed \/ o = TimedOut -> alive n c -> alive n (set_dispose (observe o c)).
Proof.
  intros Ho [Hl Hd Hlog Hdoom Hsub Hfl]. split; cbn; [done | done | | done | done |].
  - intros Hin. apply Hlog. eapply log_snoc; [|exact Hin]. by destruct Ho as [-> | ->].
  - unfold flowing. cbn [log out_ observe set_dispose]. rewrite outputs_snoc, wrote_snoc.
    destruct Ho as [-> | ->]; cbn [outputs wrote]; by rewrite !app_nil_r.
Qed.

Lemma error_then_dispose error_output last c c' r : alive 1 c ->
  (on_http_error error_output ;;; dispose last) c = Some (c', r) -> alive 1 c' /\ dispose_ c' = true /\ r = inr tt.
Proof.
  intros Hc. unfold on_http_error. unfold bind at 1 2. unfold modify at 1. cbn beta iota.
  destruct (output error_output (observe Failed c)) as [[c1 r1]|] eqn:E; [|done].
  assert (output error_output (set_dispose (observe Failed c)) = Some (set_dispose c1, inr tt)
    /\ r1 = inr tt /\ locks_ c1 = locks_ c) as (E' & -> & Hl).
  { unfold output, bind, modify in *. cbn [out_ observe set_dispose] in *. destruct (Buffer.prepare _ _) as [rg b].
    injection E as <- <-. by split. }
  rewrite dispose_locked by (rewrite Hl; apply Hc). intros [= <- <-].
  split; [|done]. eapply output_keeps; [|exact E']. apply doomed_observe; [by left | done].
Qed.

Lemma keeps_fail error_output last : keeps (fail error_output last).
Proof.
  intros c c' r Hc. unfold fail. intros Hr.
  assert (exists r', (on_http_error error_output ;;; dispose last) c = Some (c', r')) as [r' Hr'].
  { unfold bind in *. destruct (on_http_error _ c) as [[c1 [e | []]]|]; [by injection Hr as <- <-; eauto | | done].
    destruct (dispose last c1) as [[c2 [e | []]]|]; [by injection Hr as <- <-; eauto | | done].
    injection Hr as <- <-. eauto. }
  by apply (error_then_dispose _ _ _ _ _ Hc Hr').
Qed.

#[local] Hint Resolve keeps_output keeps_dispose keeps_fail : conn.

Section keeps.
Variable url_ok : str -> bool.
Variable handler : HttpRequest -> list Z * bool.
Variable error_output : list Z.

(** Reading and parsing preserve what its parts preserve. *)
Section drain.
Variable P : Conn -> Prop.
Hypothesis P_asm : forall a c, P c -> P (set_asm a c).
Hypothesis P_in : forall b c, P c -> P (set_in b c).
Hypothesis P_tmr : forall t c, P c -> P (set_tmr t c).
Hypothesis P_message : forall r c, P c -> P (observe (Message r) c).
Hypothesis P_output : forall bytes, preserves P (output bytes).
Hypothesis P_fail : forall last, preserves P (fail error_output last).
#[local] Hint Resolve P_output P_fail : conn.

Lemma callbacks_preserves last es : preserves P (callbacks url_ok handler error_output last es).
Proof.
  induction es as [|e es IH]; cbn [callbacks]; [auto with conn|].
  apply preserves_bind; [|by intros []; auto with conn].
  unfold on_event. apply preserves_bind; [auto with conn|]. intros a. destruct (callback e a) as [a'|]; [|auto with conn].
  apply preserves_bind; [apply preserves_modify; auto|]. intros _.
  destruct e; auto with conn. unfold on_message_end. apply preserves_bind; [auto with conn|]. intros r.
  destruct (url_ok _); [|auto with conn].
  apply preserves_bind; [apply preserves_modify; auto|]. intros _.
  apply preserves_bind; [auto with conn|]. intros _. destruct (handler r).2; auto with conn.
Qed.

Lemma read_loop_preserves n rs : preserves P (read_loop n rs).
Proof.
  revert rs. induction n as [|n IH]; intros rs; cbn [read_loop]; [auto with conn|].
  apply preserves_bind; [auto with conn|]. intros rg. apply preserves_bind; [apply preserves_modify; auto|].
  intros _. destruct (default _ _) as [bytes | |]; [|auto with conn..]. cbv zeta.
  destruct (_ =? 0); [auto with conn|].
  apply preserves_bind; [apply preserves_modify; auto|]. intros _. destruct (_ <? _); auto with conn.
Qed.

Lemma drain_input_preserves now inp : preserves P (drain_input url_ok handler error_output now inp).
Proof.
  unfold drain_input. apply preserves_bind; [apply read_loop_preserves|].
  intros open. apply preserves_bind; [|intros _; destruct open; [|auto with conn]; apply preserves_bind; [|auto with conn];
    apply preserves_modify; auto].
  unfold flush_input, parse. apply preserves_bind; [|intros; apply preserves_modify; auto].
  apply preserves_bind; [apply callbacks_preserves|]. intros ok. destruct (_ || _); auto with conn.
Qed.
End drain.

Lemma keeps_drain_input now inp : keeps (drain_input url_ok handler error_output now inp).
Proof.
  apply drain_input_preserves; auto using alive_set_asm, alive_set_in, alive_set_tmr, keeps_output, keeps_fail.
  intros. by apply alive_plain.
Qed.

(** After the output is flushed, it is blocked when some is left. *)
Definition settled (c : Conn) : Prop :=
  dispose_ c = true \/ Buffer.empty (out_ c) = true \/ write_blocked_ c = true.

Lemma flush_output_ok inp c c' r : alive 1 c -> flush_output inp c = Some (c', r) ->
  alive 1 c' /\ (r = inr tt -> settled c').
Proof.
  intros Hc. unfold flush_output. destruct (room inp) as [n|]; [|intros [= <- <-]; by split].
  destruct (Z.leb_spec n 0); [intros [= <- <-]; by split|].
  unfold socket_write, bind, get, modify, ret. cbn beta iota zeta.
  pose proof (alive_write 1 n c ltac:(lia) Hc) as Hw. cbv zeta in Hw.
  set (c1 := set_out _ _) in *. cbn [out_ observe] in *. fold c1.
  destruct (empty (out_ c1)) eqn:Ee.
  - destruct (_ && _).
    + rewrite dispose_locked by apply Hw. intros [= <- <-]. split; [by apply alive_set_dispose|]. intros _. by left.
    + assert (settled c1) by (right; by left).
      destruct (write_blocked_ c1); intros [= <- <-]; [|by split].
      split; [by apply (alive_set_blocked false)|]. intros _. right. by left.
  - destruct (write_blocked_ c1) eqn:Eb; intros [= <- <-].
    + split; [done|]. intros _. right. by right.
    + split; [by apply (alive_set_blocked true)|]. intros _. right. by right.
Qed.

Lemma on_io_body_ok now events inp c c' r : alive 1 c ->
  on_io_body url_ok handler error_output now events inp c = Some (c', r) ->
  alive 1 c' /\ (r = inr tt -> settled c').
Proof.
  intros Hc. unfold on_io_body.
  set (m := if has events EvRead then _ else _).
  assert (keeps m) as Hk.
  { unfold m. destruct (has events EvRead); [apply keeps_drain_input | auto with conn]. }
  intros Hr. unfold bind at 1 in Hr.
  destruct (m c) as [[c1 [e | open]]|] eqn:E; [injection Hr as <- <- | |done].
  { split; [by eapply Hk|done]. }
  apply Hk in E; [|done]. destruct open; cbn [negb] in Hr.
  - unfold bind, get in Hr. destruct (empty (out_ c1) || _) eqn:Ee.
    + injection Hr as <- <-. split; [done|]. intros _. apply orb_true_iff in Ee as [Ee | Ee]; [right; by left|].
      apply andb_true_iff in Ee as [Ee _]. right. by right.
    + by eapply flush_output_ok.
  - rewrite dispose_locked in Hr by apply E. injection Hr as <- <-. split; [by apply alive_set_dispose|].
    intros _. by left.
Qed.

Lemma catching_ok now events inp c c' r : alive 1 c ->
  catching error_output (last_room inp) (on_io_body url_ok handler error_output now events inp) c = Some (c', r) ->
  alive 1 c' /\ r = inr tt /\ (settled c' \/ Rejected ∈ log c').
Proof.
  intros Hc. unfold catching. destruct (on_io_body _ _ _ _ _ _ c) as [[c1 r1]|] eqn:E; [|done].
  apply on_io_body_ok in E as [H1 Hset]; [|done]. destruct r1 as [[|] | []].
  - intros [= <- <-]. split; [by apply alive_plain|]. split; [done|]. right. cbn. apply elem_of_app. right.
    by apply list_elem_of_singleton.
  - intros Hr. apply error_then_dispose in Hr as (H2 & Hd & ->); [|done]. split; [done|]. split; [done|].
    left. by left.
  - intros [= <- <-]. split; [done|]. split; [done|]. left. by apply Hset.
Qed.

(** *** The end of a handler *)

(** A connection that deleted itself: nothing was observed after that, and what was
    written is the beginning of the output. *)
Definition finished (c : Conn) : Prop :=
  deleted c = true /\ exists l, log c = l ++ [Deleted] /\ ~ Deleted ∈ l
    /\ (Z.of_nat (length (outputs l)) < 2 ^ 63 -> exists rest, outputs l = wrote l ++ rest).

Lemma dispose_now_ok n last c c' r : alive n c -> dispose_now last (set_locks 1 c) = Some (c', r) ->
  finished c' /\ r = inr tt.
Proof.
  intros [Hl Hd Hlog Hdoom Hsub Hfl] Hr.
  assert (exists mid b rest, log c' = (log c ++ mid) ++ [Deleted] /\ deleted c' = true /\ r = inr tt
    /\ outputs (log c ++ mid) = outputs (log c) /\ wrote (log c ++ mid) = wrote (log c) ++ b
    /\ Buffer.str (out_ c) = b ++ rest /\ ~ Deleted ∈ mid) as (mid & b & rest & E & ? & -> & Ho & Hw & Hs & Hmid).
  { unfold dispose_now, socket_write, bind, modify, get, ret in Hr. cbn [out_ observe set_locks] in Hr.
    destruct (negb (empty (out_ c))); [destruct last as [room|]|]; cbn beta iota zeta in Hr; injection Hr as <- <-;
      cbn [log observe destroy set_sub set_deleted set_locks deleted].
    - set (b := take _ _). exists [Disconnected; Wrote b], b, (drop (Z.to_nat (Z.min room (Z.of_nat (length (Buffer.str (out_ c)))))) (Buffer.str (out_ c))).
      change [Disconnected; Wrote b] with ([Disconnected] ++ [Wrote b]). rewrite (app_assoc (log c)), !outputs_snoc, !wrote_snoc. cbn [outputs wrote]. rewrite !app_nil_r.
      repeat split; try done; [unfold b; by rewrite take_drop|]. by cbn; intros [? | [? | ?%elem_of_nil]%elem_of_cons]%elem_of_cons.
    - exists [Disconnected], [], (Buffer.str (out_ c)). rewrite outputs_snoc, wrote_snoc. cbn [outputs wrote]. rewrite !app_nil_r.
      repeat split; try done. by intros [? | ?%elem_of_nil]%elem_of_cons.
    - exists [Disconnected], [], (Buffer.str (out_ c)). rewrite outputs_snoc, wrote_snoc. cbn [outputs wrote]. rewrite !app_nil_r.
      repeat split; try done. by intros [? | ?%elem_of_nil]%elem_of_cons. }
  split; [|done]. split; [done|]. exists (log c ++ mid). split; [exact E|]. split.
  - by intros [? | ?]%elem_of_app.
  - rewrite Ho, Hw. intros Hmax. destruct (Hfl Hmax) as (_ & -> & _). exists rest. by rewrite Hs, app_assoc.
Qed.

Lemma lock_ok c c' r : alive 0 c -> lock_this c = Some (c', r) -> alive 1 c' /\ r = inr tt.
Proof.
  intros [Hl Hd Hlog Hdoom Hsub Hfl] [= <- <-]. split; [|done]. by split; cbn; [rewrite Hl|..].
Qed.

Lemma unlock_ok last c c' r : alive 1 c -> unlock last c = Some (c', r) ->
  finished c' \/ (alive 0 c' /\ dispose_ c = false /\ c' = set_locks 0 c).
Proof.
  intros Hc. unfold unlock. unfold bind at 1 2 3, modify at 1, get at 1 2. cbn beta iota.
  cbn [locks_ dispose_ set_locks]. rewrite (al_locks _ _ Hc). change (wraps 16 (1 - 1)) with 0. cbn [Z.eqb andb].
  destruct (dispose_ c) eqn:Ed.
  - unfold bind, modify. intros Hr. left.
    apply (dispose_now_ok 0 last (set_locks 0 c) c' r); [|exact Hr]. by destruct Hc.
  - intros [= <- <-]. right. split; [by destruct Hc | done].
Qed.

(** Between events: deleted, or unlocked, and the output is blocked when some is left,
    unless an exception of the parser was swallowed. *)
Definition resting (c : Conn) : Prop :=
  finished c \/ (alive 0 c /\ dispose_ c = false /\ (settled c \/ Rejected ∈ log c)).

Lemma run_step_ok s c c' r : alive 0 c ->
  run_step url_ok handler error_output s c = Some (c', r) -> resting c'.
Proof.
  intros Hc Hr. destruct s as [now events inp | last | last]; cbn [run_step] in Hr.
  - unfold on_io_event, bind at 1 in Hr. destruct (lock_this c) as [[c1 r1]|] eqn:E1; [|done].
    apply lock_ok in E1 as [H1 ->]; [|done]. unfold bind at 1 in Hr.
    destruct (catching _ _ _ c1) as [[c2 r2]|] eqn:E2; [|done].
    apply catching_ok in E2 as (H2 & -> & Hset); [|done].
    apply unlock_ok in Hr as [? | (? & Hd & ->)]; [by left | | done].
    right. split; [done|]. split; [exact Hd|]. by destruct Hset as [[? | [? | ?]] | ?]; [left; left | left; right; left | left; right; right | right].
  - unfold on_timeout_timer, bind at 1 in Hr. destruct (lock_this c) as [[c1 r1]|] eqn:E1; [|done].
    apply lock_ok in E1 as [H1 ->]; [|done]. unfold bind at 1, modify at 1 in Hr. cbn beta iota in Hr.
    unfold bind at 1 in Hr. rewrite dispose_locked in Hr by apply H1.
    apply unlock_ok in Hr as [? | (? & Hd & _)]; [by left | done | apply doomed_observe; [by right | done]].
  - unfold dispose, bind, get in Hr. rewrite (al_locks _ _ Hc) in Hr. cbn [Z.eqb] in Hr. left.
    by apply (dispose_now_ok 0 last c c' r).
Qed.

Lemma conn_session_ok steps c c' : resting c -> session url_ok handler error_output steps c = Some c' -> resting c'.
Proof.
  revert c. induction steps as [|s steps IH]; intros c Hc; cbn [session]; [by intros [= <-]|].
  destruct (deleted c) eqn:Ed; [by intros [= <-]|]. destruct Hc as [[? _] | [Hc _]]; [by rewrite Ed in *|].
  destruct (run_step _ _ _ s c) as [[c1 r]|] eqn:E; [|done]. apply IH. by eapply run_step_ok.
Qed.
End keeps.

(** A descriptor that is not one of the poller's own and that nothing is subscribed to. *)
Definition connectable (n : Z) (e : Epoll) : Prop :=
  0 <= n < 2 ^ 31 /\ n <> notify_fd e /\ entry e n = None.

Lemma new_conn_resting now n cb e : connectable n e ->
  exists c, new_conn now n cb (Some e) = Some c /\ resting c /\ locks_ c = 0 /\ deleted c = false
    /\ asm c = mkAssembly NoElem clear false /\ fd (pfd (sub_ c)) = n.
Proof.
  intros (Hn & Hne & He). unfold new_conn, add_slot, slot_eqb, commit, ctl. cbn [pfd slot events flags_ set_pfd].
  rewrite bool_decide_eq_false_2 by done. cbn [negb orb with_events with_slot is_empty slot fd sid events ev_add].
  rewrite wrapu_small by lia. cbn -[EvRead].
  set (d := if (length (data_ e) <=? Z.to_nat n)%nat then _ else _).
  assert ((Z.to_nat n < length d)%nat /\ is_empty (nth (Z.to_nat n) d default_pollfd) = true) as [Hlen Hemp].
  { unfold entry in He. unfold d. destruct (Nat.leb_spec (length (data_ e)) (Z.to_nat n)); split.
    - rewrite length_grow. lia.
    - destruct (grow (data_ e) (S (Z.to_nat n)) !! Z.to_nat n) as [p|] eqn:Ep.
      + rewrite (nth_lookup_Some _ _ _ _ Ep). rewrite lookup_grow in Ep.
        rewrite lookup_ge_None_2 in Ep by done. case_decide; [|done]. by injection Ep as <-.
      + rewrite nth_lookup, Ep. done.
    - done.
    - rewrite nth_lookup. destruct (data_ e !! _) as [p|]; [|done]. cbn. by destruct (is_empty p). }
  rewrite Hemp. cbn -[EvRead]. eexists. split; [reflexivity|]. split_and!; try done.
  right. split; [|split; [done | left; by right; left]]. split; try done.
  - by intros ?%elem_of_nil.
  - by intros [?%elem_of_nil | ?%elem_of_nil].
  - split; cbn; try done. apply list_lookup_insert_eq. exact Hlen.
Qed.

(** *** The computations are defined *)

(** The parser reports the events of a message in order: the value of a header after
    its name, and a value for every name. *)
Inductive phase := NoHeader | InField | InValue.

Definition next (e : event) (p : phase) : option phase :=
  match e with
  | MessageBegin => match p with InField => None | _ => Some NoHeader end
  | HeaderField _ => Some InField
  | HeaderValue _ => match p with NoHeader => None | _ => Some InValue end
  | _ => Some p
  end.

Fixpoint legal (p : phase) (es : list event) : option phase :=
  match es with [] => Some p | e :: es => p ← next e p; legal p es end.

(** What the parser reports in a session: it is called for what was read. *)
Definition step_events (s : step) : list event :=
  match s with Io _ events inp => if has events EvRead then p_events (report inp) else [] | _ => [] end.

Definition fits (p : phase) (a : assembly) : Prop :=
  match p with
  | NoHeader => last_header_elem_ a <> Field
  | InField => headers_ (req_ a) <> []
  | InValue => headers_ (req_ a) <> [] /\ last_header_elem_ a <> Field
  end.

Lemma on_back_defined f r : headers_ r <> [] -> exists r', on_back f r = Some r' /\ headers_ r' <> [].
Proof.
  intros Hne. unfold on_back. destruct (last (headers_ r)) as [h|] eqn:E; [|by apply last_None in E].
  eexists. split; [done|]. cbn. by destruct (removelast _).
Qed.

Lemma callback_fits e a p p' : fits p a -> next e p = Some p' -> exists a', callback e a = Some a' /\ fits p' a'.
Proof.
  intros Hf Hn. destruct e; cbn in Hn |- *; try (injection Hn as <-; eexists; split; [done|]; by destruct p).
  - destruct p; [| done |]; injection Hn as <-; eexists; (split; [done|]); cbn in *; tauto.
  - injection Hn as <-. unfold append_header_field. case_bool_decide as Hl; cbn.
    + eexists. split; [done|]. cbn. by destruct (headers_ (req_ a)).
    + destruct (on_back_defined (fun h => (h.1 ++ sv, h.2)) (req_ a)) as (r' & -> & ?); [|by eexists].
      destruct p; cbn in Hf; tauto.
  - destruct p; [done| |]; injection Hn as <-; unfold append_header_value;
      (destruct (on_back_defined (fun h => (h.1, h.2 ++ sv)) (req_ a)) as (r' & -> & ?); [by apply Hf || by destruct Hf|]);
      by eexists.
Qed.

(** While the lock is held, an assembly that fits the phase, or a connection that is
    to be disposed. *)
Definition locked (p : phase) (c : Conn) : Prop := locks_ c = 1 /\ (dispose_ c = true \/ fits p (asm c)).

(** A computation that is defined, with such a connection at the end. *)
Definition runs {A} (I : Conn -> Prop) (p : phase) (m : M A) : Prop :=
  forall c, I c -> exists c' r, m c = Some (c', r) /\ locks_ c' = 1 /\ (r = inl SysExn \/ locked p c').

Lemma runs_bind {A B} I p (m : M A) (k : A -> M B) : runs I p m -> (forall a, runs (locked p) p (k a)) ->
  runs I p (bind m k).
Proof.
  intros Hm Hk c Hc. unfold bind. destruct (Hm c Hc) as (c1 & [e | a] & -> & Hl & Hp).
  - exists c1, (inl e). split; [done|]. split; [done|]. by destruct Hp as [[= ->] | ?]; [left | right].
  - apply Hk. by destruct Hp.
Qed.
Lemma runs_done {A} p (r : exn + A) (f : Conn -> exn + A) g :
  (forall c, locks_ (g c) = locks_ c /\ dispose_ (g c) = dispose_ c /\ asm (g c) = asm c) ->
  runs (locked p) p (fun c => Some (g c, f c)).
Proof.
  intros Hg c Hc. exists (g c), (f c). destruct (Hg c) as (E1 & E2 & E3). destruct Hc as [Hl Hp].
  split; [done|]. unfold locked. rewrite E1, E2, E3. by repeat split; [|right; split].
Qed.
Lemma runs_modify p g : (forall c, locks_ (g c) = locks_ c /\ dispose_ (g c) = dispose_ c /\ asm (g c) = asm c) ->
  runs (locked p) p (modify g).
Proof. apply (runs_done p (inr tt) (fun _ => inr tt)). Qed.
Lemma runs_get {A} p (f : Conn -> A) : runs (locked p) p (get f).
Proof. intros c Hc. exists c, (inr (f c)). split; [done|]. split; [by apply Hc | by right]. Qed.
Lemma runs_ret {A} p (a : A) : runs (locked p) p (ret a).
Proof. apply (runs_get p (fun _ => a)). Qed.
Lemma runs_throw {A} p e : runs (locked p) p (@throw A e).
Proof. intros c Hc. exists c, (inl e). split; [done|]. split; [by apply Hc | by right]. Qed.

Lemma runs_output p bytes : runs (locked p) p (output bytes).
Proof.
  unfold output. apply runs_bind; [by apply runs_modify|]. intros _. apply runs_modify. intros c.
  by destruct (prepare _ _).
Qed.
Lemma runs_dispose p q last : runs (locked p) q (dispose last).
Proof.
  intros c [Hl _]. rewrite dispose_locked by done. exists (set_dispose c), (inr tt).
  split; [done|]. split; [done|]. right. split; [done | by left].
Qed.
#[local] Hint Resolve runs_get runs_ret runs_throw runs_output runs_dispose : conn.
#[local] Hint Extern 1 (runs _ _ (modify _)) => by apply runs_modify : conn.
#[local] Hint Extern 2 (runs _ _ (bind _ _)) => apply runs_bind; intros : conn.
#[local] Hint Extern 2 (runs _ _ (if ?b then _ else _)) => destruct b : conn.

(** An error of the program, whatever the events that were to come. *)
Lemma error_computes error_output last c : locks_ c = 1 ->
  exists c', (on_http_error error_output ;;; dispose last) c = Some (c', inr tt) /\ locks_ c' = 1 /\ dispose_ c' = true.
Proof.
  intros Hl. unfold on_http_error, output, bind, modify. cbn beta iota. cbn [out_ observe].
  destruct (prepare _ _) as [rg b]. rewrite dispose_locked by done. by eexists.
Qed.
Lemma fail_computes error_output last c : locks_ c = 1 ->
  exists c', fail error_output last c = Some (c', inr false) /\ locks_ c' = 1 /\ dispose_ c' = true.
Proof.
  intros Hl. unfold fail, on_http_error, output, bind, modify. cbn beta iota. cbn [out_ observe].
  destruct (prepare _ _) as [rg b]. rewrite dispose_locked by done. by eexists.
Qed.

Section runs.
Variable url_ok : str -> bool.
Variable handler : HttpRequest -> list Z * bool.
Variable error_output : list Z.

(** The callbacks are defined; when none failed the assembly fits. *)
Definition outcome (p : phase) (c' : Conn) (ok : bool) : Prop :=
  locks_ c' = 1 /\ if ok then fits p (asm c') else dispose_ c' = true.

Lemma on_message_end_runs p last c : locks_ c = 1 -> fits p (asm c) ->
  exists c' ok, on_message_end url_ok handler error_output last c = Some (c', inr ok) /\ outcome p c' ok.
Proof.
  intros Hl Hf. unfold on_message_end. unfold bind at 1, get at 1. destruct (url_ok _).
  - unfold bind at 1, modify at 1. cbn beta iota. unfold bind at 1.
    assert (exists c2, output (handler (req_ (asm c))).1 (observe (Message (req_ (asm c))) c) = Some (c2, inr tt)
      /\ locks_ c2 = 1 /\ fits p (asm c2)) as (c2 & -> & Hl2 & Hf2).
    { unfold output, bind, modify. cbn beta iota. cbn [out_ observe]. destruct (prepare _ _). by eexists. }
    destruct (handler _).2; [|by exists c2, true].
    destruct (fail_computes error_output last c2 Hl2) as (c3 & -> & ? & ?). by exists c3, false.
  - destruct (fail_computes error_output last c Hl) as (c3 & -> & ? & ?). by exists c3, false.
Qed.

Lemma callbacks_runs p p' last es c : legal p es = Some p' -> locks_ c = 1 -> fits p (asm c) ->
  exists c' ok, callbacks url_ok handler error_output last es c = Some (c', inr ok) /\ outcome p' c' ok.
Proof.
  revert p c. induction es as [|e es IH]; intros p c Hleg Hl Hf; cbn [legal callbacks] in *.
  - injection Hleg as <-. by exists c, true.
  - destruct (next e p) as [q|] eqn:En; [|done]. cbn in Hleg.
    destruct (callback_fits e (asm c) p q Hf En) as (a & Ea & Ha).
    unfold bind at 1, on_event at 1. unfold bind at 1, get at 1. rewrite Ea. unfold bind at 1, modify at 1. cbn beta iota.
    assert (exists c1 ok, match e with
      | MessageEnd => on_message_end url_ok handler error_output last | _ => ret true end (set_asm a c) = Some (c1, inr ok)
      /\ outcome q c1 ok) as (c1 & ok & -> & Hl1 & Hok).
    { destruct e; try (by eexists _, true). by apply on_message_end_runs. }
    destruct ok; [by apply (IH q) | by exists c1, false].
Qed.

Lemma flush_input_runs p p' inp c : legal p (p_events (report inp)) = Some p' -> locks_ c = 1 -> fits p (asm c) ->
  exists c' r, flush_input url_ok handler error_output inp c = Some (c', r) /\ locked p' c'.
Proof.
  intros Hleg Hl Hf. unfold flush_input, parse. unfold bind at 1 2.
  destruct (callbacks_runs p p' (last_room inp) _ c Hleg Hl Hf) as (c' & ok & -> & Hl' & Hok).
  assert (locked p' c') as Hc by (split; [done|]; destruct ok; [by right | by left]).
  destruct (negb ok || _); eexists _, _; (split; [reflexivity|]); done.
Qed.

Lemma read_loop_runs n rs c : exists c' r, read_loop n rs c = Some (c', r) /\ locks_ c' = locks_ c /\ asm c' = asm c
  /\ (forall e, r = inl e -> e = SysExn).
Proof.
  revert rs c. induction n as [|n IH]; intros rs c; cbn [read_loop]; [by eexists _, (inr true)|].
  unfold bind, get, modify. destruct (default _ _) as [bytes | |]; cbn beta iota zeta.
  - destruct (_ =? 0); [by eexists _, (inr false)|]. destruct (_ <? _); [by eexists _, (inr true)|].
    match goal with |- context [read_loop n ?rs' ?c'] => destruct (IH rs' c') as (c1 & r & -> & ?) end.
    by eexists c1, r.
  - by eexists _, (inr true).
  - eexists _, (inl SysExn). split; [done|]. split; [done|]. split; [done|]. by intros e [= ->].
Qed.

Lemma drain_input_runs p p' now inp : legal p (p_events (report inp)) = Some p' ->
  runs (fun c => locks_ c = 1 /\ fits p (asm c)) p' (drain_input url_ok handler error_output now inp).
Proof.
  intros Hleg c [Hl Hf]. unfold drain_input. unfold bind at 1.
  destruct (read_loop_runs 4 (reads inp) c) as (c1 & r & -> & Hl1 & Ha1 & He). destruct r as [e | open].
  { exists c1, (inl e). split; [done|]. split; [congruence|]. left. by rewrite (He e). }
  unfold bind at 1. destruct (flush_input_runs p p' inp c1 Hleg) as (c2 & r & -> & H2); [congruence.. |].
  destruct r as [e | []]; [exists c2, (inl e); split; [done|]; split; [by apply H2 | by right]|].
  destruct open; eexists _, _; (split; [reflexivity|]); (split; [by apply H2 | by right]).
Qed.

Lemma flush_output_runs p inp : runs (locked p) p (flush_output inp).
Proof.
  unfold flush_output, socket_write. destruct (room inp); [|auto with conn]. destruct (_ <=? 0); auto 30 with conn.
Qed.

Lemma on_io_body_runs p p' now events inp :
  legal p (if has events EvRead then p_events (report inp) else []) = Some p' ->
  runs (fun c => locks_ c = 1 /\ fits p (asm c)) p' (on_io_body url_ok handler error_output now events inp).
Proof.
  intros Hleg. unfold on_io_body. apply runs_bind.
  - destruct (has events EvRead); [by apply (drain_input_runs p)|]. injection Hleg as <-. intros c [Hl Hf].
    apply runs_ret. split; [done | by right].
  - intros open. destruct (negb open); [auto with conn|]. apply runs_bind; [auto with conn|]. intros e.
    apply runs_bind; [auto with conn|]. intros b. destruct (e || _); [auto with conn | apply flush_output_runs].
Qed.

Lemma catching_runs p p' now events inp c :
  legal p (if has events EvRead then p_events (report inp) else []) = Some p' ->
  locks_ c = 1 -> fits p (asm c) ->
  exists c', catching error_output (last_room inp) (on_io_body url_ok handler error_output now events inp) c
    = Some (c', inr tt) /\ locked p' c'.
Proof.
  intros Hleg Hlc Hfc. assert (locks_ c = 1 /\ fits p (asm c)) as Hc by done. unfold catching.
  destruct (on_io_body_runs p p' now events inp Hleg c Hc) as (c1 & r & -> & Hl & Hp).
  destruct r as [[|] | []].
  - destruct Hp as [[=] | Hp]. by exists (observe Rejected c1).
  - destruct (error_computes error_output (last_room inp) c1 Hl) as (c2 & E & Hl2 & Hd2). exists c2.
    split; [done|]. split; [done | by left].
  - exists c1. split; [done|]. by destruct Hp.
Qed.

Lemma unlock_runs p last c : locked p c ->
  exists c' r, unlock last c = Some (c', r) /\ (deleted c' = true \/ fits p (asm c')).
Proof.
  intros [Hl Hp]. unfold unlock. unfold bind at 1 2 3, modify at 1, get at 1 2. cbn beta iota.
  cbn [locks_ dispose_ set_locks]. rewrite Hl. change (wraps 16 (1 - 1)) with 0. cbn [Z.eqb andb].
  destruct (dispose_ c); [|eexists _, _; split; [reflexivity|]; right; by destruct Hp].
  unfold dispose_now, socket_write, bind, modify, get, ret. cbn beta iota zeta.
  destruct (negb _); [destruct last|]; eexists _, _; (split; [reflexivity | by left]).
Qed.

Lemma run_step_runs p p' s c : locks_ c = 0 -> fits p (asm c) -> legal p (step_events s) = Some p' ->
  exists c' r, run_step url_ok handler error_output s c = Some (c', r) /\ (deleted c' = true \/ fits p' (asm c')).
Proof.
  intros Hl Hf Hleg. destruct s as [now events inp | last | last]; cbn [run_step step_events] in *.
  - unfold on_io_event, bind at 1, lock_this, modify. rewrite Hl. change (wraps 16 (0 + 1)) with 1. unfold bind at 1.
    destruct (catching_runs p p' now events inp (set_locks 1 c) Hleg) as (c1 & -> & Hp); [done..|]. by apply unlock_runs.
  - injection Hleg as <-. unfold on_timeout_timer, bind at 1, lock_this, modify. rewrite Hl. change (wraps 16 (0 + 1)) with 1.
    unfold bind at 1 2. rewrite dispose_locked by done. apply unlock_runs. split; [done | by left].
  - unfold dispose, bind at 1, get. rewrite Hl. cbn [Z.eqb]. unfold dispose_now, socket_write, bind, modify, get, ret. cbn beta iota zeta.
    destruct (negb _); [destruct last|]; eexists _, _; (split; [reflexivity | by left]).
Qed.

Lemma legal_app p es es' : legal p (es ++ es') = (q ← legal p es; legal q es').
Proof. revert p. induction es as [|e es IH]; intros p; cbn; [done|]. destruct (next e p); [apply IH | done]. Qed.

Lemma session_runs steps p c : resting c -> fits p (asm c) -> is_Some (legal p (concat (map step_events steps))) ->
  is_Some (session url_ok handler error_output steps c).
Proof.
  revert p c. induction steps as [|s steps IH]; intros p c Hc Hf Hleg; cbn [session map concat] in *; [by eexists|].
  destruct (deleted c) eqn:Ed; [by eexists|]. destruct Hc as [[? _] | [Hc _]]; [by rewrite Ed in *|].
  rewrite legal_app in Hleg. destruct (legal p (step_events s)) as [p'|] eqn:El; [|by destruct Hleg].
  destruct (run_step_runs p p' s c) as (c1 & r & E & Hc1); [apply Hc | done..|]. rewrite E.
  destruct Hc1 as [Hd1 | Hf1].
  - destruct steps; cbn; rewrite ?Hd1; by eexists.
  - apply (IH p'); [by eapply run_step_ok | done..].
Qed.
End runs.

(** ** Properties *)

(** The parser keeps the order of its events. *)
Definition parser_ordered (steps : list step) : Prop := is_Some (legal NoHeader (concat (map step_events steps))).

Lemma lifetime_rests url_ok handler error_output now n cb e steps : connectable n e -> parser_ordered steps ->
  exists c, lifetime url_ok handler error_output now n cb (Some e) steps = Some c /\ resting c.
Proof.
  intros Hn Hp. destruct (new_conn_resting now n cb e Hn) as (c0 & E & H0 & _ & _ & Ha & _).
  unfold lifetime. rewrite E.
  destruct (session_runs url_ok handler error_output steps NoHeader c0 H0 ltac:(by rewrite Ha) Hp) as [c Hc].
  exists c. split; [done|]. by eapply conn_session_ok.
Qed.


(** *** What the poller delivers *)

Lemma due_subscribed c mask : subscribed c ->
  let h := pfd (sub_ c) in
  let m := Z.land mask 25 in
  option_map inv_events (due_callback (epoll c) (mkEvent mask (pack (fd h) (sid h))))
  = if m =? 0 then None else Some (from_epoll_events m).
Proof.
  intros [Hfd Hnot Hsid Hslot _ _ Hentry]. cbv zeta. unfold due_callback. cbn [ev_data ev_mask]. rewrite Hsid.
  destruct (unpack_pack (fd (pfd (sub_ c))) 1) as [-> ->]; [lia | lia |].
  destruct (Z.eqb_spec (fd (pfd (sub_ c))) (notify_fd (epoll c))); [done|].
  rewrite wrapu_small by lia. rewrite (nth_lookup_Some _ _ _ _ Hentry).
  unfold is_empty in Hslot. cbn [slot with_events sid events]. destruct (slot (pfd (sub_ c))) as [cb|]; [|done].
  rewrite Hsid. change (1 <? 1) with false.
  change (Z.lor (Z.lor (to_epoll_events EvRead) EpollErr) EpollHup) with 25.
  by destruct (Z.land mask 25 =? 0).
Qed.

(** The events of the parser that come of an input. *)
Definition input_events (i : input) : list event :=
  match i with Ready _ mask inp => if has mask EpollIn then p_events (report inp) else [] | _ => [] end.
Definition inputs_ordered (inputs : list input) : Prop := is_Some (legal NoHeader (concat (map input_events inputs))).

(** A step without write events. *)
Definition reads_only (s : step) : Prop := match s with Io _ events _ => has events EvWrite = false | _ => True end.

Lemma has_masked mask k : 0 <= k -> has (Z.land mask 25) (2 ^ k) = has mask (2 ^ k) && has 25 (2 ^ k).
Proof. apply has_land. Qed.

Lemma deliver_subscribed c i : subscribed c ->
  exists s, deliver i c = option_list s /\ (forall x, s = Some x -> reads_only x)
    /\ concat (map step_events (deliver i c)) = input_events i.
Proof.
  intros Hs. destruct i as [now mask inp | last | last];
    [| by exists (Some (Timeout last)); split_and!; [|intros x [= <-]|] | by exists (Some (Dispose last)); split_and!; [|intros x [= <-]|]].
  cbn [deliver input_events]. pose proof (due_subscribed c mask Hs) as Hd. cbv zeta in Hd.
  destruct (from_epoll_bits (Z.land mask 25)) as (Hr & Hw & _).
  change EpollIn with (2 ^ 0) in *. change EpollOut with (2 ^ 2) in *.
  rewrite !has_masked in Hr, Hw by lia. change (has 25 (2 ^ 0)) with true in Hr. change (has 25 (2 ^ 2)) with false in Hw.
  rewrite andb_true_r in Hr. rewrite andb_false_r in Hw.
  destruct (due_callback _ _) as [inv|]; cbn [option_map] in Hd.
  - exists (Some (Io now (inv_events inv) inp)). destruct (Z.land mask 25 =? 0); [done|]. injection Hd as Hd.
    split_and!; [done | intros x [= <-]; cbn; by rewrite Hd | cbn; by rewrite Hd, Hr, app_nil_r].
  - exists None. split_and!; [done..|]. cbn.
    destruct (Z.eqb_spec (Z.land mask 25) 0) as [E | ?]; [|done].
    assert (has mask (2 ^ 0) = false) as ->; [|done].
    pose proof (has_masked mask 0 ltac:(lia)) as Hm. rewrite E in Hm. by rewrite andb_true_r in Hm.
Qed.

(** *** Blocked output *)

(** While the lock is held: nothing is written. *)
Definition quiet (w : list Z) (c : Conn) : Prop := locks_ c = 1 /\ write_blocked_ c = true /\ wrote (log c) = w.

Lemma quiet_observe w o c : wrote [o] = [] -> quiet w c -> quiet w (observe o c).
Proof. intros Ho (Hl & Hb & Hw). split_and!; [done..|]. cbn. by rewrite wrote_snoc, Ho, Hw, app_nil_r. Qed.

Lemma quiet_output w bytes : preserves (quiet w) (output bytes).
Proof.
  unfold output. apply preserves_bind; [apply preserves_modify; intros; by apply quiet_observe|].
  intros _. apply preserves_modify. intros c (Hl & Hb & Hw). by destruct (Buffer.prepare _ _).
Qed.

Lemma quiet_dispose w last : preserves (quiet w) (dispose last).
Proof. intros c c' r Hc. rewrite dispose_locked by apply Hc. by intros [= <- <-]. Qed.

Lemma quiet_error w error_output : preserves (quiet w) (on_http_error error_output).
Proof.
  unfold on_http_error. apply preserves_bind; [apply preserves_modify; intros; by apply quiet_observe|].
  intros _. apply quiet_output.
Qed.

#[local] Hint Resolve quiet_output quiet_dispose quiet_error : conn.

Lemma quiet_body w url_ok handler error_output now events inp : has events EvWrite = false ->
  preserves (quiet w) (on_io_body url_ok handler error_output now events inp).
Proof.
  intros He. unfold on_io_body. apply preserves_bind.
  - destruct (has events EvRead); [|auto with conn]. apply drain_input_preserves; try done.
    + intros r c. by apply quiet_observe.
    + intros bytes. auto with conn.
    + intros last. unfold fail. apply preserves_bind; [auto with conn|]. intros _.
      apply preserves_bind; auto with conn.
  - intros open. destruct (negb open); [auto with conn|].
    intros c c' r Hc. unfold bind, get. destruct Hc as (Hl & Hb & Hw). rewrite Hb, He. cbn [negb andb].
    rewrite orb_true_r. by intros [= <- <-].
Qed.

Lemma quiet_catching w url_ok handler error_output now events inp : has events EvWrite = false ->
  preserves (quiet w) (catching error_output (last_room inp) (on_io_body url_ok handler error_output now events inp)).
Proof.
  intros He c c' r Hc. unfold catching. destruct (on_io_body _ _ _ _ _ _ c) as [[c1 r1]|] eqn:E; [|done].
  apply (quiet_body w) in E; [|done..]. destruct r1 as [[|] | []].
  - intros [= <- <-]. by apply quiet_observe.
  - apply (preserves_bind (quiet w)); auto with conn.
  - by intros [= <- <-].
Qed.

(** Between events: nothing was written, or the connection ended and wrote only what it
    drains in the end. *)
Definition stuck (w : list Z) (c : Conn) : Prop :=
  deleted c = false /\ write_blocked_ c = true /\ wrote (log c) = w.
Definition ended (w : list Z) (c : Conn) : Prop :=
  deleted c = true /\ exists l drained, log c = l ++ Disconnected :: drained ++ [Deleted] /\ wrote l = w.

Lemma dispose_now_ends w last c c' r : wrote (log c) = w -> dispose_now last c = Some (c', r) -> ended w c'.
Proof.
  intros Hw. unfold dispose_now, socket_write, bind, modify, get, ret. cbn beta iota zeta.
  destruct (negb _); [destruct last|]; intros [= <- <-]; (split; [done|]); exists (log c);
    [eexists [_] | exists [] | exists []]; (split; [|done]); cbn; by rewrite <- !app_assoc.
Qed.

Lemma unlock_quiet w last c c' r : deleted c = false -> quiet w c -> unlock last c = Some (c', r) -> stuck w c' \/ ended w c'.
Proof.
  intros Hd (Hl & Hb & Hw). unfold unlock. unfold bind at 1 2 3, modify at 1, get at 1 2. cbn beta iota.
  destruct (_ && _).
  - unfold bind, modify. intros Hr. right. by eapply dispose_now_ends in Hr.
  - intros [= <- <-]. by left.
Qed.

Section stuck.
Variable url_ok : str -> bool.
Variable handler : HttpRequest -> list Z * bool.
Variable error_output : list Z.

Lemma run_step_stuck w s c c' r : alive 0 c -> stuck w c -> reads_only s ->
  run_step url_ok handler error_output s c = Some (c', r) -> stuck w c' \/ ended w c'.
Proof.
  intros Hc (Hd & Hb & Hw) Hs Hr.
  assert (quiet w (set_locks 1 c)) as Hq by done.
  destruct s as [now events inp | last | last]; cbn [run_step reads_only] in *.
  - unfold on_io_event, lock_this, modify, bind at 1 2 in Hr. rewrite (al_locks _ _ Hc) in Hr.
    change (wraps 16 (0 + 1)) with 1 in Hr.
    destruct (catching _ _ _ _) as [[c2 r2]|] eqn:E2; [|done].
    pose proof (lock_ok c (set_locks 1 c) (inr tt) Hc) as [H1 _].
    { unfold lock_this, modify. by rewrite (al_locks _ _ Hc). }
    pose proof E2 as E3. apply catching_ok in E3 as (H2 & -> & _); [|done].
    apply (quiet_catching w) in E2; [|done..]. apply (unlock_quiet w) in Hr; [done | apply H2 | done].
  - unfold on_timeout_timer, lock_this, modify, bind at 1 2 3 in Hr. rewrite (al_locks _ _ Hc) in Hr.
    change (wraps 16 (0 + 1)) with 1 in Hr. rewrite dispose_locked in Hr by done.
    apply (unlock_quiet w) in Hr; [done | done |]. split_and!; [done..|]. cbn. by rewrite wrote_snoc, app_nil_r.
  - unfold dispose, bind, get, modify in Hr. rewrite (al_locks _ _ Hc) in Hr. cbn [Z.eqb] in Hr.
    right. by eapply dispose_now_ends in Hr.
Qed.

(** One input. *)
Lemma deliver_runs p p' i c : alive 0 c -> dispose_ c = false -> deleted c = false -> (settled c \/ Rejected ∈ log c) ->
  fits p (asm c) -> legal p (input_events i) = Some p' ->
  exists c', session url_ok handler error_output (deliver i c) c = Some c' /\ resting c'
    /\ (deleted c' = true \/ fits p' (asm c'))
    /\ (forall w, stuck w c -> stuck w c' \/ ended w c').
Proof.
  intros Hc Hdi Hd Hset Hf Hleg. destruct (deliver_subscribed c i (al_subscribed _ _ Hc)) as (s & Ed & Hro & He).
  rewrite Ed in He |- *. rewrite <- He in Hleg. destruct s as [s|].
  - change (option_list (Some s)) with [s] in *. cbn in Hleg. rewrite app_nil_r in Hleg. cbn [session]. rewrite Hd.
    destruct (run_step_runs url_ok handler error_output p p' s c) as (c1 & r & E & Hc1); [apply Hc | done..|].
    rewrite E. exists c1. split_and!; [done | by eapply run_step_ok | done |].
    intros w Hw. eapply run_step_stuck; [exact Hc | exact Hw | by apply Hro | exact E].
  - injection Hleg as <-. exists c. split_and!; [done | by right | by right | by left].
Qed.

Lemma polled_deleted inputs c : deleted c = true -> polled url_ok handler error_output inputs c = Some c.
Proof.
  intros Hd. induction inputs as [|i inputs IH]; [done|]. cbn [polled]. destruct (deliver i c); cbn [session]; by rewrite ?Hd.
Qed.

Lemma polled_runs inputs p p' c : resting c -> deleted c = true \/ fits p (asm c) ->
  legal p (concat (map input_events inputs)) = Some p' ->
  exists c', polled url_ok handler error_output inputs c = Some c' /\ resting c'
    /\ (deleted c' = true \/ fits p' (asm c'))
    /\ (forall w, stuck w c -> stuck w c' \/ ended w c').
Proof.
  revert p c. induction inputs as [|i inputs IH]; intros p c Hc Hf Hleg.
  { injection Hleg as <-. exists c. split_and!; [done..|]. by left. }
  destruct (deleted c) eqn:Ed.
  { exists c. rewrite polled_deleted by done. split_and!; [done | done | by left |]. intros w (? & _). congruence. }
  destruct Hf as [? | Hf]; [congruence|]. destruct Hc as [[? _] | (Hc & Hdi & Hset)]; [congruence|].
  cbn [map concat] in Hleg. rewrite legal_app in Hleg. destruct (legal p (input_events i)) as [q|] eqn:El; [|done].
  destruct (deliver_runs p q i c Hc Hdi Ed Hset Hf El) as (c1 & E1 & H1 & Hf1 & Hs1). cbn [polled]. rewrite E1.
  destruct (IH q c1 H1 Hf1 Hleg) as (c2 & E2 & H2 & Hf2 & Hs2). rewrite E2. exists c2. split_and!; [done..|].
  intros w Hw. destruct (Hs1 w Hw) as [? | [Hd1 He]]; [by apply Hs2|].
  rewrite polled_deleted in E2 by done. injection E2 as <-. right. by split.
Qed.

Lemma polled_app inputs inputs' c : polled url_ok handler error_output (inputs ++ inputs') c
  = match polled url_ok handler error_output inputs c with
    | Some c => polled url_ok handler error_output inputs' c | None => None end.
Proof. revert c. induction inputs as [|i inputs IH]; intros c; [done|]. cbn. destruct (session _ _ _ _ c); [apply IH | done]. Qed.
End stuck.

(** C19: Output that the socket does not take at once is lost: what is left makes the
    connection blocked (unless malformed input was met), which its handle then asks
    write events for, but it never tells the poller, where only read events stay
    registered.  Whatever the kernel reports, the requests that come and the output
    they add, a blocked connection writes nothing more and stays blocked; at most
    its end drains some of it. *)
Theorem blocked_output_stalls url_ok handler error_output now n cb e before after :
  connectable n e -> inputs_ordered (before ++ after) ->
  exists c c',
    served url_ok handler error_output now n cb (Some e) before = Some c
    /\ served url_ok handler error_output now n cb (Some e) (before ++ after) = Some c'
    /\ (deleted c = false ->
         (~ Rejected ∈ log c -> Buffer.empty (out_ c) = false -> write_blocked_ c = true)
         /\ events (pfd (sub_ c)) = (if write_blocked_ c then ev_add EvRead EvWrite else EvRead)
         /\ entry (epoll c) (fd (pfd (sub_ c))) = Some (EpollIn, pack (fd (pfd (sub_ c))) 1)
         /\ (write_blocked_ c = true ->
              if deleted c'
              then exists l drained, log c' = l ++ Disconnected :: drained ++ [Deleted] /\ wrote l = wrote (log c)
              else wrote (log c') = wrote (log c) /\ write_blocked_ c' = true)).
Proof.
  intros Hn Hp. destruct (new_conn_resting now n cb e Hn) as (c0 & E & H0 & _ & _ & Ha & _).
  unfold inputs_ordered in Hp. rewrite map_app, concat_app, legal_app in Hp. destruct Hp as [p' Hp'].
  destruct (legal NoHeader (concat (map input_events before))) as [p|] eqn:Ep; [|done].
  destruct (polled_runs url_ok handler error_output before NoHeader p c0 H0) as (c & Ec & Hc & Hf & _); [by right; rewrite Ha | done |].
  destruct (polled_runs url_ok handler error_output after p p' c Hc Hf Hp') as (c' & Ec' & Hc' & _ & Hs).
  unfold served. rewrite E, polled_app, Ec. exists c, c'. split; [done|]. split; [done|]. intros Hd.
  destruct Hc as [[? _] | (Hal & Hdi & Hset)]; [congruence|].
  destruct (al_subscribed _ _ Hal) as [_ _ Hsid Hslot _ Hev Hent]. split; [|split; [exact Hev|]]; [|split].
  - intros Hnr He. destruct Hset as [[? | [? | ?]] | ?]; congruence.
  - unfold entry. rewrite Hent. unfold is_empty in *. cbn [slot with_events events sid]. rewrite Hsid. by destruct (slot _).
  - intros Hb. destruct (Hs (wrote (log c))) as [(Hd' & Hb' & Hw') | (Hd' & Hend)]; [done | by rewrite Hd' | by rewrite Hd'].
Qed.

(** C20: Output is a stream: what was written to the socket, followed by what the output
    buffer holds, is what the callbacks have written, in order and without loss; and
    when the connection is deleted, what was written is the beginning of it. *)
Theorem output_is_fifo url_ok handler error_output now n cb e steps :
  connectable n e -> parser_ordered steps ->
  exists c, lifetime url_ok handler error_output now n cb (Some e) steps = Some c
  /\ (Z.of_nat (length (outputs (log c))) < 2 ^ 63 ->
       if deleted c then wrote (log c) `prefix_of` outputs (log c)
       else outputs (log c) = wrote (log c) ++ Buffer.str (out_ c)).
Proof.
  intros Hn Hp. destruct (lifetime_rests url_ok handler error_output now n cb e steps Hn Hp) as (c & Hs & Hc).
  exists c. split; [done|]. destruct Hc as [(Hd & l & Hl & _ & Hpre) | ([_ Hd _ _ _ Hfl] & _)]; rewrite Hd.
  - rewrite Hl, outputs_snoc, wrote_snoc. cbn [outputs wrote]. rewrite !app_nil_r. exact Hpre.
  - intros Hmax. by destruct (Hfl Hmax) as (_ & ? & _).
Qed.

(** No connection with the library's own reactor: the constructor asks for the poller of
    the descriptor that it has moved from, and a reactor of any number of
    implementations has none for it. *)
Theorem no_poller_for_connection now n cb (pollers : list Epoll) :
  0 < Z.of_nat (length pollers) < 2 ^ 19 ->
  new_conn now n cb (i ← Reactor.poller (length pollers) moved_from; pollers !! i) = None.
Proof.
  intros Hn. assert (Reactor.poller (length pollers) moved_from = None) as ->; [|done].
  unfold Reactor.poller. change (Z.land moved_from HighBitFDMask =? 0) with false. cbv iota.
  change (Z.shiftr (Z.land (u32 moved_from) (u32 (Z.lnot CustomFDMask))) CustomFDBits) with (2 ^ 20 - 1).
  rewrite find_poller_spec by lia. destruct (Z.ltb_spec (2 ^ 20 - 1) (Z.of_nat (length pollers))); [lia | done].
Qed.

Lemma no_poller_for_connection_witness : new_conn 0 5 1 (i ← Reactor.poller 1 moved_from; [make_epoll 3 4 8] !! i) = None.
Proof. apply (no_poller_for_connection 0 5 1 [make_epoll 3 4 8]). cbn [length]. lia. Defined.

(** A server that answers a request, with bytes that are sent in two parts. *)
Definition sample_events : list event := events_of (mkCut 1 [lit "/"] [] []).
Definition sample_steps : list step :=
  [Io 0 EvRead (mkInput [Data [1; 2; 3]] (mkParsed sample_events 3 false) (Some 2) None true);
   Io 1 EvWrite (mkInput [] (mkParsed [] 0 false) (Some 9) None true)].
Definition sample_poller : Epoll := make_epoll 3 4 8.
Definition sample_lifetime :=
  lifetime (fun _ => true) (fun _ => ([72; 105; 33], false)) [69] 0 5 1 (Some sample_poller) sample_steps.

Lemma sample_ordered : parser_ordered sample_steps.
Proof. unfold parser_ordered. vm_compute. by eexists. Qed.

Lemma sample_connectable : connectable 5 sample_poller.
Proof. split; [lia|]. split; [by vm_compute | by vm_compute]. Qed.


Lemma output_is_fifo_witness :
  exists c, sample_lifetime = Some c
  /\ (Z.of_nat (length (outputs (log c))) < 2 ^ 63 ->
       if deleted c then wrote (log c) `prefix_of` outputs (log c)
       else outputs (log c) = wrote (log c) ++ Buffer.str (out_ c)).
Proof. exact (output_is_fifo _ _ _ 0 5 1 _ sample_steps sample_connectable sample_ordered). Defined.

(** Called with a write event, the connection would send the second part. *)
Example sample_lifetime_log :
  option_map log sample_lifetime = Some [Message (mkRequest 1 (lit "/") [] []); Output [72; 105; 33]; Wrote [72; 105]; Wrote [33]].
Proof. vm_compute. reflexivity. Qed.

(** With the poller it is not called so: the same, and then the kernel reports that the
    socket is writable, and another request comes; the answers stay behind. *)
Definition sample_before : list input :=
  [Ready 0 EpollIn (mkInput [Data [1; 2; 3]] (mkParsed sample_events 3 false) (Some 2) None true)].
Definition sample_after : list input :=
  [Ready 1 EpollOut (mkInput [] (mkParsed [] 0 false) (Some 9) None true);
   Ready 2 (Z.lor EpollIn EpollOut) (mkInput [Data [1; 2; 3]] (mkParsed sample_events 3 false) (Some 9) None true)].
Definition sample_served (inputs : list input) :=
  served (fun _ => true) (fun _ => ([72; 105; 33], false)) [69] 0 5 1 (Some sample_poller) inputs.

Lemma sample_inputs_ordered : inputs_ordered (sample_before ++ sample_after).
Proof. unfold inputs_ordered. vm_compute. by eexists. Qed.

Lemma blocked_output_stalls_witness :
  exists c c',
    sample_served sample_before = Some c /\ sample_served (sample_before ++ sample_after) = Some c'
    /\ (deleted c = false ->
         (~ Rejected ∈ log c -> Buffer.empty (out_ c) = false -> write_blocked_ c = true)
         /\ events (pfd (sub_ c)) = (if write_blocked_ c then ev_add EvRead EvWrite else EvRead)
         /\ entry (epoll c) (fd (pfd (sub_ c))) = Some (EpollIn, pack (fd (pfd (sub_ c))) 1)
         /\ (write_blocked_ c = true ->
              if deleted c'
              then exists l drained, log c' = l ++ Disconnected :: drained ++ [Deleted] /\ wrote l = wrote (log c)
              else wrote (log c') = wrote (log c) /\ write_blocked_ c' = true)).
Proof. exact (blocked_output_stalls _ _ _ 0 5 1 _ sample_before sample_after sample_connectable sample_inputs_ordered). Defined.

Example sample_served_stalls :
  option_map (fun c => (wrote (log c), Buffer.str (out_ c), write_blocked_ c, deleted c)) (sample_served (sample_before ++ sample_after))
  = Some ([72; 105], [33; 72; 105; 33], true, false).
Proof. vm_compute. reflexivity. Qed.

(** Malformed input behind a good request: the exception is swallowed, the answer to
    the good request stays in the output buffer, not awaited, the input stays in the
    input buffer, and the connection is neither disposed nor told; the idle timer,
    which was not moved, ends it. *)
Theorem malformed_input_stalls :
  option_map (fun c => (log c, Buffer.str (out_ c), write_blocked_ c, Buffer.str (in_ c), (dispose_ c, deleted c), tmr_ c))
    (lifetime (fun _ => true) (fun _ => ([72; 105], false)) [69] 0 5 1 (Some sample_poller)
      [Io 1000000000 EvRead
         (mkInput [Data [1; 2; 3]] (mkParsed (events_of (mkCut 1 [lit "/"] [] [])) 2 true) (Some 9) None true)])
  = Some ([Message (mkRequest 1 (lit "/") [] []); Output [72; 105]; Rejected],
          [72; 105], false, [1; 2; 3], (false, false), 5000000000).
Proof. vm_compute. reflexivity. Qed.

(** A full socket is an error: when a request arrives while the socket can take no
    byte, the flush throws and the connection is disposed with the answer unsent. *)
Theorem full_socket_disposes :
  option_map (fun c => (log c, deleted c))
    (lifetime (fun _ => true) (fun _ => ([72; 105], false)) [69] 0 5 1 (Some sample_poller)
      [Io 0 EvRead
         (mkInput [Data [1; 2; 3]] (mkParsed (events_of (mkCut 1 [lit "/"] [] [])) 3 false) (Some 0) None true)])
  = Some ([Message (mkRequest 1 (lit "/") [] []); Output [72; 105]; Failed; Output [69]; Disconnected; Deleted], true).
Proof. vm_compute. reflexivity. Qed.
