(* ===== verification/DateText.v ===== *)
(** * Dates and rate limits as text

    Models [parse_date] and [parse_time] of [toolbox/sys/Date.hpp], which read a day and
    a time of day with the definitions of files Date and Time, and the text form of
    rate limits of [toolbox/net/RateLimit.cpp]. *)
From Stdlib Require Import String.
From S2P Require Import Prelude Text Date Time RateLimit.
#[local] Open Scope Z_scope.

(** ** Dates and times *)

Definition int32_type : itype := mkItype 32 true.
Definition parse_date (sv : str) : Z := ston int32_type sv.

(** Half a day, as the days of [jd_to_time] start at noon. *)
Definition half_day : Z := 43200 * 1000000000.

(** [parse_time]; without a result the arithmetic overflows or a character after the
    end is read. *)
Definition parse_time (sv : str) : option (option Z) :=
  if (length sv <? 8)%nat then Some None
  else
    let d := parse_date (take 8 sv) in
    dt ← (if negb (d =? 0) then jd ← iso_to_jd d; t ← jd_to_time jd; Some (i64 (t - half_day)) else Some 0);
    match drop 8 sv with
    | [] => Some (Some dt)
    | c :: rest =>
        if negb (bool_decide (c = "-"%char)) && negb (bool_decide (c = "T"%char)) then Some None
        else
          t ← parse_time_only rest;
          Some (match t with None => None | Some t => Some (i64 (dt + t)) end)
    end.

(** The test of the source: milliseconds since the epoch. *)
Example parse_time_test :
  parse_time (lit "20180824-05:32:29.123") = Some (Some (1535088749123 * 1000000)).
Proof. vm_compute. reflexivity. Qed.

(** ** Rate limits *)

Definition size_type : itype := mkItype 64 false.
Definition parse_rate_limit (s : str) : RateLimit :=
  let '(l, i) := split_pair s "/"%char in mkRateLimit (ston size_type l) (ston int32_type i).
Definition print_rate_limit (rl : RateLimit) : str :=
  to_string (limit rl) ++ "/"%char :: to_string (interval rl).

(** ** Lemmas *)

Lemma ston_digits t s : 0 < bits t -> all_digits s -> s <> [] -> value 0 s < 2 ^ 64 -> in_itype t (value 0 s) ->
  ston t s = value 0 s.
Proof.
  intros Hb Hd Hne Hv Ht. destruct s as [|c s]; [done|]. unfold ston.
  apply Forall_cons in Hd as [Hc Hd]. pose proof Hc as Hr. apply isdigit_range in Hr.
  rewrite bool_decide_eq_false_2 by (intros ->; done). rewrite andb_false_r. unfold ston_abs. rewrite Hc.
  rewrite <- (app_nil_r s) at 1. rewrite value_cons in *. change (0 * 10 + digit c) with (digit c) in *.
  fold (digit c). rewrite ston_loop_value by (done || lia). by apply convert_small.
Qed.

Lemma value_app n a b : value n (a ++ b) = value (value n a) b.
Proof. apply foldl_app. Qed.

Lemma value_shift n s : value n s = n * 10 ^ Z.of_nat (length s) + value 0 s.
Proof.
  revert n. induction s as [|c s IH]; intros n; [cbn; lia|]. rewrite !value_cons, IH, (IH (0 * 10 + _)).
  cbn [length]. rewrite Nat2Z.inj_succ, Z.pow_succ_r by lia. lia.
Qed.

(** The text of a date. *)
Definition date_text (y m d : Z) : str := put_padded 4 y ++ put_padded 2 m ++ put_padded 2 d.

Lemma date_text_spec y m d : 0 <= y <= 9999 -> 0 <= m < 100 -> 0 <= d < 100 ->
  length (date_text y m d) = 8%nat /\ parse_date (date_text y m d) = y * 10000 + m * 100 + d.
Proof.
  intros Hy Hm Hd.
  destruct (put_padded_spec 4 y) as (Hdy & Hly & Hvy); [change (10 ^ Z.of_nat 4) with 10000; lia | lia |].
  destruct (put_padded_spec 2 m) as (Hdm & Hlm & Hvm); [change (10 ^ Z.of_nat 2) with 100; lia | lia |].
  destruct (put_padded_spec 2 d) as (Hdd & Hld & Hvd); [change (10 ^ Z.of_nat 2) with 100; lia | lia |].
  unfold date_text. split; [rewrite !length_app; lia|]. unfold parse_date.
  assert (value 0 (put_padded 4 y ++ put_padded 2 m ++ put_padded 2 d) = y * 10000 + m * 100 + d) as Hv.
  { rewrite !value_app, Hvy, (value_shift y), Hlm, Hvm, (value_shift (y * _ + m)), Hld, Hvd.
    change (10 ^ Z.of_nat 2) with 100. lia. }
  rewrite ston_digits; rewrite ?Hv; try done; try lia.
  - unfold all_digits in *. by rewrite !Forall_app.
  - intros E. apply (f_equal length) in E. rewrite !length_app in E. cbn in E. lia.
  - unfold in_itype. cbn. lia.
Qed.

(** Noon of a day, while it fits. *)
Lemma jd_to_time_eval jd : -106750 <= jd - 2440588 <= 106750 ->
  jd_to_time jd = Some ((jd - 2440588) * 86400000000000 + half_day).
Proof.
  intros Hj. unfold jd_to_time. rewrite (sub_eval _ _ jd 2440588) by (done || unfold int32_min, int32_max; lia).
  cbn [mbind option_bind]. change (Z.shiftr ms_in_day 1) with 43200000. unfold ms_in_day, half_day.
  rewrite (wraps_small 64 (_ + 43200000)) by lia. rewrite wraps_small by lia. f_equal. lia.
Qed.

(** C32: Timestamps are read back: for every date of the calendar whose nanoseconds since
    the epoch fit in 64 bits, every time of that day and every precision, reading the
    date as eight digits, a dash or a T, and the time of day as it is written, gives
    the day since January 1st 1970 and the time, truncated to the precision. *)
Theorem timestamp_roundtrip (p : precision) (y m d jd t : Z) (sep : ascii) :
  valid_date y m d = true -> 0 <= y <= 9999 -> ymd_to_jd y m d = Some jd ->
  -106750 <= jd - 2440588 <= 106750 -> 0 <= t < 86400 * 1000000000 ->
  sep = "-"%char \/ sep = "T"%char ->
  parse_time (date_text y m d ++ sep :: put_clock (to_time_t t) ++ put_fraction p t)
  = Some (Some ((jd - 2440588) * (86400 * 1000000000) + (t - t mod unit_of p))).
Proof.
  intros Hv Hy Hjd Hj Ht Hsep. pose proof (valid_date_bounds _ _ _ Hv) as [Hm Hd].
  destruct (date_text_spec y m d) as [Hl Hp]; [lia..|]. unfold parse_time.
  destruct (Nat.ltb_spec (length (date_text y m d ++ sep :: put_clock (to_time_t t) ++ put_fraction p t)) 8) as [Hlt|_].
  { rewrite length_app in Hlt. lia. }
  rewrite take_app_length', drop_app_length' by done. rewrite Hp. destruct (Z.eqb_spec (y * 10000 + m * 100 + d) 0); [lia|].
  cbn [negb]. rewrite ymd_to_jd_eval in Hjd by lia. injection Hjd as Hjd. rewrite iso_to_jd_eval, Hjd by lia.
  cbn [mbind option_bind]. rewrite jd_to_time_eval by done. cbn [mbind option_bind].
  assert (negb (bool_decide (sep = "-"%char)) && negb (bool_decide (sep = "T"%char)) = false) as ->
    by (by destruct Hsep as [-> | ->]).
  rewrite time_of_day_read by lia. cbn [mbind option_bind]. do 2 f_equal. unfold half_day.
  assert (0 < unit_of p) by (by destruct p).
  pose proof (Z.mod_pos_bound t (unit_of p) ltac:(lia)). pose proof (Z.mod_le t (unit_of p) ltac:(lia) ltac:(lia)).
  rewrite (wraps_small 64 (_ - _)) by lia. rewrite wraps_small by lia. lia.
Qed.

Lemma timestamp_roundtrip_witness :
  parse_time (date_text 2018 8 24 ++ "-"%char :: put_clock (to_time_t 19949123456789) ++ put_fraction Millis 19949123456789)
  = Some (Some ((2458355 - 2440588) * (86400 * 1000000000) + (19949123456789 - 19949123456789 mod unit_of Millis))).
Proof. apply (timestamp_roundtrip Millis 2018 8 24 2458355); [done | lia | done | lia | lia | by left]. Defined.

(** Valid dates that do not fit: the comment of [parse_time] allows every year of four
    digits, but the nanoseconds since the epoch overflow from the year 2263 on, and
    what is read for the last day of the year 9999 is a day of the year 1816. *)
Theorem late_dates_wrap :
  parse_time (lit "99991231") = Some (Some (-4852202631933722624))
  /\ parse_time (lit "22630101") = Some (Some (-9200561673709551616)).
Proof. split; vm_compute; reflexivity. Qed.

(** Rate limits are read back as they are printed. *)
Theorem rate_limit_roundtrip (l i : Z) :
  0 <= l < 2 ^ 64 -> int32_min <= i <= int32_max ->
  parse_rate_limit (print_rate_limit (mkRateLimit l i)) = mkRateLimit l i.
Proof.
  intros Hl Hi. unfold parse_rate_limit, print_rate_limit. cbn [limit interval].
  rewrite split_pair_join by (apply pad_not_in_number; done).
  rewrite <- (app_nil_r (to_string l)), <- (app_nil_r (to_string i)).
  rewrite !ston_to_string by (done || unfold in_itype, int32_min, int32_max in *; cbn in *; lia). done.
Qed.

Lemma rate_limit_roundtrip_witness :
  parse_rate_limit (print_rate_limit (mkRateLimit 18446744073709551615 60)) = mkRateLimit 18446744073709551615 60.
Proof. apply rate_limit_roundtrip; [lia | by vm_compute]. Defined.
