(* ===== verification/Resolver.v ===== *)
(** * The resolver

    Models [toolbox/net/Resolver.hpp] and [Resolver.cpp] with the threads of
    [net/Runner.cpp]: a queue of tasks behind a mutex and a condition variable, from
    which threads take batches.  A step is a critical section or the execution of one
    task; threads and callers are interleaved in any way.  Tasks are numbered in the
    order in which they were accepted; what a task resolves is modelled in file
    Endpoint. *)
From S2P Require Import Prelude.
#[local] Open Scope nat_scope.

(** ** State *)

(** A thread of [run_resolver]: waiting in [run], executing the rest of a batch of some
    size, or gone. *)
Inductive thread := Waiting | Executing (n : nat) (batch : list nat) | Exited.

(** What happened to the promises of the tasks: fulfilled, or broken because the task
    was destroyed; the calls of [resolve] that threw; the results of [run]. *)
Record system := mkSystem {
  queue_ : list nat;
  stop_ : bool;
  accepted : nat;
  threads : list thread;
  fulfilled : list nat;
  broken : list nat;
  refused : nat;
  results : list Z
}.

Definition BatchSize : nat := 16.

(** Callers of [resolve], [stop] and [clear]; a thread that goes on; one whose wait times
    out. *)
Inductive label := Resolve | Stop | Clear | Step (t : nat) | Timeout (t : nat).

Definition set_thread (t : nat) (p : thread) (s : system) : system :=
  mkSystem (queue_ s) (stop_ s) (accepted s) (<[t := p]> (threads s)) (fulfilled s) (broken s) (refused s) (results s).

Definition resolve (s : system) : system :=
  if stop_ s
  then mkSystem (queue_ s) (stop_ s) (accepted s) (threads s) (fulfilled s) (broken s) (S (refused s)) (results s)
  else mkSystem (queue_ s ++ [accepted s]) (stop_ s) (S (accepted s)) (threads s) (fulfilled s) (broken s) (refused s) (results s).

Definition stop (s : system) : system :=
  mkSystem (queue_ s) true (accepted s) (threads s) (fulfilled s) (broken s) (refused s) (results s).

(** The tasks in the queue are destroyed. *)
Definition clear (s : system) : system :=
  mkSystem [] (stop_ s) (accepted s) (threads s) (fulfilled s) (broken s ++ queue_ s) (refused s) (results s).

Definition returned (r : Z) (s : system) : system :=
  mkSystem (queue_ s) (stop_ s) (accepted s) (threads s) (fulfilled s) (broken s) (refused s) (results s ++ [r]).

(** The predicate that [run] waits for. *)
Definition awaited (s : system) : bool := negb (match queue_ s with [] => true | _ => false end) || stop_ s.

(** [run] after the wait: the queue is destroyed, or a batch is taken.  A thread calls
    [run] again unless the result is negative. *)
Definition proceed (t : nat) (s : system) : system :=
  if stop_ s then returned (-1) (set_thread t Exited (clear s))
  else
    let n := Nat.min (length (queue_ s)) BatchSize in
    set_thread t (Executing n (take n (queue_ s)))
      (mkSystem (drop n (queue_ s)) (stop_ s) (accepted s) (threads s) (fulfilled s) (broken s) (refused s) (results s)).

Definition fulfil (task : nat) (s : system) : system :=
  mkSystem (queue_ s) (stop_ s) (accepted s) (threads s) (fulfilled s ++ [task]) (broken s) (refused s) (results s).

(** The size of the batch is the result of [run]. *)
Definition step_thread (timeout : bool) (t : nat) (s : system) : system :=
  match threads s !! t with
  | Some Waiting =>
      if awaited s then proceed t s
      else if timeout then returned 0 s else s
  | Some (Executing n (task :: batch)) => set_thread t (Executing n batch) (fulfil task s)
  | Some (Executing n []) => returned (Z.of_nat n) (set_thread t Waiting s)
  | _ => s
  end.

Definition exec (l : label) (s : system) : system :=
  match l with
  | Resolve => resolve s
  | Stop => stop s
  | Clear => clear s
  | Step t => step_thread false t s
  | Timeout t => step_thread true t s
  end.
Definition run (ls : list label) (s : system) : system := fold_left (fun s l => exec l s) ls s.

(** A new resolver with some threads. *)
Definition new_resolver (n : nat) : system := mkSystem [] false 0 (replicate n Waiting) [] [] 0 [].

Example run_test :
  let s := run [Resolve; Resolve; Step 0; Step 0; Resolve; Stop; Step 0; Step 0; Resolve; Step 0] (new_resolver 1) in
  fulfilled s = [0; 1] /\ broken s = [2] /\ refused s = 1 /\ threads s = [Exited].
Proof. vm_compute. done. Qed.

(** ** No task is lost *)

Definition batch_of (p : thread) : list nat := match p with Executing _ batch => batch | _ => [] end.
Definition batches (s : system) : list nat := concat (map batch_of (threads s)).

(** Every accepted task is in one place. *)
Definition conserved (s : system) : Prop :=
  seq 0 (accepted s) ≡ₚ queue_ s ++ batches s ++ fulfilled s ++ broken s.

Lemma batches_insert ts t p q : ts !! t = Some p ->
  concat (map batch_of (<[t := q]> ts)) ++ batch_of p ≡ₚ concat (map batch_of ts) ++ batch_of q.
Proof.
  intros Ht. rewrite <- (take_drop_middle ts t p Ht) at 2.
  rewrite insert_take_drop by (by eapply lookup_lt_Some).
  rewrite !map_app, !concat_app. cbn [map concat]. solve_Permutation.
Qed.

Lemma set_thread_conserved s s' t p q :
  threads s !! t = Some p -> accepted s' = accepted s -> threads s' = <[t := q]> (threads s) ->
  queue_ s ++ batch_of p ++ fulfilled s ++ broken s ≡ₚ queue_ s' ++ batch_of q ++ fulfilled s' ++ broken s' ->
  conserved s -> conserved s'.
Proof.
  unfold conserved, batches. intros Ht Ha Hts Hp Hc. rewrite Ha, Hts, Hc.
  apply (Permutation_app_inv_l (batch_of p)).
  pose proof (batches_insert (threads s) t p q Ht) as Hb.
  transitivity (concat (map batch_of (threads s)) ++ (queue_ s ++ batch_of p ++ fulfilled s ++ broken s)); [solve_Permutation|].
  rewrite Hp.
  transitivity ((concat (map batch_of (threads s)) ++ batch_of q) ++ queue_ s' ++ fulfilled s' ++ broken s'); [solve_Permutation|].
  rewrite <- Hb. solve_Permutation.
Qed.

Lemma returned_conserved r s : conserved (returned r s) <-> conserved s.
Proof. done. Qed.

Lemma clear_conserved s : conserved s -> conserved (clear s).
Proof. unfold conserved, batches. cbn. intros ->. solve_Permutation. Qed.

Lemma step_thread_conserved timeout t s : conserved s -> conserved (step_thread timeout t s).
Proof.
  intros Hc. unfold step_thread. destruct (threads s !! t) as [[| n [|task batch] |]|] eqn:Et; try done.
  - destruct (awaited s); [|by destruct timeout]. unfold proceed. destruct (stop_ s).
    + apply returned_conserved. eapply (set_thread_conserved (clear s) _ t Waiting Exited); try done.
      by apply clear_conserved.
    + eapply (set_thread_conserved s _ t Waiting); try done. cbn.
      rewrite <- (take_drop (Nat.min (length (queue_ s)) BatchSize) (queue_ s)) at 1. solve_Permutation.
  - apply returned_conserved. by eapply (set_thread_conserved s _ t (Executing n [])).
  - eapply (set_thread_conserved s _ t (Executing n (task :: batch))); try done. cbn. solve_Permutation.
Qed.

Lemma exec_conserved l s : conserved s -> conserved (exec l s).
Proof.
  intros Hc. destruct l; cbn [exec].
  - unfold resolve. destruct (stop_ s); [done|]. unfold conserved, batches in *. cbn [queue_ accepted threads fulfilled broken].
    rewrite seq_S, Hc. cbn. solve_Permutation.
  - exact Hc.
  - by apply clear_conserved.
  - by apply step_thread_conserved.
  - by apply step_thread_conserved.
Qed.

Lemma run_conserved ls s : conserved s -> conserved (run ls s).
Proof. revert s. induction ls as [|l ls IH]; intros s Hs; [done|]. apply IH. by apply exec_conserved. Qed.

Lemma new_resolver_conserved n : conserved (new_resolver n).
Proof.
  unfold conserved, batches. cbn. rewrite app_nil_r. induction n as [|n IH]; [done|]. cbn. exact IH.
Qed.

(** No task is lost: for any number of threads and in every interleaving, every task
    that was accepted is in exactly one place, in the queue, in the batch of one
    thread, or done: fulfilled once, or broken because it was destroyed. *)
Theorem tasks_conserved (n : nat) (ls : list label) :
  let s := run ls (new_resolver n) in
  seq 0 (accepted s) ≡ₚ queue_ s ++ batches s ++ fulfilled s ++ broken s.
Proof. apply run_conserved, new_resolver_conserved. Qed.

(** ** Order *)

(** With one thread, tasks are executed in order. *)
Definition in_order (s : system) : Prop :=
  (exists p, threads s = [p]) /\ (fulfilled s ++ batches s ++ queue_ s) `sublist_of` seq 0 (accepted s).

Lemma step_thread_order timeout t s : in_order s -> in_order (step_thread timeout t s).
Proof.
  intros Hs. pose proof Hs as [(p & Hp) Ho]. unfold batches in Ho. rewrite Hp in Ho. cbn [map concat] in Ho.
  rewrite app_nil_r in Ho. unfold step_thread. rewrite Hp.
  destruct t as [|t]; [|exact Hs]. cbn [lookup list_lookup].
  destruct p as [| n [|task batch] |]; cbn [batch_of app] in Ho.
  - destruct (awaited s); [|by destruct timeout].
    unfold proceed, in_order, batches. destruct (stop_ s); cbn; rewrite Hp; cbn; (split; [by eexists|]).
    + rewrite app_nil_r. etrans; [|exact Ho]. by apply sublist_inserts_r.
    + by rewrite app_nil_r, take_drop.
  - unfold in_order, batches. cbn. rewrite Hp. by split; [eexists|].
  - unfold in_order, batches. cbn. rewrite Hp. cbn. split; [by eexists|]. by rewrite app_nil_r, <- app_assoc.
  - exact Hs.
Qed.

Lemma exec_order l s : in_order s -> in_order (exec l s).
Proof.
  intros Hs. destruct l; cbn [exec]; [| exact Hs | | by apply step_thread_order | by apply step_thread_order];
    destruct Hs as [Hp Ho].
  - unfold resolve. destruct (stop_ s); [done|]. split; [exact Hp|]. unfold batches in *. cbn [queue_ accepted threads fulfilled].
    rewrite seq_S, !app_assoc. rewrite !app_assoc in Ho. by apply sublist_app.
  - split; [exact Hp|]. unfold batches in *. cbn. rewrite app_nil_r. etrans; [|exact Ho]. rewrite app_assoc.
    by apply sublist_inserts_r.
Qed.

(** Tasks are executed first in, first out: with the one thread of a runner, in every
    interleaving, the tasks that were fulfilled, are being executed and are queued
    are, in this order, a part of the tasks in the order in which they were accepted;
    the others were destroyed. *)
Theorem tasks_in_order (ls : list label) :
  let s := run ls (new_resolver 1) in
  (fulfilled s ++ batches s ++ queue_ s) `sublist_of` seq 0 (accepted s).
Proof.
  intros s. assert (in_order s) as [_ Ho]; [|exact Ho]. unfold s.
  assert (in_order (new_resolver 1)) as H0 by (by split; [eexists|]).
  revert H0. generalize (new_resolver 1). clear s. induction ls as [|l ls IH]; intros s0 H0; [done|].
  apply IH. by apply exec_order.
Qed.

(** ** Stopping *)

(** How many steps a thread has left once the resolver is stopped. *)
Definition steps_left (p : thread) : nat :=
  match p with Waiting => 1 | Executing _ batch => length batch + 2 | Exited => 0 end.

Definition stopped (k : nat) (s : system) : Prop :=
  stop_ s = true /\ exists p, threads s = [p] /\ steps_left p <= k /\ (p = Exited -> queue_ s = []).

Definition is_step (l : label) : bool := match l with Step 0 => true | _ => false end.

Lemma step_thread_stopped timeout k s : stopped k s -> stopped (k - 1) (step_thread timeout 0 s).
Proof.
  intros (Hs & p & Hp & Hk & Hq). unfold step_thread. rewrite Hp. cbn [lookup list_lookup].
  destruct p as [| n [|task batch] |]; cbn [steps_left length] in Hk.
  - unfold awaited. rewrite Hs, orb_true_r. unfold proceed. rewrite Hs. split; [done|].
    exists Exited. cbn. rewrite Hp. by repeat split; lia.
  - split; [done|]. exists Waiting. cbn. rewrite Hp. repeat split; [lia | done].
  - split; [done|]. exists (Executing n batch). cbn. rewrite Hp. repeat split; [lia | done].
  - split; [done|]. exists Exited. repeat split; [done | cbn; lia | exact Hq].
Qed.

Lemma stopped_mono k k' s : k <= k' -> stopped k s -> stopped k' s.
Proof. intros Hk (Hs & p & Hp & Hl & Hq). split; [done|]. exists p. repeat split; [done | lia | done]. Qed.

Lemma exec_stopped l k s : stopped k s -> stopped (if is_step l then k - 1 else k) (exec l s).
Proof.
  intros Hs. destruct l as [| | | [|t] | [|t]]; cbn [exec is_step].
  - destruct Hs as (Hs & p & Hp). unfold resolve. rewrite Hs. split; [done|]. by exists p.
  - destruct Hs as (Hs & p & Hp). split; [done|]. by exists p.
  - destruct Hs as (Hs & p & Hp & Hk & Hq). split; [done|]. by exists p.
  - by apply step_thread_stopped.
  - destruct Hs as (Hs & p & Hp & Hk). unfold step_thread. rewrite Hp. by split; [|exists p].
  - apply (stopped_mono (k - 1)); [lia|]. by apply step_thread_stopped.
  - destruct Hs as (Hs & p & Hp & Hk). unfold step_thread. rewrite Hp. by split; [|exists p].
Qed.

Lemma run_stopped ls k s : stopped k s -> stopped (k - length (List.filter is_step ls)) (run ls s).
Proof.
  revert k s. induction ls as [|l ls IH]; intros k s Hs; [cbn; by rewrite Nat.sub_0_r|].
  apply (exec_stopped l) in Hs. apply IH in Hs. eapply stopped_mono; [|exact Hs].
  cbn. destruct (is_step l); cbn; lia.
Qed.

(** What is accepted once the resolver is stopped: nothing. *)
Lemma exec_accepted l s : stop_ s = true -> stop_ (exec l s) = true /\ accepted (exec l s) = accepted s.
Proof.
  intros Hs. destruct l as [| | |t|t]; cbn [exec]; try done.
  - unfold resolve. by rewrite Hs.
  - unfold step_thread. destruct (threads s !! t) as [[| n [|] |]|]; try done.
    destruct (awaited s); [|done]. unfold proceed. by rewrite Hs.
  - unfold step_thread. destruct (threads s !! t) as [[| n [|] |]|]; try done.
    destruct (awaited s); [|done]. unfold proceed. by rewrite Hs.
Qed.

Lemma run_accepted ls s : stop_ s = true -> accepted (run ls s) = accepted s.
Proof.
  revert s. induction ls as [|l ls IH]; intros s Hs; [done|].
  destruct (exec_accepted l s Hs) as [Hs' Ha]. cbn. by rewrite <- Ha, <- (IH _ Hs').
Qed.

(** The thread of a runner leaves only when the resolver is stopped. *)
Definition left_stopped (s : system) : Prop :=
  exists p, threads s = [p] /\ (p = Exited -> stop_ s = true /\ queue_ s = []).

Lemma step_thread_left timeout t s : left_stopped s -> left_stopped (step_thread timeout t s).
Proof.
  intros Hs. pose proof Hs as (p & Hp & He). unfold step_thread. rewrite Hp.
  destruct t as [|t]; [|exact Hs]. cbn [lookup list_lookup].
  destruct p as [| n [|task batch] |]; [| | |exact Hs].
  - destruct (awaited s); [|by destruct timeout]. unfold proceed, left_stopped.
    destruct (stop_ s) eqn:Es; cbn; rewrite Hp; by eexists.
  - unfold left_stopped. cbn. rewrite Hp. by eexists.
  - unfold left_stopped. cbn. rewrite Hp. by eexists.
Qed.

Lemma exec_left l s : left_stopped s -> left_stopped (exec l s).
Proof.
  intros Hs. destruct l; cbn [exec]; [| | | by apply step_thread_left | by apply step_thread_left];
    pose proof Hs as (p & Hp & He).
  - unfold resolve. destruct (stop_ s) eqn:Es; [exists p; split; [exact Hp|]; intros ->; by destruct He|].
    exists p. split; [exact Hp|]. intros ->. by destruct He.
  - exists p. split; [exact Hp|]. intros ->. by destruct He.
  - exists p. split; [exact Hp|]. intros ->. by destruct He.
Qed.

Lemma run_left ls s : left_stopped s -> left_stopped (run ls s).
Proof. revert s. induction ls as [|l ls IH]; intros s Hs; [done|]. apply IH. by apply exec_left. Qed.

Lemma left_stopped_stopped s : left_stopped s -> stop_ s = true -> stopped (length (batches s) + 2) s.
Proof.
  intros (p & Hp & He) Hs. split; [exact Hs|]. exists p. split; [exact Hp|]. unfold batches. rewrite Hp. cbn.
  rewrite app_nil_r. split; [destruct p; cbn; lia|]. intros ->. by destruct He.
Qed.

(** C24: A resolver that is stopped leaves nobody waiting: once [stop] was called, whatever
    is called later, the thread of the runner is gone after the tasks of its batch and
    two more steps, so that the join returns, and then the promise of every task that
    was ever accepted is fulfilled or broken, and none is accepted any more. *)
Theorem stop_completes (ls ls' : list label) :
  let s := run ls (new_resolver 1) in
  let s' := run ls' s in
  stop_ s = true -> length (batches s) + 2 <= length (List.filter is_step ls') ->
  threads s' = [Exited] /\ seq 0 (accepted s') ≡ₚ fulfilled s' ++ broken s' /\ accepted s' = accepted s.
Proof.
  intros s s' Hs Hl.
  assert (left_stopped s) as Hleft by (apply run_left; by eexists).
  pose proof (run_stopped ls' _ _ (left_stopped_stopped s Hleft Hs)) as (_ & p & Hp & Hk & Hq).
  assert (p = Exited) as -> by (destruct p; cbn in Hk; [lia | lia | done]).
  assert (conserved s') as Hc by (apply run_conserved, run_conserved, new_resolver_conserved).
  split; [exact Hp|]. split; [|by apply run_accepted].
  unfold conserved, batches in Hc. fold s' in Hp, Hq. by rewrite Hp, (Hq eq_refl) in Hc.
Qed.

Lemma stop_completes_witness :
  let s := run [Resolve; Resolve; Step 0; Resolve; Stop] (new_resolver 1) in
  let s' := run [Step 0; Resolve; Step 0; Timeout 0; Step 0; Step 0] s in
  threads s' = [Exited] /\ seq 0 (accepted s') ≡ₚ fulfilled s' ++ broken s' /\ accepted s' = accepted s.
Proof.
  apply (stop_completes [Resolve; Resolve; Step 0; Resolve; Stop] [Step 0; Resolve; Step 0; Timeout 0; Step 0; Step 0]);
    vm_compute; [reflexivity | repeat constructor].
Defined.
