(* ===== verification/Json.v ===== *)
(** * Mutable JSON documents

    Models [toolbox/util/Json.hpp]: elements linked by pointers, allocated from the
    vector of their document.  A pointer is a number; a vector that grows moves its
    elements to new addresses, and the pointers to the old ones dangle.  Strings do not
    contain NUL; a [double] is its 64 bits, printed by a parameter. *)
From Stdlib Require Import String.
From stdpp Require Export sets fin_maps gmap.
From S2P Require Import Prelude Text.
#[local] Open Scope nat_scope.

(** ** Outcomes *)

(** An operation returns, throws, or is stuck: it follows a pointer that is null or
    dangles, or its loop does not end. *)
Inductive outcome (A : Type) := Ret (a : A) | Throw | Stuck.
Arguments Ret {A} a.
Arguments Throw {A}.
Arguments Stuck {A}.

#[export] Instance outcome_ret : MRet outcome := @Ret.
#[export] Instance outcome_bind : MBind outcome := fun A B f m =>
  match m with Ret a => f a | Throw => Throw | Stuck => Stuck end.

Definition defined {A} (o : option A) : outcome A := match o with Some a => Ret a | None => Stuck end.

(** ** Elements *)

Inductive element_type := ARRAY | OBJECT | INT64 | UINT64 | DOUBLE | STRING | BOOL | NULL_VALUE.
#[export] Instance element_type_eqdec : EqDecision element_type.
Proof. solve_decision. Defined.

(** The union of an element. *)
Inductive uvalue := int_ (z : Z) | dbl_ (bits : Z) | bool_ (b : bool) | str_ (s : str) | child_ (o : option nat).

Record MutableElement := mkElement {
  element_type_ : element_type;
  value_ : uvalue;
  next_ : option nat;
  key_ : option str;
  size_ : nat;
  document_ : bool
}.

Definition set_type (t : element_type) (e : MutableElement) : MutableElement :=
  mkElement t (value_ e) (next_ e) (key_ e) (size_ e) (document_ e).
Definition set_value (u : uvalue) (e : MutableElement) : MutableElement :=
  mkElement (element_type_ e) u (next_ e) (key_ e) (size_ e) (document_ e).
Definition set_next (o : option nat) (e : MutableElement) : MutableElement :=
  mkElement (element_type_ e) (value_ e) o (key_ e) (size_ e) (document_ e).
Definition set_key (k : option str) (e : MutableElement) : MutableElement :=
  mkElement (element_type_ e) (value_ e) (next_ e) k (size_ e) (document_ e).
Definition set_size (n : nat) (e : MutableElement) : MutableElement :=
  mkElement (element_type_ e) (value_ e) (next_ e) (key_ e) n (document_ e).

(** A new element. *)
Definition new_element (doc : bool) (t : element_type) : MutableElement := mkElement t (child_ None) None None 0 doc.

(** The pointer in the union. *)
Definition child (e : MutableElement) : outcome (option nat) :=
  match value_ e with child_ o => Ret o | _ => Stuck end.

(** The bits of the integer in the union, which is compared for numbers and booleans. *)
Definition int_bits (e : MutableElement) : outcome Z :=
  match value_ e with int_ z | dbl_ z => Ret z | bool_ b => Ret (Z.b2z b) | _ => Stuck end.

(** ** Documents *)

(** The elements at their addresses; address 0 is that of the document, which is an element itself.  The
    vector holds the elements at the addresses [elements_]. *)
Record MutableDocument := mkDocument {
  nodes : gmap nat MutableElement;
  fresh : nat;
  elements_ : list nat;
  capacity : nat
}.

Definition set_nodes (m : gmap nat MutableElement) (d : MutableDocument) : MutableDocument :=
  mkDocument m (fresh d) (elements_ d) (capacity d).

Definition new_document (cap : nat) : MutableDocument :=
  mkDocument {[0 := new_element true NULL_VALUE]} 1 [] cap.

Definition deref (x : nat) (d : MutableDocument) : outcome MutableElement := defined (nodes d !! x).
Definition update (x : nat) (f : MutableElement -> MutableElement) (d : MutableDocument) : outcome MutableDocument :=
  e ← deref x d; Ret (set_nodes (<[x := f e]> (nodes d)) d).

(** The copy of an element, whose constructor leaves the document out. *)
Definition copied (e : MutableElement) : MutableElement :=
  mkElement (element_type_ e) (value_ e) (next_ e) (key_ e) (size_ e) false.

(** The vector moves its elements: copies at new addresses, and nothing at the old ones. *)
Definition relocate (d : MutableDocument) : MutableDocument :=
  foldl (fun d x =>
      mkDocument (match nodes d !! x with
                  | Some e => <[fresh d := copied e]> (delete x (nodes d))
                  | None => nodes d
                  end) (S (fresh d)) (elements_ d ++ [fresh d]) (capacity d))
    (mkDocument (nodes d) (fresh d) [] (capacity d)) (elements_ d).

Section document.

(** How a vector grows, and how a [double] is printed. *)
Context (grow : nat -> nat) (show_double : Z -> str).

Definition alloc_element (t : element_type) (d : MutableDocument) : nat * MutableDocument :=
  let d := if length (elements_ d) <? capacity d then d
           else let d := relocate d in mkDocument (nodes d) (fresh d) (elements_ d) (grow (capacity d)) in
  (fresh d, mkDocument (<[fresh d := new_element true t]> (nodes d)) (S (fresh d)) (elements_ d ++ [fresh d]) (capacity d)).

(** The key of an element; it has one. *)
Definition key (e : MutableElement) : outcome str := defined (key_ e).

(** The loops of [at] and [find] for a key: the element and the one before. *)
Fixpoint key_loop (fuel : nat) (k : str) (tail e : option nat) (d : MutableDocument) : outcome (option nat * option nat) :=
  match e with
  | None => Ret (None, tail)
  | Some x =>
      match fuel with
      | O => Stuck
      | S fuel =>
          el ← deref x d;
          k' ← key el;
          if bool_decide (k' = k) then Ret (Some x, tail) else key_loop fuel k (Some x) (next_ el) d
      end
  end.

(** The loops for an index: also the number of elements that were passed. *)
Fixpoint index_loop (fuel : nat) (i index : nat) (tail e : option nat) (d : MutableDocument)
    : outcome (option nat * option nat * nat) :=
  match e with
  | None => Ret (None, tail, i)
  | Some x =>
      match fuel with
      | O => Stuck
      | S fuel =>
          el ← deref x d;
          if i =? index then Ret (Some x, tail, i) else index_loop fuel (S i) index (Some x) (next_ el) d
      end
  end.

(** A new element is linked at the end. *)
Definition link (x : nat) (tail : option nat) (n : nat) (d : MutableDocument) : outcome MutableDocument :=
  match tail with
  | Some t => update t (set_next (Some n)) d
  | None => update x (set_value (child_ (Some n))) d
  end.

Definition is_type (ts : list element_type) (e : MutableElement) : bool := bool_decide (element_type_ e ∈ ts).

(** [at] for a key.  An element without document has nothing to allocate from. *)
Definition at_key (x : nat) (k : str) (d : MutableDocument) : outcome (nat * MutableDocument) :=
  e ← deref x d;
  if negb (is_type [OBJECT; NULL_VALUE] e) then Throw else
  d ← update x (set_type OBJECT) d;
  c ← child e;
  '(found, tail) ← key_loop (fresh d) k None c d;
  match found with
  | Some y => Ret (y, d)
  | None =>
      if negb (document_ e) then Stuck else
      let '(n, d) := alloc_element NULL_VALUE d in
      d ← update n (set_key (Some k)) d;
      e ← deref x d;
      d ← update x (set_size (S (size_ e))) d;
      d ← link x tail n d;
      Ret (n, d)
  end.

(** [at] for an index appends elements until there is one at the index. *)
Fixpoint append_loop (m : nat) (x : nat) (tail : option nat) (d : MutableDocument) : outcome (option nat * MutableDocument) :=
  match m with
  | O => Ret (tail, d)
  | S m =>
      e ← deref x d;
      if negb (document_ e) then Stuck else
      let '(n, d) := alloc_element NULL_VALUE d in
      e ← deref x d;
      d ← update x (set_size (S (size_ e))) d;
      d ← link x tail n d;
      append_loop m x (Some n) d
  end.

Definition at_index (x : nat) (index : nat) (d : MutableDocument) : outcome (nat * MutableDocument) :=
  e ← deref x d;
  if negb (is_type [ARRAY; NULL_VALUE] e) then Throw else
  d ← update x (set_type ARRAY) d;
  c ← child e;
  '(found, tail, i) ← index_loop (fresh d) 0 index None c d;
  match found with
  | Some y => Ret (y, d)
  | None => '(y, d) ← append_loop (S index - i) x tail d; y ← defined y; Ret (y, d)
  end.

(** [find] for a key and for an index. *)
Definition find_key (x : nat) (k : str) (d : MutableDocument) : outcome (option nat) :=
  e ← deref x d;
  if negb (is_type [OBJECT] e) then Throw else
  c ← child e;
  '(found, _) ← key_loop (fresh d) k None c d; Ret found.

Definition find_index (x : nat) (index : nat) (d : MutableDocument) : outcome (option nat) :=
  e ← deref x d;
  if negb (is_type [ARRAY] e) then Throw else
  if size_ e <=? index then Ret None else
  c ← child e;
  '(found, _, _) ← index_loop (fresh d) 0 index None c d; Ret found.

Fixpoint back_loop (fuel : nat) (tail : nat) (d : MutableDocument) : outcome nat :=
  e ← deref tail d;
  match next_ e with
  | None => Ret tail
  | Some n => match fuel with O => Stuck | S fuel => back_loop fuel n d end
  end.

(** The address that [back] returns is null when there is no element. *)
Definition back (x : nat) (d : MutableDocument) : outcome (option nat) :=
  e ← deref x d;
  c ← child e;
  match c with None => Ret None | Some t => t ← back_loop (fresh d) t d; Ret (Some t) end.

(** The private assignment, for an element of a document and then for its string. *)
Definition insert_after (x : nat) (it : option nat) (val : nat) (d : MutableDocument) : outcome (nat * MutableDocument) :=
  e ← deref x d;
  '(n, d) ←
    (if document_ e then
       let '(n, d) := alloc_element NULL_VALUE d in
       v ← deref val d;
       d ← update n (fun _ => mkElement (element_type_ v) (value_ v) (next_ v) (key_ v) (size_ v) true) d;
       Ret (n, d)
     else Ret (val, d));
  d ← (match it with
       | None => d ← update x (set_value (child_ (Some n))) d; update n (set_next None) d
       | Some p => pe ← deref p d; d ← update n (set_next (next_ pe)) d; update p (set_next (Some n)) d
       end);
  e ← deref x d;
  d ← update x (set_size (S (size_ e))) d;
  Ret (n, d).

Definition insert_back (x : nat) (val : nat) (d : MutableDocument) : outcome (nat * MutableDocument) :=
  it ← back x d; insert_after x it val d.

Definition push_back (x : nat) (val : nat) (d : MutableDocument) : outcome MutableDocument :=
  e ← deref x d;
  d ← (if is_type [ARRAY] e then Ret d
       else d ← update x (set_type ARRAY) d; update x (set_value (child_ None)) d);
  '(_, d) ← insert_back x val d; Ret d.

(** [erase] unlinks an element; the result is the one after.  (The size is never below the
    number of elements.) *)
Fixpoint erase_loop (fuel : nat) (x it : nat) (e : option nat) (d : MutableDocument) : outcome (option nat * MutableDocument) :=
  match e with
  | None => Ret (None, d)
  | Some y =>
      match fuel with
      | O => Stuck
      | S fuel =>
          el ← deref y d;
          if bool_decide (next_ el = Some it) then
            victim ← deref it d;
            d ← update y (set_next (next_ victim)) d;
            xe ← deref x d;
            d ← update x (set_size (size_ xe - 1)) d;
            Ret (next_ victim, d)
          else erase_loop fuel x it (next_ el) d
      end
  end.

Definition erase (x : nat) (it : option nat) (d : MutableDocument) : outcome (option nat * MutableDocument) :=
  match it with
  | None => Ret (None, d)
  | Some y =>
      e ← deref x d;
      c ← child e;
      if bool_decide (c = Some y) then
        victim ← deref y d;
        d ← update x (set_value (child_ (next_ victim))) d;
        d ← update x (set_size (size_ e - 1)) d;
        Ret (next_ victim, d)
      else erase_loop (fresh d) x y c d
  end.

Definition erase_key (x : nat) (k : str) (d : MutableDocument) : outcome (option nat * MutableDocument) :=
  it ← find_key x k d; erase x it d.
Definition erase_index (x : nat) (i : nat) (d : MutableDocument) : outcome (option nat * MutableDocument) :=
  it ← find_index x i d; erase x it d.

Fixpoint erase_range_loop (n : nat) (x : nat) (it : option nat) (d : MutableDocument) : outcome (option nat * MutableDocument) :=
  match n, it with
  | S n, Some _ => '(it, d) ← erase x it d; erase_range_loop n x it d
  | _, _ => Ret (it, d)
  end.
Definition erase_range (x : nat) (l r : nat) (d : MutableDocument) : outcome (option nat * MutableDocument) :=
  it ← find_index x l d; erase_range_loop (r - l) x it d.

Definition clear (x : nat) (d : MutableDocument) : outcome MutableDocument :=
  d ← update x (set_size 0) d; update x (set_value (child_ None)) d.

(** The public assignment, from an element that is about to go: the elements of a
    container are inserted one after the other, with what they point to. *)
Fixpoint assign_loop (fuel : nat) (x : nat) (it e : option nat) (d : MutableDocument) : outcome MutableDocument :=
  match e with
  | None => Ret d
  | Some y =>
      match fuel with
      | O => Stuck
      | S fuel =>
          '(n, d) ← insert_after x it y d;
          el ← deref y d;
          assign_loop fuel x (Some n) (next_ el) d
      end
  end.

Definition assign (x : nat) (rhs : MutableElement) (d : MutableDocument) : outcome MutableDocument :=
  d ← update x (fun e => mkElement (element_type_ rhs) (value_ rhs) (next_ e) (key_ e) (size_ rhs) (document_ e)) d;
  if is_type [ARRAY; OBJECT] rhs then
    d ← update x (set_value (child_ None)) d;
    d ← update x (set_size 0) d;
    c ← child rhs;
    assign_loop (fresh d) x None c d
  else Ret d.

End document.

(** ** Values *)

Inductive scalar := SNull | SBool (b : bool) | SInt (z : Z) | SUInt (z : Z) | SDouble (bits : Z) | SStr (s : str).

(** The keys of the elements of an array are empty. *)
Inductive kind := Arr | Obj.
Inductive json := JScalar (s : scalar) | JCont (k : kind) (l : list (str * json)).

(** The constructors of [MutableElement] from a value. *)
Definition scalar_element (s : scalar) : MutableElement :=
  match s with
  | SNull => new_element false NULL_VALUE
  | SBool b => set_value (bool_ b) (new_element false BOOL)
  | SInt z => set_value (int_ z) (new_element false INT64)
  | SUInt z => set_value (int_ (i64 z)) (new_element false UINT64)
  | SDouble z => set_value (dbl_ z) (new_element false DOUBLE)
  | SStr s => set_size (length s) (set_value (str_ s) (new_element false STRING))
  end.

Section printing.
Context (grow : nat -> nat) (show_double : Z -> str).

(** [copy] of the element of a parsed text, or of another document. *)
Fixpoint copy (v : json) (x : nat) (d : MutableDocument) {struct v} : outcome MutableDocument :=
  match v with
  | JScalar s => assign grow x (scalar_element s) d
  | JCont Obj l =>
      (fix fields l d :=
         match l with
         | [] => Ret d
         | (k, w) :: l => '(y, d) ← at_key grow x k d; d ← copy w y d; fields l d
         end) l d
  | JCont Arr l =>
      (fix items i l d :=
         match l with
         | [] => Ret d
         | (_, w) :: l => '(y, d) ← at_index grow x i d; d ← copy w y d; items (S i) l d
         end) 0 l d
  end.

(** A document that is made from another element has no document to allocate from. *)
Definition copied_document (v : json) (cap : nat) : outcome MutableDocument :=
  copy v 0 (mkDocument {[0 := new_element false NULL_VALUE]} 1 [] cap).

Definition quoted (s : str) : str := chr 34 :: s ++ [chr 34].
Definition new_line (pad : Z) : str := chr 10 :: replicate (Z.to_nat pad) " "%char.

(** What is printed before the first element, before the element number [i], and at the end. *)
Definition opening (k : kind) (pad : Z) (size : nat) : str :=
  match k with
  | Arr => ["["%char]
  | Obj => "{"%char :: (if (0 <=? pad)%Z && (1 <? size) then new_line pad else [])
  end.
Definition separator (k : kind) (pad : Z) (ncols size i : nat) : str :=
  if i =? 0 then [] else
  ","%char ::
    match k with
    | Arr => if (0 <=? pad)%Z && (i mod ncols =? 0) then new_line pad else []
    | Obj => if (0 <=? pad)%Z && (1 <? size) then new_line pad else []
    end.
Definition closing (k : kind) : str := match k with Arr => ["]"%char] | Obj => ["}"%char] end.
Definition label (k : kind) (key : str) : str := match k with Arr => [] | Obj => quoted key ++ [":"%char] end.

(** The kind of the containers. *)
Definition kind_of (t : element_type) : option kind :=
  match t with ARRAY => Some Arr | OBJECT => Some Obj | _ => None end.

(** [print] of what is not a container. *)
Definition print_scalar (e : MutableElement) : outcome str :=
  match element_type_ e, value_ e with
  | BOOL, bool_ b => Ret (if b then lit "true" else lit "false")
  | INT64, int_ z => Ret (to_string z)
  | UINT64, int_ z => Ret (to_string (u64 z))
  | DOUBLE, dbl_ z => Ret (show_double z)
  | STRING, str_ s => Ret (quoted s)
  | NULL_VALUE, _ => Ret (lit "null")
  | _, _ => Stuck
  end.

Fixpoint print (fuel : nat) (x : nat) (pad : Z) (ncols : nat) (d : MutableDocument) : outcome str :=
  match fuel with
  | O => Stuck
  | S fuel =>
      e ← deref x d;
      match kind_of (element_type_ e) with
      | None => print_scalar e
      | Some k =>
          c ← child e;
          body ←
            (fix items (n : nat) (i : nat) (o : option nat) : outcome str :=
               match o with
               | None => Ret []
               | Some y =>
                   match n with
                   | O => Stuck
                   | S n =>
                       el ← deref y d;
                       l ← (match k with Arr => Ret [] | Obj => k' ← key el; Ret (label Obj k') end);
                       s ← print fuel y (pad + 1) ncols d;
                       rest ← items n (S i) (next_ el);
                       Ret (separator k pad ncols (size_ e) i ++ l ++ s ++ rest)
                   end
               end) (fresh d) 0 c;
          Ret (opening k pad (size_ e) ++ body ++ closing k)
      end
  end.

(** The text of a value. *)
Definition render_scalar (s : scalar) : str :=
  match s with
  | SNull => lit "null"
  | SBool b => if b then lit "true" else lit "false"
  | SInt z => to_string z
  | SUInt z => to_string z
  | SDouble z => show_double z
  | SStr s => quoted s
  end.

Fixpoint render (v : json) (pad : Z) (ncols : nat) {struct v} : str :=
  match v with
  | JScalar s => render_scalar s
  | JCont k l =>
      opening k pad (length l)
      ++ (fix items (i : nat) (l' : list (str * json)) : str :=
            match l' with
            | [] => []
            | (key, w) :: l' => separator k pad ncols (length l) i ++ label k key ++ render w (pad + 1) ncols ++ items (S i) l'
            end) 0 l
      ++ closing k
  end.

End printing.

Definition JObj (l : list (str * json)) : json := JCont Obj l.
Definition JArr (l : list json) : json := JCont Arr (map (pair []) l).

Definition sample : json :=
  JObj [(lit "n", JScalar (SInt 1)); (lit "s", JScalar (SStr (lit "abc")));
        (lit "a", JArr [JScalar (SInt 1); JScalar (SInt (-2)); JScalar (SBool true)]);
        (lit "o", JObj [(lit "x", JScalar (SStr (lit "XX"))); (lit "y", JScalar SNull)])].

Example copy_print_test :
  (d ← copy (fun n => 2 * n) sample 0 (new_document 256); print (fun _ => []) 20 0 (-1) 16 d)
  = Ret (render (fun _ => []) sample (-1) 16).
Proof. vm_compute. reflexivity. Qed.

Example render_test : render (fun _ => []) sample (-1) 16
  = lit "{" ++ quoted (lit "n") ++ lit ":1," ++ quoted (lit "s") ++ lit ":" ++ quoted (lit "abc") ++ lit ","
    ++ quoted (lit "a") ++ lit ":[1,-2,true]," ++ quoted (lit "o") ++ lit ":{" ++ [chr 10] ++ quoted (lit "x") ++ lit ":"
    ++ quoted (lit "XX") ++ lit "," ++ [chr 10] ++ quoted (lit "y") ++ lit ":null}}".
Proof. vm_compute. reflexivity. Qed.
