(* ===== verification/JsonDoc.v ===== *)
(** * JSON documents represent values

    The elements that are reachable from a pointer represent a value; the operations of
    file Json on elements do to the value what a functional update does. *)
From Stdlib Require Import String.
From S2P Require Import Prelude Text Json.
#[local] Open Scope nat_scope.

(** ** Representation *)

Definition type_of (k : kind) : element_type := match k with Arr => ARRAY | Obj => OBJECT end.
Definition key_ok (k : kind) (key : str) (e : MutableElement) : Prop :=
  match k with Arr => key = [] | Obj => key_ e = Some key end.

(** The elements at the addresses [ys], linked from [o], with what they represent; [S] are
    the addresses that are used. *)
Fixpoint chain (d : MutableDocument) (R : json -> gset nat -> nat -> Prop) (k : kind)
    (l : list (str * json)) (ys : list nat) (o : option nat) (S : gset nat) : Prop :=
  match l, ys with
  | [], [] => o = None /\ S = ∅
  | (key, v) :: l, y :: ys =>
      exists e Sy Sl, o = Some y /\ nodes d !! y = Some e /\ key_ok k key e /\ R v Sy y
        /\ chain d R k l ys (next_ e) Sl /\ (y ∉ Sl) /\ Sy ## Sl /\ S = {[y]} ∪ Sy ∪ Sl
  | _, _ => False
  end.

(** The element at [x] represents a value; the elements below it are at the addresses [S]. *)
Fixpoint repr (d : MutableDocument) (v : json) (S : gset nat) (x : nat) : Prop :=
  exists e, nodes d !! x = Some e /\ document_ e = true /\ (x ∉ S) /\
  match v with
  | JScalar s =>
      element_type_ e = element_type_ (scalar_element s) /\ value_ e = value_ (scalar_element s)
      /\ size_ e = size_ (scalar_element s) /\ S = ∅
  | JCont k l =>
      element_type_ e = type_of k /\ size_ e = length l
      /\ exists c ys, value_ e = child_ c /\ chain d (repr d) k l ys c S
  end.

(** A container, with its elements. *)
Definition opened (d : MutableDocument) (k : kind) (S : gset nat) (x : nat)
    (l : list (str * json)) (c : option nat) (ys : list nat) : Prop :=
  exists e, nodes d !! x = Some e /\ document_ e = true /\ (x ∉ S) /\ element_type_ e = type_of k
    /\ size_ e = length l /\ value_ e = child_ c /\ chain d (repr d) k l ys c S.

Lemma repr_opened d k l S x : repr d (JCont k l) S x <-> exists c ys, opened d k S x l c ys.
Proof.
  split.
  - intros (e & He & Hd & Hx & Ht & Hs & c & ys & Hv & Hc). exists c, ys, e. done.
  - intros (c & ys & e & He & Hd & Hx & Ht & Hs & Hv & Hc). exists e. repeat (split; [done|]). by exists c, ys.
Qed.

Lemma repr_self d v S x : repr d v S x -> exists e, nodes d !! x = Some e /\ document_ e = true /\ (x ∉ S).
Proof. destruct v; intros (e & He & Hd & Hx & _); by exists e. Qed.

(** Induction on values. *)
Lemma json_ind' (P : json -> Prop) :
  (forall s, P (JScalar s)) -> (forall k l, Forall (fun kv => P kv.2) l -> P (JCont k l)) -> forall v, P v.
Proof.
  intros Hs Hc. fix IH 1. intros [s | k l]; [apply Hs|]. apply Hc.
  induction l as [|[key v] l IHl]; constructor; [apply IH | apply IHl].
Qed.

(** The elements agree on what is represented. *)
Definition same_value (e e' : MutableElement) : Prop :=
  element_type_ e' = element_type_ e /\ value_ e' = value_ e /\ size_ e' = size_ e /\ document_ e' = document_ e.

(** A representation does not depend on other addresses, nor on the position of the
    element in its container. *)
Lemma chain_frame d d' (R R' : json -> gset nat -> nat -> Prop) k l ys o S :
  (forall v Sy y, v ∈ l.*2 -> {[y]} ∪ Sy ⊆ S -> R v Sy y -> R' v Sy y) ->
  (forall y, y ∈ S -> nodes d' !! y = nodes d !! y) ->
  chain d R k l ys o S -> chain d' R' k l ys o S.
Proof.
  revert ys o S. induction l as [|[key v] l IH]; intros [|y ys] o S HR Hd; cbn [chain]; try done.
  intros (e & Sy & Sl & -> & He & Hk & Hr & Hc & Hy & Hdis & ->).
  exists e, Sy, Sl. split; [done|]. split; [rewrite Hd by set_solver; done|]. split; [done|].
  split; [apply HR; [left | set_solver | done]|].
  split; [|done]. apply IH; [|set_solver | done]. intros w Sw z Hw Hsub. apply HR; [by right | set_solver].
Qed.

Lemma repr_frame d d' v : forall S x,
  repr d v S x -> (forall y, y ∈ S -> nodes d' !! y = nodes d !! y) ->
  (forall e, nodes d !! x = Some e -> exists e', nodes d' !! x = Some e' /\ same_value e e') ->
  repr d' v S x.
Proof.
  induction v as [s | k l IH] using json_ind'; intros S x (e & He & Hdoc & Hx & Hv) Hd Hself;
    destruct (Hself e He) as (e' & He' & Ht & Hu & Hsz & Hdo); exists e'; cbn [repr]; rewrite ?Ht, ?Hu, ?Hsz, ?Hdo;
    (split; [done|]); (split; [done|]); (split; [done|]); [done|].
  destruct Hv as (Hty & Hsize & c & ys & Hc & Hch). split; [done|]. split; [done|]. exists c, ys. split; [done|].
  apply (chain_frame d d' (repr d)); [|done|done].
  intros v Sy y Hin Hsub Hr. rewrite list_elem_of_fmap in Hin. destruct Hin as (kv & -> & Hin).
  rewrite Forall_forall in IH. apply (IH kv Hin); [done | set_solver|].
  intros ey Hy. exists ey. split; [rewrite Hd by set_solver; done | done].
Qed.

(** ** Chains *)

Lemma repr_fresh_scalar d x e : nodes d !! x = Some e -> same_value (new_element true NULL_VALUE) e ->
  repr d (JScalar SNull) ∅ x.
Proof. intros He (Ht & Hv & Hs & Hd). exists e. split; [done|]. split; [done|]. split; [set_solver|]. done. Qed.

Lemma chain_props d k l : forall ys o S,
  chain d (repr d) k l ys o S ->
  length ys = length l /\ NoDup ys /\ (forall y, y ∈ ys -> y ∈ S).
Proof.
  induction l as [|[key v] l IH]; intros [|y ys] o S; cbn [chain]; try done.
  - intros _. split; [done|]. split; [constructor|]. by intros y Hy%elem_of_nil.
  - intros (e & Sy & Sl & -> & He & Hk & Hr & Hc & Hy & Hdis & ->).
    destruct (IH _ _ _ Hc) as (Hl & Hnd & Hin). cbn. split; [by rewrite Hl|].
    split; [constructor; [|done]; intros Hys; by apply Hy, Hin|].
    intros z [-> | Hz]%elem_of_cons; [set_solver|]. specialize (Hin z Hz). set_solver.
Qed.

(** Addresses that are used are allocated. *)
Lemma chain_allocated d (R : json -> gset nat -> nat -> Prop) k l : forall ys o S,
  (forall v Sy y z, v ∈ l.*2 -> R v Sy y -> z ∈ Sy -> is_Some (nodes d !! z)) ->
  chain d R k l ys o S -> forall z, z ∈ S -> is_Some (nodes d !! z).
Proof.
  induction l as [|[key v] l IH]; intros [|y ys] o S HR; cbn [chain]; try done.
  - intros [_ ->] z Hz. set_solver.
  - intros (e & Sy & Sl & -> & He & Hk & Hr & Hc & Hy & Hdis & ->) z Hz.
    rewrite !elem_of_union, elem_of_singleton in Hz. destruct Hz as [[-> | Hz] | Hz]; [done | |].
    + apply (HR v Sy y z); [left | done | done].
    + apply (IH ys (next_ e) Sl); [|done|done]. intros w Sw u z' Hw. apply HR. by right.
Qed.

Lemma repr_allocated d v : forall S x z, repr d v S x -> z ∈ S -> is_Some (nodes d !! z).
Proof.
  induction v as [s | k l IH] using json_ind'; intros S x z (e & He & Hdoc & Hx & Hv) Hz.
  - destruct Hv as (_ & _ & _ & ->). set_solver.
  - destruct Hv as (_ & _ & c & ys & _ & Hc). apply (chain_allocated d (repr d) k l ys c S); [|done|done].
    intros v Sy y z' Hin. rewrite list_elem_of_fmap in Hin. destruct Hin as (kv & -> & Hin).
    rewrite Forall_forall in IH. by apply (IH kv Hin).
Qed.

(** The element is where it was, linked as it was. *)
Definition in_place (d d' : MutableDocument) (x : nat) : Prop :=
  forall e, nodes d !! x = Some e -> exists e', nodes d' !! x = Some e' /\ next_ e' = next_ e /\ key_ e' = key_ e.

(** One element of a chain may be changed, with what is below it. *)
Lemma chain_focus d k l1 key v l2 : forall ys o S y,
  chain d (repr d) k (l1 ++ (key, v) :: l2) ys o S -> ys !! length l1 = Some y ->
  exists Sy, repr d v Sy y /\ {[y]} ∪ Sy ⊆ S
    /\ forall d' v' Sy',
      (forall z, z ∈ S -> z ∉ ({[y]} ∪ Sy : gset nat) -> nodes d' !! z = nodes d !! z) ->
      (forall z, z ∈ Sy' -> z ∈ Sy \/ z ∉ S) ->
      in_place d d' y -> repr d' v' Sy' y ->
      exists S', chain d' (repr d') k (l1 ++ (key, v') :: l2) ys o S' /\ (forall z, z ∈ S' -> z ∈ S \/ z ∈ Sy').
Proof.
  induction l1 as [|[k0 v0] l1 IH]; intros [|y0 ys] o S y; cbn [chain app length lookup list_lookup]; try done.
  - intros (e & Sy & Sl & -> & He & Hk & Hr & Hc & Hy & Hdis & ->) [= <-].
    exists Sy. split; [done|]. split; [set_solver|]. intros d' v' Sy' Hd Hnew Hpl Hr'.
    destruct (Hpl e He) as (e' & He' & Hnx & Hky). exists ({[y0]} ∪ Sy' ∪ Sl). split; [|set_solver].
    exists e', Sy', Sl. split; [done|]. split; [done|]. split; [by destruct k; cbn in *; congruence|]. split; [done|].
    rewrite Hnx. destruct (repr_self _ _ _ _ Hr') as (_ & _ & _ & Hy'). split; [|set_solver].
    eapply chain_frame; [| |exact Hc].
    + intros w Sw z _ Hsub Hw. eapply repr_frame; [exact Hw | |].
      * intros u Hu. apply Hd; set_solver.
      * intros ez Hz. exists ez. split; [rewrite Hd; [done | set_solver..] | done].
    + intros z Hz. apply Hd; set_solver.
  - intros (e & Sy0 & Sl & -> & He & Hk & Hr & Hc & Hy & Hdis & ->) Hl.
    destruct (IH ys _ _ y Hc Hl) as (Sy & Hry & Hsub & Hfoc). exists Sy. split; [done|]. split; [set_solver|].
    intros d' v' Sy' Hd Hnew Hpl Hr'.
    destruct (Hfoc d' v' Sy') as (S' & Hc' & HS'); [intros; apply Hd; set_solver | set_solver | done | done |].
    exists ({[y0]} ∪ Sy0 ∪ S'). split; [|set_solver].
    exists e, Sy0, S'. split; [done|]. split; [rewrite Hd by set_solver; done|]. split; [done|]. split; [|set_solver].
    eapply repr_frame; [exact Hr | |].
    + intros u Hu. apply Hd; set_solver.
    + intros ez Hz. exists ez. split; [rewrite Hd; [done | set_solver..] | done].
Qed.

(** An element is linked at the end of a chain. *)
Lemma chain_append d d' k key n en l : forall ys o S,
  chain d (repr d) k l ys o S ->
  (n ∉ S) -> nodes d' !! n = Some en -> next_ en = None -> key_ok k key en -> same_value (new_element true NULL_VALUE) en ->
  (forall z, z ∈ S -> last ys <> Some z -> nodes d' !! z = nodes d !! z) ->
  (forall t e, last ys = Some t -> nodes d !! t = Some e -> nodes d' !! t = Some (set_next (Some n) e)) ->
  exists S', chain d' (repr d') k (l ++ [(key, JScalar SNull)]) (ys ++ [n]) (match ys with [] => Some n | _ => o end) S'
    /\ (forall z, z ∈ S' -> z ∈ S \/ z = n).
Proof.
  induction l as [|[k0 v0] l IH]; intros [|y ys] o S; cbn [chain app]; try done.
  - intros [-> ->] Hn Hen Hnx Hk Hsv _ _. exists {[n]}. split; [|set_solver].
    exists en, ∅, ∅. rewrite Hnx. repeat (split; [done|]). split; [by eapply repr_fresh_scalar|]. set_solver.
  - intros (e & Sy & Sl & -> & He & Hk & Hr & Hc & Hy & Hdis & ->) Hn Hen Hnx Hkn Hsv Hd Ht.
    pose proof (chain_props _ _ _ _ _ _ Hc) as (_ & _ & Hys).
    destruct (IH ys (next_ e) Sl Hc) as (S' & Hc' & HS'); try done.
    { set_solver. }
    { intros z Hz Hl. apply Hd; [set_solver|]. destruct ys as [|y1 ys]; [by intros [= ->]|]. by rewrite last_cons_cons. }
    { intros t et Hl. apply Ht. destruct ys as [|y1 ys]; [done|]. by rewrite last_cons_cons. }
    assert (repr d' v0 Sy y) as Hr'.
    { destruct (repr_self _ _ _ _ Hr) as (e0 & He0 & _ & Hyy). apply (repr_frame d _ _ _ _ Hr).
      - intros z Hz. apply Hd; [set_solver|]. intros Hlast.
        destruct ys as [|y1 ys]; [cbn in Hlast; congruence|]. rewrite last_cons_cons in Hlast.
        apply last_Some_elem_of in Hlast. specialize (Hys z Hlast). set_solver.
      - intros e1 He1. destruct (decide (last (y :: ys) = Some y)) as [Hl | Hl].
        + exists (set_next (Some n) e1). split; [by apply Ht | done].
        + exists e1. split; [rewrite Hd by (done || set_solver); done | done]. }
    exists ({[y]} ∪ Sy ∪ S'). split; [|set_solver].
    destruct ys as [|y1 ys].
    + exists (set_next (Some n) e), Sy, S'. split; [done|]. split; [by apply Ht|].
      split; [by destruct k|]. split; [done|]. split; [done|]. set_solver.
    + exists e, Sy, S'. split; [done|]. split; [rewrite Hd; [done | set_solver | ]|].
      { rewrite last_cons_cons. intros Hl%last_Some_elem_of. by apply Hy, Hys. }
      repeat (split; [done|]). set_solver.
Qed.

(** ** Changes of a document *)

Definition wf (d : MutableDocument) : Prop := forall y e, nodes d !! y = Some e -> y < fresh d.

(** What an operation on the element at [x], below which the addresses [U] are used, leaves
    alone; it allocates [n] elements. *)
Record evolves (d d' : MutableDocument) (x : nat) (U U' : gset nat) (n : nat) : Prop := {
  ev_wf : wf d';
  ev_fresh : fresh d <= fresh d';
  ev_count : length (elements_ d') = length (elements_ d) + n;
  ev_capacity : capacity d' = capacity d;
  ev_frame : forall y, y < fresh d -> y <> x -> y ∉ U -> nodes d' !! y = nodes d !! y;
  ev_new : forall y, y ∈ U' -> y ∈ U \/ fresh d <= y;
  ev_place : in_place d d' x
}.

Lemma evolves_refl d x U : wf d -> evolves d d x U U 0.
Proof. intros Hwf. split; try done; try lia; [auto | intros e He; by exists e]. Qed.

Lemma evolves_trans d1 d2 d3 x U1 U2 U3 n m :
  evolves d1 d2 x U1 U2 n -> evolves d2 d3 x U2 U3 m -> evolves d1 d3 x U1 U3 (n + m).
Proof.
  intros [W1 F1 C1 P1 R1 N1 L1] [W2 F2 C2 P2 R2 N2 L2]. split; try done; [lia | lia | congruence | | |].
  - intros y Hy Hx HU. rewrite R2; [by apply R1 | lia | done |]. intros H2. destruct (N1 y H2); [done | lia].
  - intros y Hy. destruct (N2 y Hy) as [H2 | H2]; [by apply N1 | right; lia].
  - intros e He. destruct (L1 e He) as (e1 & He1 & E1 & E2). destruct (L2 e1 He1) as (e2 & He2 & E3 & E4).
    exists e2. split; [done|]. split; congruence.
Qed.

(** An operation on an element below is one on the element above. *)
Lemma evolves_below d d' x y U Uy Uy' U' n :
  wf d -> is_Some (nodes d !! x) -> (x ∉ U) -> {[y]} ∪ Uy ⊆ U -> (forall z, z ∈ U' -> z ∈ U \/ z ∈ Uy') ->
  evolves d d' y Uy Uy' n -> evolves d d' x U U' n.
Proof.
  intros Hwf [ex Hx] HxU Hsub HU' [W F C P R N L]. pose proof (Hwf x ex Hx). split; try done.
  - intros z Hz Hzx HzU. apply R; set_solver.
  - intros z Hz. destruct (HU' z Hz) as [? | Hz']; [by left|]. destruct (N z Hz') as [? | ?]; [left; set_solver | by right].
  - intros e He. exists e. rewrite R; [done | lia | set_solver..].
Qed.

Lemma repr_below_fresh d v U x y : wf d -> repr d v U x -> y ∈ U -> y < fresh d.
Proof. intros Hwf Hr Hy. destruct (repr_allocated d v U x y Hr Hy) as [e He]. by apply (Hwf y e). Qed.

Lemma opened_below_fresh d k U x l c ys y : wf d -> opened d k U x l c ys -> y ∈ U -> y < fresh d.
Proof. intros Hwf Ho. apply (repr_below_fresh d (JCont k l) U x); [done|]. apply repr_opened. by exists c, ys. Qed.

Lemma deref_ret x d e : nodes d !! x = Some e -> deref x d = Ret e.
Proof. intros He. unfold deref. by rewrite He. Qed.

Lemma update_ret x f d e : nodes d !! x = Some e -> update x f d = Ret (set_nodes (<[x := f e]> (nodes d)) d).
Proof. intros He. unfold update. by rewrite (deref_ret x d e He). Qed.

(** The last element of a container. *)
Lemma opened_last d k U x l c ys t :
  opened d k U x l c ys -> last ys = Some t -> t ∈ U /\ t <> x /\ is_Some (nodes d !! t).
Proof.
  intros Ho Hl. pose proof Ho as (e & _ & _ & Hx & _ & _ & _ & Hc). destruct (chain_props _ _ _ _ _ _ Hc) as (_ & _ & Hys).
  apply last_Some_elem_of in Hl. specialize (Hys t Hl). split; [done|]. split; [set_solver|].
  apply (repr_allocated d (JCont k l) U x); [|done]. apply repr_opened. by exists c, ys.
Qed.

(** The elements after an element [n] was linked behind [tail]. *)
Lemma link_nodes d0 d x tail n en e :
  nodes d0 !! x = Some e -> x <> n -> nodes d = <[n := en]> (nodes d0) ->
  (forall t, tail = Some t -> t <> x /\ t <> n /\ is_Some (nodes d0 !! t)) ->
  let e1 := set_size (S (size_ e)) e in
  exists d', (e ← deref x d; d ← update x (set_size (S (size_ e))) d; link x tail n d) = Ret d'
    /\ nodes d' !! x = Some (match tail with Some _ => e1 | None => set_value (child_ (Some n)) e1 end)
    /\ nodes d' !! n = Some en
    /\ (forall z, z <> x -> z <> n -> tail <> Some z -> nodes d' !! z = nodes d0 !! z)
    /\ (forall t et, tail = Some t -> nodes d0 !! t = Some et -> nodes d' !! t = Some (set_next (Some n) et))
    /\ fresh d' = fresh d /\ elements_ d' = elements_ d /\ capacity d' = capacity d.
Proof.
  intros He Hxn Hm Ht e1.
  assert (nodes d !! x = Some e) as Hx by (rewrite Hm, lookup_insert_ne; done).
  rewrite (deref_ret x d e Hx). cbn [mbind outcome_bind]. rewrite (update_ret x _ d e Hx). cbn [mbind outcome_bind]. fold e1.
  set (d1 := set_nodes _ d). unfold link. destruct tail as [t|].
  - destruct (Ht t eq_refl) as (Htx & Htn & [et Het]).
    assert (nodes d1 !! t = Some et) as Ht1 by (cbn; rewrite lookup_insert_ne, Hm, lookup_insert_ne; done).
    rewrite (update_ret t _ d1 et Ht1). eexists. split; [reflexivity|]. cbn [nodes set_nodes d1]. rewrite Hm.
    split; [by rewrite lookup_insert_ne, lookup_insert_eq|].
    split; [by rewrite !lookup_insert_ne, lookup_insert_eq by done|].
    split; [intros z Hzx Hzn Hzt; rewrite !lookup_insert_ne; congruence|].
    split; [|done]. intros t' et' [= <-] Het'. rewrite lookup_insert_eq. congruence.
  - assert (nodes d1 !! x = Some e1) as Hx1 by (cbn; by rewrite lookup_insert_eq).
    rewrite (update_ret x _ d1 e1 Hx1). eexists. split; [reflexivity|]. cbn [nodes set_nodes d1]. rewrite Hm.
    split; [by rewrite lookup_insert_eq|].
    split; [by rewrite !lookup_insert_ne, lookup_insert_eq by done|].
    split; [intros z Hzx Hzn Hzt; rewrite !lookup_insert_ne; congruence|]. done.
Qed.

(** What [at] does with an element that was allocated. *)
Lemma link_spec d0 d k U x l c ys key en :
  wf d0 -> opened d0 k U x l c ys ->
  nodes d = <[fresh d0 := en]> (nodes d0) -> fresh d = fresh d0 + 1 ->
  length (elements_ d) = length (elements_ d0) + 1 -> capacity d = capacity d0 ->
  next_ en = None -> key_ok k key en -> same_value (new_element true NULL_VALUE) en ->
  exists d' U', (e ← deref x d; d ← update x (set_size (S (size_ e))) d; link x (last ys) (fresh d0) d) = Ret d'
    /\ opened d' k U' x (l ++ [(key, JScalar SNull)]) (match ys with [] => Some (fresh d0) | _ => c end) (ys ++ [fresh d0])
    /\ evolves d0 d' x U U' 1.
Proof.
  intros Hwf Ho Hm Hf Hct Hcap Hnx Hk Hsv. pose proof Ho as (e & He & Hdoc & HxU & Hty & Hsz & Hval & Hc).
  set (n := fresh d0) in *. pose proof (Hwf x e He) as Hxn. fold n in Hxn.
  assert (forall y, y ∈ U -> y < n) as HUn by (intros y; by apply (opened_below_fresh d0 k U x l c ys)).
  set (e1 := set_size (S (size_ e)) e).
  destruct (link_nodes d0 d x (last ys) n en e He ltac:(lia) Hm) as (d' & Hrun & Hx' & Hn' & Hother & Hlast & Hf' & Hel' & Hcap').
  { intros t Hl. destruct (opened_last d0 k U x l c ys t Ho Hl) as (HtU & ? & ?). specialize (HUn t HtU).
    split; [done|]. split; [lia | done]. }
  destruct (chain_append d0 d' k key n en l ys c U Hc) as (U' & Hc' & HU'); try done.
  { intros Hn. specialize (HUn n Hn). lia. }
  { intros z Hz Hl. apply Hother; [set_solver | specialize (HUn z Hz); lia | done]. }
  exists d', U'. split; [exact Hrun|]. split.
  - eexists. split; [exact Hx'|]. unfold e1.
    assert (x ∉ U') as HxU' by (intros Hx; destruct (HU' x Hx); [done | lia]).
    rewrite length_app. cbn [length]. destruct (last ys) eqn:El; cbn; (repeat (split; [done || lia|])).
    + destruct ys; [done|]. split; [exact Hval | exact Hc'].
    + apply last_None in El as ->. split; [done | exact Hc'].
  - split; [| lia | rewrite Hel'; lia | congruence | | |].
    + intros y ey Hy. rewrite Hf'. destruct (decide (y = n)) as [-> | Hyn]; [lia|].
      destruct (decide (y = x)) as [-> | Hyx]; [lia|].
      destruct (decide (last ys = Some y)) as [Hl | Hl].
      * apply (opened_last d0 k U x l c ys y Ho) in Hl as (HyU & _). specialize (HUn y HyU). lia.
      * rewrite Hother in Hy by done. specialize (Hwf y ey Hy). fold n in Hwf. lia.
    + intros y Hy Hyx HyU. apply Hother; [done | fold n in Hy; lia|].
      intros Hl. apply (opened_last d0 k U x l c ys y Ho) in Hl as (? & _). done.
    + intros y Hy. destruct (HU' y Hy) as [? | ->]; [by left | right; done].
    + intros e0 He0. rewrite He in He0. injection He0 as <-. eexists. split; [exact Hx'|]. by destruct (last ys).
Qed.

(** What is done with one element of a container is done with the container. *)
Lemma opened_focus d k U x l1 key v l2 c ys y :
  wf d -> opened d k U x (l1 ++ (key, v) :: l2) c ys -> ys !! length l1 = Some y ->
  exists Uy, repr d v Uy y /\
    forall d' v' Uy' n, evolves d d' y Uy Uy' n -> repr d' v' Uy' y ->
    exists U', repr d' (JCont k (l1 ++ (key, v') :: l2)) U' x /\ evolves d d' x U U' n.
Proof.
  intros Hwf Ho Hy. pose proof Ho as (e & He & Hdoc & HxU & Hty & Hsz & Hval & Hc).
  destruct (chain_focus d k l1 key v l2 ys c U y Hc Hy) as (Uy & Hr & Hsub & Hfoc).
  exists Uy. split; [done|]. intros d' v' Uy' n Hev Hr'.
  assert (forall z, z ∈ U -> z < fresh d) as HU by (intros z; exact (opened_below_fresh d k U x _ c ys z Hwf Ho)).
  destruct (Hfoc d' v' Uy') as (U' & Hc' & HU').
  - intros z Hz Hzy. apply (ev_frame _ _ _ _ _ _ Hev); [by apply HU | set_solver..].
  - intros z Hz. destruct (ev_new _ _ _ _ _ _ Hev z Hz) as [? | Hf]; [by left|]. right. intros HzU. specialize (HU z HzU). lia.
  - apply (ev_place _ _ _ _ _ _ Hev).
  - done.
  - pose proof (Hwf x e He) as Hx.
    assert (evolves d d' x U U' n) as Hev' by (apply (evolves_below d d' x y U Uy Uy' U' n); [done | by exists e | done..]).
    exists U'. split; [|done]. apply repr_opened. exists c, ys, e.
    split; [rewrite (ev_frame _ _ _ _ _ _ Hev); [done | lia | set_solver..]|].
    split; [done|]. split; [intros HxU'; destruct (ev_new _ _ _ _ _ _ Hev' x HxU'); [done | lia]|].
    split; [done|]. split; [rewrite Hsz, !length_app; done | done].
Qed.

(** ** The loops *)

Lemma opened_length d k U x l c ys : wf d -> opened d k U x l c ys -> length ys = length l /\ length ys <= fresh d.
Proof.
  intros Hwf Ho. pose proof Ho as (e & _ & _ & _ & _ & _ & _ & Hc). destruct (chain_props _ _ _ _ _ _ Hc) as (Hl & Hnd & Hys).
  split; [done|]. rewrite <- (length_seq (fresh d) 0). apply NoDup_incl_length; [by apply NoDup_ListNoDup|].
  intros z Hz. apply list_elem_of_In in Hz. apply in_seq. pose proof (opened_below_fresh d k U x l c ys z Hwf Ho (Hys z Hz)). lia.
Qed.

Lemma key_loop_found d k l1 v l2 : forall ys o U tail fuel,
  chain d (repr d) Obj (l1 ++ (k, v) :: l2) ys o U -> (k ∉ l1.*1) -> length ys <= fuel ->
  exists y tl, key_loop fuel k tail o d = Ret (Some y, tl) /\ ys !! length l1 = Some y.
Proof.
  induction l1 as [|[k0 v0] l1 IH]; intros [|y ys] o U tail fuel; cbn [chain app]; try done;
    intros (e & Uy & Ul & -> & He & Hk & Hr & Hc & _) Hn Hf; destruct fuel as [|fuel]; [cbn in Hf; lia| |cbn in Hf; lia|];
    cbn [key_loop]; rewrite (deref_ret y d e He); cbn [mbind outcome_bind]; cbn in Hk; unfold key; rewrite Hk; cbn [defined mbind outcome_bind].
  - rewrite bool_decide_true by done. by exists y, tail.
  - rewrite fmap_cons, not_elem_of_cons in Hn. destruct Hn as [Hne Hn]. cbn in Hne.
    rewrite bool_decide_false by done. apply (IH ys (next_ e) Ul (Some y) fuel Hc Hn). cbn in Hf. lia.
Qed.

Lemma last_default {A} (y : A) ys tail :
  match last (y :: ys) with Some t => Some t | None => tail end = match last ys with Some t => Some t | None => Some y end.
Proof. destruct ys as [|z ys]; [done|]. rewrite last_cons_cons. by destruct (last (z :: ys)) eqn:E; [|apply last_None in E]. Qed.

Lemma key_loop_missing d k l : forall ys o U tail fuel,
  chain d (repr d) Obj l ys o U -> (k ∉ l.*1) -> length ys <= fuel ->
  key_loop fuel k tail o d = Ret (None, match last ys with Some t => Some t | None => tail end).
Proof.
  induction l as [|[k0 v0] l IH]; intros [|y ys] o U tail fuel; cbn [chain]; try done.
  - intros [-> _] _ _. by destruct fuel.
  - intros (e & Uy & Ul & -> & He & Hk & Hr & Hc & _) Hn Hf. destruct fuel as [|fuel]; [cbn in Hf; lia|].
    cbn [key_loop]; rewrite (deref_ret y d e He); cbn [mbind outcome_bind]; cbn in Hk; unfold key; rewrite Hk; cbn [defined mbind outcome_bind].
    rewrite fmap_cons, not_elem_of_cons in Hn. destruct Hn as [Hne Hn]. cbn in Hne.
    rewrite bool_decide_false by done. rewrite (IH ys (next_ e) Ul (Some y) fuel Hc Hn) by (cbn in Hf; lia).
    by rewrite last_default.
Qed.

Lemma index_loop_found d k l1 key v l2 : forall ys o U tail i fuel,
  chain d (repr d) k (l1 ++ (key, v) :: l2) ys o U -> length ys <= fuel ->
  exists y tl, index_loop fuel i (i + length l1) tail o d = Ret (Some y, tl, i + length l1) /\ ys !! length l1 = Some y.
Proof.
  induction l1 as [|[k0 v0] l1 IH]; intros [|y ys] o U tail i fuel; cbn [chain app]; try done;
    intros (e & Uy & Ul & -> & He & Hk & Hr & Hc & _) Hf; destruct fuel as [|fuel]; [cbn in Hf; lia| |cbn in Hf; lia|];
    cbn [index_loop length]; rewrite (deref_ret y d e He); cbn [mbind outcome_bind].
  - rewrite Nat.add_0_r, Nat.eqb_refl. by exists y, tail.
  - rewrite (proj2 (Nat.eqb_neq i (i + S (length l1)))) by lia. rewrite Nat.add_succ_r.
    destruct (IH ys (next_ e) Ul (Some y) (S i) fuel Hc) as (z & tl & E & Hz); [cbn in Hf; lia|].
    exists z, tl. split; [exact E | exact Hz].
Qed.

Lemma index_loop_missing d k l : forall ys o U tail i index fuel,
  chain d (repr d) k l ys o U -> i + length l <= index -> length ys <= fuel ->
  index_loop fuel i index tail o d = Ret (None, match last ys with Some t => Some t | None => tail end, i + length l).
Proof.
  induction l as [|[k0 v0] l IH]; intros [|y ys] o U tail i index fuel; cbn [chain]; try done.
  - intros [-> _] _ _. rewrite Nat.add_0_r. by destruct fuel.
  - intros (e & Uy & Ul & -> & He & Hk & Hr & Hc & _) Hi Hf. destruct fuel as [|fuel]; [cbn in Hf; lia|].
    cbn [index_loop length] in *; rewrite (deref_ret y d e He); cbn [mbind outcome_bind].
    rewrite (proj2 (Nat.eqb_neq i index)) by lia.
    rewrite (IH ys (next_ e) Ul (Some y) (S i) index fuel Hc) by lia. rewrite last_default. do 2 f_equal. lia.
Qed.

(** ** What the operations implement *)

#[export] Instance kind_eqdec : EqDecision kind.
Proof. solve_decision. Defined.

(** A null becomes an empty container. *)
Definition as_kind (k : kind) (v : json) : option (list (str * json)) :=
  match v with
  | JScalar SNull => Some []
  | JCont k' l => if decide (k' = k) then Some l else None
  | JScalar _ => None
  end.

Lemma set_nodes_id d x e : nodes d !! x = Some e -> set_nodes (<[x := e]> (nodes d)) d = d.
Proof. intros He. rewrite insert_id by done. by destruct d. Qed.

Lemma is_type_spec ts e : is_type ts e = true <-> element_type_ e ∈ ts.
Proof. apply bool_decide_eq_true. Qed.

(** The element of a value that is no container of the kind has another type. *)
Lemma other_type d k v U x e :
  repr d v U x -> nodes d !! x = Some e -> as_kind k v = None -> is_type [type_of k; NULL_VALUE] e = false.
Proof.
  intros Hr He Hk. apply not_true_iff_false. rewrite is_type_spec, !elem_of_cons.
  destruct v as [s | k' l]; destruct Hr as (e' & He' & _ & _ & Hv); rewrite He in He'; injection He' as <-.
  - destruct Hv as (-> & _). destruct s, k; try done; cbn; intros [? | [? | ?%elem_of_nil]]; done.
  - destruct Hv as (-> & _). cbn in Hk. destruct (decide (k' = k)); [done|].
    destruct k, k'; try done; cbn; intros [? | [? | ?%elem_of_nil]]; done.
Qed.

(** Setting the type opens the container. *)
Lemma open_container d k v l U x :
  wf d -> repr d v U x -> as_kind k v = Some l ->
  exists e d1 c ys, nodes d !! x = Some e /\ is_type [type_of k; NULL_VALUE] e = true
    /\ update x (set_type (type_of k)) d = Ret d1 /\ child e = Ret c /\ fresh d1 = fresh d
    /\ opened d1 k U x l c ys /\ evolves d d1 x U U 0.
Proof.
  intros Hwf Hr Hk. destruct v as [s | k' l'].
  - destruct s; try done. injection Hk as <-. destruct Hr as (e & He & Hdoc & _ & Ht & Hv & Hs & ->). cbn in Ht, Hv, Hs.
    exists e, (set_nodes (<[x := set_type (type_of k) e]> (nodes d)) d), None, [].
    split; [done|]. split; [rewrite is_type_spec, Ht; right; left|]. split; [by apply update_ret|].
    split; [unfold child; by rewrite Hv|]. split; [done|]. split.
    + exists (set_type (type_of k) e). cbn [nodes set_nodes]. rewrite lookup_insert_eq. repeat (split; [done|]). set_solver.
    + split; cbn; try done; try lia.
      * intros y ey. cbn. destruct (decide (y = x)) as [-> | Hy]; [intros _; by apply (Hwf x e)|].
        rewrite lookup_insert_ne by done. apply Hwf.
      * intros y _ Hy _. by rewrite lookup_insert_ne.
      * intros e' He'. rewrite He in He'. injection He' as <-. eexists. cbn. by rewrite lookup_insert_eq.
  - cbn in Hk. destruct (decide (k' = k)) as [-> | ?]; [|done]. injection Hk as ->.
    apply repr_opened in Hr as (c & ys & Ho). pose proof Ho as (e & He & _ & _ & Ht & _ & Hv & _).
    exists e, d, c, ys. split; [done|]. split; [rewrite is_type_spec, Ht; left|].
    assert (set_type (type_of k) e = e) as E by (destruct e; cbn in *; by rewrite Ht).
    split; [rewrite (update_ret x _ d e He), E, set_nodes_id; done|]. split; [unfold child; by rewrite Hv|].
    split; [done|]. split; [done|]. by apply evolves_refl.
Qed.

Section operations.
Context (grow : nat -> nat).

Lemma alloc_ret t d : length (elements_ d) + 1 <= capacity d ->
  alloc_element grow t d = (fresh d, mkDocument (<[fresh d := new_element true t]> (nodes d)) (S (fresh d))
    (elements_ d ++ [fresh d]) (capacity d)).
Proof. intros Hc. unfold alloc_element. by rewrite (proj2 (Nat.ltb_lt (length (elements_ d)) (capacity d))) by lia. Qed.

(** Something is done after the element was linked. *)
Lemma link_bind {A} (f : MutableDocument -> outcome A) x tail n d d' :
  (e ← deref x d; d ← update x (set_size (S (size_ e))) d; link x tail n d) = Ret d' ->
  (e ← deref x d; d ← update x (set_size (S (size_ e))) d; d ← link x tail n d; f d) = f d'.
Proof.
  destruct (deref x d) as [e| |]; cbn [mbind outcome_bind]; try done.
  destruct (update x _ d) as [d1| |]; cbn [mbind outcome_bind]; try done. by intros ->.
Qed.

(** [at] for a key that is there, and for one that is not. *)
Lemma at_key_found d u l1 k v l2 U x :
  wf d -> repr d u U x -> as_kind Obj u = Some (l1 ++ (k, v) :: l2) -> (k ∉ l1.*1) ->
  exists y d1 c ys, at_key grow x k d = Ret (y, d1) /\ opened d1 Obj U x (l1 ++ (k, v) :: l2) c ys
    /\ ys !! length l1 = Some y /\ evolves d d1 x U U 0.
Proof.
  intros Hwf Hr Hk Hn. destruct (open_container d Obj u _ U x Hwf Hr Hk) as (e & d1 & c & ys & He & Ht & Hu & Hc & Hf & Ho & Hev).
  pose proof Ho as (e1 & He1 & _ & _ & _ & _ & _ & Hch).
  destruct (key_loop_found d1 k l1 v l2 ys c U None (fresh d1) Hch Hn) as (y & tl & Hloop & Hy).
  { exact (proj2 (opened_length d1 Obj U x _ c ys (ev_wf _ _ _ _ _ _ Hev) Ho)). }
  exists y, d1, c, ys. split; [|done]. unfold at_key. rewrite (deref_ret x d e He). cbn [mbind outcome_bind].
  change [type_of Obj; NULL_VALUE] with [OBJECT; NULL_VALUE] in Ht. rewrite Ht. cbn [negb].
  change (set_type OBJECT) with (set_type (type_of Obj)). rewrite Hu. cbn [mbind outcome_bind].
  rewrite Hc. cbn [mbind outcome_bind]. by rewrite Hloop.
Qed.

Lemma at_key_missing d u l k U x :
  wf d -> repr d u U x -> as_kind Obj u = Some l -> (k ∉ l.*1) -> length (elements_ d) + 1 <= capacity d ->
  exists y d1 U1 c ys, at_key grow x k d = Ret (y, d1) /\ opened d1 Obj U1 x (l ++ [(k, JScalar SNull)]) c ys
    /\ ys !! length l = Some y /\ evolves d d1 x U U1 1.
Proof.
  intros Hwf Hr Hk Hn Hroom. destruct (open_container d Obj u _ U x Hwf Hr Hk) as (e & d1 & c & ys & He & Ht & Hu & Hc & Hf & Ho & Hev).
  pose proof Ho as (e1 & He1 & _ & _ & _ & _ & _ & Hch). pose proof (ev_wf _ _ _ _ _ _ Hev) as Hwf1.
  pose proof (opened_length d1 Obj U x _ c ys Hwf1 Ho) as [Hlen Hfuel].
  pose proof (key_loop_missing d1 k l ys c U None (fresh d1) Hch Hn Hfuel) as Hloop.
  assert (match last ys with Some t => Some t | None => None end = last ys) as E by (by destruct (last ys)). rewrite E in Hloop.
  set (n := fresh d1).
  set (d2 := mkDocument (<[n := set_key (Some k) (new_element true NULL_VALUE)]> (nodes d1)) (S n) (elements_ d1 ++ [n]) (capacity d1)).
  destruct (link_spec d1 d2 Obj U x l c ys k (set_key (Some k) (new_element true NULL_VALUE)) Hwf1 Ho)
    as (d3 & U' & Hlink & Ho3 & Hev3); try done; [cbn; lia | cbn; by rewrite length_app|].
  exists n, d3, U', (match ys with [] => Some n | _ => c end), (ys ++ [n]).
  split; [|split; [done|split]].
  - unfold at_key. rewrite (deref_ret x d e He). cbn [mbind outcome_bind].
    change [type_of Obj; NULL_VALUE] with [OBJECT; NULL_VALUE] in Ht. rewrite Ht. cbn [negb].
    change (set_type OBJECT) with (set_type (type_of Obj)). rewrite Hu. cbn [mbind outcome_bind].
    rewrite Hc. cbn [mbind outcome_bind]. rewrite Hloop. cbn [mbind outcome_bind].
    assert (document_ e = true) as ->.
    { destruct (repr_self _ _ _ _ Hr) as (e0 & He0 & Hd0 & _). congruence. }
    cbn [negb]. rewrite alloc_ret by (rewrite (ev_count _ _ _ _ _ _ Hev), (ev_capacity _ _ _ _ _ _ Hev); lia). fold n.
    rewrite (update_ret n _ _ (new_element true NULL_VALUE)) by (cbn; by rewrite lookup_insert_eq).
    cbn [mbind outcome_bind nodes]. rewrite insert_insert_eq. exact (link_bind (fun d => Ret (n, d)) x _ n d2 d3 Hlink).
  - rewrite <- Hlen. rewrite lookup_app_r, Nat.sub_diag; done.
  - by apply (evolves_trans d d1 d3 x U U U' 0 1).
Qed.

Definition null_item : str * json := ([], JScalar SNull).

(** The elements that [at] appends. *)
Lemma append_loop_spec m : forall d U x l c ys,
  wf d -> opened d Arr U x l c ys -> length (elements_ d) + m <= capacity d ->
  exists d' U' c' ys', append_loop grow m x (last ys) d = Ret (last ys', d')
    /\ opened d' Arr U' x (l ++ replicate m null_item) c' ys' /\ evolves d d' x U U' m.
Proof.
  induction m as [|m IH]; intros d U x l c ys Hwf Ho Hroom.
  - exists d, U, c, ys. split; [done|]. split; [by rewrite app_nil_r | by apply evolves_refl].
  - pose proof Ho as (e & He & Hdoc & _). set (n := fresh d).
    set (d2 := mkDocument (<[n := new_element true NULL_VALUE]> (nodes d)) (S n) (elements_ d ++ [n]) (capacity d)).
    destruct (link_spec d d2 Arr U x l c ys [] (new_element true NULL_VALUE) Hwf Ho)
      as (d3 & U3 & Hlink & Ho3 & Hev3); try done; [cbn; lia | cbn; by rewrite length_app|].
    destruct (IH d3 U3 x _ _ _ (ev_wf _ _ _ _ _ _ Hev3) Ho3) as (d' & U' & c' & ys' & Hrun & Ho' & Hev').
    { rewrite (ev_count _ _ _ _ _ _ Hev3), (ev_capacity _ _ _ _ _ _ Hev3). lia. }
    exists d', U', c', ys'. split; [|split].
    + cbn [append_loop]. rewrite (deref_ret x d e He). cbn [mbind outcome_bind]. rewrite Hdoc. cbn [negb].
      rewrite alloc_ret by lia. fold n. rewrite last_snoc in Hrun. rewrite <- Hrun.
      exact (link_bind (append_loop grow m x (Some n)) x _ n d2 d3 Hlink).
    + by rewrite <- app_assoc in Ho'.
    + by apply (evolves_trans d d3 d' x U U3 U' 1 m).
Qed.

(** [at] for an index. *)
Lemma at_index_spec d u l i U x :
  wf d -> repr d u U x -> as_kind Arr u = Some l -> length (elements_ d) + (S i - length l) <= capacity d ->
  exists y d1 U1 c ys, at_index grow x i d = Ret (y, d1)
    /\ opened d1 Arr U1 x (l ++ replicate (S i - length l) null_item) c ys
    /\ ys !! i = Some y /\ evolves d d1 x U U1 (S i - length l).
Proof.
  intros Hwf Hr Hk Hroom. destruct (open_container d Arr u _ U x Hwf Hr Hk) as (e & d1 & c & ys & He & Ht & Hu & Hc & Hf & Ho & Hev).
  pose proof Ho as (e1 & He1 & _ & _ & _ & _ & _ & Hch). pose proof (ev_wf _ _ _ _ _ _ Hev) as Hwf1.
  pose proof (opened_length d1 Arr U x _ c ys Hwf1 Ho) as [Hlen Hfuel].
  assert (forall A (f : _ -> outcome A), (e ← deref x d; if negb (is_type [ARRAY; NULL_VALUE] e) then Throw else
      d ← update x (set_type ARRAY) d; c ← child e; r ← index_loop (fresh d) 0 i None c d; f (r, d))
      = (r ← index_loop (fresh d1) 0 i None c d1; f (r, d1))) as Hrun.
  { intros A f. rewrite (deref_ret x d e He). cbn [mbind outcome_bind].
    change [type_of Arr; NULL_VALUE] with [ARRAY; NULL_VALUE] in Ht. rewrite Ht. cbn [negb].
    change (set_type ARRAY) with (set_type (type_of Arr)). rewrite Hu. cbn [mbind outcome_bind]. by rewrite Hc. }
  unfold at_index. rewrite (Hrun _ (fun '(r, d) => let '(found, tail, i') := r in
    match found with Some y => Ret (y, d) | None => '(y, d) ← append_loop grow (S i - i') x tail d; y ← defined y; Ret (y, d) end)).
  destruct (decide (i < length l)) as [Hi | Hi].
  - replace (S i - length l) with 0 by lia. rewrite app_nil_r.
    destruct (lookup_lt_is_Some_2 l i Hi) as [[key v] Hl].
    pose proof (take_drop_middle l i (key, v) Hl) as Hsplit. rewrite <- Hsplit in Hch.
    assert (length (take i l) = i) as Hti by (rewrite length_take; lia).
    destruct (index_loop_found d1 Arr _ key v _ ys c U None 0 (fresh d1) Hch Hfuel) as (y & tl & Hloop & Hy).
    rewrite Hti in Hloop, Hy. cbn [Nat.add] in Hloop. rewrite Hloop. cbn [mbind outcome_bind].
    by exists y, d1, U, c, ys.
  - rewrite (index_loop_missing d1 Arr l ys c U None 0 i (fresh d1) Hch) by lia. cbn [mbind outcome_bind].
    assert (match last ys with Some t => Some t | None => None end = last ys) as -> by (by destruct (last ys)).
    destruct (append_loop_spec (S i - length l) d1 U x l c ys Hwf1 Ho) as (d2 & U2 & c2 & ys2 & Happ & Ho2 & Hev2).
    { rewrite (ev_count _ _ _ _ _ _ Hev), (ev_capacity _ _ _ _ _ _ Hev). lia. }
    pose proof (opened_length d2 Arr U2 x _ c2 ys2 (ev_wf _ _ _ _ _ _ Hev2) Ho2) as [Hlen2 _].
    rewrite length_app, length_replicate in Hlen2.
    destruct (lookup_lt_is_Some_2 ys2 i) as [y Hy]; [lia|].
    cbn [Nat.add]. rewrite Happ. cbn [mbind outcome_bind].
    assert (last ys2 = Some y) as -> by (rewrite last_lookup; by replace (Nat.pred (length ys2)) with i by lia).
    exists y, d2, U2, c2, ys2. split; [done|]. split; [done|]. split; [done|].
    by apply (evolves_trans d d1 d2 x U U U2 0).
Qed.

(** What an operation on an element does to the value: how many elements it allocates, and
    the new value, or nothing if it throws. *)
Definition action : Type := json -> nat * option json.

Definition implements (f : nat -> MutableDocument -> outcome MutableDocument) (g : action) : Prop :=
  forall d x U v, wf d -> repr d v U x -> length (elements_ d) + (g v).1 <= capacity d ->
  match (g v).2 with
  | Some v' => exists d' U', f x d = Ret d' /\ repr d' v' U' x /\ evolves d d' x U U' (g v).1
  | None => f x d = Throw
  end.

(** One action, then another. *)
Definition then_do (g1 g2 : action) : action := fun v =>
  match (g1 v).2 with
  | Some v' => ((g1 v).1 + (g2 v').1, (g2 v').2)
  | None => ((g1 v).1, None)
  end.

Definition assign_value (s : scalar) : action := fun _ => (0, Some (JScalar s)).

(** An action on the element with a key, which is made if there is none. *)
Fixpoint on_key (k : str) (g : action) (l : list (str * json)) : nat * option (list (str * json)) :=
  match l with
  | [] => (S (g (JScalar SNull)).1, (fun w => [(k, w)]) <$> (g (JScalar SNull)).2)
  | (k', v) :: l =>
      if decide (k' = k) then ((g v).1, (fun w => (k', w) :: l) <$> (g v).2)
      else ((on_key k g l).1, cons (k', v) <$> (on_key k g l).2)
  end.
Definition key_value (k : str) (g : action) : action := fun v =>
  match as_kind Obj v with
  | Some l => ((on_key k g l).1, JCont Obj <$> (on_key k g l).2)
  | None => (0, None)
  end.

(** An action on the element at an index, up to which elements are made. *)
Definition index_value (i : nat) (g : action) : action := fun v =>
  match as_kind Arr v with
  | Some l =>
      let l' := l ++ replicate (S i - length l) null_item in
      match l' !! i with
      | Some (key, w) => (S i - length l + (g w).1, (fun w' => JCont Arr (<[i := (key, w')]> l')) <$> (g w).2)
      | None => (0, None)
      end
  | None => (0, None)
  end.

Lemma on_key_cases k g l :
  (exists l1 v l2, l = l1 ++ (k, v) :: l2 /\ (k ∉ l1.*1)
     /\ on_key k g l = ((g v).1, (fun w => l1 ++ (k, w) :: l2) <$> (g v).2))
  \/ ((k ∉ l.*1) /\ on_key k g l = (S (g (JScalar SNull)).1, (fun w => l ++ [(k, w)]) <$> (g (JScalar SNull)).2)).
Proof.
  induction l as [|[k' v'] l IH]; cbn [on_key].
  - right. split; [by intros ?%elem_of_nil | done].
  - case_decide as Hk.
    + subst k'. left. exists [], v', l. split; [done|]. split; [by intros ?%elem_of_nil | done].
    + rewrite !fmap_cons, !not_elem_of_cons. destruct IH as [(l1 & v & l2 & -> & Hn & E) | [Hn E]]; rewrite E.
      * left. exists ((k', v') :: l1), v, l2. split; [done|]. split; [by rewrite fmap_cons, not_elem_of_cons|].
        cbn. f_equal. by destruct (g v).2.
      * right. split; [done|]. cbn. f_equal. by destruct (g (JScalar SNull)).2.
Qed.

Lemma evolves_room d d' x U U' n : evolves d d' x U U' n ->
  forall m, length (elements_ d) + (n + m) <= capacity d <-> length (elements_ d') + m <= capacity d'.
Proof. intros Hev m. rewrite (ev_count _ _ _ _ _ _ Hev), (ev_capacity _ _ _ _ _ _ Hev). lia. Qed.

(** An action on an element of an open container. *)
Lemma focus_implements f g d d1 k u U U1 x l1 key v l2 c ys y n :
  implements f g -> evolves d d1 x U U1 n -> repr d u U x ->
  opened d1 k U1 x (l1 ++ (key, v) :: l2) c ys -> ys !! length l1 = Some y ->
  length (elements_ d) + (n + (g v).1) <= capacity d ->
  match (g v).2 with
  | Some v' => exists d' U', f y d1 = Ret d' /\ repr d' (JCont k (l1 ++ (key, v') :: l2)) U' x
      /\ evolves d d' x U U' (n + (g v).1)
  | None => f y d1 = Throw
  end.
Proof.
  intros Hf Hev _ Ho Hy Hroom. pose proof (ev_wf _ _ _ _ _ _ Hev) as Hwf1.
  destruct (opened_focus d1 k U1 x l1 key v l2 c ys y Hwf1 Ho Hy) as (Uy & Hry & Hfoc).
  specialize (Hf d1 y Uy v Hwf1 Hry (proj1 (evolves_room _ _ _ _ _ _ Hev _) Hroom)).
  destruct (g v).2 as [v'|]; [|exact Hf].
  destruct Hf as (d' & Uy' & Hrun & Hr' & Hevy). destruct (Hfoc d' v' Uy' _ Hevy Hr') as (U' & Hr2 & Hev2).
  exists d', U'. split; [done|]. split; [done|]. by apply (evolves_trans d d1 d' x U U1 U').
Qed.

Lemma implements_key k f g :
  implements f g -> implements (fun x d => '(y, d) ← at_key grow x k d; f y d) (key_value k g).
Proof.
  intros Hf d x U v Hwf Hr. unfold key_value. destruct (as_kind Obj v) as [l|] eqn:Hk.
  - cbn [fst snd]. destruct (on_key_cases k g l) as [(l1 & w & l2 & -> & Hn & ->) | [Hn ->]]; cbn [fst snd]; intros Hroom.
    + destruct (at_key_found d v l1 k w l2 U x Hwf Hr Hk Hn) as (y & d1 & c & ys & -> & Ho & Hy & Hev). cbn [mbind outcome_bind].
      pose proof (focus_implements f g d d1 Obj v U U x l1 k w l2 c ys y 0 Hf Hev Hr Ho Hy Hroom) as Hres.
      by destruct (g w).2.
    + destruct (at_key_missing d v l k U x Hwf Hr Hk Hn) as (y & d1 & U1 & c & ys & -> & Ho & Hy & Hev); [lia|]. cbn [mbind outcome_bind].
      pose proof (focus_implements f g d d1 Obj v U U1 x l k (JScalar SNull) [] c ys y 1 Hf Hev Hr Ho Hy Hroom) as Hres.
      by destruct (g (JScalar SNull)).2.
  - cbn [fst snd]. intros _. destruct (repr_self _ _ _ _ Hr) as (e & He & _).
    unfold at_key. rewrite (deref_ret x d e He). cbn [mbind outcome_bind].
    pose proof (other_type d Obj v U x e Hr He Hk) as Ht. cbn [type_of] in Ht. by rewrite Ht.
Qed.

Lemma implements_index i f g :
  implements f g -> implements (fun x d => '(y, d) ← at_index grow x i d; f y d) (index_value i g).
Proof.
  intros Hf d x U v Hwf Hr. unfold index_value. destruct (as_kind Arr v) as [l|] eqn:Hk.
  - cbv zeta. set (l' := l ++ _). assert (i < length l') as Hi by (unfold l'; rewrite length_app, length_replicate; lia).
    destruct (lookup_lt_is_Some_2 l' i Hi) as [[key w] Hl]. rewrite Hl. cbn [fst snd]. intros Hroom.
    destruct (at_index_spec d v l i U x Hwf Hr Hk) as (y & d1 & U1 & c & ys & -> & Ho & Hy & Hev); [lia|].
    cbn [mbind outcome_bind]. fold l' in Ho. pose proof (take_drop_middle l' i (key, w) Hl) as Hsplit.
    rewrite <- Hsplit in Ho. assert (length (take i l') = i) as Hti by (rewrite length_take; lia).
    pose proof (focus_implements f g d d1 Arr v U U1 x (take i l') key w (drop (S i) l') c ys y _ Hf Hev Hr Ho) as Hres.
    rewrite Hti in Hres. specialize (Hres Hy Hroom). destruct (g w).2 as [w'|]; [|exact Hres]. cbn.
    by rewrite insert_take_drop.
  - cbn [fst snd]. intros _. destruct (repr_self _ _ _ _ Hr) as (e & He & _).
    unfold at_index. rewrite (deref_ret x d e He). cbn [mbind outcome_bind].
    pose proof (other_type d Arr v U x e Hr He Hk) as Ht. cbn [type_of] in Ht. by rewrite Ht.
Qed.

Lemma implements_then f1 g1 f2 g2 :
  implements f1 g1 -> implements f2 g2 -> implements (fun x d => d ← f1 x d; f2 x d) (then_do g1 g2).
Proof.
  intros H1 H2 d x U v Hwf Hr. specialize (H1 d x U v Hwf Hr). unfold then_do.
  destruct (g1 v) as [n [v1|]]; cbn [fst snd] in *; intros Hroom.
  - destruct H1 as (d1 & U1 & -> & Hr1 & Hev1); [lia|]. cbn [mbind outcome_bind].
    specialize (H2 d1 x U1 v1 (ev_wf _ _ _ _ _ _ Hev1) Hr1 (proj1 (evolves_room _ _ _ _ _ _ Hev1 _) Hroom)).
    destruct (g2 v1) as [m [v2|]]; cbn [fst snd] in *; [|exact H2].
    destruct H2 as (d2 & U2 & -> & Hr2 & Hev2). exists d2, U2. split; [done|]. split; [done|].
    by apply (evolves_trans d d1 d2 x U U1 U2).
  - rewrite H1 by lia. done.
Qed.

Lemma implements_assign s : implements (fun x d => assign grow x (scalar_element s) d) (assign_value s).
Proof.
  intros d x U v Hwf Hr _. cbn [assign_value fst snd]. destruct (repr_self _ _ _ _ Hr) as (e & He & Hdoc & Hx).
  unfold assign. rewrite (update_ret x _ d e He). cbn [mbind outcome_bind].
  assert (is_type [ARRAY; OBJECT] (scalar_element s) = false) as ->.
  { apply not_true_iff_false. rewrite is_type_spec, !elem_of_cons. by destruct s; cbn; intros [? | [? | ?%elem_of_nil]]. }
  eexists _, ∅. split; [reflexivity|]. split.
  - eexists. cbn [nodes set_nodes]. split; [by rewrite lookup_insert_eq|]. cbn. split; [done|]. split; [set_solver | done].
  - split; cbn; try done; try lia.
    + intros y ey. cbn. destruct (decide (y = x)) as [-> | Hy]; [intros _; by apply (Hwf x e)|].
      rewrite lookup_insert_ne by done. apply Hwf.
    + intros y _ Hy _. by rewrite lookup_insert_ne.
    + intros e' He'. rewrite He in He'. injection He' as <-. eexists. cbn. by rewrite lookup_insert_eq.
Qed.

End operations.
