(* ===== verification/JsonOps.v ===== *)
(** * What JSON documents compute

    Erasing and printing, sequences of operations on a document against functional
    updates of its value, copies of parsed texts, and where the representation breaks. *)
From Stdlib Require Import String.
From S2P Require Import Prelude Text Json JsonDoc.
#[local] Open Scope nat_scope.

(** ** Erasing *)

(** One element is taken out of a chain. *)
Lemma chain_remove d d' k l1 key v l2 : forall ys o U y e,
  chain d (repr d) k (l1 ++ (key, v) :: l2) ys o U -> ys !! length l1 = Some y -> nodes d !! y = Some e ->
  (forall z, z ∈ U -> last (take (length l1) ys) <> Some z -> nodes d' !! z = nodes d !! z) ->
  (forall t et, last (take (length l1) ys) = Some t -> nodes d !! t = Some et -> nodes d' !! t = Some (set_next (next_ e) et)) ->
  exists U', chain d' (repr d') k (l1 ++ l2) (take (length l1) ys ++ drop (S (length l1)) ys)
      (match l1 with [] => next_ e | _ => o end) U'
    /\ (forall z, z ∈ U' -> z ∈ U).
Proof.
  induction l1 as [|[k0 v0] l1 IH]; intros [|y0 ys] o U y e; cbn [chain app length lookup list_lookup take drop]; try done.
  - intros (e0 & Uy & Ul & -> & He0 & Hk & Hr & Hc & Hy & Hdis & ->) [= ->] He Hd _.
    rewrite He in He0. injection He0 as <-. exists Ul. split; [|set_solver].
    eapply chain_frame; [| |exact Hc].
    + intros w Uw z _ Hsub Hw. eapply repr_frame; [exact Hw | |].
      * intros u Hu. by apply Hd; [set_solver|].
      * intros ez Hz. exists ez. split; [rewrite Hd by (set_solver || done); done | done].
    + intros z Hz. by apply Hd; [set_solver|].
  - intros (e0 & Uy & Ul & -> & He0 & Hk & Hr & Hc & Hy & Hdis & ->) Hl He Hd Ht.
    pose proof (chain_props _ _ _ _ _ _ Hc) as (_ & _ & Hys).
    destruct (IH ys (next_ e0) Ul y e Hc Hl He) as (U' & Hc' & HU').
    { intros z Hz Hn. apply Hd; [set_solver|]. destruct (take (length l1) ys) as [|t ts]; [by intros [= ->]|]. by rewrite last_cons_cons. }
    { intros t et Hlast. apply Ht. destruct (take (length l1) ys) as [|t0 ts]; [done|]. by rewrite last_cons_cons. }
    destruct (repr_self _ _ _ _ Hr) as (e1 & He1 & _ & Hyy).
    assert (repr d' v0 Uy y0) as Hr'.
    { apply (repr_frame d _ _ _ _ Hr).
      - intros z Hz. apply Hd; [set_solver|]. intros Hlast. destruct (take (length l1) ys) as [|t ts] eqn:Et.
        + cbn in Hlast. congruence.
        + rewrite last_cons_cons, <- Et in Hlast. apply last_Some_elem_of in Hlast.
          assert (z ∈ ys) as Hz' by (rewrite <- (take_drop (length l1) ys), elem_of_app; by left).
          specialize (Hys z Hz'). set_solver.
      - intros e2 He2. destruct (decide (last (y0 :: take (length l1) ys) = Some y0)) as [Hlast | Hlast].
        + exists (set_next (next_ e) e2). split; [by apply Ht | done].
        + exists e2. split; [rewrite Hd by (done || set_solver); done | done]. }
    exists ({[y0]} ∪ Uy ∪ U'). split; [|set_solver].
    destruct l1 as [|kv1 l1].
    + exists (set_next (next_ e) e0), Uy, U'. split; [done|]. split; [by apply Ht|].
      split; [by destruct k|]. split; [done|]. split; [exact Hc'|]. set_solver.
    + exists e0, Uy, U'. split; [done|]. split; [rewrite Hd; [done | set_solver | ]|].
      { destruct ys as [|y1 ys]; [done|]. cbn [length take]. rewrite last_cons_cons. intros Hlast%last_Some_elem_of.
        apply Hy, Hys. rewrite <- (take_drop (length (kv1 :: l1)) (y1 :: ys)), elem_of_app. by left. }
      repeat (split; [done|]). set_solver.
Qed.

(** The loop finds the element before. *)
Lemma erase_loop_spec d x k l1 key v l2 : forall ys o U y fuel,
  chain d (repr d) k (l1 ++ (key, v) :: l2) ys o U -> ys !! length l1 = Some y -> l1 <> [] -> length ys <= fuel ->
  exists t et, last (take (length l1) ys) = Some t /\ nodes d !! t = Some et
    /\ erase_loop fuel x y o d =
      (victim ← deref y d;
       d ← update t (set_next (next_ victim)) d;
       xe ← deref x d;
       d ← update x (set_size (size_ xe - 1)) d;
       Ret (next_ victim, d)).
Proof.
  induction l1 as [|[k0 v0] l1 IH]; intros [|y0 ys] o U y fuel; cbn [chain app]; try done.
  intros (e & Uy & Ul & -> & He & Hk & Hr & Hc & _) Hl _ Hf. destruct fuel as [|fuel]; [cbn in Hf; lia|].
  cbn [erase_loop]. rewrite (deref_ret y0 d e He). cbn [mbind outcome_bind].
  destruct l1 as [|kv1 l1].
  - destruct ys as [|y1 ys]; [done|]. cbn in Hl. injection Hl as ->. cbn [chain app] in Hc. destruct v; destruct Hc as (e1 & _ & _ & -> & _);
      rewrite bool_decide_true by done; by exists y0, e.
  - assert (next_ e <> Some y) as Hne.
    { destruct ys as [|y1 ys]; [done|]. pose proof (chain_props _ _ _ _ _ _ Hc) as (_ & Hnd & _).
      destruct kv1. cbn [chain app] in Hc. destruct Hc as (e1 & _ & _ & -> & _). intros [= ->].
      cbn in Hl. apply list_elem_of_lookup_2 in Hl. by apply NoDup_cons in Hnd as []. }
    rewrite bool_decide_false by done.
    destruct (IH ys (next_ e) Ul y fuel Hc Hl ltac:(done) ltac:(cbn in Hf; lia)) as (t & et & Hlast & Het & ->).
    exists t, et. split; [|done]. cbn [length take]. destruct ys as [|y1 ys]; [done|]. cbn [length take] in *. by rewrite last_cons_cons.
Qed.

(** The elements after erasing: the head, or the one before, points past the element. *)
Lemma erase_nodes d k U x l1 key v l2 c ys y ey :
  wf d -> opened d k U x (l1 ++ (key, v) :: l2) c ys -> ys !! length l1 = Some y -> nodes d !! y = Some ey ->
  exists e d', nodes d !! x = Some e /\ erase x (Some y) d = Ret (next_ ey, d')
    /\ nodes d' !! x = Some (set_size (size_ e - 1) (match l1 with [] => set_value (child_ (next_ ey)) e | _ => e end))
    /\ (forall z, z <> x -> last (take (length l1) ys) <> Some z -> nodes d' !! z = nodes d !! z)
    /\ (forall t et, last (take (length l1) ys) = Some t -> nodes d !! t = Some et -> nodes d' !! t = Some (set_next (next_ ey) et))
    /\ fresh d' = fresh d /\ elements_ d' = elements_ d /\ capacity d' = capacity d.
Proof.
  intros Hwf Ho Hy Hey. pose proof Ho as (e & He & Hdoc & HxU & Hty & Hsz & Hval & Hc).
  pose proof (chain_props _ _ _ _ _ _ Hc) as (_ & Hnd & Hys). exists e.
  unfold erase. rewrite (deref_ret x d e He). cbn [mbind outcome_bind]. unfold child. rewrite Hval. cbn [mbind outcome_bind].
  destruct l1 as [|kv1 l1].
  - destruct ys as [|y0 ys]; [done|]. cbn in Hy. injection Hy as ->. cbn [chain app] in Hc.
    destruct Hc as (e0 & _ & _ & -> & _). rewrite bool_decide_true by done.
    rewrite (deref_ret y d ey Hey). cbn [mbind outcome_bind]. rewrite (update_ret x _ d e He). cbn [mbind outcome_bind].
    set (d1 := set_nodes _ d). rewrite (update_ret x _ d1 (set_value (child_ (next_ ey)) e)) by (cbn; by rewrite lookup_insert_eq).
    eexists. split; [done|]. split; [reflexivity|]. cbn [nodes set_nodes d1]. split; [by rewrite lookup_insert_eq|].
    split; [|done]. intros z Hz _. by rewrite !lookup_insert_ne.
  - assert (c <> Some y) as Hne.
    { destruct ys as [|y0 ys]; [done|]. destruct kv1. cbn [chain app] in Hc. destruct Hc as (e0 & _ & _ & -> & _). intros [= ->].
      cbn in Hy. apply list_elem_of_lookup_2 in Hy. by apply NoDup_cons in Hnd as []. }
    rewrite bool_decide_false by done.
    destruct (opened_length d k U x _ c ys Hwf Ho) as [_ Hfuel].
    destruct (erase_loop_spec d x k (kv1 :: l1) key v l2 ys c U y (fresh d) Hc Hy ltac:(done) Hfuel) as (t & et & Hlast & Het & ->).
    assert (t ∈ U) as HtU.
    { apply Hys. apply last_Some_elem_of in Hlast. rewrite <- (take_drop (length (kv1 :: l1)) ys), elem_of_app. by left. }
    assert (t <> x) as Htx by set_solver.
    rewrite (deref_ret y d ey Hey). cbn [mbind outcome_bind]. rewrite (update_ret t _ d et Het). cbn [mbind outcome_bind].
    set (d1 := set_nodes _ d). assert (nodes d1 !! x = Some e) as He1 by (cbn; by rewrite lookup_insert_ne).
    rewrite (deref_ret x d1 e He1). cbn [mbind outcome_bind]. rewrite (update_ret x _ d1 e He1). cbn [mbind outcome_bind].
    eexists. split; [done|]. split; [reflexivity|]. cbn [nodes set_nodes d1]. split; [by rewrite lookup_insert_eq|].
    split; [intros z Hz Hn; rewrite !lookup_insert_ne; [done | congruence..]|].
    split; [|done]. intros t' et' Ht' Het'. rewrite Hlast in Ht'. injection Ht' as <-.
    rewrite lookup_insert_ne, lookup_insert_eq by done. congruence.
Qed.

Lemma erase_spec d k U x l1 key v l2 c ys y :
  wf d -> opened d k U x (l1 ++ (key, v) :: l2) c ys -> ys !! length l1 = Some y ->
  exists r d' U', erase x (Some y) d = Ret (r, d') /\ repr d' (JCont k (l1 ++ l2)) U' x /\ evolves d d' x U U' 0.
Proof.
  intros Hwf Ho Hy. pose proof Ho as (e0 & He0 & Hdoc & HxU & Hty & Hsz & Hval & Hc).
  pose proof (chain_props _ _ _ _ _ _ Hc) as (_ & _ & Hys).
  assert (y ∈ U) as HyU by (by apply Hys, (list_elem_of_lookup_2 _ (length l1))).
  destruct (repr_allocated d (JCont k (l1 ++ (key, v) :: l2)) U x y) as [ey Hey]; [apply repr_opened; by exists c, ys | done|].
  destruct (erase_nodes d k U x l1 key v l2 c ys y ey Hwf Ho Hy Hey) as (e & d' & He & Hrun & Hx' & Hother & Hlast & Hf & Hel & Hcap).
  rewrite He in He0. injection He0 as <-.
  destruct (chain_remove d d' k l1 key v l2 ys c U y ey Hc Hy Hey) as (U' & Hc' & HU').
  { intros z Hz Hn. apply Hother; [set_solver | done]. }
  { exact Hlast. }
  exists (next_ ey), d', U'. split; [done|]. split.
  - apply repr_opened. eexists (match l1 with [] => next_ ey | _ => c end), _, _. split; [exact Hx'|].
    assert (x ∉ U') as HxU' by (intros Hin; by apply HxU, HU').
    assert (size_ e - 1 = length (l1 ++ l2)) as Hs by (rewrite Hsz, !length_app; cbn; lia).
    destruct l1; (split; [exact Hdoc|]); (split; [exact HxU'|]); (split; [exact Hty|]); (split; [exact Hs|]);
      (split; [first [exact Hval | reflexivity] | exact Hc']).
  - split; try done; try lia.
    + intros z ez Hz. rewrite Hf. destruct (decide (z = x)) as [-> | Hzx]; [by apply (Hwf x e)|].
      destruct (decide (last (take (length l1) ys) = Some z)) as [Hl | Hl].
      * apply (opened_below_fresh d k U x _ c ys z Hwf Ho), Hys. apply last_Some_elem_of in Hl.
        rewrite <- (take_drop (length l1) ys), elem_of_app. by left.
      * rewrite Hother in Hz by done. by apply (Hwf z ez).
    + rewrite Hel. lia.
    + intros z _ Hzx HzU. apply Hother; [done|]. intros Hl%last_Some_elem_of. apply HzU, Hys.
      rewrite <- (take_drop (length l1) ys), elem_of_app. by left.
    + intros z Hz. left. by apply HU'.
    + intros e1 He1. rewrite He in He1. injection He1 as <-. eexists. split; [exact Hx'|]. by destruct l1.
Qed.

(** Erasing as an action: the element with a key, the one at an index. *)
Fixpoint without_key (k : str) (l : list (str * json)) : list (str * json) :=
  match l with
  | [] => []
  | (k', v) :: l => if decide (k' = k) then l else (k', v) :: without_key k l
  end.
Definition erase_key_value (k : str) : action := fun v =>
  match v with JCont Obj l => (0, Some (JCont Obj (without_key k l))) | _ => (0, None) end.
Definition erase_index_value (i : nat) : action := fun v =>
  match v with JCont Arr l => (0, Some (JCont Arr (delete i l))) | _ => (0, None) end.

Lemma without_key_cases k l :
  (exists l1 v l2, l = l1 ++ (k, v) :: l2 /\ (k ∉ l1.*1) /\ without_key k l = l1 ++ l2) \/ ((k ∉ l.*1) /\ without_key k l = l).
Proof.
  induction l as [|[k' v'] l IH]; cbn [without_key].
  - right. split; [by intros ?%elem_of_nil | done].
  - case_decide as Hk.
    + subst k'. left. exists [], v', l. split; [done|]. split; [by intros ?%elem_of_nil | done].
    + rewrite !fmap_cons, !not_elem_of_cons. destruct IH as [(l1 & v & l2 & -> & Hn & ->) | [Hn ->]]; [left | by right].
      exists ((k', v') :: l1), v, l2. split; [done|]. split; [by rewrite fmap_cons, not_elem_of_cons | done].
Qed.

(** The element of a value that is not a container of the kind has another type than it. *)
Lemma not_kind_type d k v U x e :
  repr d v U x -> nodes d !! x = Some e -> (forall l, v <> JCont k l) -> is_type [type_of k] e = false.
Proof.
  intros Hr He Hk. apply not_true_iff_false. rewrite is_type_spec, list_elem_of_singleton.
  destruct v as [s | k' l']; destruct Hr as (e' & He' & _ & _ & Hv); rewrite He in He'; injection He' as <-;
    destruct Hv as (-> & _).
  - by destruct s, k.
  - destruct k, k'; try done; by destruct (Hk l').
Qed.

Lemma implements_erase_key k :
  implements (fun x d => '(_, d) ← erase_key x k d; Ret d) (erase_key_value k).
Proof.
  intros d x U v Hwf Hr _. destruct (repr_self _ _ _ _ Hr) as (e & He & _). unfold erase_key, find_key.
  rewrite (deref_ret x d e He). cbn [mbind outcome_bind].
  destruct (match v with JCont Obj l => Some l | _ => None end) as [l|] eqn:Ev.
  - destruct v as [|[] l0]; try done. injection Ev as ->. cbn [erase_key_value fst snd].
    apply repr_opened in Hr as (c & ys & Ho). pose proof Ho as (e0 & He0 & _ & _ & Hty & _ & Hval & Hc).
    rewrite He in He0. injection He0 as <-.
    assert (is_type [OBJECT] e = true) as -> by (apply is_type_spec; rewrite Hty; left). cbn [negb].
    unfold child. rewrite Hval. cbn [mbind outcome_bind].
    destruct (opened_length d Obj U x l c ys Hwf Ho) as [_ Hfuel].
    destruct (without_key_cases k l) as [(l1 & w & l2 & -> & Hn & ->) | [Hn ->]].
    + destruct (key_loop_found d k l1 w l2 ys c U None (fresh d) Hc Hn Hfuel) as (y & tl & -> & Hy). cbn [mbind outcome_bind].
      destruct (erase_spec d Obj U x l1 k w l2 c ys y Hwf Ho Hy) as (r & d' & U' & -> & Hr' & Hev). cbn [mbind outcome_bind].
      by exists d', U'.
    + rewrite (key_loop_missing d k l ys c U None (fresh d) Hc Hn Hfuel). cbn [mbind outcome_bind erase].
      exists d, U. split; [done|]. split; [apply repr_opened; by exists c, ys | by apply evolves_refl].
  - assert (is_type [OBJECT] e = false) as ->.
    { apply (not_kind_type d Obj v U x); [done..|]. by intros l ->. }
    destruct v as [|[] ?]; done.
Qed.

Lemma implements_erase_index i :
  implements (fun x d => '(_, d) ← erase_index x i d; Ret d) (erase_index_value i).
Proof.
  intros d x U v Hwf Hr _. destruct (repr_self _ _ _ _ Hr) as (e & He & _). unfold erase_index, find_index.
  rewrite (deref_ret x d e He). cbn [mbind outcome_bind].
  destruct (match v with JCont Arr l => Some l | _ => None end) as [l|] eqn:Ev.
  - destruct v as [|[] l0]; try done. injection Ev as ->. cbn [erase_index_value fst snd].
    apply repr_opened in Hr as (c & ys & Ho). pose proof Ho as (e0 & He0 & _ & _ & Hty & Hsz & Hval & Hc).
    rewrite He in He0. injection He0 as <-.
    assert (is_type [ARRAY] e = true) as -> by (apply is_type_spec; rewrite Hty; left). cbn [negb].
    destruct (opened_length d Arr U x l c ys Hwf Ho) as [_ Hfuel]. rewrite Hsz.
    destruct (Nat.leb_spec (length l) i) as [Hi | Hi].
    + cbn [mbind outcome_bind erase]. rewrite delete_take_drop, take_ge, drop_ge, app_nil_r by lia.
      exists d, U. split; [done|]. split; [apply repr_opened; by exists c, ys | by apply evolves_refl].
    + unfold child. rewrite Hval. cbn [mbind outcome_bind].
      destruct (lookup_lt_is_Some_2 l i Hi) as [[key w] Hl]. pose proof (take_drop_middle l i (key, w) Hl) as Hsplit.
      assert (length (take i l) = i) as Hti by (rewrite length_take; lia).
      rewrite <- Hsplit in Hc, Ho.
      destruct (index_loop_found d Arr _ key w _ ys c U None 0 (fresh d) Hc Hfuel) as (y & tl & Hloop & Hy).
      rewrite Hti in Hloop. cbn [Nat.add] in Hloop. rewrite Hloop. cbn [mbind outcome_bind].
      destruct (erase_spec d Arr U x _ key w _ c ys y Hwf Ho Hy) as (r & d' & U' & -> & Hr' & Hev). cbn [mbind outcome_bind].
      exists d', U'. split; [done|]. rewrite delete_take_drop. by split.
  - assert (is_type [ARRAY] e = false) as ->.
    { apply (not_kind_type d Arr v U x); [done..|]. by intros l ->. }
    destruct v as [|[] ?]; done.
Qed.

(** ** Printing *)

Fixpoint depth (v : json) : nat :=
  match v with
  | JScalar _ => 1
  | JCont _ l => S ((fix items (l : list (str * json)) : nat := match l with [] => 0 | (_, w) :: l => Nat.max (depth w) (items l) end) l)
  end.

(** Integers that fit their type. *)
Fixpoint in_range (v : json) : Prop :=
  match v with
  | JScalar (SUInt z) => (0 <= z < 2 ^ 64)%Z
  | JScalar _ => True
  | JCont _ l => (fix items (l : list (str * json)) : Prop := match l with [] => True | (_, w) :: l => in_range w /\ items l end) l
  end.

Section printing.
Context (show_double : Z -> str).

Lemma print_scalar_spec s e : in_range (JScalar s) ->
  element_type_ e = element_type_ (scalar_element s) -> value_ e = value_ (scalar_element s) ->
  print_scalar show_double e = Ret (render_scalar show_double s).
Proof.
  intros Hs Ht Hv. unfold print_scalar. rewrite Ht, Hv. destruct s; cbn; try done. cbn in Hs. do 2 f_equal.
  unfold wrapu, wraps. rewrite Zminus_mod, Zmod_mod, <- Zminus_mod. rewrite Z.mod_small; lia.
Qed.

Lemma print_spec d ncols v : forall U x fuel pad,
  wf d -> repr d v U x -> in_range v -> depth v <= fuel ->
  print show_double fuel x pad ncols d = Ret (render show_double v pad ncols).
Proof.
  induction v as [s | k l IH] using json_ind'; intros U x [|fuel] pad Hwf Hr Hin Hf; try (cbn in Hf; lia).
  - destruct Hr as (e & He & _ & _ & Ht & Hv & _). cbn [print]. rewrite (deref_ret x d e He). cbn [mbind outcome_bind].
    rewrite Ht. replace (kind_of (element_type_ (scalar_element s))) with (@None kind) by (by destruct s).
    by apply print_scalar_spec.
  - apply repr_opened in Hr as (c & ys & Ho). pose proof Ho as (e & He & _ & _ & Ht & Hsz & Hv & Hc).
    destruct (opened_length d k U x l c ys Hwf Ho) as [_ Hfuel].
    cbn [print]. rewrite (deref_ret x d e He). cbn [mbind outcome_bind]. rewrite Ht.
    replace (kind_of (type_of k)) with (Some k) by (by destruct k). unfold child. rewrite Hv. cbn [mbind outcome_bind].
    rewrite Hsz. set (size := length l).
    match goal with |- mbind _ (?f (fresh d) 0 c) = _ => set (items := f) end.
    assert (forall l' ys' o U' n i, chain d (repr d) k l' ys' o U' -> length ys' <= n ->
      Forall (fun kv => forall U x fuel pad, wf d -> repr d kv.2 U x -> in_range kv.2 -> depth kv.2 <= fuel ->
        print show_double fuel x pad ncols d = Ret (render show_double kv.2 pad ncols)) l' ->
      in_range (JCont k l') -> depth (JCont k l') <= S fuel ->
      items n i o = Ret ((fix items (i : nat) (l' : list (str * json)) : str :=
            match l' with
            | [] => []
            | (key, w) :: l' => separator k pad ncols size i ++ label k key ++ render show_double w (pad + 1) ncols ++ items (S i) l'
            end) i l')) as Hitems.
    { induction l' as [|[key w] l' IHl]; intros [|y ys'] o U' n i; cbn [chain]; try done.
      - intros [-> _] _ _ _ _. by destruct n.
      - intros (ey & Uy & Ul & -> & Hey & Hk & Hry & Hcl & _) Hn HF Hin' Hd'. destruct n as [|n]; [cbn in Hn; lia|].
        apply Forall_cons in HF as [HFw HF]. destruct Hin' as [Hinw Hin']. cbn [depth] in Hd'.
        cbn [items]. rewrite (deref_ret y d ey Hey). cbn [mbind outcome_bind].
        rewrite (HFw Uy y fuel (pad + 1)%Z Hwf Hry Hinw) by (cbn; lia).
        fold items. rewrite (IHl ys' (next_ ey) Ul n (S i) Hcl) by (done || cbn in *; lia).
        destruct k; cbn in Hk |- *; [done|]. unfold Json.key. by rewrite Hk. }
    rewrite (Hitems l ys c U (fresh d) 0 Hc Hfuel IH Hin Hf). done.
Qed.

End printing.

(** ** Copies *)

Definition no_action : action := fun u => (0, Some u).

(** What [copy] does to a value: field by field, item by item. *)
Fixpoint copy_fields (copy : json -> action) (l : list (str * json)) : action :=
  match l with
  | [] => no_action
  | (k, w) :: l => then_do (key_value k (copy w)) (copy_fields copy l)
  end.
Fixpoint copy_items (copy : json -> action) (i : nat) (l : list (str * json)) : action :=
  match l with
  | [] => no_action
  | (_, w) :: l => then_do (index_value i (copy w)) (copy_items copy (S i) l)
  end.
Fixpoint copy_value (v : json) : action :=
  match v with
  | JScalar s => assign_value s
  | JCont Obj l => copy_fields copy_value l
  | JCont Arr l => copy_items copy_value 0 l
  end.

Section requests.
Context (grow : nat -> nat).

Lemma implements_nothing : implements (fun _ d => Ret d) no_action.
Proof. intros d x U v Hwf Hr _. exists d, U. split; [done|]. split; [done | by apply evolves_refl]. Qed.

Lemma implements_ext f f' g : (forall x d, f x d = f' x d) -> implements f g -> implements f' g.
Proof. intros E Hf d x U v Hwf Hr Hroom. rewrite <- E. by apply Hf. Qed.

(** The fields of an object, and the items of an array. *)
Lemma implements_copy v : implements (copy grow v) (copy_value v).
Proof.
  induction v as [s | k l IH] using json_ind'; [exact (implements_assign grow s)|].
  destruct k; cbn [copy copy_value].
  - generalize 0 as i. induction l as [|[key w] l IHl]; intros i; [exact implements_nothing|].
    apply Forall_cons in IH as [Hw IH]. eapply implements_ext; [|apply implements_then;
      [exact (implements_index grow i _ _ Hw) | exact (IHl IH (S i))]].
    intros x d. cbn beta. destruct (at_index grow x i d) as [[y d1]| |]; done.
  - induction l as [|[key w] l IHl]; [exact implements_nothing|].
    apply Forall_cons in IH as [Hw IH]. eapply implements_ext; [|apply implements_then;
      [exact (implements_key grow key _ _ Hw) | exact (IHl IH)]].
    intros x d. cbn beta. destruct (at_key grow x key d) as [[y d1]| |]; done.
Qed.

(** ** Requests *)

(** An element of the document by keys and indices. *)
Inductive step := Key (k : str) | Index (i : nat).

Fixpoint at_path (p : list step) (f : nat -> MutableDocument -> outcome MutableDocument) (x : nat) (d : MutableDocument)
    : outcome MutableDocument :=
  match p with
  | [] => f x d
  | Key k :: p => '(y, d) ← at_key grow x k d; at_path p f y d
  | Index i :: p => '(y, d) ← at_index grow x i d; at_path p f y d
  end.
Fixpoint path_value (p : list step) (g : action) : action :=
  match p with
  | [] => g
  | Key k :: p => key_value k (path_value p g)
  | Index i :: p => index_value i (path_value p g)
  end.

Lemma implements_path p f g : implements f g -> implements (at_path p f) (path_value p g).
Proof.
  intros Hf. induction p as [|[k | i] p IH]; [exact Hf | exact (implements_key grow k _ _ IH) | exact (implements_index grow i _ _ IH)].
Qed.

(** Assigning a scalar, erasing by key or by index, copying a parsed text. *)
Inductive request :=
  | Assign (p : list step) (s : scalar)
  | EraseKey (p : list step) (k : str)
  | EraseIndex (p : list step) (i : nat)
  | Copy (p : list step) (v : json).

Definition perform (r : request) : nat -> MutableDocument -> outcome MutableDocument :=
  match r with
  | Assign p s => at_path p (fun x d => assign grow x (scalar_element s) d)
  | EraseKey p k => at_path p (fun x d => '(_, d) ← erase_key x k d; Ret d)
  | EraseIndex p i => at_path p (fun x d => '(_, d) ← erase_index x i d; Ret d)
  | Copy p v => at_path p (copy grow v)
  end.
Fixpoint performs (rs : list request) (x : nat) (d : MutableDocument) : outcome MutableDocument :=
  match rs with [] => Ret d | r :: rs => d ← perform r x d; performs rs x d end.

(** The same on values. *)
Definition request_value (r : request) : action :=
  match r with
  | Assign p s => path_value p (assign_value s)
  | EraseKey p k => path_value p (erase_key_value k)
  | EraseIndex p i => path_value p (erase_index_value i)
  | Copy p v => path_value p (copy_value v)
  end.
Fixpoint requests_value (rs : list request) : action :=
  match rs with [] => no_action | r :: rs => then_do (request_value r) (requests_value rs) end.

Lemma implements_requests rs : implements (performs rs) (requests_value rs).
Proof.
  induction rs as [|r rs IH]; [exact implements_nothing|]. refine (implements_then _ _ _ _ _ IH).
  destruct r; apply implements_path; [apply implements_assign | apply implements_erase_key | apply implements_erase_index | apply implements_copy].
Qed.

Lemma new_document_wf cap : wf (new_document cap) /\ repr (new_document cap) (JScalar SNull) ∅ 0.
Proof.
  split.
  - intros y e. cbn. intros [<- _]%lookup_singleton_Some. lia.
  - apply (repr_fresh_scalar _ _ (new_element true NULL_VALUE)); [cbn; apply lookup_singleton_eq | done].
Qed.


End requests.

Definition example_requests : list request :=
  [ Copy [] sample; Assign [Key (lit "a"); Index 4] (SInt 5); Assign [Key (lit "o"); Key (lit "z")] (SStr (lit "ZZ"));
    EraseKey [Key (lit "o")] (lit "x"); EraseIndex [Key (lit "a")] 0; Assign [Key (lit "t"); Key (lit "u")] (SUInt (2 ^ 64 - 1)) ].

Example requests_test :
  (requests_value example_requests (JScalar SNull)).1 = 14
  /\ (d ← performs (fun n => 2 * n) example_requests 0 (new_document 256); print (fun _ => []) 10 0 (-1) 16 d)
     = Ret (lit "{" ++ quoted (lit "n") ++ lit ":1," ++ quoted (lit "s") ++ lit ":" ++ quoted (lit "abc") ++ lit ","
         ++ quoted (lit "a") ++ lit ":[-2,true,null,5]," ++ quoted (lit "o") ++ lit ":{" ++ [chr 10] ++ quoted (lit "y")
         ++ lit ":null," ++ [chr 10] ++ quoted (lit "z") ++ lit ":" ++ quoted (lit "ZZ") ++ lit "}," ++ quoted (lit "t") ++ lit ":{"
         ++ quoted (lit "u") ++ lit ":18446744073709551615}}").
Proof. split; vm_compute; reflexivity. Qed.


(** ** Parsed texts *)

(** Objects have distinct keys; the keys of the elements of arrays are empty. *)
Definition keys_ok (k : kind) (l : list (str * json)) : Prop :=
  match k with Obj => NoDup l.*1 | Arr => Forall (fun key => key = []) l.*1 end.
Fixpoint all_of (P : json -> Prop) (l : list (str * json)) : Prop :=
  match l with [] => True | (_, w) :: l => P w /\ all_of P l end.
Fixpoint distinct (v : json) : Prop :=
  match v with JScalar _ => True | JCont k l => keys_ok k l /\ all_of distinct l end.

(** The elements below. *)
Fixpoint cost (v : json) : nat :=
  match v with JScalar _ => 0 | JCont _ l => list_sum (map (fun kv => S (cost kv.2)) l) end.

(** An empty object or array becomes null. *)
Fixpoint normal (v : json) : json :=
  match v with
  | JScalar s => JScalar s
  | JCont k [] => JScalar SNull
  | JCont k l => JCont k (map (fun kv => (kv.1, normal kv.2)) l)
  end.

Lemma key_value_new k g acc v : as_kind Obj v = Some acc -> (k ∉ acc.*1) ->
  key_value k g v = (S (g (JScalar SNull)).1, (fun w => JCont Obj (acc ++ [(k, w)])) <$> (g (JScalar SNull)).2).
Proof.
  intros Hk Hn. unfold key_value. rewrite Hk. destruct (on_key_cases k g acc) as [(l1 & w & l2 & -> & _ & _) | [_ ->]].
  - destruct Hn. rewrite fmap_app, elem_of_app, fmap_cons. right. left.
  - cbn. f_equal. by destruct (g (JScalar SNull)).2.
Qed.

Lemma index_value_new i g acc v : as_kind Arr v = Some acc -> length acc = i ->
  index_value i g v = (S (g (JScalar SNull)).1, (fun w => JCont Arr (acc ++ [([], w)])) <$> (g (JScalar SNull)).2).
Proof.
  intros Hk Hl. unfold index_value. rewrite Hk. replace (S i - length acc) with 1 by lia. cbn [replicate].
  rewrite lookup_app_r, Hl, Nat.sub_diag by lia. cbn [lookup list_lookup null_item]. f_equal.
  destruct (g (JScalar SNull)).2 as [w|]; [|done]. cbn. f_equal. f_equal.
  rewrite insert_app_r_alt, Hl, Nat.sub_diag by lia. done.
Qed.

Lemma then_do_some g1 g2 v n v' : g1 v = (n, Some v') -> then_do g1 g2 v = (n + (g2 v').1, (g2 v').2).
Proof. intros E. unfold then_do. by rewrite E. Qed.

Lemma as_kind_self k acc : as_kind k (JCont k acc) = Some acc.
Proof. cbn. by rewrite decide_True. Qed.

(** Copying a list of fields or items behind those that are there. *)
Definition extended (k : kind) (acc l : list (str * json)) (v : json) : json :=
  match l with [] => v | _ => JCont k (acc ++ map (fun kv => (kv.1, normal kv.2)) l) end.

Lemma extended_cons k acc key w l : extended k (acc ++ [(key, normal w)]) l (JCont k (acc ++ [(key, normal w)])) = extended k acc ((key, w) :: l) (JScalar SNull).
Proof. destruct l as [|kv l]; [done|]. unfold extended. by rewrite <- app_assoc. Qed.

Definition copies (v : json) : Prop := distinct v -> copy_value v (JScalar SNull) = (cost v, Some (normal v)).

Lemma copy_items_extends l : forall acc v,
  as_kind Arr v = Some acc -> keys_ok Arr l -> Forall (fun kv => copies kv.2) l -> all_of distinct l ->
  copy_items copy_value (length acc) l v = (cost (JCont Arr l), Some (extended Arr acc l v)).
Proof.
  induction l as [|[key w] l IH]; intros acc v Hk Hkeys HF Hd; [done|].
  apply Forall_cons in HF as [Hw HF]. cbn [snd] in Hw. destruct Hd as [Hdw Hd]. cbn in Hkeys. apply Forall_cons in Hkeys as [-> Hkeys].
  cbn [copy_items]. rewrite (then_do_some _ _ v (S (cost w)) (JCont Arr (acc ++ [([], normal w)])))
    by (rewrite (index_value_new _ _ acc v Hk eq_refl), (Hw Hdw); done).
  pose proof (IH (acc ++ [([], normal w)]) _ (as_kind_self _ _) Hkeys HF Hd) as E. rewrite length_app, Nat.add_1_r in E.
  by rewrite E, extended_cons.
Qed.

Lemma copy_fields_extends l : forall acc v,
  as_kind Obj v = Some acc -> NoDup (acc.*1 ++ l.*1) -> Forall (fun kv => copies kv.2) l -> all_of distinct l ->
  copy_fields copy_value l v = (cost (JCont Obj l), Some (extended Obj acc l v)).
Proof.
  induction l as [|[key w] l IH]; intros acc v Hk Hkeys HF Hd; [done|].
  apply Forall_cons in HF as [Hw HF]. cbn [snd] in Hw. destruct Hd as [Hdw Hd]. rewrite fmap_cons in Hkeys. cbn [fst] in Hkeys.
  assert (key ∉ acc.*1) as Hn.
  { apply NoDup_app in Hkeys as (_ & Hdis & _). intros Hin. apply (Hdis key Hin). left. }
  cbn [copy_fields]. rewrite (then_do_some _ _ v (S (cost w)) (JCont Obj (acc ++ [(key, normal w)])))
    by (rewrite (key_value_new _ _ acc v Hk Hn), (Hw Hdw); done).
  rewrite (IH (acc ++ [(key, normal w)]) _ (as_kind_self _ _)); [by rewrite extended_cons | by rewrite fmap_app, <- app_assoc | done..].
Qed.

Lemma copy_value_normal v : copies v.
Proof.
  induction v as [s | k l IH] using json_ind'; [done|]. intros [Hkeys Hd]. destruct k; cbn [copy_value].
  - pose proof (copy_items_extends l [] (JScalar SNull) eq_refl Hkeys IH Hd) as E. cbn [length] in E. rewrite E. by destruct l as [|[] ?].
  - rewrite (copy_fields_extends l [] (JScalar SNull) eq_refl Hkeys IH Hd). by destruct l as [|[] ?].
Qed.

(** A parsed text with distinct keys is copied into a new document and printed with the
    same fields, items and scalars in the same order, as long as the vector has room
    for its elements; but every empty object and every empty array has become null. *)
Theorem copied_text_prints (grow : nat -> nat) (show_double : Z -> str) (v : json) (cap : nat) :
  distinct v -> cost v <= cap ->
  exists d, copy grow v 0 (new_document cap) = Ret d
    /\ forall fuel pad ncols, in_range (normal v) -> depth (normal v) <= fuel ->
         print show_double fuel 0 pad ncols d = Ret (render show_double (normal v) pad ncols).
Proof.
  intros Hd Hc. destruct (new_document_wf cap) as [Hwf Hr]. pose proof (implements_copy grow v _ 0 ∅ _ Hwf Hr) as Hi.
  rewrite (copy_value_normal v Hd) in Hi. destruct Hi as (d & U & Hrun & Hr' & Hev); [exact Hc|].
  exists d. split; [exact Hrun|]. intros fuel pad ncols Hin Hf. apply (print_spec show_double d ncols _ U); [apply Hev | done..].
Qed.

Definition sample_empty : json := JObj [(lit "a", JArr []); (lit "b", JObj [(lit "c", JObj [])]); (lit "d", JScalar (SInt 1))].

Lemma copied_text_prints_witness :
  exists d, copy (fun n => 2 * n) sample_empty 0 (new_document 4) = Ret d
    /\ print (fun _ => []) 9 0 (-1) 16 d
       = Ret (lit "{" ++ quoted (lit "a") ++ lit ":null," ++ quoted (lit "b") ++ lit ":{" ++ quoted (lit "c") ++ lit ":null},"
           ++ quoted (lit "d") ++ lit ":1}").
Proof.
  destruct (copied_text_prints (fun n => 2 * n) (fun _ => []) sample_empty 4) as (d & Hd & Hp).
  - split; [by apply (bool_decide_unpack _); vm_compute|]. cbn. repeat split; try constructor; try constructor; by intros ?%elem_of_nil.
  - vm_compute. repeat constructor.
  - exists d. split; [exact Hd|]. rewrite (Hp 9 (-1)%Z 16); [vm_compute; reflexivity | vm_compute; intuition | cbn; lia].
Defined.

(** ** Where the representation breaks *)

(** The vector moves its elements: nothing is left where they were. *)
Lemma relocate_nodes F ls : forall d, F <= fresh d ->
  let d' := foldl (fun d x =>
      mkDocument (match nodes d !! x with
                  | Some e => <[fresh d := copied e]> (delete x (nodes d))
                  | None => nodes d
                  end) (S (fresh d)) (elements_ d ++ [fresh d]) (capacity d)) d ls in
  F <= fresh d'
  /\ (forall y, y < F -> y ∈ ls \/ nodes d !! y = None -> nodes d' !! y = None)
  /\ (forall y, y < F -> y ∉ ls -> nodes d' !! y = nodes d !! y).
Proof.
  induction ls as [|x ls IH]; intros d HF; cbn [foldl].
  - split; [done|]. split; [|done]. by intros y _ [?%elem_of_nil | ?].
  - set (d1 := mkDocument _ _ _ _). destruct (IH d1) as (Hf & Hnone & Hsame); [cbn; lia|].
    assert (forall y, y < F -> nodes d1 !! y = if decide (y = x) then None else nodes d !! y) as H1.
    { intros y Hy. cbn. destruct (nodes d !! x) as [e|] eqn:Ex.
      - rewrite lookup_insert_ne by lia. case_decide as Hx; [subst y; apply lookup_delete_eq | by apply lookup_delete_ne].
      - case_decide as Hx; [by subst y | done]. }
    split; [done|]. split.
    + intros y Hy Hin. apply Hnone; [done|]. rewrite H1 by done.
      case_decide as Hx; [by right|]. destruct Hin as [[? | ?]%elem_of_cons | ?]; [done | by left | by right].
    + intros y Hy [Hx Hin]%not_elem_of_cons. rewrite Hsame, H1 by done. by rewrite decide_False.
Qed.

(** A document does not survive that its vector grows: when an object whose elements are
    in the vector has fields and the vector is full (256 elements by default), then
    asking for a new key follows a pointer into the storage that was released. *)
Theorem full_vector_dangles (grow : nat -> nat) (d : MutableDocument) (l : list (str * json)) (U : gset nat) (k : str) :
  wf d -> repr d (JCont Obj l) U 0 -> l <> [] -> (k ∉ l.*1) ->
  (forall y, y ∈ U -> y ∈ elements_ d) -> (0 ∉ elements_ d) -> capacity d <= length (elements_ d) ->
  at_key grow 0 k d = Stuck.
Proof.
  intros Hwf Hr Hl Hn HU H0 Hcap.
  destruct (open_container d Obj (JCont Obj l) l U 0 Hwf Hr (as_kind_self _ _)) as (e & d1 & c & ys & He & Ht & Hu & Hc & _ & Ho & _).
  assert (d1 = d) as ->.
  { destruct Hr as (e0 & He0 & _ & _ & Hty0 & _). rewrite He in He0. injection He0 as <-.
    assert (set_type (type_of Obj) e = e) as E by (destruct e; cbn in *; by rewrite Hty0).
    rewrite (update_ret 0 _ d e He), E, (set_nodes_id d 0 e He) in Hu. by injection Hu. }
  pose proof Ho as (e1 & He1 & Hdoc & _ & _ & _ & _ & Hch). rewrite He in He1. injection He1 as <-.
  destruct (opened_length d Obj U 0 l c ys Hwf Ho) as [Hlen Hfuel].
  destruct (last ys) as [t|] eqn:Elast; [|apply last_None in Elast as ->; by destruct l].
  destruct (opened_last d Obj U 0 l c ys t Ho Elast) as (HtU & Ht0 & _).
  pose proof (opened_below_fresh d Obj U 0 l c ys t Hwf Ho HtU) as Htf. pose proof (Hwf 0 e He) as H0f.
  unfold at_key. rewrite (deref_ret 0 d e He). cbn [mbind outcome_bind].
  change [type_of Obj; NULL_VALUE] with [OBJECT; NULL_VALUE] in Ht. rewrite Ht. cbn [negb].
  change (set_type OBJECT) with (set_type (type_of Obj)). rewrite Hu. cbn [mbind outcome_bind].
  rewrite Hc. cbn [mbind outcome_bind]. rewrite (key_loop_missing d k l ys c U None _ Hch Hn Hfuel). cbn [mbind outcome_bind].
  rewrite Elast, Hdoc. cbn [negb]. unfold alloc_element.
  rewrite (proj2 (Nat.ltb_ge _ _) Hcap).
  destruct (relocate_nodes (fresh d) (elements_ d) (mkDocument (nodes d) (fresh d) [] (capacity d)) ltac:(done)) as (Hf' & Hgone & Hkept).
  fold (relocate d) in Hf', Hgone, Hkept. set (r := relocate d) in *. cbv zeta. cbn [fresh nodes elements_ capacity].
  assert (nodes r !! t = None) as Hrt by (apply Hgone; [done | left; by apply HU]).
  assert (nodes r !! 0 = Some e) as Hr0 by (by rewrite Hkept).
  rewrite (update_ret (fresh r) _ _ (new_element true NULL_VALUE)) by (cbn; by rewrite lookup_insert_eq). cbn [mbind outcome_bind nodes].
  rewrite insert_insert_eq. rewrite (deref_ret 0 _ e) by (cbn; rewrite lookup_insert_ne by lia; done). cbn [mbind outcome_bind].
  rewrite (update_ret 0 _ _ e) by (cbn; rewrite lookup_insert_ne by lia; done). cbn [mbind outcome_bind link].
  unfold update, deref. cbn [nodes set_nodes]. by rewrite !lookup_insert_ne, Hrt by lia.
Qed.

Definition one_field : MutableDocument :=
  mkDocument {[0 := mkElement OBJECT (child_ (Some 1)) None None 1 true;
               1 := mkElement INT64 (int_ 5) None (Some (lit "a")) 0 true]} 2 [1] 1.

Lemma full_vector_dangles_witness :
  performs (fun n => 2 * n) [Assign [Key (lit "a")] (SInt 5)] 0 (new_document 1) = Ret one_field
  /\ at_key (fun n => 2 * n) 0 (lit "b") one_field = Stuck.
Proof.
  split; [vm_compute; reflexivity|].
  apply (full_vector_dangles (fun n => 2 * n) one_field [(lit "a", JScalar (SInt 5))] {[1]} (lit "b")).
  - intros y e. unfold one_field. cbn. intros [[<- _] | [_ Hy]]%lookup_insert_Some; [lia|].
    apply lookup_singleton_Some in Hy as [<- _]. lia.
  - eexists. split; [reflexivity|]. split; [reflexivity|]. split; [set_solver|]. split; [reflexivity|]. split; [reflexivity|].
    exists (Some 1), [1]. split; [reflexivity|]. eexists _, ∅, ∅. split; [reflexivity|]. split; [reflexivity|]. split; [reflexivity|].
    split; [eexists; repeat (split; [reflexivity || set_solver|]); reflexivity|]. split; [done|]. set_solver.
  - discriminate.
  - by apply (bool_decide_unpack _); vm_compute.
  - intros y ->%elem_of_singleton. left.
  - by apply (bool_decide_unpack _); vm_compute.
  - reflexivity.
Defined.

(** A document that is made from another one has nothing to allocate from, unless it is a scalar. *)
Lemma copied_document_stuck grow k key w l cap : copied_document grow (JCont k ((key, w) :: l)) cap = Stuck.
Proof. destruct k; cbn; unfold at_key, at_index; cbn; rewrite ?lookup_singleton_eq; reflexivity. Qed.

(** [push_back] on a string of three characters: one element, but a size of four. *)
Example push_back_size :
  (d ← performs (fun n => 2 * n) [Assign [Key (lit "s")] (SStr (lit "abc")); Assign [Key (lit "v")] (SInt 1)] 0 (new_document 256);
   d ← push_back (fun n => 2 * n) 1 2 d; e ← deref 1 d; b ← back 1 d; f ← find_index 1 1 d; Ret (size_ e, b, f)) = Ret (4, Some 3, None).
Proof. vm_compute. reflexivity. Qed.

(** An assignment from a container shares what is below its elements: the inner array of
    [b] gets the element that is assigned in that of [a]. *)
Example assign_shares :
  (d ← performs (fun n => 2 * n) [Assign [Key (lit "a"); Index 0; Index 0] (SInt 1); Assign [Key (lit "b")] SNull] 0 (new_document 256);
   e ← deref 1 d; d ← assign (fun n => 2 * n) 4 e d;
   d ← performs (fun n => 2 * n) [Assign [Key (lit "a"); Index 0; Index 0] (SInt 7)] 0 d; print (fun _ => []) 9 4 (-1) 16 d)
  = Ret (lit "[[7]]").
Proof. vm_compute. reflexivity. Qed.
