(* ===== verification/JsonText.v ===== *)
(** * Comments in JSON texts

    Models [MutableDocument::cpp_comments_to_whitespace] of [toolbox/util/Json.hpp]: one
    pass that overwrites the comments of a text in place, against a lexer. *)
From Stdlib Require Import String.
From S2P Require Import Prelude Text.
#[local] Open Scope nat_scope.

Definition slash : ascii := "/"%char.
Definition back_slash : ascii := "\"%char.
Definition quote : ascii := chr 34.
Definition newline : ascii := chr 10.
Definition space : ascii := " "%char.

(** The character before position [i] of the text, as it is by now. *)
Definition before (i : nat) (c : ascii) (buf : str) : bool :=
  match i with O => false | S j => bool_decide (buf !! j = Some c) end.

(** The loop, from position [i] for [n] characters. *)
Fixpoint comments_loop (n i : nat) (is_string is_comment : bool) (buf : str) : str :=
  match n with
  | O => buf
  | S n =>
      match buf !! i with
      | None => buf
      | Some c =>
          let '(is_string, is_comment, buf) :=
            if decide (c = slash) then
              if before i slash buf && negb is_string then (is_string, true, <[i := space]> (<[i - 1 := space]> buf))
              else (is_string, is_comment, buf)
            else if decide (c = newline) then (is_string, if is_string then is_comment else false, buf)
            else if decide (c = quote) then
              (if negb is_comment && negb (before i back_slash buf) then negb is_string else is_string, is_comment, buf)
            else (is_string, is_comment, buf) in
          comments_loop n (S i) is_string is_comment (if is_comment then <[i := space]> buf else buf)
      end
  end.

Definition cpp_comments_to_whitespace (buf : str) : str := comments_loop (length buf) 0 false false buf.

Example comments_test :
  cpp_comments_to_whitespace (lit "[1, //one" ++ [newline] ++ lit "2, " ++ [quote] ++ lit "http://x" ++ [quote] ++ lit "] // two")
  = lit "[1,      " ++ [newline] ++ lit "2, " ++ [quote] ++ lit "http://x" ++ [quote] ++ lit "]       ".
Proof. vm_compute. reflexivity. Qed.

(** ** Lines *)

Lemma comments_loop_lines n : forall i is_string is_comment buf,
  is_string && is_comment = false ->
  length (comments_loop n i is_string is_comment buf) = length buf
  /\ forall j, comments_loop n i is_string is_comment buf !! j = Some newline <-> buf !! j = Some newline.
Proof.
  assert (forall (buf : str) j c k, buf !! j = Some c -> c <> newline -> <[j := space]> buf !! k = Some newline <-> buf !! k = Some newline) as Hins.
  { intros buf j c k Hj Hc. destruct (decide (j = k)) as [<- | Hjk]; [|by rewrite list_lookup_insert_ne].
    rewrite list_lookup_insert_eq by (by eapply lookup_lt_Some). rewrite Hj. split; intros [= E]; done. }
  induction n as [|n IH]; intros i is_string is_comment buf Hm; [done|]. cbn [comments_loop].
  destruct (buf !! i) as [c|] eqn:Ei; [|done].
  assert (forall s m b, s && m = false -> length b = length buf ->
    (forall k, b !! k = Some newline <-> buf !! k = Some newline) -> (m = true -> exists c', b !! i = Some c' /\ c' <> newline) ->
    length (comments_loop n (S i) s m (if m then <[i := space]> b else b)) = length buf
    /\ forall k, comments_loop n (S i) s m (if m then <[i := space]> b else b) !! k = Some newline <-> buf !! k = Some newline) as Hgo.
  { intros s m b Hsm Hlen Hb Hc. destruct (IH (S i) s m (if m then <[i := space]> b else b) Hsm) as [Hl Hk]. rewrite Hl.
    split; [destruct m; by rewrite ?length_insert|]. intros k. rewrite Hk. destruct m; [|apply Hb].
    destruct (Hc eq_refl) as (c' & Hc' & Hn). by rewrite (Hins b i c' k Hc' Hn). }
  destruct (decide (c = slash)) as [-> | Hs].
  - destruct (before i slash buf && negb is_string) eqn:Eb.
    + apply andb_true_iff in Eb as [Eb Es]. destruct i as [|j]; [done|]. cbn [before] in Eb. apply bool_decide_eq_true in Eb.
      destruct is_string; [done|]. replace (S j - 1) with j by lia.
      assert (<[j := space]> buf !! S j = Some slash) as Ei' by (by rewrite list_lookup_insert_ne by lia).
      apply (Hgo false true (<[S j := space]> (<[j := space]> buf))); [done | by rewrite !length_insert | |].
      * intros k. by rewrite (Hins _ (S j) slash k Ei'), (Hins buf j slash k Eb).
      * intros _. exists space. split; [|done]. rewrite list_lookup_insert_eq; [done|]. rewrite length_insert. by eapply lookup_lt_Some.
    + apply (Hgo is_string is_comment buf); try done. intros _. by exists slash.
  - destruct (decide (c = newline)) as [-> | Hn].
    + apply (Hgo is_string (if is_string then is_comment else false) buf); try done; destruct is_string; try done.
      by destruct is_comment.
    + destruct (decide (c = quote)) as [-> | Hq]; (apply (Hgo _ is_comment buf); [| done | done | intros _; by eexists]); [|done].
      destruct is_comment; [by destruct is_string | cbn; apply andb_false_r].
Qed.

(** For every text, removing comments keeps the length and every line break where it
    is, so that the positions in the parser's errors are those of the file. *)
Theorem comments_keep_lines (buf : str) :
  length (cpp_comments_to_whitespace buf) = length buf
  /\ forall j, cpp_comments_to_whitespace buf !! j = Some newline <-> buf !! j = Some newline.
Proof. by apply comments_loop_lines. Qed.

(** ** The lexer *)

Inductive mode := Code | Quoted | Comment.
#[export] Instance mode_eqdec : EqDecision mode.
Proof. solve_decision. Defined.

(** What is left of a text: comments run from two slashes outside of a string to the end of
    the line; in a string, a backslash takes the next character along. *)
Fixpoint without_comments (n : nat) (m : mode) (s : str) : str :=
  match n, s with
  | S n, c :: s =>
      match m with
      | Code =>
          if decide (c = quote) then c :: without_comments n Quoted s
          else match s with
               | c' :: s' =>
                   if decide (c = slash /\ c' = slash) then space :: space :: without_comments n Comment s'
                   else c :: without_comments n Code s
               | [] => [c]
               end
      | Quoted =>
          if decide (c = quote) then c :: without_comments n Code s
          else if decide (c = back_slash) then
                 match s with c' :: s' => c :: c' :: without_comments n Quoted s' | [] => [c] end
          else c :: without_comments n Quoted s
      | Comment =>
          if decide (c = newline) then c :: without_comments n Code s
          else space :: without_comments n Comment s
      end
  | _, _ => []
  end.

(** A text with backslashes only in strings, none of which escapes a backslash. *)
Fixpoint simple_escapes (n : nat) (m : mode) (s : str) : bool :=
  match n, s with
  | S n, c :: s =>
      match m with
      | Code =>
          negb (bool_decide (c = back_slash))
          && (if decide (c = quote) then simple_escapes n Quoted s
              else match s with
                   | c' :: s' =>
                       if decide (c = slash /\ c' = slash) then simple_escapes n Comment s' else simple_escapes n Code s
                   | [] => true
                   end)
      | Quoted =>
          if decide (c = quote) then simple_escapes n Code s
          else if decide (c = back_slash) then
                 match s with
                 | c' :: s' => negb (bool_decide (c' = back_slash)) && simple_escapes n Quoted s'
                 | [] => true
                 end
          else simple_escapes n Quoted s
      | Comment => if decide (c = newline) then simple_escapes n Code s else simple_escapes n Comment s
      end
  | _, _ => true
  end.

(** Steps of the loop behind what is done. *)
Lemma lookup_done (done s : str) c : (done ++ c :: s) !! length done = Some c.
Proof. by rewrite lookup_app_r, Nat.sub_diag. Qed.

Lemma before_done (done s : str) c : before (length done) c (done ++ s) = bool_decide (last done = Some c).
Proof.
  unfold before. destruct (length done) as [|j] eqn:El; [by apply nil_length_inv in El as ->|].
  rewrite last_lookup, El. cbn [Nat.pred]. by rewrite lookup_app_l by lia.
Qed.

Lemma insert_done (done s : str) c c' : <[length done := c']> (done ++ c :: s) = done ++ c' :: s.
Proof. by rewrite insert_app_r_alt, Nat.sub_diag. Qed.

Ltac step_loop := cbn [comments_loop]; rewrite lookup_done, ?before_done.

Lemma loop_stays n (done s : str) c st :
  (c = slash -> st = true \/ last done <> Some slash) -> (c = quote -> last done = Some back_slash) ->
  comments_loop (S n) (length done) st false (done ++ c :: s) = comments_loop n (length (done ++ [c])) st false ((done ++ [c]) ++ s).
Proof.
  intros Hs Hq. step_loop. rewrite length_app, Nat.add_1_r, <- app_assoc. cbn [app].
  destruct (decide (c = slash)) as [-> | Hcs].
  - destruct (Hs eq_refl) as [-> | Hl]; [by rewrite andb_false_r | by rewrite bool_decide_false].
  - destruct (decide (c = newline)) as [-> | Hcn]; [by destruct st|].
    destruct (decide (c = quote)) as [-> | Hcq]; [|done]. by rewrite bool_decide_true by auto.
Qed.

Lemma loop_quote n (done s : str) st : last done <> Some back_slash ->
  comments_loop (S n) (length done) st false (done ++ quote :: s)
  = comments_loop n (length (done ++ [quote])) (negb st) false ((done ++ [quote]) ++ s).
Proof.
  intros Hl. step_loop. rewrite length_app, Nat.add_1_r, <- app_assoc. cbn [app].
  rewrite decide_False, decide_False, decide_True by done. by rewrite bool_decide_false.
Qed.

Lemma loop_comment_starts n (done s : str) :
  comments_loop (S n) (length (done ++ [slash])) false false ((done ++ [slash]) ++ slash :: s)
  = comments_loop n (length (done ++ [space; space])) false true ((done ++ [space; space]) ++ s).
Proof.
  step_loop. rewrite last_snoc, decide_True, bool_decide_true by done. cbn [andb negb].
  rewrite !length_app. cbn [length]. replace (length done + 1 - 1) with (length done) by lia.
  replace (S (length done + 1)) with (length done + 2) by lia. f_equal.
  rewrite <- !app_assoc. cbn [app]. rewrite insert_done.
  replace (done ++ space :: slash :: s) with ((done ++ [space]) ++ slash :: s) by (by rewrite <- app_assoc).
  replace (length done + 1) with (length (done ++ [space])) by (by rewrite length_app).
  rewrite !insert_done. by rewrite <- app_assoc.
Qed.

Lemma loop_comment_ends n (done s : str) :
  comments_loop (S n) (length done) false true (done ++ newline :: s)
  = comments_loop n (length (done ++ [newline])) false false ((done ++ [newline]) ++ s).
Proof. step_loop. rewrite length_app, Nat.add_1_r, <- app_assoc. cbn [app]. by rewrite decide_False, decide_True. Qed.

Lemma loop_comment n (done s : str) c : c <> newline -> last done <> Some slash ->
  comments_loop (S n) (length done) false true (done ++ c :: s)
  = comments_loop n (length (done ++ [space])) false true ((done ++ [space]) ++ s).
Proof.
  intros Hn Hl. step_loop. rewrite length_app, Nat.add_1_r, <- app_assoc. cbn [app].
  rewrite (bool_decide_false (last done = Some slash)) by done. cbn [andb negb]. rewrite (decide_False (P := c = newline)) by done.
  destruct (decide (c = slash)) as [-> | _]; [|destruct (decide (c = quote)) as [-> | _]]; by rewrite insert_done.
Qed.

(** What the character before must not be. *)
Definition behind (m : mode) (done s : str) : Prop :=
  match m with
  | Code => last done <> Some back_slash /\ (last done = Some slash -> head s <> Some slash)
  | Quoted => last done <> Some back_slash
  | Comment => last done <> Some slash
  end.

Lemma loop_lexes N : forall m done s,
  length s <= N -> simple_escapes N m s = true -> behind m done s ->
  comments_loop (length s) (length done) (bool_decide (m = Quoted)) (bool_decide (m = Comment)) (done ++ s) = done ++ without_comments N m s.
Proof.
  induction N as [|N IH]; intros m done s HN Hse Hb; [by destruct s; [|cbn in HN; lia]|].
  destruct s as [|c s]; [done|]. cbn [length] in *. destruct m; cbn [without_comments simple_escapes behind] in *.
  - destruct Hb as [Hl1 Hl2]. apply andb_true_iff in Hse as [Hbs Hse]. apply negb_true_iff, bool_decide_eq_false in Hbs.
    destruct (decide (c = quote)) as [-> | Hq].
    + rewrite loop_quote by done. etrans; [apply (IH Quoted (done ++ [quote]) s); [lia | done | cbn; by rewrite last_snoc] | by rewrite <- app_assoc].
    + destruct s as [|c' s]; [rewrite loop_stays; [cbn; by rewrite app_nil_r | | done]; intros ->; right; intros Hl; by apply Hl2|].
      destruct (decide (c = slash /\ c' = slash)) as [[-> ->] | Hcc].
      * rewrite loop_stays by (done || (intros _; right; intros Hl; by apply Hl2)). cbn [length] in *. rewrite loop_comment_starts.
        etrans; [apply (IH Comment (done ++ [space; space]) s); [lia | done|] | by rewrite <- app_assoc].
        cbn. change [space; space] with ([space] ++ [space]). by rewrite app_assoc, last_snoc.
      * rewrite loop_stays; [| intros ->; right; intros Hl; by apply Hl2 | done].
        etrans; [apply (IH Code (done ++ [c]) (c' :: s)); [cbn [length] in *; lia | done|] | by rewrite <- app_assoc]. cbn. rewrite last_snoc. split; [congruence|].
        intros [= ->] [= ->]. by apply Hcc.
  - destruct (decide (c = quote)) as [-> | Hq].
    + rewrite loop_quote by done. etrans; [apply (IH Code (done ++ [quote]) s); [lia | done | cbn; by rewrite last_snoc] | by rewrite <- app_assoc].
    + destruct (decide (c = back_slash)) as [-> | Hbs].
      * destruct s as [|c' s]; [rewrite loop_stays by (done || by left); cbn; by rewrite app_nil_r|].
        apply andb_true_iff in Hse as [Hne Hse]. apply negb_true_iff, bool_decide_eq_false in Hne.
        rewrite loop_stays by (done || by left). cbn [length] in *.
        rewrite loop_stays by ((intros _; by left) || (intros _; apply last_snoc)). 
        etrans; [apply (IH Quoted ((done ++ [back_slash]) ++ [c']) s); [lia | done|] | by rewrite <- !app_assoc].
        cbn. rewrite last_snoc. congruence.
      * rewrite loop_stays by (done || by left). 
        etrans; [apply (IH Quoted (done ++ [c]) s); [lia | done|] | by rewrite <- app_assoc].
        cbn. rewrite last_snoc. congruence.
  - destruct (decide (c = newline)) as [-> | Hn].
    + rewrite loop_comment_ends.
      etrans; [apply (IH Code (done ++ [newline]) s); [lia | done | cbn; by rewrite last_snoc] | by rewrite <- app_assoc].
    + rewrite loop_comment by done.
      etrans; [apply (IH Comment (done ++ [space]) s); [lia | done | cbn; by rewrite last_snoc] | by rewrite <- app_assoc].
Qed.

(** C37: Removing comments is what a lexer that knows strings does: for every text that has
    backslashes only in strings and none that escapes a backslash, exactly the
    characters of the comments become spaces, and slashes within strings stay. *)
Theorem comments_as_lexed (buf : str) :
  simple_escapes (length buf) Code buf = true -> cpp_comments_to_whitespace buf = without_comments (length buf) Code buf.
Proof. intros Hs. exact (loop_lexes (length buf) Code [] buf ltac:(done) Hs ltac:(done)). Qed.

Definition commented : str :=
  lit "[" ++ [quote] ++ lit "a\" ++ [quote] ++ lit "//" ++ [quote] ++ lit ", 1] ///x" ++ [newline] ++ lit "/".

Lemma comments_as_lexed_witness :
  cpp_comments_to_whitespace commented
  = lit "[" ++ [quote] ++ lit "a\" ++ [quote] ++ lit "//" ++ [quote] ++ lit ", 1]     " ++ [newline] ++ lit "/".
Proof. rewrite (comments_as_lexed commented); vm_compute; reflexivity. Defined.

(** A string that ends in an escaped backslash does not end for the code: the comment
    stays, and what looks like a comment in the next string goes. *)
Example escaped_backslash_comment :
  let s := [quote] ++ lit "\\" ++ [quote] in
  cpp_comments_to_whitespace (s ++ lit "//x") = s ++ lit "//x"
  /\ cpp_comments_to_whitespace (lit "[" ++ s ++ lit "," ++ [quote] ++ lit "//y" ++ [quote] ++ lit "]")
     = lit "[" ++ s ++ lit "," ++ [quote] ++ lit "     ".
Proof. split; vm_compute; reflexivity. Qed.
