(* ===== verification/Signal.v ===== *)
(** * Slots, signals and maps of slots

    Models [toolbox/util/Slot.hpp]: a slot is an object and a function; a signal is a list
    of slots without repetitions, from which subscriptions take themselves out; a map of
    slots serves callbacks that are called once.  Calls are recorded in order. *)
From S2P Require Import Prelude.
#[local] Open Scope nat_scope.

(** ** Slots *)

(** The object and the function, which is null in an empty slot. *)
Record BasicSlot := mkSlot { obj_ : nat; fn_ : option nat }.
#[export] Instance slot_eqdec : EqDecision BasicSlot.
Proof. solve_decision. Defined.

Definition no_slot : BasicSlot := mkSlot 0 None.

(** Calling a slot: a checked call, and one that must not be empty. *)
Definition safe_call (s : BasicSlot) : list BasicSlot := match fn_ s with Some _ => [s] | None => [] end.
Definition invoke_slot (s : BasicSlot) : option (list BasicSlot) := match fn_ s with Some _ => Some [s] | None => None end.

(** ** Signals *)

(** [std::find] and the operations of [BasicSignal]. *)
Definition connect (slot : BasicSlot) (slots : list BasicSlot) : bool * list BasicSlot :=
  if decide (slot ∈ slots) then (false, slots) else (true, slots ++ [slot]).

Fixpoint erase_first (slot : BasicSlot) (slots : list BasicSlot) : list BasicSlot :=
  match slots with
  | [] => []
  | s :: slots => if decide (s = slot) then slots else s :: erase_first slot slots
  end.
Definition disconnect (slot : BasicSlot) (slots : list BasicSlot) : bool * list BasicSlot :=
  if decide (slot ∈ slots) then (true, erase_first slot slots) else (false, slots).
Definition disconnect_all (slots : list BasicSlot) : list BasicSlot := [].

(** What a callback does to the signal that calls it. *)
Inductive signal_op := Connect (s : BasicSlot) | Disconnect (s : BasicSlot) | DisconnectAll.
Definition run_signal_op (o : signal_op) (slots : list BasicSlot) : list BasicSlot :=
  match o with
  | Connect s => (connect s slots).2
  | Disconnect s => (disconnect s slots).2
  | DisconnectAll => disconnect_all slots
  end.

Section invoke.
(** What the function of a slot does to the signal. *)
Context (callback : BasicSlot -> list signal_op).

(** The loop of [invoke] over the vector, from position [i] to the end it had: it is
    undefined once a callback has changed the vector, whose iterators are then invalid. *)
Fixpoint invoke_loop (n i : nat) (slots calls : list BasicSlot) : option (list BasicSlot * list BasicSlot) :=
  match n with
  | O => Some (slots, calls)
  | S n =>
      slot ← slots !! i;
      let slots' := foldl (fun l o => run_signal_op o l) slots (match fn_ slot with Some _ => callback slot | None => [] end) in
      if decide (slots' = slots) then invoke_loop n (S i) slots (calls ++ safe_call slot) else None
  end.
Definition invoke (slots : list BasicSlot) : option (list BasicSlot * list BasicSlot) := invoke_loop (length slots) 0 slots [].

(** Callbacks that leave the signal as it is: they connect what is connected and
    disconnect what is not. *)
Definition harmless (slots : list BasicSlot) : Prop :=
  forall s o, s ∈ slots -> o ∈ callback s ->
  match o with Connect s' => s' ∈ slots | Disconnect s' => s' ∉ slots | DisconnectAll => slots = [] end.

Lemma harmless_ops slots os :
  (forall o, o ∈ os -> match o with Connect s' => s' ∈ slots | Disconnect s' => s' ∉ slots | DisconnectAll => slots = [] end) ->
  foldl (fun l o => run_signal_op o l) slots os = slots.
Proof.
  induction os as [|o os IH]; intros Ho; [done|]. cbn [foldl].
  assert (run_signal_op o slots = slots) as ->; [|apply IH; intros; apply Ho; by right].
  specialize (Ho o ltac:(left)). destruct o; cbn in *.
  - unfold connect. by rewrite decide_True.
  - unfold disconnect. by rewrite decide_False.
  - by rewrite Ho.
Qed.

Lemma invoke_loop_spec slots : harmless slots -> forall n i calls, i + n = length slots ->
  invoke_loop n i slots calls = Some (slots, calls ++ flat_map safe_call (drop i slots)).
Proof.
  intros Hh. induction n as [|n IH]; intros i calls Hn; cbn [invoke_loop].
  - rewrite drop_ge by lia. by rewrite app_nil_r.
  - destruct (lookup_lt_is_Some_2 slots i) as [s Hs]; [lia|]. rewrite Hs. cbn [mbind option_bind].
    rewrite harmless_ops.
    2:{ intros o. destruct (fn_ s); [|by intros ?%elem_of_nil]. apply Hh. by eapply list_elem_of_lookup_2. }
    rewrite decide_True by done. rewrite IH by lia. rewrite (drop_S slots s i Hs). cbn [flat_map]. by rewrite <- app_assoc.
Qed.

(** A callback that changes the signal that it is called from. *)
Lemma invoke_loop_changed slots1 s slots2 calls :
  fn_ s <> None -> foldl (fun l o => run_signal_op o l) (slots1 ++ s :: slots2) (callback s) <> slots1 ++ s :: slots2 ->
  invoke_loop (S (length slots2)) (length slots1) (slots1 ++ s :: slots2) calls = None.
Proof.
  intros Hf Hc. cbn [invoke_loop]. rewrite lookup_app_r, Nat.sub_diag by done. cbn [lookup list_lookup mbind option_bind].
  destruct (fn_ s); [|done]. by rewrite decide_False.
Qed.

End invoke.

(** ** Subscriptions *)

(** [Handle]: its slot; the signal is a reference.  The move constructor copies both. *)
Record system := mkSystem { slots_ : list BasicSlot; handles : list (nat * BasicSlot); next_id : nat }.

Inductive action := Subscribe (s : BasicSlot) | MoveFrom (id : nat) | Destroy (id : nat).

Definition act (a : action) (x : system) : system :=
  match a with
  | Subscribe s => mkSystem (connect s (slots_ x)).2 (handles x ++ [(next_id x, s)]) (S (next_id x))
  | MoveFrom id =>
      match list_find (fun h => h.1 = id) (handles x) with
      | Some (_, (_, s)) => mkSystem (slots_ x) (handles x ++ [(next_id x, s)]) (S (next_id x))
      | None => x
      end
  | Destroy id =>
      match list_find (fun h => h.1 = id) (handles x) with
      | Some (i, (_, s)) => mkSystem (disconnect s (slots_ x)).2 (delete i (handles x)) (next_id x)
      | None => x
      end
  end.
Definition acts (l : list action) (x : system) : system := foldl (fun x a => act a x) x l.
Definition no_subscription : system := mkSystem [] [] 0.

Example acts_test :
  let a := mkSlot 1 (Some 1) in let b := mkSlot 2 (Some 1) in
  slots_ (acts [Subscribe a; Subscribe b; Destroy 0] no_subscription) = [b]
  /\ slots_ (acts [Subscribe a; MoveFrom 0; Destroy 0] no_subscription) = [].
Proof. vm_compute. done. Qed.

(** ** Signals as ordered sets *)

Lemma connect_nodup s slots : NoDup slots -> NoDup (connect s slots).2.
Proof.
  intros Hnd. unfold connect. case_decide as Hs; [done|]. apply NoDup_app. split; [done|].
  split; [|apply NoDup_singleton]. by intros x Hx ->%list_elem_of_singleton.
Qed.

Lemma filter_all (P : BasicSlot -> Prop) `{forall x, Decision (P x)} (l : list BasicSlot) :
  (forall x, x ∈ l -> P x) -> filter P l = l.
Proof.
  induction l as [|x l IH]; intros HP; [done|]. rewrite filter_cons, decide_True by (apply HP; left).
  f_equal. apply IH. intros y Hy. apply HP. by right.
Qed.

Lemma erase_first_spec s slots : NoDup slots -> erase_first s slots = filter (fun x => x <> s) slots.
Proof.
  induction 1 as [|x slots Hx Hnd IH]; [done|]. cbn [erase_first]. rewrite filter_cons.
  case_decide as Hs.
  - subst x. rewrite decide_False by tauto. symmetry. apply filter_all. intros y Hy ->. done.
  - by rewrite decide_True, IH.
Qed.

Lemma disconnect_spec s slots : NoDup slots ->
  disconnect s slots = (bool_decide (s ∈ slots), filter (fun x => x <> s) slots).
Proof.
  intros Hnd. unfold disconnect. case_decide as Hs.
  - by rewrite bool_decide_true, erase_first_spec.
  - rewrite bool_decide_false by done. f_equal. symmetry. apply filter_all. intros y Hy ->. done.
Qed.

(** What a sequence of operations leaves connected: a slot whose last operation connected it. *)
Fixpoint connected (os : list signal_op) (s : BasicSlot) (before : Prop) : Prop :=
  match os with
  | [] => before
  | Connect s' :: os => connected os s (s = s' \/ before)
  | Disconnect s' :: os => connected os s (s <> s' /\ before)
  | DisconnectAll :: os => connected os s False
  end.

Lemma connected_iff os s P Q : (P <-> Q) -> connected os s P <-> connected os s Q.
Proof. revert P Q. induction os as [|[] os IH]; intros P Q HPQ; cbn; [done | apply IH; tauto.. | done]. Qed.

Lemma run_signal_ops os : forall slots, NoDup slots ->
  let slots' := foldl (fun l o => run_signal_op o l) slots os in
  NoDup slots' /\ forall s, s ∈ slots' <-> connected os s (s ∈ slots).
Proof.
  induction os as [|o os IH]; intros slots Hnd; [done|]. cbn [foldl].
  assert (NoDup (run_signal_op o slots)) as Hnd'.
  { destruct o; cbn; [by apply connect_nodup | rewrite disconnect_spec by done; by apply NoDup_filter | constructor]. }
  destruct (IH _ Hnd') as [H1 H2]. split; [done|]. intros s. rewrite H2. destruct o; cbn [connected run_signal_op]; apply connected_iff.
  - unfold connect. case_decide; cbn; rewrite ?elem_of_app, ?list_elem_of_singleton; intuition congruence.
  - rewrite disconnect_spec by done. cbn. by rewrite list_elem_of_filter.
  - cbn. split; [by intros ?%elem_of_nil | done].
Qed.

Lemma in_safe_calls s slots : s ∈ flat_map safe_call slots <-> s ∈ slots /\ fn_ s <> None.
Proof.
  rewrite list_elem_of_In, in_flat_map. split.
  - intros (x & Hx & Hs). unfold safe_call in Hs. destruct (fn_ x) eqn:E; [|done]. destruct Hs as [-> | []].
    rewrite list_elem_of_In. split; [done | congruence].
  - intros [Hs Hf]. exists s. rewrite <- list_elem_of_In. split; [done|]. unfold safe_call. destruct (fn_ s); [by left | done].
Qed.

Lemma safe_calls_nodup slots : NoDup slots -> NoDup (flat_map safe_call slots).
Proof.
  induction 1 as [|x slots Hx Hnd IH]; [constructor|]. cbn [flat_map]. apply NoDup_app. split.
  - unfold safe_call. destruct (fn_ x); [apply NoDup_singleton | constructor].
  - split; [|done]. intros y Hy Hin. apply in_safe_calls in Hin as [Hin _]. unfold safe_call in Hy.
    destruct (fn_ x); [apply list_elem_of_singleton in Hy as -> | apply elem_of_nil in Hy]; done.
Qed.

(** A signal calls exactly what is connected: after any connections and disconnections,
    and for callbacks that leave the signal as it is, a call goes once to every slot
    that has a function and that was connected and not disconnected since. *)
Theorem signal_calls_connected (callback : BasicSlot -> list signal_op) (os : list signal_op) :
  let slots := foldl (fun l o => run_signal_op o l) [] os in
  harmless callback slots ->
  exists calls, invoke callback slots = Some (slots, calls) /\ NoDup calls
    /\ forall s, s ∈ calls <-> fn_ s <> None /\ connected os s False.
Proof.
  intros slots Hh. destruct (run_signal_ops os [] (NoDup_nil_2)) as [Hnd Hin]. fold slots in Hnd, Hin.
  exists (flat_map safe_call slots). unfold invoke. split; [by rewrite invoke_loop_spec by done|].
  split; [by apply safe_calls_nodup|]. intros s. rewrite in_safe_calls, Hin.
  rewrite (connected_iff os s (s ∈ []) False) by (split; [by intros ?%elem_of_nil | done]). tauto.
Qed.

Definition slot_a : BasicSlot := mkSlot 1 (Some 1).
Definition slot_b : BasicSlot := mkSlot 2 (Some 1).

Lemma signal_calls_connected_witness :
  exists calls, invoke (fun _ => [Connect slot_b]) [slot_b; no_slot] = Some ([slot_b; no_slot], calls) /\ NoDup calls
    /\ forall s, s ∈ calls <-> fn_ s <> None
         /\ connected [Connect slot_a; Connect slot_b; Connect no_slot; Disconnect slot_a; Connect slot_b] s False.
Proof.
  apply (signal_calls_connected (fun _ => [Connect slot_b]) [Connect slot_a; Connect slot_b; Connect no_slot; Disconnect slot_a; Connect slot_b]).
  intros s o _ ->%list_elem_of_singleton. vm_compute. left.
Defined.

(** A callback must not change the signal that calls it: when the callback of a slot
    takes a slot out, itself for instance, or connects a new one, the call goes on with
    iterators into a vector that has changed. *)
Theorem signal_changed_in_call (callback : BasicSlot -> list signal_op) (slots1 slots2 : list BasicSlot) (s : BasicSlot) :
  (forall x, x ∈ slots1 -> callback x = []) -> fn_ s <> None ->
  foldl (fun l o => run_signal_op o l) (slots1 ++ s :: slots2) (callback s) <> slots1 ++ s :: slots2 ->
  invoke callback (slots1 ++ s :: slots2) = None.
Proof.
  intros Hc Hf Hch. unfold invoke.
  assert (forall pre post calls, slots1 = pre ++ post ->
    invoke_loop callback (length post + S (length slots2)) (length pre) (slots1 ++ s :: slots2) calls = None) as Hgo.
  { intros pre post. revert pre. induction post as [|x post IH]; intros pre calls E.
    - rewrite app_nil_r in E. subst pre. cbn [length Nat.add]. by apply invoke_loop_changed.
    - cbn [length Nat.add invoke_loop]. rewrite E at 1. rewrite <- app_assoc, lookup_app_r, Nat.sub_diag by done.
      cbn [lookup list_lookup app mbind option_bind]. rewrite Hc by (rewrite E, elem_of_app; right; left).
      replace (match fn_ x with Some _ => [] | None => [] end) with (@nil signal_op) by (by destruct (fn_ x)). cbn [foldl].
      rewrite decide_True by done. specialize (IH (pre ++ [x]) (calls ++ safe_call x)).
      rewrite length_app, Nat.add_1_r in IH. apply IH. by rewrite <- app_assoc. }
  specialize (Hgo [] slots1 [] eq_refl). cbn in Hgo. by rewrite length_app.
Qed.

Lemma signal_changed_in_call_witness : invoke (fun s => if decide (s = slot_b) then [Disconnect slot_b] else []) [slot_a; slot_b] = None.
Proof.
  apply (signal_changed_in_call (fun s => if decide (s = slot_b) then [Disconnect slot_b] else []) [slot_a] [] slot_b).
  - intros s ->%list_elem_of_singleton. by rewrite decide_False by discriminate.
  - discriminate.
  - discriminate.
Defined.

(** ** Subscriptions that are moved *)

(** A subscription does not survive a move: the moved-from handle keeps its slot, so
    that its end disconnects the slot, although the handle that it was moved to lives. *)
Theorem moved_subscription_is_lost (x : system) (i id : nat) (s : BasicSlot) :
  NoDup (slots_ x) -> NoDup (handles x).*1 -> (next_id x ∉ (handles x).*1) -> handles x !! i = Some (id, s) ->
  let x' := acts [MoveFrom id; Destroy id] x in
  (s ∉ slots_ x') /\ (next_id x, s) ∈ handles x'.
Proof.
  intros Hs Hid Hnew Hi. cbn [acts foldl].
  assert (forall l, list_find (fun h : nat * BasicSlot => h.1 = id) (handles x ++ l) = Some (i, (id, s))) as Hfind.
  { intros l. apply list_find_Some. split; [by rewrite lookup_app_l by (by eapply lookup_lt_Some)|]. split; [done|].
    intros j [id' s'] Hj Hlt. cbn. intros ->.
    rewrite lookup_app_l in Hj by (apply lookup_lt_Some in Hi; lia).
    apply (NoDup_lookup _ j i id) in Hid; [lia | by rewrite list_lookup_fmap, Hj | by rewrite list_lookup_fmap, Hi]. }
  assert (act (MoveFrom id) x = mkSystem (slots_ x) (handles x ++ [(next_id x, s)]) (S (next_id x))) as ->.
  { cbn [act]. specialize (Hfind []). rewrite app_nil_r in Hfind. by rewrite Hfind. }
  cbn [act handles slots_]. rewrite Hfind. cbn [slots_ handles]. rewrite disconnect_spec by done. cbn [snd]. split.
  - rewrite list_elem_of_filter. tauto.
  - rewrite delete_take_drop, elem_of_app. right. rewrite drop_app_le by (apply lookup_lt_Some in Hi; lia).
    rewrite elem_of_app. right. left.
Qed.

Lemma moved_subscription_is_lost_witness :
  let x := acts [Subscribe slot_a; Subscribe slot_b] no_subscription in
  let x' := acts [MoveFrom 1; Destroy 1] x in
  (slot_b ∉ slots_ x') /\ (2, slot_b) ∈ handles x'.
Proof.
  apply (moved_subscription_is_lost (acts [Subscribe slot_a; Subscribe slot_b] no_subscription) 1 1 slot_b);
    [by apply (bool_decide_unpack _); vm_compute.. | reflexivity].
Defined.

(** ** Maps of slots *)

(** [SignalMap], with the calls made, the slots put in, and those erased without a call. *)
Record signal_map := mkMap { data_ : gmap nat BasicSlot; calls_ : list (nat * BasicSlot); entered : nat; erased : nat }.

Definition map_empty (key : nat) (m : signal_map) : bool := bool_decide (data_ m !! key = None).

Definition emplace (key : nat) (slot : BasicSlot) (m : signal_map) : bool * signal_map :=
  match data_ m !! key with
  | Some _ => (false, m)
  | None => (true, mkMap (<[key := slot]> (data_ m)) (calls_ m) (S (entered m)) (erased m))
  end.

Definition map_erase (key : nat) (m : signal_map) : bool * signal_map :=
  match data_ m !! key with
  | Some _ => (true, mkMap (delete key (data_ m)) (calls_ m) (entered m) (S (erased m)))
  | None => (false, m)
  end.

(** What the callbacks of a map do to it. *)
Inductive map_op := Emplace (key : nat) (s : BasicSlot) | Erase (key : nat) | Notify (key : nat).

(** [notify] takes the slot out before it calls it; the call fails when the slot is empty. *)
Fixpoint run_map_ops (callback : BasicSlot -> list map_op) (fuel : nat) (os : list map_op) (m : signal_map) {struct fuel} : option signal_map :=
  match fuel, os with
  | _, [] => Some m
  | O, _ => None
  | S fuel, o :: os =>
      m ← (match o with
           | Emplace key s => Some (emplace key s m).2
           | Erase key => Some (map_erase key m).2
           | Notify key =>
               match data_ m !! key with
               | None => Some m
               | Some slot =>
                   called ← invoke_slot slot;
                   run_map_ops callback fuel (callback slot)
                     (mkMap (delete key (data_ m)) (calls_ m ++ map (pair key) called) (entered m) (erased m))
               end
           end);
      run_map_ops callback fuel os m
  end.

Definition no_entry : signal_map := mkMap ∅ [] 0 0.

(** Every slot that was put in was called once, erased, or is still there; and none is empty. *)
Definition accounted (m : signal_map) : Prop :=
  length (calls_ m) + size (data_ m) + erased m = entered m /\ map_Forall (fun _ s => fn_ s <> None) (data_ m).

Definition fills (o : map_op) : Prop := match o with Emplace _ s => fn_ s <> None | _ => True end.
Definition quiet (o : map_op) : Prop := match o with Notify _ => False | _ => True end.

Lemma emplace_accounted key s m : fn_ s <> None -> accounted m -> accounted (emplace key s m).2.
Proof.
  intros Hs [Hn Hf]. unfold emplace. destruct (data_ m !! key) eqn:E; [done|]. split; cbn.
  - rewrite map_size_insert_None by done. lia.
  - by apply map_Forall_insert_2.
Qed.

Lemma map_erase_accounted key m : accounted m -> accounted (map_erase key m).2.
Proof.
  intros [Hn Hf]. unfold map_erase. destruct (data_ m !! key) as [s|] eqn:E; [|done]. split; cbn.
  - assert (size (data_ m) <> 0) by (intros H0%map_size_empty_inv; rewrite H0 in E; by rewrite lookup_empty in E).
    rewrite map_size_delete_Some by done. lia.
  - by apply map_Forall_delete.
Qed.

Lemma quiet_ops_accounted callback os : forall fuel m,
  Forall (fun o => fills o /\ quiet o) os -> length os <= fuel -> accounted m ->
  exists m', run_map_ops callback fuel os m = Some m' /\ accounted m'.
Proof.
  induction os as [|o os IH]; intros fuel m Ho Hf Hm; [exists m; by destruct fuel|].
  destruct fuel as [|fuel]; [cbn in Hf; lia|]. apply Forall_cons in Ho as [[Hfill Hq] Ho]. cbn in Hf.
  destruct o as [key s | key | key]; [| |done]; cbn [run_map_ops mbind option_bind].
  - apply IH; [done | lia | by apply emplace_accounted].
  - apply IH; [done | lia | by apply map_erase_accounted].
Qed.

Lemma map_ops_accounted callback n os : forall fuel m,
  (forall s, Forall (fun o => fills o /\ quiet o) (callback s) /\ length (callback s) <= n) ->
  Forall fills os -> length os + n <= fuel -> accounted m ->
  exists m', run_map_ops callback fuel os m = Some m' /\ accounted m'.
Proof.
  induction os as [|o os IH]; intros fuel m Hc Ho Hf Hm; [exists m; by destruct fuel|].
  destruct fuel as [|fuel]; [cbn in Hf; lia|]. apply Forall_cons in Ho as [Hfill Ho]. cbn in Hf.
  destruct o as [key s | key | key]; cbn [run_map_ops mbind option_bind].
  - apply IH; [done | done | lia | by apply emplace_accounted].
  - apply IH; [done | done | lia | by apply map_erase_accounted].
  - destruct (data_ m !! key) as [s|] eqn:E; [|by apply IH; [| |lia|]].
    destruct Hm as [Hn Hall]. pose proof (map_Forall_lookup_1 _ _ _ _ Hall E) as Hs. cbn in Hs.
    unfold invoke_slot. destruct (fn_ s) eqn:Ef; [|done]. cbn [mbind option_bind map].
    destruct (quiet_ops_accounted callback (callback s) fuel
      (mkMap (delete key (data_ m)) (calls_ m ++ [(key, s)]) (entered m) (erased m))) as (m1 & -> & Hm1).
    + apply Hc.
    + destruct (Hc s). lia.
    + split; cbn; [|by apply map_Forall_delete]. rewrite length_app. cbn.
      assert (size (data_ m) <> 0) by (intros H0%map_size_empty_inv; rewrite H0 in E; by rewrite lookup_empty in E).
      rewrite map_size_delete_Some by done. lia.
    + cbn [option_bind]. by apply IH; [| |lia|].
Qed.

(** Callbacks of a map of slots are called once: for any sequence of operations on a new
    map, whose callbacks put in and erase slots again, every slot that was put in was
    called once, was erased, or is still there; with fuel for the operations and those
    of one callback. *)
Theorem map_calls_once (callback : BasicSlot -> list map_op) (n : nat) (os : list map_op) (fuel : nat) :
  (forall s, Forall (fun o => fills o /\ quiet o) (callback s) /\ length (callback s) <= n) ->
  Forall fills os -> length os + n <= fuel ->
  exists m, run_map_ops callback fuel os no_entry = Some m
    /\ length (calls_ m) + size (data_ m) + erased m = entered m.
Proof.
  intros Hc Ho Hf. destruct (map_ops_accounted callback n os fuel no_entry Hc Ho Hf) as (m & Hm & Ha & _); [|by exists m].
  split; [done | apply map_Forall_empty].
Qed.

Lemma map_calls_once_witness :
  exists m, run_map_ops (fun s => match fn_ s with Some _ => [Emplace 7 s] | None => [] end) 10 [Emplace 7 slot_a; Notify 7; Notify 7; Emplace 3 slot_b; Erase 3] no_entry = Some m
    /\ length (calls_ m) + size (data_ m) + erased m = entered m.
Proof.
  apply (map_calls_once (fun s => match fn_ s with Some _ => [Emplace 7 s] | None => [] end) 1
    [Emplace 7 slot_a; Notify 7; Notify 7; Emplace 3 slot_b; Erase 3] 10).
  - intros s. destruct (fn_ s) eqn:E; [|by split; [constructor | cbn; lia]]. split; [|cbn; lia].
    constructor; [|constructor]. split; [cbn; congruence | done].
  - repeat constructor; discriminate.
  - cbn. lia.
Defined.
