(* ===== verification/Capture.v ===== *)
(** * Packet capture

    Models [toolbox/net/Pcap.ipp], [toolbox/net/Pcap.hpp] and [toolbox/net/Pcap.cpp]: the
    fields of captured packets and the device that gives packets to its observers, which
    are the slots of a signal (file Signal).  Endpoints of packets are what the filters
    of file Endpoint select.

    A packet is the bytes that were captured; reading outside of them is undefined, and
    has no value.  The offsets are those of the structures of the system's headers
    ([ether_header], [ip], [tcphdr], [udphdr]).  What libpcap returns is an input. *)
From Stdlib Require Import String.
From S2P Require Import Prelude Text Frame Endpoint Time Signal.
#[local] Open Scope Z_scope.

(** ** Packets *)

Definition ETHERTYPE_IP : Z := 0x0800.
Definition ETHERTYPE_IPV6 : Z := 0x86dd.
Definition IPPROTO_PIM : Z := 103.

(** The sizes of the headers. *)
Definition ether_size : Z := 14.
Definition ip_size : Z := 20.
Definition tcp_size : Z := 20.
Definition udp_size : Z := 8.

(** [pcap_pkthdr]: when, how many bytes were captured, how many there were. *)
Record pcap_pkthdr := mkHdr { ts : timeval; caplen : Z; len : Z }.
Record PcapPacket := mkPacket { pkthdr : pcap_pkthdr; packet : list Z }.

(** Bytes of the packet, if they were captured. *)
Definition read (off n : Z) (p : PcapPacket) : option (list Z) :=
  if off + n <=? Z.of_nat (length (packet p))
  then Some (take (Z.to_nat n) (drop (Z.to_nat off) (packet p))) else None.

(** [ntohs] and [ntohl]: a number whose first byte is the highest. *)
Definition network (bs : list Z) : Z := le (rev bs).

Definition ether_type (p : PcapPacket) : option Z := network <$> read 12 2 p.
Definition ip_p (p : PcapPacket) : option Z := network <$> read (ether_size + 9) 1 p.

Definition protocol_family (p : PcapPacket) : option Z :=
  t ← ether_type p;
  Some (if t =? ETHERTYPE_IP then AF_INET else if t =? ETHERTYPE_IPV6 then AF_INET6 else AF_UNSPEC).

(** A port: the first or the second field of both headers. *)
Definition port_at (off : Z) (p : PcapPacket) : option Z :=
  ip_proto ← ip_p p;
  if (ip_proto =? IPPROTO_TCP) || (ip_proto =? IPPROTO_UDP)
  then network <$> read (ether_size + ip_size + off) 2 p
  else Some 0.
Definition src_port : PcapPacket -> option Z := port_at 0.
Definition dst_port : PcapPacket -> option Z := port_at 2.

(** [IpProtocol]. *)
Record IpProtocol := mkProtocol { family_ : Z; protocol_ : Z; type_ : Z }.

Definition protocol (p : PcapPacket) : option IpProtocol :=
  ip_proto ← ip_p p;
  family ← protocol_family p;
  Some (mkProtocol family ip_proto
          (if ip_proto =? IPPROTO_TCP then SOCK_STREAM else if ip_proto =? IPPROTO_UDP then SOCK_DGRAM else 0)).

(** Addresses of Boost: of four bytes, a number, and of sixteen. *)
Inductive IpAddr := AddrV4 (n : Z) | AddrV6 (bytes : list Z).
#[export] Instance ip_addr_eqdec : EqDecision IpAddr.
Proof. solve_decision. Defined.

Section endpoint.
(** The address of an endpoint that is made of no protocol. *)
Variable no_address : IpAddr.

(** [src] and [dst]: the address is at an offset of the structure [ip], for both
    families. *)
Definition endpoint_at (off : Z) (port : PcapPacket -> option Z) (p : PcapPacket) : option (IpAddr * Z) :=
  family ← protocol_family p;
  if family =? AF_INET then
    a ← read (ether_size + off) 4 p;
    n ← port p;
    Some (AddrV4 (network a), n)
  else if family =? AF_INET6 then
    a ← read (ether_size + off) 16 p;
    n ← port p;
    Some (AddrV6 a, n)
  else Some (no_address, 0).
Definition src : PcapPacket -> option (IpAddr * Z) := endpoint_at 12 src_port.
Definition dst : PcapPacket -> option (IpAddr * Z) := endpoint_at 16 dst_port.
End endpoint.

(** The offset of the data, which may be null, and its size, which is not asked for
    with IPv6 (an assertion). *)
Definition data (p : PcapPacket) : option (option Z) :=
  ip_proto ← ip_p p;
  Some (if ip_proto =? IPPROTO_TCP then Some (ether_size + ip_size + tcp_size)
        else if (ip_proto =? IPPROTO_UDP) || (ip_proto =? IPPROTO_PIM) then Some (ether_size + ip_size + udp_size)
        else None).

Definition size (p : PcapPacket) : option Z :=
  family ← protocol_family p;
  if family =? AF_INET then
    ip_proto ← ip_p p;
    Some (if ip_proto =? IPPROTO_TCP then u64 (len (pkthdr p) - (ether_size + ip_size + tcp_size))
          else if ip_proto =? IPPROTO_UDP then u64 (len (pkthdr p) - (ether_size + ip_size + udp_size))
          else 0)
  else if family =? AF_INET6 then None
  else Some 0.

(** The bytes of [str]. *)
Definition str_ (p : PcapPacket) : option (list Z) :=
  d ← data p;
  n ← size p;
  if n =? 0 then Some []
  else match d with Some off => read off n p | None => None end.

(** [PcapPacket::len] and [recv_timestamp]. *)
Definition packet_len (p : PcapPacket) : Z := caplen (pkthdr p).
Definition recv_timestamp (p : PcapPacket) : Z := time_of_timeval (ts (pkthdr p)).

(** ** The device *)

Record PcapDevice := mkDevice {
  handle_ : bool;
  max_packet_count_ : Z;
  input_ : str;
  filter_ : str;
  packets_ : list BasicSlot
}.

Definition new_device : PcapDevice := mkDevice false 0 [] (lit "tar -xOzf ") [].
Definition set_handle (h : bool) (d : PcapDevice) : PcapDevice :=
  mkDevice h (max_packet_count_ d) (input_ d) (filter_ d) (packets_ d).
Definition set_packets (l : list BasicSlot) (d : PcapDevice) : PcapDevice :=
  mkDevice (handle_ d) (max_packet_count_ d) (input_ d) (filter_ d) l.

Definition use_filter (d : PcapDevice) : bool := ends_with (input_ d) (lit ".tgz").

(** What is opened: the output of a command, or a file. *)
Inductive source := Command (line : str) | File (path : str).
Definition source_of (d : PcapDevice) : source :=
  if use_filter d then Command (filter_ d ++ input_ d) else File (input_ d).

(** How an operation of the device ends: with a value, or by an exception. *)
Inductive outcome := Returned (rc : Z) | Threw (what : str).

Section device.
(** libpcap: the error of opening a source, if any; the packets that [pcap_loop] gives to
    the handler for a count, and what it returns; the text of its last error. *)
Variable pcap_fopen_offline : source -> option str.
Variable pcap_loop : Z -> list PcapPacket * Z.
Variable pcap_geterr : str.
(** What the function of a slot does to the signal when it is called with a packet. *)
Variable callback : PcapPacket -> BasicSlot -> list signal_op.

Definition open (d : PcapDevice) : PcapDevice * option str :=
  match pcap_fopen_offline (source_of d) with
  | None => (set_handle true d, None)
  | Some err => (set_handle false d, Some err)
  end.

Definition close (d : PcapDevice) : PcapDevice := set_handle false d.

Definition pcap_packet_handler (d : PcapDevice) (p : PcapPacket) : option (PcapDevice * list (BasicSlot * PcapPacket)) :=
  t ← ether_type p;
  if t =? ETHERTYPE_IP then
    '(slots, calls) ← invoke (callback p) (packets_ d);
    Some (set_packets slots d, map (fun s => (s, p)) calls)
  else Some (d, []).

Fixpoint handle_all (d : PcapDevice) (ps : list PcapPacket) : option (PcapDevice * list (BasicSlot * PcapPacket)) :=
  match ps with
  | [] => Some (d, [])
  | p :: ps =>
      '(d, calls) ← pcap_packet_handler d p;
      '(d, more) ← handle_all d ps;
      Some (d, calls ++ more)
  end.

(** The handle must be open (an assertion). *)
Definition loop (d : PcapDevice) : option (PcapDevice * list (BasicSlot * PcapPacket) * outcome) :=
  if handle_ d then
    let '(ps, rc) := pcap_loop (max_packet_count_ d) in
    '(d, calls) ← handle_all d ps;
    Some (d, calls,
      if 0 <=? rc then Returned rc
      else if rc =? -1 then Threw pcap_geterr
      else if rc =? -2 then Returned rc
      else Threw (lit "invalid pcap return code"))
  else None.

(** An exception leaves [run]: of [open] before the loop, of the loop before [close]. *)
Definition run (d : PcapDevice) : option (PcapDevice * list (BasicSlot * PcapPacket) * option str) :=
  let '(d, err) := open d in
  match err with
  | Some what => Some (d, [], Some what)
  | None =>
      '(d, calls, o) ← loop d;
      Some (match o with Returned _ => (close d, calls, None) | Threw what => (d, calls, Some what) end)
  end.
End device.

(** ** Frames on the wire *)

(** A number with its highest byte first. *)
Definition be (n : nat) (z : Z) : list Z := rev (bytes_le n z).

Inductive transport := Tcp | Udp.

(** An Ethernet frame with an IPv4 packet of TCP or UDP: what is before the protocol
    field, the checksum, the addresses, options of IP, the ports, the rest of the header
    of TCP or UDP, options of TCP, the payload, and the padding of the frame. *)
Record frame := mkFrame {
  macs : list Z; ip_start : list Z; transport_of : transport; ip_sum : list Z;
  src_addr : Z; dst_addr : Z; ip_options : list Z;
  sport : Z; dport : Z; l4_rest : list Z; l4_options : list Z;
  payload : list Z; padding : list Z
}.

Definition proto_number (t : transport) : Z := match t with Tcp => IPPROTO_TCP | Udp => IPPROTO_UDP end.
Definition l4_size (t : transport) : Z := match t with Tcp => tcp_size | Udp => udp_size end.

Definition ip_header (f : frame) : list Z :=
  ip_start f ++ [proto_number (transport_of f)] ++ ip_sum f ++ be 4 (src_addr f) ++ be 4 (dst_addr f).
Definition l4_header (f : frame) : list Z := be 2 (sport f) ++ be 2 (dport f) ++ l4_rest f.
(** What is behind the fixed header of TCP or UDP. *)
Definition l4_data (f : frame) : list Z := l4_options f ++ payload f ++ padding f.
Definition encode (f : frame) : list Z :=
  macs f ++ be 2 ETHERTYPE_IP ++ ip_header f ++ ip_options f ++ l4_header f ++ l4_data f.

Record wf_frame (f : frame) : Prop := {
  wf_macs : length (macs f) = 12%nat;
  wf_start : length (ip_start f) = 9%nat;
  wf_sum : length (ip_sum f) = 2%nat;
  wf_rest : Z.of_nat (length (l4_rest f)) = l4_size (transport_of f) - 4;
  wf_addrs : 0 <= src_addr f < 2 ^ 32 /\ 0 <= dst_addr f < 2 ^ 32;
  wf_ports : 0 <= sport f < 2 ^ 16 /\ 0 <= dport f < 2 ^ 16;
  wf_length : Z.of_nat (length (encode f)) < 2 ^ 32
}.

(** A packet that was captured as a whole. *)
Definition captured (t : timeval) (bs : list Z) : PcapPacket :=
  mkPacket (mkHdr t (Z.of_nat (length bs)) (Z.of_nat (length bs))) bs.

Example read_test :
  let f := mkFrame (replicate 12 0) (replicate 9 0) Udp [0; 0] (10 * 2 ^ 24 + 1) (239 * 2 ^ 24 + 7) [] 53 1025
             [0; 12; 0; 0] [] [97; 98; 99; 100] [] in
  let p := captured (mkTimeval 1 5) (encode f) in
  src (AddrV4 0) p = Some (AddrV4 167772161, 53) /\ dst (AddrV4 0) p = Some (AddrV4 4009754631, 1025)
  /\ str_ p = Some [97; 98; 99; 100] /\ recv_timestamp p = 1000005000.
Proof. by vm_compute. Qed.

(** ** Reading fields *)

Lemma length_be n z : length (be n z) = n.
Proof. unfold be. by rewrite length_rev, length_bytes_le. Qed.

Lemma network_be n z : 0 <= z < 2 ^ (8 * Z.of_nat n) -> network (be n z) = z.
Proof. intros Hz. unfold network, be. by rewrite rev_involutive, le_bytes_le. Qed.

Lemma fmap_network n z : 0 <= z < 2 ^ (8 * Z.of_nat n) -> network <$> Some (be n z) = Some z.
Proof. intros Hz. cbn [fmap option_fmap option_map]. by rewrite network_be. Qed.

Lemma read_app pre x post off n p : packet p = pre ++ x ++ post ->
  off = Z.of_nat (length pre) -> n = Z.of_nat (length x) -> read off n p = Some x.
Proof.
  intros E -> ->. unfold read. rewrite E, !length_app, !Nat2Z.id, drop_app_length, take_app_length.
  destruct (Z.leb_spec (Z.of_nat (length pre) + Z.of_nat (length x)) (Z.of_nat (length pre + (length x + length post)))); [done | lia].
Qed.

Lemma read_some off n p bs : 0 <= off -> 0 <= n -> read off n p = Some bs ->
  off + n <= Z.of_nat (length (packet p)) /\ Z.of_nat (length bs) = n.
Proof.
  intros Ho Hn. unfold read. destruct (Z.leb_spec (off + n) (Z.of_nat (length (packet p)))); [|done].
  intros [= <-]. split; [done|]. rewrite length_take, length_drop. lia.
Qed.

Lemma read_total off n p : off + n <= Z.of_nat (length (packet p)) -> is_Some (read off n p).
Proof. intros H. unfold read. destruct (Z.leb_spec (off + n) (Z.of_nat (length (packet p)))); [done | lia]. Qed.

(** The parts of a frame. *)
Section fields.
Variables (f : frame) (t : timeval).
Hypothesis wf : wf_frame f.
Let p : PcapPacket := captured t (encode f).

(** A field between two parts of the frame. *)
Ltac field pre post :=
  destruct wf as [? ? ? ? ? ? ?];
  apply (read_app pre _ post);
    [ change (packet p) with (encode f); unfold encode, ip_header, l4_header; by rewrite <- ?app_assoc
    | rewrite ?length_app, ?length_be; cbn; unfold ether_size, ip_size; lia
    | rewrite ?length_be; cbn; lia ].

Lemma ether_type_frame : ether_type p = Some ETHERTYPE_IP.
Proof.
  unfold ether_type. assert (read 12 2 p = Some (be 2 ETHERTYPE_IP)) as ->; [|by apply fmap_network].
  field (macs f) (ip_header f ++ ip_options f ++ l4_header f ++ l4_data f).
Qed.

Lemma ip_p_frame : ip_p p = Some (proto_number (transport_of f)).
Proof.
  unfold ip_p. assert (read (ether_size + 9) 1 p = Some [proto_number (transport_of f)]) as ->;
    [|by destruct (transport_of f)].
  field (macs f ++ be 2 ETHERTYPE_IP ++ ip_start f)
    (ip_sum f ++ be 4 (src_addr f) ++ be 4 (dst_addr f) ++ ip_options f ++ l4_header f ++ l4_data f).
Qed.

Lemma family_frame : protocol_family p = Some AF_INET.
Proof. unfold protocol_family. by rewrite ether_type_frame. Qed.

Lemma src_addr_frame : read (ether_size + 12) 4 p = Some (be 4 (src_addr f)).
Proof.
  field (macs f ++ be 2 ETHERTYPE_IP ++ ip_start f ++ [proto_number (transport_of f)] ++ ip_sum f)
    (be 4 (dst_addr f) ++ ip_options f ++ l4_header f ++ l4_data f).
Qed.

Lemma dst_addr_frame : read (ether_size + 16) 4 p = Some (be 4 (dst_addr f)).
Proof.
  field (macs f ++ be 2 ETHERTYPE_IP ++ ip_start f ++ [proto_number (transport_of f)] ++ ip_sum f ++ be 4 (src_addr f))
    (ip_options f ++ l4_header f ++ l4_data f).
Qed.

Lemma length_encode : Z.of_nat (length (encode f)) =
  ether_size + ip_size + l4_size (transport_of f) + Z.of_nat (length (ip_options f)) + Z.of_nat (length (l4_data f)).
Proof.
  destruct wf as [? ? ? ? ? ? ?]. unfold encode, ip_header, l4_header. rewrite !length_app, !length_be. cbn [length].
  unfold ether_size, ip_size. lia.
Qed.

(** What follows the fixed header of IP. *)
Lemma read_rest off n pre bs post : ip_options f ++ l4_header f ++ l4_data f = pre ++ bs ++ post ->
  off = Z.of_nat (length pre) -> n = Z.of_nat (length bs) -> read (ether_size + ip_size + off) n p = Some bs.
Proof.
  intros E -> ->. destruct wf as [? ? ? ? ? ? ?].
  apply (read_app (macs f ++ be 2 ETHERTYPE_IP ++ ip_header f ++ pre) bs post); [|
    unfold ip_header; rewrite !length_app, !length_be; cbn; unfold ether_size, ip_size; lia | done].
  change (packet p) with (encode f). unfold encode. rewrite E. by rewrite <- !app_assoc.
Qed.

Lemma port_frame off pre n post : ip_options f ++ l4_header f ++ l4_data f = pre ++ be 2 n ++ post ->
  off = Z.of_nat (length pre) -> 0 <= n < 2 ^ 16 -> port_at off p = Some n.
Proof.
  intros E Ho Hn. unfold port_at. rewrite ip_p_frame. cbn -[read ether_size ip_size].
  rewrite (read_rest off 2 pre (be 2 n) post) by (rewrite ?length_be; done).
  destruct (transport_of f); cbn -[network be]; by rewrite network_be.
Qed.

(** The size counts what was on the wire behind headers without options. *)
Lemma size_frame : size p = Some (Z.of_nat (length (ip_options f)) + Z.of_nat (length (l4_data f))).
Proof.
  pose proof length_encode as Hl. pose proof (wf_length f wf). unfold size. rewrite family_frame, ip_p_frame.
  change (len (pkthdr p)) with (Z.of_nat (length (encode f))).
  cbn -[u64 ether_size ip_size]. unfold l4_size in Hl.
  destruct (transport_of f); cbn -[u64 ether_size ip_size] in *; unfold tcp_size, udp_size, ether_size, ip_size in *;
    (rewrite wrapu_small; [f_equal; lia | lia]).
Qed.

Lemma data_frame : data p = Some (Some (ether_size + ip_size + l4_size (transport_of f))).
Proof. unfold data. rewrite ip_p_frame. by destruct (transport_of f). Qed.

(** The data begin at the end of the headers without options. *)
Lemma str_frame : str_ p = Some (drop (length (l4_header f)) (ip_options f ++ l4_header f ++ l4_data f)).
Proof.
  assert (Z.of_nat (length (l4_header f)) = l4_size (transport_of f)) as Hh.
  { destruct wf as [? ? ? Hr ? ? ?]. unfold l4_header. rewrite !length_app, !length_be. lia. }
  unfold str_. rewrite data_frame, size_frame. cbn [mbind option_bind].
  set (rest := ip_options f ++ l4_header f ++ l4_data f).
  assert (length (drop (length (l4_header f)) rest) = length (ip_options f) + length (l4_data f))%nat as Hd
    by (unfold rest; rewrite length_drop, !length_app; lia).
  destruct (Z.eqb_spec (Z.of_nat (length (ip_options f)) + Z.of_nat (length (l4_data f))) 0) as [E | E].
  - by rewrite (nil_length_inv (drop (length (l4_header f)) rest)) by lia.
  - apply (read_rest _ _ (take (length (l4_header f)) rest) _ []); [by rewrite app_nil_r, take_drop | | lia].
    rewrite length_take. unfold rest. rewrite !length_app. lia.
Qed.
End fields.

(** ** Whole frames *)

Definition socket_type (t : transport) : Z := match t with Tcp => SOCK_STREAM | Udp => SOCK_DGRAM end.

(** A frame of UDP, one of TCP with options, and one with options of IP. *)
Definition udp_frame : frame :=
  mkFrame (replicate 12 0) (replicate 9 0) Udp [0; 0] 167772161 4009754631 [] 53 1025 [0; 12; 0; 0] [] [97; 98; 99; 100] [].
Definition tcp_frame : frame :=
  mkFrame (replicate 12 0) (replicate 9 0) Tcp [0; 0] 167772161 4009754631 [] 80 1025 (replicate 16 0) [1; 1] [97; 98] [0].
Definition option_frame : frame :=
  mkFrame (replicate 12 0) (replicate 9 0) Udp [0; 0] 167772161 4009754631 [7; 4; 1; 0] 53 1025 [0; 12; 0; 0] [] [97; 98; 99; 100] [].

Lemma tcp_frame_wf : wf_frame tcp_frame.
Proof. by repeat split. Defined.
Lemma option_frame_wf : wf_frame option_frame.
Proof. by repeat split. Defined.

Lemma header_frame (f : frame) (t : timeval) (no_address : IpAddr) :
  wf_frame f -> ip_options f = [] ->
  let p := captured t (encode f) in
  protocol p = Some (mkProtocol AF_INET (proto_number (transport_of f)) (socket_type (transport_of f)))
  /\ src no_address p = Some (AddrV4 (src_addr f), sport f)
  /\ dst no_address p = Some (AddrV4 (dst_addr f), dport f).
Proof.
  intros wf Ho p.
  assert (src_port p = Some (sport f)) as Hs.
  { apply (port_frame f t wf 0 [] _ (be 2 (dport f) ++ l4_rest f ++ l4_data f)); [|done|apply wf].
    rewrite Ho. unfold l4_header. by rewrite <- ?app_assoc. }
  assert (dst_port p = Some (dport f)) as Hd.
  { apply (port_frame f t wf 2 (be 2 (sport f)) _ (l4_rest f ++ l4_data f)); [|by rewrite length_be|apply wf].
    rewrite Ho. unfold l4_header. by rewrite <- ?app_assoc. }
  subst p. split; [unfold protocol; rewrite (ip_p_frame f t wf), (family_frame f t wf); by destruct (transport_of f)|].
  unfold src, dst, endpoint_at. rewrite (family_frame f t wf), Hs, Hd. change (AF_INET =? AF_INET) with true. cbv iota beta.
  cbn [mbind option_bind]. rewrite (src_addr_frame f t wf), (dst_addr_frame f t wf). cbn [mbind option_bind].
  by rewrite !network_be by apply wf.
Qed.

(** C22: Reading undoes writing: of every TCP or UDP frame over IPv4 without IP options that
    was captured as a whole, the protocol, the addresses and ports, and the bytes
    behind the fixed headers are read as they were put together.  The data are the
    payload, together with options of TCP and the padding of short frames, which are
    not told apart from it. *)
Theorem captured_frame_read (f : frame) (t : timeval) (no_address : IpAddr) :
  wf_frame f -> ip_options f = [] ->
  let p := captured t (encode f) in
  protocol p = Some (mkProtocol AF_INET (proto_number (transport_of f)) (socket_type (transport_of f)))
  /\ src no_address p = Some (AddrV4 (src_addr f), sport f)
  /\ dst no_address p = Some (AddrV4 (dst_addr f), dport f)
  /\ str_ p = Some (l4_options f ++ payload f ++ padding f)
  /\ packet_len p = Z.of_nat (length (encode f)).
Proof.
  intros wf Ho p. destruct (header_frame f t no_address wf Ho) as (Hp & Hs & Hd). do 3 (split; [done|]).
  split; [|done]. subst p. rewrite (str_frame f t wf), Ho. cbn [app]. by rewrite drop_app_length.
Qed.

Lemma captured_frame_read_witness :
  let p := captured (mkTimeval 0 0) (encode tcp_frame) in
  protocol p = Some (mkProtocol AF_INET 6 SOCK_STREAM)
  /\ src (AddrV4 0) p = Some (AddrV4 167772161, 80)
  /\ dst (AddrV4 0) p = Some (AddrV4 4009754631, 1025)
  /\ str_ p = Some [1; 1; 97; 98; 0]
  /\ packet_len p = 59.
Proof. exact (captured_frame_read tcp_frame (mkTimeval 0 0) (AddrV4 0) tcp_frame_wf eq_refl). Defined.

(** With options of IP the headers are not where they are looked for: the ports are the
    first bytes of the options, and the data begin among the headers. *)
Theorem ip_options_misread (f : frame) (t : timeval) :
  wf_frame f -> (4 <= length (ip_options f))%nat ->
  let p := captured t (encode f) in
  src_port p = Some (network (take 2 (ip_options f)))
  /\ dst_port p = Some (network (take 2 (drop 2 (ip_options f))))
  /\ str_ p = Some (drop (length (l4_header f)) (ip_options f ++ l4_header f ++ l4_data f)).
Proof.
  intros wf Ho p. subst p.
  assert (forall k, (k <= 2)%nat -> port_at (Z.of_nat k) (captured t (encode f)) = Some (network (take 2 (drop k (ip_options f))))) as Hp.
  { intros k Hk. unfold port_at. rewrite (ip_p_frame f t wf). cbn [mbind option_bind].
    rewrite (read_rest f t wf _ 2 (take k (ip_options f)) (take 2 (drop k (ip_options f)))
      (drop 2 (drop k (ip_options f)) ++ l4_header f ++ l4_data f));
      [by destruct (transport_of f) | | rewrite length_take; lia | rewrite length_take, length_drop; lia].
    by rewrite !app_assoc, <- (app_assoc (take k _)), !take_drop. }
  split; [apply (Hp 0%nat); lia|]. split; [apply (Hp 2%nat); lia|]. by apply str_frame.
Qed.

Lemma ip_options_misread_witness :
  let p := captured (mkTimeval 0 0) (encode option_frame) in
  src_port p = Some (7 * 256 + 4) /\ dst_port p = Some 256 /\ str_ p = Some [0; 12; 0; 0; 97; 98; 99; 100].
Proof. apply (ip_options_misread option_frame (mkTimeval 0 0) option_frame_wf). cbn. lia. Defined.

(** C35: The data of a packet are in the captured bytes exactly when nothing of the packet
    was cut off: for TCP and UDP over IPv4, [str] is defined if and only if the packet
    ends with its headers, or is longer than them and was captured to its end.  A
    capture with a limit, and packets shorter than the headers, are read out of bounds. *)
Theorem data_in_bounds (p : PcapPacket) (tr : transport) :
  protocol_family p = Some AF_INET -> ip_p p = Some (proto_number tr) ->
  Z.of_nat (length (packet p)) = caplen (pkthdr p) -> caplen (pkthdr p) < 2 ^ 32 -> 0 <= len (pkthdr p) < 2 ^ 32 ->
  let headers := ether_size + ip_size + l4_size tr in
  is_Some (str_ p) <-> len (pkthdr p) = headers \/ headers < len (pkthdr p) <= caplen (pkthdr p).
Proof.
  intros Hf Hi Hc Hc32 Hl headers.
  assert (size p = Some (u64 (len (pkthdr p) - headers)) /\ data p = Some (Some headers)) as [Hs Hd].
  { unfold size, data. rewrite Hf, Hi. by destruct tr. }
  assert (42 <= headers <= 54) as Hh by (unfold headers, ether_size, ip_size; destruct tr; cbn; unfold tcp_size, udp_size; lia).
  unfold str_. rewrite Hs, Hd. cbn [mbind option_bind]. unfold read. rewrite Hc. clearbody headers.
  assert (len (pkthdr p) < headers -> u64 (len (pkthdr p) - headers) = 2 ^ 64 + len (pkthdr p) - headers) as Hw.
  { intros. unfold wrapu. rewrite <- (Z.mod_small (2 ^ 64 + len (pkthdr p) - headers) (2 ^ 64)) by lia.
    rewrite <- (Z_mod_plus_full (len (pkthdr p) - headers) 1). f_equal. lia. }
  assert (headers <= len (pkthdr p) -> u64 (len (pkthdr p) - headers) = len (pkthdr p) - headers) as Hn
    by (intros; apply wrapu_small; lia).
  set (n := u64 _) in *. clearbody n.
  destruct (Z.eqb_spec n 0), (Z.leb_spec (headers + n) (caplen (pkthdr p))); split; try done; try lia.
  all: intros Hx; try (by eexists); try (by destruct Hx as [? ?]).
Qed.

Lemma data_in_bounds_witness :
  let p := mkPacket (mkHdr (mkTimeval 0 0) 44 46) (take 44 (encode udp_frame)) in
  (is_Some (str_ p) <-> 46 = 42 \/ 42 < 46 <= 44) /\ str_ p = None.
Proof.
  split; [|reflexivity].
  apply (data_in_bounds (mkPacket (mkHdr (mkTimeval 0 0) 44 46) (take 44 (encode udp_frame))) Udp);
    [reflexivity | reflexivity | reflexivity | cbn; lia | cbn; lia].
Defined.

(** ** IPv6 *)

(** The addresses of IPv6 are read at the offsets that they have in IPv4: the source is
    the end of the source and the begin of the destination, and the destination runs
    into what follows the header. *)
Theorem ipv6_addresses_misread (mac start s d rest : list Z) (t : timeval) (no_address : IpAddr) :
  length mac = 12%nat -> length start = 8%nat -> length s = 16%nat -> length d = 16%nat -> (4 <= length rest)%nat ->
  let p := captured t (mac ++ be 2 ETHERTYPE_IPV6 ++ start ++ s ++ d ++ rest) in
  (exists port, src no_address p = Some (AddrV6 (drop 4 s ++ take 4 d), port))
  /\ (exists port, dst no_address p = Some (AddrV6 (drop 8 s ++ take 8 d), port)).
Proof.
  intros Hm Hb Hs Hd Hr p.
  assert (packet p = mac ++ be 2 ETHERTYPE_IPV6 ++ start ++ s ++ d ++ rest) as Hp by done. clearbody p.
  assert (ether_type p = Some ETHERTYPE_IPV6) as Ht.
  { unfold ether_type. rewrite (read_app mac (be 2 ETHERTYPE_IPV6) (start ++ s ++ d ++ rest) 12 2 p); [|done|rewrite Hm; done|done].
    by apply fmap_network. }
  assert (protocol_family p = Some AF_INET6) as Hf by (unfold protocol_family; by rewrite Ht).
  assert (Z.of_nat (length (packet p)) = 54 + Z.of_nat (length rest)) as Hl
    by (rewrite Hp, !length_app, length_be, Hm, Hb, Hs, Hd; lia).
  assert (forall off, 0 <= off <= 2 -> exists n, port_at off p = Some n) as Hport.
  { intros off Ho. unfold port_at. destruct (read_total (ether_size + 9) 1 p) as [bs Hbs]; [unfold ether_size; lia|].
    unfold ip_p. rewrite Hbs. cbn [fmap option_fmap option_map mbind option_bind]. destruct (_ || _); [|by eexists].
    destruct (read_total (ether_size + ip_size + off) 2 p) as [bs' ->]; [unfold ether_size, ip_size; lia | by eexists]. }
  assert (forall k off, (k <= 8)%nat -> off = 8 + Z.of_nat k -> read (ether_size + off) 16 p = Some (drop k s ++ take k d)) as Haddr.
  { intros k off Hk ->. apply (read_app (mac ++ be 2 ETHERTYPE_IPV6 ++ start ++ take k s) _ (drop k d ++ rest)).
    - rewrite Hp. rewrite <- (take_drop k s) at 1. rewrite <- (take_drop k d) at 1. by rewrite <- !app_assoc.
    - rewrite !length_app, length_be, Hm, Hb, length_take. unfold ether_size. lia.
    - rewrite length_app, length_drop, length_take. lia. }
  unfold src, dst, endpoint_at. rewrite Hf. change (AF_INET6 =? AF_INET) with false. change (AF_INET6 =? AF_INET6) with true.
  cbn [mbind option_bind]. rewrite (Haddr 4%nat 12), (Haddr 8%nat 16) by lia. cbn [mbind option_bind].
  destruct (Hport 0) as [n1 E1], (Hport 2) as [n2 E2]; [lia..|]. unfold src_port, dst_port. rewrite E1, E2. cbn. by split; eexists.
Qed.

Lemma ipv6_addresses_misread_witness :
  let s := replicate 4 1 ++ replicate 12 2 in let d := replicate 4 3 ++ replicate 12 4 in
  let p := captured (mkTimeval 0 0) (replicate 12 0 ++ be 2 ETHERTYPE_IPV6 ++ replicate 8 0 ++ s ++ d ++ replicate 8 0) in
  (exists port, src (AddrV4 0) p = Some (AddrV6 (replicate 12 2 ++ replicate 4 3), port))
  /\ (exists port, dst (AddrV4 0) p = Some (AddrV6 (replicate 8 2 ++ replicate 4 3 ++ replicate 4 4), port)).
Proof.
  apply (ipv6_addresses_misread (replicate 12 0) (replicate 8 0) (replicate 4 1 ++ replicate 12 2)
    (replicate 4 3 ++ replicate 12 4) (replicate 8 0) (mkTimeval 0 0) (AddrV4 0)); [done..|cbn; lia].
Defined.

(** ** Filters *)

(** What a list of filters asks for: nothing, or that one of them agrees with the endpoint. *)
Definition chosen (fs : list (EndpointFilter IpAddr)) (a : IpAddr) (n : Z) : Prop :=
  fs = [] \/ exists e, e ∈ fs /\ (f_port _ e = None \/ f_port _ e = Some n) /\ (f_address _ e = None \/ f_address _ e = Some a).

Lemma filter_match_iff (e : EndpointFilter IpAddr) a n : filter_match _ e (a, n) = true <->
  (f_port _ e = None \/ f_port _ e = Some n) /\ (f_address _ e = None \/ f_address _ e = Some a).
Proof.
  unfold filter_match. destruct (f_port _ e) as [m|], (f_address _ e) as [b|]; cbn [fst snd];
    rewrite ?andb_true_iff, ?andb_true_r, ?Z.eqb_eq, ?bool_decide_eq_true; naive_solver.
Qed.

Lemma chosen_match (fs : list (EndpointFilter IpAddr)) a n :
  negb (match fs with [] => true | _ => false end) && negb (match_any _ fs (a, n)) = false <-> chosen fs a n.
Proof.
  rewrite andb_false_iff, !negb_false_iff. unfold chosen. assert (match_any _ fs (a, n) = true <->
    exists e, e ∈ fs /\ (f_port _ e = None \/ f_port _ e = Some n) /\ (f_address _ e = None \/ f_address _ e = Some a)) as ->.
  { unfold match_any. rewrite existsb_exists. split; intros (e & He & Hm); exists e;
      by rewrite <- filter_match_iff, ?list_elem_of_In, <- ?list_elem_of_In in *. }
  destruct fs; naive_solver.
Qed.

(** A filter chooses frames by what they are: of the header of a captured TCP or UDP
    frame it says yes if and only if the protocol is wanted, and source and destination
    agree with one of the endpoints that are asked for, if any are. *)
Theorem filter_chooses_frames (flt : EndpointsFilter IpAddr) (f : frame) (t : timeval) (no_address : IpAddr) :
  wf_frame f -> ip_options f = [] ->
  let p := captured t (encode f) in
  exists pr s d, protocol p = Some pr /\ src no_address p = Some s /\ dst no_address p = Some d
    /\ (filters_match _ flt (protocol_ pr) s d = true <->
        match transport_of f with Tcp => tcp _ flt | Udp => udp _ flt end = true
        /\ chosen (sources _ flt) (AddrV4 (src_addr f)) (sport f)
        /\ chosen (destinations _ flt) (AddrV4 (dst_addr f)) (dport f)).
Proof.
  intros wf Ho p. destruct (header_frame f t no_address wf Ho) as (Hp & Hs & Hd).
  eexists _, _, _. split; [exact Hp|]. split; [exact Hs|]. split; [exact Hd|].
  rewrite <- !chosen_match. unfold filters_match. cbn [protocol_].
  destruct (negb _ && negb (match_any _ (sources _ flt) _)), (negb _ && negb (match_any _ (destinations _ flt) _)),
    (transport_of f), (tcp _ flt), (udp _ flt); naive_solver.
Qed.

Lemma filter_chooses_frames_witness :
  let flt := mkFilters IpAddr false true [mkFilter IpAddr None (Some 80)] [] in
  let p := captured (mkTimeval 0 0) (encode tcp_frame) in
  exists pr s d, protocol p = Some pr /\ src (AddrV4 0) p = Some s /\ dst (AddrV4 0) p = Some d
    /\ (filters_match _ flt (protocol_ pr) s d = true <->
        false = true /\ chosen [mkFilter IpAddr None (Some 80)] (AddrV4 167772161) 80 /\ chosen [] (AddrV4 4009754631) 1025).
Proof.
  exact (filter_chooses_frames (mkFilters IpAddr false true [mkFilter IpAddr None (Some 80)] []) tcp_frame
    (mkTimeval 0 0) (AddrV4 0) tcp_frame_wf eq_refl).
Defined.

(** ** The device *)

(** What a device gives to its observers: every packet of IPv4, in order, to every slot
    that is connected and has a function, in the order of their connection. *)
Definition is_ip (p : PcapPacket) : bool := bool_decide (ether_type p = Some ETHERTYPE_IP).
Definition deliveries (slots : list BasicSlot) (ps : list PcapPacket) : list (BasicSlot * PcapPacket) :=
  flat_map (fun p => if is_ip p then map (fun s => (s, p)) (flat_map safe_call slots) else []) ps.

Lemma set_packets_same d : set_packets (packets_ d) d = d.
Proof. by destruct d. Qed.

Lemma handle_all_spec callback d ps :
  Forall (fun p => (14 <= length (packet p))%nat /\ harmless (callback p) (packets_ d)) ps ->
  handle_all callback d ps = Some (d, deliveries (packets_ d) ps).
Proof.
  induction 1 as [|p ps [Hl Hh] Hps IH]; [done|]. cbn [handle_all]. unfold pcap_packet_handler.
  destruct (read_total 12 2 p) as [bs Hbs]; [lia|].
  assert (ether_type p = Some (network bs)) as Ht by (unfold ether_type; by rewrite Hbs).
  rewrite Ht. cbn [mbind option_bind]. unfold deliveries. cbn [flat_map]. unfold is_ip at 1. rewrite Ht.
  destruct (Z.eqb_spec (network bs) ETHERTYPE_IP) as [E | E].
  - rewrite bool_decide_true by congruence. unfold invoke. rewrite invoke_loop_spec by done.
    cbn [mbind option_bind]. rewrite set_packets_same, IH. done.
  - rewrite bool_decide_false by congruence. cbn [mbind option_bind]. rewrite IH. done.
Qed.

(** A device runs to its end and delivers what was captured: when its source opens, of
    the packets that libpcap hands out for the count that was set, those of IPv4 reach
    every connected observer once, in order, and no others; then the device is closed,
    unless libpcap reported an error, which is thrown with the device still open.  No
    packet is delivered whose size would be asked for in vain (IPv6). *)
Theorem device_delivers pcap_fopen_offline pcap_loop pcap_geterr
    (callback : PcapPacket -> BasicSlot -> list signal_op) (d : PcapDevice) :
  pcap_fopen_offline (source_of d) = None ->
  let '(ps, rc) := pcap_loop (max_packet_count_ d) in
  Forall (fun p => (14 <= length (packet p))%nat /\ harmless (callback p) (packets_ d)) ps ->
  let failed := (rc <? 0) && negb (rc =? -2) in
  let what := if rc =? -1 then pcap_geterr else lit "invalid pcap return code" in
  run pcap_fopen_offline pcap_loop pcap_geterr callback d
  = Some (set_handle failed d, deliveries (packets_ d) ps, if failed then Some what else None)
  /\ Forall (fun c => protocol_family c.2 = Some AF_INET) (deliveries (packets_ d) ps).
Proof.
  intros Ho. destruct (pcap_loop (max_packet_count_ d)) as [ps rc] eqn:El. intros Hps failed what. split.
  - unfold run, open, loop. rewrite Ho. cbn [handle_ set_handle]. change (max_packet_count_ (set_handle true d)) with (max_packet_count_ d).
    rewrite El, handle_all_spec by done. cbn [mbind option_bind]. unfold failed, what.
    destruct (Z.leb_spec 0 rc), (Z.ltb_spec rc 0), (Z.eqb_spec rc (-1)), (Z.eqb_spec rc (-2)); try lia; done.
  - rewrite Forall_forall. intros [s q] (p & _ & Hc)%list_elem_of_In%in_flat_map. unfold is_ip in Hc. case_bool_decide as Ht; [|done].
    apply in_map_iff in Hc as (s' & [= <- <-] & _). cbn [snd]. unfold protocol_family. by rewrite Ht.
Qed.

(** A device whose observer is the slot of file Signal, and a capture of a frame of IPv4,
    of one that is not, and of another one of IPv4. *)
Lemma device_delivers_witness :
  let d := mkDevice false 2 (lit "a.pcap") (lit "tar -xOzf ") [slot_b] in
  let p1 := captured (mkTimeval 0 0) (encode udp_frame) in
  let p2 := captured (mkTimeval 0 1) (replicate 20 0) in
  let p3 := captured (mkTimeval 0 2) (encode tcp_frame) in
  run (fun _ => None) (fun _ => ([p1; p2; p3], 0)) [] (fun _ _ => []) d = Some (d, [(slot_b, p1); (slot_b, p3)], None)
  /\ Forall (fun c => protocol_family c.2 = Some AF_INET) [(slot_b, p1); (slot_b, p3)].
Proof.
  apply (device_delivers (fun _ => None)
    (fun _ => ([captured (mkTimeval 0 0) (encode udp_frame); captured (mkTimeval 0 1) (replicate 20 0);
                captured (mkTimeval 0 2) (encode tcp_frame)], 0)) [] (fun _ _ => [])
    (mkDevice false 2 (lit "a.pcap") (lit "tar -xOzf ") [slot_b])); [reflexivity|].
  repeat constructor; try (cbn; lia); by intros s o _ ?%elem_of_nil.
Defined.
