(* ===== verification/Pool.v ===== *)
(** * Pools and reference counts

    Models [toolbox/util/Pool.hpp], whose objects are carved out of slabs and kept on a free
    list, and [toolbox/util/RefCount.hpp], whose objects are shared by threads.  A
    pointer is a slab and a number of bytes from its start. *)
From S2P Require Import Prelude.
#[local] Open Scope Z_scope.

(** ** Pools *)

Definition Overhead : Z := 16.
Definition PageSize : Z := 4096.

Definition pointer : Type := nat * Z.

(** The vector of slabs, whose nodes are in the heap, and the free list. *)
Record Pool := mkPool { slabs_ : nat; free_ : list pointer }.

Definition align_up (n a : Z) : Z := (n + a - 1) / a * a.

Section pool.

(** Size and alignment of the type. *)
Context (sizeof alignof : Z).

Definition SlabSize : Z := (PageSize - Overhead) / sizeof.

(** A node is a pointer of eight bytes and a value. *)
Definition value_offset : Z := align_up 8 alignof.
Definition node_size : Z := align_up (value_offset + sizeof) (Z.max 8 alignof).

(** The nodes of a new slab after the first, in the order in which they are pushed. *)
Definition push_nodes (slab : nat) (free : list pointer) : list pointer :=
  foldl (fun free i => (slab, Z.of_nat i * node_size) :: free) free (seq 1 (Z.to_nat (SlabSize - 1))).

(** [alloc]: the address of the value.  A slab without nodes has no first one. *)
Definition alloc (p : Pool) : option (pointer * Pool) :=
  match free_ p with
  | (s, o) :: free => Some ((s, o + value_offset), mkPool (slabs_ p) free)
  | [] =>
      if 1 <=? SlabSize
      then Some ((slabs_ p, value_offset), mkPool (S (slabs_ p)) (push_nodes (slabs_ p) []))
      else None
  end.

(** [dealloc] takes the node to be eight bytes before the value. *)
Definition dealloc (e : pointer) (p : Pool) : Pool := mkPool (slabs_ p) ((e.1, e.2 - 8) :: free_ p).

Definition new_pool : Pool := mkPool 0 [].

(** A client that frees what it holds. *)
Inductive event := Alloc | Dealloc (i : nat).

Definition client_step (e : event) (x : list pointer * Pool) : option (list pointer * Pool) :=
  let '(held, p) := x in
  match e with
  | Alloc => '(a, p) ← alloc p; Some (held ++ [a], p)
  | Dealloc i => match held !! i with Some a => Some (delete i held, dealloc a p) | None => Some x end
  end.
Fixpoint client_run (es : list event) (x : list pointer * Pool) : option (list pointer * Pool) :=
  match es with [] => Some x | e :: es => x ← client_step e x; client_run es x end.

(** ** What a pool owns *)

(** The node number [i] of slab [s]. *)
Definition node (s i : nat) : pointer := (s, Z.of_nat i * node_size).
Definition all_nodes (slabs : nat) : list pointer :=
  flat_map (fun s => map (node s) (seq 0 (Z.to_nat SlabSize))) (seq 0 slabs).

(** Every node of every slab is on the free list or holds an object. *)
Definition pool_ok (x : list pointer * Pool) : Prop :=
  let '(held, p) := x in map (fun a => (a.1, a.2 - 8)) held ++ free_ p ≡ₚ all_nodes (slabs_ p).

Lemma push_nodes_spec s : push_nodes s [] ≡ₚ map (node s) (seq 1 (Z.to_nat (SlabSize - 1))).
Proof.
  unfold push_nodes. set (n := Z.to_nat _). clearbody n.
  assert (forall l free, foldl (fun free i => (s, Z.of_nat i * node_size) :: free) free l ≡ₚ map (node s) l ++ free) as H.
  { induction l as [|i l IH]; intros free; [done|]. cbn [foldl map app]. rewrite IH. symmetry. apply Permutation_middle. }
  rewrite H. by rewrite app_nil_r.
Qed.

Lemma all_nodes_snoc slabs : 1 <= SlabSize ->
  all_nodes (S slabs) ≡ₚ (slabs, 0) :: map (node slabs) (seq 1 (Z.to_nat (SlabSize - 1))) ++ all_nodes slabs.
Proof.
  intros Hs. unfold all_nodes. rewrite seq_S, flat_map_app. cbn [flat_map Nat.add]. rewrite app_nil_r.
  set (F := flat_map _ (seq 0 slabs)).
  replace (seq 0 (Z.to_nat SlabSize)) with (0%nat :: seq 1 (Z.to_nat (SlabSize - 1)))
    by (replace (Z.to_nat SlabSize) with (S (Z.to_nat (SlabSize - 1))) by lia; done).
  apply (Permutation_app_comm F (node slabs 0 :: _)).
Qed.

Section small.
Hypothesis Hsize : 1 <= sizeof <= PageSize - Overhead.
Hypothesis Halign : alignof = 1 \/ alignof = 2 \/ alignof = 4 \/ alignof = 8.

Lemma value_offset_small : value_offset = 8.
Proof. unfold value_offset, align_up. by destruct Halign as [-> | [-> | [-> | ->]]]. Qed.

Lemma slab_size_pos : 1 <= SlabSize.
Proof. unfold SlabSize, PageSize, Overhead in *. apply Z.div_le_lower_bound; lia. Qed.

Lemma node_size_bound : sizeof + 8 <= node_size.
Proof.
  unfold node_size. rewrite value_offset_small. unfold align_up.
  replace (Z.max 8 alignof) with 8 by (destruct Halign as [-> | [-> | [-> | ->]]]; done).
  pose proof (Z.div_mod (8 + sizeof + 8 - 1) 8 ltac:(lia)). pose proof (Z.mod_pos_bound (8 + sizeof + 8 - 1) 8 ltac:(lia)). lia.
Qed.

Lemma client_step_ok e x : pool_ok x -> exists x', client_step e x = Some x' /\ pool_ok x'.
Proof.
  destruct x as [held p]. intros Hx. destruct e as [|i]; cbn [client_step].
  - unfold alloc. destruct (free_ p) as [|[s o] free] eqn:Ef.
    + rewrite (proj2 (Z.leb_le _ _) slab_size_pos). cbn [mbind option_bind]. eexists. split; [reflexivity|].
      unfold pool_ok in *. cbn [slabs_ free_]. rewrite Ef, app_nil_r in Hx. rewrite push_nodes_spec, map_app, Hx, all_nodes_snoc by apply slab_size_pos.
      cbn [map fst snd]. rewrite value_offset_small. cbn. solve_Permutation.
    + cbn [mbind option_bind]. eexists. split; [reflexivity|]. unfold pool_ok in *. rewrite Ef in Hx. cbn [slabs_ free_]. rewrite <- Hx, map_app.
      cbn [map fst snd]. rewrite value_offset_small. replace (o + 8 - 8) with o by lia. solve_Permutation.
  - destruct (held !! i) as [a|] eqn:Ei; [|by eexists]. eexists. split; [reflexivity|]. unfold pool_ok in *. cbn [slabs_ free_ dealloc].
    rewrite <- Hx. rewrite <- (take_drop_middle held i a Ei) at 2. rewrite delete_take_drop, !map_app. cbn [map]. solve_Permutation.
Qed.

Lemma client_run_ok es x : pool_ok x -> exists x', client_run es x = Some x' /\ pool_ok x'.
Proof.
  revert x. induction es as [|e es IH]; intros x Hx; [by exists x|]. destruct (client_step_ok e x Hx) as (x1 & Hs & H1).
  destruct (IH x1 H1) as (x2 & H2 & H3). exists x2. split; [|done]. cbn [client_run]. by rewrite Hs.
Qed.

Lemma all_nodes_nodup slabs : NoDup (all_nodes slabs).
Proof.
  pose proof node_size_bound. unfold all_nodes. apply NoDup_ListNoDup.
  induction slabs as [|n IH]; [constructor|]. rewrite seq_S, flat_map_app. cbn [flat_map Nat.add]. rewrite app_nil_r.
  rewrite <- NoDup_ListNoDup in *. apply NoDup_app. split; [done|]. split.
  - intros [s o] Hin Hin'. apply list_elem_of_In, in_flat_map in Hin as (s' & Hs' & Hin). apply in_seq in Hs'.
    apply in_map_iff in Hin as (i & [= <- _] & _). apply list_elem_of_In, in_map_iff in Hin' as (j & [= -> _] & _). lia.
  - apply NoDup_fmap_2; [|apply NoDup_seq]. intros i j [= E]. nia.
Qed.

Lemma all_nodes_in slabs s o : (s, o) ∈ all_nodes slabs -> (s < slabs)%nat /\ exists i, 0 <= i < SlabSize /\ o = i * node_size.
Proof.
  intros Hin. apply list_elem_of_In, in_flat_map in Hin as (s' & Hs' & Hin). apply in_seq in Hs'.
  apply in_map_iff in Hin as (i & [= <- <-] & Hi). apply in_seq in Hi. split; [lia|]. exists (Z.of_nat i). split; [lia | done].
Qed.

(** A pool hands out memory that is its own: for a type of up to 4080 bytes that is
    aligned to at most eight, and any sequence of allocations and deallocations, every
    object that is held lies within the nodes of a slab of the pool, aligned to
    eight, and no two of them overlap; no allocation fails. *)
Theorem pool_objects_disjoint (es : list event) :
  exists held p, client_run es ([], new_pool) = Some (held, p)
    /\ (forall a, a ∈ held -> (a.1 < slabs_ p)%nat /\ 0 <= a.2 /\ a.2 + sizeof <= SlabSize * node_size /\ a.2 mod 8 = 0)
    /\ (forall i j a b, held !! i = Some a -> held !! j = Some b -> i <> j ->
         a.1 <> b.1 \/ a.2 + sizeof <= b.2 \/ b.2 + sizeof <= a.2).
Proof.
  destruct (client_run_ok es ([], new_pool) (Permutation_refl [])) as ([held p] & Hrun & Hok). exists held, p. split; [exact Hrun|].
  pose proof node_size_bound as Hns. unfold pool_ok in Hok.
  assert (NoDup (map (fun a : pointer => (a.1, a.2 - 8)) held)) as Hnd.
  { pose proof (all_nodes_nodup (slabs_ p)) as Hall. rewrite <- Hok in Hall. by apply NoDup_app in Hall as (? & _). }
  assert (forall a, a ∈ held -> (a.1 < slabs_ p)%nat /\ exists i, 0 <= i < SlabSize /\ a.2 - 8 = i * node_size) as Hin.
  { intros a Ha. apply all_nodes_in. rewrite <- Hok, elem_of_app. left. apply list_elem_of_fmap. by exists a. }
  split.
  - intros a Ha. destruct (Hin a Ha) as (Hs & i & Hi & Ho). split; [done|]. split; [nia|]. split; [nia|].
    replace a.2 with (8 + i * node_size) by lia. unfold node_size, align_up.
    replace (Z.max 8 alignof) with 8 by (destruct Halign as [-> | [-> | [-> | ->]]]; done).
    rewrite Z.mul_assoc. by rewrite Z.mod_add.
  - intros i j a b Ha Hb Hij. destruct (decide (a.1 = b.1)) as [Es | ?]; [right | by left].
    destruct (Hin a) as (_ & k & _ & Ea); [by eapply list_elem_of_lookup_2|]. destruct (Hin b) as (_ & l & _ & Eb); [by eapply list_elem_of_lookup_2|].
    assert (k <> l) as Hkl; [|nia]. intros <-. apply Hij. apply (NoDup_lookup _ i j (a.1, a.2 - 8) Hnd).
    + rewrite list_lookup_fmap. unfold pointer in *. by rewrite Ha.
    + rewrite list_lookup_fmap. unfold pointer in *. rewrite Hb. cbn. by rewrite Es, Ea, Eb.
Qed.

End small.
End pool.

Lemma pool_objects_disjoint_witness :
  exists held p, client_run 24 8 [Alloc; Alloc; Dealloc 0; Alloc; Alloc] ([], new_pool) = Some (held, p)
    /\ (forall a, a ∈ held -> (a.1 < slabs_ p)%nat /\ 0 <= a.2 /\ a.2 + 24 <= SlabSize 24 * node_size 24 8 /\ a.2 mod 8 = 0)
    /\ (forall i j a b, held !! i = Some a -> held !! j = Some b -> i <> j ->
         a.1 <> b.1 \/ a.2 + 24 <= b.2 \/ b.2 + 24 <= a.2).
Proof. apply (pool_objects_disjoint 24 8); [unfold PageSize, Overhead; lia | tauto]. Defined.

(** For a larger type a slab has no nodes, and the first object is behind its end. *)
Lemma large_type_overflows sizeof alignof : PageSize - Overhead < sizeof -> alloc sizeof alignof new_pool = None.
Proof. intros Hs. unfold alloc, SlabSize, PageSize, Overhead in *. cbn [free_ new_pool]. by rewrite Z.div_small by lia. Qed.

(** For a type aligned to more than eight bytes, an object that is allocated again is
    neither where it was nor aligned. *)
Example overaligned_type :
  (x ← client_run 16 16 [Alloc; Dealloc 0; Alloc] ([], new_pool); Some x.1) = Some [(0%nat, 24)]
  /\ (x ← client_run 16 16 [Alloc] ([], new_pool); Some x.1) = Some [(0%nat, 16)].
Proof. vm_compute. done. Qed.

(** ** Reference counts *)

Module RefCount.

(** The count, an [int]; a handle of a thread for every occurrence in the list; the threads
    that took the last handle away and have to delete the object, and how often it was deleted. *)
Record object := mkObject { refs_ : Z; owners : list nat; deleting : list nat; deleted : nat }.

(** A thread copies a handle that it has, hands one to another thread, destroys one, or
    goes on to delete the object. *)
Inductive label := AddRef (t : nat) | Give (t u : nat) | Release (t : nat) | Delete (t : nat).

Fixpoint remove_one (t : nat) (l : list nat) : list nat :=
  match l with [] => [] | x :: l => if decide (x = t) then l else x :: remove_one t l end.

Definition step (a : label) (x : object) : object :=
  match a with
  | AddRef t =>
      if decide (t ∈ owners x) then mkObject (i32 (refs_ x + 1)) (t :: owners x) (deleting x) (deleted x) else x
  | Give t u =>
      if decide (t ∈ owners x) then mkObject (refs_ x) (u :: remove_one t (owners x)) (deleting x) (deleted x) else x
  | Release t =>
      if decide (t ∈ owners x) then
        mkObject (i32 (refs_ x - 1)) (remove_one t (owners x))
          (if refs_ x =? 1 then t :: deleting x else deleting x) (deleted x)
      else x
  | Delete t =>
      if decide (t ∈ deleting x) then mkObject (refs_ x) (owners x) (remove_one t (deleting x)) (S (deleted x)) else x
  end.
Definition steps (l : list label) (x : object) : object := foldl (fun x a => step a x) x l.

(** A new object has one handle. *)
Definition new_object (t : nat) : object := mkObject 1 [t] [] 0.

Definition counted (n : nat) (x : object) : Prop :=
  refs_ x = Z.of_nat (length (owners x)) /\ (length (owners x) <= n)%nat
  /\ (length (deleting x) + deleted x = if decide (owners x = []) then 1 else 0)%nat.

Lemma remove_one_length t l : t ∈ l -> (S (length (remove_one t l)) = length l)%nat.
Proof.
  induction l as [|x l IH]; [by intros ?%elem_of_nil|]. intros Hin. cbn [remove_one]. case_decide as Hx; [done|].
  cbn. rewrite IH; [done|]. apply elem_of_cons in Hin as [-> | ?]; done.
Qed.

Lemma step_counted n a x : Z.of_nat n < 2 ^ 31 - 1 -> counted n x -> counted (S n) (step a x).
Proof.
  intros Hn (Hr & Hl & Hd). destruct a as [t | t u | t | t]; cbn [step];
    (match goal with |- context [decide (t ∈ ?l)] => destruct (decide (t ∈ l)) as [Ht | _] end); try (split; [done | split; [lia | done]]).
  - assert (owners x <> []) as Ho by (intros E; rewrite E in Ht; by apply elem_of_nil in Ht). rewrite decide_False in Hd by done.
    split; cbn [refs_ owners deleting deleted]; [rewrite wraps_small by lia; cbn [length]; lia|]. split; [cbn; lia | done].
  - pose proof (remove_one_length t _ Ht) as Hlen.
    assert (owners x <> []) as Ho by (intros E; rewrite E in Ht; by apply elem_of_nil in Ht). rewrite decide_False in Hd by done.
    split; cbn [refs_ owners deleting deleted length]; [lia|]. split; [lia | done].
  - pose proof (remove_one_length t _ Ht) as Hlen.
    assert (owners x <> []) as Ho by (intros E; rewrite E in Ht; by apply elem_of_nil in Ht). rewrite decide_False in Hd by done.
    split; cbn [refs_ owners deleting deleted]; [rewrite wraps_small by lia; lia|]. split; [lia|].
    destruct (Z.eqb_spec (refs_ x) 1) as [H1 | H1]; cbn [length].
    + rewrite decide_True by (apply nil_length_inv; lia). lia.
    + rewrite decide_False by (intros E; rewrite E in Hlen; cbn in Hlen; lia). lia.
  - pose proof (remove_one_length t _ Ht) as Hlen. split; cbn [refs_ owners deleting deleted]; [done|]. split; [lia|]. rewrite <- Hd. lia.
Qed.

Lemma steps_counted l : forall n x, Z.of_nat (n + length l) < 2 ^ 31 -> counted n x -> counted (n + length l) (steps l x).
Proof.
  induction l as [|a l IH]; intros n x Hn Hx; [by rewrite Nat.add_0_r|]. cbn [length] in *. cbn [steps foldl].
  rewrite <- Nat.add_succ_comm. apply IH; [lia|]. apply step_counted; [lia | done].
Qed.

(** C27: An object that is counted is deleted once, when nobody has a handle: in every
    interleaving of threads that copy, hand over and destroy handles (fewer than
    2^31 steps), it is deleted at most once, is neither deleted nor about to be while
    somebody has a handle, and is not forgotten once nobody has. *)
Theorem object_deleted_once (t : nat) (l : list label) :
  Z.of_nat (length l) < 2 ^ 31 - 1 ->
  let x := steps l (new_object t) in
  (deleted x <= 1)%nat
  /\ (owners x <> [] -> deleted x = 0%nat /\ deleting x = [])
  /\ (owners x = [] -> deleted x = 1%nat \/ exists u, deleting x = [u]).
Proof.
  intros Hl x. destruct (steps_counted l 1 (new_object t)) as (_ & _ & Hd); [lia | split; [done | split; [done | done]]|].
  fold x in Hd. case_decide as Ho.
  - split; [lia|]. split; [done|]. intros _. destruct (deleting x) as [|u [|]] eqn:E; cbn in Hd; [left; lia | right; by exists u | lia].
  - split; [lia|]. split; [|done]. intros _. split; [lia|]. apply nil_length_inv. lia.
Qed.

Lemma object_deleted_once_witness :
  let x := steps [AddRef 0; Give 0 1; Release 0; AddRef 1; Release 1; Release 1] (new_object 0) in
  (deleted x <= 1)%nat
  /\ (owners x <> [] -> deleted x = 0%nat /\ deleting x = [])
  /\ (owners x = [] -> deleted x = 1%nat \/ exists u, deleting x = [u]).
Proof. apply (object_deleted_once 0 [AddRef 0; Give 0 1; Release 0; AddRef 1; Release 1; Release 1]). reflexivity. Defined.

End RefCount.
