(* ===== verification/Connector.v ===== *)
(** * Connecting and accepting

    Models [toolbox/net/StreamConnector.hpp] and [StreamAcceptor.hpp]: connections that
    are established at once or later, when the reactor reports the socket ready, with
    the subscriptions of file Epoll.  The client's callbacks may start further
    connections and throw; a session is a tree of what they do.  Descriptors are handed
    out by the kernel, a class. *)
From S2P Require Import Prelude Epoll.
#[local] Open Scope Z_scope.

(** The kernel gives a descriptor that is not open, unless there is none. *)
Class Kernel := { new_fd : gset Z -> option Z }.
Class KernelLaws (K : Kernel) : Prop := {
  new_fd_fresh X n : new_fd X = Some n -> (n ∉ X) /\ 0 <= n < 2 ^ 31
}.

Definition EINPROGRESS : Z := 115.
Definition EBADF : Z := 9.

(** ** The connector *)

Record StreamConnector := mkConnector { ep_ : nat; sock_ : option Z; sub_ : PollHandle }.

(** What a client sees: [connect] returned false; [on_sock_connect] was called, at once
    or later; [on_sock_connect_error] was called for an error of the socket, or for an
    exception out of [on_sock_connect]; [on_sock_accept] was called. *)
Inductive call :=
| Started (n : Z) (ep : nat)
| OnConnect (n : Z) (ep : nat) (later : bool)
| OnError (error : option Z)
| OnAccept (n : Z).

(** A connector with its poller, the descriptors that are open, and those that the client
    has taken over. *)
Record net := mkNet {
  conn : StreamConnector; reactor : Epoll; fds : gset Z; handed : list Z; log : list call
}.

(** What a client does: a call of [connect], with what happens in it (whether preparing
    the socket succeeds, the error code of the system call, and, when it is connected
    at once, what the callback does: whether it takes the socket over, what it does then,
    and whether it throws), and whether an exception is caught; or closing a socket
    that was taken over. *)
Inductive action :=
| Connect (ep : nat) (prepared : bool) (ec : Z) (takes : bool) (body : list action) (throws caught : bool)
| CloseTaken (n : Z).

Record behaviour := mkBehaviour { b_takes : bool; b_body : list action; b_throws : bool }.

Inductive result := Threw | Returned (connected : bool).
Definition threw (r : result) : bool := match r with Threw => true | Returned _ => false end.
Definition caught (a : action) : bool := match a with Connect _ _ _ _ _ _ c => c | CloseTaken _ => true end.

Section connector.
Context `{K : Kernel}.

(** The slot that is bound to the connector. *)
Variable conn_slot : Z.

Definition set_conn (c : StreamConnector) (w : net) : net := mkNet c (reactor w) (fds w) (handed w) (log w).
Definition logs (c : call) (w : net) : net := mkNet (conn w) (reactor w) (fds w) (handed w) (log w ++ [c]).
Definition open_fd (n : Z) (w : net) : net := mkNet (conn w) (reactor w) ({[n]} ∪ fds w) (handed w) (log w).
Definition close_fd (n : Z) (w : net) : net := mkNet (conn w) (reactor w) (fds w ∖ {[n]}) (handed w) (log w).
Definition take_over (n : Z) (w : net) : net := mkNet (conn w) (reactor w) (fds w) (n :: handed w) (log w).
Definition close_opt (o : option Z) (w : net) : net := match o with Some n => close_fd n w | None => w end.

Definition wanted : Z := ev_add EvRead EvWrite.

(** The connection is pending: the handle is replaced and subscribed, then the socket
    is replaced, which closes the one before. *)
Definition start (n : Z) (ep : nat) (w : net) : net :=
  let '(h, e) := reset (sub_ (conn w)) (reactor w) in
  let '(h, e) := add_slot wanted (Some conn_slot) (mkHandle (mkPollFD n 0 0 None) (flags_ h)) e in
  let old := sock_ (conn w) in
  logs (Started n ep) (close_opt old (mkNet (mkConnector ep (Some n) h) e (fds w) (handed w) (log w))).

(** The body of a callback: it ends at the first exception that is not caught. *)
Definition run_body (act : action -> net -> result * net) (throws : bool) : list action -> net -> bool * net :=
  fix run body w :=
    match body with
    | [] => (throws, w)
    | a :: body => let '(r, w) := act a w in if threw r && negb (caught a) then (true, w) else run body w
    end.

(** A callback that is given a socket; one that is not taken over is closed in the end. *)
Definition give (n : Z) (takes : bool) (w : net) : net := if takes then take_over n w else w.
Definition finish (n : Z) (takes : bool) (w : net) : net := if takes then w else close_fd n w.

Fixpoint act (a : action) (w : net) : result * net :=
  match a with
  | CloseTaken n =>
      (Returned true,
       if decide (n ∈ handed w)
       then close_fd n (mkNet (conn w) (reactor w) (fds w) (filter (.≠ n) (handed w)) (log w)) else w)
  | Connect ep prepared ec takes body throws _ =>
      match new_fd (fds w) with
      | None => (Threw, w)
      | Some n =>
          let w := open_fd n w in
          if negb prepared then (Threw, close_fd n w)
          else if ec =? 0 then
            let '(t, w) := run_body act throws body (give n takes (logs (OnConnect n ep false) w)) in
            ((if t then Threw else Returned true), finish n takes w)
          else if ec =? EINPROGRESS then (Returned false, start n ep w)
          else (Threw, close_fd n w)
      end
  end.

Definition run_behaviour (b : behaviour) (w : net) : bool * net := run_body act (b_throws b) (b_body b) w.

(** [on_io_event], with the error of the socket and the client's two callbacks. *)
Definition on_io_event (err : Z) (on_connect on_error : behaviour) (w : net) : net :=
  let sock := sock_ (conn w) in
  let '(h, e) := reset (sub_ (conn w)) (reactor w) in
  let w := mkNet (mkConnector (ep_ (conn w)) None h) e (fds w) (handed w) (log w) in
  match sock with
  | None => (run_behaviour on_error (logs (OnError (Some EBADF)) w)).2
  | Some n =>
      if err =? 0 then
        let '(t, w) := run_behaviour on_connect (give n (b_takes on_connect) (logs (OnConnect n (ep_ (conn w)) true) w)) in
        let w := if t then (run_behaviour on_error (logs (OnError None) w)).2 else w in
        finish n (b_takes on_connect) w
      else close_fd n (run_behaviour on_error (logs (OnError (Some err)) w)).2
  end.

(** [StreamAcceptor::on_io_event]: whether preparing the accepted socket succeeds, and
    the client's callback. *)
Definition on_accept_event (prepared : bool) (on_accept : behaviour) (w : net) : result * net :=
  match new_fd (fds w) with
  | None => (Threw, w)
  | Some n =>
      let w := open_fd n w in
      if negb prepared then (Threw, close_fd n w)
      else
        let '(t, w) := run_behaviour on_accept (give n (b_takes on_accept) (logs (OnAccept n) w)) in
        ((if t then Threw else Returned true), finish n (b_takes on_accept) w)
  end.

(** What happens: the program does something; the poller reports an event, which is for
    the connector when its callback is due; an acceptor's own reactor calls it, and
    catches what it throws. *)
Inductive step :=
| Do (a : action)
| Ready (ev : event) (err : Z) (on_connect on_error : behaviour)
| Acceptable (prepared : bool) (on_accept : behaviour).

Definition run_step (s : step) (w : net) : net :=
  match s with
  | Do a => (act a w).2
  | Ready ev err on_connect on_error =>
      match due_callback (reactor w) ev with
      | Some inv => if inv_slot inv =? conn_slot then on_io_event err on_connect on_error w else w
      | None => w
      end
  | Acceptable prepared on_accept => (on_accept_event prepared on_accept w).2
  end.
Definition run_steps (l : list step) (w : net) : net := foldl (fun w s => run_step s w) w l.

(** A new connector, with the descriptors that are open elsewhere. *)
Definition new_net (tfd nfd hint : Z) (others : gset Z) : net :=
  mkNet (mkConnector 0 None (mkHandle default_pollfd 0)) (make_epoll tfd nfd hint) ({[tfd; nfd]} ∪ others) [] [].

(** ** What a client may rely on *)

(** The protocol of the calls: the pending connection, if any. *)
Definition protocol_step (p : option (Z * nat)) (c : call) : option (option (Z * nat)) :=
  match c with
  | Started n ep => Some (Some (n, ep))
  | OnConnect n ep false => Some p
  | OnConnect n ep true => if decide (p = Some (n, ep)) then Some None else None
  | OnError (Some _) => match p with Some _ => Some None | None => None end
  | OnError None | OnAccept _ => Some p
  end.
Definition accepts (l : list call) : option (option (Z * nat)) :=
  foldl (fun p c => p ← p; protocol_step p c) (Some None) l.

Definition pending (w : net) : option (Z * nat) := n ← sock_ (conn w); Some (n, ep_ (conn w)).

Lemma accepts_snoc l c : accepts (l ++ [c]) = (p ← accepts l; protocol_step p c).
Proof. unfold accepts. by rewrite foldl_app. Qed.

(** ** Who owns which descriptor *)

Section inv.
Context {KL : KernelLaws K}.
Variables (tfd nfd : Z) (base : gset Z).
Hypothesis Htfd : tfd ∈ base.
Hypothesis Hnfd : nfd ∈ base.

Definition owns (F : gset Z) (l : list Z) : Prop :=
  NoDup l /\ (forall n, n ∈ F <-> n ∈ base \/ n ∈ l) /\ (forall n, n ∈ l -> n ∉ base).

#[local] Instance owns_perm F : Proper ((≡ₚ) ==> iff) (owns F).
Proof. intros l l' E. unfold owns. rewrite E. split; intros (? & H1 & H2); split_and!; try done; intros n; specialize (H1 n); specialize (H2 n); rewrite E in *; done. Qed.

Lemma owns_open F l n : n ∉ F -> owns F l -> owns ({[n]} ∪ F) (n :: l).
Proof.
  intros Hn (Hl & HF & Hb). split_and!.
  - constructor; [|done]. intros Hin. apply Hn, HF. by right.
  - intros k. rewrite elem_of_union, elem_of_singleton, HF, elem_of_cons. tauto.
  - intros k [-> | Hk]%elem_of_cons; [|by apply Hb]. intros Hin. apply Hn, HF. by left.
Qed.

Lemma owns_close F l n : owns F (n :: l) -> owns (F ∖ {[n]}) l.
Proof.
  intros (Hl & HF & Hb). apply NoDup_cons in Hl as (Hn & Hl). split_and!; [done| |].
  - intros k. rewrite elem_of_difference, elem_of_singleton, HF, elem_of_cons. split; [tauto|].
    intros [Hk | Hk]; (split; [tauto|]); intros ->; [by apply (Hb n); [apply elem_of_cons; left|] | done].
  - intros k Hk. apply Hb, elem_of_cons. by right.
Qed.

(** The handle and the poller, by the descriptor of the pending connection. *)
Definition entry_of (n : Z) : PollFD := mkPollFD n 1 wanted (Some conn_slot).

Record subscribed (p : option Z) (h : PollHandle) (e : Epoll) : Prop := {
  s_poller : poller_ok e;
  s_fds : timer_fd e = tfd /\ notify_fd e = nfd;
  s_flags : flags_ h = 0;
  s_others : forall k ref, 0 <= k < 2 ^ 31 -> data_ e !! Z.to_nat k = Some ref -> is_empty ref = false -> p = Some k;
  s_handle : match p with
             | Some n => pfd h = entry_of n /\ valid_fd e n /\ data_ e !! Z.to_nat n = Some (entry_of n)
             | None => is_empty (pfd h) = true /\ events (pfd h) = 0
             end
}.

Lemma commit_at_once p e : commit false (mkHandle p 0) e
  = let '(_, h, e) := ctl (mkHandle p 0) e in (mkHandle (pfd h) (Z.land (flags_ h) (Z.lnot PendingCtl)), e).
Proof. done. Qed.

Lemma reset_subscribed p h e : subscribed p h e -> let '(h', e') := reset h e in subscribed None h' e'.
Proof.
  intros [He Hf Hfl Ho Hh]. destruct h as [q fl]. cbn in *. subst fl. unfold reset. destruct p as [n|].
  - destruct Hh as (-> & Hv & Hd). pose proof Hv as (Hr & _). cbn. unfold set_pfd. cbn [flags_]. rewrite commit_at_once.
    destruct (ctl _ e) as [[ok h1] e1] eqn:Ec.
    destruct (ctl_unsubscribe_ok (mkHandle (mkPollFD n 1 0 None) 0) e ok h1 e1 He Hv eq_refl Ec) as (He1 & -> & Hs).
    unfold ctl in Ec. cbn in Ec. rewrite wrapu_small, Hd in Ec by lia. cbn in Ec. injection Ec as <- <-.
    split; [done | done | done | | done]. cbn. intros k ref Hk Href Hemp. destruct (decide (k = n)) as [-> | Hne].
    + rewrite list_lookup_insert_eq in Href by (by eapply lookup_lt_Some). injection Href as <-. done.
    + rewrite list_lookup_insert_ne in Href by lia. specialize (Ho k ref Hk Href Hemp). congruence.
  - destruct Hh as [Hq Hq2]. cbn in *. rewrite Hq, Hq2. done.
Qed.

Lemma add_subscribed n h e : subscribed None h e -> 0 <= n < 2 ^ 31 -> n <> tfd -> n <> nfd ->
  let '(h', e') := add_slot wanted (Some conn_slot) (mkHandle (mkPollFD n 0 0 None) (flags_ h)) e in
  subscribed (Some n) h' e'.
Proof.
  intros [He Hf Hfl Ho _] Hr Ht Hn. rewrite Hfl. unfold add_slot, slot_eqb. cbn [pfd slot events].
  rewrite bool_decide_false by done. cbn [negb orb]. unfold set_pfd. cbn [flags_]. rewrite commit_at_once.
  destruct (ctl _ e) as [[ok h1] e1] eqn:Ec.
  assert (valid_fd e n) as Hv by (unfold valid_fd; destruct Hf as [-> ->]; done).
  destruct (ctl_subscribe_ok (mkHandle (mkPollFD n 0 wanted (Some conn_slot)) 0) e ok h1 e1 He Hv eq_refl Ec) as (He1 & (Hs1 & Hs2) & _ & _).
  assert (timer_fd e1 = tfd /\ notify_fd e1 = nfd) as Hf1 by (rewrite Hs1, Hs2; exact Hf).
  assert (valid_fd e1 n) as Hv1 by (unfold valid_fd; by destruct Hf1 as [-> ->]). clear Hs1 Hs2.
  unfold ctl in Ec. cbn in Ec. rewrite wrapu_small in Ec by lia.
  set (d := if (length (data_ e) <=? Z.to_nat n)%nat then _ else _) in Ec.
  assert ((Z.to_nat n < length d)%nat /\ forall k ref, 0 <= k < 2 ^ 31 -> d !! Z.to_nat k = Some ref -> is_empty ref = true) as [Hlen Hd].
  { unfold d. destruct (Nat.leb_spec (length (data_ e)) (Z.to_nat n)); split.
    - rewrite length_grow. lia.
    - intros k ref Hk. rewrite lookup_grow. destruct (data_ e !! Z.to_nat k) as [r|] eqn:Er.
      + intros [= <-]. destruct (is_empty r) eqn:Ee; [done|]. by specialize (Ho k r Hk Er Ee).
      + case_decide; [|done]. by intros [= <-].
    - done.
    - intros k ref Hk Er. destruct (is_empty ref) eqn:Ee; [done|]. by specialize (Ho k ref Hk Er Ee). }
  clearbody d. destruct (lookup_lt_is_Some_2 d (Z.to_nat n) Hlen) as [ref Eref].
  rewrite (nth_lookup_Some _ _ _ _ Eref), (Hd n ref Hr Eref) in Ec. injection Ec as <- <- <-.
  split; [exact He1 | exact Hf1 | done | |].
  - cbn. intros k r Hk Hr' Hemp. destruct (decide (k = n)) as [-> | Hne]; [done|].
    rewrite list_lookup_insert_ne in Hr' by lia. by rewrite (Hd k r Hk Hr') in Hemp.
  - split; [done|]. split; [exact Hv1|].
    cbn. rewrite list_lookup_insert_eq by done. done.
Qed.

(** The invariant, with the descriptors that are held by calls that go on. *)
Record net_ok (l : list Z) (w : net) : Prop := {
  n_owns : owns (fds w) (l ++ option_list (sock_ (conn w)) ++ handed w);
  n_sub : subscribed (sock_ (conn w)) (sub_ (conn w)) (reactor w);
  n_log : accepts (log w) = Some (pending w)
}.

Lemma owned_not_base l w n : net_ok (n :: l) w -> n <> tfd /\ n <> nfd.
Proof. intros [(_ & _ & Hb) _ _]. specialize (Hb n ltac:(by left)). split; by intros ->. Qed.

Lemma logs_ok l w c p : net_ok l w -> protocol_step (pending w) c = Some p -> p = pending w -> net_ok l (logs c w).
Proof. intros [Ho Hs Hl] Hc ->. split; [done | done|]. cbn [logs log]. by rewrite accepts_snoc, Hl. Qed.

Lemma start_ok l w n ep : 0 <= n < 2 ^ 31 -> net_ok (n :: l) w -> net_ok l (start n ep w).
Proof.
  intros Hr Hw. destruct (owned_not_base l w n Hw) as [Ht Hn]. destruct Hw as [Ho Hs Hl]. unfold start.
  pose proof (reset_subscribed _ _ _ Hs) as H1. destruct (reset _ _) as [h1 e1].
  pose proof (add_subscribed n h1 e1 H1 Hr Ht Hn) as H2. destruct (add_slot _ _ _ e1) as [h2 e2].
  assert (accepts (log w ++ [Started n ep]) = Some (Some (n, ep))) as Hacc by (by rewrite accepts_snoc, Hl).
  destruct (sock_ (conn w)) as [m|] eqn:Em; (split; [|done | done]); cbn in *.
  - apply owns_close. eapply owns_perm; [|exact Ho]. clear. solve_Permutation.
  - eapply owns_perm; [|exact Ho]. clear. solve_Permutation.
Qed.

Lemma open_ok l w n : new_fd (fds w) = Some n -> net_ok l w -> net_ok (n :: l) (open_fd n w).
Proof. intros Hn [Ho Hs Hl]. split; [|done | done]. apply (owns_open _ _ n); [by eapply new_fd_fresh | done]. Qed.

Lemma close_ok l w n : net_ok (n :: l) w -> net_ok l (close_fd n w).
Proof. intros [Ho Hs Hl]. split; [|done | done]. by apply owns_close. Qed.

(** The socket of a callback is on the stack until the callback takes it over. *)
Definition held (n : Z) (takes : bool) (l : list Z) : list Z := if takes then l else n :: l.

Lemma give_ok l w n takes : net_ok (n :: l) w -> net_ok (held n takes l) (give n takes w).
Proof.
  intros Hw. destruct takes; [|done]. destruct Hw as [Ho Hs Hl]. split; [|done | done]. cbn in *.
  eapply owns_perm; [|exact Ho]. clear. solve_Permutation.
Qed.

Lemma finish_ok l w n takes : net_ok (held n takes l) w -> net_ok l (finish n takes w).
Proof. destruct takes; [done|]. apply close_ok. Qed.

Lemma close_taken_ok l w n : net_ok l w -> net_ok l (act (CloseTaken n) w).2.
Proof.
  intros [Ho Hs Hl]. cbn [act snd]. case_decide as Hn; [|done]. split; [|done | done]. cbn in *.
  apply owns_close. eapply owns_perm; [|exact Ho].
  destruct Ho as (Hnd & _). apply NoDup_app in Hnd as (_ & _ & Hnd). apply NoDup_app in Hnd as (_ & _ & Hnd).
  revert Hn Hnd. generalize (handed w), (option_list (sock_ (conn w))). intros h o Hn Hnd.
  assert (n :: filter (.≠ n) h ≡ₚ h) as E; [|rewrite <- E at 2; clear; solve_Permutation].
  induction h as [|x h IH]; [by apply elem_of_nil in Hn|]. apply NoDup_cons in Hnd as (Hx & Hnd).
  destruct (decide (x = n)) as [-> | Hne].
  - rewrite filter_cons_False by tauto. f_equiv. clear -Hx. induction h as [|y h IH]; [done|].
    apply not_elem_of_cons in Hx as [Hy Hx]. rewrite filter_cons_True by done. by rewrite IH.
  - rewrite filter_cons_True by done. apply elem_of_cons in Hn as [-> | Hn]; [done|].
    rewrite <- (IH Hn Hnd) at 2. apply Permutation_swap.
Qed.

(** Induction on what a client does, through the bodies of its callbacks. *)
Lemma action_nested (P : action -> Prop) :
  (forall ep prepared ec takes body throws c, Forall P body -> P (Connect ep prepared ec takes body throws c)) ->
  (forall n, P (CloseTaken n)) -> forall a, P a.
Proof.
  intros HC HT. fix IH 1. intros [ep prepared ec takes body throws c | n]; [|apply HT].
  apply HC. induction body as [|a body IHb]; constructor; [apply IH | exact IHb].
Qed.

Definition act_keeps (a : action) : Prop := forall l w, net_ok l w -> net_ok l (act a w).2.

Lemma run_body_ok throws body l w : Forall act_keeps body -> net_ok l w -> net_ok l (run_body act throws body w).2.
Proof.
  intros Hb. revert w. induction Hb as [|a body Ha Hb IH]; intros w Hw; [done|]. cbn [run_body].
  pose proof (Ha l w Hw) as H1. destruct (act a w) as [r w1]. destruct (_ && _); [done|]. by apply IH.
Qed.

Lemma act_ok a : act_keeps a.
Proof.
  induction a as [ep prepared ec takes body throws c Hb | n] using action_nested; intros l w Hw; [|by apply close_taken_ok].
  cbn [act]. destruct (new_fd (fds w)) as [n|] eqn:En; [|done].
  pose proof (new_fd_fresh _ _ En) as [_ Hr]. pose proof (open_ok l w n En Hw) as H1. revert H1. generalize (open_fd n w). intros w1 H1.
  destruct prepared; cbn [negb]; [|by apply close_ok].
  destruct (ec =? 0).
  - assert (net_ok (n :: l) (logs (OnConnect n ep false) w1)) as H2 by (by eapply logs_ok).
    pose proof (run_body_ok throws body _ _ Hb (give_ok _ _ n takes H2)) as H3. destruct (run_body _ _ _ _) as [t w3]. by apply finish_ok.
  - destruct (ec =? EINPROGRESS); [by apply start_ok | by apply close_ok].
Qed.

Lemma run_behaviour_ok b l w : net_ok l w -> net_ok l (run_behaviour b w).2.
Proof. apply run_body_ok. apply Forall_forall. intros a _. apply act_ok. Qed.

Lemma on_io_event_ok err on_connect on_error l w n : sock_ (conn w) = Some n ->
  net_ok l w -> net_ok l (on_io_event err on_connect on_error w).
Proof.
  intros En [Ho Hs Hl]. unfold on_io_event. pose proof (reset_subscribed _ _ _ Hs) as H1. destruct (reset _ _) as [h e].
  rewrite En in *. unfold pending in Hl. rewrite En in Hl. cbn in Hl.
  set (w1 := mkNet _ _ _ _ _).
  assert (forall c, protocol_step (Some (n, ep_ (conn w))) c = Some None -> net_ok (n :: l) (logs c w1)) as Hc.
  { intros c Hc. split; cbn in *; [|done|].
    - eapply owns_perm; [|exact Ho]. clear. solve_Permutation.
    - by rewrite accepts_snoc, Hl. }
  destruct (err =? 0).
  - pose proof (Hc (OnConnect n (ep_ (conn w)) true) ltac:(cbn; by rewrite decide_True)) as H2.
    pose proof (run_behaviour_ok on_connect _ _ (give_ok _ _ n (b_takes on_connect) H2)) as H3.
    destruct (run_behaviour on_connect _) as [t w2]. apply finish_ok. destruct t; [|done].
    apply run_behaviour_ok. by eapply logs_ok.
  - apply close_ok, run_behaviour_ok, Hc. done.
Qed.

Lemma on_accept_event_ok prepared b l w : net_ok l w -> net_ok l (on_accept_event prepared b w).2.
Proof.
  intros Hw. unfold on_accept_event. destruct (new_fd (fds w)) as [n|] eqn:En; [|done].
  pose proof (open_ok l w n En Hw) as H1. destruct prepared; cbn [negb]; [|by apply close_ok].
  assert (net_ok (n :: l) (logs (OnAccept n) (open_fd n w))) as H2 by (by eapply logs_ok).
  pose proof (run_behaviour_ok b _ _ (give_ok _ _ n (b_takes b) H2)) as H3. destruct (run_behaviour _ _) as [t w3]. by apply finish_ok.
Qed.

Lemma due_pending ev w inv l : net_ok l w -> due_callback (reactor w) ev = Some inv -> exists n, sock_ (conn w) = Some n.
Proof.
  intros [_ Hs _] Hd. unfold due_callback in Hd. destruct (_ =? _); [done|].
  assert (- 2 ^ 31 <= unpack_fd (ev_data ev) < 2 ^ 31) as Hr by (apply (wraps_range 32); lia).
  destruct (slot _) as [s|] eqn:Es; [|done].
  set (k := unpack_fd (ev_data ev)) in *. destruct (decide (0 <= k)) as [Hk | Hk].
  - rewrite wrapu_small in Es by lia. exists k. destruct (data_ (reactor w) !! Z.to_nat k) as [p|] eqn:Ep.
    + apply (s_others _ _ _ Hs k p); [lia | done|]. rewrite (nth_lookup_Some _ _ _ _ Ep) in Es. unfold is_empty. by rewrite Es.
    + rewrite nth_overflow in Es by (by apply lookup_ge_None). done.
  - rewrite nth_overflow in Es; [done|]. pose proof (po_len _ (s_poller _ _ _ Hs)).
    assert (2 ^ 63 <= u64 k); [|lia]. unfold wrapu. rewrite <- (Z.mod_add k 1) by lia. rewrite Z.mod_small by lia. lia.
Qed.

(** An event of any kind for the pending socket is for the connector. *)
Lemma pending_due w l n mask : net_ok l w -> sock_ (conn w) = Some n ->
  Z.land mask (Z.lor (Z.lor EpollIn EpollOut) (Z.lor EpollErr EpollHup)) <> 0 ->
  exists i, due_callback (reactor w) (mkEvent mask (pack n 1)) = Some i /\ inv_slot i = conn_slot.
Proof.
  intros [_ Hs _] En Hmask. pose proof (s_handle _ _ _ Hs) as Hh. rewrite En in Hh. destruct Hh as (_ & (Hr & _ & Hvn) & Hd).
  unfold due_callback. cbn [ev_data ev_mask]. destruct (unpack_pack n 1) as [-> ->]; [done | lia|].
  rewrite (proj2 (Z.eqb_neq _ _)) by done. rewrite wrapu_small by lia. rewrite (nth_lookup_Some _ _ _ _ Hd). cbn [slot entry_of sid events].
  change (1 <? 1) with false. change (to_epoll_events wanted) with (Z.lor EpollIn EpollOut). rewrite <- Z.lor_assoc.
  rewrite (proj2 (Z.eqb_neq _ _)) by done. eexists. split; [reflexivity | done].
Qed.

Lemma run_steps_ok steps w : net_ok [] w -> net_ok [] (run_steps steps w).
Proof.
  revert w. induction steps as [|s steps IH]; intros w Hw; [done|]. cbn [run_steps foldl]. apply IH.
  destruct s as [a | ev err b b' | prepared b]; cbn [run_step]; [by apply act_ok | | by apply on_accept_event_ok].
  destruct (due_callback (reactor w) ev) as [i|] eqn:Ei; [|done]. destruct (_ =? _); [|done].
  destruct (due_pending ev w i [] Hw Ei) as (n & En). by eapply on_io_event_ok.
Qed.

Lemma new_net_ok hint others : base = {[tfd; nfd]} ∪ others -> tfd <> nfd -> 0 <= tfd -> 0 <= nfd < 2 ^ 31 -> hint <= 2 ^ 31 ->
  net_ok [] (new_net tfd nfd hint others).
Proof.
  intros Hb Hne Ht Hn Hh. split; [|split|done]; cbn.
  - rewrite <- Hb. split; [constructor|]. split; [|by intros n ?%elem_of_nil]. intros n. split; [by left|]. by intros [? | ?%elem_of_nil].
  - by apply make_epoll_ok.
  - done.
  - done.
  - intros k ref _ Hk Hemp. apply lookup_replicate in Hk as [-> _]. done.
  - done.
Qed.

(** The log only grows. *)
Definition extends (w w' : net) : Prop := exists l, log w' = log w ++ l.

#[global] Instance extends_trans : PreOrder extends.
Proof.
  split; [intros w; exists []; by rewrite app_nil_r|]. intros w1 w2 w3 [l1 E1] [l2 E2]. exists (l1 ++ l2). by rewrite E2, E1, app_assoc.
Qed.

Lemma extends_same w w' : log w' = log w -> extends w w'.
Proof. intros E. exists []. by rewrite E, app_nil_r. Qed.

Lemma extends_logs c w : extends w (logs c w).
Proof. by exists [c]. Qed.

Lemma run_body_extends throws body w : Forall (fun a => forall w, extends w (act a w).2) body -> extends w (run_body act throws body w).2.
Proof.
  intros Hb. revert w. induction Hb as [|a body Ha Hb IH]; intros w; [done|]. cbn [run_body].
  specialize (Ha w). destruct (act a w) as [r w1]. destruct (_ && _); [done|]. by rewrite Ha, <- IH.
Qed.

Lemma give_extends n takes w : extends w (give n takes w).
Proof. destruct takes; by apply extends_same. Qed.
Lemma finish_extends n takes w : extends w (finish n takes w).
Proof. destruct takes; by apply extends_same. Qed.

Lemma act_extends a w : extends w (act a w).2.
Proof.
  revert w. induction a as [ep prepared ec takes body throws c Hb | n] using action_nested; intros w; cbn [act].
  - destruct (new_fd (fds w)) as [n|]; [|done]. destruct prepared; [|by apply extends_same]. cbn [negb]. destruct (ec =? 0).
    + pose proof (run_body_extends throws body (give n takes (logs (OnConnect n ep false) (open_fd n w))) Hb) as H.
      destruct (run_body _ _ _ _) as [t w2]. cbn [snd] in *. rewrite <- finish_extends, <- H, <- give_extends. by exists [OnConnect n ep false].
    + destruct (ec =? EINPROGRESS); [|by apply extends_same]. unfold start. destruct (reset _ _) as [h e].
      destruct (add_slot _ _ _ e) as [h2 e2]. exists [Started n ep]. cbn. by destruct (sock_ (conn w)).
  - case_decide; by apply extends_same.
Qed.

Lemma run_behaviour_extends b w : extends w (run_behaviour b w).2.
Proof. apply run_body_extends, Forall_forall. intros a _. apply act_extends. Qed.
End inv.

(** C14: A connector keeps its protocol: in every session, whatever the system calls
    return and whatever the client's callbacks do (connect again, throw, take sockets
    or not), every call of the client for a pending connection follows the [connect]
    that returned false for it, with its socket and its endpoint, at most once and
    only until the next such [connect]; and what the kernel reports on are the timer,
    the notification and the socket of the pending connection, for reading and
    writing, no others. *)
Theorem connector_protocol (tfd nfd hint : Z) (others : gset Z) (steps : list step) :
  KernelLaws K -> tfd <> nfd -> 0 <= tfd -> 0 <= nfd < 2 ^ 31 -> hint <= 2 ^ 31 ->
  let w := run_steps steps (new_net tfd nfd hint others) in
  accepts (log w) = Some (pending w)
  /\ exists m, interest (calls (reactor w)) = Some m
     /\ forall n, 0 <= n < 2 ^ 31 -> n <> tfd -> n <> nfd ->
          m !! n = if decide (sock_ (conn w) = Some n) then Some (Z.lor EpollIn EpollOut, pack n 1) else None.
Proof.
  intros HK Hne Ht Hn Hh w.
  destruct (run_steps_ok tfd nfd ({[tfd; nfd]} ∪ others) ltac:(set_solver) ltac:(set_solver) steps _
    (new_net_ok tfd nfd _ hint others eq_refl Hne Ht Hn Hh)) as [_ Hs Hl].
  fold w in Hs, Hl. split; [exact Hl|]. destruct (po_interest _ (s_poller _ _ _ _ _ Hs)) as (m & Hm & He & _).
  exists m. split; [exact Hm|]. intros n Hr Hnt Hnn. destruct (s_fds _ _ _ _ _ Hs) as [Et En].
  rewrite He by (unfold valid_fd; by rewrite Et, En). unfold entry. case_decide as Hp.
  - pose proof (s_handle _ _ _ _ _ Hs) as Hd. rewrite Hp in Hd. by destruct Hd as (_ & _ & ->).
  - destruct (data_ (reactor w) !! Z.to_nat n) as [ref|] eqn:Eref; [|done]. destruct (is_empty ref) eqn:Ee; [done|].
    by specialize (s_others _ _ _ _ _ Hs n ref Hr Eref Ee).
Qed.

(** No descriptor is lost or closed twice: in every session the open descriptors are
    those that were open before, those that the client took over, and that of the
    pending connection, all different. *)
Theorem sockets_accounted (tfd nfd hint : Z) (others : gset Z) (steps : list step) :
  KernelLaws K -> tfd <> nfd -> 0 <= tfd -> 0 <= nfd < 2 ^ 31 -> hint <= 2 ^ 31 ->
  let w := run_steps steps (new_net tfd nfd hint others) in
  let owned := option_list (sock_ (conn w)) ++ handed w in
  NoDup owned
  /\ forall n, (n ∈ fds w <-> n = tfd \/ n = nfd \/ n ∈ others \/ n ∈ owned)
     /\ (n ∈ owned -> n <> tfd /\ n <> nfd /\ (n ∉ others)).
Proof.
  intros HK Hne Ht Hn Hh w owned.
  destruct (run_steps_ok tfd nfd ({[tfd; nfd]} ∪ others) ltac:(set_solver) ltac:(set_solver) steps _
    (new_net_ok tfd nfd _ hint others eq_refl Hne Ht Hn Hh)) as [(Ho & HF & Hb) _ _].
  cbn [app] in *. fold w in Ho, HF, Hb. fold owned in Ho, HF, Hb. split; [exact Ho|]. intros n.
  specialize (HF n). specialize (Hb n). set_solver.
Qed.

(** A pending connection comes to an end when its socket is ready: an event of the
    poller for it, of any kind, is followed by the client's callback for it, with the
    socket and the endpoint of the connection when the socket has no error and with
    the error otherwise, whatever happened before. *)
Theorem ready_socket_completes (tfd nfd hint : Z) (others : gset Z) (steps : list step)
    (n : Z) (ep : nat) (mask err : Z) (on_connect on_error : behaviour) :
  KernelLaws K -> tfd <> nfd -> 0 <= tfd -> 0 <= nfd < 2 ^ 31 -> hint <= 2 ^ 31 ->
  let w := run_steps steps (new_net tfd nfd hint others) in
  pending w = Some (n, ep) ->
  Z.land mask (Z.lor (Z.lor EpollIn EpollOut) (Z.lor EpollErr EpollHup)) <> 0 ->
  exists rest, log (run_step (Ready (mkEvent mask (pack n 1)) err on_connect on_error) w)
    = log w ++ (if err =? 0 then OnConnect n ep true else OnError (Some err)) :: rest.
Proof.
  intros HK Hne Ht Hn Hh w Hp Hmask.
  pose proof (run_steps_ok tfd nfd ({[tfd; nfd]} ∪ others) ltac:(set_solver) ltac:(set_solver) steps _
    (new_net_ok tfd nfd _ hint others eq_refl Hne Ht Hn Hh)) as Hok.
  fold w in Hok. unfold pending in Hp. destruct (sock_ (conn w)) as [k|] eqn:Ek; [|done]. injection Hp as -> Hep.
  destruct (pending_due tfd nfd _ w [] n mask Hok Ek Hmask) as (i & Hi & Hslot).
  cbn [run_step]. rewrite Hi, Hslot, Z.eqb_refl. unfold on_io_event. destruct (reset _ _) as [h e]. rewrite Ek, Hep.
  set (w1 := mkNet _ _ _ _ _).
  assert (forall c w', extends (logs c w1) w' -> exists rest, log w' = log w ++ c :: rest) as Hx.
  { intros c w' [l El]. exists l. rewrite El. cbn. by rewrite <- app_assoc. }
  destruct (err =? 0); apply Hx.
  - set (w2 := logs _ w1). assert (extends w2 (run_behaviour on_connect (give n (b_takes on_connect) w2)).2) as H
      by (etransitivity; [apply give_extends | apply run_behaviour_extends]).
    destruct (run_behaviour on_connect _) as [t w3]. cbn [snd] in H. etransitivity; [exact H|].
    destruct t; (etransitivity; [|apply finish_extends]); [|done].
    etransitivity; [apply extends_logs | apply run_behaviour_extends].
  - etransitivity; [apply run_behaviour_extends|]. by apply extends_same.
Qed.

End connector.

(** A process with the descriptors below 1024, the lowest first. *)
Definition lowest (bound : nat) (X : gset Z) : option Z := head (filter (fun n => n ∉ X) (map Z.of_nat (seq 0 bound))).
Definition low_fds : Kernel := {| new_fd := lowest 1024 |}.

Lemma lowest_free bound X n : lowest bound X = Some n -> (n ∉ X) /\ 0 <= n < Z.of_nat bound.
Proof.
  intros Hn. apply head_Some_elem_of in Hn. apply list_elem_of_filter in Hn as [Hn Hin].
  split; [done|]. apply list_elem_of_fmap in Hin as (k & -> & Hk). apply elem_of_seq in Hk. lia.
Qed.

Lemma low_fds_laws : KernelLaws low_fds.
Proof. split. intros X n Hn. destruct (lowest_free 1024 X n Hn) as [? ?]. split; [done | lia]. Qed.

(** A session: a connection is refused when it is ready, and the client connects again from
    its callback, to where it is connected at once, and throws; and it accepts a socket. *)
Definition retry : behaviour :=
  mkBehaviour false [Connect 2 true 0 true [] true true; Connect 3 true EINPROGRESS false [] false true] true.
Definition quiet : behaviour := mkBehaviour true [] false.
Definition session_steps : list step :=
  [Do (Connect 1 true EINPROGRESS false [] false false); Ready (mkEvent EpollErr (pack 5 1)) 111 quiet retry;
   Acceptable true quiet; Acceptable false quiet; Do (CloseTaken 6); Do (Connect 4 true 13 false [] false false)].

Example session_log :
  let w := @run_steps low_fds 7 session_steps (new_net 3 4 16 {[0; 1; 2]}) in
  log w = [Started 5 1; OnError (Some 111); OnConnect 6 2 false; Started 7 3; OnAccept 5]
  /\ handed w = [5] /\ pending w = Some (7, 3%nat).
Proof. vm_compute. done. Qed.

Lemma connector_protocol_witness :
  let w := @run_steps low_fds 7 session_steps (new_net 3 4 16 {[0; 1; 2]}) in
  accepts (log w) = Some (pending w)
  /\ exists m, interest (calls (reactor w)) = Some m
     /\ forall n, 0 <= n < 2 ^ 31 -> n <> 3 -> n <> 4 ->
          m !! n = if decide (sock_ (conn w) = Some n) then Some (Z.lor EpollIn EpollOut, pack n 1) else None.
Proof. apply (@connector_protocol low_fds 7 3 4 16 {[0; 1; 2]} session_steps); [apply low_fds_laws | lia | lia | lia | lia]. Defined.

Lemma sockets_accounted_witness :
  let w := @run_steps low_fds 7 session_steps (new_net 3 4 16 {[0; 1; 2]}) in
  let owned := option_list (sock_ (conn w)) ++ handed w in
  NoDup owned
  /\ forall n, (n ∈ fds w <-> n = 3 \/ n = 4 \/ n ∈ ({[0; 1; 2]} : gset Z) \/ n ∈ owned)
     /\ (n ∈ owned -> n <> 3 /\ n <> 4 /\ (n ∉ ({[0; 1; 2]} : gset Z))).
Proof. apply (@sockets_accounted low_fds 7 3 4 16 {[0; 1; 2]} session_steps); [apply low_fds_laws | lia | lia | lia | lia]. Defined.

Lemma ready_socket_completes_witness :
  let w := @run_steps low_fds 7 session_steps (new_net 3 4 16 {[0; 1; 2]}) in
  exists rest, log (@run_step low_fds 7 (Ready (mkEvent EpollOut (pack 7 1)) 0 quiet quiet) w)
    = log w ++ OnConnect 7 3 true :: rest.
Proof.
  apply (@ready_socket_completes low_fds 7 3 4 16 {[0; 1; 2]} session_steps 7 3 EpollOut 0 quiet quiet);
    [apply low_fds_laws | lia | lia | lia | lia | vm_compute; reflexivity | vm_compute; discriminate].
Defined.
