(* ===== verification/Logging.v ===== *)
(** * Bounded streams and log messages

    Models [StaticBuf] and [StaticStream] of [toolbox/util/Stream.hpp], whose text is cut
    off at a bound, and the log of [toolbox/sys/Log.hpp] and [Log.cpp]: levels, loggers,
    and messages that are put together in one stream per thread.  The operands of a
    message may log themselves, and throw. *)
From Stdlib Require Import String.
From S2P Require Import Prelude Text.
#[local] Open Scope Z_scope.

(** ** Streams *)

(** The format of a stream; [std::hex] and the like change it. *)
Record fmt := mkFmt { fill : ascii; flags : Z; precision : Z; width : Z }.
(** [skipws | dec]. *)
Definition reset_fmt : fmt := mkFmt " " (Z.lor (2 ^ 12) 2) 6 0.

(** The text that was written, whether nothing was cut off yet, and the format. *)
Record StaticStream := mkStream { text : str; good : bool; format : fmt }.

Definition reset (st : StaticStream) : StaticStream := mkStream [] true reset_fmt.

(** How a value is printed depends on the format, and may change it (the width). *)
Definition printer : Type := fmt -> str * fmt.

Section stream.
Variable MaxN : nat.

(** [operator<<]: what does not fit is not written, and the stream is bad. *)
Definition put (p : printer) (st : StaticStream) : StaticStream :=
  if good st then
    let '(s, f) := p (format st) in
    let room := (MaxN - length (text st))%nat in
    if (length s <=? room)%nat then mkStream (text st ++ s) true f
    else mkStream (text st ++ take room s) false f
  else st.

Definition manipulate (g : fmt -> fmt) (st : StaticStream) : StaticStream := mkStream (text st) (good st) (g (format st)).

(** ** The log *)

(** What a message is made of: values, manipulators, operands whose evaluation throws,
    and operands whose evaluation logs a message (and perhaps throws) before the value
    is there. *)
Inductive item :=
| Value (p : printer)
| Manip (g : fmt -> fmt)
| Throw
| Nested (level : Z) (body : list item) (p : printer).

(** The level and the logger of the process, the stream of the thread, and what was
    written: to which logger, with which level. *)
Record log_state := mkLog { level_ : Z; logger_ : Z; log_msg_ : StaticStream; written : list (Z * Z * str) }.

Definition null_logger : Z := 0.

Definition on_stream (f : StaticStream -> StaticStream) (x : log_state) : log_state :=
  mkLog (level_ x) (logger_ x) (f (log_msg_ x)) (written x).

Definition is_log_level (level : Z) (x : log_state) : bool := level <=? level_ x.
Definition set_log_level (level : Z) (x : log_state) : Z * log_state :=
  (level_ x, mkLog (Z.max level 0) (logger_ x) (log_msg_ x) (written x)).
Definition set_logger (logger : option Z) (x : log_state) : Z * log_state :=
  (logger_ x, mkLog (level_ x) (default null_logger logger) (log_msg_ x) (written x)).
Definition write_log (level : Z) (msg : str) (x : log_state) : log_state :=
  mkLog (level_ x) (logger_ x) (log_msg_ x) (written x ++ [(logger_ x, level, msg)]).

(** The operands of a message, from the left, until one throws. *)
Definition operands {X} (eval : item -> X -> bool * X) : list item -> X -> bool * X :=
  fix run items x :=
    match items with
    | [] => (false, x)
    | i :: items => let '(t, x) := eval i x in if t then (true, x) else run items x
    end.

(** The life of a [Log]: the constructor resets the stream of the thread, the destructor
    writes what is in it, when an operand throws too. *)
Definition log_object (eval : item -> log_state -> bool * log_state) (level : Z) (items : list item) (x : log_state)
    : bool * log_state :=
  let '(t, x) := operands eval items (on_stream reset x) in
  (t, write_log level (text (log_msg_ x)) x).

Fixpoint eval (i : item) (x : log_state) : bool * log_state :=
  match i with
  | Value p => (false, on_stream (put p) x)
  | Manip g => (false, on_stream (manipulate g) x)
  | Throw => (true, x)
  | Nested level body p =>
      let '(t, x) := if is_log_level level x then log_object eval level body x else (false, x) in
      if t then (true, x) else (false, on_stream (put p) x)
  end.

(** [TOOLBOX_LOG(level) << items]. *)
Definition log (level : Z) (items : list item) (x : log_state) : bool * log_state :=
  if is_log_level level x then log_object eval level items x else (false, x).

(** ** What is written *)

(** The text and format of the stream without a bound, with the messages in order. *)
Record page := mkPage { p_text : str; p_format : fmt; p_messages : list (Z * str) }.

Definition print (p : printer) (x : page) : page :=
  let '(s, f) := p (p_format x) in mkPage (p_text x ++ s) f (p_messages x).

Section level.
Variable threshold : Z.

Definition page_object (eval : item -> page -> bool * page) (level : Z) (items : list item) (x : page) : bool * page :=
  let '(t, x) := operands eval items (mkPage [] reset_fmt (p_messages x)) in
  (t, mkPage (p_text x) (p_format x) (p_messages x ++ [(level, p_text x)])).

Fixpoint page_item (i : item) (x : page) : bool * page :=
  match i with
  | Value p => (false, print p x)
  | Manip g => (false, mkPage (p_text x) (g (p_format x)) (p_messages x))
  | Throw => (true, x)
  | Nested level body p =>
      let '(t, x) := if level <=? threshold then page_object page_item level body x else (false, x) in
      if t then (true, x) else (false, print p x)
  end.
End level.

(** The stream holds what fits of the text. *)
Definition holds_page (x : log_state) (y : page) : Prop :=
  let st := log_msg_ x in
  text st = take MaxN (p_text y) /\ good st = (length (p_text y) <=? MaxN)%nat
  /\ (good st = true -> format st = p_format y).

Definition cut (logger : Z) (m : Z * str) : Z * Z * str := (logger, m.1, take MaxN m.2).

(** Two runs in step: what was written before, and since then. *)
Record in_step (w0 : list (Z * Z * str)) (level logger : Z) (x : log_state) (y : page) : Prop := {
  st_page : holds_page x y;
  st_level : level_ x = level;
  st_logger : logger_ x = logger;
  st_written : written x = w0 ++ map (cut logger) (p_messages y)
}.

Lemma put_page p w0 lv lg x y : in_step w0 lv lg x y -> in_step w0 lv lg (on_stream (put p) x) (print p y).
Proof.
  intros [(Ht & Hg & Hf) Hl Hlg Hw]. unfold print.
  destruct (p (p_format y)) as [s f] eqn:Ep. split; [|done | done | done].
  unfold holds_page, on_stream, put. cbn. rewrite length_app. destruct (good (log_msg_ x)) eqn:Eg.
  - rewrite (Hf eq_refl), Ep, Ht. symmetry in Hg. apply Nat.leb_le in Hg. rewrite (take_ge (p_text y)) by done.
    rewrite take_app. rewrite (take_ge (p_text y)) by done. destruct (Nat.leb_spec (length s) (MaxN - length (p_text y))); cbn.
    + rewrite take_ge by lia. split; [done|]. split; [symmetry; apply Nat.leb_le; lia | done].
    + split; [done|]. split; [symmetry; apply Nat.leb_gt; lia | done].
  - symmetry in Hg. apply Nat.leb_gt in Hg. rewrite Eg, take_app_le by lia.
    split; [done|]. split; [symmetry; apply Nat.leb_gt; lia | done].
Qed.

Lemma item_nested (P : item -> Prop) :
  (forall p, P (Value p)) -> (forall g, P (Manip g)) -> P Throw ->
  (forall level body p, Forall P body -> P (Nested level body p)) -> forall i, P i.
Proof.
  intros H1 H2 H3 H4. fix IH 1. intros [p | g | | level body p]; [apply H1 | apply H2 | apply H3 |].
  apply H4. induction body as [|i body IHb]; constructor; [apply IH | exact IHb].
Qed.

Definition item_in_step (lv lg : Z) (i : item) : Prop := forall w0 x y, in_step w0 lv lg x y ->
  (eval i x).1 = (page_item lv i y).1 /\ in_step w0 lv lg (eval i x).2 (page_item lv i y).2.

Lemma operands_in_step lv lg items w0 x y : Forall (item_in_step lv lg) items -> in_step w0 lv lg x y ->
  (operands eval items x).1 = (operands (page_item lv) items y).1
  /\ in_step w0 lv lg (operands eval items x).2 (operands (page_item lv) items y).2.
Proof.
  intros Hi. revert x y. induction Hi as [|i items Hi His IH]; intros x y Hxy; [done|]. cbn [operands].
  destruct (Hi w0 x y Hxy) as [Ht Hs]. destruct (eval i x) as [t x1], (page_item lv i y) as [t' y1].
  cbn in Ht, Hs. subst t'. destruct t; [done | by apply IH].
Qed.

Lemma object_in_step lv lg level items w0 x y : Forall (item_in_step lv lg) items -> in_step w0 lv lg x y ->
  (log_object eval level items x).1 = (page_object (page_item lv) level items y).1
  /\ in_step w0 lv lg (log_object eval level items x).2 (page_object (page_item lv) level items y).2.
Proof.
  intros Hi [_ Hl Hlg Hw]. unfold log_object, page_object.
  assert (in_step w0 lv lg (on_stream reset x) (mkPage [] reset_fmt (p_messages y))) as H0.
  { split; [|done | done | done]. unfold holds_page. cbn. by rewrite take_nil. }
  destruct (operands_in_step lv lg items w0 _ _ Hi H0) as [Ht Hs].
  destruct (operands eval items _) as [t x1], (operands (page_item lv) items _) as [t' y1].
  cbn in Ht, Hs. subst t'. split; [done|]. destruct Hs as [Hp Hl1 Hlg1 Hw1]. cbn. split; [exact Hp | done | done|].
  cbn. rewrite Hw1, map_app, app_assoc. unfold cut at 2. cbn. destruct Hp as (-> & _). by rewrite Hlg1.
Qed.

Lemma eval_in_step lv lg i : item_in_step lv lg i.
Proof.
  induction i as [p | g | | level body p Hb] using item_nested; intros w0 x y Hxy; cbn [eval page_item].
  - split; [done | by apply put_page].
  - split; [done|]. destruct Hxy as [(Ht & Hg & Hf) Hl Hlg Hw]. split; [|done | done | done].
    split_and!; [done | done|]. cbn. intros Hgood. by rewrite Hf.
  - done.
  - unfold is_log_level. rewrite (st_level _ _ _ _ _ Hxy). destruct (level <=? lv).
    + destruct (object_in_step lv lg level body w0 x y Hb Hxy) as [Ht Hs].
      destruct (log_object _ _ _ _) as [t x1], (page_object _ _ _ _) as [t' y1]. cbn in Ht, Hs. subst t'.
      destruct t; cbn; [done|]. split; [done | by apply put_page].
    + split; [done | by apply put_page].
Qed.


(** ** Messages whose operands log *)

Definition flat (i : item) : Prop := match i with Value _ | Manip _ => True | _ => False end.

(** The text of values that are printed in a row. *)
Fixpoint prints (items : list item) (f : fmt) : str * fmt :=
  match items with
  | Value p :: items => let '(s, f) := p f in let '(s', f) := prints items f in (s ++ s', f)
  | Manip g :: items => prints items (g f)
  | _ => ([], f)
  end.

Lemma flat_operands lv items rest y : Forall flat items ->
  operands (page_item lv) (items ++ rest) y
  = operands (page_item lv) rest
      (mkPage (p_text y ++ (prints items (p_format y)).1) (prints items (p_format y)).2 (p_messages y)).
Proof.
  intros Hf. revert y. induction Hf as [|i items Hi Hf IH]; intros y.
  - cbn. rewrite app_nil_r. by destruct y.
  - destruct i as [p | g | | level body p]; try done; cbn [app operands page_item prints].
    + unfold print. destruct (p (p_format y)) as [s f] eqn:Ep. rewrite IH. cbn [p_text p_format p_messages].
      destruct (prints items f) as [s' f']. cbn. by rewrite app_assoc.
    + rewrite IH. done.
Qed.

(** A message whose operand logs loses what was before that operand: the text of the
    inner message takes its place, so that the inner message is written twice, the
    second time with the rest of the outer one behind it. *)
Theorem nested_message_replaces (level lv : Z) (before body after : list item) (p : printer) (x : log_state) :
  Forall flat before -> Forall flat body -> Forall flat after -> level <= level_ x -> lv <= level_ x ->
  let '(inner, f) := prints body reset_fmt in
  let '(value, f) := p f in
  written (log level (before ++ Nested lv body p :: after) x).2
  = written x ++ [(logger_ x, lv, take MaxN inner);
                  (logger_ x, level, take MaxN (inner ++ value ++ (prints after f).1))].
Proof.
  intros Hb Hbody Ha Hl Hlv. destruct (prints body reset_fmt) as [inner f] eqn:Ei. destruct (p f) as [value f'] eqn:Ep.
  destruct (object_in_step (level_ x) (logger_ x) level (before ++ Nested lv body p :: after) (written x)
    (on_stream reset x) (mkPage [] reset_fmt [])) as [_ [_ _ _ Hw]].
  - apply Forall_forall. intros i _. apply eval_in_step.
  - split; [|done | done | by rewrite app_nil_r]. unfold holds_page. cbn. by rewrite take_nil.
  - unfold log, is_log_level. rewrite (proj2 (Z.leb_le _ _) Hl). change (on_stream reset (on_stream reset x)) with (on_stream reset x) in Hw.
    replace (log_object eval level _ x) with (log_object eval level (before ++ Nested lv body p :: after) (on_stream reset x)) by done.
    rewrite Hw. f_equal. unfold page_object at 1. rewrite flat_operands by done. cbn [operands page_item p_messages].
    rewrite (proj2 (Z.leb_le _ _) Hlv). unfold page_object. cbn [p_messages].
    rewrite <- (app_nil_r body), flat_operands by done. cbn [operands p_text p_format p_messages app]. rewrite Ei. cbn [fst snd].
    unfold print at 1. cbn [p_format p_text]. rewrite Ep.
    rewrite <- (app_nil_r after), flat_operands by done. cbn [operands p_text p_format p_messages app].
    rewrite app_nil_r. cbn. by rewrite <- app_assoc.
Qed.

End stream.

(** A text and a number, in the base of the format. *)
Definition puts (s : str) : printer := fun f => (s, f).

Lemma nested_message_replaces_witness :
  written (log 1400 5 ([Value (puts (lit "before "))] ++ Nested 4 [Value (puts (lit "inner"))] (puts (lit " 42")) :: [Value (puts (lit " after"))])
    (mkLog 5 1 (mkStream (lit "old") false reset_fmt) [])).2
  = [(1, 4, lit "inner"); (1, 5, lit "inner 42 after")].
Proof.
  exact (nested_message_replaces 1400 5 4 [Value (puts (lit "before "))] [Value (puts (lit "inner"))] [Value (puts (lit " after"))]
    (puts (lit " 42")) (mkLog 5 1 (mkStream (lit "old") false reset_fmt) [])
    ltac:(repeat constructor) ltac:(repeat constructor) ltac:(repeat constructor) ltac:(cbn; lia) ltac:(cbn; lia)).
Defined.

(** ** Loggers *)

Definition Crit : Z := 1.
Definition Dump9 : Z := 19.

Definition labels_ : list string :=
  [""; "C"; "E"; "W"; "N"; "I"; "D"; "V7"; "V8"; "V9"; "V10"; "V11"; "V12"; "V13"; "V14"; "V15"; "V16"; "V17"; "V18"; "V19"; "V20"]%string.

Definition log_label (level : Z) : option string := labels_ !! Z.to_nat (Z.min (Z.max level Crit) Dump9).

(** [printf] with [%0<n>d] and [%-<n>s]. *)
Definition zero_padded (n : nat) (z : Z) : str :=
  let ds := digits (Z.abs z) in
  if z <? 0 then "-"%char :: replicate (n - 1 - length ds) "0"%char ++ ds else replicate (n - length ds) "0"%char ++ ds.
Definition left_justified (n : nat) (s : str) : str := s ++ replicate (n - length s) " "%char.

(** The head of a line of [std_logger]: the date from [strftime], the remainder of the
    milliseconds, the label and the thread. *)
Definition std_head (date : str) (ms level tid : Z) : option str :=
  label ← log_label level;
  Some (date ++ "."%char :: zero_padded 3 (i32 (Z.rem ms 1000)) ++ " "%char :: left_justified 2 (lit label)
        ++ lit " [" ++ to_string tid ++ lit "]: ").

(** The buffer for the head, with its terminator. *)
Definition head_size : Z := 42 + 1.

(** The three parts that are written at once, to the descriptor of the standard error. *)
Definition std_logger (stderr_fd : Z) (date : str) (ms level tid : Z) (msg : str) : option (Z * str) :=
  h ← std_head date ms level tid; Some (stderr_fd, h ++ msg ++ ["010"%char]).

(** [sys_logger]: the priorities of [syslog]. *)
Definition syslog_priority (level : Z) : Z :=
  if level =? 1 then 2 else if level =? 2 then 3 else if level =? 3 then 4 else if level =? 4 then 5
  else if level =? 5 then 6 else 7.

Lemma label_length level label : log_label level = Some label -> (1 <= length (lit label) <= 3)%nat.
Proof.
  unfold log_label, Crit, Dump9. assert (1 <= Z.min (Z.max level 1) 19 <= 19) as Hr by lia. revert Hr.
  generalize (Z.min (Z.max level 1) 19). intros k Hk Hl.
  assert (Forall (fun s => (1 <= length (lit s) <= 3)%nat) (tail labels_)) as Hall by (repeat constructor; cbn; lia).
  rewrite Forall_lookup in Hall. apply (Hall (Z.to_nat k - 1)%nat).
  replace (Z.to_nat k) with (S (Z.to_nat k - 1)) in Hl by lia. exact Hl.
Qed.

Lemma digits_length n k : 0 <= n < 10 ^ Z.of_nat k -> (1 <= k)%nat -> (length (digits n) <= k)%nat.
Proof.
  revert n. induction k as [|k IH]; intros n Hn Hk; [lia|]. destruct (decide (n < 10 ^ Z.of_nat k)) as [Hs | Hs].
  - destruct k as [|k]; [change (10 ^ Z.of_nat 0) with 1 in Hs; assert (n = 0) as -> by lia; change (length (digits 0)) with 1%nat; lia|]. specialize (IH n ltac:(lia) ltac:(lia)). lia.
  - assert (Z.of_nat (length (digits n)) = Z.of_nat (S k)) as E; [|lia].
    apply length_digits; [lia | lia | | lia]. replace (Z.of_nat (S k) - 1) with (Z.of_nat k) by lia. lia.
Qed.

(** A log line's head fits in its buffer: for every level, time and thread there is a
    label, and if the date has at most fifteen characters (as in the C locale), the
    head has at most 42, the terminator one more. *)
Theorem log_head_fits (date : str) (ms level tid : Z) :
  (length date <= 15)%nat -> int32_min <= tid <= int32_max ->
  exists h, std_head date ms level tid = Some h /\ Z.of_nat (length h) + 1 <= head_size.
Proof.
  intros Hd Ht. unfold std_head. destruct (log_label level) as [label|] eqn:El.
  - cbn [mbind option_bind]. eexists. split; [reflexivity|]. pose proof (label_length level label El) as Hlab.
    assert (length (zero_padded 3 (i32 (Z.rem ms 1000))) <= 4)%nat as Hz.
    { pose proof (Z.rem_bound_abs ms 1000 ltac:(lia)). rewrite wraps_small by lia. unfold zero_padded.
      assert (length (digits (Z.abs (Z.rem ms 1000))) <= 3)%nat as Hdg by (apply digits_length; [change (10 ^ Z.of_nat 3) with 1000; lia | lia]).
      destruct (_ <? 0); cbn [length]; rewrite length_app, length_replicate; lia. }
    assert (length (to_string tid) <= 11)%nat as Hto.
    { unfold int32_min, int32_max in Ht. unfold to_string. destruct (Z.ltb_spec tid 0); cbn [length]; [apply le_n_S|]; (etransitivity; [apply (digits_length _ 10); [change (10 ^ Z.of_nat 10) with 10000000000; lia | lia] | lia]). }
    unfold left_justified, head_size. repeat (rewrite ?length_app, ?length_replicate; cbn [length]). cbn [lit list_ascii_of_string length]. lia.
  - exfalso. unfold log_label, Crit, Dump9 in El. apply lookup_ge_None in El. cbn in El. lia.
Qed.

Lemma log_head_fits_witness :
  exists h, std_head (lit "Mar 14 00:00:00") 1583193600123 3 4711 = Some h /\ Z.of_nat (length h) + 1 <= head_size.
Proof. apply log_head_fits; [cbn; lia | unfold int32_min, int32_max; lia]. Defined.

Example log_line :
  std_logger 2 (lit "Mar 14 00:00:00") 1583193600123 3 4711 (lit "hello")
  = Some (2, lit "Mar 14 00:00:00.123 W  [4711]: hello" ++ ["010"%char]).
Proof. vm_compute. done. Qed.
