(* ===== verification/Values.v ===== *)
(** * Small values: bit masks, versions, interned strings

    Models [BitMask] of [toolbox/util/Enum.hpp], [toolbox/util/Version.hpp] with the
    operators of [Compare.hpp], and [toolbox/util/InternedStrings.hpp]. *)
From Stdlib Require Import String.
From S2P Require Import Prelude Text StringBuf.
#[local] Open Scope Z_scope.

(** ** Bit masks *)

Module BitMask.

(** [to_mask]: a shift by 64 or more is undefined. *)
Definition to_mask (val : Z) : option Z := if (0 <=? val) && (val <? 64) then Some (u64 (Z.shiftl 1 val)) else None.

Definition of_list (vals : list Z) : option Z :=
  foldl (fun m v => m ← m; b ← to_mask v; Some (Z.lor m b)) (Some 0) vals.

Definition test (m : Z) (val : Z) : option bool := b ← to_mask val; Some (negb (Z.land m b =? 0)).
Definition set (m : Z) (val : Z) : option Z := b ← to_mask val; Some (Z.lor m b).
Definition set_all : Z := u64 (-1).
Definition reset (m : Z) (val : Z) : option Z := b ← to_mask val; Some (Z.land m (u64 (Z.lnot b))).
Definition reset_all : Z := 0.
Definition mask_and (a b : Z) : Z := Z.land a b.
Definition mask_or (a b : Z) : Z := Z.lor a b.
Definition mask_not (a : Z) : Z := u64 (Z.lnot a).
Definition operator_bool (m : Z) : bool := negb (m =? 0).
(** [none] is the same as [operator bool]. *)
Definition none (m : Z) : bool := negb (m =? 0).

(** What a program computes with masks. *)
Inductive expr :=
| List (vals : list Z) | All | Empty
| Set_ (e : expr) (v : Z) | Reset (e : expr) (v : Z)
| And (a b : expr) | Or (a b : expr) | Not (a : expr).

Fixpoint eval (e : expr) : option Z :=
  match e with
  | List vals => of_list vals
  | All => Some set_all
  | Empty => Some reset_all
  | Set_ e v => m ← eval e; set m v
  | Reset e v => m ← eval e; reset m v
  | And a b => x ← eval a; y ← eval b; Some (mask_and x y)
  | Or a b => x ← eval a; y ← eval b; Some (mask_or x y)
  | Not a => x ← eval a; Some (mask_not x)
  end.

(** The same with sets of the 64 values. *)
Definition universe : gset Z := list_to_set (map Z.of_nat (seq 0 64)).

Fixpoint denote (e : expr) : gset Z :=
  match e with
  | List vals => list_to_set vals
  | All => universe
  | Empty => ∅
  | Set_ e v => {[v]} ∪ denote e
  | Reset e v => denote e ∖ {[v]}
  | And a b => denote a ∩ denote b
  | Or a b => denote a ∪ denote b
  | Not a => universe ∖ denote a
  end.

Fixpoint values_ok (e : expr) : Prop :=
  match e with
  | List vals => Forall (fun v => 0 <= v < 64) vals
  | All | Empty => True
  | Set_ e v | Reset e v => values_ok e /\ 0 <= v < 64
  | And a b | Or a b => values_ok a /\ values_ok b
  | Not a => values_ok a
  end.

Lemma elem_of_universe k : k ∈ universe <-> 0 <= k < 64.
Proof.
  unfold universe. rewrite elem_of_list_to_set, list_elem_of_fmap. split.
  - intros (n & -> & Hn). apply elem_of_seq in Hn. lia.
  - intros Hk. exists (Z.to_nat k). split; [lia|]. apply elem_of_seq. lia.
Qed.

(** A mask of 64 bits that stands for a set. *)
Record represents (m : Z) (X : gset Z) : Prop := {
  rep_type : 0 <= m < 2 ^ 64;
  rep_bits : forall k, 0 <= k < 64 -> Z.testbit m k = true <-> k ∈ X;
  rep_range : forall k, k ∈ X -> 0 <= k < 64
}.

Lemma to_mask_value v : 0 <= v < 64 -> to_mask v = Some (2 ^ v).
Proof.
  intros Hv. unfold to_mask. rewrite (proj2 (Z.leb_le _ _)), (proj2 (Z.ltb_lt _ _)) by lia. cbn [andb].
  rewrite Z.shiftl_1_l. f_equal. apply Z.mod_small. split; [lia|]. apply Z.pow_lt_mono_r; lia.
Qed.

Lemma bits_range z : (forall k, 64 <= k -> Z.testbit z k = false) -> 0 <= z -> z < 2 ^ 64.
Proof.
  intros Hb Hz. destruct (decide (z = 0)) as [-> | Hne]; [lia|]. apply Z.log2_lt_pow2; [lia|].
  destruct (Z.lt_ge_cases (Z.log2 z) 64) as [Hl | Hl]; [done|]. pose proof (Hb _ Hl) as E. rewrite Z.bit_log2 in E by lia. done.
Qed.

Lemma high_bits m k : 0 <= m < 2 ^ 64 -> 64 <= k -> Z.testbit m k = false.
Proof. intros Hm Hk. rewrite <- (Z.mod_small m (2 ^ 64)) by done. by apply Z.mod_pow2_bits_high; lia. Qed.

Lemma lor_represents a b X Y : represents a X -> represents b Y -> represents (Z.lor a b) (X ∪ Y).
Proof.
  intros [Ha Hab Har] [Hb Hbb Hbr]. split.
  - split; [apply Z.lor_nonneg; lia|]. apply bits_range; [|apply Z.lor_nonneg; lia]. intros k Hk.
    rewrite Z.lor_spec, (high_bits a), (high_bits b) by done. done.
  - intros k Hk. rewrite Z.lor_spec, orb_true_iff, elem_of_union, Hab, Hbb by done. done.
  - intros k [? | ?]%elem_of_union; auto.
Qed.

Lemma land_represents a b X Y : represents a X -> represents b Y -> represents (Z.land a b) (X ∩ Y).
Proof.
  intros [Ha Hab Har] [Hb Hbb Hbr]. split.
  - split; [apply Z.land_nonneg; lia|]. apply bits_range; [|apply Z.land_nonneg; lia]. intros k Hk.
    rewrite Z.land_spec, (high_bits a) by done. done.
  - intros k Hk. rewrite Z.land_spec, andb_true_iff, elem_of_intersection, Hab, Hbb by done. done.
  - intros k [? ?]%elem_of_intersection. auto.
Qed.

Lemma not_represents a X : represents a X -> represents (u64 (Z.lnot a)) (universe ∖ X).
Proof.
  intros [Ha Hab Har]. split.
  - apply Z.mod_pos_bound. lia.
  - intros k Hk. unfold wrapu. rewrite Z.mod_pow2_bits_low, Z.lnot_spec, elem_of_difference, elem_of_universe, <- Hab by lia.
    rewrite negb_true_iff, <- not_true_iff_false. tauto.
  - intros k [Hk _]%elem_of_difference. by apply elem_of_universe.
Qed.

Lemma bit_represents v : 0 <= v < 64 -> represents (2 ^ v) {[v]}.
Proof.
  intros Hv. split.
  - split; [lia | apply Z.pow_lt_mono_r; lia].
  - intros k Hk. rewrite Z.pow2_bits_eqb, Z.eqb_eq, elem_of_singleton by lia. done.
  - intros k ->%elem_of_singleton. done.
Qed.

Lemma represents_eq m X Y : represents m X -> X = Y -> represents m Y.
Proof. by intros ? <-. Qed.

Lemma of_list_represents vals : Forall (fun v => 0 <= v < 64) vals ->
  exists m, of_list vals = Some m /\ represents m (list_to_set vals).
Proof.
  intros Hv. unfold of_list.
  assert (forall m X, represents m X -> exists m', foldl (fun m v => m ← m; b ← to_mask v; Some (Z.lor m b)) (Some m) vals = Some m'
    /\ represents m' (X ∪ list_to_set vals)) as H.
  { induction Hv as [|v vals Hv Hvs IH]; intros m X Hm.
    - exists m. split; [done|]. eapply represents_eq; [exact Hm | set_solver].
    - cbn [foldl mbind option_bind]. rewrite to_mask_value by done. cbn [mbind option_bind].
      destruct (IH _ _ (lor_represents _ _ _ _ Hm (bit_represents v Hv))) as (m' & E & Hm'). exists m'. split; [exact E|].
      eapply represents_eq; [exact Hm' | set_solver]. }
  destruct (H 0 ∅) as (m & E & Hm).
  - split; [lia | | set_solver]. intros k _. rewrite Z.bits_0. set_solver.
  - exists m. split; [exact E|]. eapply represents_eq; [exact Hm | set_solver].
Qed.

Lemma eval_represents e : values_ok e -> exists m, eval e = Some m /\ represents m (denote e).
Proof.
  induction e as [vals | | | e IH v | e IH v | a IHa b IHb | a IHa b IHb | a IHa]; cbn [values_ok eval denote]; intros Hv.
  - by apply of_list_represents.
  - exists set_all. split; [done|]. split; [vm_compute; split; congruence | | apply elem_of_universe].
    intros k Hk. rewrite elem_of_universe. unfold set_all, wrapu. rewrite Z.mod_pow2_bits_low, Z.bits_m1 by lia. tauto.
  - exists 0. split; [done|]. split; [lia | | set_solver]. intros k _. rewrite Z.bits_0. set_solver.
  - destruct Hv as [He Hv]. destruct (IH He) as (m & -> & Hm). cbn [mbind option_bind]. unfold set. rewrite to_mask_value by done.
    eexists. split; [reflexivity|]. eapply represents_eq; [apply lor_represents; [exact Hm | by apply bit_represents] | set_solver].
  - destruct Hv as [He Hv]. destruct (IH He) as (m & -> & Hm). cbn [mbind option_bind]. unfold reset. rewrite to_mask_value by done.
    eexists. split; [reflexivity|].
    eapply represents_eq; [apply land_represents; [exact Hm | by apply not_represents, bit_represents]|].
    pose proof (rep_range _ _ Hm) as Hr. apply set_eq. intros k. specialize (Hr k). rewrite elem_of_intersection, !elem_of_difference, elem_of_universe. tauto.
  - destruct Hv as [Ha Hb]. destruct (IHa Ha) as (x & -> & Hx), (IHb Hb) as (y & -> & Hy). eexists. split; [reflexivity|]. by apply land_represents.
  - destruct Hv as [Ha Hb]. destruct (IHa Ha) as (x & -> & Hx), (IHb Hb) as (y & -> & Hy). eexists. split; [reflexivity|]. by apply lor_represents.
  - destruct (IHa Hv) as (x & -> & Hx). eexists. split; [reflexivity|]. by apply not_represents.
Qed.

Lemma represents_empty m X : represents m X -> m = 0 <-> X = ∅.
Proof.
  intros [Hm Hb Hr]. split.
  - intros ->. apply set_eq. intros k. split; [|set_solver]. intros Hk. apply Hb in Hk as Hk'; [by rewrite Z.bits_0 in Hk' | by apply Hr].
  - intros ->. apply Z.bits_inj'. intros k Hk. rewrite Z.bits_0. destruct (decide (k < 64)) as [Hl | Hl]; [|by apply high_bits; lia].
    apply not_true_iff_false. rewrite Hb by done. set_solver.
Qed.

Lemma test_represents m X v : represents m X -> 0 <= v < 64 -> test m v = Some (bool_decide (v ∈ X)).
Proof.
  intros [Hm Hb Hr] Hv. unfold test. rewrite to_mask_value by done. cbn [mbind option_bind]. f_equal. specialize (Hb v Hv).
  assert (Z.land m (2 ^ v) = 0 <-> Z.testbit m v = false) as Ez.
  { split.
    - intros E. apply (f_equal (fun z => Z.testbit z v)) in E. by rewrite Z.land_spec, Z.pow2_bits_true, andb_true_r, Z.bits_0 in E by lia.
    - intros E. apply Z.bits_inj'. intros k Hk. rewrite Z.land_spec, Z.pow2_bits_eqb, Z.bits_0 by lia.
      destruct (Z.eqb_spec v k) as [<- | ?]; [by rewrite E | by rewrite andb_false_r]. }
  destruct (Z.eqb_spec (Z.land m (2 ^ v)) 0) as [E | E]; cbn [negb]; symmetry.
  - apply bool_decide_eq_false. rewrite <- Hb. apply Ez in E. by rewrite E.
  - apply bool_decide_eq_true. apply Hb. destruct (Z.testbit m v); [done|]. destruct E. by apply Ez.
Qed.

(** C40: A mask is a set: for every expression over masks whose values are below 64, the
    result is well-formed (64 bits), has exactly the values of the same expression
    over sets, and is true as a [bool] when the set is not empty; so is [none],
    which is to say the opposite. *)
Theorem mask_is_set (e : expr) :
  values_ok e ->
  exists m, eval e = Some m /\ 0 <= m < 2 ^ 64
    /\ (forall v, 0 <= v < 64 -> test m v = Some (bool_decide (v ∈ denote e)))
    /\ operator_bool m = bool_decide (denote e <> ∅)
    /\ none m = bool_decide (denote e <> ∅).
Proof.
  intros He. destruct (eval_represents e He) as (m & Hm & Hrep). exists m. split; [exact Hm|].
  split; [apply Hrep|]. split; [intros v Hv; by apply test_represents|].
  assert (operator_bool m = bool_decide (denote e <> ∅)) as Hb; [|done].
  unfold operator_bool. pose proof (represents_empty _ _ Hrep) as E.
  destruct (Z.eqb_spec m 0) as [H0 | H0]; symmetry; [apply bool_decide_eq_false | apply bool_decide_eq_true]; tauto.
Qed.

Lemma mask_is_set_witness :
  exists m, eval (Not (Or (List [0; 63]) (Reset (Set_ All 5) 7))) = Some m /\ 0 <= m < 2 ^ 64
    /\ (forall v, 0 <= v < 64 -> test m v = Some (bool_decide (v ∈ denote (Not (Or (List [0; 63]) (Reset (Set_ All 5) 7))))))
    /\ operator_bool m = bool_decide (denote (Not (Or (List [0; 63]) (Reset (Set_ All 5) 7))) <> ∅)
    /\ none m = bool_decide (denote (Not (Or (List [0; 63]) (Reset (Set_ All 5) 7))) <> ∅).
Proof. apply mask_is_set. repeat split; repeat constructor; lia. Defined.

End BitMask.

(** ** Comparison operators *)

(** [Comparable]: the operators from one function, whose sign is the order. *)
Class Comparable (A : Type) := compare : A -> A -> Z.

Section operators.
Context {A : Type} `{Comparable A}.
Definition op_eq (a b : A) : bool := compare a b =? 0.
Definition op_ne (a b : A) : bool := negb (compare a b =? 0).
Definition op_lt (a b : A) : bool := compare a b <? 0.
Definition op_le (a b : A) : bool := compare a b <=? 0.
Definition op_gt (a b : A) : bool := compare a b >? 0.
Definition op_ge (a b : A) : bool := compare a b >=? 0.
End operators.

(** What the operators need: the sign of an order. *)
Class ComparableLaws (A : Type) `{Comparable A} (lt : A -> A -> Prop) : Prop := {
  compare_neg a b : compare a b < 0 <-> lt a b;
  compare_zero a b : compare a b = 0 <-> a = b;
  compare_pos a b : 0 < compare a b <-> lt b a
}.

Lemma comparable_operators {A} `{Comparable A} (lt : A -> A -> Prop) `{!ComparableLaws A lt} (a b : A) :
  (op_eq a b = true <-> a = b) /\ (op_ne a b = true <-> a <> b)
  /\ (op_lt a b = true <-> lt a b) /\ (op_le a b = true <-> lt a b \/ a = b)
  /\ (op_gt a b = true <-> lt b a) /\ (op_ge a b = true <-> lt b a \/ a = b).
Proof.
  rewrite <- (compare_neg a b), <- (compare_zero a b), <- (compare_pos a b).
  unfold op_eq, op_ne, op_lt, op_le, op_gt, op_ge.
  rewrite negb_true_iff, Z.eqb_eq, Z.eqb_neq, Z.ltb_lt, Z.leb_le, Z.gtb_lt, Z.geb_le. lia.
Qed.

(** ** Versions *)

Module Version.

(** Two integers of type [int]. *)
Record Version := mkVersion { major : Z; minor : Z }.

Definition empty (v : Version) : bool := (major v =? 0) && (minor v =? 0).

#[export] Instance compare_version : Comparable Version := fun v w =>
  let i := compare3 (major v) (major w) in
  if i =? 0 then compare3 (minor v) (minor w) else i.

Definition int_type : itype := mkItype 32 true.

Definition print (v : Version) : str := to_string (major v) ++ lit "." ++ to_string (minor v).

Definition from_string (s : str) : Version :=
  let '(a, b) := split_pair s "." in mkVersion (ston int_type a) (ston int_type b).

Definition version_ok (v : Version) : Prop := in_itype int_type (major v) /\ in_itype int_type (minor v).

(** The order on versions: the minor number decides when the major ones are equal. *)
Definition older (v w : Version) : Prop := major v < major w \/ (major v = major w /\ minor v < minor w).

#[export] Instance version_laws : ComparableLaws Version older.
Proof.
  assert (forall v w, compare v w = let i := compare3 (major v) (major w) in if i =? 0 then compare3 (minor v) (minor w) else i) as E by done.
  split; intros v w; rewrite E; unfold compare3, older; destruct v as [a b], w as [c d]; cbn [major minor].
  - repeat zcase; cbn; lia.
  - split; [|intros [= -> ->]; by rewrite !Z.ltb_irrefl]. repeat zcase; cbn; intros; try lia. f_equal; lia.
  - repeat zcase; cbn; lia.
Qed.

Lemma dot_not_in_number n : ("."%char ∉ to_string n).
Proof. apply pad_not_in_number; done. Qed.

(** Versions are ordered and printed as they should: each comparison operator is the
    one of the order by major and then by minor number, and a version that is printed
    is read back as itself. *)
Theorem version_order_and_text (v w : Version) :
  version_ok v ->
  ((op_eq v w = true <-> v = w) /\ (op_ne v w = true <-> v <> w)
   /\ (op_lt v w = true <-> older v w) /\ (op_le v w = true <-> older v w \/ v = w)
   /\ (op_gt v w = true <-> older w v) /\ (op_ge v w = true <-> older w v \/ v = w))
  /\ from_string (print v) = v.
Proof.
  intros [Ha Hi]. split; [apply (comparable_operators older)|]. unfold from_string, print.
  cbn [lit list_ascii_of_string app]. rewrite split_pair_join by apply dot_not_in_number.
  rewrite <- (app_nil_r (to_string (major v))), <- (app_nil_r (to_string (minor v))).
  rewrite !ston_to_string by (done || (cbn; lia)). by destruct v.
Qed.

Lemma version_order_and_text_witness :
  ((op_eq (mkVersion 1 (-2)) (mkVersion 1 3) = true <-> mkVersion 1 (-2) = mkVersion 1 3)
   /\ (op_ne (mkVersion 1 (-2)) (mkVersion 1 3) = true <-> mkVersion 1 (-2) <> mkVersion 1 3)
   /\ (op_lt (mkVersion 1 (-2)) (mkVersion 1 3) = true <-> older (mkVersion 1 (-2)) (mkVersion 1 3))
   /\ (op_le (mkVersion 1 (-2)) (mkVersion 1 3) = true <-> older (mkVersion 1 (-2)) (mkVersion 1 3) \/ mkVersion 1 (-2) = mkVersion 1 3)
   /\ (op_gt (mkVersion 1 (-2)) (mkVersion 1 3) = true <-> older (mkVersion 1 3) (mkVersion 1 (-2)))
   /\ (op_ge (mkVersion 1 (-2)) (mkVersion 1 3) = true <-> older (mkVersion 1 3) (mkVersion 1 (-2)) \/ mkVersion 1 (-2) = mkVersion 1 3))
  /\ from_string (print (mkVersion 1 (-2))) = mkVersion 1 (-2).
Proof. apply version_order_and_text. unfold version_ok, in_itype. cbn. lia. Defined.

End Version.

(** ** Interned strings *)

Module InternedStrings.

(** The map's keys are views of strings in memory: their characters and their address.
    Addresses are handed out in order. *)
Record InternedStrings := mkInterned { values_ : list (str * nat); allocated : nat }.

(** The view of a C string ends at the first null. *)
Definition c_str (s : str) : str :=
  match find_first_of s ["000"%char] with Some n => take n s | None => s end.

Definition find (s : str) (l : list (str * nat)) : option (str * nat) := snd <$> list_find (fun x => x.1 = s) l.

(** [intern]: the text is copied, and the view of the copy is put into the map, unless it
    is there, which it may be when the text was not: the view is shorter. *)
Definition intern (s : str) (t : InternedStrings) : (str * nat) * InternedStrings :=
  match find s (values_ t) with
  | Some v => (v, t)
  | None =>
      let v := (c_str s, allocated t) in
      match find (c_str s) (values_ t) with
      | Some w => (w, mkInterned (values_ t) (S (allocated t)))
      | None => (v, mkInterned (values_ t ++ [v]) (S (allocated t)))
      end
  end.

Definition new_interned : InternedStrings := mkInterned [] 0.

Fixpoint intern_all (ss : list str) (t : InternedStrings) : list (str * nat) * InternedStrings :=
  match ss with
  | [] => ([], t)
  | s :: ss => let '(v, t) := intern s t in let '(vs, t) := intern_all ss t in (v :: vs, t)
  end.

Definition no_null (s : str) : Prop := ("000"%char ∉ s).

Lemma c_str_no_null s : no_null s -> c_str s = s.
Proof.
  intros Hs. unfold c_str, find_first_of. destruct (list_find _ s) as [[i c]|] eqn:E; [|done].
  apply list_find_Some in E as (Hi & Hc & _). apply list_elem_of_singleton in Hc as ->. destruct Hs. by eapply list_elem_of_lookup_2.
Qed.

Lemma find_spec s l v : find s l = Some v -> v ∈ l /\ v.1 = s.
Proof.
  unfold find. destruct (list_find _ l) as [[i w]|] eqn:E; [|done]. intros [= <-].
  apply list_find_Some in E as (Hi & Hw & _). split; [by eapply list_elem_of_lookup_2 | done].
Qed.

Lemma find_none s l v : find s l = None -> v ∈ l -> v.1 <> s.
Proof.
  unfold find. destruct (list_find _ l) as [[i w]|] eqn:E; [done|]. intros _ Hv. apply list_find_None in E.
  rewrite Forall_forall in E. by apply E.
Qed.

Record interned_ok (t : InternedStrings) : Prop := {
  ok_texts : NoDup (map fst (values_ t));
  ok_addrs : map snd (values_ t) = seq 0 (allocated t)
}.

Lemma intern_ok s t : no_null s -> interned_ok t ->
  let '(v, t') := intern s t in
  interned_ok t' /\ v.1 = s /\ v ∈ values_ t' /\ values_ t `prefix_of` values_ t'.
Proof.
  intros Hs [Ht Ha]. unfold intern. rewrite (c_str_no_null s Hs). destruct (find s (values_ t)) as [v|] eqn:E.
  - apply find_spec in E as [Hv E]. by split.
  - split; [split; cbn [values_ allocated]|].
    + rewrite map_app. apply NoDup_app. split; [done|]. split; [|apply NoDup_singleton].
      intros x Hx Hin. apply list_elem_of_singleton in Hin as ->. apply list_elem_of_fmap in Hx as (v & Ev & Hv).
      by apply (find_none s _ v E Hv).
    + by rewrite map_app, Ha, seq_S.
    + cbn. split; [done|]. split; [apply elem_of_app; right; by left | by eexists].
Qed.

Lemma intern_all_ok ss t : Forall no_null ss -> interned_ok t ->
  let '(vs, t') := intern_all ss t in
  interned_ok t' /\ map fst vs = ss /\ Forall (fun v => v ∈ values_ t') vs /\ values_ t `prefix_of` values_ t'.
Proof.
  intros Hs. revert t. induction Hs as [|s ss Hs Hss IH]; intros t Ht; [done|]. cbn [intern_all].
  pose proof (intern_ok s t Hs Ht) as H1. destruct (intern s t) as [v t1]. destruct H1 as (Ht1 & Hv & Hin & Hp).
  specialize (IH t1 Ht1). destruct (intern_all ss t1) as [vs t2]. destruct IH as (Ht2 & Hvs & Hins & Hp2).
  split; [done|]. split; [by cbn; rewrite Hv, Hvs|]. split; [|by etransitivity]. constructor; [|done].
  destruct Hp2 as [k ->]. apply elem_of_app. by left.
Qed.

Lemma interned_injective t v w : interned_ok t -> v ∈ values_ t -> w ∈ values_ t -> v.2 = w.2 <-> v.1 = w.1.
Proof.
  intros [Ht Ha] Hv Hw. apply list_elem_of_lookup_1 in Hv as [i Hi]. apply list_elem_of_lookup_1 in Hw as [j Hj].
  assert (NoDup (map snd (values_ t))) as Hn by (rewrite Ha; apply NoDup_seq).
  assert (i = j -> v = w) as Hij by (intros ->; congruence). split; intros E.
  - f_equal. apply Hij. apply (NoDup_lookup _ i j v.2 Hn); [by rewrite list_lookup_fmap, Hi | by rewrite list_lookup_fmap, Hj, E].
  - f_equal. apply Hij. apply (NoDup_lookup _ i j v.1 Ht); [by rewrite list_lookup_fmap, Hi | by rewrite list_lookup_fmap, Hj, E].
Qed.

(** Interned strings can be compared by their address: strings without null that are
    interned in any order are returned with their text, two of them at the same
    address if and only if they are equal, and one copy is made of each. *)
Theorem interned_by_address (ss : list str) :
  Forall no_null ss ->
  let '(vs, t) := intern_all ss new_interned in
  map fst vs = ss
  /\ (forall i j v w, vs !! i = Some v -> vs !! j = Some w -> (v.2 = w.2 <-> v.1 = w.1))
  /\ allocated t = length (values_ t) /\ NoDup (map fst (values_ t)).
Proof.
  intros Hs. pose proof (intern_all_ok ss new_interned Hs) as H. destruct (intern_all ss new_interned) as [vs t].
  destruct H as (Ht & Hvs & Hin & _); [by split; [constructor|]|]. split; [exact Hvs|]. rewrite Forall_forall in Hin. split_and!.
  - intros i j v w Hv Hw. apply (interned_injective t); [done | |]; apply Hin; by eapply list_elem_of_lookup_2.
  - pose proof (f_equal length (ok_addrs _ Ht)) as E. rewrite length_map, length_seq in E. done.
  - apply Ht.
Qed.

Lemma interned_by_address_witness :
  let '(vs, t) := intern_all [lit "a"; lit "b"; lit "a"] new_interned in
  map fst vs = [lit "a"; lit "b"; lit "a"]
  /\ (forall i j v w, vs !! i = Some v -> vs !! j = Some w -> (v.2 = w.2 <-> v.1 = w.1))
  /\ allocated t = length (values_ t) /\ NoDup (map fst (values_ t)).
Proof. apply (interned_by_address [lit "a"; lit "b"; lit "a"]). repeat constructor; by apply (bool_decide_unpack _); vm_compute. Defined.

(** A text with a null is cut off at it, and two of them become one. *)
Example null_is_cut :
  fst (intern_all [["a"; "000"; "b"]; ["a"; "000"; "c"]]%char new_interned) = [(["a"], 0%nat); (["a"], 0%nat)]%char.
Proof. vm_compute. done. Qed.

End InternedStrings.
