(* ===== verification/HttpClnt.v ===== *)
(** * HTTP clients

    Models [HttpClnt] of [toolbox/http/Clnt.hpp]: the client that connects again, on a
    timer, whenever it has no connection, and resolves its address again when connecting
    fails.  It is a connector (file Connector), whose callbacks are here the client's;
    the timer, the resolver and the connections are inputs. *)
From S2P Require Import Prelude Epoll Connector.
#[local] Open Scope Z_scope.

(** The future of the resolver: none, waiting, or an address or an error. *)
Inductive AddrInfoFuture := Invalid | Waiting | Result (r : option nat).

(** The client's members; the connections of its list are their descriptors. *)
Record HttpClnt := mkClnt {
  net_ : net; aifuture_ : AddrInfoFuture; clnt_ep_ : nat; inprogress_ : bool; conn_list_ : list Z
}.

Section client.
Context `{K : Kernel}.
Variable conn_slot : Z.

Definition set_future (f : AddrInfoFuture) (x : HttpClnt) : HttpClnt :=
  mkClnt (net_ x) f (clnt_ep_ x) (inprogress_ x) (conn_list_ x).
Definition set_progress (b : bool) (x : HttpClnt) : HttpClnt :=
  mkClnt (net_ x) (aifuture_ x) (clnt_ep_ x) b (conn_list_ x).

(** [on_sock_connect] and [on_sock_connect_error]; the constructor of the connection may
    throw, which [made] tells. *)
Definition on_call (made : bool) (x : HttpClnt) (c : call) : HttpClnt :=
  match c with
  | OnConnect n _ _ =>
      mkClnt (net_ x) (aifuture_ x) (clnt_ep_ x) false (conn_list_ x ++ (if made then [n] else []))
  | OnError _ => set_progress false (set_future Waiting x)
  | Started _ _ | OnAccept _ => x
  end.

(** The callbacks that the connector made. *)
Definition callbacks (made : bool) (w : net) (x : HttpClnt) : HttpClnt :=
  foldl (on_call made) (mkClnt w (aifuture_ x) (clnt_ep_ x) (inprogress_ x) (conn_list_ x))
    (drop (length (log (net_ x))) (log w)).

(** The end of [on_timer]; a connection that is made takes the socket over. *)
Definition reconnect (prepared : bool) (ec : Z) (made : bool) (x : HttpClnt) : HttpClnt :=
  let '(r, w) := act conn_slot (Connect (clnt_ep_ x) prepared ec made [] (negb made) false) (net_ x) in
  let x := callbacks made w x in
  match r with Returned false => set_progress true x | _ => x end.

Definition on_timer (prepared : bool) (ec : Z) (made : bool) (x : HttpClnt) : HttpClnt :=
  if negb (bool_decide (conn_list_ x = [])) || inprogress_ x then x
  else
    match aifuture_ x with
    | Waiting => x
    | Result None => set_future Waiting x
    | Result (Some ep) => reconnect prepared ec made (mkClnt (net_ x) Invalid ep (inprogress_ x) (conn_list_ x))
    | Invalid => reconnect prepared ec made x
    end.

(** The timer, with what happens when it connects; an event of the poller, with the error
    of the socket; the resolver's answer; a connection that ends and leaves the list. *)
Inductive event :=
| Tick (prepared : bool) (ec : Z) (made : bool)
| SockReady (ev : Epoll.event) (err : Z) (made : bool)
| Resolved (r : option nat)
| ConnClosed (n : Z).

Definition handle (e : event) (x : HttpClnt) : HttpClnt :=
  match e with
  | Tick prepared ec made => on_timer prepared ec made x
  | SockReady ev err made =>
      callbacks made (run_step conn_slot (Ready ev err (mkBehaviour made [] (negb made)) (mkBehaviour false [] false)) (net_ x)) x
  | Resolved r => match aifuture_ x with Waiting => set_future (Result r) x | _ => x end
  | ConnClosed n =>
      if decide (n ∈ conn_list_ x)
      then mkClnt (act conn_slot (CloseTaken n) (net_ x)).2 (aifuture_ x) (clnt_ep_ x) (inprogress_ x) (filter (.≠ n) (conn_list_ x))
      else x
  end.
Definition handles (es : list event) (x : HttpClnt) : HttpClnt := foldl (fun x e => handle e x) x es.

(** The constructor. *)
Definition new_client (tfd nfd hint : Z) (others : gset Z) (ep : nat) : HttpClnt :=
  mkClnt (new_net tfd nfd hint others) Invalid ep false [].

(** ** At most one connection *)

Section inv.
Context {KL : KernelLaws K}.
Variables (tfd nfd : Z) (base : gset Z).
Hypothesis Htfd : tfd ∈ base.
Hypothesis Hnfd : nfd ∈ base.

Record client_ok (x : HttpClnt) : Prop := {
  c_net : net_ok conn_slot tfd nfd base [] (net_ x);
  c_conns : handed (net_ x) = conn_list_ x;
  c_progress : inprogress_ x = bool_decide (sock_ (conn (net_ x)) <> None);
  c_one : (length (option_list (sock_ (conn (net_ x))) ++ conn_list_ x) <= 1)%nat
}.

Lemma callbacks_log made w x l : log w = log (net_ x) ++ l ->
  callbacks made w x = foldl (on_call made) (mkClnt w (aifuture_ x) (clnt_ep_ x) (inprogress_ x) (conn_list_ x)) l.
Proof. intros E. unfold callbacks. by rewrite E, drop_app_length. Qed.

Lemma start_log n ep w : log (start conn_slot n ep w) = log w ++ [Started n ep]
  /\ sock_ (conn (start conn_slot n ep w)) = Some n /\ handed (start conn_slot n ep w) = handed w.
Proof.
  unfold start. destruct (reset _ _) as [h e]. destruct (add_slot _ _ _ e) as [h2 e2]. by destruct (sock_ (conn w)).
Qed.

Lemma reconnect_ok prepared ec made x : client_ok x -> conn_list_ x = [] -> inprogress_ x = false ->
  client_ok (reconnect prepared ec made x).
Proof.
  intros [Hn Hc Hp Ho] Hl Hi.
  assert (sock_ (conn (net_ x)) = None) as Hs.
  { rewrite Hi in Hp. symmetry in Hp. apply bool_decide_eq_false in Hp. destruct (sock_ _); [by destruct Hp | done]. }
  pose proof (act_ok conn_slot tfd nfd base Htfd Hnfd (Connect (clnt_ep_ x) prepared ec made [] (negb made) false) [] (net_ x) Hn) as H1.
  unfold reconnect. cbn [act] in *. destruct (new_fd (fds (net_ x))) as [n|].
  2: { rewrite (callbacks_log made _ x []) by (by rewrite app_nil_r). split; cbn; try done. }
  destruct prepared; cbn [negb] in *.
  2: { rewrite (callbacks_log made _ x []) by (by rewrite app_nil_r). by split. }
  destruct (ec =? 0).
  - cbn [run_body] in *. rewrite (callbacks_log made _ x [OnConnect n (clnt_ep_ x) false]) by (by destruct made).
    destruct made; cbn [negb give finish] in *; (split; cbn; [exact H1 | by rewrite Hc, Hl | by rewrite Hs | rewrite Hs, Hl; cbn; lia]).
  - destruct (ec =? EINPROGRESS).
    + destruct (start_log n (clnt_ep_ x) (open_fd n (net_ x))) as (El & Es & Eh).
      rewrite (callbacks_log made _ x [Started n (clnt_ep_ x)]) by exact El.
      split; cbn in *; [exact H1 | by rewrite Eh, Hc | by rewrite Es | rewrite Es, Hl; cbn; lia].
    + rewrite (callbacks_log made _ x []) by (by rewrite app_nil_r). by split.
Qed.

Lemma sock_ready_ok ev err made x : client_ok x -> client_ok (handle (SockReady ev err made) x).
Proof.
  intros Hx. pose proof Hx as [Hn Hc Hp Ho]. cbn [handle].
  pose proof (run_steps_ok conn_slot tfd nfd base Htfd Hnfd
    [Ready ev err (mkBehaviour made [] (negb made)) (mkBehaviour false [] false)] (net_ x) Hn) as H1.
  cbn [run_steps foldl] in H1. revert H1. cbn [run_step].
  assert (client_ok (callbacks made (net_ x) x)) as Hsame.
  { rewrite (callbacks_log made _ x []) by (by rewrite app_nil_r). by split. }
  destruct (due_callback _ ev) as [i|] eqn:Ei; [|done]. destruct (_ =? _); [|done]. intros H1.
  destruct (due_pending conn_slot tfd nfd base ev (net_ x) i [] Hn Ei) as (n & En).
  assert (conn_list_ x = []) as Hl.
  { rewrite En in Ho. cbn in Ho. apply nil_length_inv. lia. }
  unfold on_io_event in *. rewrite En in *. destruct (reset _ _) as [h e]. destruct (err =? 0).
  - cbn in *. destruct made; cbn in *.
    + rewrite (callbacks_log true _ x [OnConnect n (ep_ (conn (net_ x))) true]) by done.
      split; cbn; [exact H1 | by rewrite Hc, Hl | done | by rewrite Hl].
    + rewrite (callbacks_log false _ x [OnConnect n (ep_ (conn (net_ x))) true; OnError None]) by (cbn; by rewrite <- app_assoc).
      split; cbn; [exact H1 | by rewrite Hc, Hl | done | rewrite Hl; cbn; lia].
  - rewrite (callbacks_log made _ x [OnError (Some err)]) by done.
    split; cbn; [exact H1 | done | done | rewrite Hl; cbn; lia].
Qed.

Lemma handle_ok e x : client_ok x -> client_ok (handle e x).
Proof.
  intros Hx. destruct e as [prepared ec made | ev err made | r | n]; [| by apply sock_ready_ok | |]; cbn [handle].
  - unfold on_timer. destruct (bool_decide_reflect (conn_list_ x = [])) as [Hl | ?]; [|done].
    destruct (inprogress_ x) eqn:Hi; [done|]. cbn [negb orb]. destruct (aifuture_ x) as [| | [ep|]]; [| done | |].
    + by apply reconnect_ok.
    + apply reconnect_ok; [|done | done]. destruct Hx as [Hn Hc Hp Ho]. rewrite Hi in Hp. by split.
    + destruct Hx as [Hn Hc Hp Ho]. by split.
  - destruct (aifuture_ x); [done | | done]. destruct Hx as [Hn Hc Hp Ho]. by split.
  - case_decide as Hn; [|done]. destruct Hx as [Hnet Hc Hp Ho].
    pose proof (close_taken_ok conn_slot tfd nfd base [] (net_ x) n Hnet) as H1. cbn [act snd] in *. rewrite Hc in *. rewrite decide_True in * by done.
    split; cbn in *; [exact H1 | done | exact Hp |].
    rewrite length_app in *. pose proof (length_filter (.≠ n) (conn_list_ x)). lia.
Qed.

Lemma handles_ok es x : client_ok x -> client_ok (handles es x).
Proof. revert x. induction es as [|e es IH]; intros x Hx; [done|]. apply IH, handle_ok, Hx. Qed.

Lemma new_client_ok hint others ep : base = {[tfd; nfd]} ∪ others -> tfd <> nfd -> 0 <= tfd -> 0 <= nfd < 2 ^ 31 -> hint <= 2 ^ 31 ->
  client_ok (new_client tfd nfd hint others ep).
Proof. intros Hb Hne Ht Hn Hh. split; cbn; [by apply new_net_ok | done | done | lia]. Qed.

End inv.


Lemma tick_connects x : conn_list_ x = [] -> inprogress_ x = false -> is_Some (new_fd (fds (net_ x))) ->
  match aifuture_ x with Invalid | Result (Some _) => conn_list_ (handle (Tick true 0 true) x) <> [] | _ => True end.
Proof.
  intros Hl Hi [n Hn]. cbn [handle]. unfold on_timer. rewrite bool_decide_true, Hi by done. cbn [negb orb].
  assert (forall y, conn_list_ y = [] -> fds (net_ y) = fds (net_ x) -> conn_list_ (reconnect true 0 true y) <> []) as Hr.
  { intros y Hy Hf. unfold reconnect. cbn [act]. rewrite Hf, Hn. cbn [negb Z.eqb run_body].
    rewrite (callbacks_log true _ y [OnConnect n (clnt_ep_ y) false]) by done. cbn. by rewrite Hy. }
  destruct (aifuture_ x) as [| | [ep|]]; [by apply Hr | done | by apply Hr | done].
Qed.

(** A client never gets stuck: after any events, while there is a descriptor to be
    had, three more (the resolver's answer, ticks of the timer, or the event of the
    pending socket) connect it, if they succeed. *)
Theorem client_recovers (tfd nfd hint : Z) (others : gset Z) (ep : nat) (es : list event) :
  KernelLaws K -> tfd <> nfd -> 0 <= tfd -> 0 <= nfd < 2 ^ 31 -> hint <= 2 ^ 31 ->
  let x := handles es (new_client tfd nfd hint others ep) in
  is_Some (new_fd (fds (net_ x))) ->
  exists es', (length es' <= 3)%nat /\ conn_list_ (handles es' x) <> [].
Proof.
  intros HK Hne Ht Hn Hh x Hfd.
  destruct (handles_ok tfd nfd ({[tfd; nfd]} ∪ others) ltac:(set_solver) ltac:(set_solver) es _
    (new_client_ok tfd nfd _ hint others ep eq_refl Hne Ht Hn Hh)) as [Hnet Hc Hp Ho]. fold x in Hnet, Hc, Hp, Ho.
  destruct (conn_list_ x) as [|c l] eqn:El; [|exists []; split; [cbn; lia | by cbn; rewrite El]].
  destruct (sock_ (conn (net_ x))) as [n|] eqn:Es; cbn in Hp.
  - exists [SockReady (mkEvent EpollOut (pack n 1)) 0 true]. split; [cbn; lia|]. cbn [handles foldl handle run_step].
    destruct (pending_due conn_slot tfd nfd _ (net_ x) [] n EpollOut Hnet Es) as (i & -> & ->); [by vm_compute|].
    rewrite Z.eqb_refl. unfold on_io_event. destruct (reset _ _) as [h e]. rewrite Es. cbn.
    rewrite (callbacks_log true _ x [OnConnect n (ep_ (conn (net_ x))) true]) by done. cbn. by rewrite El.
  - destruct (aifuture_ x) as [| | [a|]] eqn:Ea.
    + exists [Tick true 0 true]. split; [cbn; lia|]. pose proof (tick_connects x El Hp Hfd) as H. by rewrite Ea in H.
    + exists [Resolved (Some 0%nat); Tick true 0 true]. split; [cbn; lia|].
      pose proof (tick_connects (set_future (Result (Some 0%nat)) x) El Hp Hfd) as H. cbn [handles foldl handle]. by rewrite Ea.
    + exists [Tick true 0 true]. split; [cbn; lia|]. pose proof (tick_connects x El Hp Hfd) as H. by rewrite Ea in H.
    + exists [Tick true 0 true; Resolved (Some 0%nat); Tick true 0 true]. split; [cbn; lia|].
      pose proof (tick_connects (set_future (Result (Some 0%nat)) x) El Hp Hfd) as H.
      cbn [handles foldl handle]. replace (on_timer true 0 true x) with (set_future Waiting x); [exact H|].
      unfold on_timer. by rewrite bool_decide_true, Hp, Ea.
Qed.

End client.

(** A client that is refused, resolves its address, connects at once but fails to make the
    connection, connects again later and loses the connection. *)
Definition client_session : list event :=
  [Tick true EINPROGRESS true; SockReady (mkEvent EpollErr (pack 5 1)) 111 true; Tick true 0 true; Resolved (Some 9%nat);
   Tick true 0 false; Tick true EINPROGRESS true; Tick true EINPROGRESS true; SockReady (mkEvent EpollOut (pack 5 1)) 0 true; ConnClosed 5].

Example client_log :
  let x := @handles low_fds 7 client_session (new_client 3 4 16 {[0; 1; 2]} 1) in
  log (net_ x) = [Started 5 1; OnError (Some 111); OnConnect 5 9 false; Started 5 9; OnConnect 5 9 true]
  /\ conn_list_ x = [] /\ inprogress_ x = false.
Proof. vm_compute. done. Qed.


Lemma client_recovers_witness :
  exists es', (length es' <= 3)%nat
    /\ conn_list_ (@handles low_fds 7 es' (@handles low_fds 7 client_session (new_client 3 4 16 {[0; 1; 2]} 1))) <> [].
Proof.
  apply (@client_recovers low_fds 7 3 4 16 {[0; 1; 2]} 1 client_session);
    [apply low_fds_laws | lia | lia | lia | lia | vm_compute; by eexists].
Defined.
