(* ===== verification/Handle.v ===== *)
(** * Handles of descriptors

    Models [BasicHandle] of [toolbox/io/Handle.hpp], which owns a descriptor and closes it:
    the sockets, timers and events of the library are such handles.  A program has
    variables of this type; every descriptor that it opens is told apart by a number, in
    the order in which they are opened. *)
From S2P Require Import Prelude.
#[local] Open Scope Z_scope.

Definition invalid : Z := -1.

(** The variables, those that are empty or not alive having the invalid descriptor; how
    many descriptors were opened; those that were closed; those that were released. *)
Record program := mkProgram { id_ : list Z; opened : nat; closed : list Z; released : list Z }.

Definition get (i : nat) (p : program) : Z := nth i (id_ p) invalid.
Definition set (i : nat) (id : Z) (p : program) : program :=
  mkProgram (<[i := id]> (id_ p)) (opened p) (closed p) (released p).

(** What the destructor and [reset] do with a descriptor. *)
Definition close (id : Z) (p : program) : program :=
  if id =? invalid then p else mkProgram (id_ p) (opened p) (closed p ++ [id]) (released p).

Definition empty (i : nat) (p : program) : bool := get i p =? invalid.

Definition reset_to (i : nat) (id : Z) (p : program) : program :=
  let old := get i p in close old (set i id p).
Definition reset (i : nat) (p : program) : program := reset_to i invalid p.
Definition destroy (i : nat) (p : program) : program := close (get i p) (set i invalid p).

(** The move constructor, of a variable that is not alive. *)
Definition move_construct (i j : nat) (p : program) : program :=
  let id := get j p in set j invalid (set i id p).

Definition swap (i j : nat) (p : program) : program :=
  let a := get i p in let b := get j p in set j a (set i b p).
Definition move_assign (i j : nat) (p : program) : program := swap i j (reset i p).

Definition release (i : nat) (p : program) : program :=
  let id := get i p in
  let p := set i invalid p in
  if id =? invalid then p else mkProgram (id_ p) (opened p) (closed p) (released p ++ [id]).

(** A descriptor is opened. *)
Definition open_new (p : program) : Z * program :=
  (Z.of_nat (opened p), mkProgram (id_ p) (S (opened p)) (closed p) (released p)).

(** What a program does with its variables; a new variable ends the life of the one that
    had its name. *)
Inductive op :=
| Construct (i : nat) | MoveConstruct (i j : nat) | MoveAssign (i j : nat) | ResetTo (i : nat) | Reset (i : nat)
| Release (i : nat) | Swap (i j : nat) | Destroy (i : nat).

Definition run_op (o : op) (p : program) : program :=
  match o with
  | Construct i => let '(id, p) := open_new (destroy i p) in set i id p
  | MoveConstruct i j => if decide (i = j) then p else move_construct i j (destroy i p)
  | MoveAssign i j => move_assign i j p
  | ResetTo i => let '(id, p) := open_new p in reset_to i id p
  | Reset i => reset i p
  | Release i => release i p
  | Swap i j => swap i j p
  | Destroy i => destroy i p
  end.
Definition run_ops (os : list op) (p : program) : program := foldl (fun p o => run_op o p) p os.

Definition new_program (n : nat) : program := mkProgram (replicate n invalid) 0 [] [].

(** The variables that an operation names are there. *)
Definition names (o : op) : list nat :=
  match o with
  | Construct i | ResetTo i | Reset i | Release i | Destroy i => [i]
  | MoveConstruct i j | MoveAssign i j | Swap i j => [i; j]
  end.

(** ** Where the descriptors are *)

Definition owned_by (id : Z) : list Z := if id =? invalid then [] else [id].
Definition held (l : list Z) : list Z := flat_map owned_by l.

Definition places (p : program) : list Z := held (id_ p) ++ closed p ++ released p.

Lemma held_insert l i id : (i < length l)%nat -> held (<[i := id]> l) ++ owned_by (nth i l invalid) ≡ₚ held l ++ owned_by id.
Proof.
  intros Hi. destruct (lookup_lt_is_Some_2 l i Hi) as [x Hx]. rewrite (nth_lookup_Some _ _ _ _ Hx).
  rewrite insert_take_drop by done. rewrite <- (take_drop_middle l i x Hx) at 3. unfold held. rewrite !flat_map_app. cbn [flat_map].
  solve_Permutation.
Qed.

Lemma places_set i id p : (i < length (id_ p))%nat -> places (set i id p) ++ owned_by (get i p) ≡ₚ places p ++ owned_by id.
Proof.
  intros Hi. unfold places. cbn [id_ closed released set]. unfold get.
  pose proof (held_insert (id_ p) i id Hi) as E. revert E. generalize (held (<[i := id]> (id_ p))), (held (id_ p)), (owned_by id), (owned_by (nth i (id_ p) invalid)).
  intros a b c d E. rewrite <- !app_assoc. rewrite (Permutation_app_comm (released p) d), (Permutation_app_comm (released p) c).
  rewrite (app_assoc (closed p) d), (app_assoc (closed p) c), (Permutation_app_comm (closed p) d), (Permutation_app_comm (closed p) c).
  rewrite <- !app_assoc, !app_assoc. by rewrite E.
Qed.

Lemma places_close id p : places (close id p) ≡ₚ places p ++ owned_by id.
Proof.
  unfold close, owned_by, places. destruct (id =? invalid); [by rewrite app_nil_r|]. cbn [id_ closed released]. solve_Permutation.
Qed.

Lemma length_set i id p : length (id_ (set i id p)) = length (id_ p).
Proof. apply length_insert. Qed.

Lemma length_close id p : length (id_ (close id p)) = length (id_ p).
Proof. unfold close. by destruct (_ =? _). Qed.

Lemma opened_close id p : opened (close id p) = opened p.
Proof. unfold close. by destruct (_ =? _). Qed.

(** An operation keeps the descriptors, with those that it opens. *)
Definition moves (f : program -> program) (p : program) : Prop :=
  places (f p) ≡ₚ places p /\ length (id_ (f p)) = length (id_ p) /\ opened (f p) = opened p.

Lemma reset_to_places i id p : (i < length (id_ p))%nat -> places (reset_to i id p) ≡ₚ places p ++ owned_by id.
Proof. intros Hi. unfold reset_to. by rewrite places_close, places_set. Qed.

Lemma destroy_moves i p : (i < length (id_ p))%nat -> moves (destroy i) p.
Proof.
  intros Hi. split; [|by unfold destroy; rewrite length_close, length_set, opened_close]. unfold destroy. rewrite places_close, places_set by done.
  change (owned_by invalid) with (@nil Z). by rewrite app_nil_r.
Qed.

Lemma get_set_eq i id p : (i < length (id_ p))%nat -> get i (set i id p) = id.
Proof. intros Hi. unfold get. cbn [id_ set]. apply nth_lookup_Some. by apply list_lookup_insert_eq. Qed.

Lemma get_set_ne i j id p : i <> j -> get i (set j id p) = get i p.
Proof. intros Hij. unfold get. cbn [id_ set]. rewrite !nth_lookup. by rewrite list_lookup_insert_ne. Qed.

Lemma swap_moves i j p : (i < length (id_ p))%nat -> (j < length (id_ p))%nat -> moves (swap i j) p.
Proof.
  intros Hi Hj. split; [|by unfold swap; rewrite !length_set]. unfold swap.
  pose proof (places_set i (get j p) p Hi) as E1.
  pose proof (places_set j (get i p) (set i (get j p) p) ltac:(by rewrite length_set)) as E2.
  destruct (decide (i = j)) as [-> | Hij].
  - rewrite get_set_eq in E2 by done. apply (Permutation_app_inv_r (owned_by (get j p))). by rewrite E2, E1.
  - rewrite get_set_ne in E2 by done. apply (Permutation_app_inv_r (owned_by (get j p))). rewrite E2, E1. done.
Qed.

Lemma release_moves i p : (i < length (id_ p))%nat -> moves (release i) p.
Proof.
  intros Hi. pose proof (places_set i invalid p Hi) as E. change (owned_by invalid) with (@nil Z) in E. rewrite app_nil_r in E.
  unfold release, moves. rewrite <- E. unfold owned_by, places. destruct (get i p =? invalid).
  - rewrite app_nil_r, length_set. done.
  - cbn [id_ closed released opened set]. rewrite length_insert. split; [solve_Permutation | done].
Qed.

Lemma move_construct_moves i j p : i <> j -> (i < length (id_ p))%nat -> (j < length (id_ p))%nat -> get i p = invalid ->
  moves (move_construct i j) p.
Proof.
  intros Hij Hi Hj Hinv. split; [|by unfold move_construct; rewrite !length_set]. unfold move_construct.
  pose proof (places_set i (get j p) p Hi) as E1. rewrite Hinv in E1. change (owned_by invalid) with (@nil Z) in E1. rewrite app_nil_r in E1.
  pose proof (places_set j invalid (set i (get j p) p) ltac:(by rewrite length_set)) as E2.
  rewrite get_set_ne in E2 by done. change (owned_by invalid) with (@nil Z) in E2. rewrite app_nil_r, E1 in E2.
  by apply Permutation_app_inv_r in E2.
Qed.

(** Every descriptor that was opened is in one place. *)
Definition accounted (p : program) : Prop := places p ≡ₚ map Z.of_nat (seq 0 (opened p)).

Lemma moves_accounted f p : moves f p -> accounted p -> accounted (f p).
Proof. intros (E & _ & Eo) Hp. unfold accounted. by rewrite E, Eo. Qed.

Lemma open_accounted p i : (i < length (id_ p))%nat -> accounted p -> let '(id, q) := open_new p in accounted (reset_to i id q).
Proof.
  intros Hi Hp. unfold open_new. cbn. unfold accounted in *. rewrite reset_to_places by done.
  unfold reset_to. rewrite opened_close. cbn [opened set]. rewrite seq_S, map_app. cbn [map]. rewrite <- Hp.
  unfold places, owned_by. cbn [id_ closed released]. unfold invalid. destruct (Z.eqb_spec (Z.of_nat (opened p)) (-1)); [lia|]. done.
Qed.

Lemma op_accounted o p : Forall (fun i => (i < length (id_ p))%nat) (names o) -> accounted p ->
  accounted (run_op o p) /\ length (id_ (run_op o p)) = length (id_ p).
Proof.
  assert (forall i, length (id_ (reset i p)) = length (id_ p)) as Hlr by (intros; unfold reset, reset_to; by rewrite length_close, length_set).
  intros Hn Hp. destruct o as [i | i j | i j | i | i | i | i j | i]; cbn [names run_op] in *; decompose_Forall.
  - destruct (destroy_moves i p) as (E & El & Eo); [done|].
    assert (get i (destroy i p) = invalid) as Hg.
    { unfold destroy. unfold get at 1. unfold close. destruct (_ =? _); apply (get_set_eq i invalid p); done. }
    pose proof (open_accounted (destroy i p) i ltac:(by rewrite El) ltac:(unfold accounted; by rewrite E, Eo)) as H1.
    unfold open_new in *. unfold reset_to, get in H1. cbn [id_] in H1. unfold get in Hg. rewrite Hg in H1.
    split; [exact H1|]. cbn. rewrite length_insert. exact El.
  - case_decide as Hij; [done|]. pose proof (destroy_moves i p ltac:(done)) as Hd. pose proof Hd as (_ & El & _).
    assert (get i (destroy i p) = invalid) as Hg.
    { unfold destroy. unfold get at 1. unfold close. destruct (_ =? _); apply (get_set_eq i invalid p); done. }
    pose proof (move_construct_moves i j (destroy i p) Hij ltac:(by rewrite El) ltac:(by rewrite El) Hg) as Hm.
    split; [by apply moves_accounted, moves_accounted|]. destruct Hm as (_ & -> & _). done.
  - unfold move_assign. pose proof (destroy_moves i p ltac:(done)) as Hd. change (destroy i p) with (reset i p) in Hd.
    pose proof (swap_moves i j (reset i p) ltac:(by rewrite Hlr) ltac:(by rewrite Hlr)) as Hs.
    split; [apply moves_accounted; [done|]; by apply (moves_accounted (reset i))|]. destruct Hs as (_ & El & _). rewrite <- (Hlr i). exact El.
  - pose proof (open_accounted p i ltac:(done) Hp) as H1. unfold open_new in *. split; [exact H1|].
    unfold reset_to. by rewrite length_close, length_set.
  - split; [|apply Hlr]. apply (moves_accounted (destroy i)); [by apply destroy_moves | done].
  - pose proof (release_moves i p ltac:(done)) as Hm. split; [by apply moves_accounted | apply Hm].
  - pose proof (swap_moves i j p ltac:(done) ltac:(done)) as Hm. split; [by apply moves_accounted | apply Hm].
  - pose proof (destroy_moves i p ltac:(done)) as Hm. split; [by apply moves_accounted | apply Hm].
Qed.

Lemma ops_accounted n os p : Forall (fun o => Forall (fun i => (i < n)%nat) (names o)) os -> length (id_ p) = n -> accounted p ->
  accounted (run_ops os p) /\ length (id_ (run_ops os p)) = n.
Proof.
  intros Ho. revert p. induction Ho as [|o os Ho Hos IH]; intros p Hl Hp; [done|]. cbn [run_ops foldl].
  subst n. destruct (op_accounted o p Ho Hp) as [H1 H2]. by apply IH.
Qed.

Lemma new_accounted n : accounted (new_program n).
Proof.
  unfold accounted, places. cbn. rewrite !app_nil_r. induction n as [|n IH]; [done|]. cbn. exact IH.
Qed.

Lemma held_empty l : (forall i, (i < length l)%nat -> nth i l invalid = invalid) -> held l = [].
Proof.
  induction l as [|x l IH]; intros Hl; [done|]. cbn. pose proof (Hl 0%nat ltac:(cbn; lia)) as H0. cbn in H0. subst x. cbn.
  apply IH. intros i Hi. apply (Hl (S i)). cbn. lia.
Qed.

(** C39: Handles close every descriptor once: for any program over any number of handles
    that opens, moves, swaps, assigns (also to itself), resets, releases and destroys,
    every descriptor that was opened is held by exactly one handle, was closed once,
    or was released once; when no handle holds one, all that were not released are
    closed. *)
Theorem handles_close_once (n : nat) (os : list op) :
  Forall (fun o => Forall (fun i => (i < n)%nat) (names o)) os ->
  let p := run_ops os (new_program n) in
  held (id_ p) ++ closed p ++ released p ≡ₚ map Z.of_nat (seq 0 (opened p))
  /\ NoDup (held (id_ p) ++ closed p ++ released p)
  /\ ((forall i, (i < n)%nat -> empty i p = true) -> forall k, 0 <= k < Z.of_nat (opened p) -> k ∈ closed p \/ k ∈ released p).
Proof.
  intros Ho p. destruct (ops_accounted n os (new_program n) Ho) as [Hp Hl]; [apply length_replicate | apply new_accounted |].
  fold p in Hp, Hl. unfold accounted, places in Hp. split; [exact Hp|]. split.
  - rewrite Hp. apply NoDup_fmap_2; [|apply NoDup_seq]. intros x y E. lia.
  - intros He k Hk. assert (k ∈ map Z.of_nat (seq 0 (opened p))) as Hin.
    { apply list_elem_of_fmap. exists (Z.to_nat k). split; [lia|]. apply elem_of_seq. lia. }
    rewrite <- Hp, held_empty in Hin; [cbn [app] in Hin; by apply elem_of_app|].
    intros i Hi. rewrite Hl in Hi. specialize (He i Hi). unfold empty, get in He. by apply Z.eqb_eq in He.
Qed.

Lemma handles_close_once_witness :
  let p := run_ops [Construct 0; Construct 1; MoveAssign 0 1; MoveConstruct 2 0; ResetTo 2; Construct 1; Release 1; Swap 0 2; MoveAssign 0 0; Destroy 2]
    (new_program 3) in
  held (id_ p) ++ closed p ++ released p ≡ₚ map Z.of_nat (seq 0 (opened p))
  /\ NoDup (held (id_ p) ++ closed p ++ released p)
  /\ ((forall i, (i < 3)%nat -> empty i p = true) -> forall k, 0 <= k < Z.of_nat (opened p) -> k ∈ closed p \/ k ∈ released p).
Proof.
  apply (handles_close_once 3 [Construct 0; Construct 1; MoveAssign 0 1; MoveConstruct 2 0; ResetTo 2; Construct 1; Release 1; Swap 0 2; MoveAssign 0 0; Destroy 2]).
  repeat constructor.
Defined.

(** A handle that is reset to the descriptor that it has closes it and keeps it. *)
Example reset_to_own :
  let p := reset_to 0 0 (run_ops [Construct 0] (new_program 1)) in get 0 p = 0 /\ closed p = [0].
Proof. vm_compute. done. Qed.
