(* ===== verification/JsonAccess.v ===== *)
(** * JSON documents: comparing and reading

    Models the comparison of elements and the typed access to them of
    [toolbox/util/Json.hpp]: the getters, which throw when the type is another one, and
    the look up of a field with and without a default, against the values that the
    elements represent (file JsonDoc). *)
From Stdlib Require Import String.
From S2P Require Import Prelude Text Json JsonDoc JsonOps.
#[local] Open Scope nat_scope.

(** ** Getters *)

Definition get_string (e : MutableElement) : outcome str :=
  if negb (is_type [STRING] e) then Throw else match value_ e with str_ s => Ret (take (size_ e) s) | _ => Stuck end.
Definition get_int64 (e : MutableElement) : outcome Z :=
  if negb (is_type [INT64] e) then Throw else int_bits e.
Definition get_uint64 (e : MutableElement) : outcome Z :=
  if negb (is_type [UINT64] e) then Throw else z ← int_bits e; Ret (u64 z).
Definition get_bool (e : MutableElement) : outcome bool :=
  if negb (is_type [BOOL] e) then Throw else match value_ e with bool_ b => Ret b | _ => Stuck end.

(** [to_string], which has no text for doubles, nulls and containers. *)
Definition element_text (e : MutableElement) : outcome str :=
  match element_type_ e, value_ e with
  | STRING, str_ s => Ret (take (size_ e) s)
  | INT64, int_ z => Ret (to_string z)
  | UINT64, int_ z => Ret (to_string (u64 z))
  | BOOL, bool_ b => Ret (to_string (Z.b2z b))
  | (STRING | INT64 | UINT64 | BOOL), _ => Stuck
  | _, _ => Ret []
  end.

(** The types that a program reads: those with a getter, another integer type, and
    [double], which are read from the text; [stod] is a parameter. *)
Inductive target := TString | TInt64 | TUInt64 | TBool | TInteger (t : itype) | TDouble.

Section reading.
Context (stod : str -> Z).

Definition get (t : target) (e : MutableElement) : outcome scalar :=
  match t with
  | TString => s ← get_string e; Ret (SStr s)
  | TInt64 => z ← get_int64 e; Ret (SInt z)
  | TUInt64 => z ← get_uint64 e; Ret (SUInt z)
  | TBool => b ← get_bool e; Ret (SBool b)
  | TInteger t => s ← element_text e; Ret (SInt (ston t s))
  | TDouble => s ← element_text e; Ret (SDouble (stod s))
  end.

(** [value] and, for objects, [value_or]. *)
Definition value (t : target) (x : nat) (k : str) (d : MutableDocument) : outcome scalar :=
  it ← find_key x k d;
  match it with None => Throw | Some y => e ← deref y d; get t e end.

(** [std::atoi], as far as it is defined, converted to an index. *)
Definition index_of (k : str) : Z := u64 (ston (mkItype 32 true) k).

Definition value_or (t : target) (x : nat) (k : str) (dflt : scalar) (d : MutableDocument) : outcome scalar :=
  e ← deref x d;
  match element_type_ e with
  | OBJECT => it ← find_key x k d; match it with None => Ret dflt | Some y => e ← deref y d; get t e end
  | ARRAY => it ← find_index x (Z.to_nat (index_of k)) d; match it with None => Ret dflt | Some y => e ← deref y d; get t e end
  | _ => Ret dflt
  end.

(** What is read of a value. *)
Definition value_text (v : json) : str :=
  match v with
  | JScalar (SStr s) => s
  | JScalar (SInt z) | JScalar (SUInt z) => to_string z
  | JScalar (SBool b) => to_string (Z.b2z b)
  | _ => []
  end.

Definition read (t : target) (v : json) : outcome scalar :=
  match t, v with
  | TString, JScalar (SStr s) => Ret (SStr s)
  | TInt64, JScalar (SInt z) => Ret (SInt z)
  | TUInt64, JScalar (SUInt z) => Ret (SUInt z)
  | TBool, JScalar (SBool b) => Ret (SBool b)
  | TInteger t, v => Ret (SInt (ston t (value_text v)))
  | TDouble, v => Ret (SDouble (stod (value_text v)))
  | _, _ => Throw
  end.

Lemma u64_i64 z : (0 <= z < 2 ^ 64)%Z -> u64 (i64 z) = z.
Proof. intros Hz. unfold wrapu, wraps. rewrite Zminus_mod, Zmod_mod, <- Zminus_mod. rewrite Z.mod_small; lia. Qed.

Lemma get_spec t d v U x e : repr d v U x -> in_range v -> nodes d !! x = Some e -> get t e = read t v.
Proof.
  intros Hr Hin He. destruct v as [s | k l]; destruct Hr as (e' & He' & _ & _ & Ht & Hv); replace e' with e in * by congruence.
  - destruct Hv as (Hv & Hs & _). unfold get, get_string, get_int64, get_uint64, get_bool, element_text, int_bits, is_type. rewrite Ht, Hv, Hs.
    destruct t, s; cbn in *; rewrite ?take_ge, ?u64_i64 by done; done.
  - unfold get, get_string, get_int64, get_uint64, get_bool, element_text, is_type. rewrite Ht.
    destruct t, k; cbn; done.
Qed.

(** ** Finding elements *)

Lemma chain_lookup d R k l : forall ys o U i key v y,
  chain d R k l ys o U -> l !! i = Some (key, v) -> ys !! i = Some y ->
  exists e Uy, nodes d !! y = Some e /\ key_ok k key e /\ R v Uy y.
Proof.
  induction l as [|[key0 v0] l IH]; intros [|y0 ys] o U i key v y; cbn [chain]; try done.
  intros (e & Sy & Sl & -> & He & Hk & Hr & Hc & _) Hl Hy. destruct i as [|i]; [|by apply (IH ys (next_ e) Sl i key v y)].
  cbn in Hl, Hy. injection Hl as <- <-. injection Hy as <-. by exists e, Sy.
Qed.

(** The first element with a key. *)
Fixpoint first (k : str) (l : list (str * json)) : option json :=
  match l with [] => None | (k', v) :: l => if bool_decide (k' = k) then Some v else first k l end.

Lemma first_cases k l :
  match first k l with
  | Some v => exists l1 l2, l = l1 ++ (k, v) :: l2 /\ (k ∉ l1.*1)
  | None => (k ∉ l.*1)
  end.
Proof.
  induction l as [|[k' v] l IH]; [by apply not_elem_of_nil|]. cbn [first]. case_bool_decide as Hk; [subst k'; by exists [], l; split; [|apply not_elem_of_nil]|].
  destruct (first k l) as [w|].
  - destruct IH as (l1 & l2 & -> & Hn). exists ((k', v) :: l1), l2. split; [done|]. rewrite fmap_cons, not_elem_of_cons. done.
  - rewrite fmap_cons, not_elem_of_cons. done.
Qed.

Lemma opened_element d k U x l c ys i key v : opened d k U x l c ys -> l !! i = Some (key, v) ->
  exists y e Uy, ys !! i = Some y /\ nodes d !! y = Some e /\ key_ok k key e /\ repr d v Uy y.
Proof.
  intros (e & _ & _ & _ & _ & _ & _ & Hc) Hl. destruct (chain_props _ _ _ _ _ _ Hc) as (Hlen & _ & _).
  destruct (lookup_lt_is_Some_2 ys i) as [y Hy]; [rewrite Hlen; by eapply lookup_lt_Some|].
  destruct (chain_lookup _ _ _ _ _ _ _ _ _ _ _ Hc Hl Hy) as (ey & Uy & He & Hk & Hr). by exists y, ey, Uy.
Qed.

Lemma find_key_spec d l U x k : wf d -> repr d (JCont Obj l) U x ->
  match first k l with
  | Some v => exists y Uy, find_key x k d = Ret (Some y) /\ repr d v Uy y
  | None => find_key x k d = Ret None
  end.
Proof.
  intros Hwf Hr. apply repr_opened in Hr as (c & ys & Ho). pose proof Ho as (e & He & _ & _ & Ht & _ & Hv & Hc).
  destruct (opened_length d Obj U x l c ys Hwf Ho) as [_ Hfuel].
  assert (find_key x k d = ('(found, _) ← key_loop (fresh d) k None c d; Ret found)) as E.
  { unfold find_key, is_type, child. rewrite (deref_ret x d e He). cbn [mbind outcome_bind]. rewrite Ht, Hv. done. }
  pose proof (first_cases k l) as Hf. destruct (first k l) as [v|].
  - destruct Hf as (l1 & l2 & -> & Hn). destruct (key_loop_found d k l1 v l2 ys c U None (fresh d) Hc Hn Hfuel) as (y & tl & Hloop & Hy).
    destruct (opened_element d Obj U x _ c ys (length l1) k v Ho) as (y' & ey & Uy & Hy' & _ & _ & Hr); [by rewrite lookup_app_r, Nat.sub_diag|].
    exists y, Uy. rewrite E, Hloop. split; [done|]. congruence.
  - rewrite E, (key_loop_missing d k l ys c U None (fresh d) Hc Hf Hfuel). done.
Qed.

Lemma find_index_spec d l U x i : wf d -> repr d (JCont Arr l) U x ->
  match l !! i with
  | Some (_, v) => exists y Uy, find_index x i d = Ret (Some y) /\ repr d v Uy y
  | None => find_index x i d = Ret None
  end.
Proof.
  intros Hwf Hr. apply repr_opened in Hr as (c & ys & Ho). pose proof Ho as (e & He & _ & _ & Ht & Hsz & Hv & Hc).
  destruct (opened_length d Arr U x l c ys Hwf Ho) as [_ Hfuel].
  assert (find_index x i d = if length l <=? i then Ret None else '(found, _, _) ← index_loop (fresh d) 0 i None c d; Ret found) as E.
  { unfold find_index, is_type, child. rewrite (deref_ret x d e He). cbn [mbind outcome_bind]. rewrite Ht, Hv, Hsz. done. }
  rewrite E. destruct (l !! i) as [[key v]|] eqn:El.
  - pose proof (lookup_lt_Some _ _ _ El) as Hi. rewrite (proj2 (Nat.leb_gt _ _)) by lia.
    pose proof (take_drop_middle l i (key, v) El) as Hsplit. pose proof Hc as Hc'. rewrite <- Hsplit in Hc'.
    assert (length (take i l) = i) as Hti by (rewrite length_take; lia).
    destruct (index_loop_found d Arr _ key v _ ys c U None 0 (fresh d) Hc' Hfuel) as (y & tl & Hloop & Hy).
    rewrite Hti in Hloop, Hy. cbn [Nat.add] in Hloop. rewrite Hloop.
    destruct (opened_element d Arr U x l c ys i key v Ho El) as (y' & ey & Uy & Hy' & _ & _ & Hr).
    exists y, Uy. split; [done|]. congruence.
  - apply lookup_ge_None in El. by rewrite (proj2 (Nat.leb_le _ _)) by lia.
Qed.

(** What [value] and [value_or] give for a value. *)
Definition read_value (t : target) (k : str) (v : json) : outcome scalar :=
  match v with
  | JCont Obj l => match first k l with Some w => read t w | None => Throw end
  | _ => Throw
  end.
Definition read_value_or (t : target) (k : str) (dflt : scalar) (v : json) : outcome scalar :=
  match v with
  | JCont Obj l => match first k l with Some w => read t w | None => Ret dflt end
  | JCont Arr l => match l !! Z.to_nat (index_of k) with Some (_, w) => read t w | None => Ret dflt end
  | JScalar _ => Ret dflt
  end.

Lemma first_in_range k l v : in_range (JCont Obj l) -> first k l = Some v -> in_range v.
Proof.
  induction l as [|[k' w] l IH]; [done|]. intros [Hw Hl]. cbn [first]. case_bool_decide; [by intros [= <-]|]. by apply IH.
Qed.

Lemma nth_in_range k l i key v : in_range (JCont k l) -> l !! i = Some (key, v) -> in_range v.
Proof.
  revert i. induction l as [|[k' w] l IH]; intros i; [done|]. intros [Hw Hl]. destruct i as [|i]; [by intros [= <- <-]|]. by apply IH.
Qed.

Lemma read_element t d v U x : repr d v U x -> in_range v -> (e ← deref x d; get t e) = read t v.
Proof.
  intros Hr Hin. destruct (repr_self _ _ _ _ Hr) as (e & He & _). rewrite (deref_ret x d e He). by apply (get_spec t d v U x).
Qed.

(** Reading from a document is reading from its value: a field that is there is read
    if it has the type that is asked for, and throws otherwise; one that is not there
    throws or gives the default; what is no object has no fields, but an array is
    read by the number in the key.  Nothing is followed that is not there. *)
Theorem document_reads_value (t : target) (d : MutableDocument) (v : json) (U : gset nat) (x : nat) (k : str) (dflt : scalar) :
  wf d -> repr d v U x -> in_range v ->
  value t x k d = read_value t k v /\ value_or t x k dflt d = read_value_or t k dflt v.
Proof.
  intros Hwf Hr Hin. destruct v as [s | [|] l].
  - destruct (repr_self _ _ _ _ Hr) as (e & He & _). pose proof Hr as (e' & He' & _ & _ & Ht & _). replace e' with e in * by congruence.
    unfold value, value_or, find_key, is_type. rewrite (deref_ret x d e He). cbn [mbind outcome_bind]. rewrite Ht. by destruct s.
  - pose proof Hr as (e & He & _ & _ & Ht & _). unfold value, value_or. rewrite (deref_ret x d e He). cbn [mbind outcome_bind]. rewrite Ht.
    cbn [type_of]. split; [unfold find_key, is_type; rewrite (deref_ret x d e He); cbn [mbind outcome_bind]; by rewrite Ht|].
    pose proof (find_index_spec d l U x (Z.to_nat (index_of k)) Hwf Hr) as Hf. cbn [read_value_or].
    destruct (l !! Z.to_nat (index_of k)) as [[key w]|] eqn:El; [|by rewrite Hf].
    destruct Hf as (y & Uy & -> & Hy). cbn [mbind outcome_bind]. apply (read_element t d w Uy y Hy). by eapply nth_in_range.
  - pose proof Hr as (e & He & _ & _ & Ht & _). unfold value, value_or. rewrite (deref_ret x d e He). cbn [mbind outcome_bind]. rewrite Ht.
    cbn [type_of]. pose proof (find_key_spec d l U x k Hwf Hr) as Hf. cbn [read_value read_value_or].
    destruct (first k l) as [w|] eqn:El; [|by rewrite Hf].
    destruct Hf as (y & Uy & -> & Hy). cbn [mbind outcome_bind].
    split; (apply (read_element t d w Uy y Hy); by eapply first_in_range).
Qed.

End reading.

(** ** Comparing *)

Section comparing.
Context (grow : nat -> nat).

(** The cases of elements without elements below, of the same type. *)
Definition equal_scalar (e e' : MutableElement) : outcome bool :=
  match element_type_ e with
  | BOOL | DOUBLE | INT64 | UINT64 => a ← int_bits e; b ← int_bits e'; Ret (Z.eqb a b)
  | NULL_VALUE => Ret true
  | STRING => a ← get_string e; b ← get_string e'; Ret (bool_decide (a = b))
  | ARRAY | OBJECT => Stuck
  end.

(** [operator==] of the element at [x] and the one at [y] of another document, whose
    elements are found with [at], which may change it. *)
Fixpoint equal (fuel : nat) (x : nat) (d : MutableDocument) (y : nat) (d' : MutableDocument) : outcome (bool * MutableDocument) :=
  match fuel with
  | O => Stuck
  | S fuel =>
      e ← deref x d;
      e' ← deref y d';
      if bool_decide (element_type_ e <> element_type_ e') then Ret (false, d') else
      match element_type_ e with
      | ARRAY =>
          if negb (size_ e =? size_ e') then Ret (false, d') else
          c ← child e;
          (fix items (n i : nat) (o : option nat) (d' : MutableDocument) : outcome (bool * MutableDocument) :=
             match o with
             | None => Ret (true, d')
             | Some z =>
                 match n with
                 | O => Stuck
                 | S n =>
                     el ← deref z d;
                     '(w, d') ← at_index grow y i d';
                     '(b, d') ← equal fuel z d w d';
                     if (b : bool) then items n (S i) (next_ el) d' else Ret (false, d')
                 end
             end) (fresh d) 0 c d'
      | OBJECT =>
          if negb (size_ e =? size_ e') then Ret (false, d') else
          c ← child e;
          (fix fields (n : nat) (o : option nat) (d' : MutableDocument) : outcome (bool * MutableDocument) :=
             match o with
             | None => Ret (true, d')
             | Some z =>
                 match n with
                 | O => Stuck
                 | S n =>
                     el ← deref z d;
                     k ← key el;
                     f ← find_key y k d';
                     match f with
                     | None => Ret (false, d')
                     | Some _ =>
                         '(w, d') ← at_key grow y k d';
                         '(b, d') ← equal fuel z d w d';
                         if (b : bool) then fields n (next_ el) d' else Ret (false, d')
                     end
                 end
             end) (fresh d) c d'
      | _ => b ← equal_scalar e e'; Ret (b, d')
      end
  end.

(** The same on values. *)
Definition scalar_eqb (s t : scalar) : bool :=
  match s, t with
  | SNull, SNull => true
  | SBool a, SBool b => Bool.eqb a b
  | SInt a, SInt b | SUInt a, SUInt b | SDouble a, SDouble b => Z.eqb a b
  | SStr a, SStr b => bool_decide (a = b)
  | _, _ => false
  end.

Fixpoint json_eqb (v w : json) {struct v} : bool :=
  match v, w with
  | JScalar s, JScalar t => scalar_eqb s t
  | JCont Arr l, JCont Arr l' =>
      (length l =? length l') &&
      (fix items (l l' : list (str * json)) : bool :=
         match l, l' with
         | [], _ => true
         | (_, v) :: l, (_, w) :: l' => json_eqb v w && items l l'
         | _ :: _, [] => false
         end) l l'
  | JCont Obj l, JCont Obj l' =>
      (length l =? length l') &&
      (fix fields (l : list (str * json)) : bool :=
         match l with
         | [] => true
         | (k, v) :: l => match first k l' with Some w => json_eqb v w && fields l | None => false end
         end) l
  | _, _ => false
  end.

(** Looking up what is there changes nothing. *)
Lemma at_key_same d l U y k w : wf d -> repr d (JCont Obj l) U y -> first k l = Some w ->
  exists z Uz, find_key y k d = Ret (Some z) /\ at_key grow y k d = Ret (z, d) /\ repr d w Uz z.
Proof.
  intros Hwf Hr Hf. pose proof (find_key_spec d l U y k Hwf Hr) as Hs. rewrite Hf in Hs. destruct Hs as (z & Uz & Hz & Hrz).
  exists z, Uz. split; [done|]. split; [|done]. apply repr_opened in Hr as (c & ys & Ho). pose proof Ho as (e & He & _ & _ & Ht & _ & Hv & _).
  unfold find_key in Hz. unfold at_key. rewrite (deref_ret y d e He) in *. cbn [mbind outcome_bind] in *.
  unfold is_type, child in *. rewrite Ht, Hv in *. cbn [type_of negb bool_decide] in *. change (bool_decide (OBJECT ∈ [OBJECT])) with true in Hz.
  change (bool_decide (OBJECT ∈ [OBJECT; NULL_VALUE])) with true. cbn [negb mbind outcome_bind] in *.
  rewrite (update_ret y _ d e He). cbn [mbind outcome_bind].
  replace (set_type OBJECT e) with e by (destruct e; cbn in Ht; by subst). rewrite set_nodes_id by done.
  destruct (key_loop (fresh d) k None c d) as [[found tail] | |]; try done. cbn [mbind outcome_bind] in *. by injection Hz as ->.
Qed.

Lemma at_index_same d l U y i key w : wf d -> repr d (JCont Arr l) U y -> l !! i = Some (key, w) ->
  exists z Uz, at_index grow y i d = Ret (z, d) /\ repr d w Uz z.
Proof.
  intros Hwf Hr Hl. pose proof (find_index_spec d l U y i Hwf Hr) as Hs. rewrite Hl in Hs. destruct Hs as (z & Uz & Hz & Hrz).
  exists z, Uz. split; [|done]. apply repr_opened in Hr as (c & ys & Ho). pose proof Ho as (e & He & _ & _ & Ht & Hsz & Hv & _).
  unfold find_index in Hz. unfold at_index. rewrite (deref_ret y d e He) in *. cbn [mbind outcome_bind] in *.
  unfold is_type, child in *. rewrite Ht, Hv, Hsz in *. cbn [type_of negb] in *. change (bool_decide (ARRAY ∈ [ARRAY])) with true in Hz.
  change (bool_decide (ARRAY ∈ [ARRAY; NULL_VALUE])) with true. cbn [negb mbind outcome_bind] in *.
  rewrite (update_ret y _ d e He). cbn [mbind outcome_bind].
  replace (set_type ARRAY e) with e by (destruct e; cbn in Ht; by subst). rewrite set_nodes_id by done.
  pose proof (lookup_lt_Some _ _ _ Hl) as Hi. rewrite (proj2 (Nat.leb_gt _ _)) in Hz by lia.
  destruct (index_loop (fresh d) 0 i None c d) as [[[found tail] j] | |]; try done. cbn [mbind outcome_bind] in *. by injection Hz as ->.
Qed.

Lemma scalar_equal s t e e' : in_range (JScalar s) -> in_range (JScalar t) ->
  element_type_ e = element_type_ (scalar_element s) -> value_ e = value_ (scalar_element s) -> size_ e = size_ (scalar_element s) ->
  element_type_ e' = element_type_ (scalar_element t) -> value_ e' = value_ (scalar_element t) -> size_ e' = size_ (scalar_element t) ->
  element_type_ e = element_type_ e' ->
  equal_scalar e e' = Ret (scalar_eqb s t).
Proof.
  intros Hs Ht E1 E2 E3 E4 E5 E6 E. rewrite E1, E4 in E. unfold equal_scalar. rewrite E1. unfold int_bits, get_string, is_type. rewrite E1, E2, E3, E4, E5, E6.
  destruct s, t; cbn in E |- *; try done.
  - by destruct b, b0.
  - cbn in Hs, Ht. f_equal. apply eq_bool_prop_intro. rewrite !Is_true_true, !Z.eqb_eq. split; [|congruence].
    intros E'. rewrite <- (u64_i64 z), <- (u64_i64 z0) by done. by rewrite E'.
  - by rewrite !take_ge by done.
Qed.

Lemma array_equal_loop d d' l' y U' fuel (items : nat -> nat -> option nat -> MutableDocument -> outcome (bool * MutableDocument)) :
  wf d' -> repr d' (JCont Arr l') U' y ->
  (forall n i o d', items n i o d' = match o with
     | None => Ret (true, d')
     | Some z => match n with
       | O => Stuck
       | S n => el ← deref z d; '(w, d') ← at_index grow y i d'; '(b, d') ← equal fuel z d w d';
                if (b : bool) then items n (S i) (next_ el) d' else Ret (false, d')
       end end) ->
  forall l ys o U n i rest, chain d (repr d) Arr l ys o U -> length ys <= n -> drop i l' = rest -> length l = length rest ->
  (forall v w key key', (key, v) ∈ l -> (key', w) ∈ rest -> forall Uz z Uw z', repr d v Uz z -> repr d' w Uw z' ->
     equal fuel z d z' d' = Ret (json_eqb v w, d')) ->
  items n i o d' = Ret ((fix items (l l' : list (str * json)) : bool :=
         match l, l' with
         | [], _ => true
         | (_, v) :: l, (_, w) :: l' => json_eqb v w && items l l'
         | _ :: _, [] => false
         end) l rest, d').
Proof.
  intros Hwf Hr Hitems. induction l as [|[key v] l IH]; intros [|z ys] o U n i rest; cbn [chain]; try done.
  - intros [-> _] _ _ _ _. by rewrite Hitems.
  - intros (e & Uz & Ul & -> & He & Hk & Hz & Hc & _) Hn Hd Hlen Heq. destruct n as [|n]; [cbn in Hn; lia|].
    destruct rest as [|[key' w] rest]; [done|]. assert (l' !! i = Some (key', w)) as Hl.
    { rewrite <- (Nat.add_0_r i), <- lookup_drop, Hd. done. }
    destruct (at_index_same d' l' U' y i key' w Hwf Hr Hl) as (z' & Uw & Hat & Hw).
    rewrite Hitems, (deref_ret z d e He). cbn [mbind outcome_bind]. rewrite Hat. cbn [mbind outcome_bind].
    rewrite (Heq v w key key' ltac:(by left) ltac:(by left) Uz z Uw z' Hz Hw). cbn [mbind outcome_bind].
    destruct (json_eqb v w); [|done]. cbn [andb]. apply (IH ys (next_ e) Ul n (S i) rest Hc).
    + cbn in Hn. lia.
    + rewrite (drop_S _ _ _ Hl) in Hd. by injection Hd.
    + cbn in Hlen. lia.
    + intros v0 w0 k0 k0' Hv0 Hw0. apply (Heq v0 w0 k0 k0'); by right.
Qed.

Lemma object_equal_loop d d' l' y U' fuel (fields : nat -> option nat -> MutableDocument -> outcome (bool * MutableDocument)) :
  wf d' -> repr d' (JCont Obj l') U' y ->
  (forall n o d', fields n o d' = match o with
     | None => Ret (true, d')
     | Some z => match n with
       | O => Stuck
       | S n => el ← deref z d; k ← key el; f ← find_key y k d';
                match f with
                | None => Ret (false, d')
                | Some _ => '(w, d') ← at_key grow y k d'; '(b, d') ← equal fuel z d w d';
                            if (b : bool) then fields n (next_ el) d' else Ret (false, d')
                end
       end end) ->
  forall l ys o U n, chain d (repr d) Obj l ys o U -> length ys <= n ->
  (forall v w key, (key, v) ∈ l -> first key l' = Some w -> forall Uz z Uw z', repr d v Uz z -> repr d' w Uw z' ->
     equal fuel z d z' d' = Ret (json_eqb v w, d')) ->
  fields n o d' = Ret ((fix fields (l : list (str * json)) : bool :=
         match l with
         | [] => true
         | (k, v) :: l => match first k l' with Some w => json_eqb v w && fields l | None => false end
         end) l, d').
Proof.
  intros Hwf Hr Hfields. induction l as [|[k v] l IH]; intros [|z ys] o U n; cbn [chain]; try done.
  - intros [-> _] _ _. by rewrite Hfields.
  - intros (e & Uz & Ul & -> & He & Hk & Hz & Hc & _) Hn Heq. destruct n as [|n]; [cbn in Hn; lia|].
    rewrite Hfields, (deref_ret z d e He). cbn [mbind outcome_bind]. cbn in Hk. unfold key. rewrite Hk. cbn [defined mbind outcome_bind].
    destruct (first k l') as [w|] eqn:Ef.
    + destruct (at_key_same d' l' U' y k w Hwf Hr Ef) as (z' & Uw & Hfind & Hat & Hw).
      rewrite Hfind. cbn [mbind outcome_bind]. rewrite Hat. cbn [mbind outcome_bind].
      rewrite (Heq v w k ltac:(by left) Ef Uz z Uw z' Hz Hw). cbn [mbind outcome_bind].
      destruct (json_eqb v w); [|done]. cbn [andb]. apply (IH ys (next_ e) Ul n Hc); [cbn in Hn; lia|].
      intros v0 w0 k0 Hv0. apply (Heq v0 w0 k0). by right.
    + pose proof (find_key_spec d' l' U' y k Hwf Hr) as Hs. rewrite Ef in Hs. by rewrite Hs.
Qed.

Lemma in_range_item k l key v : in_range (JCont k l) -> (key, v) ∈ l -> in_range v.
Proof.
  intros Hin Hv. apply list_elem_of_lookup_1 in Hv as [i Hi]. by eapply nth_in_range.
Qed.

Lemma depth_item k l key v : (key, v) ∈ l -> S (depth v) <= depth (JCont k l).
Proof.
  cbn [depth]. intros Hv. apply le_n_S. induction l as [|[key' w] l IH]; [by apply elem_of_nil in Hv|].
  apply elem_of_cons in Hv as [[= <- <-] | Hv]; [lia|]. specialize (IH Hv). lia.
Qed.

Lemma first_elem k l v : first k l = Some v -> (k, v) ∈ l.
Proof.
  intros E. pose proof (first_cases k l) as H. rewrite E in H. destruct H as (l1 & l2 & -> & _). apply elem_of_app. right. by left.
Qed.

Lemma equal_spec v : forall w fuel x d y d' U U',
  wf d -> wf d' -> repr d v U x -> repr d' w U' y -> in_range v -> in_range w -> depth v <= fuel ->
  equal fuel x d y d' = Ret (json_eqb v w, d').
Proof.
  induction v as [s | k l IH] using json_ind'; intros w [|fuel] x d y d' U U' Hwf Hwf' Hv Hw Hin Hin' Hf; try (cbn in Hf; lia);
    cbn [equal]; destruct (repr_self _ _ _ _ Hv) as (e & He & _); destruct (repr_self _ _ _ _ Hw) as (e' & He' & _);
    rewrite (deref_ret x d e He), (deref_ret y d' e' He'); cbn [mbind outcome_bind].
  - destruct Hv as (e0 & He0 & _ & _ & Ht & Hu & Hs & _). replace e0 with e in * by congruence.
    destruct w as [t | [|] l']; destruct Hw as (e1 & He1 & _ & _ & Ht' & Hw); replace e1 with e' in * by congruence.
    + destruct Hw as (Hu' & Hs' & _). destruct (decide (element_type_ e = element_type_ e')) as [Et | Et].
      * rewrite bool_decide_false by tauto. pose proof (scalar_equal s t e e' Hin Hin' Ht Hu Hs Ht' Hu' Hs' Et) as E.
        cbn [json_eqb]. rewrite Ht in *. destruct s; cbn in E |- *; rewrite E; done.
      * rewrite bool_decide_true by done. cbn [json_eqb]. do 2 f_equal. rewrite Ht, Ht' in Et. by destruct s, t.
    + rewrite bool_decide_true by (rewrite Ht, Ht'; by destruct s). done.
    + rewrite bool_decide_true by (rewrite Ht, Ht'; by destruct s). done.
  - pose proof Hv as (e0 & He0 & Hdoc & HxU & Ht & Hsz & c & ys & Hu & Hc).
    assert (opened d k U x l c ys) as Ho by (by exists e0). replace e0 with e in * by congruence.
    destruct (opened_length d k U x l c ys Hwf Ho) as [_ Hfuel].
    destruct w as [t | k' l'].
    { destruct Hw as (e1 & He1 & _ & _ & Ht' & _). replace e1 with e' in * by congruence.
      rewrite bool_decide_true by (rewrite Ht, Ht'; by destruct k, t). by destruct k. }
    pose proof Hw as (e1 & He1 & _ & _ & Ht' & Hsz' & _). replace e1 with e' in * by congruence. rewrite Forall_forall in IH.
    destruct k, k'; try (rewrite bool_decide_true by (rewrite Ht, Ht'; cbn; discriminate); done);
      (rewrite bool_decide_false by (rewrite Ht, Ht'; tauto)); rewrite Ht; cbn [type_of]; rewrite Hsz, Hsz'; cbn [json_eqb];
      (destruct (Nat.eqb_spec (length l) (length l')) as [Hlen | Hlen]; cbn [negb]; [|done]); unfold child; rewrite Hu; cbn [mbind outcome_bind andb].
    + eapply (array_equal_loop d d' l' y U' fuel _ Hwf' Hw); [by intros [|n] i [z|] d0 | exact Hc | done | done | exact Hlen|].
      intros v0 w0 key key' Hv0 Hw0 Uz z Uw z' Hz Hz'. apply (IH (key, v0) Hv0 w0 fuel z d z' d' Uz Uw); try done;
        [exact (in_range_item Arr l key v0 Hin Hv0) | exact (in_range_item Arr l' key' w0 Hin' Hw0)|]. pose proof (depth_item Arr l key v0 Hv0). cbn in *. lia.
    + eapply (object_equal_loop d d' l' y U' fuel _ Hwf' Hw); [by intros [|n] [z|] d0 | exact Hc | done|].
      intros v0 w0 key Hv0 Hw0 Uz z Uw z' Hz Hz'. apply first_elem in Hw0. apply (IH (key, v0) Hv0 w0 fuel z d z' d' Uz Uw); try done;
        [exact (in_range_item Obj l key v0 Hin Hv0) | exact (in_range_item Obj l' key w0 Hin' Hw0)|]. pose proof (depth_item Obj l key v0 Hv0). cbn in *. lia.
Qed.

(** ** Equality of values *)

(** Values are the same up to the order of the fields of objects. *)
Fixpoint same (v w : json) {struct v} : Prop :=
  match v, w with
  | JScalar s, JScalar t => s = t
  | JCont Arr l, JCont Arr l' =>
      (fix all (l l' : list (str * json)) : Prop :=
         match l, l' with
         | [], [] => True
         | (_, v) :: l, (_, w) :: l' => same v w /\ all l l'
         | _, _ => False
         end) l l'
  | JCont Obj l, JCont Obj l' =>
      exists l'', l' ≡ₚ l'' /\
      (fix all (l l' : list (str * json)) : Prop :=
         match l, l' with
         | [], [] => True
         | (k, v) :: l, (k', w) :: l' => k = k' /\ same v w /\ all l l'
         | _, _ => False
         end) l l''
  | _, _ => False
  end.

Lemma scalar_eqb_spec s t : scalar_eqb s t = true <-> s = t.
Proof.
  destruct s, t; cbn; try done; rewrite ?eqb_true_iff, ?Z.eqb_eq, ?bool_decide_eq_true; split; congruence.
Qed.

Lemma all_of_item P l key v : all_of P l -> (key, v) ∈ l -> P v.
Proof.
  induction l as [|[k w] l IH]; [by intros _ ?%elem_of_nil|]. intros [Hw Hl] [[= -> ->] | Hv]%elem_of_cons; [done | by apply IH].
Qed.

Lemma first_unique l k v : NoDup l.*1 -> (k, v) ∈ l -> first k l = Some v.
Proof.
  induction l as [|[k' w] l IH]; [by intros _ ?%elem_of_nil|]. rewrite fmap_cons. intros [Hk Hn]%NoDup_cons Hv. cbn in Hk. cbn [first].
  apply elem_of_cons in Hv as [[= <- <-] | Hv]; [by rewrite bool_decide_true|].
  rewrite bool_decide_false; [by apply IH|]. intros ->. apply Hk. apply list_elem_of_fmap. by exists (k, v).
Qed.

Lemma json_eqb_same v : forall w, distinct v -> distinct w -> json_eqb v w = true <-> same v w.
Proof.
  induction v as [s | k l IH] using json_ind'; intros [t | k' l'] Hv Hw; [apply scalar_eqb_spec | done | by destruct k |].
  destruct Hv as [Hk Hv], Hw as [Hk' Hw].
  assert (forall key v w, (key, v) ∈ l -> distinct w -> json_eqb v w = true <-> same v w) as IH'.
  { intros key v w Hin Hd. rewrite Forall_forall in IH. apply (IH (key, v) Hin w); [exact (all_of_item distinct l key v Hv Hin) | done]. }
  clear IH. destruct k, k'; try done; cbn [json_eqb same]; rewrite andb_true_iff, Nat.eqb_eq.
  - clear Hk Hk'. revert l' Hw. induction l as [|[key v] l IHl]; intros [|[key' w] l'] Hw; cbn [length].
    + by split.
    + by split; [intros [? _] |].
    + by split; [intros [? _] |].
    + destruct Hv as [Hv Hvs], Hw as [Hw Hws]. rewrite andb_true_iff, (IH' key v w ltac:(by left) Hw).
      specialize (IHl Hvs (fun key v w Hin => IH' key v w ltac:(by right)) l' Hws).
      split; [intros [Hlen [Hs Ha]]; split; [done | apply IHl; split; [lia | done]] | intros [Hs Ha]; apply IHl in Ha as [Hlen Ha]; split; [lia | done]].
  - cbn [keys_ok] in Hk, Hk'. split.
    + intros [Hlen Hf].
      assert (exists l'', l''.*1 = l.*1 /\ (forall kw, kw ∈ l'' -> kw ∈ l') /\
        (fix all (l l' : list (str * json)) : Prop :=
         match l, l' with
         | [], [] => True
         | (k, v) :: l, (k', w) :: l' => k = k' /\ same v w /\ all l l'
         | _, _ => False
         end) l l'') as (l'' & Hkeys & Hsub & Hall).
      { clear Hlen Hk Hv. induction l as [|[key v] l IHl]; [exists []; split; [done|]; split; [by intros ? ?%elem_of_nil | done]|].
        destruct (first key l') as [w|] eqn:Ef; [|done]. apply andb_true_iff in Hf as [He Hf]. apply first_elem in Ef.
        destruct (IHl ltac:(intros key0 v0 w0 Hin; apply (IH' key0); by right) Hf) as (l'' & Hkeys & Hsub & Hall).
        exists ((key, w) :: l''). split; [cbn; by rewrite Hkeys|]. split; [intros kw [-> | ?]%elem_of_cons; auto|].
        split; [done|]. split; [|done]. apply (IH' key); [by left | exact (all_of_item distinct l' key w Hw Ef) | done]. }
      exists l''. split; [|done]. symmetry. apply NoDup_Permutation_bis.
      * apply NoDup_ListNoDup. apply (NoDup_fmap_1 fst). by rewrite Hkeys.
      * rewrite <- Hlen, <- (length_fmap fst l''), Hkeys, length_fmap. done.
      * intros kw Hin. apply list_elem_of_In, Hsub, list_elem_of_In, Hin.
    + intros (l'' & Hp & Hall). split.
      { rewrite Hp. clear -Hall. revert l'' Hall. induction l as [|[key v] l IHl]; intros [|[key' w] l'']; try done.
        intros (_ & _ & Ha). cbn. by rewrite (IHl l'' Ha). }
      assert (forall kw, kw ∈ l'' -> kw ∈ l') as Hsub by (intros kw; by rewrite Hp). clear Hp Hk Hv.
      revert l'' Hall Hsub. induction l as [|[key v] l IHl]; intros [|[key' w] l'']; try done.
      intros (<- & Hs & Ha) Hsub. assert ((key, w) ∈ l') as Hin by (apply Hsub; by left).
      rewrite (first_unique l' key w Hk' Hin), andb_true_iff. split.
      * apply (IH' key); [by left | exact (all_of_item distinct l' key w Hw Hin) | done].
      * apply (IHl ltac:(intros key0 v0 w0 Hin0; apply (IH' key0); by right) l'' Ha). intros kw Hkw. apply Hsub. by right.
Qed.

(** C36: Comparing elements compares what they stand for: for documents that represent
    values with distinct keys, the comparison returns, changes nothing, and is true
    exactly when the values are the same up to the order of fields; numbers are
    compared with their type and their bits. *)
Theorem equal_elements_same_value (d d' : MutableDocument) (v w : json) (U U' : gset nat) (x y : nat) :
  wf d -> wf d' -> repr d v U x -> repr d' w U' y -> in_range v -> in_range w -> distinct v -> distinct w ->
  exists b, equal (depth v) x d y d' = Ret (b, d') /\ (b = true <-> same v w).
Proof.
  intros Hwf Hwf' Hv Hw Hin Hin' Hd Hd'. exists (json_eqb v w). split; [by apply (equal_spec v w _ x d y d' U U')|].
  by apply json_eqb_same.
Qed.

End comparing.

(** A [double] is read from its text, which is empty, and not from its bits. *)
Lemma double_is_lost stod bits : read stod TDouble (JScalar (SDouble bits)) = Ret (SDouble (stod [])).
Proof. done. Qed.

(** ** Examples *)

Lemma one_field_wf : wf one_field.
Proof.
  intros y e. unfold one_field. cbn. intros [[<- _] | [_ Hy]]%lookup_insert_Some; [lia|].
  apply lookup_singleton_Some in Hy as [<- _]. lia.
Qed.

Lemma one_field_repr : repr one_field (JObj [(lit "a", JScalar (SInt 5))]) {[1]} 0.
Proof.
  eexists. split; [reflexivity|]. split; [reflexivity|]. split; [set_solver|]. split; [reflexivity|]. split; [reflexivity|].
  exists (Some 1), [1]. split; [reflexivity|]. eexists _, ∅, ∅. split; [reflexivity|]. split; [reflexivity|]. split; [reflexivity|].
  split; [eexists; repeat (split; [reflexivity || set_solver|]); reflexivity|]. split; [done|]. set_solver.
Qed.

Lemma document_reads_value_witness :
  value (fun _ => 0%Z) TInt64 0 (lit "a") one_field = Ret (SInt 5)
  /\ value_or (fun _ => 0%Z) TString 0 (lit "b") (SStr (lit "x")) one_field = Ret (SStr (lit "x"))
  /\ value (fun _ => 0%Z) TString 0 (lit "a") one_field = Throw.
Proof.
  split; [|split].
  - exact (proj1 (document_reads_value (fun _ => 0%Z) TInt64 one_field _ _ 0 (lit "a") SNull one_field_wf one_field_repr (conj I I))).
  - exact (proj2 (document_reads_value (fun _ => 0%Z) TString one_field _ _ 0 (lit "b") (SStr (lit "x")) one_field_wf one_field_repr (conj I I))).
  - exact (proj1 (document_reads_value (fun _ => 0%Z) TString one_field _ _ 0 (lit "a") SNull one_field_wf one_field_repr (conj I I))).
Defined.

Lemma equal_elements_same_value_witness :
  exists b, equal (fun n => 2 * n) 2 0 one_field 0 one_field = Ret (b, one_field)
    /\ (b = true <-> same (JObj [(lit "a", JScalar (SInt 5))]) (JObj [(lit "a", JScalar (SInt 5))])).
Proof.
  apply (equal_elements_same_value (fun n => 2 * n) one_field one_field _ _ {[1]} {[1]} 0 0
    one_field_wf one_field_wf one_field_repr one_field_repr (conj I I) (conj I I));
    (split; [apply NoDup_singleton | done]).
Defined.
